(* ===== verification/_CoqProject ===== *)
-Q . S2P
Prelude.v
Float64.v
BTree.v
Wire.v
Columns.v
Stored.v
RustStr.v
Rollup.v
TableArgs.v
Template.v
TemplateColumn.v
TemplateSearch.v
FlatJson.v
LogEntry.v
PairsColumn.v
BlockCodec.v
BlockSearch.v
MemBlockStore.v
BlockRecovery.v
StoredJson.v
Witnesses.v
