(* ===== verification/Prelude.v ===== *)
(** * Timeless: verification of the storage core

    Timeless is a SQLite extension that stores metrics, logs and traces as
    compressed columnar blocks. Writers append entries to an engine's buffer; a
    flush partitions the buffer by level and encodes each part as a block; a block
    store keeps the bytes and a term index over them; compaction rewrites small or
    raw blocks with a stronger codec; queries prune blocks by time, term and
    message substring before decoding. This library models the part of the program
    that decides what bytes are written and what comes back, and proves it.

    ** What models what

    - [Prelude]: results and error values, fixed-width integers, little-endian
      bytes, UTF-8 validity (the [str] invariant), shared lemmas and hints.
    - [Float64]: [f64] as a 64-bit pattern with executable IEEE arithmetic.
    - [BTree]: [BTreeMap], [BTreeSet] and [slice::binary_search_by] as sorted lists.
    - [RustStr]: the parts of [str] and integer parsing the sources use.
    - [Wire]: [timeless-codec/src/lib.rs] up to the bitmap codec: the bounds-checked
      [Reader], column frames, size checks, compression wrappers, presence bitmaps.
    - [Columns]: the i64, f64, string, u8 and fixed-width columns of the same file.
    - [Rollup]: [timeless-core/src/rollup.rs], the aggregation kernel, its payload
      and the ladder syntax.
    - [TableArgs]: [timeless-ext/src/table_args.rs], the arguments of CREATE VIRTUAL
      TABLE.
    - [Template], [TemplateColumn], [TemplateSearch]: [blocks/template.rs], the
      message tokenizer, the template column and substring search over it.
    - [FlatJson]: [timeless-ext/src/flatjson.rs], flat JSON printing and parsing.
    - [LogEntry]: levels, severities, entries and accounting of [blocks/mod.rs].
    - [PairsColumn], [BlockCodec], [BlockSearch]: [blocks/codec.rs], the metadata
      column, the seven block codecs with projected decoding, and the substring
      gate with the filtered decode.
    - [MemBlockStore]: the [BlockStore] trait of [blocks/mod.rs], the contract the
      engine relies on as the class [StoreContract], and the in-memory store
      [blocks/mem.rs] that discharges it.
    - [BlockRecovery]: the index recovery of [BlockEngine::new], proved against the
      contract for any store.
    - [Stored], [StoredJson]: small executable compressors and a flat JSON library,
      used to instantiate the interfaces of third-party code.
    - [Witnesses]: the theorems applied to concrete inputs.

    A Rust function is a Rocq function of the same name returning [result] where the
    source returns [Result<_, String>]; an error keeps the source's format string
    and arguments. [&mut self] state is threaded explicitly. A panic (slice index,
    [unwrap]) is an error value too, so that the theorems that give [Ok] also show
    its absence. A loop is a [Fixpoint], structural where it can be; otherwise its
    fuel is the length of the unread input (plus one), and each iteration consumes
    at least a byte, so fuel never runs out. The round-trip theorems would fail
    otherwise; the loops of the JSON cursor, which read arbitrary input, return the
    error [out_of_fuel] in that case, and [flat_json_terminates] shows that no input
    gives it.

    ** What the theorems show

    - Round trips: frames, bitmaps, every column type, rollup payloads, ladders,
      flat JSON, the metadata column, the template column and whole blocks under
      all seven codecs decode to what was encoded; sizes are bounded by the caps the
      decoders enforce (64 MiB per decompressed column, 2^20 entries per block), and
      the hypotheses say so ([str_column_fits], [block_fits]). For template columns
      they ask for messages of at most 8 MiB together ([messages_fit]), since the
      columns a message is split into can be several times its size.
    - Arbitrary bytes: a decoder that succeeds returns exactly the count it was asked
      for, and a block that decodes has a truthful header.
    - Search, for needles whose inner digit runs have at most 19 digits: the filtered
      decoders equal decode-then-filter and the gates' "no" is a proof of absence; a
      counterexample shows that the bound is needed.
    - Aggregation: the streaming kernel is the bucket contract; a coarse bucket is the
      aggregate of the samples of its fine buckets, its count, extrema and newest
      sample are functions of theirs.
    - Termination: the JSON parsers end on every input.
    - Storage: any run of operations on the in-memory store refines the abstract
      store; postings never dangle; queries are exact; the compaction swap has no
      window; the recovered index is exact.

    ** Parameters

    [zstd], [pco] and [serde_json] are third-party crates: the classes [Zstd], [Pco]
    and [SerdeJson] name the calls made of them and [ZstdLaws], [PcoLaws] and
    [SerdeJsonLaws] what their documentation promises (decompression inverts
    compression within the capacity, output never exceeds the capacity; a map of
    strings parses back). [str::to_lowercase] is an argument of the functions that
    call it. Hash maps are [gmap]: where the source collects one in iteration order
    the result does not depend on it.

    ** Not modelled

    The engines' buffers, transactions and background policies beyond recovery, the
    span codec, the metrics engine and its stores, the SQLite glue, the servers and
    the tools. Capacities ([Vec::with_capacity]) and allocation failure are not
    modelled; [reserve_decoded] is its bound check. The store's lock is modelled by
    atomic operations, and its [i64] id counter as unbounded.

    Next, in order: the block engine (term extraction, flush, optimize, prune,
    query), the span codec and engine, the metrics chunk store, the Prometheus text
    parser. *)
From Stdlib Require Import ZArith Lia Bool.
From Stdlib Require Import Strings.Byte.
From stdpp Require Import prelude gmap list sorting strings.

Declare Scope timeless_scope.
Delimit Scope timeless_scope with tl.
Open Scope timeless_scope.
Open Scope Z_scope.
Open Scope list_scope.

(** ** Errors and results *)

(** A Rust error string is a format template and its arguments; nested errors
    are the arguments of the [map_err] wrappers. *)
Inductive error : Type :=
| Fmt (template : string) (args : list farg)
with farg : Type :=
| FStr (s : string)
| FNum (z : Z)
| FBytes (s : list byte)
| FErr (e : error).

(** What a loop of the model returns when its fuel runs out; no source error reads
    like it, so that a loop that does not end is told from one that fails. *)
Definition out_of_fuel : error := Fmt "out of fuel" [].

Inductive result (A : Type) : Type :=
| Ok (a : A)
| Err (e : error).
Arguments Ok {A} a.
Arguments Err {A} e.

Definition is_ok {A} (r : result A) : bool :=
  match r with Ok _ => true | Err _ => false end.

Notation "'let?' pat ':=' c1 'in' c2" :=
  (match c1 with Ok pat => c2 | Err e => Err e end)
  (at level 10, pat pattern, c1 at level 100, c2 at level 200)
  : timeless_scope.

Definition map_err {A} (f : error -> error) (r : result A) : result A :=
  match r with Ok a => Ok a | Err e => Err (f e) end.

Definition ok_or {A} (o : option A) (e : error) : result A :=
  match o with Some a => Ok a | None => Err e end.

(** [iter().map(f).collect::<Result<Vec<_>, _>>()]: stops at the first error. *)
Fixpoint map_result {A B} (f : A -> result B) (l : list A) : result (list B) :=
  match l with
  | [] => Ok []
  | x :: l' => let? y := f x in let? ys := map_result f l' in Ok (y :: ys)
  end.

(** Case analysis on the results a computation binds. *)
Ltac inv_ok H :=
  repeat match type of H with
  | (match ?x with Ok _ => _ | Err _ => _ end) = Ok _ =>
      let E := fresh "E" in destruct x eqn:E; [|discriminate H]
  | (if ?x then Err _ else _) = Ok _ =>
      let E := fresh "E" in destruct x eqn:E; [discriminate H|]
  | (if ?x then _ else Err _) = Ok _ =>
      let E := fresh "E" in destruct x eqn:E; [|discriminate H]
  | (match ?x with pair _ _ => _ end) = Ok _ => destruct x
  | Ok _ = Ok _ => injection H as H
  end.

Lemma map_result_Forall2 {A B} (f : A -> result B) l ys :
  map_result f l = Ok ys <-> Forall2 (fun x y => f x = Ok y) l ys.
Proof.
  revert ys; induction l as [|x l IH]; intros ys; simpl; split; intros H.
  - injection H as <-. constructor.
  - inversion H. reflexivity.
  - destruct (f x) eqn:E; [|discriminate]. destruct (map_result f l) eqn:E2; [|discriminate].
    injection H as <-. constructor; [done|]. by apply IH.
  - inversion H as [|? y ? ys' Hy Hys]; subst. rewrite Hy.
    apply IH in Hys. by rewrite Hys.
Qed.

(** ** Lists *)

Lemma list_filter_all {A} (P : A -> Prop) `{!forall x, Decision (P x)} l :
  Forall P l -> filter P l = l.
Proof. induction 1; [done|]. rewrite filter_cons_True by done. by f_equal. Qed.

Lemma list_filter_none {A} (P : A -> Prop) `{!forall x, Decision (P x)} l :
  Forall (fun x => ~ P x) l -> filter P l = [].
Proof. induction 1; [done|]. by rewrite filter_cons_False. Qed.

Lemma elem_of_concat {A} (x : A) (ls : list (list A)) : x ∈ concat ls <-> exists l, x ∈ l /\ l ∈ ls.
Proof.
  rewrite list_elem_of_In, in_concat. setoid_rewrite list_elem_of_In. naive_solver.
Qed.

(** ** Machine integers

    [usize] is 64 bits wide, the width of the targets the extension ships for. *)

Definition u16_max : Z := 2 ^ 16 - 1.
Definition u32_max : Z := 2 ^ 32 - 1.
Definition usize_max : Z := 2 ^ 64 - 1.
Definition i64_min : Z := - 2 ^ 63.
Definition i64_max : Z := 2 ^ 63 - 1.

Definition is_i64 (z : Z) : Prop := i64_min <= z <= i64_max.
Definition is_u64 (z : Z) : Prop := 0 <= z < 2 ^ 64.
Definition is_u32 (z : Z) : Prop := 0 <= z <= u32_max.

(** Two's-complement reading of a 64-bit word. *)
Definition wrap_i64 (z : Z) : Z := (z + 2 ^ 63) mod 2 ^ 64 - 2 ^ 63.
Definition wrapping_add (a b : Z) : Z := wrap_i64 (a + b).
Definition wrapping_sub (a b : Z) : Z := wrap_i64 (a - b).

Definition usize_checked_mul (a b : Z) : option Z :=
  if a * b <=? usize_max then Some (a * b) else None.
Definition usize_checked_add (a b : Z) : option Z :=
  if a + b <=? usize_max then Some (a + b) else None.
Definition i64_checked_mul (a b : Z) : option Z :=
  if (i64_min <=? a * b) && (a * b <=? i64_max) then Some (a * b) else None.

Lemma wrap_i64_range z : is_i64 (wrap_i64 z).
Proof.
  unfold is_i64, wrap_i64, i64_min, i64_max.
  pose proof (Z.mod_pos_bound (z + 2 ^ 63) (2 ^ 64) ltac:(lia)). lia.
Qed.

Lemma wrap_i64_id z : is_i64 z -> wrap_i64 z = z.
Proof.
  unfold is_i64, wrap_i64, i64_min, i64_max. intros H.
  rewrite Z.mod_small by lia. lia.
Qed.

Lemma wrap_i64_mod z : wrap_i64 (z mod 2 ^ 64) = wrap_i64 z.
Proof. unfold wrap_i64. by rewrite Zplus_mod_idemp_l. Qed.

(** The wrapping difference is undone by the wrapping sum, at every pair of
    64-bit values. *)
Lemma wrapping_add_sub p v : is_i64 v -> wrapping_add p (wrapping_sub v p) = v.
Proof.
  intros H. unfold wrapping_add, wrapping_sub.
  rewrite <-(wrap_i64_id v) at 2 by done. unfold wrap_i64.
  f_equal.
  replace (p + ((v - p + 2 ^ 63) mod 2 ^ 64 - 2 ^ 63) + 2 ^ 63)
    with ((v - p + 2 ^ 63) mod 2 ^ 64 + p) by lia.
  rewrite Zplus_mod_idemp_l. f_equal. lia.
Qed.

(** ** Bytes *)

Definition b2z (b : byte) : Z := Z.of_N (Byte.to_N b).
Definition z2b (z : Z) : byte :=
  match Byte.of_N (Z.to_N (z mod 256)) with Some b => b | None => x00 end.

Arguments b2z : simpl never.
Arguments z2b : simpl never.

Lemma b2z_range b : 0 <= b2z b < 256.
Proof. unfold b2z. pose proof (Byte.to_N_bounded b). lia. Qed.

Lemma z2b_b2z b : z2b (b2z b) = b.
Proof.
  unfold z2b. rewrite Z.mod_small by apply b2z_range.
  unfold b2z. rewrite N2Z.id, Byte.of_to_N. done.
Qed.

Lemma b2z_z2b z : b2z (z2b z) = z mod 256.
Proof.
  unfold z2b. pose proof (Z.mod_pos_bound z 256 ltac:(lia)).
  destruct (Byte.of_N (Z.to_N (z mod 256))) as [b|] eqn:E.
  - apply Byte.to_of_N in E. unfold b2z. rewrite E. lia.
  - apply Byte.of_N_None_iff in E. lia.
Qed.

Lemma b2z_inj a b : b2z a = b2z b -> a = b.
Proof. intros H. rewrite <-(z2b_b2z a), <-(z2b_b2z b). by f_equal. Qed.

#[global] Instance byte_eq_dec : EqDecision byte := Byte.byte_eq_dec.
#[global] Program Instance byte_countable : Countable byte :=
  inj_countable Byte.to_N Byte.of_N _.
Next Obligation. intros. apply Byte.of_to_N. Qed.

Definition byte_eqb (a b : byte) : bool := bool_decide (a = b).

(** Little-endian framing: [to_le_bytes] of a [k]-byte integer (two's
    complement for a negative argument) and the unsigned value of a byte list. *)
Fixpoint le_bytes (k : nat) (z : Z) : list byte :=
  match k with
  | O => []
  | S k' => z2b z :: le_bytes k' (z / 256)
  end.

Fixpoint le_val (l : list byte) : Z :=
  match l with
  | [] => 0
  | b :: l' => b2z b + 256 * le_val l'
  end.

Lemma length_le_bytes k z : length (le_bytes k z) = k.
Proof. revert z; induction k; intros; simpl; auto. Qed.

Lemma le_val_bytes k z : le_val (le_bytes k z) = z mod 2 ^ (8 * Z.of_nat k).
Proof.
  revert z; induction k as [|k IH]; intros z; simpl le_bytes; simpl le_val.
  - by rewrite Z.mod_1_r.
  - rewrite IH, b2z_z2b.
    replace (8 * Z.of_nat (S k)) with (8 + 8 * Z.of_nat k) by lia.
    rewrite Z.pow_add_r by lia. change (2 ^ 8) with 256.
    rewrite Z.rem_mul_r by lia. done.
Qed.

Lemma le_val_range l : 0 <= le_val l < 2 ^ (8 * Z.of_nat (length l)).
Proof.
  induction l as [|b l IH]; simpl le_val; [simpl; lia|].
  change (length (b :: l)) with (S (length l)).
  replace (8 * Z.of_nat (S (length l))) with (8 + 8 * Z.of_nat (length l)) by lia.
  rewrite Z.pow_add_r by lia. change (2 ^ 8) with 256.
  pose proof (b2z_range b). lia.
Qed.

Lemma le_bytes_val l : le_bytes (length l) (le_val l) = l.
Proof.
  induction l as [|b l IH]; [done|]. simpl. f_equal.
  - apply b2z_inj. rewrite b2z_z2b. pose proof (b2z_range b).
    rewrite (Z.mul_comm 256), Z_mod_plus_full. by apply Z.mod_small.
  - replace ((b2z b + 256 * le_val l) / 256) with (le_val l); [done|].
    pose proof (b2z_range b). symmetry.
    rewrite (Z.mul_comm 256), Z.div_add by lia.
    rewrite (Z.div_small (b2z b)) by lia. lia.
Qed.

Definition u16_le (z : Z) : list byte := le_bytes 2 z.
Definition u32_le (z : Z) : list byte := le_bytes 4 z.
Definition u64_le (z : Z) : list byte := le_bytes 8 z.
Definition i64_le (z : Z) : list byte := le_bytes 8 z.
Definition i64_from_le (l : list byte) : Z := wrap_i64 (le_val l).

Lemma length_u16_le z : length (u16_le z) = 2%nat.
Proof. apply length_le_bytes. Qed.
Lemma length_u32_le z : length (u32_le z) = 4%nat.
Proof. apply length_le_bytes. Qed.
Lemma length_u64_le z : length (u64_le z) = 8%nat.
Proof. apply length_le_bytes. Qed.
Lemma length_i64_le z : length (i64_le z) = 8%nat.
Proof. apply length_le_bytes. Qed.

(** Sizes of encoded pieces. *)
Create HintDb wire.
Create Rewrite HintDb wire.
#[export] Hint Rewrite @length_app @length_cons @length_nil length_u16_le length_u32_le
  length_u64_le length_i64_le @length_take @length_drop @length_replicate : wire.
#[export] Hint Resolve length_u16_le length_u32_le length_u64_le length_i64_le : wire.

Lemma i64_from_le_bytes z : is_i64 z -> i64_from_le (i64_le z) = z.
Proof.
  intros H. unfold i64_from_le, i64_le. rewrite le_val_bytes.
  change (8 * Z.of_nat 8) with 64. rewrite wrap_i64_mod. by apply wrap_i64_id.
Qed.

Lemma le_val_u32 z : is_u32 z -> le_val (u32_le z) = z.
Proof.
  intros H. unfold u32_le. rewrite le_val_bytes.
  apply Z.mod_small. unfold is_u32, u32_max in H. simpl. lia.
Qed.

Lemma le_val_u64 z : is_u64 z -> le_val (u64_le z) = z.
Proof.
  intros H. unfold u64_le. rewrite le_val_bytes.
  apply Z.mod_small. unfold is_u64 in H. simpl. lia.
Qed.

Lemma le_val_u16 z : 0 <= z <= u16_max -> le_val (u16_le z) = z.
Proof.
  intros H. unfold u16_le. rewrite le_val_bytes.
  apply Z.mod_small. unfold u16_max in H. simpl. lia.
Qed.

Lemma u16_le_val l : length l = 2%nat -> u16_le (le_val l) = l.
Proof. intros H. unfold u16_le. rewrite <-H. apply le_bytes_val. Qed.

Lemma u32_le_val l : length l = 4%nat -> u32_le (le_val l) = l.
Proof. intros H. unfold u32_le. rewrite <-H. apply le_bytes_val. Qed.

Lemma le_bytes_mod k z : le_bytes k (z mod 2 ^ (8 * Z.of_nat k)) = le_bytes k z.
Proof.
  rewrite <-le_val_bytes. rewrite <-(length_le_bytes k z) at 1. apply le_bytes_val.
Qed.

(** Eight bytes are the encoding of what they decode to. *)
Lemma i64_le_word w : length w = 8%nat -> i64_le (i64_from_le w) = w.
Proof.
  intros Hw. unfold i64_le, i64_from_le, wrap_i64. rewrite <-le_bytes_mod.
  change (8 * Z.of_nat 8) with 64. rewrite Zminus_mod_idemp_l, Z.add_simpl_r.
  pose proof (le_val_range w) as Hr. rewrite Hw in Hr. change (8 * Z.of_nat 8) with 64 in Hr.
  rewrite Z.mod_small by done. rewrite <-Hw. apply le_bytes_val.
Qed.

Lemma u64_le_word w : length w = 8%nat -> u64_le (le_val w) = w.
Proof. intros Hw. unfold u64_le. rewrite <-Hw. apply le_bytes_val. Qed.

Lemma le_val_word w : length w = 8%nat -> is_u64 (le_val w).
Proof. intros Hw. pose proof (le_val_range w) as Hr. by rewrite Hw in Hr. Qed.

Lemma i64_le_inj a b : is_i64 a -> is_i64 b -> i64_le a = i64_le b -> a = b.
Proof.
  intros Ha Hb H. rewrite <-(i64_from_le_bytes a), <-(i64_from_le_bytes b) by done. by rewrite H.
Qed.

#[global] Opaque u16_le u32_le u64_le i64_le.

(** [as_chunks::<K>().0]: the whole [k]-byte groups, a short tail dropped. *)
Fixpoint chunks_go {A} (fuel k : nat) (l : list A) : list (list A) :=
  match fuel with
  | O => []
  | S f => if (k <=? length l)%nat then take k l :: chunks_go f k (drop k l) else []
  end.
Definition as_chunks {A} (k : nat) (l : list A) : list (list A) :=
  chunks_go (length l) k l.

Lemma chunks_go_concat {A} k (ls : list (list A)) fuel :
  (0 < k)%nat -> Forall (fun c => length c = k) ls -> (length (concat ls) <= fuel)%nat ->
  chunks_go fuel k (concat ls) = ls.
Proof.
  intros Hk. revert fuel; induction ls as [|c ls IH]; intros fuel Hls Hf.
  - destruct fuel; simpl; [done|]. destruct k; [lia|done].
  - inversion Hls as [|? ? Hc Hls']; subst. simpl in *. rewrite length_app in Hf.
    destruct fuel as [|fuel]; [lia|]. simpl.
    rewrite length_app. destruct (Nat.leb_spec (length c) (length c + length (concat ls))); [|lia].
    rewrite take_app_length, drop_app_length. f_equal. apply IH; [done|lia].
Qed.

Lemma as_chunks_concat {A} k (ls : list (list A)) :
  (0 < k)%nat -> Forall (fun c => length c = k) ls -> as_chunks k (concat ls) = ls.
Proof. intros. by apply chunks_go_concat. Qed.

(** ** UTF-8

    A Rust [str] is its byte sequence, and [std::str::from_utf8] accepts exactly
    the well-formed ones (no overlong forms, no surrogates, nothing above
    U+10FFFF). *)
Abbreviation str := (list byte).

Definition in_range (lo hi : Z) (b : byte) : bool := (lo <=? b2z b) && (b2z b <=? hi).
Arguments in_range : simpl never.
Definition utf8_cont (b : byte) : bool := in_range 128 191 b.

Fixpoint utf8_valid (l : list byte) : bool :=
  match l with
  | [] => true
  | b0 :: l1 =>
    if in_range 0 127 b0 then utf8_valid l1
    else match l1 with
    | [] => false
    | b1 :: l2 =>
      if in_range 194 223 b0 then utf8_cont b1 && utf8_valid l2
      else match l2 with
      | [] => false
      | b2 :: l3 =>
        if in_range 224 239 b0 then
          (if b2z b0 =? 224 then in_range 160 191 b1
           else if b2z b0 =? 237 then in_range 128 159 b1
           else utf8_cont b1) && utf8_cont b2 && utf8_valid l3
        else match l3 with
        | [] => false
        | b3 :: l4 =>
          in_range 240 244 b0 &&
          (if b2z b0 =? 240 then in_range 144 191 b1
           else if b2z b0 =? 244 then in_range 128 143 b1
           else utf8_cont b1) && utf8_cont b2 && utf8_cont b3 && utf8_valid l4
        end
      end
    end
  end.

(** One encoded character. *)
Definition utf8_char (c : list byte) : bool :=
  match c with
  | [_] | [_; _] | [_; _; _] | [_; _; _; _] => utf8_valid c
  | _ => false
  end &&
  match c with
  | [b0] => in_range 0 127 b0
  | [b0; _] => in_range 194 223 b0
  | [b0; _; _] => in_range 224 239 b0
  | [b0; _; _; _] => in_range 240 244 b0
  | _ => false
  end.

Inductive Utf8 : list byte -> Prop :=
| Utf8_nil : Utf8 []
| Utf8_char c l : utf8_char c = true -> Utf8 l -> Utf8 (c ++ l).

Lemma in_range_spec lo hi b : in_range lo hi b = true <-> lo <= b2z b <= hi.
Proof. unfold in_range. rewrite andb_true_iff, !Z.leb_le. lia. Qed.

Ltac split_andb :=
  repeat match goal with
  | H : _ && _ = true |- _ => apply andb_true_iff in H; destruct H
  end.

Ltac rew_bool :=
  repeat match goal with
  | H : ?x = true |- context [?x] => rewrite H
  | H : ?x = false |- context [?x] => rewrite H
  end; simpl.

Lemma Utf8_sound l : utf8_valid l = true -> Utf8 l.
Proof.
  remember (length l) as n eqn:Hn. assert (length l <= n)%nat as Hle by lia. clear Hn.
  revert l Hle. induction n as [|n IH]; intros l Hle H.
  { destruct l; [constructor|simpl in Hle; lia]. }
  destruct l as [|b0 l1]; [constructor|]. simpl in Hle, H.
  destruct (in_range 0 127 b0) eqn:E0.
  { apply (Utf8_char [b0]); [unfold utf8_char; simpl; by rewrite E0|apply IH; [lia|done]]. }
  destruct l1 as [|b1 l2]; [done|]. simpl in Hle.
  destruct (in_range 194 223 b0) eqn:E1.
  { split_andb. apply (Utf8_char [b0; b1]); [|apply IH; [lia|done]].
    unfold utf8_char; simpl. by rew_bool. }
  destruct l2 as [|b2 l3]; [done|]. simpl in Hle.
  destruct (in_range 224 239 b0) eqn:E2.
  { split_andb. apply (Utf8_char [b0; b1; b2]); [|apply IH; [lia|done]].
    unfold utf8_char; simpl. by rew_bool. }
  destruct l3 as [|b3 l4]; [done|]. simpl in Hle. split_andb.
  apply (Utf8_char [b0; b1; b2; b3]); [|apply IH; [lia|done]].
  unfold utf8_char; simpl. by rew_bool.
Qed.

Lemma utf8_valid_char_app c l : utf8_char c = true -> utf8_valid (c ++ l) = utf8_valid l.
Proof.
  intros H. unfold utf8_char in H. apply andb_true_iff in H as [H Hr].
  destruct c as [|b0 [|b1 [|b2 [|b3 [|]]]]]; try done; cbn [utf8_valid app] in *.
  - by rewrite Hr.
  - rewrite Hr in *. destruct (in_range 0 127 b0) eqn:E0.
    { apply in_range_spec in Hr, E0. lia. }
    split_andb. by rew_bool.
  - rewrite Hr in *. destruct (in_range 0 127 b0) eqn:E0, (in_range 194 223 b0) eqn:E1;
      try (apply in_range_spec in Hr; rewrite ?in_range_spec in *; lia).
    split_andb. by rew_bool.
  - rewrite Hr in *.
    destruct (in_range 0 127 b0) eqn:E0, (in_range 194 223 b0) eqn:E1,
      (in_range 224 239 b0) eqn:E2;
      try (apply in_range_spec in Hr; rewrite ?in_range_spec in *; lia).
    split_andb. by rew_bool.
Qed.

Lemma utf8_valid_iff l : utf8_valid l = true <-> Utf8 l.
Proof.
  split; [apply Utf8_sound|]. induction 1 as [|c l Hc _ IH]; [done|].
  by rewrite utf8_valid_char_app.
Qed.

Lemma utf8_valid_app a b :
  utf8_valid a = true -> utf8_valid b = true -> utf8_valid (a ++ b) = true.
Proof.
  rewrite (utf8_valid_iff a). induction 1 as [|c l Hc _ IH]; intros Hb; [done|].
  rewrite <-app_assoc, utf8_valid_char_app by done. auto.
Qed.

(** [std::str::from_utf8(b).map_err(...)]. *)
Definition from_utf8 (b : list byte) (e : error) : result str :=
  if utf8_valid b then Ok b else Err e.
Definition is_str (s : str) : Prop := utf8_valid s = true.
