(* ===== verification/Float64.v ===== *)
(** * Binary64 numbers

    A Rust [f64] is its 64-bit pattern: the codecs move patterns without
    interpreting them. The arithmetic the engines use ([+], [f64::min],
    [f64::max]) is computed on the IEEE-754 reading of the pattern with the
    Standard Library's executable [SpecFloat]. Where Rust leaves a result
    unspecified the model fixes one: an arithmetic NaN is the quiet NaN with an
    empty payload, and [min]/[max] of equal operands is the first. *)
From Stdlib Require Import ZArith Lia Bool Strings.Byte Floats.SpecFloat.
From stdpp Require Import prelude.
From S2P Require Import Prelude.
Open Scope Z_scope.

Record f64 := mkF64 { to_bits : Z }.
Definition is_f64 (x : f64) : Prop := is_u64 (to_bits x).

#[global] Instance f64_eq_dec : EqDecision f64.
Proof. solve_decision. Defined.

(** [f64::to_le_bytes], [f64::from_le_bytes]. *)
Definition f64_le (x : f64) : list byte := le_bytes 8 (to_bits x).
Definition f64_from_le (l : list byte) : f64 := mkF64 (le_val l).

Lemma f64_from_le_bytes x : is_f64 x -> f64_from_le (f64_le x) = x.
Proof.
  destruct x as [b]. unfold is_f64, is_u64, f64_from_le, f64_le. simpl to_bits. intros H.
  rewrite le_val_bytes, Z.mod_small by (simpl; lia). done.
Qed.

Lemma length_f64_le x : length (f64_le x) = 8%nat.
Proof. apply length_le_bytes. Qed.
#[export] Hint Rewrite length_f64_le : wire.
#[export] Hint Resolve length_f64_le : wire.

Lemma f64_le_word w : length w = 8%nat -> f64_le (f64_from_le w) = w.
Proof. intros Hw. unfold f64_le, f64_from_le. simpl to_bits. rewrite <-Hw. apply le_bytes_val. Qed.

Lemma f64_from_le_ok w : length w = 8%nat -> is_f64 (f64_from_le w).
Proof. apply le_val_word. Qed.
#[global] Opaque f64_le.

(** The IEEE-754 reading of a pattern, and the pattern of a reading. *)
Definition sf_of_f64 (x : f64) : spec_float :=
  let b := to_bits x in
  let s := Z.testbit b 63 in
  let e := Z.land (Z.shiftr b 52) 2047 in
  let m := Z.land b (2 ^ 52 - 1) in
  if e =? 0 then
    match m with Zpos p => S754_finite s p (-1074) | _ => S754_zero s end
  else if e =? 2047 then
    if m =? 0 then S754_infinity s else S754_nan
  else match m + 2 ^ 52 with Zpos p => S754_finite s p (e - 1075) | _ => S754_nan end.

Definition quiet_nan : f64 := mkF64 (2047 * 2 ^ 52 + 2 ^ 51).

Definition f64_of_sf (x : spec_float) : f64 :=
  let sgn (s : bool) := if s then 2 ^ 63 else 0 in
  match x with
  | S754_zero s => mkF64 (sgn s)
  | S754_infinity s => mkF64 (sgn s + 2047 * 2 ^ 52)
  | S754_nan => quiet_nan
  | S754_finite s m e =>
    if Zpos m <? 2 ^ 52 then mkF64 (sgn s + Zpos m)
    else mkF64 (sgn s + (e + 1075) * 2 ^ 52 + (Zpos m - 2 ^ 52))
  end.

Definition f64_is_nan (x : f64) : bool :=
  match sf_of_f64 x with S754_nan => true | _ => false end.

Definition f64_add (x y : f64) : f64 :=
  f64_of_sf (SFadd 53 1024 (sf_of_f64 x) (sf_of_f64 y)).
Definition f64_ltb (x y : f64) : bool := SFltb (sf_of_f64 x) (sf_of_f64 y).

Definition f64_min (x y : f64) : f64 :=
  if f64_is_nan x then y else if f64_is_nan y then x else if f64_ltb y x then y else x.
Definition f64_max (x y : f64) : f64 :=
  if f64_is_nan x then y else if f64_is_nan y then x else if f64_ltb x y then y else x.

(** ** The order of numbers

    Numbers that are not NaN are ordered as triples: class, exponent, mantissa. *)
Definition sf_key (x : spec_float) : Z * Z * Z :=
  match x with
  | S754_zero _ | S754_nan => (0, 0, 0)
  | S754_infinity s => (if s then -2 else 2, 0, 0)
  | S754_finite s m e => if s then (-1, - e, - Zpos m) else (1, e, Zpos m)
  end.
Definition key_lt (k l : Z * Z * Z) : Prop :=
  k.1.1 < l.1.1 \/ k.1.1 = l.1.1 /\ (k.1.2 < l.1.2 \/ k.1.2 = l.1.2 /\ k.2 < l.2).

Lemma SFltb_key x y : x <> S754_nan -> y <> S754_nan -> SFltb x y = true <-> key_lt (sf_key x) (sf_key y).
Proof.
  intros Hx Hy. unfold SFltb, SFcompare, key_lt. destruct x as [[]|[]| |[] m e], y as [[]|[]| |[] m' e']; try done; cbn;
    try (destruct (Z.compare_spec e e')); try change (Pos.compare_cont Eq m m') with (Pos.compare m m');
    try (destruct (Pos.compare_spec m m')); cbn; split; try done; intros; lia.
Qed.

Lemma f64_ltb_key x y :
  f64_is_nan x = false -> f64_is_nan y = false ->
  f64_ltb x y = true <-> key_lt (sf_key (sf_of_f64 x)) (sf_key (sf_of_f64 y)).
Proof.
  unfold f64_is_nan, f64_ltb. intros Hx Hy. apply SFltb_key; [by destruct (sf_of_f64 x)|by destruct (sf_of_f64 y)].
Qed.

(** Evaluates minima and maxima by the NaNs and the comparisons of their arguments. *)
Ltac f64_cases x y z :=
  destruct (f64_is_nan x) eqn:?, (f64_is_nan y) eqn:?, (f64_is_nan z) eqn:?;
  repeat match goal with
  | H : f64_is_nan ?a = _ |- context [f64_is_nan ?a] => rewrite H
  | |- context [f64_ltb x y] => destruct (f64_ltb x y) eqn:?
  | |- context [f64_ltb y x] => destruct (f64_ltb y x) eqn:?
  | |- context [f64_ltb y z] => destruct (f64_ltb y z) eqn:?
  | |- context [f64_ltb z y] => destruct (f64_ltb z y) eqn:?
  | |- context [f64_ltb x z] => destruct (f64_ltb x z) eqn:?
  | |- context [f64_ltb z x] => destruct (f64_ltb z x) eqn:?
  end; try congruence.
Ltac f64_order :=
  repeat match goal with
  | H : f64_ltb _ _ = true |- _ => rewrite f64_ltb_key in H by done
  | H : f64_ltb _ _ = false |- _ => rewrite <-not_true_iff_false, f64_ltb_key in H by done
  end; unfold key_lt in *; lia.

Lemma f64_min_assoc x y z : f64_min (f64_min x y) z = f64_min x (f64_min y z).
Proof. unfold f64_min. f64_cases x y z; exfalso; f64_order. Qed.

Lemma f64_max_assoc x y z : f64_max (f64_max x y) z = f64_max x (f64_max y z).
Proof. unfold f64_max. f64_cases x y z; exfalso; f64_order. Qed.

Definition f64_zero : f64 := mkF64 0.
Definition f64_one : f64 := mkF64 (1023 * 2 ^ 52).

Example f64_two : f64_add f64_one f64_one = mkF64 (1024 * 2 ^ 52).
Proof. reflexivity. Qed.
Example f64_half_sum : f64_add (mkF64 (1022 * 2 ^ 52)) (mkF64 (2 ^ 63 + 1023 * 2 ^ 52)) = mkF64 (2 ^ 63 + 1022 * 2 ^ 52).
Proof. reflexivity. Qed.
Example f64_min_nan : f64_min quiet_nan f64_one = f64_one /\ f64_max f64_one quiet_nan = f64_one.
Proof. split; reflexivity. Qed.
