(* ===== verification/BTree.v ===== *)
(** * Ordered maps and sets of the Rust standard library

    [BTreeMap] and [BTreeSet] iterate in ascending key order, and the wire
    formats and query results depend on that order. They are modelled as
    strictly sorted lists over a key type with a total order ([Ord]): bytes,
    integers, byte strings and pairs, each with the order Rust derives. *)
From Stdlib Require Import ZArith Lia.
From stdpp Require Import prelude list sorting.
From S2P Require Import Prelude.

(** ** Total orders *)

Class Ord (K : Type) := {
  kcmp : K -> K -> comparison;
  kcmp_eq a b : kcmp a b = Eq <-> a = b;
  kcmp_antisym a b : kcmp b a = CompOpp (kcmp a b);
  kcmp_trans a b c : kcmp a b = Lt -> kcmp b c = Lt -> kcmp a c = Lt;
}.

Definition klt {K} `{Ord K} (a b : K) : Prop := kcmp a b = Lt.
Definition kltb {K} `{Ord K} (a b : K) : bool :=
  match kcmp a b with Lt => true | _ => false end.

#[global] Program Instance Z_ord : Ord Z := {| kcmp := Z.compare |}.
Next Obligation. intros. apply Z.compare_eq_iff. Qed.
Next Obligation. intros. apply Z.compare_antisym. Qed.
Next Obligation. simpl. intros a b c H1 H2. rewrite Z.compare_lt_iff in *. lia. Qed.

#[global] Program Instance byte_ord : Ord Byte.byte :=
  {| kcmp a b := Z.compare (b2z a) (b2z b) |}.
Next Obligation.
  intros a b; simpl. rewrite Z.compare_eq_iff. split; [apply b2z_inj|by intros ->].
Qed.
Next Obligation. intros. apply Z.compare_antisym. Qed.
Next Obligation. simpl. intros a b c H1 H2. rewrite Z.compare_lt_iff in *. lia. Qed.

Section Lex.
Context {A B : Type} `{Ord A} `{Ord B}.

Definition pair_cmp (x y : A * B) : comparison :=
  match kcmp x.1 y.1 with Eq => kcmp x.2 y.2 | c => c end.

Lemma kcmp_refl (a : A) : kcmp a a = Eq.
Proof. by apply kcmp_eq. Qed.

#[global] Program Instance pair_ord : Ord (A * B) := {| kcmp := pair_cmp |}.
Next Obligation.
  intros [a1 b1] [a2 b2]; unfold pair_cmp; simpl.
  destruct (kcmp a1 a2) eqn:E.
  - apply kcmp_eq in E as ->. rewrite kcmp_eq. split; [by intros ->|by intros [=]].
  - split; [done|]. intros [= -> ->]. by rewrite kcmp_refl in E.
  - split; [done|]. intros [= -> ->]. by rewrite kcmp_refl in E.
Qed.
Next Obligation.
  intros [a1 b1] [a2 b2]; unfold pair_cmp; simpl. rewrite (kcmp_antisym a1 a2).
  destruct (kcmp a1 a2); simpl; [apply kcmp_antisym|done|done].
Qed.
Next Obligation.
  intros [a1 b1] [a2 b2] [a3 b3]; unfold pair_cmp; simpl.
  destruct (kcmp a1 a2) eqn:E1; [|intros _|done].
  - apply kcmp_eq in E1 as ->. destruct (kcmp a2 a3); [|done|done]. apply kcmp_trans.
  - destruct (kcmp a2 a3) eqn:E2; [intros _|intros _|done].
    + apply kcmp_eq in E2 as <-. by rewrite E1.
    + by rewrite (kcmp_trans _ _ _ E1 E2).
Qed.

Fixpoint list_cmp (x y : list A) : comparison :=
  match x, y with
  | [], [] => Eq
  | [], _ :: _ => Lt
  | _ :: _, [] => Gt
  | a :: x', b :: y' => match kcmp a b with Eq => list_cmp x' y' | c => c end
  end.

#[global] Program Instance list_ord : Ord (list A) := {| kcmp := list_cmp |}.
Next Obligation.
  intros x; induction x as [|a x IH]; intros [|b y]; simpl; try done.
  destruct (kcmp a b) eqn:E.
  - apply kcmp_eq in E as ->. rewrite IH. split; [by intros ->|by intros [=]].
  - split; [done|]. intros [= -> ->]. by rewrite kcmp_refl in E.
  - split; [done|]. intros [= -> ->]. by rewrite kcmp_refl in E.
Qed.
Next Obligation.
  intros x; induction x as [|a x IH]; intros [|b y]; simpl; try done.
  rewrite (kcmp_antisym a b). destruct (kcmp a b); simpl; [apply IH|done|done].
Qed.
Next Obligation.
  intros x; induction x as [|a x IH]; intros [|b y] [|c z]; simpl; try done.
  destruct (kcmp a b) eqn:E1; [|intros _|done].
  - apply kcmp_eq in E1 as ->. destruct (kcmp b c); [|done|done]. apply IH.
  - destruct (kcmp b c) eqn:E2; [intros _|intros _|done].
    + apply kcmp_eq in E2 as <-. by rewrite E1.
    + by rewrite (kcmp_trans _ _ _ E1 E2).
Qed.
End Lex.

Section OrdFacts.
Context {K : Type} `{Ord K}.

Lemma klt_irrefl (a : K) : ~ klt a a.
Proof. unfold klt. rewrite kcmp_refl. done. Qed.

#[global] Instance klt_trans : Transitive (@klt K _).
Proof. intros a b c. apply kcmp_trans. Qed.

Lemma kcmp_gt (a b : K) : kcmp a b = Gt <-> klt b a.
Proof. unfold klt. rewrite (kcmp_antisym a b). by destruct (kcmp a b). Qed.

Lemma kltb_spec (a b : K) : kltb a b = true <-> klt a b.
Proof. unfold kltb, klt. by destruct (kcmp a b). Qed.

Lemma klt_ne (a b : K) : klt a b -> a <> b.
Proof. intros Hlt ->. by apply (klt_irrefl b). Qed.

Lemma StronglySorted_klt_NoDup (l : list K) : StronglySorted klt l -> NoDup l.
Proof.
  induction 1 as [|a l _ IH Hall]; constructor; [|done].
  intros Hin. rewrite Forall_forall in Hall. by apply (klt_irrefl a), Hall.
Qed.

(** A strictly sorted list is determined by its elements. *)
Lemma StronglySorted_klt_eq (l1 l2 : list K) :
  StronglySorted klt l1 -> StronglySorted klt l2 ->
  (forall x, x ∈ l1 <-> x ∈ l2) -> l1 = l2.
Proof.
  intros H1; revert l2; induction H1 as [|a l1 _ IH Ha]; intros l2 H2 Heq.
  - destruct l2 as [|b l2]; [done|]. exfalso.
    assert (b ∈ @nil K) as Hb by (apply Heq; left). by apply not_elem_of_nil in Hb.
  - destruct H2 as [|b l2 H2 Hb].
    { exfalso. assert (a ∈ @nil K) as Hb by (apply Heq; left).
      by apply not_elem_of_nil in Hb. }
    rewrite Forall_forall in Ha, Hb.
    assert (a = b) as ->.
    { assert (a ∈ b :: l2) as Hab by (apply Heq; left).
      assert (b ∈ a :: l1) as Hba by (apply Heq; left).
      apply elem_of_cons in Hab as [->|Hab]; [done|].
      apply elem_of_cons in Hba as [->|Hba]; [done|].
      exfalso. apply (klt_irrefl a). trans b; auto. }
    f_equal. apply IH; [done|]. intros x. split; intros Hx.
    + assert (x ∈ b :: l2) as Hx' by (apply Heq; by right).
      apply elem_of_cons in Hx' as [->|]; [|done]. exfalso. by apply (klt_irrefl b), Ha.
    + assert (x ∈ b :: l1) as Hx' by (apply Heq; by right).
      apply elem_of_cons in Hx' as [->|]; [|done]. exfalso. by apply (klt_irrefl b), Hb.
Qed.
End OrdFacts.

(** ** [BTreeSet] *)

Section BTreeSet.
Context {K : Type} `{Ord K}.

Fixpoint bts_insert (k : K) (s : list K) : list K :=
  match s with
  | [] => [k]
  | k' :: s' =>
    match kcmp k k' with
    | Lt => k :: s
    | Eq => s
    | Gt => k' :: bts_insert k s'
    end
  end.

Fixpoint bts_mem (k : K) (s : list K) : bool :=
  match s with
  | [] => false
  | k' :: s' => match kcmp k k' with Eq => true | _ => bts_mem k s' end
  end.

Fixpoint bts_remove (k : K) (s : list K) : list K :=
  match s with
  | [] => []
  | k' :: s' => match kcmp k k' with Eq => s' | _ => k' :: bts_remove k s' end
  end.

(** [iter.collect::<BTreeSet<_>>()]. *)
Definition bts_of_list (l : list K) : list K := fold_left (fun s k => bts_insert k s) l [].

(** [a.intersection(&b)], ascending. *)
Definition bts_inter (a b : list K) : list K := filter (fun k => bts_mem k b) a.

Definition bts_wf (s : list K) : Prop := StronglySorted klt s.

Lemma elem_of_bts_insert x k s : x ∈ bts_insert k s <-> x = k \/ x ∈ s.
Proof.
  induction s as [|k' s IH]; simpl.
  - rewrite elem_of_cons, elem_of_nil. done.
  - destruct (kcmp k k') eqn:E; rewrite ?elem_of_cons, ?IH; [|tauto|tauto].
    apply kcmp_eq in E as ->. tauto.
Qed.

Lemma bts_insert_wf k s : bts_wf s -> bts_wf (bts_insert k s).
Proof.
  unfold bts_wf. induction 1 as [|k' s Hs IH Hall]; simpl; [by repeat constructor|].
  destruct (kcmp k k') eqn:E.
  - by constructor.
  - constructor; [by constructor|]. constructor; [done|].
    eapply Forall_impl; [exact Hall|]. intros y Hy. by trans k'.
  - constructor; [done|]. apply Forall_forall. intros y Hy.
    apply elem_of_bts_insert in Hy as [->|Hy]; [by apply kcmp_gt|].
    rewrite Forall_forall in Hall. auto.
Qed.

Lemma bts_insert_last k s : Forall (fun x => klt x k) s -> bts_insert k s = s ++ [k].
Proof.
  induction s as [|x s IH]; intros Hs; [done|]. inversion_clear Hs as [|? ? Hx Hs'].
  simpl. assert (kcmp k x = Gt) as -> by (by apply kcmp_gt). by rewrite IH.
Qed.

Lemma bts_insert_mem k s : bts_wf s -> k ∈ s -> bts_insert k s = s.
Proof.
  intros Hs Hk. apply StronglySorted_klt_eq; [by apply bts_insert_wf|done|].
  intros x. rewrite elem_of_bts_insert. naive_solver.
Qed.

Lemma bts_wf_snoc s k : bts_wf (s ++ [k]) -> Forall (fun x => klt x k) s.
Proof.
  unfold bts_wf. induction s as [|y s IH]; simpl; intros Hs; [constructor|].
  inversion_clear Hs as [|? ? Hs' Hy]. constructor; [|auto].
  rewrite Forall_forall in Hy. apply Hy, elem_of_app. right. left.
Qed.

Lemma bts_mem_spec k s : bts_mem k s = true <-> k ∈ s.
Proof.
  induction s as [|k' s IH]; simpl; [by rewrite elem_of_nil|]. rewrite elem_of_cons, <-IH.
  destruct (kcmp k k') eqn:E.
  - apply kcmp_eq in E as ->. tauto.
  - split; [tauto|]. intros [->|]; [|done]. by rewrite kcmp_refl in E.
  - split; [tauto|]. intros [->|]; [|done]. by rewrite kcmp_refl in E.
Qed.

Lemma elem_of_bts_remove x k s : bts_wf s -> x ∈ bts_remove k s <-> x ∈ s /\ x <> k.
Proof.
  unfold bts_wf. induction 1 as [|k' s Hs IH Hall]; simpl.
  - rewrite elem_of_nil. tauto.
  - rewrite Forall_forall in Hall. destruct (kcmp k k') eqn:E; rewrite ?elem_of_cons.
    + apply kcmp_eq in E as ->. split; [|intros [[->|?] ?]; done].
      intros Hx. split; [by right|]. intros ->. by apply (klt_irrefl k'), Hall.
    + rewrite IH. split; [|tauto]. intros [->|[? ?]]; [|tauto].
      split; [by left|]. intros ->. by rewrite kcmp_refl in E.
    + rewrite IH. split; [|tauto]. intros [->|[? ?]]; [|tauto].
      split; [by left|]. intros ->. by rewrite kcmp_refl in E.
Qed.

Lemma bts_remove_wf k s : bts_wf s -> bts_wf (bts_remove k s).
Proof.
  unfold bts_wf. induction 1 as [|k' s Hs IH Hall]; simpl; [constructor|].
  destruct (kcmp k k') eqn:E; [done| |];
    (constructor; [done|]; apply Forall_forall; intros y Hy;
     apply elem_of_bts_remove in Hy as [Hy _]; [|done];
     rewrite Forall_forall in Hall; auto).
Qed.

Lemma bts_fold_insert l s x :
  x ∈ fold_left (fun s k => bts_insert k s) l s <-> x ∈ l \/ x ∈ s.
Proof.
  revert s; induction l as [|k l IH]; intros s; simpl.
  - rewrite elem_of_nil. tauto.
  - rewrite IH, elem_of_bts_insert, elem_of_cons. tauto.
Qed.

Lemma elem_of_bts_of_list l x : x ∈ bts_of_list l <-> x ∈ l.
Proof. unfold bts_of_list. rewrite bts_fold_insert, elem_of_nil. tauto. Qed.

Lemma bts_fold_wf l s : bts_wf s -> bts_wf (fold_left (fun s k => bts_insert k s) l s).
Proof.
  revert s; induction l as [|k l IH]; intros s Hs; simpl; [done|].
  by apply IH, bts_insert_wf.
Qed.

Lemma bts_of_list_wf l : bts_wf (bts_of_list l).
Proof. apply bts_fold_wf. constructor. Qed.

Lemma bts_of_list_id l : bts_wf l -> bts_of_list l = l.
Proof.
  intros Hl. apply StronglySorted_klt_eq; [apply bts_of_list_wf|done|].
  intros x. apply elem_of_bts_of_list.
Qed.

Lemma StronglySorted_filter (R : K -> K -> Prop) (P : K -> bool) l :
  StronglySorted R l -> StronglySorted R (filter P l).
Proof.
  induction 1 as [|k l Hl IH Hall]; [constructor|].
  rewrite filter_cons. case_decide; [|done]. constructor; [done|].
  apply Forall_forall. intros y Hy. apply list_elem_of_filter in Hy as [_ Hy].
  rewrite Forall_forall in Hall. auto.
Qed.

Lemma bts_inter_wf a b : bts_wf a -> bts_wf (bts_inter a b).
Proof. apply StronglySorted_filter. Qed.

Lemma elem_of_bts_inter x a b : x ∈ bts_inter a b <-> x ∈ a /\ x ∈ b.
Proof. unfold bts_inter. rewrite list_elem_of_filter, Is_true_true, bts_mem_spec. tauto. Qed.
End BTreeSet.

(** ** [BTreeMap] *)

Section BTreeMap.
Context {K V : Type} `{Ord K}.

Fixpoint btm_get (k : K) (m : list (K * V)) : option V :=
  match m with
  | [] => None
  | (k', v) :: m' => match kcmp k k' with Eq => Some v | _ => btm_get k m' end
  end.

Fixpoint btm_insert (k : K) (v : V) (m : list (K * V)) : list (K * V) :=
  match m with
  | [] => [(k, v)]
  | (k', v') :: m' =>
    match kcmp k k' with
    | Lt => (k, v) :: m
    | Eq => (k, v) :: m'
    | Gt => (k', v') :: btm_insert k v m'
    end
  end.

Fixpoint btm_remove (k : K) (m : list (K * V)) : list (K * V) :=
  match m with
  | [] => []
  | (k', v') :: m' =>
    match kcmp k k' with Eq => m' | _ => (k', v') :: btm_remove k m' end
  end.

Definition btm_keys (m : list (K * V)) : list K := m.*1.
Definition btm_contains (k : K) (m : list (K * V)) : bool :=
  match btm_get k m with Some _ => true | None => false end.

Definition btm_wf (m : list (K * V)) : Prop := StronglySorted klt m.*1.

Lemma btm_get_elem k v m : btm_wf m -> btm_get k m = Some v <-> (k, v) ∈ m.
Proof.
  unfold btm_wf. induction m as [|[k' v'] m IH]; simpl; intros Hwf.
  - by rewrite elem_of_nil.
  - apply StronglySorted_inv in Hwf as [Hwf Hall]. rewrite elem_of_cons.
    destruct (kcmp k k') eqn:E.
    + apply kcmp_eq in E as ->. split; [by intros [= ->]; left|].
      intros [[= ->]|Hin]; [done|]. exfalso. apply (klt_irrefl k').
      rewrite Forall_forall in Hall. apply Hall, list_elem_of_fmap. by exists (k', v).
    + rewrite IH by done. split; [tauto|]. intros [[= -> ->]|]; [|done].
      by rewrite kcmp_refl in E.
    + rewrite IH by done. split; [tauto|]. intros [[= -> ->]|]; [|done].
      by rewrite kcmp_refl in E.
Qed.

Lemma btm_insert_keys k v m : (btm_insert k v m).*1 = bts_insert k m.*1.
Proof.
  induction m as [|[k' v'] m IH]; csimpl; [done|].
  destruct (kcmp k k') eqn:E; csimpl; [|done|by rewrite IH].
  apply kcmp_eq in E as ->. done.
Qed.

Lemma btm_remove_keys k m : (btm_remove k m).*1 = bts_remove k m.*1.
Proof.
  induction m as [|[k' v'] m IH]; csimpl; [done|].
  destruct (kcmp k k'); csimpl; [done|by rewrite IH|by rewrite IH].
Qed.

Lemma btm_insert_wf k v m : btm_wf m -> btm_wf (btm_insert k v m).
Proof. unfold btm_wf. rewrite btm_insert_keys. apply bts_insert_wf. Qed.

Lemma btm_remove_wf k m : btm_wf m -> btm_wf (btm_remove k m).
Proof. unfold btm_wf. rewrite btm_remove_keys. apply bts_remove_wf. Qed.

Lemma btm_get_insert_eq k v m : btm_get k (btm_insert k v m) = Some v.
Proof.
  induction m as [|[k' v'] m IH]; simpl; [by rewrite kcmp_refl|].
  destruct (kcmp k k') eqn:E; simpl; rewrite ?kcmp_refl; [done|done|]. by rewrite E.
Qed.

Lemma btm_get_insert_ne k k' v m : k <> k' -> btm_get k' (btm_insert k v m) = btm_get k' m.
Proof.
  intros Hne. assert (kcmp k' k <> Eq) as Hc by (rewrite kcmp_eq; naive_solver).
  induction m as [|[k1 v1] m IH]; simpl; [by destruct (kcmp k' k)|].
  destruct (kcmp k k1) eqn:E; simpl.
  - apply kcmp_eq in E as <-. by destruct (kcmp k' k).
  - by destruct (kcmp k' k).
  - by rewrite IH.
Qed.

Lemma btm_get_is_Some k m : is_Some (btm_get k m) <-> k ∈ m.*1.
Proof.
  induction m as [|[k1 v1] m IH]; csimpl.
  - rewrite elem_of_nil. split; [by intros [? ?]|done].
  - rewrite elem_of_cons, <-IH. destruct (kcmp k k1) eqn:E.
    + apply kcmp_eq in E as ->. split; [by left|by eexists].
    + split; [by right|]. intros [->|]; [|done]. by rewrite kcmp_refl in E.
    + split; [by right|]. intros [->|]; [|done]. by rewrite kcmp_refl in E.
Qed.

Lemma btm_get_None k m : btm_get k m = None <-> k ∉ m.*1.
Proof. rewrite eq_None_not_Some, btm_get_is_Some. done. Qed.

Lemma btm_get_remove_eq k m : btm_wf m -> btm_get k (btm_remove k m) = None.
Proof.
  intros Hwf. apply btm_get_None. rewrite btm_remove_keys, elem_of_bts_remove by done. tauto.
Qed.

Lemma btm_get_remove_ne k k' m : k <> k' -> btm_get k' (btm_remove k m) = btm_get k' m.
Proof.
  intros Hne. assert (kcmp k' k <> Eq) as Hc by (rewrite kcmp_eq; naive_solver).
  induction m as [|[k1 v1] m IH]; simpl; [done|].
  destruct (kcmp k k1) eqn:E; simpl; [|by rewrite IH|by rewrite IH].
  apply kcmp_eq in E as <-. by destruct (kcmp k' k).
Qed.

(** A sorted map is determined by its lookups. *)
Lemma btm_ext m1 m2 :
  btm_wf m1 -> btm_wf m2 -> (forall k, btm_get k m1 = btm_get k m2) -> m1 = m2.
Proof.
  intros H1; revert m2; unfold btm_wf in H1.
  intros m2 H2 Heq.
  assert (m1.*1 = m2.*1) as Hk.
  { apply StronglySorted_klt_eq; [done|done|]. intros k.
    by rewrite <-!btm_get_is_Some, Heq. }
  revert m2 H2 Heq Hk. induction m1 as [|[k v] m1 IH]; intros [|[k2 v2] m2] H2 Heq Hk; try done.
  simpl in Hk. injection Hk as -> Hk. simpl in *.
  apply StronglySorted_inv in H1 as [H1 A1]. apply StronglySorted_inv in H2 as [H2 A2].
  assert (v = v2) as ->.
  { specialize (Heq k2). rewrite kcmp_refl in Heq. congruence. }
  f_equal. apply IH; [done|done| |done]. intros k. specialize (Heq k).
  destruct (kcmp k k2) eqn:E; [|done|done]. apply kcmp_eq in E as ->.
  transitivity (@None V); [|symmetry]; apply btm_get_None; intros Hin; apply (klt_irrefl k2);
    rewrite Forall_forall in *; auto.
Qed.
End BTreeMap.

(** ** Binary search

    [slice::binary_search_by]: halve the range, keep the upper half unless its
    first element compares greater, then look at the one element left. *)
Section BinarySearch.
Context {A : Type} (f : A -> comparison).

Definition probe (l : list A) (i : nat) : comparison := match l !! i with Some x => f x | None => Gt end.

Fixpoint search_go (fuel : nat) (l : list A) (base size : nat) : nat :=
  match fuel with
  | O => base
  | S fuel' =>
    if (size <=? 1)%nat then base
    else
      let half := (size / 2)%nat in
      let mid := (base + half)%nat in
      search_go fuel' l (match probe l mid with Gt => base | _ => mid end) (size - half)
  end.

(** [Ok(i)] as [Some i], [Err(_)] as [None]; the range shrinks every round. *)
Definition binary_search_by (l : list A) : option nat :=
  match l with
  | [] => None
  | _ => let i := search_go (length l) l 0 (length l) in
         match probe l i with Eq => Some i | _ => None end
  end.

(** Where the probed order is ascending, an element comparing equal stays in range. *)
Lemma search_go_spec l i : forall fuel base size,
  probe l i = Eq ->
  (forall j, (j < i)%nat -> probe l j <> Gt) -> (forall j, (i < j)%nat -> probe l j = Gt) ->
  (size <= fuel)%nat -> (base <= i < base + size)%nat -> search_go fuel l base size = i.
Proof.
  induction fuel as [|fuel IH]; intros base size Hi Hlo Hhi Hf Hr; [lia|]. cbn [search_go].
  destruct (Nat.leb_spec size 1) as [|Hs]; [lia|].
  assert (0 < size / 2 /\ 2 * (size / 2) <= size)%nat as [Hh1 Hh2].
  { split; [apply Nat.div_str_pos; lia|apply Nat.Div0.mul_div_le]. }
  destruct (Nat.lt_trichotomy (base + size / 2) i) as [Hlt|[Heq|Hgt]].
  - pose proof (Hlo _ Hlt). destruct (probe l (base + size / 2)); try done; apply IH; auto; lia.
  - rewrite Heq, Hi. apply IH; auto; lia.
  - rewrite (Hhi _ Hgt). apply IH; auto; lia.
Qed.
End BinarySearch.

Section KeySearch.
Context {K V : Type} `{Ord K}.

(** Looking a key up in sorted pairs. *)
Definition search_key (k : K) (l : list (K * V)) : option nat :=
  binary_search_by (fun p => kcmp p.1 k) l.

Lemma sorted_lookup_klt (l : list K) : StronglySorted klt l ->
  forall i j a b, l !! i = Some a -> l !! j = Some b -> (i < j)%nat -> klt a b.
Proof.
  induction 1 as [|x l Hs IH Hx]; intros i j a b Hi Hj Hlt; [done|].
  destruct j as [|j]; [lia|]. destruct i as [|i]; simpl in *.
  - injection Hi as <-. exact (proj1 (Forall_forall _ _) Hx _ (list_elem_of_lookup_2 _ _ _ Hj)).
  - eapply IH; eauto; lia.
Qed.

Lemma search_key_spec k (l : list (K * V)) : btm_wf l ->
  match search_key k l with
  | Some i => exists v, l !! i = Some (k, v) /\ btm_get k l = Some v
  | None => btm_get k l = None
  end.
Proof.
  intros Hwf. destruct (btm_get k l) as [v|] eqn:Hg.
  - apply btm_get_elem in Hg as Hin; [|done]. apply list_elem_of_lookup in Hin as [i Hi].
    assert (forall j p, l !! j = Some p -> l.*1 !! j = Some p.1) as Hk
      by (intros j p Hp; by rewrite list_lookup_fmap, Hp).
    pose proof (sorted_lookup_klt _ Hwf) as Hsort.
    assert (search_go (fun p => kcmp p.1 k) (length l) l 0 (length l) = i) as Hs.
    { apply search_go_spec; unfold probe.
      - rewrite Hi. by apply kcmp_eq.
      - intros j Hj. destruct (l !! j) as [p|] eqn:Ep; [|apply lookup_ge_None in Ep; apply lookup_lt_Some in Hi; lia].
        assert (klt p.1 k) as -> by (eapply (Hsort j i); [by apply Hk|by apply (Hk _ _ Hi)|done]). done.
      - intros j Hj. destruct (l !! j) as [p|] eqn:Ep; [|done]. apply kcmp_gt.
        eapply (Hsort i j); [by apply (Hk _ _ Hi)|by apply Hk|done].
      - done.
      - apply lookup_lt_Some in Hi. lia. }
    unfold search_key, binary_search_by. destruct l as [|p l]; [done|]. rewrite Hs. unfold probe. rewrite Hi.
    rewrite (proj2 (kcmp_eq (k, v).1 k) eq_refl). by exists v.
  - destruct (search_key k l) as [i|] eqn:Es; [|done]. exfalso. apply btm_get_None in Hg. apply Hg.
    unfold search_key, binary_search_by in Es. destruct l as [|p l]; [done|].
    destruct (probe _ _ _) eqn:Ep; [|done..]. injection Es as Es. unfold probe in Ep.
    destruct ((p :: l) !! _) as [q|] eqn:Eq; [|done]. apply kcmp_eq in Ep as <-.
    apply list_elem_of_lookup_2 in Eq. by apply (list_elem_of_fmap_2 fst) in Eq.
Qed.
End KeySearch.
