(* ===== verification/Wire.v ===== *)
(** * Wire primitives of the column codec crate

    [src/crates/timeless-codec/src/lib.rs]: the bounds-checked [Reader], the
    framed column [ColumnEnc] and its parser, the presence bitmap, the checks
    on untrusted counts and ranges, and the wrappers around the two compression
    libraries. The libraries themselves are the classes [Zstd] and [Pco]:
    operations, with their documented laws in [ZstdLaws] and [PcoLaws]. *)
From Stdlib Require Import ZArith Lia Bool Strings.Byte.
From stdpp Require Import prelude list strings.
From S2P Require Import Prelude.
Open Scope string_scope.
Open Scope list_scope.
Open Scope Z_scope.

(** ** Constants *)

Definition ENC_I64_DELTA_PCO : byte := x01.
Definition ENC_I64_DELTA_ZSTD : byte := x02.
Definition ENC_F64_PCO : byte := x03.
Definition ENC_F64_ZSTD : byte := x04.
Definition ENC_STR_DICT : byte := x05.
Definition ENC_STR_ZSTD : byte := x06.
Definition ENC_U8_RLE : byte := x07.
Definition ENC_U8_ZSTD : byte := x08.
Definition ENC_FIXED_ZSTD : byte := x09.

Definition SAMPLE_LEN : nat := Z.to_nat 65536.
Definition FRAME_LEN : nat := 5.
Definition MAX_BLOCK_ENTRIES : Z := 2 ^ 20.
Definition DECOMPRESS_MAX_BYTES : Z := 64 * 2 ^ 20.
Arguments SAMPLE_LEN : simpl never.

(** ** Checks on counts and lengths *)

Definition validate_minimum_encoded_len (count : nat) (width available : Z) (what : string)
    : result unit :=
  match usize_checked_mul (Z.of_nat count) width with
  | None => Err (Fmt "{what}: count overflows minimum encoded length" [FStr what])
  | Some minimum =>
    if available <? minimum then
      Err (Fmt "{what}: {count} entries require at least {minimum} bytes, but only {available} available"
             [FStr what; FNum (Z.of_nat count); FNum minimum; FNum available])
    else Ok tt
  end.

(** [Vec::try_reserve] refuses a capacity above [isize::MAX] bytes; [size] is
    the element's size. *)
Definition reserve_decoded (size : Z) (count : nat) (what : string) : result unit :=
  if i64_max <? Z.of_nat count * size then
    Err (Fmt "{what}: cannot allocate {count} decoded entries" [FStr what; FNum (Z.of_nat count)])
  else Ok tt.

Definition exact_cap (n : nat) (width : Z) (what : string) : result Z :=
  ok_or (usize_checked_mul (Z.of_nat n) width)
    (Fmt "{what}: count {n} x width {width} overflows usize"
       [FStr what; FNum (Z.of_nat n); FNum width]).

Definition check_entry_count (n : Z) (what : string) : result unit :=
  if MAX_BLOCK_ENTRIES <? n then
    Err (Fmt "{what}: entry count {n} exceeds limit {MAX_BLOCK_ENTRIES}"
           [FStr what; FNum n; FNum MAX_BLOCK_ENTRIES])
  else Ok tt.

(** The fold of [check_block_range]: least and greatest timestamp. *)
Definition ts_range (timestamps : list Z) : Z * Z :=
  fold_left (fun '(a, b) t => (Z.min a t, Z.max b t)) timestamps (i64_max, i64_min).

Definition check_block_range (what : string) (n : nat) (ts_min ts_max : Z) (timestamps : list Z)
    : result unit :=
  if negb (length timestamps =? n)%nat then
    Err (Fmt "{what}: decoded {} entries, header claims {n}"
           [FStr what; FNum (Z.of_nat (length timestamps)); FNum (Z.of_nat n)])
  else
    let '(lo, hi) := ts_range timestamps in
    if negb (lo =? ts_min) || negb (hi =? ts_max) then
      Err (Fmt "{what}: payload range [{lo}, {hi}] disagrees with header [{ts_min}, {ts_max}]"
             [FStr what; FNum lo; FNum hi; FNum ts_min; FNum ts_max])
    else Ok tt.

Definition u32_len (len : nat) (what : string) : result Z :=
  if Z.of_nat len <=? u32_max then Ok (Z.of_nat len)
  else Err (Fmt "{what}: {len} byte(s) exceeds u32::MAX" [FStr what; FNum (Z.of_nat len)]).

(** ** Reader *)

Record Reader := mkReader { rd_buf : list byte; rd_pos : nat }.

Definition Reader_new (buf : list byte) : Reader := mkReader buf 0.

Definition remaining (r : Reader) : nat := length (rd_buf r) - rd_pos r.

Definition rd_take (n : nat) (what : string) (r : Reader) : result (list byte * Reader) :=
  match usize_checked_add (Z.of_nat (rd_pos r)) (Z.of_nat n) with
  | None => Err (Fmt "length overflow reading {what}" [FStr what])
  | Some _ =>
    let end_ := (rd_pos r + n)%nat in
    if (length (rd_buf r) <? end_)%nat then
      Err (Fmt "truncated: need {n} byte(s) for {what} at offset {}, only {} remain"
             [FNum (Z.of_nat n); FStr what; FNum (Z.of_nat (rd_pos r));
              FNum (Z.of_nat (remaining r))])
    else Ok (take n (drop (rd_pos r) (rd_buf r)), mkReader (rd_buf r) end_)
  end.

Definition rd_u8 (what : string) (r : Reader) : result (byte * Reader) :=
  let? (s, r) := rd_take 1 what r in Ok (nth 0 s x00, r).
Definition rd_u16 (what : string) (r : Reader) : result (Z * Reader) :=
  let? (s, r) := rd_take 2 what r in Ok (le_val s, r).
Definition rd_u32 (what : string) (r : Reader) : result (Z * Reader) :=
  let? (s, r) := rd_take 4 what r in Ok (le_val s, r).
Definition rd_i64 (what : string) (r : Reader) : result (Z * Reader) :=
  let? (s, r) := rd_take 8 what r in Ok (i64_from_le s, r).

Definition framed_column (what : string) (r : Reader) : result (list byte * Reader) :=
  let start := rd_pos r in
  let? (_, r) := rd_u8 what r in
  let? (len, r) := rd_u32 what r in
  let? (_, r) := rd_take (Z.to_nat len) what r in
  Ok (take (rd_pos r - start) (drop start (rd_buf r)), r).

(** ** Framed columns *)

Record ColumnEnc := mkColumnEnc { encoding : byte; payload : list byte }.

Definition to_bytes (c : ColumnEnc) : result (list byte) :=
  let? len := u32_len (length (payload c)) "column payload" in
  Ok (encoding c :: u32_le len ++ payload c).

Definition encoded_len (c : ColumnEnc) : nat := FRAME_LEN + length (payload c).

Definition read_column_frame (bytes : list byte) (what : string) : result (byte * list byte) :=
  let r := Reader_new bytes in
  let? (enc, r) := rd_u8 what r in
  let? (len, r) := rd_u32 what r in
  let? (pl, r) := rd_take (Z.to_nat len) what r in
  if negb (remaining r =? 0)%nat then
    Err (Fmt "{what}: {} trailing byte(s) after column payload"
           [FStr what; FNum (Z.of_nat (remaining r))])
  else Ok (enc, pl).

(** ** Compression libraries *)

(** The [zstd::bulk] calls: [compress(data, level)] and
    [decompress(data, capacity)]. *)
Class Zstd := {
  zstd_bulk_compress : list byte -> Z -> result (list byte);
  zstd_bulk_decompress : list byte -> Z -> result (list byte);
}.

(** A frame decompresses to what was compressed when the capacity holds it and
    fails when it does not; output never exceeds the capacity. *)
Class ZstdLaws `{Zstd} : Prop := {
  zstd_round_trip data level c cap :
    zstd_bulk_compress data level = Ok c ->
    Z.of_nat (length data) <= cap ->
    zstd_bulk_decompress c cap = Ok data;
  zstd_too_small data level c cap :
    zstd_bulk_compress data level = Ok c ->
    cap < Z.of_nat (length data) ->
    is_ok (zstd_bulk_decompress c cap) = false;
  zstd_capacity c cap data :
    zstd_bulk_decompress c cap = Ok data -> Z.of_nat (length data) <= cap;
}.

(** [pco::standalone] at one number type: [simple_compress] at the default
    configuration and [simple_decompress_into] a destination of [n] numbers,
    giving the destination, the count processed and whether the stream ended. *)
Class Pco (T : Type) := {
  pco_simple_compress : list T -> result (list byte);
  pco_simple_decompress_into : list byte -> nat -> result (list T * nat * bool);
}.

(** A stream decompresses to its numbers into a destination of their count;
    the destination keeps its length. [valid] says which values are numbers of
    the type. *)
Class PcoLaws {T : Type} `{Pco T} (valid : T -> Prop) : Prop := {
  pco_round_trip nums c :
    Forall valid nums -> pco_simple_compress nums = Ok c ->
    pco_simple_decompress_into c (length nums) = Ok (nums, length nums, true);
  pco_destination c n out k fin :
    pco_simple_decompress_into c n = Ok (out, k, fin) -> length out = n;
}.

Section Compression.
Context `{Zstd}.

Definition zstd_compress (data : list byte) (level : Z) : result (list byte) :=
  map_err (fun e => Fmt "zstd compress failed: {e}" [FErr e]) (zstd_bulk_compress data level).

Definition zstd_decompress_capped (data : list byte) (what : string) (cap : Z)
    : result (list byte) :=
  map_err (fun e => Fmt "zstd decompress of {what} failed: {e}" [FStr what; FErr e])
    (zstd_bulk_decompress data cap).

Definition zstd_decompress (data : list byte) (what : string) : result (list byte) :=
  zstd_decompress_capped data what DECOMPRESS_MAX_BYTES.

Context {T : Type} `{Pco T}.

Definition pco_compress (nums : list T) : result (list byte) :=
  map_err (fun e => Fmt "pco compress failed: {e}" [FErr e]) (pco_simple_compress nums).

Definition pco_decompress_capped (bytes : list byte) (n : nat) (what : string)
    : result (list T) :=
  let? (out, n_processed, finished) :=
    map_err (fun e => Fmt "pco decompress of {what} failed: {e}" [FStr what; FErr e])
      (pco_simple_decompress_into bytes n) in
  if negb finished || negb (n_processed =? n)%nat then
    Err (Fmt "pco decompress of {what}: stream holds {} values, expected {n}"
           [FStr what; FNum (Z.of_nat n_processed); FNum (Z.of_nat n)])
  else Ok out.
End Compression.

(** ** Presence bitmaps *)

Definition bitmap_len (n : nat) : nat := (n + 7) / 8.

(** [out[i / 8] |= 1 << (i % 8)]. *)
Definition set_bit (out : list byte) (i : nat) : list byte :=
  alter (fun x => z2b (Z.lor (b2z x) (Z.shiftl 1 (Z.of_nat (i mod 8))))) (i / 8)%nat out.

(** [bytes[i / 8] & (1 << (i % 8)) != 0]. *)
Definition get_bit (bytes : list byte) (i : nat) : bool :=
  negb (Z.land (b2z (nth (i / 8) bytes x00)) (Z.shiftl 1 (Z.of_nat (i mod 8))) =? 0).

Definition encode_bitmap (bits : list bool) : list byte :=
  fold_left (fun out '(i, b) => if b : bool then set_bit out i else out)
    (imap pair bits) (replicate (bitmap_len (length bits)) x00).

Definition decode_bitmap (bytes : list byte) (n : nat) : result (list bool) :=
  if negb (length bytes =? bitmap_len n)%nat then
    Err (Fmt "bitmap: {} byte(s), expected {} for {n} bits"
           [FNum (Z.of_nat (length bytes)); FNum (Z.of_nat (bitmap_len n)); FNum (Z.of_nat n)])
  else if negb (n mod 8 =? 0)%nat &&
          negb (Z.land (b2z (nth (length bytes - 1) bytes x00))
                  (255 - (Z.shiftl 1 (Z.of_nat (n mod 8)) - 1)) =? 0) then
    Err (Fmt "bitmap: nonzero padding bits in final byte" [])
  else Ok (map (get_bit bytes) (seq 0 n)).

(** ** Reader lemmas *)

(** [rd_at r l]: the unread bytes of [r] are [l]. A slice is never longer than
    [isize::MAX] bytes, so the end offset of a read inside it never overflows. *)
Definition rd_at (r : Reader) (l : list byte) : Prop :=
  drop (rd_pos r) (rd_buf r) = l /\ (rd_pos r <= length (rd_buf r))%nat /\
  Z.of_nat (length (rd_buf r)) <= i64_max.

Definition rd_adv (n : nat) (r : Reader) : Reader := mkReader (rd_buf r) (rd_pos r + n).

Lemma rd_at_new l : Z.of_nat (length l) <= i64_max -> rd_at (Reader_new l) l.
Proof. intros ?. split; [done|]. simpl. split; [lia|done]. Qed.

Lemma rd_at_remaining r l : rd_at r l -> remaining r = length l.
Proof. intros (<- & ? & ?). unfold remaining. rewrite length_drop. lia. Qed.

Lemma rd_at_adv r a b : rd_at r (a ++ b) -> rd_at (rd_adv (length a) r) b.
Proof.
  intros (Hd & Hp & Hl). split; [|split]; simpl.
  - rewrite <-drop_drop, Hd, drop_app_length. done.
  - apply (f_equal length) in Hd. rewrite length_drop, length_app in Hd. lia.
  - done.
Qed.

Lemma rd_take_at r a b n what :
  rd_at r (a ++ b) -> length a = n -> rd_take n what r = Ok (a, rd_adv n r).
Proof.
  intros (Hd & Hp & Hl) <-. unfold rd_take, usize_checked_add.
  pose proof (f_equal length Hd) as Hlen. rewrite length_drop, length_app in Hlen.
  destruct (Z.leb_spec (Z.of_nat (rd_pos r) + Z.of_nat (length a)) usize_max) as [|Hbig];
    [|unfold usize_max, i64_max in *; lia].
  destruct (Nat.ltb_spec (length (rd_buf r)) (rd_pos r + length a)); [lia|].
  by rewrite Hd, take_app_length.
Qed.

Lemma rd_u8_at r x b what : rd_at r (x :: b) -> rd_u8 what r = Ok (x, rd_adv 1 r).
Proof. intros Hr. unfold rd_u8. by rewrite (rd_take_at r [x] b). Qed.

Lemma rd_u16_at r z b what :
  rd_at r (u16_le z ++ b) -> 0 <= z <= u16_max -> rd_u16 what r = Ok (z, rd_adv 2 r).
Proof.
  intros Hr Hz. unfold rd_u16. rewrite (rd_take_at r (u16_le z) b) by auto with wire.
  by rewrite le_val_u16.
Qed.

Lemma rd_u32_at r z b what :
  rd_at r (u32_le z ++ b) -> is_u32 z -> rd_u32 what r = Ok (z, rd_adv 4 r).
Proof.
  intros Hr Hz. unfold rd_u32. rewrite (rd_take_at r (u32_le z) b) by auto with wire.
  by rewrite le_val_u32.
Qed.

Lemma rd_i64_at r z b what :
  rd_at r (i64_le z ++ b) -> is_i64 z -> rd_i64 what r = Ok (z, rd_adv 8 r).
Proof.
  intros Hr Hz. unfold rd_i64. rewrite (rd_take_at r (i64_le z) b) by auto with wire.
  by rewrite i64_from_le_bytes.
Qed.

(** A successful read consumed exactly the bytes it returned. *)
Lemma rd_take_inv r l n what s r' :
  rd_at r l -> rd_take n what r = Ok (s, r') ->
  length s = n /\ l = s ++ drop n l /\ r' = rd_adv n r /\ rd_at r' (drop n l).
Proof.
  intros Hr. pose proof Hr as (Hd & Hp & Hl). unfold rd_take.
  destruct (usize_checked_add _ _); [|done].
  destruct (Nat.ltb_spec (length (rd_buf r)) (rd_pos r + n)) as [|Hn]; [done|].
  intros [= <- <-]. rewrite Hd.
  assert (n <= length l)%nat as Hnl.
  { apply (f_equal length) in Hd. rewrite length_drop in Hd. lia. }
  assert (length (take n l) = n) as Hlen by (rewrite length_take; lia).
  split; [done|]. split; [by rewrite take_drop|]. split; [done|].
  rewrite <-(take_drop n l) in Hr at 1. apply rd_at_adv in Hr.
  rewrite Hlen in Hr. done.
Qed.

Lemma rd_u8_inv r l what b r' :
  rd_at r l -> rd_u8 what r = Ok (b, r') -> exists rest, l = b :: rest /\ rd_at r' rest.
Proof.
  intros Hr H. unfold rd_u8 in H. destruct (rd_take 1 what r) as [[s r1]|] eqn:E; [|done].
  destruct (rd_take_inv _ _ _ _ _ _ Hr E) as (Hl & Heq & _ & Hr1). injection H as <- <-.
  destruct s as [|x [|]]; try done. by exists (drop 1 l).
Qed.

Lemma rd_u16_inv r l what z r' :
  rd_at r l -> rd_u16 what r = Ok (z, r') -> exists rest, l = u16_le z ++ rest /\ 0 <= z <= u16_max /\ rd_at r' rest.
Proof.
  intros Hr H. unfold rd_u16 in H. destruct (rd_take 2 what r) as [[s r1]|] eqn:E; [|done].
  destruct (rd_take_inv _ _ _ _ _ _ Hr E) as (Hl & Heq & _ & Hr1). injection H as <- <-.
  exists (drop 2 l). pose proof (le_val_range s) as Hrange. rewrite Hl in Hrange. change (8 * Z.of_nat 2) with 16 in Hrange.
  rewrite u16_le_val by done. split; [done|]. split; [unfold u16_max; lia|done].
Qed.

Lemma rd_u32_inv r l what z r' :
  rd_at r l -> rd_u32 what r = Ok (z, r') -> exists rest, l = u32_le z ++ rest /\ is_u32 z /\ rd_at r' rest.
Proof.
  intros Hr H. unfold rd_u32 in H. destruct (rd_take 4 what r) as [[s r1]|] eqn:E; [|done].
  destruct (rd_take_inv _ _ _ _ _ _ Hr E) as (Hl & Heq & _ & Hr1). injection H as <- <-.
  exists (drop 4 l). pose proof (le_val_range s) as Hrange. rewrite Hl in Hrange. change (8 * Z.of_nat 4) with 32 in Hrange.
  rewrite u32_le_val by done. split; [done|]. split; [unfold is_u32, u32_max; lia|done].
Qed.

Lemma rd_i64_inv r l what z r' :
  rd_at r l -> rd_i64 what r = Ok (z, r') -> exists rest, l = i64_le z ++ rest /\ is_i64 z /\ rd_at r' rest.
Proof.
  intros Hr H. unfold rd_i64 in H. destruct (rd_take 8 what r) as [[s r1]|] eqn:E; [|done].
  destruct (rd_take_inv _ _ _ _ _ _ Hr E) as (Hl & Heq & _ & Hr1). injection H as <- <-.
  exists (drop 8 l). rewrite i64_le_word by done. split; [done|]. split; [apply wrap_i64_range|done].
Qed.

(** ** Frames *)

Lemma u32_len_ok len what z : u32_len len what = Ok z -> z = Z.of_nat len /\ is_u32 z.
Proof.
  unfold u32_len, is_u32. destruct (Z.leb_spec (Z.of_nat len) u32_max); [|done].
  intros [= <-]. lia.
Qed.

Lemma to_bytes_inv c bytes :
  to_bytes c = Ok bytes ->
  is_u32 (Z.of_nat (length (payload c))) /\
  bytes = encoding c :: u32_le (Z.of_nat (length (payload c))) ++ payload c.
Proof.
  unfold to_bytes. destruct (u32_len _ _) as [z|] eqn:E; [|done].
  apply u32_len_ok in E as [-> Hz]. by intros [= <-].
Qed.

Lemma length_to_bytes c bytes :
  to_bytes c = Ok bytes -> length bytes = encoded_len c.
Proof.
  intros [_ ->]%to_bytes_inv. by autorewrite with wire.
Qed.

Lemma to_bytes_len_bound c bytes :
  to_bytes c = Ok bytes -> Z.of_nat (length bytes) <= u32_max + 5.
Proof.
  intros Hb. rewrite (length_to_bytes _ _ Hb). apply to_bytes_inv in Hb as [Hu _].
  unfold is_u32, encoded_len, FRAME_LEN in *. lia.
Qed.

(** Reading one frame off a stream that continues with [rest]. *)
Lemma framed_column_at c bytes rest r what :
  to_bytes c = Ok bytes -> rd_at r (bytes ++ rest) ->
  framed_column what r = Ok (bytes, rd_adv (length bytes) r) /\
  rd_at (rd_adv (length bytes) r) rest.
Proof.
  intros Hb Hr. split; [|by apply rd_at_adv].
  pose proof (length_to_bytes _ _ Hb) as Hl. apply to_bytes_inv in Hb as [Hu ->].
  unfold framed_column, encoded_len, FRAME_LEN in *. simpl in Hr. rewrite <-List.app_assoc in Hr.
  pose proof Hr as Hr0. rewrite (rd_u8_at _ _ _ _ Hr).
  apply (rd_at_adv r [_]) in Hr. simpl in Hr. rewrite (rd_u32_at _ _ _ _ Hr Hu).
  apply rd_at_adv in Hr. rewrite length_u32_le in Hr.
  rewrite (rd_take_at _ _ _ _ _ Hr) by lia.
  f_equal. f_equal.
  - simpl. destruct Hr0 as (Hd & _). rewrite Hd.
    replace (rd_pos r + 1 + 4 + Z.to_nat (Z.of_nat (length (payload c))) - rd_pos r)%nat
      with (length (encoding c :: u32_le (Z.of_nat (length (payload c))) ++ payload c))
      by (rewrite Hl; lia).
    by rewrite (List.app_assoc (u32_le _)), (List.app_comm_cons _ rest), take_app_length.
  - unfold rd_adv. simpl. f_equal. autorewrite with wire. lia.
Qed.

Lemma read_to_bytes c bytes what :
  to_bytes c = Ok bytes -> read_column_frame bytes what = Ok (encoding c, payload c).
Proof.
  intros Hb. pose proof (to_bytes_len_bound _ _ Hb) as Hbound.
  apply to_bytes_inv in Hb as [Hu Hb].
  assert (rd_at (Reader_new bytes) bytes) as Hr
    by (apply rd_at_new; unfold u32_max, i64_max in *; lia).
  unfold read_column_frame. rewrite Hb in Hr at 2.
  rewrite (rd_u8_at _ _ _ _ Hr). apply (rd_at_adv _ [_]) in Hr.
  rewrite (rd_u32_at _ _ _ _ Hr Hu). apply rd_at_adv in Hr.
  rewrite length_u32_le in Hr. rewrite <-(List.app_nil_r (payload c)) in Hr.
  rewrite (rd_take_at _ _ _ _ _ Hr) by lia. apply rd_at_adv in Hr.
  replace (Z.to_nat (Z.of_nat (length (payload c)))) with (length (payload c)) by lia.
  by rewrite (rd_at_remaining _ _ Hr).
Qed.

(** C30: A framed column read back yields the strategy id and payload that were
    written, whatever their content; writing refuses exactly the payloads whose
    length does not fit the u32 prefix. *)
Theorem column_frame_round_trip (c : ColumnEnc) (what : string) :
  match to_bytes c with
  | Ok bytes => Z.of_nat (length (payload c)) <= u32_max /\
                read_column_frame bytes what = Ok (encoding c, payload c)
  | Err _ => u32_max < Z.of_nat (length (payload c))
  end.
Proof.
  destruct (to_bytes c) as [bytes|e] eqn:Hb.
  - split; [apply to_bytes_inv in Hb as [[? ?] _]; lia|by apply read_to_bytes].
  - unfold to_bytes, u32_len in Hb.
    destruct (Z.leb_spec (Z.of_nat (length (payload c))) u32_max); [done|lia].
Qed.

(** The frame parser is injective on slices: what it accepts is exactly the
    frame of what it returns. *)
Lemma read_column_frame_inv bytes what e p :
  Z.of_nat (length bytes) <= i64_max ->
  read_column_frame bytes what = Ok (e, p) ->
  to_bytes (mkColumnEnc e p) = Ok bytes.
Proof.
  intros Hlen. unfold read_column_frame, rd_u8, rd_u32.
  pose proof (rd_at_new bytes Hlen) as Hr. revert Hr. generalize (Reader_new bytes). intros r0 Hr.
  destruct (rd_take 1 what r0) as [[s1 r1]|] eqn:E1; [|done].
  apply (rd_take_inv _ _ _ _ _ _ Hr) in E1 as (L1 & D1 & -> & Hr1).
  destruct (rd_take 4 what _) as [[s2 r2]|] eqn:E2; [|done].
  apply (rd_take_inv _ _ _ _ _ _ Hr1) in E2 as (L2 & D2 & -> & Hr2).
  destruct (rd_take (Z.to_nat _) what _) as [[s3 r3]|] eqn:E3; [|done].
  apply (rd_take_inv _ _ _ _ _ _ Hr2) in E3 as (L3 & D3 & -> & Hr3).
  rewrite (rd_at_remaining _ _ Hr3).
  destruct (Nat.eqb_spec (length (drop (Z.to_nat (le_val s2)) (drop 4 (drop 1 bytes)))) 0) as [Hz|];
    [|done].
  apply nil_length_inv in Hz. intros [= <- <-].
  pose proof (le_val_range s2) as Hs2. rewrite L2 in Hs2. simpl in Hs2.
  destruct s1 as [|x [|]]; try done. simpl nth. simpl in D1. 
  unfold to_bytes, u32_len. simpl. rewrite L3.
  destruct (Z.leb_spec (Z.of_nat (Z.to_nat (le_val s2))) u32_max) as [|Hbig];
    [|unfold u32_max in Hbig; lia].
  f_equal. rewrite D1. simpl in D2 |- *. f_equal. rewrite D2.
  rewrite Z2Nat.id, u32_le_val by (done || lia).
  f_equal. by rewrite D3, Hz, List.app_nil_r.
Qed.

(** ** Bitmaps *)

Lemma get_bit_testbit bytes i :
  get_bit bytes i = Z.testbit (b2z (nth (i / 8) bytes x00)) (Z.of_nat (i mod 8)).
Proof.
  unfold get_bit. set (x := b2z _). set (k := Z.of_nat _).
  assert (0 <= k) as Hk by (unfold k; lia).
  rewrite Z.shiftl_1_l. destruct (Z.testbit x k) eqn:E.
  - destruct (Z.eqb_spec (Z.land x (2 ^ k)) 0) as [Hz|]; [|done].
    apply (f_equal (fun z => Z.testbit z k)) in Hz.
    rewrite Z.land_spec, Z.pow2_bits_true, E, Z.bits_0 in Hz by done. done.
  - destruct (Z.eqb_spec (Z.land x (2 ^ k)) 0) as [|Hz]; [done|]. exfalso. apply Hz.
    apply Z.bits_inj'. intros n Hn. rewrite Z.land_spec, Z.bits_0, Z.pow2_bits_eqb by done.
    destruct (Z.eqb_spec k n) as [<-|]; [by rewrite E|by rewrite andb_false_r].
Qed.

Lemma length_set_bit out i : length (set_bit out i) = length out.
Proof. apply length_alter. Qed.

Lemma get_set_bit out i j :
  (i / 8 < length out)%nat -> get_bit (set_bit out i) j = (i =? j)%nat || get_bit out j.
Proof.
  intros Hi. rewrite !get_bit_testbit. unfold set_bit.
  destruct (decide (i / 8 = j / 8)%nat) as [Hd|Hd].
  - rewrite !nth_lookup, <-Hd, list_lookup_alter_eq. unfold default, from_option, fmap, option_fmap, option_map.
    destruct (lookup_lt_is_Some_2 out (i / 8) Hi) as [x Hx]. rewrite Hx. unfold id.
    rewrite b2z_z2b, <-(Z.land_ones _ 8) by lia. rewrite Z.land_spec, Z.lor_spec, Z.shiftl_1_l.
    rewrite Z.pow2_bits_eqb, Z.ones_spec_low, andb_true_r by
      (pose proof (Nat.mod_upper_bound j 8 ltac:(lia)); pose proof (Nat.mod_upper_bound i 8 ltac:(lia)); lia).
    rewrite orb_comm. f_equal.
    destruct (Nat.eqb_spec i j) as [->|Hne]; [by rewrite Z.eqb_refl|].
    apply Z.eqb_neq. intros Hm. apply Hne.
    rewrite (Nat.div_mod_eq i 8), (Nat.div_mod_eq j 8), Hd. lia.
  - rewrite !nth_lookup, list_lookup_alter_ne by done.
    destruct (Nat.eqb_spec i j) as [->|]; done.
Qed.

Lemma fold_set_bit bits k out j :
  (k + length bits <= 8 * length out)%nat ->
  let out' := fold_left (fun out '(i, b) => if b : bool then set_bit out i else out)
                (imap (fun i b => (k + i, b)%nat) bits) out in
  length out' = length out /\
  get_bit out' j = get_bit out j || ((k <=? j)%nat && nth (j - k) bits false).
Proof.
  revert k out. induction bits as [|b bits IH]; intros k out Hlen; simpl.
  { split; [done|]. destruct (j - k)%nat; by rewrite andb_false_r, orb_false_r. }
  simpl in Hlen.
  assert (imap ((fun i b0 => ((k + i)%nat, b0)) ∘ S) bits
          = imap (fun i b0 => ((S k + i)%nat, b0)) bits) as ->.
  { apply imap_ext. intros i x _. simpl. f_equal. lia. }
  rewrite Nat.add_0_r.
  set (out1 := if b then set_bit out k else out).
  assert (length out1 = length out) as Hl1 by (unfold out1; destruct b; [apply length_set_bit|done]).
  destruct (IH (S k) out1) as [L G]; [rewrite Hl1; lia|]. split; [by rewrite L|]. rewrite G.
  assert (get_bit out1 j = get_bit out j || (b && (k =? j)%nat)) as ->.
  { unfold out1. destruct b; simpl; [|by rewrite orb_false_r].
    rewrite get_set_bit by (apply Nat.Div0.div_lt_upper_bound; lia). apply orb_comm. }
  rewrite <-orb_assoc. f_equal.
  destruct (Nat.eqb_spec k j) as [<-|Hne].
  - rewrite Nat.sub_diag, Nat.leb_refl. simpl nth.
    destruct (Nat.leb_spec (S k) k); [lia|]. by rewrite andb_true_r, orb_false_r.
  - rewrite andb_false_r. rewrite orb_false_l. destruct (Nat.leb_spec (S k) j), (Nat.leb_spec k j); try lia; try done.
    replace (j - k)%nat with (S (j - S k)) by lia. done.
Qed.

Lemma bitmap_len_bound n : (n <= 8 * bitmap_len n < n + 8)%nat.
Proof. unfold bitmap_len. pose proof (Nat.div_mod_eq (n + 7) 8). pose proof (Nat.mod_upper_bound (n+7) 8 ltac:(lia)). lia. Qed.

Lemma get_bit_zero n j : get_bit (replicate n x00) j = false.
Proof.
  rewrite get_bit_testbit, nth_lookup.
  destruct (replicate n x00 !! (j / 8)%nat) as [x|] eqn:E; simpl.
  - apply lookup_replicate in E as [-> _]. apply Z.bits_0.
  - apply Z.bits_0.
Qed.

Lemma encode_bitmap_spec bits :
  length (encode_bitmap bits) = bitmap_len (length bits) /\
  forall j, get_bit (encode_bitmap bits) j = nth j bits false.
Proof.
  unfold encode_bitmap. set (out := replicate _ _).
  assert (length out = bitmap_len (length bits)) as Hout by apply length_replicate.
  assert (imap pair bits = imap (fun i b => (0 + i, b)%nat) bits) as -> by (by apply imap_ext).
  split; [|intros j];
    (destruct (fold_set_bit bits 0 out 0) as [L _] ||
     destruct (fold_set_bit bits 0 out j) as [_ G]);
    try (rewrite Hout; pose proof (bitmap_len_bound (length bits)); lia).
  - by rewrite L.
  - destruct (fold_set_bit bits 0 out j) as [_ G].
    { rewrite Hout; pose proof (bitmap_len_bound (length bits)); lia. }
    rewrite G. unfold out. rewrite get_bit_zero. by rewrite Nat.sub_0_r.
Qed.

(** Two byte strings of one length with the same bits are equal. *)
Lemma get_bit_ext a b :
  length a = length b -> (forall j, (j < 8 * length a)%nat -> get_bit a j = get_bit b j) -> a = b.
Proof.
  intros Hl H. apply (list_eq_same_length _ _ (length a)); [done|done|].
  intros i x y Hi Hx Hy. apply b2z_inj. apply Z.bits_inj'. intros n Hn.
  destruct (Z.lt_ge_cases n 8) as [Hn8|Hn8].
  - specialize (H (i * 8 + Z.to_nat n)%nat ltac:(lia)). rewrite !get_bit_testbit in H.
    rewrite Nat.div_add_l, Nat.div_small, Nat.add_0_r in H by lia.
    rewrite (Nat.add_comm (i * 8)), Nat.Div0.mod_add, Nat.mod_small, !nth_lookup, Hx, Hy in H by lia.
    by rewrite Z2Nat.id in H by lia.
  - rewrite !Z.bits_above_log2; [done| | | |]; try apply b2z_range.
    + pose proof (b2z_range y). destruct (Z.eq_dec (b2z y) 0) as [->|]; [simpl; lia|].
      apply Z.log2_lt_pow2; [lia|]. apply Z.lt_le_trans with (2 ^ 8); [lia|]. by apply Z.pow_le_mono_r.
    + pose proof (b2z_range x). destruct (Z.eq_dec (b2z x) 0) as [->|]; [simpl; lia|].
      apply Z.log2_lt_pow2; [lia|]. apply Z.lt_le_trans with (2 ^ 8); [lia|]. by apply Z.pow_le_mono_r.
Qed.

Lemma get_bit_pad_mask bytes n :
  length bytes = bitmap_len n -> (n mod 8 <> 0)%nat ->
  Z.land (b2z (nth (length bytes - 1) bytes x00)) (255 - (Z.shiftl 1 (Z.of_nat (n mod 8)) - 1)) = 0
  <-> forall j, (n <= j < 8 * length bytes)%nat -> get_bit bytes j = false.
Proof.
  intros Hl Hm. pose proof (Nat.div_mod_eq n 8) as Hdm.
  pose proof (Nat.mod_upper_bound n 8 ltac:(lia)) as Hub.
  assert (length bytes - 1 = n / 8)%nat as Hlast.
  { rewrite Hl. unfold bitmap_len. replace (n + 7)%nat with ((n / 8 + 1) * 8 + (n mod 8 - 1))%nat by lia.
    rewrite Nat.div_add_l, (Nat.div_small (_ - 1)) by lia. lia. }
  assert (length bytes = n / 8 + 1)%nat as Hlen by (pose proof (bitmap_len_bound n); lia).
  rewrite Hlast. set (x := b2z _). set (m := Z.of_nat (n mod 8)).
  assert (0 <= m < 8) as Hm8 by (unfold m; lia).
  assert (forall k, 0 <= k < 8 -> Z.testbit (255 - (Z.shiftl 1 m - 1)) k = (m <=? k)) as Hmask.
  { intros k Hk. rewrite Z.shiftl_1_l. replace (255 - (2 ^ m - 1)) with (Z.ldiff 255 (Z.ones m)).
    - rewrite Z.ldiff_spec. change 255 with (Z.ones 8). rewrite Z.ones_spec_low by lia.
      destruct (Z.leb_spec m k); [rewrite Z.ones_spec_high|rewrite Z.ones_spec_low]; (done || lia).
    - rewrite <-Z.sub_nocarry_ldiff; [rewrite Z.ones_equiv; lia|].
      apply Z.bits_inj'. intros i Hi. rewrite Z.ldiff_spec, Z.bits_0. change 255 with (Z.ones 8).
      rewrite !Z.testbit_ones_nonneg by lia.
      destruct (Z.ltb_spec i m), (Z.ltb_spec i 8); (done || lia). }
  split.
  - intros Hz j Hj. rewrite get_bit_testbit.
    assert (j / 8 = n / 8)%nat as ->.
    { pose proof (Nat.div_mod_eq j 8). pose proof (Nat.mod_upper_bound j 8 ltac:(lia)). lia. }
    apply (f_equal (fun z => Z.testbit z (Z.of_nat (j mod 8)))) in Hz.
    rewrite Z.land_spec, Z.bits_0, Hmask in Hz by (pose proof (Nat.mod_upper_bound j 8 ltac:(lia)); lia).
    destruct (Z.leb_spec m (Z.of_nat (j mod 8))) as [|Hlt]; [by rewrite andb_true_r in Hz|].
    pose proof (Nat.div_mod_eq j 8). pose proof (Nat.mod_upper_bound j 8 ltac:(lia)). lia.
  - intros H. apply Z.bits_inj'. intros k Hk. rewrite Z.land_spec, Z.bits_0.
    destruct (Z.lt_ge_cases k 8) as [Hk8|Hk8].
    + rewrite Hmask by lia. destruct (Z.leb_spec m k); [|by rewrite andb_false_r].
      rewrite andb_true_r. specialize (H (n / 8 * 8 + Z.to_nat k)%nat ltac:(lia)).
      rewrite get_bit_testbit, Nat.div_add_l, (Nat.div_small (Z.to_nat k)), Nat.add_0_r in H by lia.
      rewrite (Nat.add_comm (n / 8 * 8)), Nat.Div0.mod_add, (Nat.mod_small (Z.to_nat k)) in H by lia.
      by rewrite Z2Nat.id in H by lia.
    + rewrite Z.bits_above_log2; [done|apply b2z_range|]. unfold x.
      set (bb := nth _ _ _). pose proof (b2z_range bb).
      destruct (Z.eq_dec (b2z bb) 0) as [->|]; [simpl; lia|].
      apply Z.log2_lt_pow2; [lia|]. apply Z.lt_le_trans with (2 ^ 8); [lia|]. by apply Z.pow_le_mono_r.
Qed.

(** [decode_bitmap] accepts exactly the canonical encodings. *)
Lemma decode_bitmap_spec bytes n bits :
  decode_bitmap bytes n = Ok bits <-> (length bits = n /\ bytes = encode_bitmap bits).
Proof.
  unfold decode_bitmap. destruct (Nat.eqb_spec (length bytes) (bitmap_len n)) as [Hl|Hl]; cbn [negb].
  2: { split; [done|]. intros [<- ->]. destruct (encode_bitmap_spec bits) as [? _]. done. }
  assert (forall j, get_bit bytes j = nth j (map (get_bit bytes) (seq 0 n)) false \/ (n <= j)%nat) as Hmap.
  { intros j. destruct (Nat.lt_ge_cases j n) as [Hj|]; [|by right]. left.
    rewrite (nth_indep _ _ (get_bit bytes 0)) by (rewrite length_map, length_seq; lia).
    rewrite map_nth, seq_nth by lia. done. }
  match goal with |- context [if ?p then Err _ else _] => set (pad := p) end.
  assert (pad = false <-> forall j, (n <= j < 8 * length bytes)%nat -> get_bit bytes j = false) as Hpad.
  { unfold pad. destruct (Nat.eqb_spec (n mod 8) 0) as [Hz|Hnz]; cbn [negb andb].
    - split; [|done]. intros _ j Hj. pose proof (bitmap_len_bound n). pose proof (Nat.div_mod_eq n 8).
      unfold bitmap_len in *. rewrite Hl in Hj. exfalso.
      replace (n + 7)%nat with (n / 8 * 8 + 7)%nat in Hj by lia.
      rewrite Nat.div_add_l, (Nat.div_small 7) in Hj by lia. lia.
    - rewrite negb_false_iff, Z.eqb_eq. by apply get_bit_pad_mask. }
  split.
  - destruct pad; [done|]. intros [= <-]. rewrite length_map, length_seq. split; [done|].
    destruct (encode_bitmap_spec (map (get_bit bytes) (seq 0 n))) as [L G].
    rewrite length_map, length_seq in L. apply get_bit_ext; [lia|]. intros j Hj. rewrite G.
    destruct (Hmap j) as [|Hge]; [done|]. rewrite (proj1 Hpad eq_refl) by lia.
    symmetry. apply nth_overflow. rewrite length_map, length_seq. lia.
  - intros [<- Hb]. destruct (encode_bitmap_spec bits) as [L G].
    assert (pad = false) as ->.
    { apply Hpad. intros j Hj. rewrite Hb, G. apply nth_overflow. lia. }
    f_equal. apply (nth_ext _ _ false false); [by rewrite length_map, length_seq|].
    intros j Hj. rewrite length_map, length_seq in Hj. rewrite <-G, <-Hb.
    destruct (Hmap j) as [|]; [done|lia].
Qed.

(** C31: The presence bitmap codec is a bijection between bit strings and
    canonical byte strings: decoding an encoding at its own length gives the bits
    back, and any byte string the decoder accepts is the one encoding of the bits
    it returns (wrong lengths and nonzero padding are refused). *)
Theorem bitmap_canonical (bytes : list byte) (n : nat) (bits : list bool) :
  (decode_bitmap (encode_bitmap bits) (length bits) = Ok bits) /\
  (decode_bitmap bytes n = Ok bits <-> length bits = n /\ bytes = encode_bitmap bits).
Proof. split; [by apply decode_bitmap_spec|apply decode_bitmap_spec]. Qed.

(** ** Compression wrappers *)

(** The errors an encoder can end with that are not its own doing: a compressor
    failed, or the compressed payload does not fit the u32 length prefix. *)
Inductive codec_failure : error -> Prop :=
| zstd_failure e : codec_failure (Fmt "zstd compress failed: {e}" [FErr e])
| pco_failure e : codec_failure (Fmt "pco compress failed: {e}" [FErr e])
| frame_failure what z : u32_max < z ->
    codec_failure (Fmt "{what}: {len} byte(s) exceeds u32::MAX" [FStr what; FNum z]).

(** A [Vec] of elements of [size] bytes occupies at most [isize::MAX] bytes. *)
Definition vec_fits {A} (size : Z) (l : list A) : Prop := Z.of_nat (length l) * size <= i64_max.

Section CompressionLaws.
Context `{ZstdLaws}.

Lemma zstd_compress_round data level c what cap :
  zstd_compress data level = Ok c -> Z.of_nat (length data) <= cap ->
  zstd_decompress_capped c what cap = Ok data.
Proof.
  unfold zstd_compress, zstd_decompress_capped. intros Hc Hl.
  destruct (zstd_bulk_compress data level) eqn:E; [|done]. injection Hc as ->.
  by rewrite (zstd_round_trip _ _ _ _ E Hl).
Qed.

Lemma zstd_compress_too_small data level c what cap :
  zstd_compress data level = Ok c -> cap < Z.of_nat (length data) ->
  is_ok (zstd_decompress_capped c what cap) = false.
Proof.
  unfold zstd_compress, zstd_decompress_capped. intros Hc Hl.
  destruct (zstd_bulk_compress data level) eqn:E; [|done]. injection Hc as ->.
  pose proof (zstd_too_small _ _ _ _ E Hl). by destruct (zstd_bulk_decompress c cap).
Qed.

Lemma zstd_decompress_capped_len c what cap data :
  zstd_decompress_capped c what cap = Ok data -> Z.of_nat (length data) <= cap.
Proof.
  unfold zstd_decompress_capped. destruct (zstd_bulk_decompress c cap) eqn:E; [|done].
  intros [= ->]. by apply zstd_capacity in E.
Qed.

Context {T : Type} `{Pco T} {valid : T -> Prop} `{!PcoLaws valid}.

Lemma pco_compress_round nums c what :
  Forall valid nums -> pco_compress nums = Ok c ->
  pco_decompress_capped c (length nums) what = Ok nums.
Proof.
  unfold pco_compress, pco_decompress_capped. intros Hv Hc.
  destruct (pco_simple_compress nums) eqn:E; [|done]. injection Hc as ->.
  rewrite (pco_round_trip _ _ Hv E). simpl. by rewrite Nat.eqb_refl.
Qed.

Lemma pco_decompress_capped_len c n what out :
  pco_decompress_capped c n what = Ok out -> length out = n.
Proof.
  unfold pco_decompress_capped.
  destruct (pco_simple_decompress_into c n) as [[[o k] f]|] eqn:E; [|done]. simpl.
  destruct (negb f || _); [done|]. intros [= ->]. by eapply pco_destination.
Qed.
End CompressionLaws.

Lemma zstd_compress_failure `{Zstd} data level e :
  zstd_compress data level = Err e -> codec_failure e.
Proof.
  unfold zstd_compress. destruct (zstd_bulk_compress data level); [done|].
  intros [= <-]. constructor.
Qed.

Lemma pco_compress_failure `{Pco T} (nums : list T) e :
  pco_compress nums = Err e -> codec_failure e.
Proof.
  unfold pco_compress. destruct (pco_simple_compress nums); [done|].
  intros [= <-]. constructor.
Qed.

Lemma u32_len_failure len what e : u32_len len what = Err e -> codec_failure e.
Proof.
  unfold u32_len. destruct (Z.leb_spec (Z.of_nat len) u32_max); [done|].
  intros [= <-]. by constructor.
Qed.

Lemma to_bytes_failure c e : to_bytes c = Err e -> codec_failure e.
Proof.
  unfold to_bytes. destruct (u32_len _ _) eqn:E; [done|]. intros [= <-].
  by eapply u32_len_failure.
Qed.

#[export] Hint Resolve zstd_compress_failure pco_compress_failure u32_len_failure
  to_bytes_failure : wire.
