(* ===== verification/Columns.v ===== *)
(** * Typed column encoders

    The five column codecs of [src/crates/timeless-codec/src/lib.rs]: i64
    (wrapping delta, then pco or zstd), f64, string (dictionary or concatenation),
    u8 (run lengths or zstd) and fixed-width bytes, with the selective string
    decoder. The strategy pick is the code's: both candidates encode a sample of
    at most [SAMPLE_LEN] values and the smaller one encodes the column. *)
From Stdlib Require Import ZArith Lia Bool Strings.Byte.
From stdpp Require Import prelude gmap list strings sorting.
From S2P Require Import Prelude Float64 BTree Wire.
Open Scope string_scope.
Open Scope list_scope.
Open Scope Z_scope.

(** ** Runs *)

(** The run-length loop shared by the u8 column and the dictionary codes: the
    open run [(cur, run)], closed when the value changes or the run counter is
    full. *)
Fixpoint rle_go {A} (eqb : A -> A -> bool) (cur : A) (run : Z) (vs : list A) : list (Z * A) :=
  match vs with
  | [] => [(run, cur)]
  | v :: vs' =>
    if eqb v cur && (run <? u32_max) then rle_go eqb cur (run + 1) vs'
    else (run, cur) :: rle_go eqb v 1 vs'
  end.

Definition rle_runs {A} (eqb : A -> A -> bool) (vs : list A) : list (Z * A) :=
  match vs with [] => [] | v :: vs' => rle_go eqb v 1 vs' end.

Definition u8_run_bytes (p : Z * byte) : list byte := u32_le p.1 ++ [p.2].
Definition code_run_bytes (p : Z * Z) : list byte := u32_le p.1 ++ u32_le p.2.

(** ** Deltas *)

Fixpoint delta_encode (prev : Z) (values : list Z) : list Z :=
  match values with
  | [] => []
  | v :: vs => wrapping_sub v prev :: delta_encode v vs
  end.

Fixpoint delta_decode (prev : Z) (deltas : list Z) : list Z :=
  match deltas with
  | [] => []
  | d :: ds => let v := wrapping_add prev d in v :: delta_decode v ds
  end.

Definition i64s_to_le_bytes (values : list Z) : list byte := concat (map i64_le values).
Definition f64s_to_le_bytes (values : list f64) : list byte := concat (map f64_le values).

Section Columns.
Context `{ZS : Zstd} `{PI : !Pco Z} `{PF : !Pco f64}.

(** ** i64 and f64 columns *)

(** The audition common to both numeric encoders: [pco] and [raw] encode the
    sample; ties go to zstd; a sample that is the whole column is reused. *)
Definition pick_numeric {T} (pco : list T -> result (list byte))
    (raw : list T -> result (list byte)) (enc_pco enc_zstd : byte) (values : list T)
    : result ColumnEnc :=
  let sample := take (Nat.min (length values) SAMPLE_LEN) values in
  let sample_is_all := (length sample =? length values)%nat in
  let? pco_sample := pco sample in
  let? zstd_sample := raw sample in
  if (length pco_sample <? length zstd_sample)%nat then
    let? pl := if sample_is_all then Ok pco_sample else pco values in
    Ok (mkColumnEnc enc_pco pl)
  else
    let? pl := if sample_is_all then Ok zstd_sample else raw values in
    Ok (mkColumnEnc enc_zstd pl).

Definition encode_i64 (values : list Z) (zstd_level : Z) : result ColumnEnc :=
  if (length values =? 0)%nat then
    let? pl := zstd_compress [] zstd_level in Ok (mkColumnEnc ENC_I64_DELTA_ZSTD pl)
  else
    pick_numeric pco_compress (fun s => zstd_compress (i64s_to_le_bytes s) zstd_level)
      ENC_I64_DELTA_PCO ENC_I64_DELTA_ZSTD (delta_encode 0 values).

Definition decode_i64 (bytes : list byte) (n : nat) : result (list Z) :=
  let? (enc, pl) := read_column_frame bytes "i64 column" in
  let? deltas :=
    if byte_eqb enc ENC_I64_DELTA_PCO then pco_decompress_capped pl n "i64 column"
    else if byte_eqb enc ENC_I64_DELTA_ZSTD then
      let? cap := exact_cap n 8 "i64 column" in
      let? raw := zstd_decompress_capped pl "i64 column" cap in
      if negb (length raw mod 8 =? 0)%nat then
        Err (Fmt "i64 column: {} bytes is not a multiple of 8" [FNum (Z.of_nat (length raw))])
      else Ok (map i64_from_le (as_chunks 8 raw))
    else Err (Fmt "i64 column: unknown encoding id {other}" [FNum (b2z enc)]) in
  if negb (length deltas =? n)%nat then
    Err (Fmt "i64 column: decoded {} values, expected {n}"
           [FNum (Z.of_nat (length deltas)); FNum (Z.of_nat n)])
  else Ok (delta_decode 0 deltas).

Definition encode_f64 (values : list f64) (zstd_level : Z) : result ColumnEnc :=
  if (length values =? 0)%nat then
    let? pl := zstd_compress [] zstd_level in Ok (mkColumnEnc ENC_F64_ZSTD pl)
  else
    pick_numeric pco_compress (fun s => zstd_compress (f64s_to_le_bytes s) zstd_level)
      ENC_F64_PCO ENC_F64_ZSTD values.

Definition decode_f64 (bytes : list byte) (n : nat) : result (list f64) :=
  let? (enc, pl) := read_column_frame bytes "f64 column" in
  let? out :=
    if byte_eqb enc ENC_F64_PCO then pco_decompress_capped pl n "f64 column"
    else if byte_eqb enc ENC_F64_ZSTD then
      let? cap := exact_cap n 8 "f64 column" in
      let? raw := zstd_decompress_capped pl "f64 column" cap in
      if negb (length raw mod 8 =? 0)%nat then
        Err (Fmt "f64 column: {} bytes is not a multiple of 8" [FNum (Z.of_nat (length raw))])
      else Ok (map f64_from_le (as_chunks 8 raw))
    else Err (Fmt "f64 column: unknown encoding id {other}" [FNum (b2z enc)]) in
  if negb (length out =? n)%nat then
    Err (Fmt "f64 column: decoded {} values, expected {n}"
           [FNum (Z.of_nat (length out)); FNum (Z.of_nat n)])
  else Ok out.

(** ** String columns *)

Definition DICT_MAX_RATIO_NUM : nat := 1.
Definition DICT_MAX_RATIO_DEN : nat := 8.

(** The u32-length-prefixed concatenation, of the column or of its dictionary. *)
Fixpoint concat_strs (strs : list str) : result (list byte) :=
  match strs with
  | [] => Ok []
  | s :: strs' =>
    if u32_max <? Z.of_nat (length s) then
      Err (Fmt "encode_str: string longer than u32::MAX bytes" [])
    else
      let? rest := concat_strs strs' in
      Ok (u32_le (Z.of_nat (length s)) ++ s ++ rest)
  end.

(** [for i in 0..n]: a length prefix, the bytes, the UTF-8 check. *)
Fixpoint read_strs (len_what bytes_what : string) (bad : Z -> error) (i : Z) (n : nat) (r : Reader)
    : result (list str * Reader) :=
  match n with
  | O => Ok ([], r)
  | S n' =>
    let? (len, r) := rd_u32 len_what r in
    let? (b, r) := rd_take (Z.to_nat len) bytes_what r in
    let? s := from_utf8 b (bad i) in
    let? (rest, r) := read_strs len_what bytes_what bad (i + 1) n' r in
    Ok (s :: rest, r)
  end.

(** The sorted unique table of the column with the code of each string. *)
Definition dict_table (strs : list str) : list (str * Z) :=
  imap (fun i s => (s, Z.of_nat i)) (bts_of_list strs).

Definition dict_codes (table : list (str * Z)) (strs : list str) : list Z :=
  map (fun s => default 0 (btm_get s table)) strs.

Definition dict_worthy (sample : list str) : bool :=
  (size (list_to_set sample : gset str) * DICT_MAX_RATIO_DEN
     <=? length sample * DICT_MAX_RATIO_NUM)%nat.

Definition encode_str (strs : list str) (n : nat) (zstd_level : Z) : result ColumnEnc :=
  if negb (length strs =? n)%nat then
    Err (Fmt "encode_str: iterator yielded {} strings, caller said {n}"
           [FNum (Z.of_nat (length strs)); FNum (Z.of_nat n)])
  else if (n =? 0)%nat then
    let? pl := zstd_compress [] zstd_level in Ok (mkColumnEnc ENC_STR_ZSTD pl)
  else
    let sample := take (Nat.min n SAMPLE_LEN) strs in
    if dict_worthy sample then
      let table := dict_table strs in
      if u32_max <? Z.of_nat (length table) then
        Err (Fmt "encode_str: more than u32::MAX distinct strings" [])
      else
        let? dict_blob := concat_strs table.*1 in
        let? dict_zstd := zstd_compress dict_blob zstd_level in
        let rle := concat (map code_run_bytes (rle_runs Z.eqb (dict_codes table strs))) in
        let? codes_zstd := zstd_compress rle zstd_level in
        let? dict_count := u32_len (length table) "encode_str: dict entry count" in
        let? dict_len := u32_len (length dict_zstd) "encode_str: dictionary" in
        Ok (mkColumnEnc ENC_STR_DICT (u32_le dict_count ++ u32_le dict_len ++ dict_zstd ++ codes_zstd))
    else
      let? blob := concat_strs strs in
      let? pl := zstd_compress blob zstd_level in
      Ok (mkColumnEnc ENC_STR_ZSTD pl).

(** The dictionary half of a dictionary payload: the table, and the decompressed
    code stream, known to be whole pairs. *)
Definition read_dict (pl : list byte) : result (list str * list byte) :=
  let r := Reader_new pl in
  let? (dict_count, r) := rd_u32 "dict count" r in
  let? (dict_zstd_len, r) := rd_u32 "dict zstd length" r in
  let? (dict_zstd, r) := rd_take (Z.to_nat dict_zstd_len) "dict bytes" r in
  let? (codes_zstd, r) := rd_take (remaining r) "code bytes" r in
  let? dict_raw := zstd_decompress_capped dict_zstd "string dictionary" DECOMPRESS_MAX_BYTES in
  let? _ := validate_minimum_encoded_len (Z.to_nat dict_count) 4 (Z.of_nat (length dict_raw))
              "string dictionary" in
  let? _ := reserve_decoded 24 (Z.to_nat dict_count) "string dictionary" in
  let? (dict, dr) := read_strs "dict entry length" "dict entry bytes"
                (fun i => Fmt "string column: dict entry {i} is not valid UTF-8" [FNum i])
                0 (Z.to_nat dict_count) (Reader_new dict_raw) in
  if negb (remaining dr =? 0)%nat then
    Err (Fmt "string column: trailing bytes in dictionary" [])
  else
    let? codes_raw := zstd_decompress_capped codes_zstd "string codes" DECOMPRESS_MAX_BYTES in
    if negb (length codes_raw mod 8 =? 0)%nat then
      Err (Fmt "string column: RLE stream is not (u32,u32) pairs" [])
    else Ok (dict, codes_raw).

Definition pair_run (pr : list byte) : Z := le_val (take 4 pr).
Definition pair_code (pr : list byte) : Z := le_val (take 4 (drop 4 pr)).

(** The guards on one [(run, code)] pair. *)
Definition check_code_pair (dict_len n : nat) (expanded : Z) (pr : list byte) : result Z :=
  let run := pair_run pr in
  let code := pair_code pr in
  if Z.of_nat dict_len <=? code then
    Err (Fmt "string column: code {code} out of range (dict has {})"
           [FNum code; FNum (Z.of_nat dict_len)])
  else if (run =? 0) ||
          match usize_checked_add expanded run with
          | None => true
          | Some total => Z.of_nat n <? total
          end then
    Err (Fmt "string column: RLE runs sum past expected count {n}" [FNum (Z.of_nat n)])
  else Ok (expanded + run).

Fixpoint check_codes (dict_len n : nat) (expanded : Z) (pairs : list (list byte)) : result Z :=
  match pairs with
  | [] => Ok expanded
  | pr :: pairs' =>
    let? expanded := check_code_pair dict_len n expanded pr in
    check_codes dict_len n expanded pairs'
  end.

Definition expand_codes (dict : list str) (pairs : list (list byte)) : list str :=
  concat (map (fun pr =>
    replicate (Z.to_nat (pair_run pr)) (nth (Z.to_nat (pair_code pr)) dict [])) pairs).

Definition decode_str (bytes : list byte) (n : nat) : result (list str) :=
  let? (enc, pl) := read_column_frame bytes "string column" in
  if byte_eqb enc ENC_STR_ZSTD then
    let? raw := zstd_decompress_capped pl "string column" DECOMPRESS_MAX_BYTES in
    let? _ := validate_minimum_encoded_len n 4 (Z.of_nat (length raw)) "string column" in
    let? _ := reserve_decoded 24 n "string column" in
    let? (out, r) := read_strs "string length" "string bytes"
                (fun i => Fmt "string column: value {i} is not valid UTF-8" [FNum i])
                0 n (Reader_new raw) in
    if negb (remaining r =? 0)%nat then
      Err (Fmt "string column: trailing bytes after last string" [])
    else Ok out
  else if byte_eqb enc ENC_STR_DICT then
    let? (dict, codes_raw) := read_dict pl in
    let pairs := as_chunks 8 codes_raw in
    let? expanded := check_codes (length dict) n 0 pairs in
    if negb (expanded =? Z.of_nat n) then
      Err (Fmt "string column: RLE expanded to {expanded} values, expected {n}"
             [FNum expanded; FNum (Z.of_nat n)])
    else
      let? _ := reserve_decoded 24 n "string column" in
      Ok (expand_codes dict pairs)
  else Err (Fmt "string column: unknown encoding id {other}" [FNum (b2z enc)]).

(** ** Selective string decode *)

Fixpoint strictly_increasing (l : list nat) : bool :=
  match l with
  | a :: ((b :: _) as l') => (a <? b)%nat && strictly_increasing l'
  | _ => true
  end.

Definition selected_ok (n : nat) (selected : list nat) : bool :=
  strictly_increasing selected &&
  match last selected with Some index => (index <? n)%nat | None => true end.

(** The row walk of the concatenated layout; [sel] is [selected[selected_pos..]]. *)
Fixpoint read_selected (row : nat) (n : nat) (sel : list nat) (r : Reader)
    : result (list str * Reader) :=
  match n with
  | O => Ok ([], r)
  | S n' =>
    let? (len, r) := rd_u32 "string length" r in
    let? (b, r) := rd_take (Z.to_nat len) "string bytes" r in
    let? s := from_utf8 b (Fmt "string column: value {row} is not valid UTF-8" [FNum (Z.of_nat row)]) in
    match sel with
    | i :: sel' =>
      if (i =? row)%nat then
        let? (rest, r) := read_selected (S row) n' sel' r in Ok (s :: rest, r)
      else read_selected (S row) n' sel r
    | [] => read_selected (S row) n' sel r
    end
  end.

(** [while selected.get(selected_pos) < end]: the rows of one run. *)
Fixpoint split_below (end_ : Z) (sel : list nat) : nat * list nat :=
  match sel with
  | i :: sel' =>
    if Z.of_nat i <? end_ then let '(k, rest) := split_below end_ sel' in (S k, rest)
    else (O, sel)
  | [] => (O, [])
  end.

Fixpoint select_codes (dict : list str) (n : nat) (row : Z) (sel : list nat)
    (pairs : list (list byte)) : result (list str * Z) :=
  match pairs with
  | [] => Ok ([], row)
  | pr :: pairs' =>
    let? end_ := check_code_pair (length dict) n row pr in
    let '(k, sel') := split_below end_ sel in
    let? (rest, row) := select_codes dict n end_ sel' pairs' in
    Ok (replicate k (nth (Z.to_nat (pair_code pr)) dict []) ++ rest, row)
  end.

Definition decode_str_selected (bytes : list byte) (n : nat) (selected : list nat)
    : result (list str) :=
  if negb (selected_ok n selected) then
    Err (Fmt "string column: selected rows must be strictly increasing and in range" [])
  else
  let? (enc, pl) := read_column_frame bytes "string column" in
  if byte_eqb enc ENC_STR_ZSTD then
    let? raw := zstd_decompress_capped pl "string column" DECOMPRESS_MAX_BYTES in
    let? (out, r) := read_selected 0 n selected (Reader_new raw) in
    if negb (remaining r =? 0)%nat then
      Err (Fmt "string column: trailing bytes after last string" [])
    else Ok out
  else if byte_eqb enc ENC_STR_DICT then
    let? (dict, codes_raw) := read_dict pl in
    let? (out, row) := select_codes dict n 0 selected (as_chunks 8 codes_raw) in
    if negb (row =? Z.of_nat n) then
      Err (Fmt "string column: RLE expanded to {row} values, expected {n}"
             [FNum row; FNum (Z.of_nat n)])
    else Ok out
  else Err (Fmt "string column: unknown encoding id {other}" [FNum (b2z enc)]).

(** ** u8 columns *)

Definition encode_u8 (values : list byte) (zstd_level : Z) : result ColumnEnc :=
  if (length values =? 0)%nat then
    let? pl := zstd_compress [] zstd_level in Ok (mkColumnEnc ENC_U8_ZSTD pl)
  else
    let rle := concat (map u8_run_bytes (rle_runs byte_eqb values)) in
    let? zstd_payload := zstd_compress values zstd_level in
    if (length rle <=? length zstd_payload)%nat then Ok (mkColumnEnc ENC_U8_RLE rle)
    else Ok (mkColumnEnc ENC_U8_ZSTD zstd_payload).

Fixpoint expand_u8 (n : nat) (out : list byte) (pairs : list (list byte)) : result (list byte) :=
  match pairs with
  | [] => Ok out
  | pr :: pairs' =>
    let run := pair_run pr in
    let val := nth 4 pr x00 in
    if (run =? 0) || (Z.of_nat n <? Z.of_nat (length out) + run) then
      Err (Fmt "u8 column: RLE runs sum past expected count {n}" [FNum (Z.of_nat n)])
    else expand_u8 n (out ++ replicate (Z.to_nat run) val) pairs'
  end.

Definition decode_u8 (bytes : list byte) (n : nat) : result (list byte) :=
  let? (enc, pl) := read_column_frame bytes "u8 column" in
  if byte_eqb enc ENC_U8_RLE then
    if negb (length pl mod 5 =? 0)%nat then
      Err (Fmt "u8 column: RLE stream is not (u32,u8) pairs" [])
    else
      let? out := expand_u8 n [] (as_chunks 5 pl) in
      if negb (length out =? n)%nat then
        Err (Fmt "u8 column: RLE expanded to {} values, expected {n}"
               [FNum (Z.of_nat (length out)); FNum (Z.of_nat n)])
      else Ok out
  else if byte_eqb enc ENC_U8_ZSTD then
    let? raw := zstd_decompress_capped pl "u8 column" (Z.of_nat n) in
    if negb (length raw =? n)%nat then
      Err (Fmt "u8 column: {} bytes, expected {n}"
             [FNum (Z.of_nat (length raw)); FNum (Z.of_nat n)])
    else Ok raw
  else Err (Fmt "u8 column: unknown encoding id {other}" [FNum (b2z enc)]).

(** ** Fixed-width byte columns *)

Definition encode_fixed_bytes (data : list byte) (width : nat) (zstd_level : Z) : result ColumnEnc :=
  if (width =? 0)%nat then Err (Fmt "encode_fixed_bytes: width must be > 0" [])
  else if negb (length data mod width =? 0)%nat then
    Err (Fmt "encode_fixed_bytes: {} bytes is not a multiple of width {width}"
           [FNum (Z.of_nat (length data)); FNum (Z.of_nat width)])
  else
    let? pl := zstd_compress data zstd_level in
    Ok (mkColumnEnc ENC_FIXED_ZSTD pl).

Definition decode_fixed_bytes (bytes : list byte) (n width : nat) : result (list byte) :=
  let? (enc, pl) := read_column_frame bytes "fixed-bytes column" in
  if byte_eqb enc ENC_FIXED_ZSTD then
    let? want := exact_cap n (Z.of_nat width) "fixed-bytes column" in
    let? raw := zstd_decompress_capped pl "fixed-bytes column" want in
    if negb (Z.of_nat (length raw) =? want) then
      Err (Fmt "fixed-bytes column: {} bytes, expected {} ({n} x {width})"
             [FNum (Z.of_nat (length raw)); FNum want; FNum (Z.of_nat n); FNum (Z.of_nat width)])
    else Ok raw
  else Err (Fmt "fixed-bytes column: unknown encoding id {other}" [FNum (b2z enc)]).
End Columns.

(** ** Runs and deltas: lemmas *)

Lemma delta_round p values :
  Forall is_i64 values -> delta_decode p (delta_encode p values) = values.
Proof.
  intros Hv. revert p. induction Hv as [|v values Hv _ IH]; intros p; simpl; [done|].
  by rewrite wrapping_add_sub, IH.
Qed.

Lemma delta_encode_i64 p values : Forall is_i64 (delta_encode p values).
Proof.
  revert p; induction values; intros p; simpl; constructor; [apply wrap_i64_range|auto].
Qed.

Lemma length_delta_encode p values : length (delta_encode p values) = length values.
Proof. revert p; induction values; intros p; simpl; auto. Qed.

Lemma length_delta_decode p deltas : length (delta_decode p deltas) = length deltas.
Proof. revert p; induction deltas; intros p; simpl; auto. Qed.

Definition expand_runs {A} (rs : list (Z * A)) : list A :=
  concat (map (fun p => replicate (Z.to_nat p.1) p.2) rs).

Lemma rle_go_expand {A} (eqb : A -> A -> bool) :
  (forall a b, eqb a b = true -> a = b) ->
  forall vs cur run, 1 <= run <= u32_max ->
  expand_runs (rle_go eqb cur run vs) = replicate (Z.to_nat run) cur ++ vs /\
  Forall (fun p => 1 <= p.1 <= u32_max) (rle_go eqb cur run vs).
Proof.
  intros Heq. induction vs as [|v vs IH]; intros cur run Hrun; simpl.
  - unfold expand_runs; simpl. split; [done|by constructor].
  - destruct (eqb v cur && (run <? u32_max)) eqn:E.
    + apply andb_true_iff in E as [E Hlt]. apply Heq in E as ->. apply Z.ltb_lt in Hlt.
      destruct (IH cur (run + 1) ltac:(lia)) as [IH1 IH2]. split; [|done]. rewrite IH1.
      replace (Z.to_nat (run + 1)) with (Z.to_nat run + 1)%nat by lia.
      by rewrite replicate_add, <-List.app_assoc.
    + destruct (IH v 1) as [IH1 IH2]; [unfold u32_max; lia|].
      unfold expand_runs in *. simpl. rewrite IH1. split; [done|by constructor].
Qed.

Lemma rle_runs_expand {A} (eqb : A -> A -> bool) vs :
  (forall a b, eqb a b = true -> a = b) ->
  expand_runs (rle_runs eqb vs) = vs /\ Forall (fun p => 1 <= p.1 <= u32_max) (rle_runs eqb vs).
Proof.
  intros Heq. destruct vs as [|v vs]; simpl; [by split|].
  destruct (rle_go_expand eqb Heq vs v 1) as [H1 H2]; [unfold u32_max; lia|]. by rewrite H1.
Qed.

Lemma byte_eqb_eq a b : byte_eqb a b = true <-> a = b.
Proof. unfold byte_eqb. apply bool_decide_eq_true. Qed.

Lemma byte_eqb_refl a : byte_eqb a a = true.
Proof. by apply byte_eqb_eq. Qed.

(** ** Numeric columns: lemmas *)

Section Chunked.
Context {A : Type} (enc : A -> list byte) (dec : list byte -> A) (valid : A -> Prop).
Context (enc_len : forall x, length (enc x) = 8%nat) (dec_enc : forall x, valid x -> dec (enc x) = x).

Lemma chunks_decode values :
  Forall valid values -> map dec (as_chunks 8 (concat (map enc values))) = values.
Proof using enc_len dec_enc.
  intros Hv. rewrite as_chunks_concat; [|lia|].
  - rewrite map_map. induction Hv; simpl; [done|]. by rewrite dec_enc, IHHv.
  - apply Forall_forall. intros c (x & -> & _)%list_elem_of_fmap. apply enc_len.
Qed.

Lemma chunks_length values : length (concat (map enc values)) = (8 * length values)%nat.
Proof using enc_len. induction values; simpl; [done|]. rewrite length_app, enc_len. lia. Qed.
End Chunked.

Lemma pick_numeric_inv {T} (pco raw : list T -> result (list byte)) ep ez values c :
  pick_numeric pco raw ep ez values = Ok c ->
  (encoding c = ep /\ pco values = Ok (payload c)) \/
  (encoding c = ez /\ raw values = Ok (payload c)).
Proof.
  unfold pick_numeric. set (sample := take _ _). intros Hc.
  assert ((length sample =? length values)%nat = true -> sample = values) as Hall.
  { intros E%Nat.eqb_eq. unfold sample in *. rewrite length_take in E. apply take_ge. lia. }
  destruct (pco sample) as [ps|] eqn:Ep; [|done]. destruct (raw sample) as [zs|] eqn:Ez; [|done].
  destruct (length ps <? length zs)%nat.
  - left. destruct (length sample =? length values)%nat eqn:E.
    + injection Hc as <-. by rewrite (Hall eq_refl) in Ep.
    + destruct (pco values) eqn:E2; [|done]. injection Hc as <-. done.
  - right. destruct (length sample =? length values)%nat eqn:E.
    + injection Hc as <-. by rewrite (Hall eq_refl) in Ez.
    + destruct (raw values) eqn:E2; [|done]. injection Hc as <-. done.
Qed.

Lemma pick_numeric_failure {T} (pco raw : list T -> result (list byte)) ep ez values e :
  (forall l e, pco l = Err e -> codec_failure e) ->
  (forall l e, raw l = Err e -> codec_failure e) ->
  pick_numeric pco raw ep ez values = Err e -> codec_failure e.
Proof.
  intros Hp Hz. unfold pick_numeric. set (sample := take _ _).
  destruct (pco sample) eqn:E1; [|intros [= <-]; eauto].
  destruct (raw sample) eqn:E2; [|intros [= <-]; eauto].
  destruct (_ <? _)%nat, (_ =? _)%nat; try done;
    [destruct (pco values) eqn:E3|destruct (raw values) eqn:E3]; (done || intros [= <-]; eauto).
Qed.

Section RoundTrips.
Context `{ZS : Zstd} `{ZL : !ZstdLaws}.
Context `{PI : !Pco Z} `{PIL : !PcoLaws is_i64} `{PF : !Pco f64} `{PFL : !PcoLaws is_f64}.

Lemma exact_cap_fits {A} (l : list A) width what :
  vec_fits width l -> exact_cap (length l) width what = Ok (Z.of_nat (length l) * width).
Proof.
  unfold vec_fits, exact_cap, usize_checked_mul. intros Hf.
  destruct (Z.leb_spec (Z.of_nat (length l) * width) usize_max); [done|].
  unfold i64_max, usize_max in *. lia.
Qed.

Lemma encode_i64_cases values level c :
  encode_i64 values level = Ok c ->
  (encoding c = ENC_I64_DELTA_PCO /\ pco_compress (delta_encode 0 values) = Ok (payload c)) \/
  (encoding c = ENC_I64_DELTA_ZSTD /\
   zstd_compress (i64s_to_le_bytes (delta_encode 0 values)) level = Ok (payload c)).
Proof.
  unfold encode_i64. destruct values as [|v values]; simpl; intros Hc.
  - destruct (zstd_compress [] level) eqn:E; [|done]. injection Hc as <-. right. by split.
  - by apply pick_numeric_inv in Hc.
Qed.

Lemma i64_round values level c bytes :
  Forall is_i64 values -> vec_fits 8 values ->
  encode_i64 values level = Ok c -> to_bytes c = Ok bytes ->
  decode_i64 bytes (length values) = Ok values.
Proof.
  intros Hv Hf Hc Hb. unfold decode_i64. rewrite (read_to_bytes _ _ _ Hb).
  pose proof (delta_encode_i64 0 values) as Hd.
  rewrite <-(length_delta_encode 0 values).
  assert (vec_fits 8 (delta_encode 0 values)) as Hf'
    by (unfold vec_fits; by rewrite length_delta_encode).
  apply encode_i64_cases in Hc as [[-> Hc]|[-> Hc]].
  - rewrite byte_eqb_refl, (pco_compress_round _ _ _ Hd Hc), Nat.eqb_refl. simpl.
    by rewrite delta_round.
  - change (byte_eqb _ ENC_I64_DELTA_PCO) with false. rewrite byte_eqb_refl, exact_cap_fits by done.
    pose proof (chunks_length i64_le length_i64_le (delta_encode 0 values)) as Hlen.
    rewrite (zstd_compress_round _ _ _ _ _ Hc) by (unfold i64s_to_le_bytes; rewrite Hlen; lia).
    unfold i64s_to_le_bytes.
    rewrite Hlen, (Nat.mul_comm 8), Nat.Div0.mod_mul. cbn [negb Nat.eqb].
    rewrite (chunks_decode _ _ is_i64 length_i64_le i64_from_le_bytes) by done.
    rewrite Nat.eqb_refl. simpl. by rewrite delta_round.
Qed.

Lemma encode_i64_failure values level e : encode_i64 values level = Err e -> codec_failure e.
Proof.
  unfold encode_i64. destruct values as [|v values]; simpl.
  - destruct (zstd_compress [] level) eqn:E; [done|]. intros [= <-]. eauto with wire.
  - apply pick_numeric_failure; intros l e'; [apply pco_compress_failure|apply zstd_compress_failure].
Qed.

(** C10: Every i64 column round-trips bit for bit: whatever values it holds (the
    extremes included, in any order), decoding the framed encoding at the column's
    length returns the values. Encoding fails only when a compressor fails or the
    payload outgrows the frame's u32 prefix. *)
Theorem i64_column_round_trip (values : list Z) (level : Z) :
  Forall is_i64 values -> vec_fits 8 values ->
  match (let? c := encode_i64 values level in to_bytes c) with
  | Ok bytes => decode_i64 bytes (length values) = Ok values
  | Err e => codec_failure e
  end.
Proof.
  intros Hv Hf. destruct (encode_i64 values level) as [c|] eqn:Hc.
  - destruct (to_bytes c) eqn:Hb; eauto using i64_round with wire.
  - by eapply encode_i64_failure.
Qed.

Lemma encode_f64_cases values level c :
  encode_f64 values level = Ok c ->
  (encoding c = ENC_F64_PCO /\ pco_compress values = Ok (payload c)) \/
  (encoding c = ENC_F64_ZSTD /\ zstd_compress (f64s_to_le_bytes values) level = Ok (payload c)).
Proof.
  unfold encode_f64. destruct values as [|v values]; simpl; intros Hc.
  - destruct (zstd_compress [] level) eqn:E; [|done]. injection Hc as <-. right. by split.
  - by apply pick_numeric_inv in Hc.
Qed.

Lemma f64_round values level c bytes :
  Forall is_f64 values -> vec_fits 8 values ->
  encode_f64 values level = Ok c -> to_bytes c = Ok bytes ->
  decode_f64 bytes (length values) = Ok values.
Proof.
  intros Hv Hf Hc Hb. unfold decode_f64. rewrite (read_to_bytes _ _ _ Hb).
  apply encode_f64_cases in Hc as [[-> Hc]|[-> Hc]].
  - by rewrite byte_eqb_refl, (pco_compress_round _ _ _ Hv Hc), Nat.eqb_refl.
  - change (byte_eqb _ ENC_F64_PCO) with false. rewrite byte_eqb_refl, exact_cap_fits by done.
    pose proof (chunks_length f64_le length_f64_le values) as Hlen.
    rewrite (zstd_compress_round _ _ _ _ _ Hc) by (unfold f64s_to_le_bytes; rewrite Hlen; lia).
    unfold f64s_to_le_bytes.
    rewrite Hlen, (Nat.mul_comm 8), Nat.Div0.mod_mul. cbn [negb Nat.eqb].
    rewrite (chunks_decode _ _ is_f64 length_f64_le f64_from_le_bytes) by done.
    by rewrite Nat.eqb_refl.
Qed.

Lemma encode_f64_failure values level e : encode_f64 values level = Err e -> codec_failure e.
Proof.
  unfold encode_f64. destruct values as [|v values]; simpl.
  - destruct (zstd_compress [] level) eqn:E; [done|]. intros [= <-]. eauto with wire.
  - apply pick_numeric_failure; intros l e'; [apply pco_compress_failure|apply zstd_compress_failure].
Qed.

(** C11: Every f64 column round-trips bit for bit, every NaN pattern included. *)
Theorem f64_column_round_trip (values : list f64) (level : Z) :
  Forall is_f64 values -> vec_fits 8 values ->
  match (let? c := encode_f64 values level in to_bytes c) with
  | Ok bytes => decode_f64 bytes (length values) = Ok values
  | Err e => codec_failure e
  end.
Proof.
  intros Hv Hf. destruct (encode_f64 values level) as [c|] eqn:Hc.
  - destruct (to_bytes c) eqn:Hb; eauto using f64_round with wire.
  - by eapply encode_f64_failure.
Qed.

Lemma expand_u8_runs n rs out :
  Forall (fun p => 1 <= p.1 <= u32_max) rs ->
  (length out + length (expand_runs rs) <= n)%nat ->
  expand_u8 n out (map u8_run_bytes rs) = Ok (out ++ expand_runs rs).
Proof.
  intros Hrs. revert out. induction Hrs as [|[run v] rs Hr _ IH]; intros out Hn; simpl.
  { by rewrite List.app_nil_r. }
  unfold expand_runs in *. simpl in *. autorewrite with wire in Hn.
  unfold pair_run, u8_run_bytes. simpl.
  rewrite take_app_le, take_ge by (autorewrite with wire; lia).
  rewrite le_val_u32 by (unfold is_u32; lia).
  destruct (Z.eqb_spec run 0); [lia|].
  destruct (Z.ltb_spec (Z.of_nat n) (Z.of_nat (length out) + run)); [lia|]. simpl.
  rewrite (app_nth2 (u32_le run)) by (autorewrite with wire; lia).
  rewrite length_u32_le. simpl. rewrite IH.
  - by rewrite <-List.app_assoc.
  - autorewrite with wire. lia.
Qed.

Lemma concat_const_length {A B} (f : A -> list B) k l :
  (forall x, length (f x) = k) -> length (concat (map f l)) = (length l * k)%nat.
Proof. intros Hf. induction l; simpl; [done|]. rewrite length_app, Hf. lia. Qed.

Lemma u8_round values level c bytes :
  encode_u8 values level = Ok c -> to_bytes c = Ok bytes ->
  decode_u8 bytes (length values) = Ok values.
Proof.
  intros Hc Hb. unfold decode_u8. rewrite (read_to_bytes _ _ _ Hb). unfold encode_u8 in Hc.
  assert (forall pl, zstd_compress values level = Ok pl ->
    zstd_decompress_capped pl "u8 column" (Z.of_nat (length values)) = Ok values) as Hz
    by (intros pl Hpl; by apply (zstd_compress_round _ _ _ _ _ Hpl)).
  destruct (Nat.eqb_spec (length values) 0) as [E|_].
  { apply nil_length_inv in E as ->. destruct (zstd_compress [] level) eqn:E; [|done].
    injection Hc as <-. cbn [encoding payload]. change (byte_eqb _ ENC_U8_RLE) with false.
    by rewrite byte_eqb_refl, Hz. }
  destruct (zstd_compress values level) as [zp|] eqn:E; [|done].
  destruct (_ <=? _)%nat; injection Hc as <-; cbn [encoding payload].
  - rewrite byte_eqb_refl.
    assert (forall p, length (u8_run_bytes p) = 5%nat) as H5
      by (intros p; unfold u8_run_bytes; by autorewrite with wire).
    rewrite (concat_const_length _ 5) by done. rewrite Nat.Div0.mod_mul. cbn [negb Nat.eqb].
    destruct (rle_runs_expand byte_eqb values) as [Hx Hf]; [by intros ? ? ?%byte_eqb_eq|].
    rewrite as_chunks_concat; [|lia|apply Forall_forall; by intros ? (? & -> & _)%list_elem_of_fmap].
    rewrite expand_u8_runs by (try done; rewrite Hx; simpl; lia).
    simpl. by rewrite Hx, Nat.eqb_refl.
  - change (byte_eqb _ ENC_U8_RLE) with false. rewrite byte_eqb_refl, Hz by done.
    by rewrite Nat.eqb_refl.
Qed.

Lemma encode_u8_failure values level e : encode_u8 values level = Err e -> codec_failure e.
Proof.
  unfold encode_u8. destruct (_ =? _)%nat.
  - destruct (zstd_compress [] level) eqn:E; [done|]. intros [= <-]. by eapply zstd_compress_failure.
  - destruct (zstd_compress values level) eqn:E; [by destruct (_ <=? _)%nat|].
    intros [= <-]. by eapply zstd_compress_failure.
Qed.

(** Every u8 column round-trips, by either strategy, runs longer than the
    u32 run counter included. *)
Lemma u8_column_round_trip (values : list byte) (level : Z) :
  match (let? c := encode_u8 values level in to_bytes c) with
  | Ok bytes => decode_u8 bytes (length values) = Ok values
  | Err e => codec_failure e
  end.
Proof.
  destruct (encode_u8 values level) as [c|] eqn:Hc.
  - destruct (to_bytes c) eqn:Hb; eauto using u8_round with wire.
  - by eapply encode_u8_failure.
Qed.

(** C29: A fixed-width byte column of [n] values of [width] bytes round-trips;
    the encoder refuses a zero width and a buffer that is not whole values. *)
Theorem fixed_column_round_trip (data : list byte) (n width : nat) (level : Z) :
  (length data = n * width)%nat -> vec_fits 1 data ->
  match (let? c := encode_fixed_bytes data width level in to_bytes c) with
  | Ok bytes => (0 < width)%nat /\ decode_fixed_bytes bytes n width = Ok data
  | Err e => width = 0%nat \/ codec_failure e
  end.
Proof.
  intros Hn Hf. unfold encode_fixed_bytes. destruct (Nat.eqb_spec width 0) as [->|Hw]; [by left|].
  rewrite Hn, Nat.Div0.mod_mul. cbn [negb Nat.eqb].
  destruct (zstd_compress data level) as [pl|] eqn:E; [|right; by eapply zstd_compress_failure].
  destruct (to_bytes _) as [bytes|] eqn:Hb; [|right; by eapply to_bytes_failure].
  split; [lia|]. unfold decode_fixed_bytes. rewrite (read_to_bytes _ _ _ Hb). cbn [encoding payload].
  rewrite byte_eqb_refl. unfold exact_cap, usize_checked_mul, vec_fits in *.
  destruct (Z.leb_spec (Z.of_nat n * Z.of_nat width) usize_max);
    [|unfold usize_max, i64_max in *; lia]. simpl.
  rewrite (zstd_compress_round _ _ _ _ _ E) by lia.
  by rewrite Hn, Nat2Z.inj_mul, Z.eqb_refl.
Qed.

(** ** String columns: lemmas *)

(** Bytes of the length-prefixed concatenation. *)
Definition strs_size (strs : list str) : nat := sum_list_with (fun s => 4 + length s)%nat strs.

Lemma strs_size_cons s strs : strs_size (s :: strs) = (4 + length s + strs_size strs)%nat.
Proof. reflexivity. Qed.

(** The columns the decoder's output bound admits: the concatenation and the
    widest code stream fit [DECOMPRESS_MAX_BYTES]. *)
Definition str_column_fits (strs : list str) : Prop :=
  Z.of_nat (strs_size strs) <= DECOMPRESS_MAX_BYTES /\
  8 * Z.of_nat (length strs) <= DECOMPRESS_MAX_BYTES.

Lemma concat_strs_ok strs :
  Z.of_nat (strs_size strs) <= u32_max ->
  exists blob, concat_strs strs = Ok blob /\ length blob = strs_size strs.
Proof.
  induction strs as [|s strs IH]; intros Hs; [by exists []|].
  rewrite strs_size_cons in *. simpl. destruct IH as (blob & -> & Hl); [lia|].
  destruct (Z.ltb_spec u32_max (Z.of_nat (length s))); [lia|].
  eexists. split; [done|]. autorewrite with wire. lia.
Qed.

Lemma concat_strs_length strs blob : concat_strs strs = Ok blob -> length blob = strs_size strs.
Proof.
  revert blob. induction strs as [|s strs IH]; intros blob Hb; simpl in Hb; [by injection Hb as <-|].
  destruct (_ <? _); [done|]. destruct (concat_strs strs) as [b|]; [|done].
  injection Hb as <-. autorewrite with wire. rewrite strs_size_cons, (IH b) by done. lia.
Qed.

Lemma read_strs_at lw bw bad strs : forall blob rest r i,
  concat_strs strs = Ok blob -> Forall is_str strs -> rd_at r (blob ++ rest) ->
  read_strs lw bw bad i (length strs) r = Ok (strs, rd_adv (length blob) r).
Proof.
  induction strs as [|s strs IH]; simpl; intros blob rest r i Hb Hv Hr.
  { injection Hb as <-. unfold rd_adv. rewrite Nat.add_0_r. by destruct r. }
  destruct (Z.ltb_spec u32_max (Z.of_nat (length s))) as [|Hle]; [done|].
  destruct (concat_strs strs) as [b|] eqn:E; [|done]. injection Hb as <-.
  inversion Hv as [|? ? Hs Hv']; subst. rewrite <-!List.app_assoc in Hr.
  rewrite (rd_u32_at _ _ _ _ Hr) by (unfold is_u32; lia).
  apply rd_at_adv in Hr. rewrite length_u32_le in Hr.
  rewrite Nat2Z.id, (rd_take_at _ _ _ _ _ Hr) by done. apply rd_at_adv in Hr.
  unfold from_utf8, is_str in *. rewrite Hs.
  rewrite (IH b rest) by done. f_equal. f_equal. unfold rd_adv. simpl. f_equal.
  autorewrite with wire. lia.
Qed.

Lemma strs_size_submseteq (l k : list str) : l ⊆+ k -> (strs_size l <= strs_size k)%nat.
Proof.
  intros [k' Hp]%submseteq_Permutation. unfold strs_size. rewrite Hp, sum_list_with_app. lia.
Qed.

Lemma dict_keys_size strs : (strs_size (bts_of_list strs) <= strs_size strs)%nat.
Proof.
  apply strs_size_submseteq, NoDup_submseteq.
  - apply StronglySorted_klt_NoDup, bts_of_list_wf.
  - intros x. by rewrite elem_of_bts_of_list.
Qed.

Lemma strs_size_length strs : (4 * length strs <= strs_size strs)%nat.
Proof. induction strs; [done|]. rewrite strs_size_cons. simpl length. lia. Qed.

Lemma dict_table_keys strs : (dict_table strs).*1 = bts_of_list strs.
Proof.
  unfold dict_table. apply list_eq. intros i.
  rewrite list_lookup_fmap, list_lookup_imap. by destruct (bts_of_list strs !! i).
Qed.

Lemma dict_code_spec strs s :
  s ∈ strs ->
  let code := default 0 (btm_get s (dict_table strs)) in
  0 <= code < Z.of_nat (length (bts_of_list strs)) /\
  nth (Z.to_nat code) (bts_of_list strs) [] = s.
Proof.
  intros Hs. assert (btm_wf (dict_table strs)) as Hwf
    by (unfold btm_wf; rewrite dict_table_keys; apply bts_of_list_wf).
  assert (is_Some (btm_get s (dict_table strs))) as [c Hc]
    by (by rewrite btm_get_is_Some, dict_table_keys, elem_of_bts_of_list).
  rewrite Hc. simpl. apply btm_get_elem, list_elem_of_lookup in Hc as [i Hi]; [|done].
  unfold dict_table in Hi. rewrite list_lookup_imap in Hi.
  destruct (bts_of_list strs !! i) as [s'|] eqn:E; [|done]. injection Hi as <- <-.
  rewrite Nat2Z.id, nth_lookup, E. apply lookup_lt_Some in E. split; [lia|done].
Qed.

Definition code_ok (dict_len : nat) (p : Z * Z) : Prop :=
  1 <= p.1 <= u32_max /\ 0 <= p.2 < Z.of_nat dict_len.

Lemma pair_of_bytes run code :
  is_u32 run -> is_u32 code ->
  pair_run (code_run_bytes (run, code)) = run /\ pair_code (code_run_bytes (run, code)) = code.
Proof.
  intros Hr Hc. unfold pair_run, pair_code, code_run_bytes. simpl.
  rewrite take_app_length', drop_app_length', take_ge by (by rewrite length_u32_le).
  by rewrite !le_val_u32.
Qed.

Lemma check_codes_ok dict_len n rs : forall expanded,
  Z.of_nat dict_len <= u32_max + 1 -> Z.of_nat n <= usize_max -> Forall (code_ok dict_len) rs ->
  0 <= expanded -> expanded + Z.of_nat (length (expand_runs rs)) <= Z.of_nat n ->
  check_codes dict_len n expanded (map code_run_bytes rs)
  = Ok (expanded + Z.of_nat (length (expand_runs rs))).
Proof.
  intros expanded Hd Hn Hrs. revert expanded.
  induction Hrs as [|[run code] rs [Hr Hc] _ IH]; intros expanded He Hs; simpl in *.
  { f_equal. lia. }
  unfold expand_runs in *. simpl in *. autorewrite with wire in *.
  unfold check_code_pair, usize_checked_add.
  destruct (pair_of_bytes run code) as [-> ->]; [unfold is_u32; lia..|].
  destruct (Z.leb_spec (Z.of_nat dict_len) code); [lia|].
  destruct (Z.eqb_spec run 0); [lia|]. simpl.
  destruct (Z.leb_spec (expanded + run) usize_max); [|lia].
  destruct (Z.ltb_spec (Z.of_nat n) (expanded + run)); [lia|].
  rewrite IH by lia. f_equal. lia.
Qed.

Lemma expand_codes_runs dict rs :
  Z.of_nat (length dict) <= u32_max + 1 -> Forall (code_ok (length dict)) rs ->
  expand_codes dict (map code_run_bytes rs)
  = map (fun code => nth (Z.to_nat code) dict []) (expand_runs rs).
Proof.
  intros Hd. unfold expand_codes, expand_runs.
  induction 1 as [|[run code] rs [Hr Hc] _ IH]; simpl in *; [done|].
  destruct (pair_of_bytes run code) as [-> ->]; [unfold is_u32; lia..|].
  rewrite IH, map_app. f_equal. generalize (Z.to_nat run). intros k. induction k; simpl; by f_equal.
Qed.

Lemma length_expand_runs {A} (rs : list (Z * A)) :
  Forall (fun p => 1 <= p.1 <= u32_max) rs -> (length rs <= length (expand_runs rs))%nat.
Proof.
  unfold expand_runs. induction 1 as [|[run v] rs Hr _ IH]; simpl in *; [done|].
  autorewrite with wire. lia.
Qed.

Lemma validate_minimum_ok count available what :
  4 * Z.of_nat count <= available <= usize_max ->
  validate_minimum_encoded_len count 4 available what = Ok tt.
Proof.
  intros Ha. unfold validate_minimum_encoded_len, usize_checked_mul.
  destruct (Z.leb_spec (Z.of_nat count * 4) usize_max); [|lia].
  destruct (Z.ltb_spec available (Z.of_nat count * 4)); [lia|done].
Qed.

Lemma reserve_ok count what : 8 * Z.of_nat count <= DECOMPRESS_MAX_BYTES -> reserve_decoded 24 count what = Ok tt.
Proof.
  intros Hc. unfold reserve_decoded, DECOMPRESS_MAX_BYTES in *.
  destruct (Z.ltb_spec i64_max (Z.of_nat count * 24)); [unfold i64_max in *; lia|done].
Qed.

(** What [encode_str] writes, when it writes. *)
Lemma encode_str_cases strs level c :
  encode_str strs (length strs) level = Ok c ->
  (encoding c = ENC_STR_ZSTD /\
   exists blob, concat_strs strs = Ok blob /\ zstd_compress blob level = Ok (payload c)) \/
  (encoding c = ENC_STR_DICT /\
   exists blob dz cz, concat_strs (bts_of_list strs) = Ok blob /\ zstd_compress blob level = Ok dz /\
     zstd_compress (concat (map code_run_bytes (rle_runs Z.eqb (dict_codes (dict_table strs) strs))))
       level = Ok cz /\
     is_u32 (Z.of_nat (length (bts_of_list strs))) /\ is_u32 (Z.of_nat (length dz)) /\
     payload c = u32_le (Z.of_nat (length (bts_of_list strs))) ++ u32_le (Z.of_nat (length dz)) ++ dz ++ cz).
Proof.
  unfold encode_str. rewrite Nat.eqb_refl. cbn [negb]. intros Hc.
  destruct (Nat.eqb_spec (length strs) 0) as [E|_].
  { left. apply nil_length_inv in E as ->. destruct (zstd_compress [] level) eqn:E; [|done].
    injection Hc as <-. split; [done|]. by exists []. }
  destruct (dict_worthy _).
  - right. assert (length (dict_table strs) = length (bts_of_list strs)) as Hlt
      by apply length_imap.
    rewrite Hlt, dict_table_keys in Hc. destruct (_ <? _); [done|].
    destruct (concat_strs _) as [blob|] eqn:E1; [|done].
    destruct (zstd_compress blob level) as [dz|] eqn:E2; [|done].
    destruct (zstd_compress (concat _) level) as [cz|] eqn:E3; [|done].
    destruct (u32_len (length (bts_of_list strs)) _) as [k|] eqn:E4; [|done].
    destruct (u32_len (length dz) _) as [m|] eqn:E5; [|done].
    apply u32_len_ok in E4 as [-> H4]. apply u32_len_ok in E5 as [-> H5].
    injection Hc as <-. split; [done|]. by exists blob, dz, cz.
  - left. destruct (concat_strs strs) as [blob|] eqn:E1; [|done].
    destruct (zstd_compress blob level) eqn:E2; [|done]. injection Hc as <-.
    split; [done|]. by exists blob.
Qed.

Lemma read_dict_ok dict blob dz cz codes level :
  concat_strs dict = Ok blob -> Forall is_str dict -> zstd_compress blob level = Ok dz ->
  zstd_compress codes level = Ok cz ->
  str_column_fits dict -> Z.of_nat (length codes) <= DECOMPRESS_MAX_BYTES ->
  (length codes mod 8 = 0)%nat ->
  is_u32 (Z.of_nat (length dict)) -> is_u32 (Z.of_nat (length dz)) ->
  let pl := u32_le (Z.of_nat (length dict)) ++ u32_le (Z.of_nat (length dz)) ++ dz ++ cz in
  Z.of_nat (length pl) <= i64_max ->
  read_dict pl = Ok (dict, codes).
Proof.
  intros Hb Hv Hdz Hcz [Hf1 Hf2] Hcl Hmod Hu1 Hu2 pl Hpl. unfold read_dict.
  pose proof (rd_at_new pl Hpl) as Hr. unfold pl in Hr at 2.
  rewrite (rd_u32_at _ _ _ _ Hr Hu1). apply rd_at_adv in Hr. rewrite length_u32_le in Hr.
  rewrite (rd_u32_at _ _ _ _ Hr Hu2). apply rd_at_adv in Hr. rewrite length_u32_le in Hr.
  rewrite Nat2Z.id, (rd_take_at _ _ _ _ _ Hr) by done. apply rd_at_adv in Hr.
  rewrite <-(List.app_nil_r cz) in Hr.
  rewrite (rd_take_at _ _ _ _ _ Hr) by (rewrite (rd_at_remaining _ _ Hr), List.app_nil_r; done).
  pose proof (concat_strs_length _ _ Hb) as Hbl. pose proof (strs_size_length dict) as Hsl.
  rewrite (zstd_compress_round _ _ _ _ _ Hdz) by lia.
  unfold DECOMPRESS_MAX_BYTES in *.
  rewrite Nat2Z.id, validate_minimum_ok by (unfold usize_max; lia).
  rewrite reserve_ok by (unfold DECOMPRESS_MAX_BYTES; lia).
  assert (rd_at (Reader_new blob) (blob ++ [])) as Hrb
    by (rewrite List.app_nil_r; apply rd_at_new; unfold i64_max; lia).
  rewrite (read_strs_at _ _ _ _ _ _ _ _ Hb Hv Hrb). apply rd_at_adv in Hrb.
  rewrite (rd_at_remaining _ _ Hrb). cbn [negb Nat.eqb length].
  rewrite (zstd_compress_round _ _ _ _ _ Hcz) by lia. by rewrite Hmod.
Qed.

Lemma dict_codes_runs strs :
  let rs := rle_runs Z.eqb (dict_codes (dict_table strs) strs) in
  Forall (code_ok (length (bts_of_list strs))) rs /\ (length rs <= length strs)%nat /\
  length (expand_runs rs) = length strs /\
  map (fun code => nth (Z.to_nat code) (bts_of_list strs) []) (expand_runs rs) = strs.
Proof.
  intros rs. destruct (rle_runs_expand Z.eqb (dict_codes (dict_table strs) strs)) as [Hx Hr];
    [by intros ? ? ?%Z.eqb_eq|]. fold rs in Hx, Hr.
  assert (length (expand_runs rs) = length strs) as Hl by (rewrite Hx; apply length_map).
  assert (forall code, code ∈ expand_runs rs -> 0 <= code < Z.of_nat (length (bts_of_list strs))) as Hcode.
  { intros code. rewrite Hx. unfold dict_codes. intros (s & -> & Hs)%list_elem_of_fmap.
    by apply dict_code_spec. }
  split; [|split; [|split; [done|]]].
  - apply Forall_forall. intros [run code] Hin. rewrite Forall_forall in Hr.
    specialize (Hr _ Hin). simpl in Hr. split; simpl; [done|]. apply Hcode.
    unfold expand_runs. apply list_elem_of_In, in_concat. eexists. split.
    + apply in_map_iff. exists (run, code). split; [done|]. by apply list_elem_of_In.
    + simpl. apply list_elem_of_In, elem_of_replicate. split; [done|lia].
  - rewrite <-Hl. by apply length_expand_runs.
  - rewrite Hx. unfold dict_codes. rewrite map_map.
    transitivity (map id strs); [|apply map_id]. apply map_ext_in.
    intros s Hs. apply dict_code_spec. by apply list_elem_of_In.
Qed.

Lemma str_round strs level c bytes :
  Forall is_str strs -> str_column_fits strs ->
  encode_str strs (length strs) level = Ok c -> to_bytes c = Ok bytes ->
  decode_str bytes (length strs) = Ok strs.
Proof.
  intros Hv [Hf1 Hf2] Hc Hb. unfold decode_str. rewrite (read_to_bytes _ _ _ Hb).
  pose proof (strs_size_length strs) as Hsl.
  apply encode_str_cases in Hc
    as [[-> (blob & Hblob & Hz)]|[-> (blob & dz & cz & Hblob & Hdz & Hcz & Hu1 & Hu2 & Hpl)]].
  - rewrite byte_eqb_refl. pose proof (concat_strs_length _ _ Hblob) as Hbl.
    rewrite (zstd_compress_round _ _ _ _ _ Hz) by lia.
    unfold DECOMPRESS_MAX_BYTES in *.
    rewrite validate_minimum_ok by (unfold usize_max; lia).
    rewrite reserve_ok by (unfold DECOMPRESS_MAX_BYTES; lia).
    assert (rd_at (Reader_new blob) (blob ++ [])) as Hrb
      by (rewrite List.app_nil_r; apply rd_at_new; unfold i64_max; lia).
    rewrite (read_strs_at _ _ _ _ _ _ _ _ Hblob Hv Hrb). apply rd_at_adv in Hrb.
    by rewrite (rd_at_remaining _ _ Hrb).
  - change (byte_eqb _ ENC_STR_ZSTD) with false. rewrite byte_eqb_refl.
    destruct (dict_codes_runs strs) as (Hok & Hrl & Hel & Hmap).
    set (rs := rle_runs _ _) in *. set (dict := bts_of_list strs) in *.
    assert (forall p, length (code_run_bytes p) = 8%nat) as H8
      by (intros p; unfold code_run_bytes; by autorewrite with wire).
    pose proof (concat_const_length code_run_bytes 8 rs H8) as Hcl.
    pose proof (dict_keys_size strs) as Hds. fold dict in Hds.
    pose proof (strs_size_length dict) as Hdl.
    assert (length dict <= length strs)%nat as Hdn.
    { apply submseteq_length, NoDup_submseteq.
      - apply StronglySorted_klt_NoDup, bts_of_list_wf.
      - intros x. unfold dict. by rewrite elem_of_bts_of_list. }
    rewrite Hpl, (read_dict_ok dict blob dz cz (concat (map code_run_bytes rs)) level); try done.
    + rewrite as_chunks_concat; [|lia|apply Forall_forall; by intros ? (? & -> & _)%list_elem_of_fmap].
      unfold is_u32, DECOMPRESS_MAX_BYTES in *.
      rewrite check_codes_ok by (try done; unfold usize_max; lia).
      rewrite Hel, Z.add_0_l, Z.eqb_refl. cbn [negb].
      rewrite reserve_ok by done. rewrite expand_codes_runs by (done || lia). by rewrite Hmap.
    + rewrite Forall_forall in Hv |- *. intros s Hs. apply Hv.
      unfold dict in Hs. by rewrite elem_of_bts_of_list in Hs.
    + unfold str_column_fits. split; lia.
    + rewrite Hcl. lia.
    + rewrite Hcl. apply Nat.Div0.mod_mul.
    + rewrite <-Hpl. apply to_bytes_inv in Hb as [[? Hu] _]. unfold u32_max, i64_max in *. lia.
Qed.

Lemma encode_str_failure strs level e :
  str_column_fits strs -> encode_str strs (length strs) level = Err e -> codec_failure e.
Proof.
  intros [Hf1 Hf2]. unfold DECOMPRESS_MAX_BYTES in *. unfold encode_str.
  rewrite Nat.eqb_refl. cbn [negb]. destruct (Nat.eqb_spec (length strs) 0).
  { destruct (zstd_compress [] level) eqn:E; [done|]. intros [= <-]. by eapply zstd_compress_failure. }
  pose proof (dict_keys_size strs) as Hds. pose proof (strs_size_length (bts_of_list strs)) as Hdl.
  destruct (dict_worthy _).
  - assert (length (dict_table strs) = length (bts_of_list strs)) as -> by apply length_imap.
    rewrite dict_table_keys.
    destruct (Z.ltb_spec u32_max (Z.of_nat (length (bts_of_list strs)))); [unfold u32_max in *; lia|].
    destruct (concat_strs_ok (bts_of_list strs)) as (blob & -> & _); [unfold u32_max; lia|].
    destruct (zstd_compress blob level) as [dz|] eqn:E1; [|intros [= <-]; by eapply zstd_compress_failure].
    destruct (zstd_compress (concat _) level) eqn:E2; [|intros [= <-]; by eapply zstd_compress_failure].
    destruct (u32_len (length (bts_of_list strs)) _) eqn:E3; [|intros [= <-]; by eapply u32_len_failure].
    destruct (u32_len (length dz) _) eqn:E4; [done|intros [= <-]; by eapply u32_len_failure].
  - destruct (concat_strs_ok strs) as (blob & -> & _); [unfold u32_max; lia|].
    destruct (zstd_compress blob level) eqn:E1; [done|intros [= <-]; by eapply zstd_compress_failure].
Qed.

(** C9: Every column of valid UTF-8 strings within the decoder's 64 MiB output
    bound round-trips by either strategy (sorted dictionary with run-length codes,
    or concatenation); encoding such a column fails only when a compressor fails
    or the payload outgrows its frame. *)
Theorem str_column_round_trip (strs : list str) (level : Z) :
  Forall is_str strs -> str_column_fits strs ->
  match (let? c := encode_str strs (length strs) level in to_bytes c) with
  | Ok bytes => decode_str bytes (length strs) = Ok strs
  | Err e => codec_failure e
  end.
Proof.
  intros Hv Hf. destruct (encode_str strs (length strs) level) as [c|] eqn:Hc.
  - destruct (to_bytes c) eqn:Hb; eauto using str_round with wire.
  - by eapply encode_str_failure.
Qed.

(** C28: The encoder does not enforce the decoder's bound: a column whose
    concatenation exceeds 64 MiB is encoded without error under the concatenation
    strategy, and no decode of those bytes succeeds, at any expected count. *)
Theorem over_cap_str_column_never_decodes (strs : list str) (level : Z) (c : ColumnEnc)
    (bytes : list byte) (n : nat) :
  DECOMPRESS_MAX_BYTES < Z.of_nat (strs_size strs) ->
  encode_str strs (length strs) level = Ok c -> encoding c = ENC_STR_ZSTD ->
  to_bytes c = Ok bytes ->
  is_ok (decode_str bytes n) = false.
Proof.
  intros Hbig Hc He Hb. unfold decode_str. rewrite (read_to_bytes _ _ _ Hb), He, byte_eqb_refl.
  apply encode_str_cases in Hc as [[_ (blob & Hblob & Hz)]|[Hd _]]; [|by rewrite He in Hd].
  apply concat_strs_length in Hblob. rewrite <-Hblob in Hbig.
  pose proof (zstd_compress_too_small _ _ _ "string column" _ Hz Hbig) as Hfail.
  by destruct (zstd_decompress_capped (payload c) _ _).
Qed.

(** ** Decoding arbitrary bytes *)

Lemma read_strs_inv lw bw bad n : forall i r l strs r',
  rd_at r l -> read_strs lw bw bad i n r = Ok (strs, r') ->
  length strs = n /\ Forall is_str strs /\ (4 * n <= length l)%nat.
Proof.
  induction n as [|n IH]; simpl; intros i r l strs r' Hr Ho.
  { injection Ho as <- <-. repeat split; [constructor|lia]. }
  unfold rd_u32 in Ho. destruct (rd_take 4 lw r) as [[s1 r1]|] eqn:E1; [|done].
  apply (rd_take_inv _ _ _ _ _ _ Hr) in E1 as (L1 & D1 & -> & Hr1).
  destruct (rd_take _ bw _) as [[b r2]|] eqn:E2; [|done].
  apply (rd_take_inv _ _ _ _ _ _ Hr1) in E2 as (L2 & D2 & -> & Hr2).
  unfold from_utf8 in Ho. destruct (utf8_valid b) eqn:Eu; [|done].
  destruct (read_strs _ _ _ _ _ _) as [[rest r3]|] eqn:E3; [|done]. injection Ho as <- <-.
  apply (IH _ _ _ _ _ Hr2) in E3 as (L3 & F3 & B3).
  apply (f_equal length) in D1, D2. rewrite length_app in D1, D2. simpl.
  repeat split; [lia|by constructor|lia].
Qed.

Lemma check_code_pair_inv dict_len n e p e' :
  check_code_pair dict_len n e p = Ok e' ->
  0 < pair_run p /\ pair_code p < Z.of_nat dict_len /\ e' = e + pair_run p /\ e' <= Z.of_nat n.
Proof.
  unfold check_code_pair. pose proof (le_val_range (take 4 p)) as Hr. fold (pair_run p) in Hr.
  destruct (Z.leb_spec (Z.of_nat dict_len) (pair_code p)); [done|].
  destruct (Z.eqb_spec (pair_run p) 0); [done|]. simpl. unfold usize_checked_add.
  destruct (_ <=? _); [|done]. destruct (Z.ltb_spec (Z.of_nat n) (e + pair_run p)); [done|].
  intros [= <-]. lia.
Qed.

Lemma pair_run_bound p : 0 <= pair_run p <= u32_max.
Proof.
  unfold pair_run, u32_max. pose proof (le_val_range (take 4 p)) as Hr.
  rewrite length_take in Hr.
  assert (2 ^ (8 * Z.of_nat (4 `min` length p)) <= 2 ^ 32) by (apply Z.pow_le_mono_r; lia). lia.
Qed.

Lemma check_codes_inv dict n pairs : forall e e',
  0 <= e -> check_codes (length dict) n e pairs = Ok e' ->
  e' = e + Z.of_nat (length (expand_codes dict pairs)) /\
  Forall (fun p => pair_code p < Z.of_nat (length dict)) pairs /\
  e' <= e + Z.of_nat (length pairs) * u32_max.
Proof.
  unfold expand_codes. induction pairs as [|p pairs IH]; simpl; intros e e' He Ho.
  { injection Ho as <-. repeat split; [lia|constructor|lia]. }
  destruct (check_code_pair _ _ _ _) as [e1|] eqn:E; [|done].
  apply check_code_pair_inv in E as (Hr & Hc & -> & _). pose proof (pair_run_bound p).
  apply IH in Ho as (H1 & H2 & H3); [|lia]. autorewrite with wire.
  repeat split; [lia|by constructor|lia].
Qed.

Lemma Forall_nth_default {A} (P : A -> Prop) l k d :
  Forall P l -> (k < length l)%nat -> P (nth k l d).
Proof.
  intros HF Hk. rewrite nth_lookup. destruct (lookup_lt_is_Some_2 l k Hk) as [x Hx]. rewrite Hx.
  rewrite Forall_lookup in HF. eauto.
Qed.

Lemma expand_codes_Forall (P : str -> Prop) dict pairs :
  Forall P dict -> Forall (fun p => pair_code p < Z.of_nat (length dict)) pairs ->
  Forall P (expand_codes dict pairs).
Proof.
  intros Hd. unfold expand_codes. induction 1 as [|p pairs Hc _ IH]; simpl; [constructor|].
  apply Forall_app. split; [|done]. apply Forall_replicate, Forall_nth_default; [done|].
  pose proof (le_val_range (take 4 (drop 4 p))) as Hr. fold (pair_code p) in Hr. lia.
Qed.

Lemma read_dict_inv pl dict codes :
  read_dict pl = Ok (dict, codes) ->
  Forall is_str dict /\ Z.of_nat (length codes) <= DECOMPRESS_MAX_BYTES.
Proof.
  unfold read_dict. intros Ho.
  destruct (rd_u32 "dict count" _) as [[k r1]|]; [|done].
  destruct (rd_u32 "dict zstd length" _) as [[m r2]|]; [|done].
  destruct (rd_take _ "dict bytes" _) as [[dz r3]|]; [|done].
  destruct (rd_take _ "code bytes" _) as [[cz r4]|]; [|done].
  destruct (zstd_decompress_capped dz _ _) as [raw|] eqn:Ed; [|done].
  destruct (validate_minimum_encoded_len _ _ _ _); [|done].
  destruct (reserve_decoded _ _ _); [|done].
  destruct (read_strs _ _ _ _ _ _) as [[d dr]|] eqn:Er; [|done].
  destruct (negb _); [done|].
  destruct (zstd_decompress_capped cz _ _) as [cr|] eqn:Ec; [|done].
  destruct (negb _); [done|]. injection Ho as <- <-.
  apply zstd_decompress_capped_len in Ed, Ec. split; [|done].
  eapply read_strs_inv in Er as (_ & HF & _); [done|]. apply rd_at_new.
  unfold DECOMPRESS_MAX_BYTES, i64_max in *. lia.
Qed.

Lemma decode_str_sound bytes n strs :
  decode_str bytes n = Ok strs -> length strs = n /\ Forall is_str strs.
Proof.
  unfold decode_str. intros Ho. destruct (read_column_frame _ _) as [[enc pl]|]; [|done].
  destruct (byte_eqb enc ENC_STR_ZSTD).
  - destruct (zstd_decompress_capped pl _ _) as [raw|] eqn:Ed; [|done].
    destruct (validate_minimum_encoded_len _ _ _ _); [|done].
    destruct (reserve_decoded _ _ _); [|done].
    destruct (read_strs _ _ _ _ _ _) as [[o r]|] eqn:Er; [|done].
    destruct (negb _); [done|]. injection Ho as <-.
    apply zstd_decompress_capped_len in Ed.
    eapply read_strs_inv in Er as (? & ? & _); [done|]. apply rd_at_new.
    unfold DECOMPRESS_MAX_BYTES, i64_max in *. lia.
  - destruct (byte_eqb enc ENC_STR_DICT); [|done].
    destruct (read_dict pl) as [[dict codes]|] eqn:Ed; [|done].
    destruct (check_codes _ _ _ _) as [e|] eqn:Ec; [|done].
    destruct (Z.eqb_spec e (Z.of_nat n)) as [->|]; [|done]. cbn [negb] in Ho.
    destruct (reserve_decoded _ _ _); [|done]. injection Ho as <-.
    apply read_dict_inv in Ed as [Hd _]. apply check_codes_inv in Ec as (H1 & H2 & _); [|lia].
    split; [lia|]. by apply expand_codes_Forall.
Qed.

Lemma expand_u8_length n pairs : forall out out',
  (length out <= n)%nat -> expand_u8 n out pairs = Ok out' -> (length out' <= n)%nat.
Proof.
  induction pairs as [|p pairs IH]; simpl; intros out out' Hl Ho; [by injection Ho as <-|].
  destruct (Z.eqb_spec (pair_run p) 0); [done|]. simpl in Ho. pose proof (pair_run_bound p).
  destruct (Z.ltb_spec (Z.of_nat n) (Z.of_nat (length out) + pair_run p)); [done|].
  apply IH in Ho; [done|]. autorewrite with wire. lia.
Qed.

(** C26: Corrupt input cannot size an output: whatever bytes they are given, the
    column decoders either fail or return exactly the number of values the caller
    asked for, and every string returned is valid UTF-8. *)
Theorem column_decoders_return_count (bytes : list byte) (n width : nat) :
  (forall out, decode_i64 bytes n = Ok out -> length out = n) /\
  (forall out, decode_f64 bytes n = Ok out -> length out = n) /\
  (forall out, decode_u8 bytes n = Ok out -> length out = n) /\
  (forall out, decode_fixed_bytes bytes n width = Ok out -> length out = (n * width)%nat) /\
  (forall out, decode_str bytes n = Ok out -> length out = n /\ Forall is_str out).
Proof.
  refine (conj _ (conj _ (conj _ (conj _ _)))); intros out Ho.
  - unfold decode_i64 in Ho. inv_ok Ho. subst. rewrite length_delta_decode.
    by apply negb_false_iff, Nat.eqb_eq in E1.
  - unfold decode_f64 in Ho. inv_ok Ho. subst. by apply negb_false_iff, Nat.eqb_eq in E1.
  - unfold decode_u8 in Ho. destruct (read_column_frame _ _) as [[enc pl]|]; [|done].
    destruct (byte_eqb enc ENC_U8_RLE); [|destruct (byte_eqb enc ENC_U8_ZSTD); [|done]];
      inv_ok Ho; subst; by match goal with E : negb _ = false |- length out = _ =>
        apply negb_false_iff, Nat.eqb_eq in E end.
  - unfold decode_fixed_bytes in Ho. inv_ok Ho. subst.
    unfold exact_cap, usize_checked_mul in E1. destruct (_ <=? _); [|done]. injection E1 as <-.
    apply negb_false_iff, Z.eqb_eq in E3. lia.
  - by apply decode_str_sound in Ho.
Qed.

(** ** Selective decode: lemmas *)

(** The rows of [strs] (the first is row [row]) that [sel] names. *)
Definition pick_rows (row : nat) (strs : list str) (sel : list nat) : list str :=
  map (fun i => nth (i - row) strs []) sel.

Definition sel_within (lo hi : nat) (sel : list nat) : Prop :=
  StronglySorted lt sel /\ Forall (fun i => lo <= i < hi)%nat sel.

Lemma selected_ok_within n sel : selected_ok n sel = true -> sel_within 0 n sel.
Proof.
  unfold selected_ok. intros [Hi Hl]%andb_true_iff.
  assert (StronglySorted lt sel) as Hs.
  { apply Sorted_StronglySorted; [intros a b c; lia|]. clear Hl.
    induction sel as [|a [|b l] IH]; [constructor|by repeat constructor|].
    simpl in Hi. apply andb_true_iff in Hi as [H1 H2]. apply Nat.ltb_lt in H1.
    constructor; [auto|by constructor]. }
  split; [done|]. clear Hi. induction Hs as [|a l Hs IH Ha]; [constructor|].
  destruct l as [|b l].
  - simpl in Hl. apply Nat.ltb_lt in Hl. constructor; [lia|constructor].
  - specialize (IH Hl). constructor; [|done].
    rewrite Forall_cons in IH, Ha. lia.
Qed.

Lemma read_selected_spec n : forall row sel r,
  sel_within row (row + n) sel ->
  match read_strs "string length" "string bytes"
          (fun i => Fmt "string column: value {i} is not valid UTF-8" [FNum i])
          (Z.of_nat row) n r with
  | Ok (strs, r') => read_selected row n sel r = Ok (pick_rows row strs sel, r')
  | Err _ => is_ok (read_selected row n sel r) = false
  end.
Proof.
  induction n as [|n IH]; intros row sel r [Hs Hw]; simpl.
  { destruct sel as [|i sel]; [done|]. rewrite Forall_cons in Hw. lia. }
  destruct (rd_u32 _ _) as [[len r1]|]; [|done]. destruct (rd_take _ _ _) as [[b r2]|]; [|done].
  unfold from_utf8. destruct (utf8_valid b); [|done].
  assert (forall sel', sel_within (S row) (S row + n) sel' -> forall strs,
    pick_rows row (b :: strs) sel' = pick_rows (S row) strs sel') as Hshift.
  { intros sel' [_ Hw'] strs. apply map_ext_in. intros i Hi. rewrite Forall_forall in Hw'.
    specialize (Hw' i ltac:(by apply list_elem_of_In)).
    replace (i - row)%nat with (S (i - S row)) by lia. done. }
  replace (Z.of_nat row + 1) with (Z.of_nat (S row)) by lia.
  destruct sel as [|i sel].
  - specialize (IH (S row) [] r2 ltac:(by split)).
    destruct (read_strs _ _ _ _ _ _) as [[strs r3]|]; [|done]. by rewrite IH.
  - inversion Hs as [|? ? Hs' Ha]; subst. rewrite Forall_cons in Hw. destruct Hw as [Hi Hw].
    destruct (Nat.eqb_spec i row) as [->|Hne].
    + assert (sel_within (S row) (S row + n) sel) as Hsel.
      { split; [done|]. rewrite Forall_forall in Ha, Hw |- *. intros j Hj.
        specialize (Ha j Hj). specialize (Hw j Hj). lia. }
      specialize (IH (S row) sel r2 Hsel).
      destruct (read_strs _ _ _ _ _ _) as [[strs r3]|].
      * rewrite IH. unfold pick_rows at 2. simpl. rewrite Nat.sub_diag. by rewrite <-Hshift.
      * by destruct (read_selected _ _ _ _).
    + assert (sel_within (S row) (S row + n) (i :: sel)) as Hsel.
      { split; [done|]. apply Forall_cons. split; [lia|]. rewrite Forall_forall in Ha, Hw |- *.
        intros j Hj. specialize (Ha j Hj). specialize (Hw j Hj). lia. }
      specialize (IH (S row) (i :: sel) r2 Hsel).
      destruct (read_strs _ _ _ _ _ _) as [[strs r3]|]; [|done]. by rewrite IH, Hshift.
Qed.

Lemma split_below_spec end_ sel :
  StronglySorted lt sel ->
  let '(k, rest) := split_below end_ sel in
  sel = take k sel ++ rest /\ length (take k sel) = k /\
  Forall (fun i => Z.of_nat i < end_) (take k sel) /\ Forall (fun i => end_ <= Z.of_nat i) rest.
Proof.
  induction 1 as [|i sel Hs IH Ha]; simpl; [by repeat split|].
  destruct (Z.ltb_spec (Z.of_nat i) end_) as [Hi|Hi].
  - destruct (split_below end_ sel) as [k rest]. destruct IH as (H1 & H2 & H3 & H4).
    simpl. repeat split; [by f_equal|lia|by constructor|done].
  - repeat split; [constructor|]. constructor; [done|].
    eapply Forall_impl; [exact Ha|]. simpl. lia.
Qed.

Lemma pick_rows_app row strs sel1 sel2 :
  pick_rows row strs (sel1 ++ sel2) = pick_rows row strs sel1 ++ pick_rows row strs sel2.
Proof. apply map_app. Qed.

Lemma pick_rows_split row a b sel1 sel2 :
  Forall (fun i => row <= i < row + length a)%nat sel1 ->
  Forall (fun i => row + length a <= i)%nat sel2 ->
  pick_rows row (a ++ b) (sel1 ++ sel2)
  = pick_rows row a sel1 ++ pick_rows (row + length a) b sel2.
Proof.
  intros H1 H2. rewrite pick_rows_app. f_equal; apply map_ext_in; intros i Hi.
  - rewrite Forall_forall in H1. specialize (H1 i ltac:(by apply list_elem_of_In)).
    apply app_nth1. lia.
  - rewrite Forall_forall in H2. specialize (H2 i ltac:(by apply list_elem_of_In)).
    rewrite app_nth2 by lia. f_equal. lia.
Qed.

Lemma pick_rows_replicate row k s sel :
  Forall (fun i => row <= i < row + k)%nat sel ->
  pick_rows row (replicate k s) sel = replicate (length sel) s.
Proof.
  induction 1 as [|i sel Hi _ IH]; simpl; [done|]. f_equal; [|done].
  rewrite nth_lookup, lookup_replicate_2 by lia. done.
Qed.

Lemma select_codes_spec dict n pairs : forall (row : nat) (sel : list nat),
  sel_within row n sel ->
  match check_codes (length dict) n (Z.of_nat row) pairs with
  | Ok e => e = Z.of_nat n ->
      select_codes dict n (Z.of_nat row) sel pairs
      = Ok (pick_rows row (expand_codes dict pairs) sel, e)
  | Err _ => is_ok (select_codes dict n (Z.of_nat row) sel pairs) = false
  end /\
  (forall out e, select_codes dict n (Z.of_nat row) sel pairs = Ok (out, e) ->
     check_codes (length dict) n (Z.of_nat row) pairs = Ok e).
Proof.
  induction pairs as [|p pairs IH]; intros row sel [Hs Hw]; simpl.
  { split; [|by intros out e [= <- <-]]. intros Hn. destruct sel as [|i sel]; [done|].
    rewrite Forall_cons in Hw. lia. }
  destruct (check_code_pair _ _ _ _) as [e1|] eqn:E; [|done].
  apply check_code_pair_inv in E as (Hr & Hc & -> & Hb).
  pose proof (split_below_spec (Z.of_nat row + pair_run p) sel Hs) as Hsp.
  destruct (split_below _ sel) as [k rest]. destruct Hsp as (Hsel & Hk & Hlt & Hge).
  set (run := Z.to_nat (pair_run p)).
  replace (Z.of_nat row + pair_run p) with (Z.of_nat (row + run)) in * by (unfold run; lia).
  assert (sel_within (row + run) n rest) as Hrest.
  { rewrite Hsel in Hs, Hw. apply Forall_app in Hw as [_ Hw]. split.
    - by apply StronglySorted_app_1_r in Hs.
    - rewrite Forall_forall in Hw, Hge |- *. intros i Hi. specialize (Hw i Hi).
      specialize (Hge i Hi). lia. }
  destruct (IH (row + run)%nat rest Hrest) as [IH1 IH2].
  destruct (check_codes _ _ _ pairs) as [e|] eqn:Ec.
  - split.
    + intros ->. rewrite IH1 by done. f_equal. f_equal.
      rewrite Hsel at 1. unfold expand_codes. simpl. fold run. fold (expand_codes dict pairs).
      set (s := nth _ dict []).
      assert (length (replicate run s) = run) as Hlr by apply length_replicate.
      rewrite pick_rows_split.
      * rewrite Hlr, pick_rows_replicate; [by rewrite Hk|].
        rewrite Hsel in Hw. apply Forall_app in Hw as [Hw _].
        rewrite Forall_forall in Hw, Hlt |- *. intros i Hi. specialize (Hw i Hi).
        specialize (Hlt i Hi). lia.
      * rewrite Hlr. rewrite Hsel in Hw. apply Forall_app in Hw as [Hw _].
        rewrite Forall_forall in Hw, Hlt |- *. intros i Hi. specialize (Hw i Hi).
        specialize (Hlt i Hi). lia.
      * rewrite Hlr. eapply Forall_impl; [exact Hge|]. simpl. lia.
    + intros out e' Ho. destruct (select_codes _ _ _ _ _) as [[o e2]|]; [|done].
      injection Ho as _ <-. by apply (IH2 o).
  - destruct (select_codes _ _ _ _ _) as [[o e2]|]; done.
Qed.

Lemma zstd_rows_selected raw n sel :
  Z.of_nat (length raw) <= DECOMPRESS_MAX_BYTES -> sel_within 0 n sel ->
  match (let? _ := validate_minimum_encoded_len n 4 (Z.of_nat (length raw)) "string column" in
         let? _ := reserve_decoded 24 n "string column" in
         read_strs "string length" "string bytes"
           (fun i => Fmt "string column: value {i} is not valid UTF-8" [FNum i]) 0 n (Reader_new raw)) with
  | Ok (strs, r) => read_selected 0 n sel (Reader_new raw) = Ok (pick_rows 0 strs sel, r)
  | Err _ => is_ok (read_selected 0 n sel (Reader_new raw)) = false
  end.
Proof.
  intros Hraw Hsel. pose proof (read_selected_spec n 0 sel (Reader_new raw) Hsel) as Hspec.
  simpl in Hspec. destruct (read_strs _ _ _ _ _ _) as [[strs r]|] eqn:Er.
  - eapply read_strs_inv in Er as (_ & _ & Hb);
      [|apply rd_at_new; unfold DECOMPRESS_MAX_BYTES, i64_max in *; lia].
    unfold DECOMPRESS_MAX_BYTES in *.
    rewrite validate_minimum_ok by (unfold usize_max; lia).
    unfold reserve_decoded. destruct (Z.ltb_spec i64_max (Z.of_nat n * 24)); [unfold i64_max in *; lia|done].
  - destruct (validate_minimum_encoded_len _ _ _ _); [|done]. by destruct (reserve_decoded _ _ _).
Qed.

Lemma dict_reserve_ok (dict : list str) n codes :
  Z.of_nat (length codes) <= DECOMPRESS_MAX_BYTES ->
  check_codes (length dict) n 0 (as_chunks 8 codes) = Ok (Z.of_nat n) ->
  reserve_decoded 24 n "string column" = Ok tt.
Proof.
  intros Hl Hc. apply check_codes_inv in Hc as (_ & _ & Hb); [|lia].
  assert (forall fuel l, (8 * length (chunks_go fuel 8 l) <= @length byte l)%nat) as Hch.
  { induction fuel as [|fuel IH]; intros l; cbn [chunks_go]; [simpl; lia|].
    destruct (Nat.leb_spec 8 (length l)); [|simpl; lia].
    specialize (IH (drop 8 l)). rewrite length_drop in IH. simpl. lia. }
  specialize (Hch (length codes) codes). fold (as_chunks 8 codes) in Hch.
  unfold reserve_decoded, DECOMPRESS_MAX_BYTES, u32_max in *.
  destruct (Z.ltb_spec i64_max (Z.of_nat n * 24)); [unfold i64_max in *; lia|done].
Qed.

(** C27: Late materialisation is exact: for a strictly increasing in-range
    selection, [decode_str_selected] succeeds on precisely the byte strings
    [decode_str] accepts (corrupt ones included), and returns the selected rows
    of the full decode; other selections are refused. *)
Theorem decode_str_selected_exact (bytes : list byte) (n : nat) (selected : list nat) :
  if selected_ok n selected then
    match decode_str bytes n with
    | Ok strs => decode_str_selected bytes n selected
                 = Ok (map (fun i => nth i strs []) selected)
    | Err _ => is_ok (decode_str_selected bytes n selected) = false
    end
  else is_ok (decode_str_selected bytes n selected) = false.
Proof.
  unfold decode_str_selected. destruct (selected_ok n selected) eqn:Hok; [|done]. cbn [negb].
  apply selected_ok_within in Hok as Hsel.
  assert (forall strs, map (fun i => nth i strs []) selected = pick_rows 0 strs selected) as Hpick.
  { intros strs. apply map_ext. intros i. by rewrite Nat.sub_0_r. }
  unfold decode_str. destruct (read_column_frame _ _) as [[enc pl]|]; [|done].
  destruct (byte_eqb enc ENC_STR_ZSTD).
  - destruct (zstd_decompress_capped pl _ _) as [raw|] eqn:Ed; [|done].
    apply zstd_decompress_capped_len in Ed.
    pose proof (zstd_rows_selected raw n selected Ed Hsel) as Hz.
    destruct (validate_minimum_encoded_len _ _ _ _);
      [|by destruct (read_selected _ _ _ _) as [[? ?]|]].
    destruct (reserve_decoded _ _ _); [|by destruct (read_selected _ _ _ _) as [[? ?]|]].
    destruct (read_strs _ _ _ _ _ _) as [[strs r]|].
    + rewrite Hz. destruct (negb _); [done|]. by rewrite Hpick.
    + by destruct (read_selected _ _ _ _) as [[? ?]|].
  - destruct (byte_eqb enc ENC_STR_DICT); [|done].
    destruct (read_dict pl) as [[dict codes]|] eqn:Ed; [|done].
    apply read_dict_inv in Ed as [_ Hcl].
    destruct (select_codes_spec dict n (as_chunks 8 codes) 0 selected Hsel) as [H1 H2].
    change (Z.of_nat 0) with 0 in *. destruct (check_codes _ _ _ _) as [e|] eqn:Ec.
    + destruct (Z.eqb_spec e (Z.of_nat n)) as [->|Hne]; cbn [negb].
      * rewrite (dict_reserve_ok _ _ _ Hcl Ec), H1 by done. by rewrite Z.eqb_refl, Hpick.
      * destruct (select_codes _ _ _ _ _) as [[o e2]|] eqn:Es; [|done].
        specialize (H2 _ _ eq_refl). injection H2 as ->.
        destruct (Z.eqb_spec e2 (Z.of_nat n)); done.
    + by destruct (select_codes _ _ _ _ _) as [[? ?]|].
Qed.
End RoundTrips.
