(* ===== verification/Stored.v ===== *)
(** * Concrete compressors

    Small executable instances of the [Zstd] and [Pco] interfaces that satisfy
    their laws, so that the codec theorems can be applied to concrete columns:
    [stored_zstd] keeps the data behind a magic byte, and [stored_pco] writes a
    constant column as one value and a count and anything else verbatim, so that
    both strategies of the numeric encoders occur. *)
From Stdlib Require Import ZArith Lia Bool Strings.Byte.
From stdpp Require Import prelude list strings.
From S2P Require Import Prelude Float64 Wire Columns.
Open Scope string_scope.
Open Scope list_scope.
Open Scope Z_scope.

Definition stored_zstd : Zstd := {|
  zstd_bulk_compress data _ := Ok (x28 :: data);
  zstd_bulk_decompress c cap :=
    match c with
    | b :: data =>
      if byte_eqb b x28 && (Z.of_nat (length data) <=? cap) then Ok data
      else Err (Fmt "Destination buffer is too small" [])
    | [] => Err (Fmt "Src size is incorrect" [])
    end;
|}.

Lemma stored_zstd_laws : @ZstdLaws stored_zstd.
Proof.
  constructor; simpl.
  - intros data level c cap [= <-] Hl. rewrite byte_eqb_refl.
    destruct (Z.leb_spec (Z.of_nat (length data)) cap); [done|lia].
  - intros data level c cap [= <-] Hl. rewrite byte_eqb_refl.
    destruct (Z.leb_spec (Z.of_nat (length data)) cap); [lia|done].
  - intros [|b data0] cap data; [done|].
    destruct (byte_eqb b x28); [|done]. simpl.
    destruct (Z.leb_spec (Z.of_nat (length data0)) cap); [|done]. by intros [= <-].
Qed.

Section StoredPco.
Context {T : Type} `{EqDecision T} (enc : T -> list byte) (dec : list byte -> T) (valid : T -> Prop).
Context (enc_len : forall x, length (enc x) = 8%nat) (dec_enc : forall x, valid x -> dec (enc x) = x).

Definition is_constant (nums : list T) : bool :=
  match nums with
  | [] => false
  | x :: nums' => forallb (fun y => bool_decide (y = x)) nums'
  end.

Definition stored_numbers (c : list byte) : result (list T) :=
  match c with
  | x01 :: b => Ok (replicate (Z.to_nat (le_val (drop 8 b))) (dec (take 8 b)))
  | x00 :: b => Ok (map dec (as_chunks 8 b))
  | _ => Err (Fmt "corrupt pco stream" [])
  end.

Definition stored_pco : Pco T := {|
  pco_simple_compress nums :=
    match nums with
    | x :: _ =>
      if is_constant nums && (Z.of_nat (length nums) <? 2 ^ 64) then
        Ok (x01 :: enc x ++ u64_le (Z.of_nat (length nums)))
      else Ok (x00 :: concat (map enc nums))
    | [] => Ok [x00]
    end;
  pco_simple_decompress_into c n :=
    let? nums := stored_numbers c in
    Ok (take n (nums ++ replicate n (dec [])), Nat.min n (length nums), (length nums <=? n)%nat);
|}.

Lemma stored_numbers_round nums c :
  Forall valid nums -> @pco_simple_compress T stored_pco nums = Ok c -> stored_numbers c = Ok nums.
Proof using enc_len dec_enc.
  intros Hv. cbn [pco_simple_compress stored_pco]. destruct nums as [|x nums]; [by intros [= <-]|].
  destruct (is_constant (x :: nums)) eqn:Ec; cbn [andb].
  - destruct (Z.ltb_spec (Z.of_nat (length (x :: nums))) (2 ^ 64)) as [Hl|].
    2:{ intros [= <-]. cbn [stored_numbers]. f_equal.
        exact (chunks_decode enc dec valid enc_len dec_enc (x :: nums) Hv). }
    intros [= <-]. cbn [stored_numbers]. f_equal.
    rewrite take_app_length', drop_app_length' by (by rewrite enc_len).
    rewrite le_val_u64 by (unfold is_u64; simpl in *; lia). rewrite Nat2Z.id.
    apply Forall_cons in Hv as [Hx _]. rewrite dec_enc by done.
    assert (forallb (fun y => bool_decide (y = x)) nums = true) as Hall by exact Ec. clear Ec Hl.
    simpl. f_equal. induction nums as [|y nums IH]; [done|]. simpl in *.
    apply andb_true_iff in Hall as [Hy Hall]. apply bool_decide_eq_true in Hy as ->.
    f_equal. by apply IH.
  - intros [= <-]. cbn [stored_numbers]. f_equal.
    exact (chunks_decode enc dec valid enc_len dec_enc (x :: nums) Hv).
Qed.

Lemma stored_pco_laws : @PcoLaws T stored_pco valid.
Proof using enc_len dec_enc.
  constructor.
  - intros nums c Hv Hc. cbn [pco_simple_decompress_into stored_pco].
    rewrite (stored_numbers_round _ _ Hv Hc), take_app_length, Nat.min_id, Nat.leb_refl. done.
  - intros c n out k fin. cbn [pco_simple_decompress_into stored_pco].
    destruct (stored_numbers c); [|done]. intros [= <- _ _].
    rewrite length_take, length_app, length_replicate. lia.
Qed.
End StoredPco.

Definition stored_pco_i64 : Pco Z := stored_pco i64_le i64_from_le.
Definition stored_pco_f64 : Pco f64 := stored_pco f64_le f64_from_le.

Lemma stored_pco_i64_laws : @PcoLaws Z stored_pco_i64 is_i64.
Proof. apply stored_pco_laws; [apply length_i64_le|apply i64_from_le_bytes]. Qed.

Lemma stored_pco_f64_laws : @PcoLaws f64 stored_pco_f64 is_f64.
Proof. apply stored_pco_laws; [apply length_f64_le|apply f64_from_le_bytes]. Qed.
