(* ===== verification/RustStr.v ===== *)
(** * The [str] operations of the Rust standard library the sources use

    A [str] is its UTF-8 byte sequence. Separators are ASCII in every call, so
    splitting works on bytes. Number parsing and printing are [FromStr] and
    [Display] of the 64-bit integers: [parse_i64], [parse_usize], [show_i64],
    with the round trip [parse_show_i64] the storage formats rest on. *)
From Stdlib Require Import ZArith Lia Bool Strings.Byte.
From Stdlib Require Strings.String.
From stdpp Require Import prelude list strings.
From S2P Require Import Prelude.
Open Scope list_scope.
Open Scope Z_scope.

(** A string literal of the source. *)
Definition lit (s : String.string) : str := String.list_byte_of_string s.
Notation "'$' s" := (lit s%string) (at level 1, format "'$' s") : timeless_scope.

(** ** Splitting and joining *)

(** [s.split(sep)]: at least one piece. *)
Fixpoint split (sep : byte) (s : str) : list str :=
  match s with
  | [] => [[]]
  | c :: s' =>
    if byte_eqb c sep then [] :: split sep s'
    else match split sep s' with
         | piece :: rest => (c :: piece) :: rest
         | [] => [[c]]
         end
  end.

(** [s.split_once(sep)]. *)
Fixpoint split_once (sep : byte) (s : str) : option (str * str) :=
  match s with
  | [] => None
  | c :: s' =>
    if byte_eqb c sep then Some ([], s')
    else match split_once sep s' with
         | Some (a, b) => Some (c :: a, b)
         | None => None
         end
  end.

(** [parts.join(sep)]. *)
Fixpoint join (sep : byte) (parts : list str) : str :=
  match parts with
  | [] => []
  | [p] => p
  | p :: rest => p ++ sep :: join sep rest
  end.

Definition strip_prefix (c : byte) (s : str) : option str :=
  match s with x :: s' => if byte_eqb x c then Some s' else None | [] => None end.
Definition strip_suffix (c : byte) (s : str) : option str :=
  option_map (@rev byte) (strip_prefix c (rev s)).

(** ** [trim]: the characters of the Unicode [White_Space] property, as their
    UTF-8 encodings of one, two and three bytes *)
Definition ws1 (a : byte) : bool := in_range 9 13 a || (b2z a =? 32).
Definition ws2 (a b : byte) : bool := (b2z a =? 194) && ((b2z b =? 133) || (b2z b =? 160)).
Definition ws3 (a b c : byte) : bool :=
  let cp := (b2z a - 224) * 4096 + (b2z b - 128) * 64 + (b2z c - 128) in
  in_range 225 227 a && utf8_cont b && utf8_cont c &&
  ((cp =? 5760) || ((8192 <=? cp) && (cp <=? 8202)) || (cp =? 8232) || (cp =? 8233) ||
   (cp =? 8239) || (cp =? 8287) || (cp =? 12288)).

Fixpoint trim_start (s : str) : str :=
  match s with
  | [] => []
  | a :: s1 =>
    if ws1 a then trim_start s1 else
    match s1 with
    | [] => s
    | b :: s2 =>
      if ws2 a b then trim_start s2 else
      match s2 with
      | [] => s
      | c :: s3 => if ws3 a b c then trim_start s3 else s
      end
    end
  end.

(** The same from the end, on the reversed string. *)
Fixpoint trim_end_rev (s : str) : str :=
  match s with
  | [] => []
  | a :: s1 =>
    if ws1 a then trim_end_rev s1 else
    match s1 with
    | [] => s
    | b :: s2 =>
      if ws2 b a then trim_end_rev s2 else
      match s2 with
      | [] => s
      | c :: s3 => if ws3 c b a then trim_end_rev s3 else s
      end
    end
  end.

Definition trim_end (s : str) : str := rev (trim_end_rev (rev s)).
Definition trim (s : str) : str := trim_end (trim_start s).

(** ** ASCII *)
Definition is_ascii_digit (b : byte) : bool := in_range 48 57 b.
Definition is_ascii_uppercase (b : byte) : bool := in_range 65 90 b.
Definition is_ascii_lowercase (b : byte) : bool := in_range 97 122 b.
Definition is_ascii_alphabetic (b : byte) : bool := is_ascii_uppercase b || is_ascii_lowercase b.
Definition is_ascii_alphanumeric (b : byte) : bool := is_ascii_alphabetic b || is_ascii_digit b.
Definition is_ascii_hexdigit (b : byte) : bool :=
  is_ascii_digit b || in_range 65 70 b || in_range 97 102 b.
Definition to_ascii_lowercase (b : byte) : byte :=
  if is_ascii_uppercase b then z2b (b2z b + 32) else b.
Definition eq_ignore_ascii_case (a b : str) : bool :=
  bool_decide (map to_ascii_lowercase a = map to_ascii_lowercase b).

(** ** Decimal numbers *)

Definition digit_val (b : byte) : Z := b2z b - 48.

Fixpoint digits_go (acc : Z) (s : str) : option Z :=
  match s with
  | [] => Some acc
  | c :: s' => if is_ascii_digit c then digits_go (10 * acc + digit_val c) s' else None
  end.

(** The value of a nonempty run of digits. *)
Definition parse_digits (s : str) : option Z :=
  match s with [] => None | _ => digits_go 0 s end.

Definition in_bounds (lo hi : Z) (o : option Z) : option Z :=
  match o with Some v => if (lo <=? v) && (v <=? hi) then Some v else None | None => None end.

(** [str::parse::<i64>()]. *)
Definition parse_i64 (s : str) : option Z :=
  match s with
  | c :: s' =>
    if byte_eqb c x2d then in_bounds i64_min i64_max (option_map Z.opp (parse_digits s'))
    else if byte_eqb c x2b then in_bounds i64_min i64_max (parse_digits s')
    else in_bounds i64_min i64_max (parse_digits s)
  | [] => None
  end.

(** [str::parse::<usize>()]. *)
Definition parse_usize (s : str) : option Z :=
  match s with
  | c :: s' =>
    if byte_eqb c x2b then in_bounds 0 usize_max (parse_digits s')
    else in_bounds 0 usize_max (parse_digits s)
  | [] => None
  end.

Fixpoint show_go (fuel : nat) (z : Z) (acc : str) : str :=
  let acc := z2b (48 + z mod 10) :: acc in
  match fuel with
  | O => acc
  | S f => if z <? 10 then acc else show_go f (z / 10) acc
  end.

(** Decimal digits of a non-negative number; every division by ten at least
    halves it, so the bit length bounds the number of digits. *)
Definition show_nat (z : Z) : str := show_go (Z.to_nat (Z.log2 z)) z [].
(** [i64::to_string]. *)
Definition show_i64 (z : Z) : str :=
  if z <? 0 then x2d :: show_nat (- z) else show_nat z.

(** ** [String::from_utf8_lossy]

    Each maximal prefix of a broken sequence becomes one U+FFFD. [utf8_step]
    is the length of the character at the front, or the number of bytes to
    replace. *)
Definition utf8_step (l : list byte) : nat * bool :=
  match l with
  | [] => (1%nat, false)
  | b0 :: l1 =>
    if in_range 0 127 b0 then (1%nat, true)
    else if in_range 194 223 b0 then
      match l1 with
      | b1 :: _ => if utf8_cont b1 then (2%nat, true) else (1%nat, false)
      | [] => (1%nat, false)
      end
    else if in_range 224 244 b0 then
      match l1 with
      | b1 :: l2 =>
        let ok1 := if b2z b0 =? 224 then in_range 160 191 b1
                   else if b2z b0 =? 237 then in_range 128 159 b1
                   else if b2z b0 =? 240 then in_range 144 191 b1
                   else if b2z b0 =? 244 then in_range 128 143 b1
                   else utf8_cont b1 in
        if negb ok1 then (1%nat, false) else
        match l2 with
        | b2 :: l3 =>
          if negb (utf8_cont b2) then (2%nat, false)
          else if in_range 224 239 b0 then (3%nat, true) else
          match l3 with
          | b3 :: _ => if utf8_cont b3 then (4%nat, true) else (3%nat, false)
          | [] => (3%nat, false)
          end
        | [] => (2%nat, false)
        end
      | [] => (1%nat, false)
      end
    else (1%nat, false)
  end.

Fixpoint lossy_go (fuel : nat) (l : list byte) : str :=
  match fuel, l with
  | S f, _ :: _ =>
    let '(k, good) := utf8_step l in
    (if good : bool then take k l else [xef; xbf; xbd]) ++ lossy_go f (drop k l)
  | _, _ => []
  end.
Definition from_utf8_lossy (l : list byte) : str := lossy_go (length l) l.

(** ** Lemmas *)

Lemma byte_eqb_spec a b : reflect (a = b) (byte_eqb a b).
Proof. unfold byte_eqb. apply bool_decide_reflect. Qed.

Lemma b2z_digit d : 0 <= d <= 9 -> b2z (z2b (48 + d)) = 48 + d.
Proof. intros. rewrite b2z_z2b. apply Z.mod_small. lia. Qed.

Lemma is_ascii_digit_iff b : is_ascii_digit b = true <-> 48 <= b2z b <= 57.
Proof. apply in_range_spec. Qed.

Lemma digits_go_app acc a b :
  digits_go acc (a ++ b) = match digits_go acc a with Some v => digits_go v b | None => None end.
Proof.
  revert acc; induction a as [|c a IH]; intros acc; simpl; [done|].
  by destruct (is_ascii_digit c).
Qed.

Lemma digits_go_all acc s :
  Forall (fun c => is_ascii_digit c = true) s ->
  digits_go acc s = Some (acc * 10 ^ Z.of_nat (length s) + default 0 (digits_go 0 s)).
Proof.
  intros Hs. revert acc. induction Hs as [|c s Hc Hs IH]; intros acc; simpl digits_go.
  { simpl. f_equal. lia. }
  rewrite Hc, IH, (IH (10 * 0 + digit_val c)). cbn [default length]. f_equal.
  rewrite Nat2Z.inj_succ, Z.pow_succ_r by lia. unfold id. ring.
Qed.

Lemma digits_go_value s :
  Forall (fun c => is_ascii_digit c = true) s ->
  exists v, digits_go 0 s = Some v /\ 0 <= v < 10 ^ Z.of_nat (length s).
Proof.
  induction s as [|s c IH] using rev_ind; intros Hs; [by exists 0|].
  apply Forall_app in Hs as [Hs Hc]. inversion_clear Hc as [|? ? Hd _].
  destruct (IH Hs) as (v & Hv & Hr). rewrite digits_go_app, Hv. simpl. rewrite Hd.
  eexists; split; [done|]. rewrite length_app. simpl length.
  apply is_ascii_digit_iff in Hd. unfold digit_val.
  rewrite Nat2Z.inj_add, Z.pow_add_r by lia. simpl (10 ^ Z.of_nat 1). lia.
Qed.

Lemma digits_go_inv acc s v : digits_go acc s = Some v -> Forall (fun c => is_ascii_digit c = true) s.
Proof.
  revert acc; induction s as [|c s IH]; intros acc; simpl; [constructor|].
  destruct (is_ascii_digit c) eqn:E; [|done]. intros H. constructor; eauto.
Qed.

Lemma show_go_spec fuel z acc :
  0 <= z < 2 ^ (Z.of_nat fuel + 1) ->
  exists ds, show_go fuel z acc = ds ++ acc /\ ds <> [] /\
    Forall (fun c => is_ascii_digit c = true) ds /\ digits_go 0 ds = Some z.
Proof.
  revert z acc; induction fuel as [|fuel IH]; intros z acc Hz; simpl show_go.
  - exists [z2b (48 + z mod 10)]. split; [done|]. split; [done|].
    assert (z mod 10 = z) as -> by (apply Z.mod_small; simpl in Hz; lia).
    assert (0 <= z <= 9) as Hz9 by (simpl in Hz; lia).
    assert (is_ascii_digit (z2b (48 + z)) = true) as Hd by (apply is_ascii_digit_iff; rewrite b2z_digit; lia).
    split; [by constructor|]. simpl. rewrite Hd. unfold digit_val. rewrite b2z_digit by lia. f_equal. lia.
  - pose proof (Z.mod_pos_bound z 10 ltac:(lia)) as Hm.
    assert (is_ascii_digit (z2b (48 + z mod 10)) = true) as Hd
      by (apply is_ascii_digit_iff; rewrite b2z_digit; lia).
    destruct (Z.ltb_spec z 10) as [Hlt|Hge].
    + exists [z2b (48 + z mod 10)]. split; [done|]. split; [done|]. split; [by constructor|].
      simpl. rewrite Hd. unfold digit_val. rewrite b2z_digit by lia.
      rewrite Z.mod_small by lia. f_equal. lia.
    + destruct (IH (z / 10) (z2b (48 + z mod 10) :: acc)) as (ds & -> & Hne & Hall & Hv).
      { split; [apply Z.div_pos; lia|]. apply Z.div_lt_upper_bound; [lia|].
        rewrite Nat2Z.inj_succ in Hz. replace (Z.succ (Z.of_nat fuel) + 1) with (Z.succ (Z.of_nat fuel + 1)) in Hz by lia.
        rewrite Z.pow_succ_r in Hz by lia. lia. }
      exists (ds ++ [z2b (48 + z mod 10)]). rewrite <-List.app_assoc. split; [done|].
      split; [by destruct ds|]. split; [apply Forall_app; auto|].
      rewrite digits_go_app, Hv. simpl. rewrite Hd. unfold digit_val. rewrite b2z_digit by lia.
      f_equal. pose proof (Z.div_mod z 10 ltac:(lia)). lia.
Qed.

Lemma show_nat_spec z :
  0 <= z -> show_nat z <> [] /\ Forall (fun c => is_ascii_digit c = true) (show_nat z) /\
    parse_digits (show_nat z) = Some z.
Proof.
  intros Hz. unfold show_nat. destruct (show_go_spec (Z.to_nat (Z.log2 z)) z []) as (ds & -> & Hne & Hall & Hv).
  { rewrite Z2Nat.id by apply Z.log2_nonneg. split; [done|].
    destruct (Z.eq_dec z 0) as [->|]; [simpl; lia|]. apply Z.log2_spec. lia. }
  rewrite List.app_nil_r. split; [done|]. split; [done|]. unfold parse_digits. by destruct ds.
Qed.

Lemma digit_not_sign c : is_ascii_digit c = true -> byte_eqb c x2d = false /\ byte_eqb c x2b = false.
Proof.
  rewrite is_ascii_digit_iff. intros H.
  split; destruct (byte_eqb_spec c x2d), (byte_eqb_spec c x2b); subst; try done;
    vm_compute in H; destruct H; done.
Qed.

Lemma parse_i64_digits s v :
  parse_digits s = Some v -> 0 <= v <= i64_max -> parse_i64 s = Some v.
Proof.
  destruct s as [|c s]; [done|]. intros Hp Hv. unfold parse_i64.
  assert (is_ascii_digit c = true) as Hc.
  { unfold parse_digits in Hp. simpl in Hp. by destruct (is_ascii_digit c). }
  destruct (digit_not_sign c Hc) as [-> ->]. rewrite Hp. unfold in_bounds, i64_min.
  destruct (Z.leb_spec (- 2 ^ 63) v), (Z.leb_spec v i64_max); simpl; (done || lia).
Qed.

Lemma parse_show_i64 z : is_i64 z -> parse_i64 (show_i64 z) = Some z.
Proof.
  intros Hz. unfold show_i64. destruct (Z.ltb_spec z 0).
  - unfold parse_i64. destruct (byte_eqb_spec x2d x2d); [|done].
    destruct (show_nat_spec (- z)) as (_ & _ & ->); [lia|]. simpl. rewrite Z.opp_involutive.
    unfold is_i64 in Hz. unfold in_bounds.
    destruct (Z.leb_spec i64_min z), (Z.leb_spec z i64_max); simpl; (done || lia).
  - apply parse_i64_digits; [apply show_nat_spec; lia|]. unfold is_i64 in Hz. lia.
Qed.

Lemma parse_i64_range s z : parse_i64 s = Some z -> is_i64 z.
Proof.
  unfold parse_i64. assert (forall o, in_bounds i64_min i64_max o = Some z -> is_i64 z) as Hb.
  { intros [v|]; [|done]. unfold in_bounds. destruct (_ && _) eqn:E; [|done]. intros [= <-].
    split_andb. rewrite Z.leb_le in *. unfold is_i64. lia. }
  destruct s as [|c s]; [done|]. repeat case_match; apply Hb.
Qed.

(** Splitting a join of separator-free pieces. *)
Lemma split_free sep s : sep ∉ s -> split sep s = [s].
Proof.
  induction s as [|c s IH]; intros Hs; simpl; [done|].
  apply not_elem_of_cons in Hs as [Hc Hs]. destruct (byte_eqb_spec c sep); [congruence|].
  by rewrite IH.
Qed.

Lemma split_app sep a b : sep ∉ a -> split sep (a ++ sep :: b) = a :: split sep b.
Proof.
  induction a as [|c a IH]; intros Ha; simpl.
  { by destruct (byte_eqb_spec sep sep). }
  apply not_elem_of_cons in Ha as [Hc Ha]. destruct (byte_eqb_spec c sep); [congruence|].
  by rewrite IH.
Qed.

Lemma split_join sep parts :
  parts <> [] -> Forall (fun p => sep ∉ p) parts -> split sep (join sep parts) = parts.
Proof.
  induction parts as [|p [|q parts] IH]; intros Hne Hp; [done| |].
  - inversion_clear Hp. by apply split_free.
  - inversion_clear Hp as [|? ? Hp1 Hp2]. change (join sep (p :: q :: parts)) with (p ++ sep :: join sep (q :: parts)). rewrite split_app by done.
    by rewrite IH.
Qed.

Lemma split_once_app sep a b : sep ∉ a -> split_once sep (a ++ sep :: b) = Some (a, b).
Proof.
  induction a as [|c a IH]; intros Ha; simpl.
  { by destruct (byte_eqb_spec sep sep). }
  apply not_elem_of_cons in Ha as [Hc Ha]. destruct (byte_eqb_spec c sep); [congruence|].
  by rewrite IH.
Qed.

(** [trim] keeps a string whose ends are printable ASCII. *)
Definition solid (b : byte) : bool := in_range 33 126 b.

Lemma solid_not_ws a b c :
  solid a = true -> ws1 a = false /\ ws2 a b = false /\ ws3 a b c = false /\ ws2 b a = false /\ ws3 c b a = false.
Proof.
  intros Ha. apply in_range_spec in Ha. unfold ws1, ws2, ws3, utf8_cont, in_range.
  repeat split;
  repeat match goal with |- context [?x <=? ?y] => destruct (Z.leb_spec x y); try lia end;
  repeat match goal with |- context [b2z a =? ?y] => destruct (Z.eqb_spec (b2z a) y); try lia end;
  simpl; rewrite ?andb_false_r; try done; lia.
Qed.

Lemma trim_start_solid a s : solid a = true -> trim_start (a :: s) = a :: s.
Proof.
  intros Ha. simpl. destruct (solid_not_ws a x00 x00 Ha) as (-> & _).
  destruct s as [|b s]; [done|]. destruct (solid_not_ws a b x00 Ha) as (_ & -> & _).
  destruct s as [|c s]; [done|]. by destruct (solid_not_ws a b c Ha) as (_ & _ & -> & _).
Qed.

Lemma trim_end_rev_solid a s : solid a = true -> trim_end_rev (a :: s) = a :: s.
Proof.
  intros Ha. simpl. destruct (solid_not_ws a x00 x00 Ha) as (-> & _).
  destruct s as [|b s]; [done|]. destruct (solid_not_ws a b x00 Ha) as (_ & _ & _ & -> & _).
  destruct s as [|c s]; [done|]. by destruct (solid_not_ws a b c Ha) as (_ & _ & _ & _ & ->).
Qed.

Lemma trim_solid s : Forall (fun c => solid c = true) s -> trim s = s.
Proof.
  intros Hs. unfold trim, trim_end. destruct s as [|a s]; [done|].
  rewrite trim_start_solid by (by inversion Hs).
  apply List.Forall_rev in Hs.
  destruct (rev (a :: s)) as [|z t] eqn:E.
  { apply (f_equal (@length byte)) in E. rewrite length_rev in E. done. }
  rewrite trim_end_rev_solid by (by inversion Hs). rewrite <-E. apply rev_involutive.
Qed.

Lemma digit_solid c : is_ascii_digit c = true -> solid c = true.
Proof. unfold solid. rewrite is_ascii_digit_iff, in_range_spec. lia. Qed.

Lemma show_i64_digits z : 0 <= z -> Forall (fun c => is_ascii_digit c = true) (show_i64 z).
Proof.
  intros Hz. unfold show_i64. destruct (Z.ltb_spec z 0); [lia|]. by apply show_nat_spec.
Qed.

Lemma digits_free sep s :
  is_ascii_digit sep = false -> Forall (fun c => is_ascii_digit c = true) s -> sep ∉ s.
Proof. intros Hsep Hs Hin. rewrite Forall_forall in Hs. apply Hs in Hin. congruence. Qed.

(** ** Zero padding *)

Lemma digits_go_inj a b va vb :
  Forall (fun c => is_ascii_digit c = true) a -> Forall (fun c => is_ascii_digit c = true) b ->
  length a = length b ->
  digits_go va a = digits_go vb b -> va = vb /\ a = b.
Proof.
  intros Ha. revert b. induction a as [|x a IH] using rev_ind; intros b Hb Hl H.
  { destruct b; [|done]. by injection H as <-. }
  destruct b as [|y b _] using rev_ind; [rewrite length_app in Hl; simpl in Hl; lia|].
  rewrite !length_app in Hl. simpl in Hl.
  apply Forall_app in Ha as [Ha Hx]. apply Forall_app in Hb as [Hb Hy].
  inversion_clear Hx as [|? ? Hx' _]. inversion_clear Hy as [|? ? Hy' _].
  rewrite !digits_go_app, (digits_go_all va a), (digits_go_all vb b) in H by done.
  simpl in H. rewrite Hx', Hy' in H. injection H as H.
  apply is_ascii_digit_iff in Hx', Hy'. unfold digit_val in H.
  destruct (IH Ha b Hb ltac:(lia)) as [-> ->].
  { rewrite (digits_go_all va a), (digits_go_all vb b) by done. f_equal. lia. }
  split; [done|]. do 2 f_equal. apply b2z_inj. lia.
Qed.

Lemma show_go_length fuel z acc k :
  0 <= z < 10 ^ Z.of_nat k -> (1 <= k)%nat ->
  (length (show_go fuel z acc) <= k + length acc)%nat.
Proof.
  revert z acc k. induction fuel as [|fuel IH]; intros z acc k Hz Hk; simpl; [lia|].
  destruct (Z.ltb_spec z 10) as [|Hge]; [simpl; lia|].
  destruct k as [|[|k]]; [lia|simpl in Hz; lia|].
  transitivity (S k + length (z2b (48 + z mod 10) :: acc))%nat; [|simpl; lia].
  apply IH; [|lia]. split; [apply Z.div_pos; lia|]. apply Z.div_lt_upper_bound; [lia|].
  rewrite Nat2Z.inj_succ, Z.pow_succ_r in Hz by lia. lia.
Qed.

Lemma digits_go_zeros n s : digits_go 0 (replicate n x30 ++ s) = digits_go 0 s.
Proof. induction n; simpl; done. Qed.

(** A run of digits is its value, zero-padded to its width. *)
Lemma pad_show s v :
  parse_digits s = Some v -> replicate (length s - length (show_nat v)) x30 ++ show_nat v = s.
Proof.
  intros Hp. assert (s <> []) as Hne by (by intros ->). unfold parse_digits in Hp.
  assert (digits_go 0 s = Some v) as Hv by (by destruct s). clear Hp.
  pose proof (digits_go_inv _ _ _ Hv) as Hs.
  destruct (digits_go_value s Hs) as (v' & Hv' & Hr). rewrite Hv in Hv'. injection Hv' as <-.
  destruct (show_nat_spec v ltac:(lia)) as (Hsne & Hsd & Hsp).
  assert (length (show_nat v) <= length s)%nat as Hlen.
  { pose proof (show_go_length (Z.to_nat (Z.log2 v)) v [] (length s) Hr) as Hl.
    unfold show_nat. simpl in Hl. rewrite Nat.add_0_r in Hl. apply Hl. destruct s; [done|simpl; lia]. }
  apply (digits_go_inj _ _ 0 0).
  - apply Forall_app. split; [by apply Forall_replicate|done].
  - done.
  - rewrite length_app, length_replicate. lia.
  - rewrite digits_go_zeros, Hv. unfold parse_digits in Hsp. by destruct (show_nat v).
Qed.

Lemma parse_i64_of_digits s :
  s <> [] -> Forall (fun c => is_ascii_digit c = true) s ->
  parse_i64 s = in_bounds i64_min i64_max (parse_digits s).
Proof.
  destruct s as [|c s]; [done|]. intros _ Hs. inversion_clear Hs as [|? ? Hc _].
  unfold parse_i64. by destruct (digit_not_sign c Hc) as [-> ->].
Qed.
