(* ===== verification/Rollup.v ===== *)
(** * Rollup ladder

    [src/crates/timeless-core/src/rollup.rs]: the bucket aggregation kernel
    [rollup_buckets], the [ENC_ROLLUP_V1] payload codec and the ladder parser.
    [bucket_of_samples] is the bucket contract of the module documentation,
    stated directly on the raw samples; [rollup_exact] identifies the kernel
    with it. *)
From Stdlib Require Import ZArith Lia Bool Strings.Byte.
From stdpp Require Import prelude list strings sorting.
From S2P Require Import Prelude Float64 BTree Wire RustStr Columns.
Open Scope string_scope.
Open Scope list_scope.
Open Scope Z_scope.

Definition ENC_ROLLUP_V1 : byte := x02.
Definition ROLLUP_ZSTD_LEVEL : Z := 7.

Record RollupBucket := mkBucket {
  bucket_ts : Z;
  count : Z;
  rb_sum : f64;
  rb_min : f64;
  rb_max : f64;
  last_ts : Z;
  last_val : f64;
}.

(** ** The kernel *)

(** [i64::div_euclid] for a nonzero divisor. *)
Definition div_euclid (a b : Z) : Z := if b <? 0 then - (a / - b) else a / b.

Definition fold_sample (b : RollupBucket) (ts : Z) (val : f64) : RollupBucket :=
  let newer := last_ts b <=? ts in
  mkBucket (bucket_ts b) (count b + 1) (f64_add (rb_sum b) val)
    (f64_min (rb_min b) val) (f64_max (rb_max b) val)
    (if newer then ts else last_ts b) (if newer then val else last_val b).

Definition fresh_bucket (bts ts : Z) (val : f64) : RollupBucket :=
  mkBucket bts 1 val val val ts val.

(** The loop; [out] is the vector with its last element first. *)
Fixpoint rollup_go (resolution : Z) (out : list RollupBucket) (samples : list (Z * f64))
    : result (list RollupBucket) :=
  match samples with
  | [] => Ok (rev out)
  | (ts, val) :: samples' =>
    let? bts := ok_or (i64_checked_mul (div_euclid ts resolution) resolution)
      (Fmt "rollup bucket timestamp overflows for ts {ts} at resolution {resolution}"
         [FNum ts; FNum resolution]) in
    match out with
    | b :: out' =>
      if bucket_ts b =? bts then rollup_go resolution (fold_sample b ts val :: out') samples'
      else rollup_go resolution (fresh_bucket bts ts val :: out) samples'
    | [] => rollup_go resolution [fresh_bucket bts ts val] samples'
    end
  end.

Definition rollup_buckets (samples : list (Z * f64)) (resolution : Z)
    : result (list RollupBucket) :=
  rollup_go resolution [] samples.

(** ** The payload *)

Section Payload.
Context `{ZS : Zstd}.

Definition rollup_raw (buckets : list RollupBucket) : list byte :=
  u32_le (Z.of_nat (length buckets)) ++
  concat (map (fun b => i64_le (bucket_ts b)) buckets) ++
  concat (map (fun b => u64_le (count b)) buckets) ++
  concat (map (fun b => f64_le (rb_sum b)) buckets) ++
  concat (map (fun b => f64_le (rb_min b)) buckets) ++
  concat (map (fun b => f64_le (rb_max b)) buckets) ++
  concat (map (fun b => i64_le (last_ts b)) buckets) ++
  concat (map (fun b => f64_le (last_val b)) buckets).

Definition encode_rollup_payload (buckets : list RollupBucket) : result (list byte) :=
  let n := Z.of_nat (length buckets) in
  let? _ := ok_or (usize_checked_mul n 56)
    (Fmt "rollup payload: {n} buckets exceeds addressable size" [FNum n]) in
  if u32_max <? n then Err (Fmt "rollup payload: {n} buckets exceeds u32::MAX" [FNum n])
  else map_err (fun e => Fmt "rollup payload compression failed: {e}" [FErr e])
         (zstd_bulk_compress (rollup_raw buckets) ROLLUP_ZSTD_LEVEL).

(** [raw[base + i * 8..base + i * 8 + 8]]. *)
Definition word_at (raw : list byte) (base i : nat) : list byte :=
  take 8 (drop (base + i * 8) raw).

Definition bucket_at (raw : list byte) (n i : nat) : RollupBucket :=
  let col idx := (4 + n * 8 * idx)%nat in
  mkBucket (i64_from_le (word_at raw (col 0%nat) i)) (le_val (word_at raw (col 1%nat) i))
    (f64_from_le (word_at raw (col 2%nat) i)) (f64_from_le (word_at raw (col 3%nat) i))
    (f64_from_le (word_at raw (col 4%nat) i)) (i64_from_le (word_at raw (col 5%nat) i))
    (f64_from_le (word_at raw (col 6%nat) i)).

Definition decode_rollup_payload (payload : list byte) : result (list RollupBucket) :=
  let? raw := map_err (fun e => Fmt "rollup payload decompression failed: {e}" [FErr e])
    (zstd_bulk_decompress payload (64 * 2 ^ 20)) in
  if (length raw <? 4)%nat then Err (Fmt "rollup payload truncated (no header)" [])
  else
    let n := le_val (take 4 raw) in
    let? expected := ok_or
      (match usize_checked_mul n 56 with Some body => usize_checked_add body 4 | None => None end)
      (Fmt "rollup payload: bucket count {n} overflows size math" [FNum n]) in
    if negb (Z.of_nat (length raw) =? expected) then
      Err (Fmt "rollup payload is {} byte(s); {n} buckets require {expected}"
             [FNum (Z.of_nat (length raw)); FNum n; FNum expected])
    else Ok (map (bucket_at raw (Z.to_nat n)) (seq 0 (Z.to_nat n))).
End Payload.

(** ** The ladder *)

Record RollupTier := mkTier { resolution : Z; retention : Z }.

#[global] Instance RollupTier_eq_dec : EqDecision RollupTier.
Proof. solve_decision. Defined.

(** The loop body; [prev] is [tiers.last()]. *)
Definition parse_tier (prev : option RollupTier) (part : str) : result RollupTier :=
  let? (res, ret) := ok_or (split_once x3a part)
    (Fmt "rollup tier {part:?}: expected resolution:retention" [FBytes part]) in
  let? resolution' := ok_or (parse_i64 (trim res))
    (Fmt "rollup tier {part:?}: bad resolution" [FBytes part]) in
  let? retention' := ok_or (parse_i64 (trim ret))
    (Fmt "rollup tier {part:?}: bad retention" [FBytes part]) in
  if resolution' <=? 0 then
    Err (Fmt "rollup resolution must be positive, got {resolution}" [FNum resolution'])
  else if retention' <? 0 then
    Err (Fmt "rollup retention must be >= 0, got {retention}" [FNum retention'])
  else match prev with
  | Some p =>
    if (resolution' <=? resolution p) || negb (Z.rem resolution' (resolution p) =? 0) then
      Err (Fmt "rollup resolutions must ascend and each be a multiple of the previous ({} then {resolution})"
             [FNum (resolution p); FNum resolution'])
    else Ok (mkTier resolution' retention')
  | None => Ok (mkTier resolution' retention')
  end.

Fixpoint ladder_go (prev : option RollupTier) (parts : list str) : result (list RollupTier) :=
  match parts with
  | [] => Ok []
  | part :: parts' =>
    let part := trim part in
    match part with
    | [] => ladder_go prev parts'
    | _ =>
      let? t := parse_tier prev part in
      let? ts := ladder_go (Some t) parts' in
      Ok (t :: ts)
    end
  end.

Definition parse_ladder (spec : str) : result (list RollupTier) :=
  ladder_go None (split x2c spec).

(** ** The bucket contract *)

(** Folds of a nonempty list seeded by its first element. *)
Definition fold1 (f : f64 -> f64 -> f64) (l : list f64) : f64 :=
  match l with [] => f64_zero | x :: l' => fold_left f l' x end.

(** The bucket that starts at [B] and has the samples [s], in engine order. *)
Definition aggregate (B : Z) (s : list (Z * f64)) : RollupBucket :=
  let newest := default (0, f64_zero) (last s) in
  mkBucket B (Z.of_nat (length s)) (fold1 f64_add s.*2) (fold1 f64_min s.*2)
    (fold1 f64_max s.*2) newest.1 newest.2.

Section Contract.
Context (R : Z).

(** [B = ts.div_euclid(R) * R]: the bucket [[B, B + R)] of a timestamp. *)
Definition start (ts : Z) : Z := ts / R * R.

Definition samples_of (B : Z) (samples : list (Z * f64)) : list (Z * f64) :=
  filter (fun p => start p.1 = B) samples.

(** The naive bucket of the samples of one bucket, in engine order. *)
Definition bucket_of_samples (B : Z) (samples : list (Z * f64)) : RollupBucket :=
  aggregate B (samples_of B samples).

(** The starts of the buckets that hold a sample, ascending. *)
Definition starts (samples : list (Z * f64)) : list Z := bts_of_list (map (fun p => start p.1) samples).

Definition naive_buckets (samples : list (Z * f64)) : list RollupBucket :=
  map (fun B => bucket_of_samples B samples) (starts samples).
End Contract.

Definition ts_ascending (samples : list (Z * f64)) : Prop :=
  StronglySorted (fun p q => p.1 <= q.1) samples.

(** ** The kernel meets the contract *)

Section Kernel.
Context (R : Z) (HR : 0 < R).

Lemma start_mono a b : a <= b -> start R a <= start R b.
Proof. intros. unfold start. apply Z.mul_le_mono_nonneg_r; [lia|]. by apply Z.div_le_mono. Qed.

Lemma start_bounds ts : start R ts <= ts < start R ts + R.
Proof.
  unfold start. pose proof (Z.div_mod ts R ltac:(lia)). pose proof (Z.mod_pos_bound ts R HR). lia.
Qed.

Lemma fold1_snoc f l x : l <> [] -> fold1 f (l ++ [x]) = f (fold1 f l) x.
Proof. destruct l as [|y l]; [done|]. intros _. simpl. by rewrite fold_left_app. Qed.

Lemma samples_of_snoc B samples x :
  samples_of R B (samples ++ [x]) =
    if decide (start R x.1 = B) then samples_of R B samples ++ [x] else samples_of R B samples.
Proof.
  unfold samples_of. rewrite filter_app. simpl.
  destruct (decide (start R x.1 = B)) as [E|E].
  - by rewrite filter_cons_True, filter_nil.
  - rewrite filter_cons_False, filter_nil by done. by rewrite List.app_nil_r.
Qed.

Lemma elem_of_starts B samples : B ∈ starts R samples <-> samples_of R B samples <> [].
Proof.
  unfold starts. rewrite elem_of_bts_of_list, list_elem_of_fmap. split.
  - intros (p & -> & Hp) Hnil. assert (p ∈ samples_of R (start R p.1) samples) as Hin.
    { apply list_elem_of_filter. done. } rewrite Hnil in Hin. by apply not_elem_of_nil in Hin.
  - destruct (samples_of R B samples) as [|p l] eqn:E; [done|]. intros _.
    assert (p ∈ samples_of R B samples) as Hin by (rewrite E; left).
    apply list_elem_of_filter in Hin as [<- Hp]. by exists p.
Qed.

Lemma starts_snoc samples x : starts R (samples ++ [x]) = bts_insert (start R x.1) (starts R samples).
Proof. unfold starts, bts_of_list. rewrite map_app, fold_left_app. done. Qed.

Lemma starts_wf samples : bts_wf (starts R samples).
Proof. apply bts_of_list_wf. Qed.

Lemma starts_le samples ts :
  Forall (fun p => p.1 <= ts) samples -> Forall (fun B => B <= start R ts) (starts R samples).
Proof.
  rewrite !Forall_forall. intros Hle B'. unfold starts.
  rewrite elem_of_bts_of_list, list_elem_of_fmap. intros (p & -> & Hp). by apply start_mono, Hle.
Qed.

Lemma bucket_other samples x B :
  B <> start R x.1 -> bucket_of_samples R B (samples ++ [x]) = bucket_of_samples R B samples.
Proof.
  intros HB. unfold bucket_of_samples, aggregate. rewrite samples_of_snoc.
  destruct (decide (start R x.1 = B)); [by subst|done].
Qed.

Lemma buckets_below samples x l :
  Forall (fun B => B < start R x.1) l ->
  map (fun B => bucket_of_samples R B (samples ++ [x])) l =
  map (fun B => bucket_of_samples R B samples) l.
Proof.
  intros Hl. apply list_fmap_ext. intros i B Hi. apply bucket_other.
  rewrite Forall_lookup in Hl. apply Hl in Hi. lia.
Qed.

Lemma bucket_fresh samples ts val :
  start R ts ∉ starts R samples ->
  bucket_of_samples R (start R ts) (samples ++ [(ts, val)]) = fresh_bucket (start R ts) ts val.
Proof.
  rewrite elem_of_starts. intros Hnil. unfold bucket_of_samples, aggregate. rewrite samples_of_snoc. simpl.
  destruct (decide (start R ts = start R ts)); [|done].
  destruct (samples_of R (start R ts) samples); [done|]. by destruct Hnil.
Qed.

Lemma bucket_grow samples ts val :
  Forall (fun p => p.1 <= ts) samples -> start R ts ∈ starts R samples ->
  bucket_of_samples R (start R ts) (samples ++ [(ts, val)]) =
  fold_sample (bucket_of_samples R (start R ts) samples) ts val.
Proof.
  rewrite elem_of_starts. intros Hle Hs. unfold bucket_of_samples, aggregate. rewrite samples_of_snoc. simpl.
  destruct (decide (start R ts = start R ts)); [|done].
  assert ((default (0, f64_zero) (last (samples_of R (start R ts) samples))).1 <= ts) as Hnew.
  { destruct (last _) as [q|] eqn:El; [|by apply last_None in El].
    apply last_Some_elem_of, list_elem_of_filter in El as [_ El].
    rewrite Forall_forall in Hle. by apply Hle. }
  set (s := samples_of R (start R ts) samples) in *.
  assert (s.*2 <> []) as Hs2 by (by destruct s).
  rewrite fmap_app. simpl. rewrite !fold1_snoc, last_snoc by done. unfold fold_sample. simpl.
  destruct (Z.leb_spec (default (0, f64_zero) (last s)).1 ts); [|lia].
  f_equal. rewrite length_app. simpl. lia.
Qed.

(** The buckets after one more sample, given the ones before it. *)
Lemma naive_snoc samples ts val :
  Forall (fun p => p.1 <= ts) samples ->
  rev (naive_buckets R (samples ++ [(ts, val)])) =
    match rev (naive_buckets R samples) with
    | b :: out' => if bucket_ts b =? start R ts then fold_sample b ts val :: out'
                   else fresh_bucket (start R ts) ts val :: b :: out'
    | [] => [fresh_bucket (start R ts) ts val]
    end.
Proof.
  intros Hle. pose proof (starts_le _ _ Hle) as Hall. pose proof (starts_wf samples) as Hwf.
  unfold naive_buckets. rewrite starts_snoc. cbn [fst].
  destruct (starts R samples) as [|B0 l0 _] eqn:Es using rev_ind.
  { simpl. rewrite bucket_fresh; [done|]. rewrite Es. apply not_elem_of_nil. }
  apply Forall_app in Hall as [Hl0 HB0]. inversion_clear HB0 as [|? ? HB0' _].
  pose proof (bts_wf_snoc _ _ Hwf) as Hlt.
  rewrite map_app, rev_app_distr. cbn [map rev app].
  replace (bucket_ts (bucket_of_samples R B0 samples)) with B0 by done.
  destruct (Z.eqb_spec B0 (start R ts)) as [->|Hne].
  - assert (start R ts ∈ l0 ++ [start R ts]) as Hin by (apply elem_of_app; right; left).
    rewrite bts_insert_mem, map_app, rev_app_distr by done.
    rewrite (buckets_below _ (ts, val) l0) by exact Hlt. simpl. rewrite bucket_grow by (try rewrite Es; done). done.
  - assert (Forall (fun x => x < start R ts) (l0 ++ [B0])) as Hlast.
    { apply Forall_app. split; [|by constructor; [lia|]]. eapply Forall_impl; [exact Hlt|].
      intros x Hx. change (x < B0) in Hx. lia. }
    rewrite bts_insert_last by (eapply Forall_impl; [exact Hlast|]; done).
    rewrite map_app, rev_app_distr, (buckets_below _ (ts, val) (l0 ++ [B0])), map_app, rev_app_distr by done. simpl.
    rewrite bucket_fresh; [done|]. rewrite Es. intros Hin.
    rewrite Forall_forall in Hlast. apply Hlast in Hin. lia.
Qed.

Lemma ts_ascending_split a p b :
  ts_ascending (a ++ p :: b) -> Forall (fun q => q.1 <= p.1) a.
Proof.
  unfold ts_ascending. induction a as [|q a IH]; simpl; intros Hs; [constructor|].
  inversion_clear Hs as [|? ? Hs' Hq]. constructor; [|auto].
  rewrite Forall_forall in Hq. apply Hq, elem_of_app. right. left.
Qed.

Lemma checked_start ts :
  is_i64 ts -> i64_checked_mul (div_euclid ts R) R =
    if i64_min <=? start R ts then Some (start R ts) else None.
Proof.
  intros Hts. unfold i64_checked_mul, div_euclid. destruct (Z.ltb_spec R 0); [lia|].
  change (ts / R * R) with (start R ts). pose proof (start_bounds ts). unfold is_i64 in Hts.
  destruct (Z.leb_spec (start R ts) i64_max); [|lia]. by rewrite andb_true_r.
Qed.

Lemma rollup_go_naive rest : forall before,
  ts_ascending (before ++ rest) -> Forall (fun p => is_i64 p.1 /\ i64_min <= start R p.1) rest ->
  rollup_go R (rev (naive_buckets R before)) rest = Ok (naive_buckets R (before ++ rest)).
Proof.
  induction rest as [|[ts val] rest IH]; intros before Hs Hr; simpl.
  { by rewrite rev_involutive, List.app_nil_r. }
  inversion_clear Hr as [|? ? [Hi Hmin] Hr']. simpl in Hi, Hmin.
  rewrite checked_start by done. destruct (Z.leb_spec i64_min (start R ts)); [|lia]. cbn [ok_or].
  pose proof (naive_snoc _ ts val (ts_ascending_split _ _ _ Hs)) as Hn.
  specialize (IH (before ++ [(ts, val)])). rewrite <-List.app_assoc in IH. cbn [app] in IH.
  rewrite <-IH by done. rewrite Hn.
  destruct (rev (naive_buckets R before)) as [|b out']; [done|].
  by destruct (bucket_ts b =? start R ts).
Qed.
Lemma rollup_ok ts val rest :
  let samples := (ts, val) :: rest in
  ts_ascending samples -> Forall (fun p => is_i64 p.1) samples -> i64_min <= start R ts ->
  rollup_buckets samples R = Ok (naive_buckets R samples).
Proof.
  intros samples Hs Hi Hok. unfold rollup_buckets.
  change [] with (rev (naive_buckets R [])). rewrite rollup_go_naive; [done|done|].
  unfold ts_ascending in Hs. inversion_clear Hs as [|? ? _ Hle].
  rewrite Forall_forall in Hle, Hi |- *. intros p Hp. split; [by apply Hi|].
  apply Z.le_trans with (start R ts); [done|]. apply start_mono.
  apply elem_of_cons in Hp as [->|Hp]; [simpl; lia|]. by apply Hle in Hp.
Qed.

Lemma rollup_overflow ts val rest :
  is_i64 ts -> start R ts < i64_min ->
  rollup_buckets ((ts, val) :: rest) R =
    Err (Fmt "rollup bucket timestamp overflows for ts {ts} at resolution {resolution}" [FNum ts; FNum R]).
Proof.
  intros Hi Hlo. unfold rollup_buckets. simpl. rewrite checked_start by done.
  destruct (Z.leb_spec i64_min (start R ts)); [lia|done].
Qed.

Lemma rollup_ok_inv samples bs :
  ts_ascending samples -> Forall (fun p => is_i64 p.1) samples ->
  rollup_buckets samples R = Ok bs -> bs = naive_buckets R samples.
Proof.
  intros Hs Hi H. destruct samples as [|[ts val] rest]; [by injection H as <-|].
  destruct (Z.lt_ge_cases (start R ts) i64_min) as [Hlo|Hok].
  - rewrite rollup_overflow in H by (done || by inversion Hi). done.
  - rewrite rollup_ok in H by done. by injection H as <-.
Qed.
End Kernel.

(** C16: On samples in ascending timestamp order the aggregation kernel is the
    documented bucket contract, bit for bit: one bucket per distinct Euclidean
    start, ascending, each with the count, the left-to-right IEEE sum, the
    NaN-ignoring minimum and maximum seeded by the first sample and the newest
    sample of exactly the samples that fall in it. The only failure is the
    overflow error, raised exactly when the first (least) timestamp's bucket
    would start below [i64::MIN]. *)
Theorem rollup_exact (samples : list (Z * f64)) (R : Z) :
  0 < R -> ts_ascending samples -> Forall (fun p => is_i64 p.1) samples ->
  rollup_buckets samples R =
    match samples with
    | (ts, _) :: _ =>
      if start R ts <? i64_min
      then Err (Fmt "rollup bucket timestamp overflows for ts {ts} at resolution {resolution}"
                  [FNum ts; FNum R])
      else Ok (naive_buckets R samples)
    | [] => Ok []
    end.
Proof.
  intros HR Hs Hi. destruct samples as [|[ts val] rest]; [done|].
  destruct (Z.ltb_spec (start R ts) i64_min); [|by apply rollup_ok].
  apply rollup_overflow; [done|by inversion Hi|done].
Qed.

(** ** Coarser tiers from finer ones *)

Section Tiers.
Context (R : Z) (HR : 0 < R).

(** Ascending samples are their buckets' samples, one bucket after another. *)
Lemma samples_concat samples :
  ts_ascending samples ->
  concat (map (fun B => samples_of R B samples) (starts R samples)) = samples.
Proof.
  induction samples as [|[ts val] samples IH] using rev_ind; [done|]. intros Hs.
  pose proof (starts_le R HR _ _ (ts_ascending_split _ _ _ Hs)) as Hall.
  assert (ts_ascending samples) as Hs' by (by apply StronglySorted_app_1_l in Hs).
  specialize (IH Hs'). pose proof (starts_wf R samples) as Hwf. cbn [fst] in Hall.
  assert (forall l, Forall (fun B => B < start R ts) l ->
    map (fun B => samples_of R B (samples ++ [(ts, val)])) l = map (fun B => samples_of R B samples) l)
    as Hmap.
  { intros l Hl. apply list_fmap_ext. intros i B Hi. rewrite samples_of_snoc. cbn [fst].
    rewrite Forall_lookup in Hl. apply Hl in Hi. destruct (decide _); [lia|done]. }
  rewrite starts_snoc. cbn [fst].
  destruct (decide (start R ts ∈ starts R samples)) as [Hin|Hout].
  - rewrite bts_insert_mem by done.
    destruct (starts R samples) as [|B0 l0 _] eqn:Es using rev_ind; [by apply not_elem_of_nil in Hin|].
    apply Forall_app in Hall as [_ HB0]. inversion_clear HB0 as [|? ? HB0' _].
    pose proof (bts_wf_snoc _ _ Hwf) as Hlt. assert (B0 = start R ts) as ->.
    { apply elem_of_app in Hin as [Hin|Hin]; [|by apply list_elem_of_singleton in Hin].
      rewrite Forall_forall in Hlt. apply Hlt in Hin. change (start R ts < B0) in Hin. lia. }
    rewrite map_app, concat_app, (Hmap l0) by exact Hlt. rewrite map_app, concat_app in IH.
    simpl in *. rewrite samples_of_snoc. cbn [fst]. destruct (decide _); [|done].
    rewrite List.app_nil_r in *. by rewrite List.app_assoc, IH.
  - assert (Forall (fun B => B < start R ts) (starts R samples)) as Hlt.
    { rewrite Forall_forall in Hall |- *. intros B HB. specialize (Hall B HB).
      assert (B <> start R ts) by (intros ->; done). lia. }
    rewrite bts_insert_last, map_app, concat_app, Hmap, IH by done.
    simpl. rewrite samples_of_snoc. cbn [fst]. destruct (decide _); [|done].
    destruct (samples_of R (start R ts) samples) eqn:E; [done|].
    destruct Hout. apply elem_of_starts. by rewrite E.
Qed.

Context (R2 : Z) (HR2 : 0 < R2) (Hdiv : (R | R2)).

Lemma start_start ts : start R2 (start R ts) = start R2 ts.
Proof.
  destruct Hdiv as [k ->]. unfold start. f_equal.
  assert (0 < k) by nia. rewrite (Z.mul_comm k R), <-!Z.div_div by lia. by rewrite Z.div_mul by lia.
Qed.

(** The samples of a coarse bucket are the samples of the fine buckets inside it. *)
Lemma coarse_samples samples B :
  ts_ascending samples ->
  samples_of R2 B samples =
    concat (map (fun b => samples_of R b samples) (filter (fun b => start R2 b = B) (starts R samples))).
Proof.
  intros Hs. rewrite <-(samples_concat samples Hs) at 1.
  generalize (starts R samples). intros l. unfold samples_of at 1.
  induction l as [|b l IH]; simpl; [done|]. rewrite filter_app, IH.
  assert (forall p, p ∈ samples_of R b samples -> start R2 p.1 = start R2 b) as Hp.
  { intros p Hp. apply list_elem_of_filter in Hp as [<- _]. by rewrite start_start. }
  rewrite filter_cons. destruct (decide (start R2 b = B)) as [Hb|Hb]; simpl.
  - f_equal. apply list_filter_all. apply Forall_forall. intros p Hin. by rewrite Hp.
  - rewrite list_filter_none; [done|]. apply Forall_forall. intros p Hin. by rewrite Hp.
Qed.
End Tiers.

Lemma naive_samples R samples b :
  b ∈ naive_buckets R samples -> b = bucket_of_samples R (bucket_ts b) samples /\
    bucket_ts b ∈ starts R samples.
Proof. intros Hb. apply list_elem_of_fmap in Hb as (B & -> & HB). done. Qed.

Lemma sum_counts R samples l :
  sum_list_with (fun b => Z.to_nat (count b)) (map (fun B => bucket_of_samples R B samples) l) =
  length (concat (map (fun B => samples_of R B samples) l)).
Proof.
  induction l as [|B l IH]; [done|]. cbn. rewrite length_app, <-IH. f_equal. apply Nat2Z.id.
Qed.

Lemma last_concat {A} (ls : list (list A)) l : last ls = Some l -> l <> [] -> last (concat ls) = last l.
Proof.
  intros H Hl. apply last_Some in H as [ls' ->]. rewrite concat_app. simpl. rewrite List.app_nil_r.
  rewrite last_app. destruct (last l) eqn:E; [done|]. by apply last_None in E.
Qed.

(** A fold of an associative operation over the parts is the fold over the whole. *)
Lemma fold1_cons f x l : l <> [] -> (forall a b c, f (f a b) c = f a (f b c)) -> fold1 f (x :: l) = f x (fold1 f l).
Proof.
  intros Hl Ha. destruct l as [|y l]; [done|]. clear Hl. cbn [fold1 fold_left]. revert y.
  induction l as [|z l IH]; intros y; [done|]. cbn [fold_left]. by rewrite Ha, IH.
Qed.

Lemma fold1_app f a b :
  a <> [] -> b <> [] -> (forall x y z, f (f x y) z = f x (f y z)) -> fold1 f (a ++ b) = f (fold1 f a) (fold1 f b).
Proof.
  intros Ha Hb Hf. induction a as [|x [|y a] IH]; [done|by apply fold1_cons|].
  rewrite (fold1_cons f x (y :: a)) by done. cbn [app].
  rewrite (fold1_cons f x (y :: a ++ b)) by done. change (y :: a ++ b) with ((y :: a) ++ b). by rewrite IH, Hf by done.
Qed.

Lemma fold1_concat f (ls : list (list f64)) :
  Forall (fun l => l <> []) ls -> (forall x y z, f (f x y) z = f x (f y z)) ->
  fold1 f (concat ls) = fold1 f (map (fold1 f) ls).
Proof.
  intros Hls Hf. induction Hls as [|l ls Hl Hls IH]; [done|]. cbn [concat map].
  destruct ls as [|l2 ls]; [by rewrite List.app_nil_r|]. inversion_clear Hls.
  rewrite fold1_app; [|done|by destruct l2|done]. rewrite IH. symmetry. by apply fold1_cons.
Qed.

Lemma concat_snd (ls : list (list (Z * f64))) : (concat ls).*2 = concat (map (fun l => l.*2) ls).
Proof. induction ls as [|l ls IH]; [done|]. cbn [concat map]. by rewrite fmap_app, IH. Qed.

(** A coarse bucket as the aggregate of the parts its fine buckets aggregate. *)
Lemma aggregate_parts B (bs : list Z) (part : Z -> list (Z * f64)) :
  bs <> [] -> Forall (fun b => part b <> []) bs ->
  let fine := map (fun b => aggregate b (part b)) bs in
  let c := aggregate B (concat (map part bs)) in
  count c = Z.of_nat (sum_list_with (fun b => Z.to_nat (count b)) fine) /\
  rb_min c = fold1 f64_min (map rb_min fine) /\ rb_max c = fold1 f64_max (map rb_max fine) /\
  exists newest, last fine = Some newest /\ last_ts c = last_ts newest /\ last_val c = last_val newest.
Proof.
  intros Hne Hp fine c.
  assert (Forall (fun l => l <> []) (map (fun l : list (Z * f64) => l.*2) (map part bs))) as Hparts.
  { rewrite !Forall_map. eapply Forall_impl; [exact Hp|]. intros b Hb Hn. by apply fmap_nil_inv in Hn. }
  split_and!.
  - unfold c, fine, aggregate. cbn [count]. f_equal. clear. induction bs as [|b bs IH]; [done|].
    cbn [map concat sum_list_with count]. by rewrite length_app, IH, Nat2Z.id.
  - unfold c, fine, aggregate. cbn [rb_min]. rewrite concat_snd, fold1_concat, !map_map; [done|done|apply f64_min_assoc].
  - unfold c, fine, aggregate. cbn [rb_max]. rewrite concat_snd, fold1_concat, !map_map; [done|done|apply f64_max_assoc].
  - destruct (last bs) as [b|] eqn:Eb; [|by apply last_None in Eb].
    exists (aggregate b (part b)). split; [unfold fine; by rewrite fmap_last, Eb|].
    unfold c, aggregate. cbn [last_ts last_val]. rewrite (last_concat _ (part b)); [done|by rewrite fmap_last, Eb|].
    rewrite Forall_forall in Hp. by apply Hp, last_Some_elem_of.
Qed.

(** C17: A coarser tier can be rolled from a finer one, as the ladder's
    divisibility rule intends. When the fine resolution divides the coarse one, each
    coarse bucket is, in every field, the aggregate of the samples of the fine
    buckets that start inside it, one after another; each of those is the aggregate
    of its own samples; and no sample is lost or counted twice. So the coarse count
    is the sum of theirs, its minimum and maximum are theirs folded, bit for bit,
    and its newest sample is the newest of the last of them; its sum is the
    left-to-right sum over the samples, of which float addition makes no function of
    the fine sums. *)
Theorem coarse_tier_from_fine (samples : list (Z * f64)) (R1 R2 : Z) (fine coarse : list RollupBucket) :
  0 < R1 -> 0 < R2 -> (R1 | R2) ->
  ts_ascending samples -> Forall (fun p => is_i64 p.1) samples ->
  rollup_buckets samples R1 = Ok fine -> rollup_buckets samples R2 = Ok coarse ->
  let parts bs := concat (map (fun b => samples_of R1 (bucket_ts b) samples) bs) in
  parts fine = samples /\ Forall (fun b => b = aggregate (bucket_ts b) (parts [b])) fine /\
  sum_list_with (fun b => Z.to_nat (count b)) coarse = length samples /\
  Forall (fun c =>
    let inside := filter (fun b => start R2 (bucket_ts b) = bucket_ts c) fine in
    c = aggregate (bucket_ts c) (parts inside) /\
    count c = Z.of_nat (sum_list_with (fun b => Z.to_nat (count b)) inside) /\
    rb_min c = fold1 f64_min (map rb_min inside) /\ rb_max c = fold1 f64_max (map rb_max inside) /\
    exists newest, last inside = Some newest /\
      last_ts c = last_ts newest /\ last_val c = last_val newest) coarse.
Proof.
  intros H1 H2 Hd Hs Hi Hf Hc parts.
  apply rollup_ok_inv in Hf as ->; [|done..]. apply rollup_ok_inv in Hc as ->; [|done..].
  assert (forall l, parts (map (fun b => bucket_of_samples R1 b samples) l) = concat (map (fun b => samples_of R1 b samples) l))
    as Hparts by (intros l; unfold parts; by rewrite map_map).
  split_and!.
  - unfold naive_buckets. rewrite Hparts. by apply samples_concat.
  - unfold naive_buckets, parts. rewrite Forall_map. apply Forall_true. intros b. cbn. by rewrite List.app_nil_r.
  - unfold naive_buckets. by rewrite sum_counts, samples_concat.
  - apply Forall_forall. intros c Hc inside. apply naive_samples in Hc as [Hc Hin].
    set (B := bucket_ts c) in *. clearbody B. set (l := filter (fun b => start R2 b = B) (starts R1 samples)).
    assert (inside = map (fun b => bucket_of_samples R1 b samples) l) as ->.
    { unfold inside, l, naive_buckets. induction (starts R1 samples) as [|b l' IH]; [done|]. simpl.
      rewrite !filter_cons. simpl. destruct (decide (start R2 b = B)); simpl; by rewrite IH. }
    pose proof (coarse_samples R1 H1 R2 H2 Hd samples B Hs) as Hcs. fold l in Hcs.
    rewrite Hparts, <-Hcs. split; [done|]. subst c. unfold bucket_of_samples. rewrite Hcs.
    apply (aggregate_parts B l (fun b => samples_of R1 b samples)).
    + intros Hnil. apply elem_of_starts in Hin. by rewrite Hcs, Hnil in Hin.
    + apply Forall_forall. intros b Hb. apply list_elem_of_filter in Hb as [_ Hb]. by apply elem_of_starts.
Qed.

(** ** Payload round trip *)

Definition bucket_ok (b : RollupBucket) : Prop :=
  is_i64 (bucket_ts b) /\ is_u64 (count b) /\ is_f64 (rb_sum b) /\ is_f64 (rb_min b) /\
  is_f64 (rb_max b) /\ is_i64 (last_ts b) /\ is_f64 (last_val b).

Definition rollup_cols (buckets : list RollupBucket) : list (list byte) :=
  map (fun enc : RollupBucket -> list byte => concat (map enc buckets))
    [fun b => i64_le (bucket_ts b); fun b => u64_le (count b); fun b => f64_le (rb_sum b);
     fun b => f64_le (rb_min b); fun b => f64_le (rb_max b); fun b => i64_le (last_ts b);
     fun b => f64_le (last_val b)].

Lemma rollup_raw_cols buckets :
  rollup_raw buckets = u32_le (Z.of_nat (length buckets)) ++ concat (rollup_cols buckets).
Proof. unfold rollup_raw, rollup_cols. simpl. by rewrite List.app_nil_r. Qed.

Lemma rollup_cols_length buckets :
  length (rollup_cols buckets) = 7%nat /\
  Forall (fun c => length c = (8 * length buckets)%nat) (rollup_cols buckets).
Proof.
  split; [done|]. unfold rollup_cols.
  repeat (constructor; [rewrite (concat_const_length _ 8) by (intros; cbv beta; auto with wire); lia|]). constructor.
Qed.

Lemma concat_uniform {A} k (ls : list (list A)) :
  Forall (fun c => length c = k) ls -> length (concat ls) = (length ls * k)%nat.
Proof. induction 1 as [|c ls Hc _ IH]; simpl; [done|]. rewrite length_app. lia. Qed.

(** Fixed-width pieces sit at the multiples of the width. *)
Lemma slice_concat {A} k (ls : list (list A)) i c :
  Forall (fun c => length c = k) ls -> ls !! i = Some c ->
  take k (drop (k * i) (concat ls)) = c.
Proof.
  intros Hls. revert i. induction Hls as [|d ls Hd _ IH]; intros [|i] Hi; simpl in *; [done..| |].
  - injection Hi as <-. rewrite Nat.mul_0_r, drop_0. by apply take_app_length'.
  - replace (k * S i)%nat with (k + k * i)%nat by lia.
    rewrite <-drop_drop, drop_app_length' by done. by apply IH.
Qed.

Lemma concat_slices {A} k n (l : list A) :
  length l = (k * n)%nat -> concat (map (fun i => take k (drop (k * i) l)) (seq 0 n)) = l.
Proof.
  revert l. induction n as [|n IH]; intros l Hl.
  { destruct l; [done|]. simpl in Hl. lia. }
  simpl. rewrite Nat.mul_0_r, drop_0, <-seq_shift, map_map.
  rewrite <-(take_drop k l) at 2. f_equal.
  rewrite <-(IH (drop k l)) at 1 by (rewrite length_drop; lia). f_equal.
  apply map_ext. intros i. rewrite drop_drop. do 2 f_equal. lia.
Qed.

(** Word [i] of column [k] of a raw payload. *)
Lemma word_at_col (h : list byte) cols n k i col :
  length h = 4%nat -> Forall (fun c => length c = (8 * n)%nat) cols -> cols !! k = Some col ->
  (i < n)%nat -> word_at (h ++ concat cols) (4 + n * 8 * k) i = take 8 (drop (8 * i) col).
Proof.
  intros Hh Hc Hk Hi. unfold word_at.
  pose proof (slice_concat _ _ _ _ Hc Hk) as Hs. rewrite <-Hs.
  replace (4 + n * 8 * k + i * 8)%nat with (4 + (8 * n * k + 8 * i))%nat by lia.
  rewrite <-drop_drop, drop_app_length' by done.
  rewrite <-drop_drop. rewrite (take_drop_commute _ 8 (8 * i)), (take_drop_commute _ 8 (8 * i)), take_take.
  do 2 f_equal. lia.
Qed.

Lemma rollup_bucket_at buckets i b :
  Forall bucket_ok buckets -> buckets !! i = Some b ->
  bucket_at (rollup_raw buckets) (length buckets) i = b.
Proof.
  intros Hb Hi. pose proof (rollup_cols_length buckets) as [_ Hc].
  assert (bucket_ok b) as (H0 & H1 & H2 & H3 & H4 & H5 & H6)
    by (rewrite Forall_lookup in Hb; by eapply Hb).
  assert (forall k (enc : RollupBucket -> list byte),
    rollup_cols buckets !! k = Some (concat (map enc buckets)) ->
    (forall x, length (enc x) = 8%nat) ->
    word_at (rollup_raw buckets) (4 + length buckets * 8 * k) i = enc b) as Hw.
  { intros k enc Hk He. rewrite rollup_raw_cols.
    rewrite (word_at_col _ _ _ _ _ _ (length_u32_le _) Hc Hk) by (by eapply lookup_lt_Some).
    apply slice_concat; [|by rewrite list_lookup_fmap, Hi]. apply Forall_fmap, Forall_forall. auto. }
  unfold bucket_at.
  rewrite (Hw 0%nat _ eq_refl), (Hw 1%nat _ eq_refl), (Hw 2%nat _ eq_refl), (Hw 3%nat _ eq_refl),
    (Hw 4%nat _ eq_refl), (Hw 5%nat _ eq_refl), (Hw 6%nat _ eq_refl) by (intros; cbv beta; auto with wire).
  rewrite !i64_from_le_bytes, !f64_from_le_bytes, le_val_u64 by done. by destruct b.
Qed.

Lemma rollup_raw_length buckets : length (rollup_raw buckets) = (4 + 56 * length buckets)%nat.
Proof.
  pose proof (rollup_cols_length buckets) as [Hl Hc].
  rewrite rollup_raw_cols, length_app, length_u32_le, (concat_uniform _ _ Hc), Hl. lia.
Qed.

Section RawInverse.
Context (h : list byte) (cols : list (list byte)) (n : nat).
Context (Hh : length h = 4%nat) (Hcols : Forall (fun c => length c = (8 * n)%nat) cols).
Let raw := h ++ concat cols.

Lemma raw_word_length k i c :
  cols !! k = Some c -> (i < n)%nat -> length (word_at raw (4 + n * 8 * k) i) = 8%nat.
Proof.
  intros Hk Hi. unfold raw. rewrite (word_at_col _ _ _ _ _ _ Hh Hcols Hk Hi).
  rewrite Forall_lookup in Hcols. specialize (Hcols _ _ Hk). autorewrite with wire. lia.
Qed.

(** Encoding the words decoded from a column gives the column. *)
Lemma raw_column {A} (enc : A -> list byte) (dec : list byte -> A) k c :
  (forall w, length w = 8%nat -> enc (dec w) = w) -> cols !! k = Some c ->
  concat (map (fun i => enc (dec (word_at raw (4 + n * 8 * k) i))) (seq 0 n)) = c.
Proof.
  intros He Hk. assert (length c = (8 * n)%nat) as Hc by (rewrite Forall_lookup in Hcols; eauto).
  rewrite <-(concat_slices 8 n c Hc). f_equal. apply list_fmap_ext.
  intros j i Hi. apply lookup_seq in Hi as [-> Hi]. rewrite He by (by eapply raw_word_length).
  by apply word_at_col.
Qed.

Context (H7 : length cols = 7%nat).
Let buckets := map (bucket_at raw n) (seq 0 n).

Lemma raw_columns : rollup_cols buckets = cols.
Proof.
  assert (exists c0 c1 c2 c3 c4 c5 c6, cols = [c0; c1; c2; c3; c4; c5; c6])
    as (c0 & c1 & c2 & c3 & c4 & c5 & c6 & E).
  { clear -H7. destruct cols as [|c0 [|c1 [|c2 [|c3 [|c4 [|c5 [|c6 [|]]]]]]]]; try discriminate H7.
    by repeat eexists. }
  unfold rollup_cols, buckets. cbn [map]. rewrite !map_map. unfold bucket_at.
  cbn [bucket_ts count rb_sum rb_min rb_max last_ts last_val].
  rewrite (raw_column i64_le i64_from_le 0 c0), (raw_column u64_le le_val 1 c1),
    (raw_column f64_le f64_from_le 2 c2), (raw_column f64_le f64_from_le 3 c3),
    (raw_column f64_le f64_from_le 4 c4), (raw_column i64_le i64_from_le 5 c5),
    (raw_column f64_le f64_from_le 6 c6); try done; try (by rewrite E);
    auto using i64_le_word, u64_le_word, f64_le_word.
Qed.

Lemma raw_buckets_ok : Forall bucket_ok buckets.
Proof.
  apply Forall_fmap, Forall_forall. intros i Hi%elem_of_seq. cbn [compose].
  assert (forall k, (k < 7)%nat -> length (word_at raw (4 + n * 8 * k) i) = 8%nat) as Hw.
  { intros k Hk. destruct (lookup_lt_is_Some_2 cols k) as [c Hc]; [lia|].
    eapply raw_word_length; [done|lia]. }
  unfold bucket_ok, bucket_at. cbn [bucket_ts count rb_sum rb_min rb_max last_ts last_val].
  repeat split; try apply f64_from_le_ok; try apply (le_val_word _); try apply wrap_i64_range;
    apply Hw; lia.
Qed.
End RawInverse.

Section PayloadLaws.
Context `{ZS : Zstd}.

(** The size arithmetic never overflows for a u32 count. *)
Lemma rollup_size n :
  0 <= n <= u32_max ->
  match usize_checked_mul n 56 with Some body => usize_checked_add body 4 | None => None end
  = Some (n * 56 + 4).
Proof.
  unfold u32_max, usize_checked_mul, usize_checked_add, usize_max. intros Hn.
  destruct (Z.leb_spec (n * 56) (2 ^ 64 - 1)); [|lia].
  by destruct (Z.leb_spec (n * 56 + 4) (2 ^ 64 - 1)); [|lia].
Qed.

Lemma decode_raw_round payload buckets :
  zstd_bulk_decompress payload (64 * 2 ^ 20) = Ok (rollup_raw buckets) ->
  Forall bucket_ok buckets -> Z.of_nat (length buckets) <= u32_max ->
  decode_rollup_payload payload = Ok buckets.
Proof.
  intros Hz Hb Hn. unfold decode_rollup_payload. rewrite Hz. cbn [map_err]. rewrite rollup_raw_length.
  destruct (Nat.ltb_spec (4 + 56 * length buckets) 4); [lia|].
  assert (take 4 (rollup_raw buckets) = u32_le (Z.of_nat (length buckets))) as ->.
  { rewrite rollup_raw_cols. apply take_app_length'. auto with wire. }
  rewrite le_val_u32, rollup_size by (unfold is_u32; lia). cbn [ok_or].
  destruct (Z.eqb_spec (Z.of_nat (4 + 56 * length buckets)) (Z.of_nat (length buckets) * 56 + 4)); [|lia].
  cbn [negb]. rewrite Nat2Z.id. f_equal. apply list_eq_same_length with (length buckets); [done| |].
  { by rewrite length_map, length_seq. }
  intros i x y Hi Hx Hy. rewrite list_lookup_fmap in Hx.
  rewrite lookup_seq_lt in Hx by done. injection Hx as <-. by apply rollup_bucket_at.
Qed.

Lemma decode_raw_inv payload buckets :
  decode_rollup_payload payload = Ok buckets ->
  zstd_bulk_decompress payload (64 * 2 ^ 20) = Ok (rollup_raw buckets) /\
  Forall bucket_ok buckets /\ Z.of_nat (length buckets) <= u32_max.
Proof.
  unfold decode_rollup_payload. destruct (zstd_bulk_decompress _ _) as [raw|]; [|done]. cbn [map_err].
  destruct (Nat.ltb_spec (length raw) 4) as [|Hl4]; [done|].
  assert (length (take 4 raw) = 4%nat) as Hh by (rewrite length_take; lia).
  pose proof (le_val_range (take 4 raw)) as Hn. rewrite Hh in Hn. change (8 * Z.of_nat 4) with 32 in Hn.
  set (n := Z.to_nat (le_val (take 4 raw))). assert (le_val (take 4 raw) = Z.of_nat n) as Hnz by lia.
  rewrite rollup_size by (unfold u32_max; lia). cbn [ok_or].
  destruct (Z.eqb_spec (Z.of_nat (length raw)) (le_val (take 4 raw) * 56 + 4)) as [Hl|]; [|done].
  cbn [negb]. intros [= Hb].
  set (cols := map (fun k => take (8 * n) (drop (8 * n * k) (drop 4 raw))) (seq 0 7)).
  assert (length (drop 4 raw) = 8 * n * 7)%nat as Hbody by (rewrite length_drop; lia).
  assert (raw = take 4 raw ++ concat cols) as Hraw.
  { unfold cols. rewrite concat_slices by done. symmetry. apply take_drop. }
  assert (Forall (fun c => length c = (8 * n)%nat) cols) as Hcols.
  { unfold cols. apply Forall_fmap, Forall_forall. intros k Hk%elem_of_seq. cbn [compose].
    assert (8 * n * k <= 8 * n * 6)%nat by (apply Nat.mul_le_mono_l; lia).
    rewrite length_take, (length_drop (drop 4 raw)), Hbody. lia. }
  pose proof (raw_columns _ _ _ Hh Hcols eq_refl) as Hc. pose proof (raw_buckets_ok _ _ _ Hh Hcols eq_refl) as Hok.
  rewrite <-Hraw, Hb in Hc, Hok.
  assert (length buckets = n) as Hlen by (rewrite <-Hb, length_map, length_seq; done).
  split_and!; [|done|unfold u32_max; lia].
  by rewrite rollup_raw_cols, Hc, Hlen, <-Hnz, u32_le_val, <-Hraw by done.
Qed.

Context `{ZL : !ZstdLaws}.

(** C18: Rollup payloads round-trip bit-exactly. Every bucket list whose raw form
    fits the 64 MiB decompression cap decodes, from whatever [encode_rollup_payload]
    produced, to itself, NaN payloads included; encoding refuses nothing but a
    compressor failure on such a list; and the decoder accepts a payload only if
    it is the raw form of exactly the buckets it returns. *)
Theorem rollup_payload_round_trip (buckets : list RollupBucket) (payload : list byte) :
  (Forall bucket_ok buckets -> 4 + 56 * Z.of_nat (length buckets) <= 64 * 2 ^ 20 ->
   match encode_rollup_payload buckets with
   | Ok p => decode_rollup_payload p = Ok buckets
   | Err e => exists z, e = Fmt "rollup payload compression failed: {e}" [FErr z]
   end) /\
  (decode_rollup_payload payload = Ok buckets ->
   Forall bucket_ok buckets /\ zstd_bulk_decompress payload (64 * 2 ^ 20) = Ok (rollup_raw buckets)).
Proof.
  split.
  - intros Hb Hcap. unfold encode_rollup_payload, usize_checked_mul, usize_max.
    destruct (Z.leb_spec (Z.of_nat (length buckets) * 56) (2 ^ 64 - 1)); [|lia]. cbn [ok_or].
    destruct (Z.ltb_spec u32_max (Z.of_nat (length buckets))); [unfold u32_max in *; lia|].
    destruct (zstd_bulk_compress _ _) as [p|e] eqn:E; cbn [map_err]; [|by eexists].
    apply decode_raw_round; [|done|done]. eapply zstd_round_trip; [done|]. rewrite rollup_raw_length. lia.
  - intros H. apply decode_raw_inv in H as (? & ? & _). done.
Qed.
End PayloadLaws.

(** ** Ladders *)

(** The storage form of a ladder: ["300:2592000,3600:0"]. *)
Definition show_tier (t : RollupTier) : str :=
  show_i64 (resolution t) ++ x3a :: show_i64 (retention t).

Definition tier_ok (t : RollupTier) : Prop :=
  0 < resolution t <= i64_max /\ 0 <= retention t <= i64_max.
Definition tier_step (a b : RollupTier) : Prop :=
  resolution a < resolution b /\ (resolution a | resolution b).

(** Positive resolutions, each strictly above and a multiple of every earlier
    one, and non-negative retentions. *)
Definition ladder_wf (ts : list RollupTier) : Prop :=
  Forall tier_ok ts /\ StronglySorted tier_step ts.

#[global] Instance tier_step_trans : Transitive tier_step.
Proof. intros a b c [? ?] [? ?]. split; [lia|]. by transitivity (resolution b). Qed.

Definition prev_ok (prev : option RollupTier) (t : RollupTier) : Prop :=
  match prev with Some p => tier_step p t | None => True end.

Lemma parse_tier_inv prev part t :
  (forall p, prev = Some p -> tier_ok p) -> parse_tier prev part = Ok t -> tier_ok t /\ prev_ok prev t.
Proof.
  intros Hp. unfold parse_tier. destruct (split_once _ _) as [[res ret]|]; [|done]. cbn [ok_or].
  destruct (parse_i64 (trim res)) as [r|] eqn:Er; [|done]. cbn [ok_or].
  destruct (parse_i64 (trim ret)) as [k|] eqn:Ek; [|done]. cbn [ok_or].
  apply parse_i64_range in Er, Ek. unfold is_i64 in *.
  destruct (Z.leb_spec r 0); [done|]. destruct (Z.ltb_spec k 0); [done|].
  destruct prev as [p|]; simpl; [|intros [= <-]; unfold tier_ok; simpl; lia].
  specialize (Hp p eq_refl). unfold tier_ok in Hp.
  destruct (Z.leb_spec r (resolution p)); [done|]. simpl.
  destruct (Z.eqb_spec (Z.rem r (resolution p)) 0) as [Hr|]; [|done].
  intros [= <-]. unfold tier_ok, tier_step. simpl. split; [lia|]. split; [done|].
  by apply Z.rem_divide; [lia|].
Qed.

Lemma ladder_go_inv parts : forall prev ts,
  (forall p, prev = Some p -> tier_ok p) -> ladder_go prev parts = Ok ts ->
  ladder_wf ts /\ Forall (prev_ok prev) ts.
Proof.
  unfold ladder_wf. induction parts as [|part parts IH]; intros prev ts Hp; simpl.
  { intros [= <-]. repeat constructor. }
  destruct (trim part) as [|c s] eqn:Et; [by apply IH|].
  destruct (parse_tier prev _) as [t|] eqn:E; [|done].
  destruct (ladder_go (Some t) parts) as [ts'|] eqn:E'; [|done]. intros [= <-].
  apply parse_tier_inv in E as [Ht Hpt]; [|done].
  apply IH in E' as [[Hok Hs] Hall]; [|by intros ? [= <-]].
  split; [split; by constructor|]. constructor; [done|].
  eapply Forall_impl; [exact Hall|]. intros t' Ht'. destruct prev; [|done]. simpl in *. by etransitivity.
Qed.

Lemma show_tier_solid t : tier_ok t -> Forall (fun c => solid c = true) (show_tier t).
Proof.
  intros [Hr Hk]. unfold show_tier. apply Forall_app. split.
  - eapply Forall_impl; [apply show_i64_digits; lia|]. intros. by apply digit_solid.
  - constructor; [done|]. eapply Forall_impl; [apply show_i64_digits; lia|].
    intros. by apply digit_solid.
Qed.

Lemma show_tier_no_comma t : tier_ok t -> x2c ∉ show_tier t.
Proof.
  intros [Hr Hk]. unfold show_tier. rewrite not_elem_of_app, not_elem_of_cons.
  split_and!; [|done|]; apply digits_free; try done; apply show_i64_digits; lia.
Qed.

Lemma parse_show_tier prev t :
  tier_ok t -> prev_ok prev t -> (forall p, prev = Some p -> tier_ok p) ->
  parse_tier prev (show_tier t) = Ok t.
Proof.
  intros Ht Hp Hpo. pose proof Ht as [Hr Hk]. unfold parse_tier, show_tier.
  assert (forall z, 0 <= z -> trim (show_i64 z) = show_i64 z) as Htrim.
  { intros z Hz. apply trim_solid. eapply Forall_impl; [by apply show_i64_digits|].
    intros. by apply digit_solid. }
  rewrite split_once_app by (apply digits_free; [done|apply show_i64_digits; lia]). cbn [ok_or].
  rewrite !Htrim, !parse_show_i64 by (unfold is_i64, i64_min in *; lia). cbn [ok_or].
  destruct (Z.leb_spec (resolution t) 0); [lia|]. destruct (Z.ltb_spec (retention t) 0); [lia|].
  destruct t as [r k]. destruct prev as [p|]; [|done]. destruct Hp as [Hlt Hd]. simpl in *.
  destruct (Hpo p eq_refl) as [? _]. destruct (Z.leb_spec r (resolution p)); [lia|]. simpl.
  apply Z.rem_divide in Hd; [|lia]. by rewrite Hd.
Qed.

(** A printed tier is parsed back or refused for its place in the ladder. *)
Lemma parse_show_tier_ok prev t t' :
  tier_ok t -> parse_tier prev (show_tier t) = Ok t' -> t' = t.
Proof.
  intros Ht. pose proof (parse_show_tier None t Ht I ltac:(done)) as Hn. revert Hn. unfold parse_tier.
  destruct (split_once _ _) as [[res ret]|]; [|done]. cbn [ok_or].
  destruct (parse_i64 (trim res)); [|done]. destruct (parse_i64 (trim ret)); [|done]. cbn [ok_or].
  intros Hn H. inv_ok Hn. rewrite Hn in H. by destruct prev; inv_ok H.
Qed.

Lemma ladder_go_show_inv ts : forall prev ts',
  Forall tier_ok ts -> ladder_go prev (map show_tier ts) = Ok ts' -> ts' = ts.
Proof.
  induction ts as [|t ts IH]; intros prev ts' Hok; simpl; [by intros [= <-]|].
  inversion_clear Hok as [|? ? Ht Hok'].
  rewrite trim_solid by (by apply show_tier_solid).
  destruct (show_tier t) eqn:E; [by unfold show_tier in E; destruct (show_i64 (resolution t))|].
  rewrite <-E. intros H. inv_ok H. apply parse_show_tier_ok in E0 as ->; [|done].
  apply IH in E1 as ->; [|done]. done.
Qed.

Lemma ladder_go_show ts : forall prev,
  (forall p, prev = Some p -> tier_ok p) -> ladder_wf ts -> Forall (prev_ok prev) ts ->
  ladder_go prev (map show_tier ts) = Ok ts.
Proof.
  induction ts as [|t ts IH]; intros prev Hp [Hok Hs] Hall; simpl; [done|].
  inversion_clear Hok as [|? ? Ht Hok']. inversion_clear Hs as [|? ? Hs' Ht'].
  inversion_clear Hall as [|? ? Hpt _].
  rewrite trim_solid by (by apply show_tier_solid).
  destruct (show_tier t) eqn:E.
  { unfold show_tier in E. by destruct (show_i64 (resolution t)). }
  rewrite <-E, parse_show_tier by done. rewrite IH; [done| | |done]; [by intros ? [= <-]|done].
Qed.

Lemma parse_ladder_show ts :
  ladder_wf ts -> parse_ladder (join x2c (map show_tier ts)) = Ok ts.
Proof.
  intros Hwf. unfold parse_ladder. destruct ts as [|t ts]; [done|].
  rewrite split_join; [|done|].
  - apply ladder_go_show; [done|done|]. apply Forall_forall. done.
  - apply Forall_fmap, Forall_forall. intros t' Ht'. apply show_tier_no_comma.
    destruct Hwf as [Hok _]. rewrite Forall_forall in Hok. by apply Hok.
Qed.

(** C35: The ladder parser returns well-formed ladders only (positive
    resolutions, strictly ascending, every finer one dividing every coarser one,
    retentions not negative, all within i64), and every well-formed ladder is
    read back exactly from its storage form. *)
Theorem ladder_storage_round_trip (ts : list RollupTier) (spec : str) :
  (parse_ladder spec = Ok ts -> ladder_wf ts) /\
  (ladder_wf ts -> parse_ladder (join x2c (map show_tier ts)) = Ok ts).
Proof.
  split; [|apply parse_ladder_show]. intros H. by apply (ladder_go_inv (split x2c spec) None).
Qed.
