(* ===== verification/TableArgs.v ===== *)
(** * Arguments of CREATE VIRTUAL TABLE

    [src/crates/timeless-ext/src/table_args.rs]: the [name='value'] splitter,
    the duration syntax, the rollup ladder argument and the [auto_optimize]
    count. The ladder argument is a client of [Rollup.parse_ladder]: what it
    persists is the storage form of the tiers it returns. *)
From Stdlib Require Import ZArith Lia Bool Strings.Byte.
From stdpp Require Import prelude list strings sorting.
From S2P Require Import Prelude RustStr Rollup.
Open Scope string_scope.
Open Scope list_scope.
Open Scope Z_scope.

Definition i64_saturating_mul (a b : Z) : Z := Z.max i64_min (Z.min i64_max (a * b)).

(** [strip_prefix(q).and_then(strip_suffix(q))]. *)
Definition unquote (q : byte) (value : str) : option str :=
  match strip_prefix q value with Some v => strip_suffix q v | None => None end.

Definition parse_kv_arg (raw : list byte) : result (str * str) :=
  let arg := trim (from_utf8_lossy raw) in
  match split_once x3d arg with
  | None => Err (Fmt "unrecognized argument {arg:?}; expected name='value'" [FBytes arg])
  | Some (name, value) =>
    let value := trim value in
    let value := match unquote x27 value with
                 | Some v => v
                 | None => match unquote x22 value with Some v => v | None => value end
                 end in
    Ok (trim name, value)
  end.

Definition parse_kv_args (args : list (list byte)) : result (list (str * str)) :=
  map_result parse_kv_arg args.

Definition native_unit (c : byte) (native_per_second : Z) : option Z :=
  if byte_eqb c x73 then Some native_per_second
  else if byte_eqb c x6d then Some (i64_saturating_mul native_per_second 60)
  else if byte_eqb c x68 then Some (i64_saturating_mul native_per_second 3600)
  else if byte_eqb c x64 then Some (i64_saturating_mul native_per_second 86400)
  else None.

Definition parse_retention (value : str) (native_per_second : Z) : result Z :=
  let value := trim value in
  match last value with
  | None => Err (Fmt "retention: empty value" [])
  | Some c =>
    let '(digits, per_unit) :=
      match native_unit c native_per_second with
      | Some u => (take (length value - 1) value, u)
      | None => (value, 1)
      end in
    let? n := ok_or (parse_i64 (trim digits))
      (Fmt "retention: expected <n>[s|m|h|d], got {value:?}" [FBytes value]) in
    if n <=? 0 then Err (Fmt "retention must be positive, got {value:?}" [FBytes value])
    else
      let? native := ok_or (i64_checked_mul n per_unit)
        (Fmt "retention {value:?} overflows the table's ts unit range" [FBytes value]) in
      if native <=? 0 then
        Err (Fmt "retention {value:?} overflows the table's ts unit range" [FBytes value])
      else Ok native
  end.

(** One tier of [rollups=]; [None] for a blank part. *)
Definition parse_rollup_part (native_per_second : Z) (tier : str) : result (option RollupTier) :=
  let tier := trim tier in
  match tier with
  | [] => Ok None
  | _ =>
    let? (res, ret) := ok_or (split_once x40 tier)
      (Fmt "rollups: tier {tier:?} — expected RESOLUTION@RETENTION" [FBytes tier]) in
    let? resolution := map_err (fun e => Fmt "rollups: tier {tier:?} resolution: {e}" [FBytes tier; FErr e])
      (parse_retention res native_per_second) in
    let other := trim ret in
    let? retention :=
      if bool_decide (other = $"0") || bool_decide (other = $"forever") then Ok 0
      else map_err (fun e => Fmt "rollups: tier {tier:?} retention: {e}" [FBytes tier; FErr e])
             (parse_retention other native_per_second) in
    Ok (Some (mkTier resolution retention))
  end.

Definition parse_rollups (value : str) (native_per_second : Z) : result (list RollupTier * str) :=
  let? parts := map_result (parse_rollup_part native_per_second) (split x2c value) in
  let spec := join x2c (map show_tier (omap id parts)) in
  let? tiers := map_err (fun e => Fmt "rollups: {e}" [FErr e]) (parse_ladder spec) in
  match tiers with
  | [] => Err (Fmt "rollups: empty ladder" [])
  | _ => Ok (tiers, spec)
  end.

Definition parse_auto_optimize (value : str) : result Z :=
  let value := trim value in
  if eq_ignore_ascii_case value ($"off") || bool_decide (value = $"0") then Ok 0
  else
    let? n := ok_or (parse_usize value)
      (Fmt "auto_optimize: expected 'off' or a positive flush count, got {value:?}" [FBytes value]) in
    if n =? 0 then Err (Fmt "auto_optimize: expected 'off' or a positive flush count" [])
    else Ok n.

Example kv_parsing :
  parse_kv_args [$"retention='30d'"; $"x= plain "; $"e="] =
  Ok [($"retention", $"30d"); ($"x", $"plain"); ($"e", [])].
Proof. reflexivity. Qed.
Example rollups_parsing :
  parse_rollups ($"5m@90d,1h@0") 1 = Ok ([mkTier 300 7776000; mkTier 3600 0], $"300:7776000,3600:0").
Proof. reflexivity. Qed.

(** ** Durations *)

Lemma parse_retention_range value nps r : parse_retention value nps = Ok r -> 0 < r <= i64_max.
Proof.
  unfold parse_retention. destruct (last (trim value)) as [c|]; [|done].
  destruct (match native_unit c nps with Some _ => _ | None => _ end) as [digits u].
  destruct (parse_i64 (trim digits)) as [n|]; [|done]. cbn [ok_or].
  destruct (Z.leb_spec n 0); [done|]. unfold i64_checked_mul.
  destruct (_ && _) eqn:E; [|done]. cbn [ok_or]. destruct (Z.leb_spec (n * u) 0); [done|].
  intros [= <-]. split_andb. rewrite Z.leb_le in *. lia.
Qed.

(** The duration suffixes and their seconds. *)
Definition unit_seconds (c : byte) : option Z :=
  if byte_eqb c x73 then Some 1 else if byte_eqb c x6d then Some 60
  else if byte_eqb c x68 then Some 3600 else if byte_eqb c x64 then Some 86400 else None.

Lemma native_unit_exact c nps k :
  unit_seconds c = Some k -> 0 < nps -> nps * 86400 <= i64_max -> native_unit c nps = Some (nps * k).
Proof.
  intros Hk H0 Hmax. unfold unit_seconds, native_unit in *.
  unfold i64_saturating_mul, i64_min, i64_max in *. repeat case_match; simplify_eq; f_equal; lia.
Qed.

Lemma unit_solid c k : unit_seconds c = Some k -> solid c = true /\ is_ascii_digit c = false /\ 0 < k.
Proof.
  unfold unit_seconds.
  destruct (byte_eqb_spec c x73) as [->|]; [by intros [= <-]|].
  destruct (byte_eqb_spec c x6d) as [->|]; [by intros [= <-]|].
  destruct (byte_eqb_spec c x68) as [->|]; [by intros [= <-]|].
  destruct (byte_eqb_spec c x64) as [->|]; [by intros [= <-]|done].
Qed.

Lemma digit_native_unit c nps : is_ascii_digit c = true -> native_unit c nps = None.
Proof.
  intros Hc. unfold native_unit.
  destruct (byte_eqb_spec c x73) as [->|]; [done|]. destruct (byte_eqb_spec c x6d) as [->|]; [done|].
  destruct (byte_eqb_spec c x68) as [->|]; [done|]. by destruct (byte_eqb_spec c x64) as [->|].
Qed.

Lemma trim_show n : 0 <= n -> trim (show_i64 n) = show_i64 n.
Proof.
  intros Hn. apply trim_solid. eapply Forall_impl; [by apply show_i64_digits|].
  intros. by apply digit_solid.
Qed.

(** The multiplication at the end of [parse_retention]. *)
Definition in_native (value : str) (n u : Z) : result Z :=
  if n * u <=? i64_max then Ok (n * u)
  else Err (Fmt "retention {value:?} overflows the table's ts unit range" [FBytes value]).

Lemma in_native_checked value n u e :
  0 < n -> 0 < u -> e = Fmt "retention {value:?} overflows the table's ts unit range" [FBytes value] ->
  (let? native := ok_or (i64_checked_mul n u) e in if native <=? 0 then Err e else Ok native) =
  in_native value n u.
Proof.
  intros Hn Hu ->. unfold in_native, i64_checked_mul, i64_min.
  destruct (Z.leb_spec (- 2 ^ 63) (n * u)); [|lia]. cbn [andb].
  destruct (Z.leb_spec (n * u) i64_max); cbn [ok_or]; [|done]. by destruct (Z.leb_spec (n * u) 0); [lia|].
Qed.

(** C36: A duration is converted exactly or refused: for a positive count, [<n>]
    is [n] native units and [<n>s|m|h|d] is [n] times the seconds of the unit
    times the table's native units per second when that product is an i64, the
    overflow error otherwise, never a wrapped value; and whatever the text, an
    accepted duration is a positive i64. *)
Theorem parse_retention_exact (n nps k r : Z) (c : byte) (value : str) :
  (0 < n <= i64_max -> 0 < nps -> nps * 86400 <= i64_max -> unit_seconds c = Some k ->
   parse_retention (show_i64 n) nps = Ok n /\
   parse_retention (show_i64 n ++ [c]) nps = in_native (show_i64 n ++ [c]) n (nps * k)) /\
  (parse_retention value nps = Ok r -> 0 < r <= i64_max).
Proof.
  split; [|apply parse_retention_range]. intros Hn Hnps Hmax Hk.
  destruct (unit_solid _ _ Hk) as (Hc & Hcd & Hkpos).
  pose proof (show_i64_digits n ltac:(lia)) as Hd. pose proof (trim_show n ltac:(lia)) as Ht.
  assert (parse_i64 (show_i64 n) = Some n) as Hp
    by (apply parse_show_i64; unfold is_i64, i64_min in *; lia).
  assert (trim (show_i64 n ++ [c]) = show_i64 n ++ [c]) as Htc.
  { apply trim_solid, Forall_app. split; [|by constructor].
    eapply Forall_impl; [exact Hd|]. intros. by apply digit_solid. }
  unfold parse_retention. rewrite Ht, Htc. split.
  - destruct (last (show_i64 n)) as [d|] eqn:El; [|by apply last_None in El; rewrite El in Hp].
    assert (is_ascii_digit d = true) as Hdd.
    { apply last_Some_elem_of in El. rewrite Forall_forall in Hd. by apply Hd. }
    rewrite digit_native_unit by done. rewrite Ht, Hp. cbn [ok_or].
    destruct (Z.leb_spec n 0); [lia|]. rewrite (in_native_checked (show_i64 n)) by (done || lia).
    unfold in_native. rewrite Z.mul_1_r. by destruct (Z.leb_spec n i64_max); [|lia].
  - rewrite last_snoc, (native_unit_exact _ _ _ Hk) by done.
    rewrite length_app. cbn [length]. rewrite Nat.add_sub, take_app_length, Ht, Hp. cbn [ok_or].
    destruct (Z.leb_spec n 0); [lia|]. apply in_native_checked; [lia|nia|done].
Qed.

(** ** The ladder argument *)

Lemma parse_rollup_part_ok nps part t : parse_rollup_part nps part = Ok (Some t) -> tier_ok t.
Proof.
  unfold parse_rollup_part. destruct (trim part) as [|b tier']; [done|].
  destruct (split_once _ _) as [[res ret]|]; [|done]. cbn [ok_or].
  destruct (parse_retention res nps) as [r|] eqn:Er; [|done]. cbn [map_err].
  apply parse_retention_range in Er. destruct (_ || _).
  - intros [= <-]. unfold tier_ok, i64_max. simpl. unfold i64_max in Er. lia.
  - destruct (parse_retention (trim ret) nps) as [k|] eqn:Ek; [|done].
    apply parse_retention_range in Ek. intros [= <-]. unfold tier_ok. simpl. lia.
Qed.

(** C37: What [rollups=] persists is what the engine will read back: an accepted
    argument yields a nonempty well-formed ladder consisting of exactly the tiers
    the parts denote, in order, and the persisted text is their storage form, which
    [parse_ladder] reads as that same ladder. *)
Theorem parse_rollups_persists (value spec : str) (nps : Z) (tiers : list RollupTier) :
  parse_rollups value nps = Ok (tiers, spec) ->
  tiers <> [] /\ ladder_wf tiers /\
  (exists parts, map_result (parse_rollup_part nps) (split x2c value) = Ok parts /\
     tiers = omap id parts) /\
  spec = join x2c (map show_tier tiers) /\ parse_ladder spec = Ok tiers.
Proof.
  unfold parse_rollups.
  destruct (map_result _ _) as [parts|] eqn:Ep; [|done]. set (s := join _ _).
  destruct (parse_ladder s) as [ts|] eqn:El; [|done]. cbn [map_err].
  destruct ts as [|t ts]; [done|]. intros [= <- <-].
  assert (Forall tier_ok (omap id parts)) as Hok.
  { apply map_result_Forall2 in Ep. clear -Ep. induction Ep as [|x y l l' Hxy _ IH]; [constructor|].
    destruct y as [t|]; simpl; [|done]. constructor; [by eapply parse_rollup_part_ok|done]. }
  assert (t :: ts = omap id parts) as Hts.
  { unfold parse_ladder, s in El. destruct (omap id parts) as [|t' ts'] eqn:Eo; [done|].
    rewrite split_join in El; [|done|].
    - by eapply ladder_go_show_inv.
    - apply Forall_fmap. eapply Forall_impl; [exact Hok|]. intros x Hx. by apply show_tier_no_comma. }
  split_and!; [done| |by exists parts|by rewrite Hts|done].
  by apply (ladder_go_inv (split x2c s) None).
Qed.
