(* ===== verification/Template.v ===== *)
(** * Log message templates: the tokenizer

    [src/crates/timeless-core/src/blocks/template.rs], lines 48 to 330: a message
    splits into a template with typed placeholders and the ordered list of the
    variables, in two modes (digit runs, whole tokens); [detokenize] splices the
    variables back. The proofs go through [item], the parse of a message the
    template text and the variable list are two projections of. *)
From Stdlib Require Import ZArith Lia Bool Strings.Byte.
From stdpp Require Import prelude list strings.
From S2P Require Import Prelude RustStr.
Open Scope string_scope.
Open Scope list_scope.
Open Scope Z_scope.

Definition SENTINEL : byte := x11.
Definition KIND_NUM : byte := x64.
Definition KIND_STR : byte := x73.

Inductive VarKind := Num | Str.
Record Var := mkVar { kind : VarKind; text : str }.

#[global] Instance VarKind_eq_dec : EqDecision VarKind.
Proof. solve_decision. Defined.
#[global] Instance Var_eq_dec : EqDecision Var.
Proof. solve_decision. Defined.

Definition is_token_byte (b : byte) : bool :=
  is_ascii_alphanumeric b ||
  existsb (byte_eqb b) ($"_.:-+/@").

(** [strip_prefix("0x")]. *)
Definition strip_0x (tok : str) : option str :=
  match tok with
  | a :: b :: body => if byte_eqb a x30 && byte_eqb b x78 then Some body else None
  | _ => None
  end.

Definition is_hex_like (tok : str) : bool :=
  let body := default tok (strip_0x tok) in
  if (4 <=? length body)%nat && forallb is_ascii_hexdigit body && existsb is_ascii_alphabetic body
  then true
  else if (4 <=? length tok)%nat && bool_decide (is_Some (strip_0x tok)) then true
  else
    let groups := split x2d tok in
    (length groups =? 5)%nat &&
    forallb (fun '(n, g) => (length g =? n)%nat && forallb is_ascii_hexdigit g)
      (zip [8; 4; 4; 4; 12]%nat groups).

Definition num_run_ok (run : str) : bool :=
  (length run <=? 255)%nat && bool_decide (is_Some (parse_i64 run)).

(** The leading bytes that satisfy [p], and the rest: the inner [while] loops. *)
Fixpoint span (p : byte -> bool) (l : list byte) : list byte * list byte :=
  match l with
  | [] => ([], [])
  | c :: l' => if p c then let '(a, b) := span p l' in (c :: a, b) else ([], l)
  end.

Definition push_var (k : VarKind) (text : str) : str * list Var :=
  ([SENTINEL; match k with Num => KIND_NUM | Str => KIND_STR end], [mkVar k text]).

Definition run_kind (run : str) : VarKind := if num_run_ok run then Num else Str.

(** Template text and variables of consecutive pieces. *)
Definition then_ (p q : str * list Var) : str * list Var := (p.1 ++ q.1, p.2 ++ q.2).

(** Digit-run mode inside one token. *)
Fixpoint split_token (fuel : nat) (tb : list byte) : str * list Var :=
  match fuel, tb with
  | S f, c :: tb' =>
    if is_ascii_digit c then
      let '(run, rest) := span is_ascii_digit tb in
      then_ (push_var (run_kind run) run) (split_token f rest)
    else then_ ([c], []) (split_token f tb')
  | _, _ => ([], [])
  end.

(** One token. *)
Definition tokenize_token (tok : str) (split_runs : bool) : str * list Var :=
  if negb (existsb is_ascii_digit tok) then (tok, [])
  else if is_hex_like tok || (negb split_runs && negb (forallb is_ascii_digit tok)) then
    push_var Str tok
  else if negb split_runs then push_var (run_kind tok) tok
  else split_token (length tok) tok.

Definition utf8_char_len (lead : byte) : nat :=
  if in_range 0 127 lead then 1
  else if in_range 192 223 lead then 2
  else if in_range 224 239 lead then 3
  else 4.

Fixpoint tokenize_go (fuel : nat) (rest : list byte) (split_runs : bool) : str * list Var :=
  match fuel, rest with
  | S f, b :: rest' =>
    if byte_eqb b SENTINEL then
      then_ ([SENTINEL; SENTINEL], []) (tokenize_go f rest' split_runs)
    else if is_token_byte b then
      let '(tok, rest2) := span is_token_byte rest in
      then_ (tokenize_token tok split_runs) (tokenize_go f rest2 split_runs)
    else
      let k := utf8_char_len b in
      then_ (take k rest, []) (tokenize_go f (drop k rest) split_runs)
  | _, _ => ([], [])
  end.

(** Every iteration consumes a byte: the length of the message is enough fuel. *)
Definition tokenize (msg : str) (split_runs : bool) : str * list Var :=
  tokenize_go (length msg) msg split_runs.

Fixpoint slot_kinds_go (fuel : nat) (bytes : list byte) : list VarKind :=
  match fuel, bytes with
  | S f, b :: rest =>
    if byte_eqb b SENTINEL then
      match rest with
      | tag :: rest' =>
        (if byte_eqb tag KIND_NUM then [Num] else if byte_eqb tag KIND_STR then [Str] else [])
        ++ slot_kinds_go f rest'
      | [] => []
      end
    else slot_kinds_go f rest
  | _, _ => []
  end.
Definition slot_kinds (template : str) : list VarKind :=
  slot_kinds_go (length template) template.

(** [format!("{v:0w$}")]: zeros go between the sign and the digits. *)
Definition push_padded (v : Z) (w : nat) : str :=
  if v <? 0 then
    let digits := show_nat (- v) in
    x2d :: replicate (w - 1 - length digits) x30 ++ digits
  else
    let digits := show_nat v in
    replicate (w - length digits) x30 ++ digits.

(** [widths], [values] and [strs] are what is left after the [nc] numbers and
    [sc] strings consumed so far. *)
Fixpoint detokenize_go (fuel : nat) (bytes : list byte) (widths : list byte) (values : list Z)
    (strs : list str) : result str :=
  match fuel, bytes with
  | S f, b :: rest =>
    if byte_eqb b SENTINEL then
      match rest with
      | [] => Err (Fmt "template column: dangling sentinel in template" [])
      | tag :: rest' =>
        if byte_eqb tag SENTINEL then
          let? out := detokenize_go f rest' widths values strs in Ok (SENTINEL :: out)
        else if byte_eqb tag KIND_NUM then
          match widths, values with
          | w :: widths', v :: values' =>
            let? out := detokenize_go f rest' widths' values' strs in
            Ok (push_padded v (Z.to_nat (b2z w)) ++ out)
          | [], _ => Err (Fmt "template column: width stream exhausted" [])
          | _, [] => Err (Fmt "template column: value stream exhausted" [])
          end
        else if byte_eqb tag KIND_STR then
          match strs with
          | s :: strs' => let? out := detokenize_go f rest' widths values strs' in Ok (s ++ out)
          | [] => Err (Fmt "template column: string stream exhausted" [])
          end
        else Err (Fmt "template column: unknown placeholder tag {other}" [FNum (b2z tag)])
      end
    else
      let k := utf8_char_len b in
      let? out := detokenize_go f (drop k bytes) widths values strs in
      Ok (take k bytes ++ out)
  | _, _ =>
    match widths, strs with
    | [], [] => Ok []
    | _, _ => Err (Fmt "template column: unconsumed variables for message" [])
    end
  end.
Definition detokenize (template : str) (widths : list byte) (values : list Z) (strs : list str)
    : result str :=
  detokenize_go (length template) template widths values strs.

Example tokenize_sample :
  tokenize ($"user 4821 from 10.0.0.5") true =
  ($"user " ++ [SENTINEL; KIND_NUM] ++ $" from " ++ [SENTINEL; KIND_NUM; x2e; SENTINEL; KIND_NUM;
     x2e; SENTINEL; KIND_NUM; x2e; SENTINEL; KIND_NUM],
   map (mkVar Num) [$"4821"; $"10"; $"0"; $"0"; $"5"]).
Proof. reflexivity. Qed.

(** ** Items

    The parse of a message: characters of template text, escaped sentinels and
    variables. *)
Inductive item :=
| IText (c : list byte)
| ISent
| IVar (v : Var).

Definition tag_of (k : VarKind) : byte := match k with Num => KIND_NUM | Str => KIND_STR end.

Definition tpl_of (x : item) : str :=
  match x with IText c => c | ISent => [SENTINEL; SENTINEL] | IVar v => [SENTINEL; tag_of (kind v)] end.
Definition msg_of (x : item) : str :=
  match x with IText c => c | ISent => [SENTINEL] | IVar v => text v end.
Definition vars_of (x : item) : list Var := match x with IVar v => [v] | _ => [] end.

Definition tpl (l : list item) : str := concat (map tpl_of l).
Definition msg (l : list item) : str := concat (map msg_of l).
Definition vars (l : list item) : list Var := concat (map vars_of l).

Definition digits_only (s : str) : bool := forallb is_ascii_digit s.
Definition has_digit (s : str) : bool := existsb is_ascii_digit s.

(** Numbers are digit runs the typed columns can hold; strings are token text
    with a digit in it. *)
Definition var_ok (v : Var) : Prop :=
  forallb is_token_byte (text v) = true /\ has_digit (text v) = true /\
  match kind v with
  | Num => digits_only (text v) = true /\ num_run_ok (text v) = true
  | Str => True
  end.

(** Template text is whole characters, without digits and without the sentinel. *)
Definition item_ok (x : item) : Prop :=
  match x with
  | IText c => utf8_char c = true /\ has_digit c = false /\ SENTINEL ∉ c
  | ISent => True
  | IVar v => var_ok v
  end.

Definition token_text (x : item) : bool :=
  match x with IText [b] => is_token_byte b | _ => false end.
Definition is_var (x : item) : bool := match x with IVar _ => true | _ => false end.

(** Variables never touch; in whole-token mode none touches token text either. *)
Definition link (split_runs : bool) (x y : item) : bool :=
  negb (is_var x && is_var y) &&
  (split_runs || negb ((is_var x && token_text y) || (token_text x && is_var y))).

Fixpoint linked (split_runs : bool) (l : list item) : bool :=
  match l with
  | x :: l' => match l' with y :: _ => link split_runs x y | [] => true end && linked split_runs l'
  | [] => true
  end.

(** Items that separate tokens. *)
Definition breaker (x : item) : bool := negb (is_var x) && negb (token_text x).

Lemma link_breaker_l sr x y : breaker x = true -> link sr x y = true.
Proof. unfold breaker, link. destruct (is_var x), (token_text x), (is_var y), sr; done. Qed.
Lemma link_breaker_r sr x y : breaker y = true -> link sr x y = true.
Proof. unfold breaker, link. destruct (is_var y), (token_text y), (is_var x), (token_text x), sr; done. Qed.

Lemma linked_app sr a b :
  linked sr a = true -> linked sr b = true ->
  (forall x y, last a = Some x -> head b = Some y -> link sr x y = true) ->
  linked sr (a ++ b) = true.
Proof.
  induction a as [|x a IH]; intros Ha Hb Hl; [done|]. simpl in Ha |- *.
  apply andb_true_iff in Ha as [Hx Ha]. destruct a as [|y a]; simpl in *.
  - destruct b as [|y b]; [done|]. rewrite Hl by done. done.
  - rewrite Hx. simpl. apply IH; [done|done|]. done.
Qed.

(** ** Characters *)

Lemma span_spec p l a b :
  span p l = (a, b) -> l = a ++ b /\ forallb p a = true /\ match b with c :: _ => p c = false | [] => True end.
Proof.
  revert a b. induction l as [|c l IH]; intros a b; simpl; [by intros [= <- <-]|].
  destruct (p c) eqn:E.
  - destruct (span p l) as [a' b'] eqn:Es. intros [= <- <-].
    destruct (IH a' b' eq_refl) as (-> & Ha & Hb). simpl. by rewrite E, Ha.
  - by intros [= <- <-].
Qed.

Lemma span_nonempty p c l a b : span p (c :: l) = (a, b) -> p c = true -> exists a', a = c :: a'.
Proof. simpl. intros H Hc. rewrite Hc in H. destruct (span p l). injection H as <- <-. by eexists. Qed.

Lemma is_token_byte_ascii b : is_token_byte b = true -> in_range 0 127 b = true /\ b <> SENTINEL.
Proof. intros H. split; [|intros ->; done]. revert H. destruct b; vm_compute; done. Qed.

Lemma digit_token b : is_ascii_digit b = true -> is_token_byte b = true.
Proof.
  intros H. unfold is_token_byte, is_ascii_alphanumeric. rewrite H. by rewrite orb_true_r.
Qed.

Lemma utf8_char_ascii b : in_range 0 127 b = true -> utf8_char [b] = true.
Proof. intros H. unfold utf8_char. simpl. by rewrite H. Qed.

Lemma ascii_not_cont b : in_range 0 127 b = true -> utf8_cont b = false.
Proof.
  intros H. destruct (utf8_cont b) eqn:E; [|done]. apply in_range_spec in H, E. lia.
Qed.

Lemma utf8_valid_cons_inv b l :
  utf8_valid (b :: l) = true ->
  exists c rest, b :: l = c ++ rest /\ utf8_char c = true /\ utf8_valid rest = true /\ head c = Some b.
Proof.
  intros H. apply Utf8_sound in H. inversion H as [|c l' Hc Hl' E].
  exists c, l'. rewrite utf8_valid_iff. destruct c as [|b' c]; [done|].
  simpl in E. injection E as -> <-. done.
Qed.

(** A multi-byte character starts at 194 or above and continues above 127. *)
Lemma utf8_char_bytes c :
  utf8_char c = true ->
  exists b c', c = b :: c' /\ length c = utf8_char_len b /\
    ((c' = [] /\ in_range 0 127 b = true) \/ (128 <= b2z b /\ Forall (fun x => 128 <= b2z x) c')).
Proof.
  unfold utf8_char, utf8_char_len. intros H. apply andb_true_iff in H as [H Hr].
  assert (forall x, utf8_cont x = true -> 128 <= b2z x) as Hcont by (intros x Hx; apply in_range_spec in Hx; lia).
  assert (forall lo hi x, 128 <= lo -> in_range lo hi x = true -> 128 <= b2z x) as Hin
    by (intros lo hi x Hlo Hx; apply in_range_spec in Hx; lia).
  destruct c as [|b0 [|b1 [|b2 [|b3 [|]]]]]; try done; exists b0; eexists; (split; [done|]);
    cbn [utf8_valid] in H; pose proof (proj1 (in_range_spec _ _ _) Hr) as Hb.
  - rewrite Hr. split; [done|]. by left.
  - destruct (in_range 0 127 b0) eqn:E0; [apply in_range_spec in E0; lia|].
    rewrite Hr in H. destruct (in_range 192 223 b0) eqn:E1.
    2: { unfold in_range in E1. rewrite andb_false_iff, !Z.leb_gt in E1. lia. }
    split_andb. split; [done|]. right. split; [lia|]. rewrite Forall_cons; auto.
  - destruct (in_range 0 127 b0) eqn:E0; [apply in_range_spec in E0; lia|].
    destruct (in_range 194 223 b0) eqn:E1; [apply in_range_spec in E1; lia|].
    destruct (in_range 192 223 b0) eqn:E2; [apply in_range_spec in E2; lia|].
    rewrite Hr in *. split_andb. split; [done|]. right. split; [lia|].
    rewrite !Forall_cons; split_and!; auto. destruct (_ =? _); [eapply Hin; [|eassumption]; done|]. destruct (_ =? _); [eapply Hin; [|eassumption]; done|auto].
  - destruct (in_range 0 127 b0) eqn:E0; [apply in_range_spec in E0; lia|].
    destruct (in_range 194 223 b0) eqn:E1; [apply in_range_spec in E1; lia|].
    destruct (in_range 192 223 b0) eqn:E2; [apply in_range_spec in E2; lia|].
    destruct (in_range 224 239 b0) eqn:E3; [apply in_range_spec in E3; lia|].
    split_andb. split; [done|]. right. split; [lia|].
    rewrite !Forall_cons; split_and!; auto. destruct (_ =? _); [eapply Hin; [|eassumption]; done|]. destruct (_ =? _); [eapply Hin; [|eassumption]; done|auto].
Qed.

(** ** The tokenizer's parse *)

(** [(t, vs)] are the template text and the variables of a parse of [m]. *)
Definition parses (sr : bool) (m : str) (p : str * list Var) (l : list item) : Prop :=
  p = (tpl l, vars l) /\ msg l = m /\ Forall item_ok l /\ linked sr l = true.

Lemma parses_nil sr : parses sr [] ([], []) [].
Proof. by split_and!. Qed.

Lemma parses_app sr m1 m2 p1 p2 l1 l2 :
  parses sr m1 p1 l1 -> parses sr m2 p2 l2 ->
  (forall x y, last l1 = Some x -> head l2 = Some y -> link sr x y = true) ->
  parses sr (m1 ++ m2) (then_ p1 p2) (l1 ++ l2).
Proof.
  intros (-> & <- & Ho1 & Hl1) (-> & <- & Ho2 & Hl2) Hl. unfold parses, then_, tpl, vars, msg. simpl.
  rewrite !map_app, !concat_app. split_and!; [done|done|by apply Forall_app|by apply linked_app].
Qed.

Lemma parses_text sr c :
  utf8_char c = true -> has_digit c = false -> SENTINEL ∉ c -> parses sr c (c, []) [IText c].
Proof.
  intros. unfold parses, tpl, msg, vars. simpl. rewrite List.app_nil_r. split_and!; try done.
  by repeat constructor.
Qed.

Lemma parses_var sr k s :
  var_ok (mkVar k s) -> parses sr s (push_var k s) [IVar (mkVar k s)].
Proof.
  intros Hv. unfold parses, tpl, msg, vars. simpl. rewrite List.app_nil_r.
  split_and!; try done. by constructor.
Qed.

Lemma token_char_ok b :
  is_token_byte b = true -> is_ascii_digit b = false ->
  utf8_char [b] = true /\ has_digit [b] = false /\ SENTINEL ∉ [b].
Proof.
  intros Hb Hd. destruct (is_token_byte_ascii b Hb) as [Ha Hs]. split; [by apply utf8_char_ascii|].
  split; [simpl; by rewrite Hd|]. intros Hin%list_elem_of_singleton. by apply Hs.
Qed.

Lemma forallb_app_inv {A} (p : A -> bool) a b : forallb p (a ++ b) = true -> forallb p a = true /\ forallb p b = true.
Proof. rewrite forallb_app. apply andb_true_iff. Qed.

Lemma token_parse_text sr tok :
  forallb is_token_byte tok = true -> has_digit tok = false ->
  exists l, parses sr tok (tok, []) l.
Proof.
  induction tok as [|b tok IH]; intros Ht Hd; [exists []; apply parses_nil|].
  simpl in Ht, Hd. apply andb_true_iff in Ht as [Hb Ht]. apply orb_false_iff in Hd as [Hdb Hd].
  destruct (IH Ht Hd) as [l Hl]. exists ([IText [b]] ++ l).
  destruct (token_char_ok b Hb Hdb) as (H1 & H2 & H3).
  apply (parses_app sr [b] tok ([b], []) (tok, [])); [by apply parses_text|done|].
  intros x y [= <-] Hy. destruct Hl as (Hp & _ & _ & _). destruct l as [|y' l]; [done|].
  injection Hy as ->. assert (is_var y = false) as Hy by (destruct y; [done..|by injection Hp]).
  unfold link. rewrite Hy. simpl. by rewrite andb_false_r, orb_true_r.
Qed.

Lemma digits_token s : digits_only s = true -> forallb is_token_byte s = true.
Proof.
  unfold digits_only. rewrite !forallb_forall. intros H x Hx. apply digit_token. auto.
Qed.

Lemma run_var_ok run :
  run <> [] -> digits_only run = true -> var_ok (mkVar (run_kind run) run).
Proof.
  intros Hne Hd. unfold var_ok. simpl. split; [by apply digits_token|]. split.
  - destruct run as [|b run]; [done|]. unfold digits_only, has_digit in *. simpl in *.
    apply andb_true_iff in Hd as [-> _]. done.
  - unfold run_kind. destruct (num_run_ok run) eqn:E; done.
Qed.

Lemma split_token_parse fuel : forall tb,
  (length tb <= fuel)%nat -> forallb is_token_byte tb = true ->
  exists l, parses true tb (split_token fuel tb) l /\
    (match tb with c :: _ => is_ascii_digit c = false | [] => True end ->
     match head l with Some x => is_var x = false | None => True end).
Proof.
  induction fuel as [|fuel IH]; intros tb Hf Ht.
  { destruct tb; [|simpl in Hf; lia]. exists []. split; [apply parses_nil|done]. }
  destruct tb as [|c tb']; [exists []; split; [apply parses_nil|done]|].
  cbn [split_token]. pose proof Ht as Htc. simpl in Ht. apply andb_true_iff in Ht as [Hc Ht].
  destruct (is_ascii_digit c) eqn:Ed.
  - destruct (span is_ascii_digit (c :: tb')) as [run rest] eqn:Es.
    pose proof (span_nonempty _ _ _ _ _ Es Ed) as [run' Hrun].
    apply span_spec in Es as (Heq & Hrd & Hrest). rewrite Heq in *.
    apply forallb_app_inv in Htc as [_ Htr].
    destruct (IH rest) as (l & Hl & Hhead); [rewrite length_app, Hrun in Hf; simpl in Hf; lia|done|].
    exists ([IVar (mkVar (run_kind run) run)] ++ l). split; [|congruence].
    apply parses_app; [|done|].
    + apply parses_var, run_var_ok; [by rewrite Hrun|done].
    + intros x y [= <-] Hy. specialize (Hhead Hrest). rewrite Hy in Hhead.
      unfold link. by rewrite Hhead, andb_false_r.
  - destruct (IH tb') as (l & Hl & _); [simpl in Hf; lia|done|].
    exists ([IText [c]] ++ l). split; [|done].
    destruct (token_char_ok c Hc Ed) as (H1 & H2 & H3).
    apply (parses_app true [c] tb'); [by apply parses_text|done|]. by intros x y [= <-] _.
Qed.

Lemma tokenize_token_parse tok sr :
  tok <> [] -> forallb is_token_byte tok = true ->
  exists l, parses sr tok (tokenize_token tok sr) l.
Proof.
  intros Hne Ht. unfold tokenize_token.
  destruct (existsb is_ascii_digit tok) eqn:Ed; cbn [negb]; [|by apply token_parse_text].
  destruct (is_hex_like tok || _) eqn:Eh.
  { eexists. apply parses_var. by split_and!. }
  destruct sr; cbn [negb andb] in *.
  - destruct (split_token_parse (length tok) tok) as (l & Hl & _); eauto.
  - apply orb_false_iff in Eh as [_ Hd]. apply negb_false_iff in Hd.
    eexists. by apply parses_var, run_var_ok.
Qed.

Lemma utf8_valid_ascii_app a b :
  Forall (fun c => in_range 0 127 c = true) a -> utf8_valid (a ++ b) = utf8_valid b.
Proof. induction 1 as [|c a Hc _ IH]; [done|]. simpl. by rewrite Hc. Qed.

(** A character that starts with neither a token byte nor the sentinel is
    template text. *)
Lemma other_char_ok c b :
  utf8_char c = true -> head c = Some b -> is_token_byte b = false -> b <> SENTINEL ->
  has_digit c = false /\ (SENTINEL ∉ c) /\ length c = utf8_char_len b /\ breaker (IText c) = true.
Proof.
  intros Hc Hh Ht Hs. destruct (utf8_char_bytes c Hc) as (b' & c' & -> & Hl & Hcase).
  injection Hh as ->. assert (is_ascii_digit b = false) as Hd.
  { destruct (is_ascii_digit b) eqn:E; [|done]. apply digit_token in E. congruence. }
  unfold has_digit, breaker. simpl. rewrite Hd. simpl.
  destruct Hcase as [[-> Ha]|[Hb Hc']].
  - split_and!; [done|intros Hin%list_elem_of_singleton; congruence|done|simpl; by rewrite Ht].
  - split_and!; [|intros [Hin|Hin]%elem_of_cons; [congruence|]|done|by destruct c'; [simpl; rewrite Ht|]].
    + apply not_true_iff_false. intros (x & Hx & Hdx)%existsb_exists.
      rewrite Forall_forall in Hc'. apply list_elem_of_In in Hx. specialize (Hc' x Hx).
      apply is_ascii_digit_iff in Hdx. lia.
    + rewrite Forall_forall in Hc'. specialize (Hc' _ Hin). vm_compute in Hc'. done.
Qed.

Lemma tokenize_go_parse sr fuel : forall rest,
  (length rest <= fuel)%nat -> is_str rest ->
  exists l, parses sr rest (tokenize_go fuel rest sr) l /\
    (match rest with c :: _ => is_token_byte c = false | [] => True end ->
     match head l with Some x => breaker x = true | None => True end).
Proof.
  induction fuel as [|fuel IH]; intros rest Hf Hv.
  { destruct rest; [|simpl in Hf; lia]. exists []. split; [apply parses_nil|done]. }
  destruct rest as [|b rest']; [exists []; split; [apply parses_nil|done]|].
  cbn [tokenize_go]. destruct (byte_eqb_spec b SENTINEL) as [->|Hs].
  { destruct (IH rest') as (l & Hl & _); [simpl in Hf; lia|done|]. exists ([ISent] ++ l). split; [|done].
    apply (parses_app sr [SENTINEL] rest'); [|done|intros x y [= <-] _; by apply link_breaker_l].
    split_and!; try done. by repeat constructor. }
  destruct (is_token_byte b) eqn:Et.
  - destruct (span is_token_byte (b :: rest')) as [tok rest2] eqn:Es.
    pose proof (span_nonempty _ _ _ _ _ Es Et) as [tok' Htok].
    apply span_spec in Es as (Heq & Htk & Hr2). unfold is_str in Hv. rewrite Heq in *.
    rewrite utf8_valid_ascii_app in Hv.
    2: { apply Forall_forall. intros x Hx. rewrite forallb_forall in Htk.
         apply is_token_byte_ascii, Htk, list_elem_of_In, Hx. }
    destruct (IH rest2) as (l & Hl & Hhead); [rewrite length_app, Htok in Hf; simpl in Hf; lia|done|].
    destruct (tokenize_token_parse tok sr) as [lt Hlt]; [by rewrite Htok|done|].
    exists (lt ++ l). split; [|congruence].
    apply parses_app; [done|done|]. intros x y _ Hy. apply link_breaker_r.
    specialize (Hhead Hr2). by rewrite Hy in Hhead.
  - destruct (utf8_valid_cons_inv _ _ Hv) as (c & r & Heq & Hc & Hr & Hh).
    destruct (other_char_ok c b Hc Hh Et Hs) as (Hd & Hns & Hlen & Hbr). rewrite Heq, <-Hlen.
    rewrite take_app_length, drop_app_length.
    destruct (IH r) as (l & Hl & _); [|done|].
    { apply (f_equal (@length byte)) in Heq. rewrite length_app in Heq.
      destruct c; [done|]. simpl in *. lia. }
    exists ([IText c] ++ l). split; [|done].
    apply (parses_app sr c r); [by apply parses_text|done|].
    intros x y [= <-] _. by apply link_breaker_l.
Qed.

Lemma tokenize_parse m sr : is_str m -> exists l, parses sr m (tokenize m sr) l.
Proof. intros Hm. destruct (tokenize_go_parse sr (length m) m) as (l & Hl & _); eauto. Qed.

(** ** Reading a template back *)

Definition nums (l : list Var) : list Var := filter (fun v => kind v = Num) l.
Definition strs_of (l : list Var) : list str := map text (filter (fun v => kind v = Str) l).
(** The typed columns' values of a number: its width byte and its value. *)
Definition width_of (v : Var) : byte := z2b (Z.of_nat (length (text v))).
Definition value_of (v : Var) : Z := default 0 (parse_i64 (text v)).

(** What rendering needs of a number: the width fits a byte and the digits parse. *)
Lemma num_run_value s :
  digits_only s = true -> s <> [] -> num_run_ok s = true ->
  exists v, parse_i64 s = Some v /\ 0 <= v <= i64_max /\ (length s <= 255)%nat /\
    push_padded v (length s) = s.
Proof.
  intros Hd Hne Hn. unfold num_run_ok in Hn. apply andb_true_iff in Hn as [Hl Hp].
  apply Nat.leb_le in Hl. apply bool_decide_eq_true in Hp as [v Hv]. exists v. split; [done|].
  assert (Forall (fun c => is_ascii_digit c = true) s) as Hs by (by apply Forall_forall; intros x Hx;
    unfold digits_only in Hd; rewrite forallb_forall in Hd; apply Hd, list_elem_of_In).
  pose proof (parse_i64_range _ _ Hv) as Hr. rewrite parse_i64_of_digits in Hv by done.
  destruct (parse_digits s) as [v'|] eqn:Ep; [|done]. unfold in_bounds in Hv.
  destruct (_ && _); [|done]. injection Hv as ->.
  assert (0 <= v) as Hv0.
  { destruct (digits_go_value s Hs) as (u & Hu & ?). unfold parse_digits in Ep. destruct s; [done|].
    rewrite Hu in Ep. injection Ep as ->. lia. }
  split; [unfold is_i64 in Hr; lia|]. split; [done|].
  unfold push_padded. destruct (Z.ltb_spec v 0); [lia|]. by apply pad_show.
Qed.

Lemma text_step c b rest :
  utf8_char c = true -> SENTINEL ∉ c -> head c = Some b ->
  byte_eqb b SENTINEL = false /\ take (utf8_char_len b) (c ++ rest) = c /\
  drop (utf8_char_len b) (c ++ rest) = rest.
Proof.
  intros Hc Hs Hh. destruct (utf8_char_bytes c Hc) as (b' & c' & -> & Hl & _). injection Hh as ->.
  split; [|by rewrite <-Hl, take_app_length, drop_app_length].
  destruct (byte_eqb_spec b SENTINEL) as [->|]; [|done]. destruct Hs. left.
Qed.

Lemma utf8_char_head c : utf8_char c = true -> exists b, head c = Some b.
Proof. intros H. destruct (utf8_char_bytes c H) as (b & c' & -> & _). by exists b. Qed.

Lemma detokenize_items l : forall fuel,
  Forall item_ok l -> (length (tpl l) <= fuel)%nat ->
  detokenize_go fuel (tpl l) (map width_of (nums (vars l))) (map value_of (nums (vars l)))
    (strs_of (vars l)) = Ok (msg l).
Proof.
  induction l as [|x l IH]; intros fuel Hok Hf; [by destruct fuel|].
  inversion_clear Hok as [|? ? Hx Hok']. unfold tpl, vars, msg in *. simpl in *.
  rewrite length_app in Hf. destruct x as [c| |v]; simpl in *.
  - destruct Hx as (Hc & _ & Hs). destruct (utf8_char_head c Hc) as [b Hb].
    destruct (text_step c b (concat (map tpl_of l)) Hc Hs Hb) as (E1 & E2 & E3).
    destruct c as [|b' c]; [done|]. injection Hb as ->. destruct fuel as [|fuel]; [simpl in Hf; lia|].
    cbn [app detokenize_go]. rewrite E1. cbn [app] in E2, E3. rewrite E2, E3.
    rewrite IH by (done || simpl in Hf; lia). done.
  - destruct fuel as [|fuel]; [lia|]. cbn [detokenize_go]. rewrite IH by (done || lia). done.
  - destruct fuel as [|fuel]; [lia|]. destruct v as [[] s]; destruct Hx as (_ & Hdig & Hk); simpl in Hk, Hdig.
    + destruct Hk as [Hd Hn]. assert (s <> []) as Hne by (by intros ->).
      destruct (num_run_value s Hd Hne Hn) as (v & Hp & Hv & Hl & Hpad).
      unfold nums, strs_of. rewrite filter_cons_True, filter_cons_False by done.
      cbn [map detokenize_go]. change (byte_eqb SENTINEL SENTINEL) with true.
      change (byte_eqb (tag_of (kind (mkVar Num s))) SENTINEL) with false.
      change (byte_eqb (tag_of (kind (mkVar Num s))) KIND_NUM) with true. cbv iota.
      fold (nums (concat (map vars_of l))). fold (strs_of (concat (map vars_of l))).
      rewrite IH by (done || lia). unfold width_of, value_of. cbn [text]. rewrite Hp, b2z_z2b, Z.mod_small by lia.
      cbn [default]. unfold id. by rewrite Nat2Z.id, Hpad.
    + unfold nums, strs_of. rewrite filter_cons_False, filter_cons_True by done.
      cbn [map detokenize_go]. change (byte_eqb SENTINEL SENTINEL) with true.
      change (byte_eqb (tag_of (kind (mkVar Str s))) SENTINEL) with false.
      change (byte_eqb (tag_of (kind (mkVar Str s))) KIND_NUM) with false.
      change (byte_eqb (tag_of (kind (mkVar Str s))) KIND_STR) with true. cbv iota.
      fold (nums (concat (map vars_of l))). fold (strs_of (concat (map vars_of l))).
      by rewrite IH by (done || lia).
Qed.

Lemma slot_kinds_text c rest fuel :
  SENTINEL ∉ c -> (length c <= fuel)%nat ->
  slot_kinds_go fuel (c ++ rest) = slot_kinds_go (fuel - length c) rest.
Proof.
  revert fuel. induction c as [|b c IH]; intros fuel Hs Hf; [by rewrite Nat.sub_0_r|].
  apply not_elem_of_cons in Hs as [Hb Hs]. destruct fuel as [|fuel]; simpl in Hf; [lia|].
  cbn [app slot_kinds_go length Nat.sub]. destruct (byte_eqb_spec b SENTINEL); [congruence|].
  apply IH; [done|lia].
Qed.

Lemma slot_kinds_items l : forall fuel,
  Forall item_ok l -> (length (tpl l) <= fuel)%nat ->
  slot_kinds_go fuel (tpl l) = map kind (vars l).
Proof.
  induction l as [|x l IH]; intros fuel Hok Hf; [by destruct fuel|].
  inversion_clear Hok as [|? ? Hx Hok']. unfold tpl, vars in *. simpl in *. rewrite length_app in Hf.
  destruct x as [c| |v]; simpl in *.
  - destruct Hx as (_ & _ & Hs). rewrite slot_kinds_text by (done || lia). apply IH; [done|lia].
  - destruct fuel as [|fuel]; [lia|]. cbn [slot_kinds_go]. apply IH; [done|lia].
  - destruct fuel as [|fuel]; [lia|]. cbn [slot_kinds_go]. change (byte_eqb SENTINEL SENTINEL) with true.
    rewrite IH by (done || lia). by destruct v as [[] s].
Qed.

Lemma vars_ok l : Forall item_ok l -> Forall var_ok (vars l).
Proof.
  unfold vars. induction 1 as [|x l Hx _ IH]; [constructor|]. simpl. apply Forall_app. split; [|done].
  destruct x; simpl; [constructor|constructor|by apply Forall_singleton].
Qed.

(** The typed streams of one message's variables. *)
Definition stream_widths (vs : list Var) : list byte := map width_of (nums vs).
Definition stream_values (vs : list Var) : list Z := map value_of (nums vs).

(** C7: The tokenizer is lossless in both modes: splicing the variables' typed
    forms (width byte and i64 value of a digit run, verbatim text otherwise) back
    into the template reproduces the message byte for byte. The template alone
    determines every slot's kind, and every variable contains a digit. *)
Theorem tokenizer_lossless (m : str) (split_runs : bool) :
  is_str m ->
  let '(template, vs) := tokenize m split_runs in
  detokenize template (stream_widths vs) (stream_values vs) (strs_of vs) = Ok m /\
  slot_kinds template = map kind vs /\
  Forall (fun v => has_digit (text v) = true) vs.
Proof.
  intros Hm. destruct (tokenize_parse m split_runs Hm) as (l & Hp & Hmsg & Hok & _). rewrite Hp.
  split_and!.
  - rewrite <-Hmsg. by apply detokenize_items.
  - by apply slot_kinds_items.
  - eapply Forall_impl; [by apply vars_ok|]. by intros v (_ & ? & _).
Qed.
