(* ===== verification/TemplateColumn.v ===== *)
(** * Template columns

    [src/crates/timeless-core/src/blocks/template.rs], lines 330 to 590: a block's
    messages become a template dictionary, an id per message and the variables
    regrouped by (template, slot) into one column per type; the decoder rebuilds
    the group extents from the ids and the templates' slot kinds and replays the
    messages with one cursor per group. *)
From Stdlib Require Import ZArith Lia Bool Strings.Byte.
From stdpp Require Import prelude gmap list strings sorting.
From S2P Require Import Prelude Float64 BTree Wire Columns RustStr Template.
Open Scope string_scope.
Open Scope list_scope.
Open Scope Z_scope.

Definition TPL_HEADER_LEN : nat := 33.

Record Tokenized := mkTokenized {
  ids : list Z;
  dict : list str;
  msg_vars : list (list Var);
}.

(** The loop of [tokenize_block]; [dict_map] is the hash index of [dict]. *)
Fixpoint tokenize_block_go (dict_map : gmap str Z) (dict0 : list str) (msgs : list str)
    (split_runs : bool) : Tokenized :=
  match msgs with
  | [] => mkTokenized [] dict0 []
  | m :: msgs' =>
    let '(template, vs) := tokenize m split_runs in
    match dict_map !! template with
    | Some id =>
      let tk := tokenize_block_go dict_map dict0 msgs' split_runs in
      mkTokenized (id :: ids tk) (dict tk) (vs :: msg_vars tk)
    | None =>
      let id := Z.of_nat (length dict0) in
      let tk := tokenize_block_go (<[template := id]> dict_map) (dict0 ++ [template]) msgs' split_runs in
      mkTokenized (id :: ids tk) (dict tk) (vs :: msg_vars tk)
    end
  end.
Definition tokenize_block (msgs : list str) (split_runs : bool) : Tokenized :=
  tokenize_block_go ∅ [] msgs split_runs.

(** ** Grouping *)

(** [slot as u32]. *)
Definition as_u32 (n : nat) : Z := Z.of_nat n mod 2 ^ 32.

Abbreviation GroupKey := (Z * Z)%type.

(** [groups.entry(k).or_default()], then [f]. *)
Definition btm_update {V} (d : V) (f : V -> V) (k : GroupKey) (m : list (GroupKey * V))
    : list (GroupKey * V) :=
  btm_insert k (f (default d (btm_get k m))) m.

Definition group_row (groups : list (GroupKey * list Var)) (row : Z * list Var)
    : list (GroupKey * list Var) :=
  fold_left (fun g '(slot, v) => btm_update [] (fun vs => vs ++ [v]) (row.1, as_u32 slot) g)
    (imap pair row.2) groups.

Definition group_vars (ids : list Z) (msg_vars : list (list Var)) : list (GroupKey * list Var) :=
  fold_left group_row (zip ids msg_vars) [].

(** The typed streams, variable by variable. *)
Fixpoint push_streams (vs : list Var) : result (list byte * list Z * list str) :=
  match vs with
  | [] => Ok ([], [], [])
  | v :: vs' =>
    match kind v with
    | Num =>
      let? value := ok_or (parse_i64 (text v))
        (Fmt "template column: internal error: unparseable num var" []) in
      let? (ws, values, ss) := push_streams vs' in
      Ok (z2b (Z.of_nat (length (text v))) :: ws, value :: values, ss)
    | Str =>
      let? (ws, values, ss) := push_streams vs' in Ok (ws, values, text v :: ss)
    end
  end.

Section Codec.
Context `{ZS : Zstd} `{PI : !Pco Z}.

Definition check_u32_count (what : string) (count : nat) : result unit :=
  if u32_max <? Z.of_nat count then Err (Fmt "template column: {what} count exceeds u32" [FStr what])
  else Ok tt.

(** The lengths of the sub-columns. *)
Fixpoint push_lens (cols : list (list byte)) : result (list byte) :=
  match cols with
  | [] => Ok []
  | c :: cols' =>
    if u32_max <? Z.of_nat (length c) then Err (Fmt "template column: sub-column exceeds u32::MAX bytes" [])
    else let? rest := push_lens cols' in Ok (u32_le (Z.of_nat (length c)) ++ rest)
  end.

Definition encode_mode (msgs : list str) (split_runs : bool) (zstd_level : Z) : result (list byte) :=
  let tk := tokenize_block msgs split_runs in
  let groups := group_vars (ids tk) (msg_vars tk) in
  let? (widths, values, strs) := push_streams (concat (map snd groups)) in
  let? e := encode_i64 (ids tk) zstd_level in
  let? ids_col := to_bytes e in
  let? e := encode_str (dict tk) (length (dict tk)) zstd_level in
  let? dict_col := to_bytes e in
  let? e := encode_u8 widths zstd_level in
  let? w_col := to_bytes e in
  let? e := encode_i64 values zstd_level in
  let? v_col := to_bytes e in
  let? e := encode_str strs (length strs) zstd_level in
  let? s_col := to_bytes e in
  let? _ := check_u32_count "templates" (length (dict tk)) in
  let? _ := check_u32_count "num vars" (length values) in
  let? _ := check_u32_count "str vars" (length strs) in
  let cols := [ids_col; dict_col; w_col; v_col; s_col] in
  let? lens := push_lens cols in
  Ok ((if split_runs then x00 else x01) :: u32_le (Z.of_nat (length (dict tk))) ++
      u32_le (Z.of_nat (length values)) ++ u32_le (Z.of_nat (length strs)) ++ lens ++ concat cols).

Definition encode_template_str (msgs : list str) (zstd_level : Z) : result (list byte) :=
  let? split := encode_mode msgs true zstd_level in
  let? whole := encode_mode msgs false zstd_level in
  Ok (if (length split <=? length whole)%nat then split else whole).

(** ** Group extents *)

Record Group := mkGroup { g_kind : VarKind; g_start : nat; g_len : nat }.

(** An index out of bounds panics. *)
Definition panic : error := Fmt "index out of bounds" [].
Definition index {A} (l : list A) (i : nat) : result A := ok_or (l !! i) panic.

(** [ids] and [slot] of a key as the indices they are used as. *)
Definition key_index (z : Z) : nat := Z.to_nat z.

Fixpoint count_sizes (kinds_by_id : list (list VarKind)) (ids : list Z) (sizes : list (GroupKey * nat))
    : result (list (GroupKey * nat)) :=
  match ids with
  | [] => Ok sizes
  | id :: ids' =>
    let? kinds := index kinds_by_id (key_index id) in
    count_sizes kinds_by_id ids'
      (fold_left (fun s slot => btm_update 0%nat S (id, as_u32 slot) s) (seq 0 (length kinds)) sizes)
  end.

(** The layout state: [base] ([None] is [usize::MAX], above every length),
    the groups so far and the two stream offsets. *)
Record Layout := mkLayout { base : list (option nat); groups : list Group; num_off : nat; str_off : nat }.

Fixpoint layout_go (kinds_by_id : list (list VarKind)) (sizes : list (GroupKey * nat)) (st : Layout)
    : result Layout :=
  match sizes with
  | [] => Ok st
  | ((id, slot), count) :: sizes' =>
    let? b := index (base st) (key_index id) in
    let base' := match b with
                 | None => <[key_index id := Some (length (groups st))]> (base st)
                 | Some _ => base st
                 end in
    let? kinds := index kinds_by_id (key_index id) in
    let? k := index kinds (key_index slot) in
    layout_go kinds_by_id sizes'
      (match k with
       | Num => mkLayout base' (groups st ++ [mkGroup k (num_off st) count]) (num_off st + count) (str_off st)
       | Str => mkLayout base' (groups st ++ [mkGroup k (str_off st) count]) (num_off st) (str_off st + count)
       end)
  end.

Definition group_layout (ids : list Z) (kinds_by_id : list (list VarKind)) (num_n str_n : nat)
    : result (list (option nat) * list Group) :=
  let? sizes := count_sizes kinds_by_id ids [] in
  let? st := layout_go kinds_by_id sizes
               (mkLayout (replicate (length kinds_by_id) None) [] 0 0) in
  if negb (num_off st =? num_n)%nat || negb (str_off st =? str_n)%nat then
    Err (Fmt "template column: slot totals ({num_off} num, {str_off} str) disagree with header ({num_n}, {str_n})"
           [FNum (Z.of_nat (num_off st)); FNum (Z.of_nat (str_off st));
            FNum (Z.of_nat num_n); FNum (Z.of_nat str_n)])
  else Ok (base st, groups st).

(** ** Decoding *)

Record Stored := mkStored {
  s_mode : byte;
  dict_n : nat;
  num_n : nat;
  str_n : nat;
  stored : list (list byte);
}.

Fixpoint take_cols (lens : list nat) (names : list string) (r : Reader) : result (list (list byte) * Reader) :=
  match lens, names with
  | len :: lens', name :: names' =>
    let? (c, r) := rd_take len name r in
    let? (cs, r) := take_cols lens' names' r in
    Ok (c :: cs, r)
  | _, _ => Ok ([], r)
  end.

Fixpoint read_lens (names : list string) (r : Reader) : result (list nat * Reader) :=
  match names with
  | [] => Ok ([], r)
  | name :: names' =>
    let? (z, r) := rd_u32 name r in
    let? (zs, r) := read_lens names' r in
    Ok (Z.to_nat z :: zs, r)
  end.

(** The header and the five sub-columns, as far as all three readers agree. *)
Definition read_stored (bytes : list byte) : result (Stored * Reader) :=
  let r := Reader_new bytes in
  let? (mode, r) := rd_u8 "template column mode" r in
  let? (dn, r) := rd_u32 "template dict count" r in
  let? (nn, r) := rd_u32 "template num-var count" r in
  let? (sn, r) := rd_u32 "template str-var count" r in
  let? (lens, r) := read_lens ["template ids length"; "template dict length"; "template widths length";
                               "template values length"; "template strings length"] r in
  let? (cols, r) := take_cols lens ["template ids column"; "template dict column"; "template widths column";
                                    "template values column"; "template strings column"] r in
  Ok (mkStored mode (Z.to_nat dn) (Z.to_nat nn) (Z.to_nat sn) cols, r).

Definition check_trailing (r : Reader) : result unit :=
  if negb (remaining r =? 0)%nat then
    Err (Fmt "template column: {} trailing byte(s) after last sub-column" [FNum (Z.of_nat (remaining r))])
  else Ok tt.

(** The first id outside the dictionary is reported. *)
Fixpoint check_ids (i : nat) (dict_n : nat) (ids : list Z) : result unit :=
  match ids with
  | [] => Ok tt
  | id :: ids' =>
    if (id <? 0) || (Z.of_nat dict_n <=? id) then
      Err (Fmt "template column: entry {i} references template {id} of {dict_n}"
             [FNum (Z.of_nat i); FNum id; FNum (Z.of_nat dict_n)])
    else check_ids (S i) dict_n ids'
  end.

(** The cursor of slot [slot] of a template whose groups start at [b]. *)
Definition cursor_at (cursors : list nat) (b : option nat) (slot : nat) : result (nat * nat) :=
  match b with
  | Some b =>
    match cursors !! (b + slot)%nat with
    | Some c => Ok ((b + slot)%nat, c)
    | None => Err (Fmt "template column: missing group cursor" [])
    end
  | None => Err (Fmt "template column: missing group cursor" [])
  end.

(** One message's variables, popped off their groups. *)
Fixpoint pop_slots (widths : list byte) (values : list Z) (strs : list str) (b : option nat)
    (slot : nat) (kinds : list VarKind) (cursors : list nat)
    : result (list byte * list Z * list str * list nat) :=
  match kinds with
  | [] => Ok ([], [], [], cursors)
  | k :: kinds' =>
    let? (p, c) := cursor_at cursors b slot in
    match k with
    | Num =>
      let? w := index widths c in
      let? v := index values c in
      let? (ws, vs, ss, cursors') :=
        pop_slots widths values strs b (S slot) kinds' (<[p := S c]> cursors) in
      Ok (w :: ws, v :: vs, ss, cursors')
    | Str =>
      let? s := index strs c in
      let? (ws, vs, ss, cursors') :=
        pop_slots widths values strs b (S slot) kinds' (<[p := S c]> cursors) in
      Ok (ws, vs, s :: ss, cursors')
    end
  end.

Fixpoint replay (dict : list str) (kinds_by_id : list (list VarKind)) (widths : list byte)
    (values : list Z) (strs : list str) (base : list (option nat)) (ids : list Z) (cursors : list nat)
    : result (list str) :=
  match ids with
  | [] => Ok []
  | id :: ids' =>
    let? template := index dict (key_index id) in
    let? kinds := index kinds_by_id (key_index id) in
    let? b := index base (key_index id) in
    let? (ws, vs, ss, cursors') := pop_slots widths values strs b 0 kinds cursors in
    let? m := detokenize template ws vs ss in
    let? rest := replay dict kinds_by_id widths values strs base ids' cursors' in
    Ok (m :: rest)
  end.

Definition decode_template_str (bytes : list byte) (n : nat) : result (list str) :=
  let? (st, r) := read_stored bytes in
  let? _ := check_trailing r in
  let? ids := decode_i64 (nth 0 (stored st) []) n in
  let? dict := decode_str (nth 1 (stored st) []) (dict_n st) in
  let? widths := decode_u8 (nth 2 (stored st) []) (num_n st) in
  let? values := decode_i64 (nth 3 (stored st) []) (num_n st) in
  let? strs := decode_str (nth 4 (stored st) []) (str_n st) in
  let kinds_by_id := map slot_kinds dict in
  let? _ := check_ids 0 (dict_n st) ids in
  let? (base, groups) := group_layout ids kinds_by_id (num_n st) (str_n st) in
  replay dict kinds_by_id widths values strs base ids (map g_start groups).
End Codec.

(** ** The dictionary *)

(** A row of the block: a message's template id and variables. *)
Definition row_of (split_runs : bool) (dict : list str) (m : str) (row : Z * list Var) : Prop :=
  exists t, tokenize m split_runs = (t, row.2) /\ 0 <= row.1 /\ dict !! Z.to_nat row.1 = Some t.

Lemma tokenize_block_go_spec sr msgs : forall dm d0,
  (forall t id, dm !! t = Some id -> 0 <= id /\ d0 !! Z.to_nat id = Some t) ->
  let tk := tokenize_block_go dm d0 msgs sr in
  d0 `prefix_of` dict tk /\ length (ids tk) = length msgs /\ length (msg_vars tk) = length msgs /\
  Forall2 (row_of sr (dict tk)) msgs (zip (ids tk) (msg_vars tk)) /\
  Forall (fun t => t ∈ d0 \/ exists m, m ∈ msgs /\ t = (tokenize m sr).1) (dict tk) /\
  (length (dict tk) <= length d0 + length msgs)%nat /\
  (strs_size (dict tk) <= strs_size d0 + strs_size (map (fun m => (tokenize m sr).1) msgs))%nat.
Proof.
  induction msgs as [|m msgs IH]; intros dm d0 Hdm; simpl.
  { split_and!; try done; try lia. apply Forall_forall; auto. }
  destruct (tokenize m sr) as [t vs] eqn:Et. destruct (dm !! t) as [id|] eqn:Ed; simpl.
  - destruct (IH dm d0 Hdm) as (Hp & Hi & Hv & Hr & Hd & Hl & Hz). destruct (Hdm _ _ Ed) as [H0 Hid].
    split_and!; try done; simpl; try lia.
    + constructor; [|done]. exists t. split_and!; [done|done|]. eapply prefix_lookup_Some; eauto.
    + eapply Forall_impl; [exact Hd|]. simpl. intros x [?|(m' & ? & ?)]; [by left|].
      right. exists m'. split; [by right|done].
  - destruct (IH (<[t := Z.of_nat (length d0)]> dm) (d0 ++ [t])) as (Hp & Hi & Hv & Hr & Hd & Hl & Hz).
    { intros t' id' H. apply lookup_insert_Some in H as [[<- <-]|[Hne H]].
      - split; [lia|]. rewrite Nat2Z.id. by apply list_lookup_middle.
      - destruct (Hdm _ _ H) as [? Hl]. split; [done|]. rewrite lookup_app_l; [done|]. by eapply lookup_lt_Some. }
    split_and!; try done; simpl; try lia.
    + by eapply prefix_app_l.
    + constructor; [|done]. exists t. split_and!; [done|simpl; lia|]. simpl. rewrite Nat2Z.id.
      eapply prefix_lookup_Some; [|exact Hp]. by apply list_lookup_middle.
    + eapply Forall_impl; [exact Hd|]. simpl. intros x [Hx|(m' & ? & ?)].
      * apply elem_of_app in Hx as [Hx|Hx%list_elem_of_singleton]; [by left|]. right. exists m.
        split; [left|]. by rewrite Et.
      * right. exists m'. split; [by right|done].
    + rewrite length_app in Hl. simpl in Hl. lia.
    + unfold strs_size in *. rewrite sum_list_with_app in Hz. simpl in Hz |- *. lia.
Qed.

(** ** Sizes and groups *)

Section GroupLemmas.
Context {V W : Type} (f : V -> W).
Definition fmap_snd (m : list (GroupKey * V)) : list (GroupKey * W) := map (prod_map id f) m.

Lemma btm_get_fmap k m : btm_get k (fmap_snd m) = option_map f (btm_get k m).
Proof.
  induction m as [|[k' v] m IH]; simpl; [done|]. case_match; auto.
Qed.
Lemma btm_insert_fmap k v m : fmap_snd (btm_insert k v m) = btm_insert k (f v) (fmap_snd m).
Proof.
  induction m as [|[k' v'] m IH]; simpl; [done|]. case_match; [done..|]. by rewrite <-IH.
Qed.
End GroupLemmas.

(** The decoder's sizes are the lengths of the encoder's groups. *)
Definition lens (g : list (GroupKey * list Var)) : list (GroupKey * nat) := fmap_snd length g.

Lemma lens_update k v g : lens (btm_update [] (fun vs => vs ++ [v]) k g) = btm_update 0%nat S k (lens g).
Proof.
  unfold btm_update, lens. rewrite btm_insert_fmap, btm_get_fmap. f_equal.
  rewrite length_app. simpl. destruct (btm_get k g); simpl; lia.
Qed.

Lemma lens_slots id vs : forall k g,
  lens (fold_left (fun g '(slot, v) => btm_update [] (fun vs => vs ++ [v]) (id, as_u32 slot) g)
          (imap (fun i v => ((k + i)%nat, v)) vs) g) =
  fold_left (fun s slot => btm_update 0%nat S (id, as_u32 slot) s) (seq k (length vs)) (lens g).
Proof.
  induction vs as [|v vs IH]; intros k g; simpl; [done|].
  rewrite (imap_ext (_ ∘ S) (fun i v => ((S k + i)%nat, v))) by (intros; simpl; f_equal; lia).
  by rewrite IH, lens_update, Nat.add_0_r.
Qed.

Lemma lens_row id vs g :
  lens (group_row g (id, vs)) =
  fold_left (fun s slot => btm_update 0%nat S (id, as_u32 slot) s) (seq 0 (length vs)) (lens g).
Proof. exact (lens_slots id vs 0 g). Qed.

Lemma count_sizes_groups kbi rows : forall g,
  Forall (fun row => exists ks, kbi !! key_index row.1 = Some ks /\ length ks = length row.2) rows ->
  count_sizes kbi (rows.*1) (lens g) = Ok (lens (fold_left group_row rows g)).
Proof.
  induction rows as [|[id vs] rows IH]; intros g Hr; simpl; [done|].
  inversion_clear Hr as [|? ? (ks & Hk & Hl) Hr']. simpl in Hk, Hl.
  unfold index. rewrite Hk. cbn [ok_or]. rewrite Hl, <-lens_row. by apply IH.
Qed.

(** The variable a row contributes to a group. *)
Definition slot_var (key : GroupKey) (row : Z * list Var) : option Var :=
  if decide (row.1 = key.1 /\ 0 <= key.2) then row.2 !! Z.to_nat key.2 else None.

(** A group's values, in message order. *)
Definition column (rows : list (Z * list Var)) (key : GroupKey) : list Var := omap (slot_var key) rows.

Definition push_opt (o : option (list Var)) (vs : list Var) : option (list Var) :=
  match vs with [] => o | _ => Some (default [] o ++ vs) end.

Lemma push_opt_app o a b : push_opt (push_opt o a) b = push_opt o (a ++ b).
Proof.
  destruct a as [|x a]; [done|]. destruct b as [|y b]; simpl; [by rewrite List.app_nil_r|].
  by rewrite <-List.app_assoc.
Qed.

Lemma slots_get id vs : forall k g key,
  Z.of_nat (k + length vs) <= 2 ^ 32 ->
  btm_get key (fold_left (fun g '(slot, v) => btm_update [] (fun vs => vs ++ [v]) (id, as_u32 slot) g)
                 (imap (fun i v => ((k + i)%nat, v)) vs) g) =
  push_opt (btm_get key g)
    (option_list (if decide (id = key.1 /\ Z.of_nat k <= key.2) then vs !! (Z.to_nat key.2 - k)%nat else None)).
Proof.
  induction vs as [|v vs IH]; intros k g [i z] Hk.
  { simpl. by destruct (decide _). }
  simpl length in Hk. simpl imap. cbn [fold_left].
  rewrite (imap_ext (_ ∘ S) (fun i v => ((S k + i)%nat, v))) by (intros; simpl; f_equal; lia).
  rewrite IH by lia. rewrite Nat.add_0_r. unfold btm_update at 1.
  assert (as_u32 k = Z.of_nat k) as -> by (unfold as_u32; apply Z.mod_small; lia). cbn [fst snd].
  destruct (decide ((id, Z.of_nat k) = (i, z))) as [[= -> <-]|Hne].
  - rewrite btm_get_insert_eq. destruct (decide (i = i /\ Z.of_nat (S k) <= Z.of_nat k)) as [[_ ?]|_]; [lia|].
    destruct (decide _) as [_|Hno]; [|destruct Hno; split; [done|lia]].
    rewrite Nat2Z.id, Nat.sub_diag. done.
  - rewrite btm_get_insert_ne by done. f_equal. f_equal.
    destruct (decide (id = i /\ Z.of_nat (S k) <= z)) as [[Hi Hz]|Hno],
      (decide (id = i /\ Z.of_nat k <= z)) as [[? Hz']|Hno']; try done.
    + by replace (Z.to_nat z - k)%nat with (S (Z.to_nat z - S k)) by lia.
    + destruct Hno'. split; [done|lia].
    + subst. destruct Hno. split; [done|]. assert (z <> Z.of_nat k) by congruence. lia.
Qed.

Lemma group_row_get g row key :
  Z.of_nat (length row.2) <= 2 ^ 32 ->
  btm_get key (group_row g row) = push_opt (btm_get key g) (option_list (slot_var key row)).
Proof.
  intros Hl. destruct row as [id vs]. unfold group_row, slot_var.
  pose proof (slots_get id vs 0 g key Hl) as H. simpl in H |- *. rewrite Nat.sub_0_r in H. exact H.
Qed.

Lemma groups_get rows : forall g key,
  Forall (fun row => Z.of_nat (length row.2) <= 2 ^ 32) rows ->
  btm_get key (fold_left group_row rows g) = push_opt (btm_get key g) (column rows key).
Proof.
  induction rows as [|row rows IH]; intros g key Hr; [done|]. inversion_clear Hr as [|? ? Hr1 Hr2]. simpl.
  rewrite IH, group_row_get, push_opt_app by done. f_equal. unfold column. simpl.
  by destruct (slot_var key row).
Qed.

Lemma btm_update_wf {V} d (f : V -> V) k m : btm_wf m -> btm_wf (btm_update d f k m).
Proof. apply btm_insert_wf. Qed.

Lemma groups_wf rows : forall g, btm_wf g -> btm_wf (fold_left group_row rows g).
Proof.
  induction rows as [|row rows IH]; intros g Hg; [done|]. simpl. apply IH. unfold group_row.
  generalize (imap pair row.2). intros l. revert g Hg.
  induction l as [|[slot v] l IHl]; intros g Hg; [done|]. simpl. apply IHl. by apply btm_update_wf.
Qed.

(** ** Layout *)

Section LayoutLemmas.
Context (kbi : list (list VarKind)).

Definition entry_kind (key : GroupKey) : option VarKind :=
  match kbi !! key_index key.1 with Some ks => ks !! key_index key.2 | None => None end.

(** A group holds variables of the kind its slot has. *)
Definition entry_ok (e : GroupKey * list Var) : Prop :=
  exists k, entry_kind e.1 = Some k /\ Forall (fun v => kind v = k) e.2.

(** Variables of kind [k] in the groups [A]. *)
Definition offs (k : VarKind) (A : list (GroupKey * list Var)) : nat :=
  length (filter (fun v => kind v = k) (concat (map snd A))).

Lemma offs_snoc k A e :
  entry_ok e -> offs k (A ++ [e]) = (offs k A + if decide (entry_kind e.1 = Some k) then length e.2 else 0)%nat.
Proof.
  intros (k' & Hk & Hv). unfold offs. rewrite map_app, concat_app, filter_app, length_app. f_equal.
  simpl. rewrite List.app_nil_r. destruct (decide _) as [E|E].
  - rewrite Hk in E. injection E as ->. by rewrite list_filter_all.
  - rewrite list_filter_none; [done|]. eapply Forall_impl; [exact Hv|]. simpl. intros v ->. congruence.
Qed.

Definition base_inv (done : list (GroupKey * list Var)) (i : nat) (b : option nat) : Prop :=
  match b with
  | Some p => (exists e : GroupKey * list Var, done !! p = Some e /\ key_index e.1.1 = i) /\
              forall q (e : GroupKey * list Var), (q < p)%nat -> done !! q = Some e -> key_index e.1.1 <> i
  | None => forall q (e : GroupKey * list Var), done !! q = Some e -> key_index e.1.1 <> i
  end.

Definition layout_inv (done : list (GroupKey * list Var)) (st : Layout) : Prop :=
  (length (groups st) = length done /\
   forall p e, done !! p = Some e -> exists k, entry_kind e.1 = Some k /\
     groups st !! p = Some (mkGroup k (offs k (take p done)) (length e.2))) /\
  num_off st = offs Num done /\ str_off st = offs Str done /\
  length (base st) = length kbi /\ forall i b, base st !! i = Some b -> base_inv done i b.

Lemma base_inv_snoc done e i b :
  base_inv done i b ->
  base_inv (done ++ [e]) i
    (if decide (key_index e.1.1 = i) then match b with None => Some (length done) | _ => b end else b).
Proof.
  intros Hb. destruct b as [p|]; simpl in Hb.
  - assert (base_inv (done ++ [e]) i (Some p)) as H; [|by destruct (decide _)].
    destruct Hb as [(e' & He' & Hi) Hq]. split.
    + exists e'. split; [|done]. rewrite lookup_app_l; [done|]. by eapply lookup_lt_Some.
    + intros q e'' Hlt Hqe. apply (Hq q); [done|]. rewrite lookup_app_l in Hqe; [done|].
      apply lookup_lt_Some in He'. lia.
  - assert (forall q e', done !! q = Some e' -> key_index e'.1.1 <> i) as Hb' by exact Hb.
    destruct (decide (key_index e.1.1 = i)) as [Hi|Hi]; simpl.
    + split; [exists e; split; [by apply list_lookup_middle|done]|].
      intros q e' Hlt Hqe. rewrite lookup_app_l in Hqe by done. by apply (Hb' q).
    + intros q e' Hqe. apply lookup_app_Some in Hqe as [Hqe|[_ Hqe]]; [by apply (Hb' q)|].
      apply list_lookup_singleton_Some in Hqe as [_ <-]. done.
Qed.

Lemma layout_step done e st :
  entry_ok e -> layout_inv done st ->
  exists st', (forall sizes, layout_go kbi ((e.1, length e.2) :: sizes) st = layout_go kbi sizes st') /\
    layout_inv (done ++ [e]) st'.
Proof.
  intros He ((Hgl & Hg) & Hn & Hs & Hbl & Hb). pose proof He as (k & Hk & Hv).
  destruct e as [[id slot] vs]. simpl in *. pose proof Hk as Hk0. unfold entry_kind in Hk. simpl in Hk.
  destruct (kbi !! key_index id) as [ks|] eqn:Eks; [|done].
  destruct (lookup_lt_is_Some_2 (base st) (key_index id)) as [b Eb].
  { rewrite Hbl. by eapply lookup_lt_Some. }
  set (base' := match b with None => <[key_index id := Some (length (groups st))]> (base st) | Some _ => base st end).
  assert (length base' = length kbi /\ forall i b', base' !! i = Some b' -> base_inv (done ++ [((id, slot), vs)]) i b')
    as Hb'.
  { split; [unfold base'; destruct b; rewrite ?length_insert; done|]. intros i b' Hi.
    assert (exists b0, base st !! i = Some b0 /\
      b' = if decide (key_index id = i) then match b0 with None => Some (length done) | _ => b0 end else b0)
      as (b0 & Hb0 & ->); [|by apply (base_inv_snoc done (id, slot, vs)), Hb].
    unfold base' in Hi. destruct (decide (key_index id = i)) as [<-|Hne].
    - exists b. split; [done|]. destruct b; [congruence|].
      rewrite list_lookup_insert_eq in Hi by (by eapply lookup_lt_Some). injection Hi as <-. by rewrite Hgl.
    - exists b'. split; [|done]. destruct b; [done|]. by rewrite list_lookup_insert_ne in Hi. }
  eexists. split.
  { intros sizes. cbn [layout_go]. unfold index. rewrite Eb. cbn [ok_or]. rewrite Eks. cbn [ok_or].
    rewrite Hk. cbn [ok_or]. fold base'. reflexivity. }
  assert (forall k', offs k' (done ++ [((id, slot), vs)]) = (offs k' done + if decide (k = k') then length vs else 0)%nat) as Ho.
  { intros k'. rewrite offs_snoc by done. simpl. f_equal. rewrite Hk0.
    destruct (decide (Some k = Some k')), (decide (k = k')); congruence. }
  assert (forall st0, base st0 = base' -> groups st0 = groups st ++ [mkGroup k (offs k done) (length vs)] ->
    num_off st0 = offs Num (done ++ [((id, slot), vs)]) -> str_off st0 = offs Str (done ++ [((id, slot), vs)]) ->
    layout_inv (done ++ [((id, slot), vs)]) st0) as Hfin.
  { intros st0 H1 H2 H3 H4. unfold layout_inv. rewrite H1, H2, H3, H4. destruct Hb' as [Hb1 Hb2].
    split; [|by split_and!]. split; [rewrite !length_app; simpl; lia|]. intros p e Hp.
    apply lookup_app_Some in Hp as [Hp|[Hp He']].
    - destruct (Hg p e Hp) as (k' & Hk' & Hgp). exists k'. split; [done|].
      pose proof (lookup_lt_Some _ _ _ Hp). rewrite lookup_app_l by lia. rewrite Hgp.
      by rewrite take_app_le by lia.
    - apply list_lookup_singleton_Some in He' as [Hp0 <-]. assert (p = length done) as -> by lia.
      exists k. split; [done|]. rewrite take_app_length. rewrite lookup_app_r, Hgl, Nat.sub_diag by lia. done. }
  destruct k; apply Hfin; simpl; rewrite ?Ho, ?Hn, ?Hs; try done; simpl; lia.
Qed.

Lemma layout_go_spec rest : forall done st,
  Forall entry_ok rest -> layout_inv done st ->
  exists st', layout_go kbi (lens rest) st = Ok st' /\ layout_inv (done ++ rest) st'.
Proof.
  induction rest as [|e rest IH]; intros done st Hr Hi.
  { exists st. by rewrite List.app_nil_r. }
  inversion_clear Hr as [|? ? He Hr']. destruct (layout_step done e st He Hi) as (st' & Hgo & Hi').
  destruct (IH (done ++ [e]) st' Hr' Hi') as (st2 & Hgo2 & Hi2). exists st2.
  rewrite <-List.app_assoc in Hi2. split; [|done]. destruct e as [key vs].
  change (lens ((key, vs) :: rest)) with ((key, length vs) :: lens rest).
  specialize (Hgo (lens rest)). simpl fst in Hgo. simpl snd in Hgo. by rewrite Hgo.
Qed.
End LayoutLemmas.

(** ** Positions of groups *)

(** In a strictly sorted list the next larger value without one in between is
    the next element. *)
Lemma sorted_next {K} `{Ord K} (l : list K) p a b :
  StronglySorted klt l -> l !! p = Some a -> b ∈ l -> klt a b ->
  (forall c, c ∈ l -> klt a c -> c = b \/ klt b c) -> l !! S p = Some b.
Proof.
  intros Hs. revert p. induction Hs as [|x l Hs IH Hx]; intros p Ha Hb Hab Hbetween; [done|].
  rewrite Forall_forall in Hx. destruct p as [|p]; simpl in *.
  - injection Ha as ->. apply elem_of_cons in Hb as [->|Hb]; [by apply klt_irrefl in Hab|].
    destruct l as [|y l]; [by apply not_elem_of_nil in Hb|]. simpl. f_equal.
    destruct (Hbetween y) as [?|Hyb]; [right; left|apply Hx; left|done|].
    inversion_clear Hs as [|? ? _ Hy]. rewrite Forall_forall in Hy.
    apply elem_of_cons in Hb as [->|Hb]; [done|]. apply Hy in Hb.
    exfalso. apply (klt_irrefl y). by transitivity b.
  - apply IH; [done| |done|].
    + apply elem_of_cons in Hb as [->|Hb]; [|done].
      exfalso. apply (klt_irrefl x). transitivity a; [|done]. apply Hx. by eapply list_elem_of_lookup_2.
    + intros c Hc. apply Hbetween. by right.
Qed.

Lemma sorted_lookup_lt {K} `{Ord K} (l : list K) p q a b :
  StronglySorted klt l -> l !! p = Some a -> l !! q = Some b -> (p < q)%nat -> klt a b.
Proof.
  intros Hs. revert p q. induction Hs as [|x l Hs IH Hx]; intros p q Ha Hb Hpq; [done|].
  destruct p as [|p], q as [|q]; try lia; simpl in *; [|eapply IH; eauto; lia].
  injection Ha as ->. rewrite Forall_forall in Hx. apply Hx. by eapply list_elem_of_lookup_2.
Qed.

Lemma key_lt (a b : GroupKey) : klt a b <-> a.1 < b.1 \/ (a.1 = b.1 /\ a.2 < b.2).
Proof.
  destruct a as [a1 a2], b as [b1 b2]. unfold klt. cbn. unfold pair_cmp. cbn.
  destruct (Z.compare_spec a1 b1); cbn; rewrite ?Z.compare_lt_iff; intuition (try lia; try done).
Qed.

Section Positions.
Context (rows : list (Z * list Var)) (kbi : list (list VarKind)).
(** Every row's template has the kinds of its variables. *)
Definition row_ok (row : Z * list Var) : Prop :=
  0 <= row.1 /\ kbi !! key_index row.1 = Some (map kind row.2) /\ Z.of_nat (length row.2) <= 2 ^ 32.
Context (Hrows : Forall row_ok rows).
Let G := fold_left group_row rows [].

Lemma G_wf : btm_wf G.
Proof. apply groups_wf. constructor. Qed.

Lemma G_get key : btm_get key G = push_opt None (column rows key).
Proof.
  unfold G. rewrite groups_get; [done|]. eapply Forall_impl; [exact Hrows|]. by intros row (_ & _ & ?).
Qed.

Lemma G_entry key vs : (key, vs) ∈ G <-> vs = column rows key /\ vs <> [].
Proof.
  rewrite <-(btm_get_elem key vs G G_wf), G_get. unfold push_opt.
  destruct (column rows key) eqn:E; simpl; [split; [done|by intros [-> ?]]|].
  split; [by intros [= <-]|by intros [-> _]].
Qed.

Lemma G_keys key : key ∈ G.*1 <-> column rows key <> [].
Proof.
  rewrite <-btm_get_is_Some, G_get. unfold push_opt.
  destruct (column rows key); [split; [by intros [? ?]|done]|]. split; [done|by eexists].
Qed.

Lemma slot_var_Some key row v :
  slot_var key row = Some v <-> row.1 = key.1 /\ 0 <= key.2 /\ row.2 !! Z.to_nat key.2 = Some v.
Proof. unfold slot_var. destruct (decide _) as [[? ?]|]; [tauto|]. split; [done|]. intros (? & ? & _). tauto. Qed.

Lemma column_nonempty key :
  column rows key <> [] <->
  0 <= key.1 /\ 0 <= key.2 /\ exists row v, row ∈ rows /\ row.1 = key.1 /\ row.2 !! Z.to_nat key.2 = Some v.
Proof.
  unfold column. split.
  - destruct (omap (slot_var key) rows) as [|v l] eqn:E; [done|]. intros _.
    assert (v ∈ omap (slot_var key) rows) as Hv by (rewrite E; left).
    apply list_elem_of_omap in Hv as (row & Hin & Hsv). apply slot_var_Some in Hsv as (Hi & Hz & Hl).
    rewrite Forall_forall in Hrows. destruct (Hrows _ Hin) as [? _]. split; [lia|].
    split; [done|]. by exists row, v.
  - intros (_ & Hz & row & v & Hin & Hi & Hl) Hnil.
    assert (v ∈ omap (slot_var key) rows) as Hv.
    { apply list_elem_of_omap. exists row. split; [done|]. by apply slot_var_Some. }
    rewrite Hnil in Hv. by apply not_elem_of_nil in Hv.
Qed.

Lemma column_kinds key :
  column rows key <> [] ->
  exists k, entry_kind kbi key = Some k /\ Forall (fun v => kind v = k) (column rows key).
Proof.
  intros H. apply column_nonempty in H as (_ & Hz & row & v & Hin & Hi & Hl).
  rewrite Forall_forall in Hrows. destruct (Hrows _ Hin) as (_ & Hk & _).
  exists (kind v). unfold entry_kind. rewrite <-Hi, Hk. unfold key_index. split.
  - by rewrite list_lookup_fmap, Hl.
  - apply Forall_forall. intros v' Hv'. apply list_elem_of_omap in Hv' as (row' & Hin' & Hsv).
    apply slot_var_Some in Hsv as (Hi' & _ & Hl'). destruct (Hrows _ Hin') as (_ & Hk' & _).
    rewrite Hi', <-Hi, Hk in Hk'. injection Hk' as Hk'.
    apply (f_equal (fun l => l !! Z.to_nat key.2)) in Hk'. rewrite !list_lookup_fmap, Hl, Hl' in Hk'.
    by injection Hk'.
Qed.

Lemma G_entries_ok : Forall (entry_ok kbi) G.
Proof.
  apply Forall_forall. intros [key vs] He. apply G_entry in He as [-> Hne]. by apply column_kinds.
Qed.

(** A row's groups sit at consecutive positions. *)
Lemma G_slot_position id vs p s :
  (id, vs) ∈ rows -> (s < length vs)%nat -> G.*1 !! p = Some (id, 0) ->
  G.*1 !! (p + s)%nat = Some (id, Z.of_nat s).
Proof.
  intros Hin Hs Hp. induction s as [|s IH]; [by rewrite Nat.add_0_r|]. rewrite Nat.add_succ_r.
  apply (sorted_next _ _ (id, Z.of_nat s)); [apply G_wf|apply IH; lia| | |].
  - destruct (lookup_lt_is_Some_2 vs (S s) Hs) as [v Hv]. apply G_keys, column_nonempty. cbn [fst snd].
    assert (0 <= id) by (rewrite Forall_forall in Hrows; apply (Hrows _ Hin)).
    split; [lia|]. split; [lia|]. exists (id, vs), v. by rewrite Nat2Z.id.
  - apply key_lt. simpl. lia.
  - intros [i z] _ Hlt. apply key_lt in Hlt. simpl in Hlt.
    destruct (decide ((i, z) = (id, Z.of_nat (S s)))) as [|Hne]; [by left|]. right.
    apply key_lt. simpl. destruct Hlt as [|[-> ?]]; [lia|]. right. split; [done|].
    assert (z <> Z.of_nat (S s)) by congruence. lia.
Qed.

Lemma G_base_position st id vs :
  layout_inv kbi G st -> (id, vs) ∈ rows -> vs <> [] ->
  exists p, base st !! key_index id = Some (Some p) /\ G.*1 !! p = Some (id, 0).
Proof.
  intros (_ & _ & _ & Hbl & Hb) Hin Hne.
  destruct (proj1 (Forall_forall _ _) Hrows _ Hin) as (Hid & Hk & _). simpl in Hid, Hk.
  destruct (lookup_lt_is_Some_2 (base st) (key_index id)) as [b Eb]; [rewrite Hbl; by eapply lookup_lt_Some|].
  assert ((id, 0) ∈ G.*1) as H0.
  { destruct vs as [|v vs]; [done|]. apply G_keys, column_nonempty. simpl. split; [done|]. split; [lia|].
    by exists (id, v :: vs), v. }
  apply list_elem_of_lookup in H0 as [q Hq]. pose proof Hq as Hq'. rewrite list_lookup_fmap in Hq'.
  destruct (G !! q) as [[key gvs]|] eqn:Eq; [|done]. injection Hq' as ->.
  pose proof (Hb _ _ Eb) as Hbi. destruct b as [p|]; simpl in Hbi; [|by destruct (Hbi _ _ Eq)].
  exists p. split; [done|]. destruct Hbi as [(e & He & Hei) Hfirst].
  assert (p <= q)%nat as Hpq.
  { destruct (Nat.le_gt_cases p q); [done|]. exfalso. by apply (Hfirst q _ ltac:(lia) Eq). }
  destruct (decide (p = q)) as [->|Hneq]; [done|]. exfalso.
  destruct e as [[i z] evs]. assert (G.*1 !! p = Some (i, z)) as Hpk by (by rewrite list_lookup_fmap, He).
  pose proof (sorted_lookup_lt _ p q _ _ G_wf Hpk Hq ltac:(lia)) as Hlt. apply key_lt in Hlt.
  assert ((i, z) ∈ G.*1) as Hz by (by eapply list_elem_of_lookup_2).
  apply G_keys, column_nonempty in Hz as (Hi0 & Hz0 & _). simpl in *. unfold key_index in Hei. lia.
Qed.
End Positions.

(** ** Replaying the messages *)

(** The variables of group [p] lie in their typed stream from the group's offset. *)
Lemma stream_lookup kbi G p key gvs k j v :
  Forall (entry_ok kbi) G -> G !! p = Some (key, gvs) -> entry_kind kbi key = Some k ->
  gvs !! j = Some v ->
  filter (fun v => kind v = k) (concat (map snd G)) !! (offs k (take p G) + j)%nat = Some v.
Proof.
  intros HG Hp Hk Hj. assert (entry_ok kbi (key, gvs)) as (k' & Hk' & Hv)
    by (rewrite Forall_lookup in HG; by eapply HG).
  cbn [fst snd] in Hk', Hv. rewrite Hk in Hk'. injection Hk' as <-.
  assert (concat (map snd G) = concat (map snd (take p G)) ++ gvs ++ concat (map snd (drop (S p) G))) as ->.
  { rewrite <-(take_drop_middle G p (key, gvs) Hp) at 1. by rewrite map_app, concat_app. }
  rewrite !filter_app, (list_filter_all _ gvs) by done.
  unfold offs. rewrite lookup_app_r, Nat.add_comm, Nat.add_sub by lia.
  rewrite lookup_app_l; [done|]. by eapply lookup_lt_Some.
Qed.

Section Replay.
Context (rows : list (Z * list Var)) (kbi : list (list VarKind)) (st : Layout).
Context (Hrows : Forall (row_ok kbi) rows).
Let G := fold_left group_row rows [].
Context (Hst : layout_inv kbi G st).
Let flat := concat (map snd G).

(** The cursors once the rows [before] and the slots below [s] of a message of
    template [id] were popped. *)
Definition cursors_at (before : list (Z * list Var)) (id : Z) (s : nat) (cursors : list nat) : Prop :=
  forall p key (gvs : list Var) k, G !! p = Some (key, gvs) -> entry_kind kbi key = Some k ->
    cursors !! p = Some (offs k (take p G) + length (column before key) +
                         if decide (key.1 = id /\ (key.2 < Z.of_nat s)%Z) then 1 else 0)%nat.

Lemma cursors_start id : cursors_at [] id 0 (map g_start (groups st)).
Proof.
  intros p key gvs k Hp Hk. destruct Hst as ((Hgl & Hg) & _).
  destruct (Hg p _ Hp) as (k' & Hk' & Hgp). simpl in Hk'. rewrite Hk in Hk'. injection Hk' as <-.
  rewrite list_lookup_fmap, Hgp. simpl. destruct (decide _) as [[_ ?]|]; [|f_equal; lia].
  assert ((key, gvs) ∈ G) as Hin by (by eapply list_elem_of_lookup_2).
  apply (G_entry rows kbi Hrows) in Hin as [-> Hne]. apply (column_nonempty rows kbi Hrows) in Hne. lia.
Qed.

(** Popping every slot of a message moves on to the next message. *)
Lemma cursors_next before id vs id' cursors :
  (id, vs) ∈ rows -> cursors_at before id (length vs) cursors ->
  cursors_at (before ++ [(id, vs)]) id' 0 cursors.
Proof.
  intros Hin Hc p key gvs k Hp Hk. rewrite (Hc p key gvs k Hp Hk). f_equal.
  assert ((key, gvs) ∈ G) as HG by (by eapply list_elem_of_lookup_2).
  apply (G_entry rows kbi Hrows) in HG as [-> Hne].
  pose proof Hne as (_ & Hz & row & v & Hrow & Hi & Hv)%(column_nonempty rows kbi Hrows).
  pose proof (proj1 (Forall_forall _ _) Hrows) as Hr.
  destruct (decide (key.1 = id' /\ key.2 < Z.of_nat 0)) as [[_ ?]|_]; [lia|].
  unfold column. rewrite omap_app, length_app. simpl. unfold slot_var at 3. simpl.
  destruct (decide (key.1 = id /\ key.2 < Z.of_nat (length vs))) as [[He Hl]|Hno].
  - destruct (decide _) as [|Hd]; [|destruct Hd; by split].
    destruct (lookup_lt_is_Some_2 vs (Z.to_nat key.2)) as [x ->]; [lia|]. simpl. lia.
  - destruct (decide _) as [[He _]|_]; simpl; [|lia].
    destruct (vs !! Z.to_nat key.2) eqn:E; simpl; [|lia].
    apply lookup_lt_Some in E. destruct Hno. split; [done|lia].
Qed.

(** The next value of each group of a message's template is that message's. *)
Lemma column_here before id vs after s v :
  rows = before ++ (id, vs) :: after -> vs !! s = Some v ->
  column rows (id, Z.of_nat s) !! length (column before (id, Z.of_nat s)) = Some v.
Proof.
  intros -> Hv. unfold column. rewrite omap_app. simpl.
  assert (slot_var (id, Z.of_nat s) (id, vs) = Some v) as ->.
  { apply slot_var_Some. simpl. rewrite Nat2Z.id. split; [done|]. split; [lia|done]. }
  by apply list_lookup_middle.
Qed.

(** Advancing the cursor of slot [s]. *)
Lemma cursors_bump before id s p gvs k cursors :
  G !! p = Some ((id, Z.of_nat s), gvs) -> entry_kind kbi (id, Z.of_nat s) = Some k ->
  cursors_at before id s cursors ->
  let c := (offs k (take p G) + length (column before (id, Z.of_nat s)))%nat in
  cursors !! p = Some c /\ cursors_at before id (S s) (<[p := S c]> cursors).
Proof.
  intros Ep Hk Hc c. pose proof (Hc _ _ _ _ Ep Hk) as Hcur. simpl in Hcur.
  destruct (decide (id = id /\ Z.of_nat s < Z.of_nat s)) as [[_ ?]|_]; [lia|]. rewrite Nat.add_0_r in Hcur.
  split; [done|]. intros q key gvs' k' Hq Hk'. destruct (decide (q = p)) as [->|Hne].
  - rewrite Ep in Hq. injection Hq as <- <-. rewrite Hk in Hk'. injection Hk' as <-.
    rewrite list_lookup_insert_eq by (by eapply lookup_lt_Some). simpl. destruct (decide _) as [|Hd0]; [|lia].
    f_equal. unfold c. lia.
  - rewrite list_lookup_insert_ne by done. rewrite (Hc _ _ _ _ Hq Hk'). do 2 f_equal.
    assert (key <> (id, Z.of_nat s)) as Hkey.
    { intros ->. apply Hne. apply (NoDup_lookup G.*1 _ _ (id, Z.of_nat s)).
      - apply StronglySorted_klt_NoDup, G_wf.
      - by rewrite list_lookup_fmap, Hq.
      - by rewrite list_lookup_fmap, Ep. }
    destruct key as [i z]. simpl. destruct (decide _) as [[Hi ?]|Hd0], (decide _) as [[Hi' ?]|Hd1]; try done.
    + destruct Hd1. split; [done|lia].
    + destruct Hd0. split; [done|]. assert (z <> Z.of_nat s) by congruence. lia.
Qed.

(** The group of a slot of a message: where it is and what its stream holds at
    the cursor. *)
Lemma slot_group before id vs after p0 s v :
  rows = before ++ (id, vs) :: after -> G.*1 !! p0 = Some (id, 0) -> vs !! s = Some v ->
  exists gvs, G !! (p0 + s)%nat = Some ((id, Z.of_nat s), gvs) /\
    entry_kind kbi (id, Z.of_nat s) = Some (kind v) /\
    filter (fun x => kind x = kind v) flat !!
      (offs (kind v) (take (p0 + s) G) + length (column before (id, Z.of_nat s)))%nat = Some v.
Proof.
  intros Heq Hp0 Hv. assert ((id, vs) ∈ rows) as Hin by (rewrite Heq; apply elem_of_app; right; left).
  pose proof (G_slot_position rows kbi Hrows id vs p0 s Hin (lookup_lt_Some _ _ _ Hv) Hp0) as Hpos.
  fold G in Hpos. rewrite list_lookup_fmap in Hpos.
  destruct (G !! (p0 + s)%nat) as [[key gvs]|] eqn:Ep; [|done]. injection Hpos as ->.
  exists gvs. assert ((id, Z.of_nat s, gvs) ∈ G) as HG by (by eapply list_elem_of_lookup_2).
  apply (G_entry rows kbi Hrows) in HG as [Hgvs _].
  assert (entry_kind kbi (id, Z.of_nat s) = Some (kind v)) as Hk.
  { destruct (proj1 (Forall_forall _ _) Hrows _ Hin) as (_ & Hk & _). unfold entry_kind, key_index in *.
    simpl in *. by rewrite Hk, Nat2Z.id, list_lookup_fmap, Hv. }
  split_and!; [done|done|]. apply (stream_lookup kbi _ _ (id, Z.of_nat s) gvs); [by apply G_entries_ok|done|done|].
  rewrite Hgvs. by eapply column_here.
Qed.

Lemma pop_slots_spec before id vs after b :
  rows = before ++ (id, vs) :: after ->
  (vs <> [] -> exists p0, b = Some p0 /\ G.*1 !! p0 = Some (id, 0)) ->
  forall todo s cursors, drop s vs = todo -> (s <= length vs)%nat -> cursors_at before id s cursors ->
  exists cursors',
    pop_slots (stream_widths flat) (stream_values flat) (strs_of flat) b s (map kind todo) cursors
      = Ok (stream_widths todo, stream_values todo, strs_of todo, cursors') /\
    cursors_at before id (length vs) cursors'.
Proof.
  intros Heq Hb. induction todo as [|v todo IH]; intros s cursors Hd Hs Hc.
  { exists cursors. split; [done|]. assert (s = length vs) as <-; [|done].
    apply (f_equal length) in Hd. rewrite length_drop in Hd. simpl in Hd. lia. }
  assert (vs !! s = Some v) as Hv by (rewrite <-(Nat.add_0_r s), <-lookup_drop, Hd; done).
  assert (drop (S s) vs = todo) as Hd' by (rewrite (drop_S vs v s Hv) in Hd; by injection Hd).
  pose proof (lookup_lt_Some _ _ _ Hv) as Hsl. destruct Hb as (p0 & -> & Hp0); [by destruct vs|].
  destruct (slot_group _ _ _ _ _ _ _ Heq Hp0 Hv) as (gvs & Ep & Hk & Hstream).
  destruct (cursors_bump _ _ _ _ _ _ _ Ep Hk Hc) as [Hcur Hbump].
  destruct (IH _ _ Hd' ltac:(lia) Hbump) as (cursors' & Hpop & Hc').
  exists cursors'. split; [|done]. cbn [map pop_slots]. unfold cursor_at. rewrite Hcur.
  unfold stream_widths, stream_values, strs_of, nums, index in *. destruct (kind v) eqn:Ekv.
  - rewrite !list_lookup_fmap, Hstream. cbn [fmap option_fmap option_map ok_or]. rewrite Hpop.
    rewrite filter_cons_True, filter_cons_False by congruence. done.
  - rewrite list_lookup_fmap, Hstream. cbn [fmap option_fmap option_map ok_or]. rewrite Hpop.
    rewrite filter_cons_False, filter_cons_True by congruence. done.
Qed.

(** Rows whose messages the dictionary's templates render. *)
Definition renders (dict : list str) (m : str) (row : Z * list Var) : Prop :=
  exists t, dict !! key_index row.1 = Some t /\
    detokenize t (stream_widths row.2) (stream_values row.2) (strs_of row.2) = Ok m.

Lemma replay_spec dict : forall after before msgs cursors,
  rows = before ++ after -> Forall2 (renders dict) msgs after ->
  (forall id, cursors_at before id 0 cursors) ->
  replay dict kbi (stream_widths flat) (stream_values flat) (strs_of flat) (base st) (after.*1) cursors = Ok msgs.
Proof.
  induction after as [|[id vs] after IH]; intros before msgs cursors Heq Hm Hc.
  { by inversion Hm. }
  inversion Hm as [|m ? msgs' ? (t & Ht & Hdet) Hm']; subst. simpl in Ht, Hdet. cbn [fmap list_fmap replay fst].
  assert ((id, vs) ∈ rows) as Hin by (rewrite Heq; apply elem_of_app; right; left).
  destruct (proj1 (Forall_forall _ _) Hrows _ Hin) as (_ & Hk & _). simpl in Hk.
  assert (exists b, base st !! key_index id = Some b /\
    (vs <> [] -> exists p0, b = Some p0 /\ G.*1 !! p0 = Some (id, 0))) as (b & Eb & Hb).
  { destruct vs as [|v vs].
    - pose proof Hst as (_ & _ & _ & Hbl & _).
      destruct (lookup_lt_is_Some_2 (base st) (key_index id)) as [b Eb]; [rewrite Hbl; by eapply lookup_lt_Some|].
      by exists b.
    - destruct (G_base_position rows kbi Hrows st id (v :: vs) Hst Hin) as (p & Hp & Hg); [done|].
      exists (Some p). split; [done|]. intros _. by exists p. }
  unfold index. rewrite Ht, Hk, Eb. cbn [ok_or].
  destruct (pop_slots_spec before id vs after b Heq Hb vs 0 cursors) as (cursors' & Hpop & Hc');
    [done|lia|apply Hc|].
  rewrite Hpop, Hdet. rewrite (IH (before ++ [(id, vs)]) msgs'); [done| |done|].
  - by rewrite <-List.app_assoc.
  - intros id'. by apply cursors_next.
Qed.
End Replay.

(** ** Sizes and validity of the streams *)

Lemma group_update_perm k (v : Var) (g : list (GroupKey * list Var)) :
  btm_wf g -> concat (map snd (btm_update [] (fun vs => vs ++ [v]) k g)) ≡ₚ concat (map snd g) ++ [v].
Proof.
  unfold btm_update, btm_wf. induction g as [|[k' vs] g IH]; intros Hg; [done|].
  simpl in Hg. inversion_clear Hg as [|? ? Hs Hk]. cbn [btm_get btm_insert].
  destruct (kcmp k k') eqn:E; simpl.
  - rewrite <-!List.app_assoc. f_equiv. apply Permutation_app_comm.
  - assert (btm_get k g = None) as ->.
    { apply btm_get_None. intros Hin. rewrite Forall_forall in Hk. specialize (Hk k Hin).
      apply (klt_irrefl k). by transitivity k'. }
    simpl. rewrite <-(Permutation_middle _ _ v), List.app_nil_r. done.
  - rewrite IH by done. by rewrite List.app_assoc.
Qed.

Lemma groups_perm rows : forall g, btm_wf g ->
  concat (map snd (fold_left group_row rows g)) ≡ₚ concat (map snd g) ++ concat (map snd rows).
Proof.
  induction rows as [|[id vs] rows IH]; intros g Hg; simpl; [by rewrite List.app_nil_r|].
  assert (btm_wf (group_row g (id, vs))) as Hw by apply (groups_wf [(id, vs)] g Hg).
  rewrite IH by done. rewrite List.app_assoc. f_equiv. clear IH Hw. unfold group_row. simpl.
  assert (vs = (imap pair vs).*2) as Hvs.
  { clear. assert (forall k, (imap (fun i v => ((k + i)%nat, v)) vs).*2 = vs) as H.
    { induction vs as [|v vs IH]; intros k; [done|]. simpl. f_equal.
      rewrite (imap_ext (_ ∘ S) (fun i v => ((S k + i)%nat, v))) by (intros; simpl; f_equal; lia). apply IH. }
    symmetry. apply (H 0%nat). }
  rewrite Hvs at 2. generalize (imap pair vs). intros l. revert g Hg.
  induction l as [|[slot v] l IHl]; intros g Hg; simpl; [by rewrite List.app_nil_r|].
  rewrite IHl by (by apply btm_update_wf). rewrite group_update_perm by done.
  by rewrite <-List.app_assoc.
Qed.

Lemma push_streams_ok vs :
  Forall var_ok vs -> push_streams vs = Ok (stream_widths vs, stream_values vs, strs_of vs).
Proof.
  unfold stream_widths, stream_values, strs_of, nums.
  induction 1 as [|[k s] vs Hv _ IH]; [done|]. destruct Hv as (_ & Hd & Hk). simpl in Hd, Hk.
  destruct k; cbn [push_streams kind text].
  - destruct Hk as [Hdig Hn]. destruct (num_run_value s Hdig) as (v & Hp & _); [by intros ->|done|].
    rewrite Hp, IH. cbn [ok_or]. rewrite filter_cons_True, filter_cons_False by done.
    cbn [map]. unfold width_of, value_of. cbn [text]. by rewrite Hp.
  - rewrite IH. by rewrite filter_cons_False, filter_cons_True by done.
Qed.

Lemma item_sizes l :
  Forall item_ok l ->
  (length (tpl l) <= 2 * length (msg l))%nat /\ (length (vars l) <= length (msg l))%nat /\
  (sum_list_with (fun v => length (text v)) (vars l) <= length (msg l))%nat.
Proof.
  unfold tpl, vars, msg. induction 1 as [|x l Hx _ IH]; simpl; [lia|]. rewrite !length_app.
  rewrite sum_list_with_app. destruct x as [c| |v]; simpl; [lia|lia|].
  assert (1 <= length (text v))%nat; [|lia]. destruct Hx as (_ & Hd & _). destruct (text v); [done|simpl; lia].
Qed.

Lemma tpl_valid l : Forall item_ok l -> is_str (tpl l).
Proof.
  unfold is_str, tpl. induction 1 as [|x l Hx _ IH]; [done|]. simpl. apply utf8_valid_app; [|done].
  destruct x as [c| |v]; [|done|by destruct v as [[] s]].
  destruct Hx as [Hc _]. cbn [tpl_of]. rewrite <-(List.app_nil_r c). by rewrite utf8_valid_char_app.
Qed.

Lemma var_text_valid v : var_ok v -> is_str (text v).
Proof.
  intros (Ht & _). unfold is_str. rewrite <-(List.app_nil_r (text v)). rewrite utf8_valid_ascii_app; [done|].
  apply Forall_forall. intros x Hx. rewrite forallb_forall in Ht.
  apply is_token_byte_ascii, Ht, list_elem_of_In, Hx.
Qed.

Lemma strs_of_size vs :
  (strs_size (strs_of vs) <= 4 * length vs + sum_list_with (fun v => length (text v)) vs)%nat /\
  (length (strs_of vs) <= length vs)%nat /\ (length (nums vs) <= length vs)%nat.
Proof.
  unfold strs_of, nums. induction vs as [|[k s] vs IH]; [done|]. rewrite !filter_cons. simpl.
  destruct k; simpl; rewrite ?strs_size_cons; lia.
Qed.

(** ** Reading the header *)

Lemma push_lens_ok cols b :
  push_lens cols = Ok b ->
  b = concat (map (fun c => u32_le (Z.of_nat (length c))) cols) /\
  Forall (fun c => is_u32 (Z.of_nat (length c))) cols.
Proof.
  revert b. induction cols as [|c cols IH]; intros b; simpl; [by intros [= <-]|].
  destruct (Z.ltb_spec u32_max (Z.of_nat (length c))); [done|].
  destruct (push_lens cols) as [b'|]; [|done]. intros [= <-]. destruct (IH b' eq_refl) as [-> Hf].
  split; [done|]. constructor; [unfold is_u32; lia|done].
Qed.

Lemma read_lens_at (cols : list (list byte)) : forall names rest r,
  length names = length cols -> Forall (fun c => is_u32 (Z.of_nat (length c))) cols ->
  rd_at r (concat (map (fun c => u32_le (Z.of_nat (length c))) cols) ++ rest) ->
  exists r', read_lens names r = Ok (map length cols, r') /\ rd_at r' rest.
Proof.
  induction cols as [|c cols IH]; intros names rest r Hl Hf Hr; destruct names as [|name names]; try done.
  { by exists r. }
  inversion_clear Hf as [|? ? Hc Hf']. simpl in Hr. rewrite <-List.app_assoc in Hr. cbn [read_lens].
  rewrite (rd_u32_at _ _ _ _ Hr Hc). apply rd_at_adv in Hr. rewrite length_u32_le in Hr.
  destruct (IH names rest (rd_adv 4 r)) as (r' & Hrl & Hr'); [by injection Hl|done|done|].
  exists r'. rewrite Hrl. split; [|done]. cbn [map]. by rewrite Nat2Z.id.
Qed.

Lemma take_cols_at (cols : list (list byte)) : forall names rest r,
  length names = length cols -> rd_at r (concat cols ++ rest) ->
  exists r', take_cols (map length cols) names r = Ok (cols, r') /\ rd_at r' rest.
Proof.
  induction cols as [|c cols IH]; intros names rest r Hl Hr; destruct names as [|name names]; try done.
  { by exists r. }
  simpl in Hr. rewrite <-List.app_assoc in Hr. cbn [map take_cols].
  rewrite (rd_take_at _ _ _ _ _ Hr eq_refl). apply rd_at_adv in Hr.
  destruct (IH names rest _ (f_equal pred Hl) Hr) as (r' & Ht & Hr'). exists r'. by rewrite Ht.
Qed.

Lemma read_stored_at mode dn nn sn cols lens :
  length cols = 5%nat -> push_lens cols = Ok lens ->
  is_u32 (Z.of_nat dn) -> is_u32 (Z.of_nat nn) -> is_u32 (Z.of_nat sn) ->
  exists r, read_stored (mode :: u32_le (Z.of_nat dn) ++ u32_le (Z.of_nat nn) ++ u32_le (Z.of_nat sn) ++
      lens ++ concat cols) = Ok (mkStored mode dn nn sn cols, r) /\ rd_at r [].
Proof.
  intros H5 Hlens Hd Hn Hs. apply push_lens_ok in Hlens as [-> Hf].
  match goal with |- context [read_stored ?b] => assert (rd_at (Reader_new b) b) as Hr end.
  { apply rd_at_new. do 6 (destruct cols as [|? cols]; try discriminate H5).
    repeat match goal with H : Forall _ (_ :: _) |- _ => inversion_clear H end.
    cbn [map concat]. autorewrite with wire. unfold is_u32, u32_max, i64_max in *. lia. }
  unfold read_stored.
  rewrite (rd_u8_at _ _ _ _ Hr). apply (rd_at_adv _ [mode]) in Hr. simpl length in Hr.
  rewrite (rd_u32_at _ _ _ _ Hr Hd). apply rd_at_adv in Hr. rewrite length_u32_le in Hr.
  rewrite (rd_u32_at _ _ _ _ Hr Hn). apply rd_at_adv in Hr. rewrite length_u32_le in Hr.
  rewrite (rd_u32_at _ _ _ _ Hr Hs). apply rd_at_adv in Hr. rewrite length_u32_le in Hr.
  destruct (read_lens_at cols ["template ids length"; "template dict length"; "template widths length";
    "template values length"; "template strings length"] _ _ ltac:(done) Hf Hr) as (r1 & -> & Hr1).
  rewrite <-(List.app_nil_r (concat cols)) in Hr1.
  destruct (take_cols_at cols ["template ids column"; "template dict column"; "template widths column";
    "template values column"; "template strings column"] _ _ ltac:(done) Hr1) as (r2 & -> & Hr2).
  exists r2. by rewrite !Nat2Z.id.
Qed.

(** ** The column round trip *)

(** The blocks the decoder's 64 MiB output bound is sure to admit: messages of at
    most 8 MiB together, length prefixes included (a template is at most twice as
    long as its message, and the variables' string column at most five times). *)
Definition messages_fit (msgs : list str) : Prop :=
  8 * Z.of_nat (strs_size msgs) <= DECOMPRESS_MAX_BYTES.

Lemma message_size (m : str) msgs : m ∈ msgs -> (length m <= strs_size msgs)%nat.
Proof.
  intros Hm. pose proof (sum_list_with_in m (fun s : str => 4 + length s)%nat msgs Hm) as H.
  cbv beta in H. unfold strs_size. lia.
Qed.

(** A row holds the variables of its message's parse, and the dictionary its template. *)
Definition row_parse (sr : bool) (d : list str) (m : str) (row : Z * list Var) : Prop :=
  exists l, parses sr m (tpl l, row.2) l /\ 0 <= row.1 /\ d !! key_index row.1 = Some (tpl l).

Lemma row_parse_vars sr d msgs rows :
  Forall2 (row_parse sr d) msgs rows ->
  Forall var_ok (concat (map snd rows)) /\
  (length (concat (map snd rows)) <= strs_size msgs)%nat /\
  (sum_list_with (fun v => length (text v)) (concat (map snd rows)) <= strs_size msgs)%nat.
Proof.
  induction 1 as [|m row ms rs (l & (He & Hm & Hok & _) & _) _ IH]; [split_and!; [constructor|done..]|].
  destruct IH as (H1 & H2 & H3). injection He as He.
  destruct (item_sizes l Hok) as (_ & S2 & S3). rewrite Hm in S2, S3. cbn [map concat].
  rewrite strs_size_cons, length_app, sum_list_with_app, He. split_and!; [|lia|lia].
  apply Forall_app. split; [by apply vars_ok|done].
Qed.

Lemma templates_size sr msgs :
  Forall is_str msgs -> (strs_size (map (fun m => (tokenize m sr).1) msgs) <= 2 * strs_size msgs)%nat.
Proof.
  induction 1 as [|m msgs Hm _ IH]; [done|]. cbn [map]. rewrite !strs_size_cons.
  destruct (tokenize_parse m sr Hm) as (l & (-> & Hmsg & Hok & _)). simpl.
  destruct (item_sizes l Hok) as (S1 & _). rewrite Hmsg in S1. lia.
Qed.

Lemma row_parse_ok sr d msgs rows :
  messages_fit msgs -> Forall2 (row_parse sr d) msgs rows -> Forall (row_ok (map slot_kinds d)) rows.
Proof.
  unfold messages_fit, DECOMPRESS_MAX_BYTES. intros Hfit Hp. apply Forall_forall. intros row Hrow.
  apply list_elem_of_lookup in Hrow as [i Hi].
  destruct (Forall2_lookup_r _ _ _ _ _ Hp Hi) as (m & Hmi & l & (He & Hm & Hok & _) & H0 & Hd).
  injection He as He. destruct (item_sizes l Hok) as (_ & Hnv & _). rewrite Hm in Hnv.
  assert (m ∈ msgs) as Hmin by (by eapply list_elem_of_lookup_2). apply message_size in Hmin.
  split; [done|]. rewrite list_lookup_fmap, Hd, He. simpl. split; [|lia].
  f_equal. by apply slot_kinds_items.
Qed.

Section BlockFacts.
Context (msgs : list str) (sr : bool) (Hv : Forall is_str msgs) (Hfit : messages_fit msgs).
Let tk := tokenize_block msgs sr.
Let rows := zip (ids tk) (msg_vars tk).
Let flat := concat (map snd (group_vars (ids tk) (msg_vars tk))).

Lemma block_rows :
  Forall2 (row_parse sr (dict tk)) msgs rows /\ rows.*1 = ids tk /\ length (ids tk) = length msgs.
Proof.
  destruct (tokenize_block_go_spec sr msgs ∅ []) as (_ & Hi & Hm & Hr & _); [done|].
  fold (tokenize_block msgs sr) in *. fold tk in Hi, Hm, Hr. fold rows in Hr.
  split_and!; [|apply fst_zip; lia|done].
  revert Hr Hv. clearbody rows tk. clear. intros Hr Hv.
  induction Hr as [|m row ms rs (t & Ht & H0 & Hd) _ IH]; constructor.
  - inversion_clear Hv as [|? ? Hm _]. destruct (tokenize_parse m sr Hm) as (l & Hl). exists l.
    rewrite Ht in Hl. destruct Hl as (He & Hrest). injection He as -> Hvs. rewrite Hvs. by split_and!.
  - apply IH. by inversion_clear Hv.
Qed.

Lemma dict_facts : Forall is_str (dict tk) /\ str_column_fits (dict tk) /\ (length (dict tk) <= length msgs)%nat.
Proof.
  destruct (tokenize_block_go_spec sr msgs ∅ []) as (_ & _ & _ & _ & Hd & Hl & Hz); [done|].
  fold (tokenize_block msgs sr) in *. fold tk in Hd, Hl, Hz. pose proof (templates_size sr msgs Hv) as Ht.
  pose proof (strs_size_length msgs) as Hlm. simpl in Hl, Hz.
  split_and!; [|unfold str_column_fits, messages_fit in *; lia|done].
  eapply Forall_impl; [exact Hd|]. simpl. intros t [Hin|(m & Hm & ->)]; [by apply not_elem_of_nil in Hin|].
  rewrite Forall_forall in Hv. destruct (tokenize_parse m sr (Hv m Hm)) as (l & (-> & _ & Hok & _)).
  by apply tpl_valid.
Qed.

Lemma flat_facts :
  Forall var_ok flat /\ Forall is_str (strs_of flat) /\ str_column_fits (strs_of flat) /\
  (length (nums flat) <= strs_size msgs)%nat.
Proof.
  destruct block_rows as (Hp & _ & _). destruct (row_parse_vars _ _ _ _ Hp) as (H1 & H2 & H3).
  assert (flat ≡ₚ concat (map snd rows)) as Hperm by (apply (groups_perm rows []); constructor).
  assert (Forall var_ok flat) as Hok by (by rewrite Hperm).
  assert (length flat <= strs_size msgs)%nat as Hl by (by rewrite Hperm).
  assert (sum_list_with (fun v => length (text v)) flat <= strs_size msgs)%nat as Hs
    by (by rewrite Hperm).
  destruct (strs_of_size flat) as (S1 & S2 & S3).
  split_and!; [done| |unfold str_column_fits, messages_fit in *; lia|lia].
  unfold strs_of. apply Forall_fmap, Forall_forall. intros v [_ Hin]%list_elem_of_filter.
  rewrite Forall_forall in Hok. by apply var_text_valid, Hok.
Qed.
End BlockFacts.

Section RoundTrip.
Context `{ZS : Zstd} `{ZL : !ZstdLaws} `{PI : !Pco Z} `{PIL : !PcoLaws is_i64}.

Lemma check_ids_ok i n l : Forall (fun id => 0 <= id < Z.of_nat n) l -> check_ids i n l = Ok tt.
Proof.
  intros H. revert i. induction H as [|id l Hid _ IH]; intros i; [done|]. simpl.
  destruct (Z.ltb_spec id 0); [lia|]. destruct (Z.leb_spec (Z.of_nat n) id); [lia|]. apply IH.
Qed.

Lemma stream_values_i64 vs : Forall is_i64 (stream_values vs).
Proof.
  unfold stream_values. apply Forall_fmap, Forall_forall. intros v _. unfold value_of. simpl.
  destruct (parse_i64 (text v)) eqn:E; simpl; [by eapply parse_i64_range|unfold is_i64, i64_min, i64_max; lia].
Qed.

(** The layout the decoder computes for the encoder's groups. *)
Lemma group_layout_ok rows kbi :
  Forall (row_ok kbi) rows ->
  let flat := concat (map snd (fold_left group_row rows [])) in
  exists st, group_layout (rows.*1) kbi (length (nums flat)) (length (strs_of flat)) = Ok (base st, groups st) /\
    layout_inv kbi (fold_left group_row rows []) st.
Proof.
  intros Hr flat. unfold group_layout.
  assert (count_sizes kbi rows.*1 [] = Ok (lens (fold_left group_row rows []))) as ->.
  { apply (count_sizes_groups kbi rows []). eapply Forall_impl; [exact Hr|].
    intros row (_ & Hk & _). exists (map kind row.2). by rewrite length_map. }
  destruct (layout_go_spec kbi (fold_left group_row rows []) [] (mkLayout (replicate (length kbi) None) [] 0 0))
    as (st & Hgo & Hst).
  { by apply G_entries_ok. }
  { split_and!; try done; [apply length_replicate|]. intros i b Hb. apply lookup_replicate in Hb as [-> _]. done. }
  exists st. split; [|done]. rewrite Hgo. destruct Hst as (_ & Hn & Hs & _).
  unfold strs_of. rewrite length_map, Hn, Hs. unfold nums, offs, flat. by rewrite !Nat.eqb_refl.
Qed.

(** What the readers get back from an encoded column. *)
Definition reads_back (msgs : list str) (sr : bool) (bytes : list byte) (st : Stored) (r : Reader) : Prop :=
  let tk := tokenize_block msgs sr in
  let flat := concat (map snd (group_vars (ids tk) (msg_vars tk))) in
  read_stored bytes = Ok (st, r) /\ rd_at r [] /\
  s_mode st = (if sr then x00 else x01) /\ dict_n st = length (dict tk) /\
  num_n st = length (nums flat) /\ str_n st = length (strs_of flat) /\
  decode_i64 (nth 0 (stored st) []) (length msgs) = Ok (ids tk) /\
  decode_str (nth 1 (stored st) []) (dict_n st) = Ok (dict tk) /\
  decode_u8 (nth 2 (stored st) []) (num_n st) = Ok (stream_widths flat) /\
  decode_i64 (nth 3 (stored st) []) (num_n st) = Ok (stream_values flat) /\
  decode_str (nth 4 (stored st) []) (str_n st) = Ok (strs_of flat).

Lemma ids_in_range msgs sr :
  Forall is_str msgs ->
  let tk := tokenize_block msgs sr in
  Forall (fun id => 0 <= id < Z.of_nat (length (dict tk))) (ids tk).
Proof.
  intros Hv tk. destruct (block_rows msgs sr Hv) as (Hp & Hids & _). fold tk in Hp, Hids.
  rewrite <-Hids. apply Forall_fmap, Forall_forall. intros row Hrow. apply list_elem_of_lookup in Hrow as [i Hi].
  destruct (Forall2_lookup_r _ _ _ _ _ Hp Hi) as (m & _ & l & _ & H0 & Hd). simpl.
  apply lookup_lt_Some in Hd. unfold key_index in Hd. lia.
Qed.

Lemma encode_mode_read msgs sr level bytes :
  Forall is_str msgs -> messages_fit msgs -> encode_mode msgs sr level = Ok bytes ->
  exists st r, reads_back msgs sr bytes st r.
Proof.
  intros Hv Hfit. unfold encode_mode, reads_back. pose proof (ids_in_range msgs sr Hv) as Hidr.
  set (tk := tokenize_block msgs sr) in *. set (flat := concat (map snd (group_vars (ids tk) (msg_vars tk)))).
  destruct (block_rows msgs sr Hv) as (_ & _ & Hlen). fold tk in Hlen.
  destruct (dict_facts msgs sr Hv Hfit) as (Hd1 & Hd2 & Hd3). fold tk in Hd1, Hd2, Hd3.
  destruct (flat_facts msgs sr Hv Hfit) as (Hf1 & Hf2 & Hf3 & Hf4). fold tk flat in Hf1, Hf2, Hf3, Hf4.
  rewrite push_streams_ok by done. intros H. inv_ok H. subst bytes.
  assert (forall n, Z.of_nat n <= DECOMPRESS_MAX_BYTES -> is_u32 (Z.of_nat n)) as Hu
    by (unfold is_u32, u32_max, DECOMPRESS_MAX_BYTES; lia).
  pose proof (strs_size_length msgs) as Hml. unfold messages_fit in Hfit.
  assert (length (stream_widths flat) = length (nums flat)) as Hlw by apply length_map.
  assert (length (stream_values flat) = length (nums flat)) as Hlv by apply length_map.
  destruct (read_stored_at (if sr then x00 else x01) (length (dict tk)) (length (stream_values flat))
    (length (strs_of flat)) [a0; a2; a4; a6; a8] a12 eq_refl E12) as (r & Hread & Hr).
  1-3: apply Hu; unfold str_column_fits in *; lia.
  eexists _, r. cbn [concat] in Hread. split; [exact Hread|]. cbn [s_mode dict_n num_n str_n stored nth].
  unfold vec_fits, DECOMPRESS_MAX_BYTES in *. split_and!; try done.
  - rewrite <-Hlen. eapply i64_round; try done; [|unfold vec_fits, i64_max; lia].
    eapply Forall_impl; [exact Hidr|]. unfold is_i64, i64_min, i64_max. simpl. lia.
  - by eapply str_round.
  - rewrite Hlv, <-Hlw. by eapply u8_round.
  - eapply i64_round; try done; [apply stream_values_i64|unfold vec_fits, i64_max; lia].
  - by eapply str_round.
Qed.

Lemma encode_mode_round msgs sr level bytes :
  Forall is_str msgs -> messages_fit msgs -> encode_mode msgs sr level = Ok bytes ->
  decode_template_str bytes (length msgs) = Ok msgs.
Proof.
  intros Hv Hfit He. destruct (encode_mode_read _ _ _ _ Hv Hfit He)
    as (st & r & Hread & Hr & _ & Hdn & Hnn & Hsn & Hi & Hd & Hw & Hvs & Hs).
  destruct (block_rows msgs sr Hv) as (Hp & Hids & _).
  destruct (group_layout_ok _ _ (row_parse_ok _ _ _ _ Hfit Hp)) as (lay & Hgl & Hlay).
  unfold decode_template_str, check_trailing. rewrite Hread, (rd_at_remaining _ _ Hr). cbn [length Nat.eqb negb].
  rewrite Hi, Hd, Hw, Hvs, Hs, check_ids_ok by (rewrite Hdn; by apply ids_in_range).
  rewrite Hids in Hgl. rewrite Hnn, Hsn. unfold group_vars. rewrite Hgl.
  pose proof (replay_spec _ _ lay (row_parse_ok _ _ _ _ Hfit Hp) Hlay (dict (tokenize_block msgs sr)) _ [] msgs
    (map g_start (groups lay)) eq_refl) as Hrep. rewrite Hids in Hrep. apply Hrep.
  - eapply Forall2_impl; [exact Hp|]. intros m row (l & (Hl & Hm & Hok & _) & _ & Hdl). injection Hl as Hl.
    exists (tpl l). split; [done|]. rewrite Hl, <-Hm. by apply detokenize_items.
  - intros id. by apply (cursors_start _ _ _ (row_parse_ok _ _ _ _ Hfit Hp)).
Qed.

(** The failures of an encoding that are not its own doing. *)
Definition column_failure (e : error) : Prop :=
  codec_failure e \/ e = Fmt "template column: sub-column exceeds u32::MAX bytes" [].

Lemma push_lens_failure cols e :
  push_lens cols = Err e -> e = Fmt "template column: sub-column exceeds u32::MAX bytes" [].
Proof.
  induction cols as [|c cols IH]; simpl; [done|]. destruct (_ <? _); [by intros [= <-]|].
  destruct (push_lens cols); [done|]. intros [= <-]. by apply IH.
Qed.

Lemma check_u32_count_ok what n : is_u32 (Z.of_nat n) -> check_u32_count what n = Ok tt.
Proof.
  unfold check_u32_count, is_u32. intros H. by destruct (Z.ltb_spec u32_max (Z.of_nat n)); [lia|].
Qed.

Lemma encode_mode_failure msgs sr level e :
  Forall is_str msgs -> messages_fit msgs -> encode_mode msgs sr level = Err e -> column_failure e.
Proof.
  intros Hv Hfit. unfold encode_mode. set (tk := tokenize_block msgs sr).
  set (flat := concat (map snd (group_vars (ids tk) (msg_vars tk)))).
  destruct (dict_facts msgs sr Hv Hfit) as (Hd1 & Hd2 & Hd3). fold tk in Hd1, Hd2, Hd3.
  destruct (flat_facts msgs sr Hv Hfit) as (Hf1 & Hf2 & Hf3 & Hf4). fold tk flat in Hf1, Hf2, Hf3, Hf4.
  pose proof (strs_size_length msgs) as Hml. unfold messages_fit in Hfit.
  rewrite push_streams_ok, !check_u32_count_ok by (first [done
    | unfold stream_values; rewrite ?length_map;
      unfold str_column_fits, is_u32, u32_max, DECOMPRESS_MAX_BYTES in *; lia]).
  unfold column_failure. intros H.
  repeat match type of H with
  | (match ?x with Ok _ => _ | Err _ => _ end) = Err _ =>
      let E := fresh "E" in destruct x eqn:E; [|injection H as <-]
  end; try done; [right; by eapply push_lens_failure|..];
    left; eauto using encode_i64_failure, encode_str_failure, encode_u8_failure with wire.
Qed.

(** C5: A block's message column round-trips through templates: for any valid
    UTF-8 messages of at most 8 MiB in all, whichever tokenizer mode wins, decoding
    the column at the message count returns the messages byte for byte, although
    the variables were regrouped by (template, slot) and no permutation is stored.
    Encoding fails only when a compressor fails or a sub-column outgrows its u32
    length. *)
Theorem template_column_round_trip (msgs : list str) (level : Z) :
  Forall is_str msgs -> messages_fit msgs ->
  match encode_template_str msgs level with
  | Ok bytes => decode_template_str bytes (length msgs) = Ok msgs
  | Err e => column_failure e
  end.
Proof.
  intros Hv Hf. unfold encode_template_str.
  destruct (encode_mode msgs true level) as [a|] eqn:Ea; [|by eapply encode_mode_failure].
  destruct (encode_mode msgs false level) as [b|] eqn:Eb; [|by eapply encode_mode_failure].
  destruct (_ <=? _)%nat; by eapply encode_mode_round.
Qed.
End RoundTrip.
