(* ===== verification/TemplateSearch.v ===== *)
(** * Searching template columns without decoding them

    [src/crates/timeless-core/src/blocks/template.rs], lines 590 to 1137: the
    feasibility checks that answer "no message of this block can contain the
    needle" from the dictionary and the variable columns alone, per block
    ([column_may_contain]) and per template ([template_feasible]), and the filtered
    decode that skips the rows of infeasible templates. Matching is ASCII
    case-insensitive substring search. *)
From Stdlib Require Import ZArith Lia Bool Strings.Byte.
From stdpp Require Import prelude gmap list strings sorting.
From S2P Require Import Prelude Float64 BTree Wire Columns RustStr Template TemplateColumn.
Open Scope string_scope.
Open Scope list_scope.
Open Scope Z_scope.

Definition FEASIBILITY_MAX_FRAGMENT : nat := 256.

(** [h.windows(k)] for [k > 0]. *)
Definition windows (k : nat) (h : list byte) : list (list byte) :=
  map (fun i => take k (drop i h)) (seq 0 (S (length h) - k)).

Definition contains_ci (haystack needle : str) : bool :=
  match needle with
  | [] => true
  | _ => existsb (fun w => eq_ignore_ascii_case w needle) (windows (length needle) haystack)
  end.

Definition ends_with_ci (haystack suffix : str) : bool :=
  (length suffix <=? length haystack)%nat &&
  eq_ignore_ascii_case (drop (length haystack - length suffix) haystack) suffix.

Definition starts_with_ci (haystack prefix : str) : bool :=
  (length prefix <=? length haystack)%nat &&
  eq_ignore_ascii_case (take (length prefix) haystack) prefix.

(** [if !seg.is_empty() { out.push(seg) }]. *)
Definition flush_seg (seg : str) : list str := match seg with [] => [] | _ => [seg] end.

(** The loop of [template_segments]; [seg] is the run under construction. *)
Fixpoint template_segments_go (fuel : nat) (bytes : list byte) (seg : str) : list str :=
  match fuel, bytes with
  | S f, b :: rest =>
    if byte_eqb b SENTINEL then
      match rest with
      | tag :: rest' =>
        if byte_eqb tag SENTINEL then template_segments_go f rest' (seg ++ [SENTINEL])
        else if byte_eqb tag KIND_NUM || byte_eqb tag KIND_STR then
          flush_seg seg ++ template_segments_go f rest' []
        else template_segments_go f rest (seg ++ [SENTINEL])
      | [] => template_segments_go f rest (seg ++ [SENTINEL])
      end
    else
      let k := utf8_char_len b in
      template_segments_go f (drop k bytes) (seg ++ take k bytes)
  | _, _ => flush_seg seg
  end.
Definition template_segments (template : str) : list str :=
  template_segments_go (length template) template [].

Definition has_maximal_digit_run (text run : str) : bool :=
  if (length text <? length run)%nat then false
  else existsb (fun start =>
    bool_decide (take (length run) (drop start text) = run) &&
    ((start =? 0)%nat || negb (is_ascii_digit (nth (start - 1) text x00))) &&
    ((start + length run =? length text)%nat ||
     negb (is_ascii_digit (nth (start + length run) text x00))))
    (seq 0 (S (length text - length run))).

(** [str::is_char_boundary]. *)
Definition is_char_boundary (s : str) (i : nat) : bool :=
  (i =? 0)%nat || match s !! i with Some b => negb (utf8_cont b) | None => (i =? length s)%nat end.

Definition fragment_feasible (frag : str) (segments strs : list str) : bool :=
  match frag with
  | [] => true
  | _ =>
    if (FEASIBILITY_MAX_FRAGMENT <? length frag)%nat then true
    else if existsb (fun v => contains_ci v frag) strs then true
    else
      let cut_is := 0%nat :: filter (fun i =>
        is_char_boundary frag i && existsb (fun v => ends_with_ci v (take i frag)) strs)
        (seq 1 (length frag)) in
      let cut_js := filter (fun j =>
        is_char_boundary frag j && existsb (fun v => starts_with_ci v (drop j frag)) strs)
        (seq 0 (length frag)) ++ [length frag] in
      existsb (fun i => existsb (fun j =>
        let middle := take (j - i) (drop i frag) in
        match middle with [] => true | _ => existsb (fun s => contains_ci s middle) segments end)
        (filter (fun j => (i <=? j)%nat) cut_js)) cut_is
  end.

(** A needle that cannot cross a token boundary and is not a pure digit run. *)
Definition token_confined_mixed (needle : str) : bool :=
  match needle with [] => false | _ =>
    forallb is_token_byte needle && existsb is_ascii_digit needle &&
    existsb (fun b => negb (is_ascii_digit b)) needle
  end.

(** [num_ok]: an inner run that some number renders as. *)
Definition num_ok (run : str) (nums : list (byte * Z)) : bool :=
  (length run <=? 19)%nat &&
  match parse_i64 run with
  | Some v => bool_decide ((z2b (Z.of_nat (length run)), v) ∈ nums)
  | None => false
  end.

Definition run_explained (run : str) (strs : list str) (nums : list (byte * Z)) : bool :=
  num_ok run nums || existsb (fun s => has_maximal_digit_run s run) strs.

Definition is_ascii (s : str) : bool := forallb (in_range 0 127) s.
Definition not_digit (b : byte) : bool := negb (is_ascii_digit b).

(** The walk of [column_may_contain]: fragments and inner digit runs of the
    needle, from [at_start] (whether [start == 0]). *)
Fixpoint walk_needle (fuel : nat) (at_start : bool) (nb : list byte) (segments strs : list str)
    (nums : list (byte * Z)) : bool :=
  match fuel, nb with
  | S f, c :: _ =>
    if is_ascii_digit c then
      let '(run, rest) := span is_ascii_digit nb in
      if at_start || match rest with [] => true | _ => false end then
        walk_needle f false rest segments strs nums
      else run_explained run strs nums && walk_needle f false rest segments strs nums
    else
      let '(frag, rest) := span not_digit nb in
      fragment_feasible frag segments strs && walk_needle f false rest segments strs nums
  | _, _ => true
  end.

(** An inner run exists: a digit between the first and the last non-digit. *)
Definition has_inner_run (nb : list byte) : bool :=
  let inner := (span is_ascii_digit nb).2 in
  existsb is_ascii_digit (rev (span is_ascii_digit (rev inner)).2).

Section Search.
Context `{ZS : Zstd} `{PI : !Pco Z}.

(** The header is read column by column, without the trailing-bytes check. *)
Definition column_may_contain (bytes : list byte) (needle : str) : result bool :=
  match needle with
  | [] => Ok true
  | _ =>
    if negb (is_ascii needle) then Ok true else
    let? (st, _) := read_stored bytes in
    let? dict := decode_str (nth 1 (stored st) []) (dict_n st) in
    let? strs_owned := decode_str (nth 4 (stored st) []) (str_n st) in
    let strs := remove_dups strs_owned in
    let segments := concat (map template_segments dict) in
    if byte_eqb (s_mode st) x01 && token_confined_mixed needle then
      Ok (existsb (fun v => contains_ci v needle) strs)
    else
      let? num_pairs :=
        if has_inner_run needle then
          let? widths := decode_u8 (nth 2 (stored st) []) (num_n st) in
          let? values := decode_i64 (nth 3 (stored st) []) (num_n st) in
          Ok (zip widths values)
        else Ok [] in
      Ok (walk_needle (length needle) true needle segments strs num_pairs)
  end.

(** ** Per template *)

Record NeedleParts := mkParts { fragments : list str; inner_runs : list str }.

Fixpoint needle_parts_go (fuel : nat) (at_start : bool) (nb : list byte) : NeedleParts :=
  match fuel, nb with
  | S f, c :: _ =>
    if is_ascii_digit c then
      let '(run, rest) := span is_ascii_digit nb in
      let p := needle_parts_go f false rest in
      if at_start || match rest with [] => true | _ => false end then p
      else mkParts (fragments p) (run :: inner_runs p)
    else
      let '(frag, rest) := span not_digit nb in
      let p := needle_parts_go f false rest in
      mkParts (frag :: fragments p) (inner_runs p)
  | _, _ => mkParts [] []
  end.
Definition needle_parts (needle : str) : NeedleParts := needle_parts_go (length needle) true needle.

Definition template_feasible (needle : str) (parts : NeedleParts) (whole_token_mode : bool)
    (segments t_strs : list str) (t_nums : list (byte * Z)) : bool :=
  if whole_token_mode && token_confined_mixed needle then
    existsb (fun v => contains_ci v needle) t_strs
  else
    forallb (fun frag => fragment_feasible frag segments t_strs) (fragments parts) &&
    forallb (fun run => run_explained run t_strs t_nums) (inner_runs parts).

(** The values of one template's groups. *)
Fixpoint template_values (widths : list byte) (values : list Z) (strs : list str)
    (gs : list Group) : list str * list (byte * Z) :=
  match gs with
  | [] => ([], [])
  | g :: gs' =>
    let '(ss, ns) := template_values widths values strs gs' in
    match g_kind g with
    | Str => (take (g_len g) (drop (g_start g) strs) ++ ss, ns)
    | Num => (ss, zip (take (g_len g) (drop (g_start g) widths))
                      (take (g_len g) (drop (g_start g) values)) ++ ns)
    end
  end.

Definition feasible_template (needle : str) (parts : NeedleParts) (whole : bool) (template : str)
    (kinds : list VarKind) (b : option nat) (groups : list Group)
    (widths : list byte) (values : list Z) (strs : list str) : bool :=
  let segments := template_segments template in
  match kinds with
  | [] => template_feasible needle parts whole segments [] []
  | _ =>
    match b with
    | None => false
    | Some b =>
      let '(ss, ns) := template_values widths values strs (take (length kinds) (drop b groups)) in
      template_feasible needle parts whole segments (bts_of_list ss) ns
    end
  end.

(** Advance a skipped row's cursors. *)
Fixpoint skip_slots (b : option nat) (slot : nat) (kinds : list VarKind) (cursors : list nat)
    : result (list nat) :=
  match kinds with
  | [] => Ok cursors
  | _ :: kinds' =>
    let? (p, c) := cursor_at cursors b slot in
    skip_slots b (S slot) kinds' (<[p := S c]> cursors)
  end.

Record FilteredMessages := mkFiltered { rows : list (nat * str); candidate_rows : nat }.

Fixpoint replay_filtered (needle : str) (feasible : list bool) (dict : list str)
    (kinds_by_id : list (list VarKind)) (widths : list byte) (values : list Z) (strs : list str)
    (base : list (option nat)) (row : nat) (ids : list Z) (cursors : list nat)
    : result FilteredMessages :=
  match ids with
  | [] => Ok (mkFiltered [] 0)
  | id :: ids' =>
    let t := key_index id in
    let? kinds := index kinds_by_id t in
    let? f := index feasible t in
    let? b := index base t in
    if negb f then
      let? cursors' := skip_slots b 0 kinds cursors in
      replay_filtered needle feasible dict kinds_by_id widths values strs base (S row) ids' cursors'
    else
      let? (ws, vs, ss, cursors') := pop_slots widths values strs b 0 kinds cursors in
      let? template := index dict t in
      let? m := detokenize template ws vs ss in
      let? rest := replay_filtered needle feasible dict kinds_by_id widths values strs base (S row) ids' cursors' in
      Ok (mkFiltered (if contains_ci m needle then (row, m) :: rows rest else rows rest)
            (S (candidate_rows rest)))
  end.

Definition decode_template_str_filtered (bytes : list byte) (n : nat) (needle : str)
    : result FilteredMessages :=
  if match needle with [] => true | _ => false end || negb (is_ascii needle) then
    Err (Fmt "template column: filtered decode requires a non-empty ASCII needle" [])
  else
    let? (st, r) := read_stored bytes in
    let? _ := check_trailing r in
    let? ids := decode_i64 (nth 0 (stored st) []) n in
    let? dict := decode_str (nth 1 (stored st) []) (dict_n st) in
    let? widths := decode_u8 (nth 2 (stored st) []) (num_n st) in
    let? values := decode_i64 (nth 3 (stored st) []) (num_n st) in
    let? strs := decode_str (nth 4 (stored st) []) (str_n st) in
    let kinds_by_id := map slot_kinds dict in
    let? _ := check_ids 0 (dict_n st) ids in
    let? (base, groups) := group_layout ids kinds_by_id (num_n st) (str_n st) in
    let parts := needle_parts needle in
    let whole := byte_eqb (s_mode st) x01 in
    let feasible := imap (fun t template =>
      feasible_template needle parts whole template (slot_kinds template) (nth t base None) groups
        widths values strs) dict in
    replay_filtered needle feasible dict kinds_by_id widths values strs base 0 ids (map g_start groups).
End Search.

(** ** Case folding and occurrences *)

Abbreviation lower := (map to_ascii_lowercase).

Lemma eq_ci a b : eq_ignore_ascii_case a b = true <-> lower a = lower b.
Proof. apply bool_decide_eq_true. Qed.

Lemma lower_digit b : is_ascii_digit (to_ascii_lowercase b) = is_ascii_digit b.
Proof. by destruct b. Qed.
Lemma lower_token b : is_token_byte (to_ascii_lowercase b) = is_token_byte b.
Proof. by destruct b. Qed.
Lemma lower_of_digit b : is_ascii_digit b = true -> to_ascii_lowercase b = b.
Proof. by destruct b. Qed.

Section Invariant.
Context (p : byte -> bool) (Hp : forall x, p (to_ascii_lowercase x) = p x).
Lemma lower_existsb a b : lower a = lower b -> existsb p a = existsb p b.
Proof.
  intros H. assert (forall l, existsb p (lower l) = existsb p l) as Hl
    by (intros l; induction l as [|x l IH]; simpl; [done|by rewrite Hp, IH]).
  by rewrite <-(Hl a), <-(Hl b), H.
Qed.
Lemma lower_forallb a b : lower a = lower b -> forallb p a = forallb p b.
Proof.
  intros H. assert (forall l, forallb p (lower l) = forallb p l) as Hl
    by (intros l; induction l as [|x l IH]; simpl; [done|by rewrite Hp, IH]).
  by rewrite <-(Hl a), <-(Hl b), H.
Qed.
End Invariant.

Lemma lower_app_inv w a b :
  lower w = lower (a ++ b) -> exists w1 w2, w = w1 ++ w2 /\ lower w1 = lower a /\ lower w2 = lower b.
Proof.
  intros H. rewrite map_app in H. apply map_eq_app in H as (w1 & w2 & -> & H1 & H2). by exists w1, w2.
Qed.

Lemma lower_digits w run : digits_only run = true -> lower w = lower run -> w = run.
Proof.
  revert run. induction w as [|x w IH]; intros [|y run] Hd H; try done. simpl in Hd, H.
  apply andb_true_iff in Hd as [Hy Hd]. injection H as Hx Hw. f_equal; [|by apply IH].
  rewrite (lower_of_digit y) in Hx by done. rewrite <-Hx. symmetry. apply lower_of_digit.
  by rewrite <-lower_digit, Hx.
Qed.

(** [w] occurs in [h]. *)
Definition occ (w h : str) : Prop := exists u v, h = u ++ w ++ v.

Lemma occ_windows w h : occ w h <-> w ∈ windows (length w) h.
Proof.
  unfold windows. rewrite list_elem_of_fmap. split.
  - intros (u & v & ->). exists (length u). rewrite drop_app_length, take_app_length. split; [done|].
    apply elem_of_seq. rewrite !length_app. lia.
  - intros (i & Hw & Hi%elem_of_seq). exists (take i h), (drop (i + length w) h). rewrite Hw at 1.
    rewrite <-drop_drop, take_drop. symmetry. apply take_drop.
Qed.

Lemma contains_ci_spec h n : contains_ci h n = true <-> exists w, occ w h /\ lower w = lower n.
Proof.
  destruct n as [|c n].
  { split; [|done]. intros _. exists []. split; [by exists [], h|done]. }
  unfold contains_ci. rewrite existsb_exists. split.
  - intros (w & Hw & He%eq_ci). exists w. split; [|done]. apply occ_windows.
    pose proof (f_equal length He) as Hl. rewrite !length_map in Hl. rewrite Hl. by apply list_elem_of_In.
  - intros (w & Ho & He). exists w. split; [|by apply eq_ci]. apply list_elem_of_In.
    pose proof (f_equal length He) as Hl. rewrite !length_map in Hl. rewrite <-Hl. by apply occ_windows.
Qed.

Lemma occ_app w a b :
  occ w (a ++ b) -> occ w a \/ occ w b \/
  exists a' w1 w2 b', w = w1 ++ w2 /\ a = a' ++ w1 /\ b = w2 ++ b' /\ w1 <> [] /\ w2 <> [].
Proof.
  intros (u & v & H). apply app_eq_inv in H as [(k & -> & Hb)|(k & Ha & Hb)].
  - apply app_eq_inv in Hb as [(k' & -> & ->)|(k' & -> & ->)].
    + destruct k as [|x k]; [right; left; by exists [], v|].
      destruct k' as [|y k']; [left; exists u, []; by rewrite !List.app_nil_r|].
      right. right. by exists u, (x :: k), (y :: k'), v.
    + left. by exists u, k'.
  - right. left. exists k, v. done.
Qed.

(** ** A message as segments and variables *)

(** The text before the first variable, and each variable with the text after it. *)
Fixpoint chop (l : list item) : str * list (Var * str) :=
  match l with
  | [] => ([], [])
  | IVar v :: l' => let '(s, r) := chop l' in ([], (v, s) :: r)
  | x :: l' => let '(s, r) := chop l' in (msg_of x ++ s, r)
  end.

Definition tail_text (r : list (Var * str)) : str := concat (map (fun '(v, s) => text v ++ s) r).

Lemma chop_msg l : msg l = (chop l).1 ++ tail_text (chop l).2.
Proof.
  unfold msg, tail_text. induction l as [|x l IH]; [done|]. simpl.
  destruct (chop l) as [s r]. simpl in IH.
  destruct x as [c| |v]; simpl; rewrite IH; [by rewrite List.app_assoc|done|by rewrite List.app_assoc].
Qed.

Lemma chop_vars l : vars l = map fst (chop l).2.
Proof.
  unfold vars. induction l as [|x l IH]; [done|]. simpl. destruct (chop l) as [s r].
  destruct x as [c| |v]; simpl; rewrite IH; done.
Qed.

(** The first byte of the text after a variable is no digit; in whole-token mode
    it is no token byte. *)
Definition edge (sr : bool) (b : byte) : bool := negb (is_ascii_digit b) && (sr || negb (is_token_byte b)).

Fixpoint tail_ok (sr : bool) (r : list (Var * str)) : Prop :=
  match r with
  | [] => True
  | (v, s) :: r' =>
    var_ok v /\ has_digit s = false /\
    match s with
    | [] => r' = []
    | b :: _ => edge sr b = true /\ (r' <> [] -> exists s' b', s = s' ++ [b'] /\ edge sr b' = true)
    end /\ tail_ok sr r'
  end.

Definition chop_ok (sr : bool) (p : str * list (Var * str)) : Prop :=
  has_digit p.1 = false /\ tail_ok sr p.2 /\
  (p.2 <> [] -> p.1 = [] \/ exists s' b', p.1 = s' ++ [b'] /\ edge sr b' = true).

Lemma has_digit_app a b : has_digit (a ++ b) = has_digit a || has_digit b.
Proof. apply existsb_app. Qed.

Lemma high_not_token b : 128 <= b2z b -> is_token_byte b = false.
Proof.
  intros H. destruct (is_token_byte b) eqn:E; [|done]. apply is_token_byte_ascii in E as [E _].
  apply in_range_spec in E. lia.
Qed.

(** Both ends of a text item next to a variable are edges. *)
Lemma text_edges sr x v :
  item_ok x -> is_var x = false -> link sr x (IVar v) = true \/ link sr (IVar v) x = true ->
  has_digit (msg_of x) = false /\
  (exists b c, msg_of x = b :: c /\ edge sr b = true) /\ (exists c b, msg_of x = c ++ [b] /\ edge sr b = true).
Proof.
  intros Hx Hv Hl. destruct x as [c| |]; [|split_and!; [done|by exists SENTINEL, []; destruct sr|by exists [], SENTINEL; destruct sr]|done].
  destruct Hx as (Hc & Hd & Hs). split; [done|].
  assert (token_text (IText c) = true -> sr = true) as Htok.
  { intros E. unfold link in Hl. simpl in Hl, E. destruct sr; [done|]. rewrite E in Hl. simpl in Hl.
    by destruct Hl. }
  assert (forall b, b ∈ c -> edge sr b = true) as Hedge.
  { intros b Hb. unfold edge. assert (is_ascii_digit b = false) as ->.
    { apply not_true_iff_false. intros E. unfold has_digit in Hd. apply not_true_iff_false in Hd. apply Hd.
      apply existsb_exists. exists b. split; [by apply list_elem_of_In|done]. }
    simpl. destruct (is_token_byte b) eqn:Et; [|by rewrite orb_true_r].
    rewrite Htok; [done|]. destruct (utf8_char_bytes c Hc) as (b0 & c' & -> & _ & [[-> _]|[Hb0 Hc']]).
    - apply list_elem_of_singleton in Hb as ->. done.
    - assert (128 <= b2z b) as Hhi.
      { apply elem_of_cons in Hb as [->|Hb]; [done|]. rewrite Forall_forall in Hc'. by apply Hc'. }
      apply high_not_token in Hhi. congruence. }
  destruct (utf8_char_bytes c Hc) as (b0 & c' & -> & _). simpl. split.
  - exists b0, c'. split; [done|]. apply Hedge. left.
  - destruct (exists_last (l := b0 :: c')) as (c0 & bl & E); [done|]. exists c0, bl. split; [done|].
    apply Hedge. rewrite E. apply elem_of_app. right. left.
Qed.

Lemma text_nonempty x : item_ok x -> is_var x = false -> msg_of x <> [].
Proof. destruct x as [c| |]; [|done..]. intros (Hc & _) _ Hn. simpl in Hn. by subst. Qed.

(** What the first item says of the first segment. *)
Lemma chop_head l s r :
  Forall item_ok l -> chop l = (s, r) ->
  (s = [] /\ r = []) \/ (exists v l', l = IVar v :: l' /\ s = []) \/
  (exists x l' s', l = x :: l' /\ is_var x = false /\ item_ok x /\ s = msg_of x ++ s').
Proof.
  destruct l as [|x l]; intros Hok H; [left; by injection H as <- <-|].
  inversion_clear Hok as [|? ? Hx _]. simpl in H. destruct (chop l) as [s0 r0]. right.
  destruct x as [c| |v]; injection H as <- <-.
  - right. by exists (IText c), l, s0.
  - right. by exists ISent, l, s0.
  - left. by exists v, l.
Qed.

Lemma chop_ok_text sr x l s r :
  item_ok x -> is_var x = false -> match l with y :: _ => link sr x y | [] => true end = true ->
  Forall item_ok l -> chop l = (s, r) -> chop_ok sr (s, r) -> chop_ok sr (msg_of x ++ s, r).
Proof.
  intros Hx Hv Hl Hok Hc (Hd & Ht & He). simpl in *.
  assert (has_digit (msg_of x) = false) as Hdx by (destruct x; [by destruct Hx as (_ & ? & _)|done..]).
  split; [simpl; by rewrite has_digit_app, Hdx|]. split; [done|]. intros Hr. right. simpl in *.
  destruct (He Hr) as [->|(s' & b' & -> & Hb)].
  - destruct (chop_head _ _ _ Hok Hc) as [[_ ?]|[(v & l' & -> & _)|(y & l' & s' & -> & Hy & Hyo & Hs)]]; [done| |].
    + destruct (text_edges sr x v Hx Hv (or_introl Hl)) as (_ & _ & (c & b & Hcb & Hb)).
      exists c, b. by rewrite List.app_nil_r.
    + apply text_nonempty in Hyo; [|done]. symmetry in Hs. by apply app_nil in Hs as [? _].
  - exists (msg_of x ++ s'), b'. by rewrite List.app_assoc.
Qed.

Lemma chop_chop_ok sr l : Forall item_ok l -> linked sr l = true -> chop_ok sr (chop l).
Proof.
  induction l as [|x l IH]; intros Hok Hl; [done|].
  inversion_clear Hok as [|? ? Hx Hok']. cbn [linked] in Hl. apply andb_true_iff in Hl as [Hlink Hl].
  specialize (IH Hok' Hl). cbn [chop]. destruct (chop l) as [s r] eqn:Ec.
  destruct x as [c| |v]; [by eapply (chop_ok_text sr (IText c))|by eapply (chop_ok_text sr ISent)|].
  destruct IH as (Hd & Ht & He). simpl in Hd, Ht, He. split; [done|]. split; [|by left]. simpl.
  split_and!; [done|done| |done].
  destruct (chop_head _ _ _ Hok' Ec) as [[-> ->]|[(w & l' & -> & _)|(y & l' & s' & -> & Hy & Hyo & Hs)]]; [done| |].
  { by unfold link in Hlink. }
  destruct (text_edges sr y v Hyo Hy (or_intror Hlink)) as (_ & (b & c' & Hbc & Hb) & _).
  rewrite Hs, Hbc. simpl. split; [done|]. intros Hr. rewrite Hs, Hbc in He. simpl in He.
  destruct (He Hr) as [?|?]; [done|done].
Qed.

(** The template's segments are the message's. *)
Lemma segments_go_items l : forall fuel seg,
  Forall item_ok l -> (length (tpl l) <= fuel)%nat ->
  template_segments_go fuel (tpl l) seg =
    flush_seg (seg ++ (chop l).1) ++ concat (map (fun p => flush_seg p.2) (chop l).2).
Proof.
  induction l as [|x l IH]; intros fuel seg Hok Hf.
  { simpl. destruct fuel; by rewrite !List.app_nil_r. }
  inversion_clear Hok as [|? ? Hx Hok']. unfold tpl in *. simpl in Hf. rewrite length_app in Hf.
  cbn [map concat chop]. destruct (chop l) as [s r] eqn:Ec. simpl in IH. destruct x as [c| |v]; cbn [tpl_of] in *.
  - destruct Hx as (Hc & _ & Hs). destruct (utf8_char_head c Hc) as [b Hb].
    destruct (text_step c b (concat (map tpl_of l)) Hc Hs Hb) as (E1 & E2 & E3).
    destruct c as [|b' c]; [done|]. injection Hb as ->. destruct fuel as [|fuel]; [simpl in Hf; lia|].
    cbn [app template_segments_go]. rewrite E1. cbn [app] in E2, E3. rewrite E2, E3.
    rewrite IH by (done || simpl in Hf; lia). cbn [fst snd msg_of]. by rewrite <-List.app_assoc.
  - destruct fuel as [|fuel]; [simpl in Hf; lia|]. cbn [app template_segments_go].
    change (byte_eqb SENTINEL SENTINEL) with true. cbv iota.
    rewrite IH by (done || simpl in Hf; lia). cbn [fst snd msg_of]. by rewrite <-List.app_assoc.
  - destruct fuel as [|fuel]; [simpl in Hf; lia|]. cbn [app template_segments_go].
    change (byte_eqb SENTINEL SENTINEL) with true. cbv iota.
    assert (byte_eqb (tag_of (kind v)) SENTINEL = false /\
            byte_eqb (tag_of (kind v)) KIND_NUM || byte_eqb (tag_of (kind v)) KIND_STR = true) as [-> ->]
      by (by destruct v as [[] ?]).
    rewrite IH by (done || simpl in Hf; lia). cbn [fst snd map concat]. by rewrite List.app_nil_r.
Qed.

Lemma segments_in l s :
  Forall item_ok l -> s <> [] -> s = (chop l).1 \/ (exists v, (v, s) ∈ (chop l).2) ->
  s ∈ template_segments (tpl l).
Proof.
  intros Hok Hne Hs. unfold template_segments. rewrite segments_go_items by done. simpl.
  assert (s ∈ flush_seg s) as Hin by (destruct s; [done|left]).
  apply elem_of_app. destruct Hs as [->|(v & Hv)]; [by left|]. right.
  apply elem_of_concat. exists (flush_seg s). split; [done|]. apply list_elem_of_fmap. by exists (v, s).
Qed.

(** ** Digit-free text *)

(** How digit-free text of a message can arise: inside one string variable, or
    from the end of one, a stretch of one segment and the start of another. *)
Definition explained (wf : str) (segments strs : list str) : Prop :=
  (exists s, s ∈ strs /\ occ wf s) \/
  exists x y z, wf = x ++ y ++ z /\
    (x = [] \/ exists s s', s ∈ strs /\ s = s' ++ x) /\
    (z = [] \/ exists s s', s ∈ strs /\ s = z ++ s') /\
    (y = [] \/ exists g, g ∈ segments /\ occ y g).

Definition covers (segments strs : list str) (r : list (Var * str)) : Prop :=
  forall v s, (v, s) ∈ r ->
    (kind v = Str -> text v ∈ strs) /\ (s <> [] -> s ∈ segments).

Lemma digit_free_num v w :
  var_ok v -> kind v = Num -> has_digit w = false -> occ w (text v) -> w = [].
Proof.
  intros (_ & _ & Hk) Hn Hd (a & b & Hocc). rewrite Hn in Hk. destruct Hk as [Hdig _].
  unfold digits_only in Hdig. rewrite Hocc, !forallb_app in Hdig. split_andb.
  destruct w as [|c w]; [done|]. simpl in *. split_andb. unfold has_digit in Hd. simpl in Hd.
  apply orb_false_iff in Hd as [Hd _]. congruence.
Qed.

Lemma digit_free_prefix v w rest tail :
  var_ok v -> has_digit w = false -> text v ++ rest = w ++ tail ->
  exists t, text v = w ++ t.
Proof.
  intros (_ & Hv & _) Hd H. apply app_eq_inv in H as [(k & -> & _)|(k & Hw & _)]; [by exists k|].
  rewrite Hw, has_digit_app, Hv in Hd. done.
Qed.

(** A digit-free start of the text from a variable on. *)
Lemma tail_prefix sr r segments strs w rest :
  tail_ok sr r -> covers segments strs r -> has_digit w = false -> tail_text r = w ++ rest ->
  w = [] \/ exists s s', s ∈ strs /\ s = w ++ s'.
Proof.
  intros Hok Hc Hd H. destruct r as [|[v s] r]; [left; by destruct w|].
  destruct Hok as (Hv & _). unfold tail_text in H. simpl in H. rewrite <-List.app_assoc in H.
  destruct (digit_free_prefix v w _ _ Hv Hd H) as (t & Ht).
  destruct (Hc v s ltac:(left)) as [Hs _]. destruct (kind v) eqn:Ek.
  - left. apply (digit_free_num v); [done|done|done|]. by exists [], t.
  - right. exists (text v), t. auto.
Qed.

Lemma digit_free_explained sr segments strs r : forall seg0 w,
  tail_ok sr r -> covers segments strs r -> (seg0 <> [] -> seg0 ∈ segments) ->
  has_digit w = false -> occ w (seg0 ++ tail_text r) -> explained w segments strs.
Proof.
  induction r as [|[v s] r IH]; intros seg0 w Hok Hc Hseg Hd Ho.
  - unfold tail_text in Ho. simpl in Ho. rewrite List.app_nil_r in Ho. right. exists [], w, [].
    rewrite List.app_nil_r. split_and!; auto. destruct seg0 as [|b seg0]; [|right; eexists; eauto].
    left. destruct Ho as (u & u' & Ho). symmetry in Ho. apply app_nil in Ho as [_ Ho]. by apply app_nil in Ho as [? _].
  - pose proof Hok as (Hv & Hsd & _ & Hok').
    assert (covers segments strs r) as Hc' by (intros v' s' H'; apply Hc; by right).
    destruct (Hc v s ltac:(left)) as [Hstr Hs].
    apply occ_app in Ho as [Ho|[Ho|(a' & w1 & w2 & b' & -> & Ha & Hb & Hn1 & Hn2)]].
    + right. exists [], w, []. rewrite List.app_nil_r. split_and!; auto.
      destruct seg0; [left|right; eexists; eauto]. destruct Ho as (u & u' & Ho). symmetry in Ho.
      apply app_nil in Ho as [_ Ho]. by apply app_nil in Ho as [? _].
    + unfold tail_text in Ho. simpl in Ho. fold (tail_text r) in Ho. rewrite <-List.app_assoc in Ho.
      apply occ_app in Ho as [Ho|[Ho|(a' & w1 & w2 & b' & -> & Ha & Hb & Hn1 & Hn2)]].
      * destruct (kind v) eqn:Ek; [|left; by exists (text v); auto].
        apply (digit_free_num v) in Ho as ->; [|done..]. right. exists [], [], []. by split_and!; auto.
      * by apply (IH s).
      * rewrite has_digit_app in Hd. apply orb_false_iff in Hd as [Hd1 Hd2].
        destruct (kind v) eqn:Ek.
        { apply (digit_free_num v) in Hd1; [done|done|done|]. by exists a', []; rewrite List.app_nil_r. }
        right. apply app_eq_inv in Hb as [(k & -> & Hk)|(k & -> & Hk)].
        -- exists w1, w2, []. rewrite List.app_nil_r. split_and!; auto.
           ++ right. exists (text v), a'. auto.
           ++ right. exists (w2 ++ k). split; [apply Hs; by destruct w2|by exists [], k].
        -- rewrite has_digit_app in Hd2. apply orb_false_iff in Hd2 as [_ Hdk].
           exists w1, s, k. split_and!; auto.
           ++ right. exists (text v), a'. auto.
           ++ by eapply tail_prefix.
           ++ destruct s as [|b s]; [by left|]. right. exists (b :: s). split; [by apply Hs|].
              exists [], []. by rewrite List.app_nil_r.
    + rewrite has_digit_app in Hd. apply orb_false_iff in Hd as [_ Hd2]. right. exists [], w1, w2.
      split_and!; auto.
      * by apply (tail_prefix sr ((v, s) :: r) segments _ _ b').
      * right. exists seg0. split; [apply Hseg; rewrite Ha; by destruct a', w1|].
        exists a', []. by rewrite List.app_nil_r.
Qed.

Lemma ascii_boundary s i : is_ascii s = true -> (i <= length s)%nat -> is_char_boundary s i = true.
Proof.
  intros Ha Hi. unfold is_char_boundary. destruct (s !! i) as [b|] eqn:E.
  - apply list_elem_of_lookup_2 in E. unfold is_ascii in Ha. rewrite forallb_forall in Ha.
    rewrite ascii_not_cont; [by rewrite orb_true_r|]. by apply Ha, list_elem_of_In.
  - apply lookup_ge_None in E. replace (i =? length s)%nat with true; [by rewrite orb_true_r|].
    symmetry. apply Nat.eqb_eq. lia.
Qed.

Lemma ends_with_ci_spec s' x y : lower x = lower y -> ends_with_ci (s' ++ x) y = true.
Proof.
  intros H. pose proof (f_equal length H) as Hl. rewrite !length_map in Hl. unfold ends_with_ci.
  rewrite length_app. apply andb_true_iff. split; [apply Nat.leb_le; lia|].
  rewrite drop_app_length' by lia. by apply eq_ci.
Qed.

Lemma starts_with_ci_spec s' x y : lower x = lower y -> starts_with_ci (x ++ s') y = true.
Proof.
  intros H. pose proof (f_equal length H) as Hl. rewrite !length_map in Hl. unfold starts_with_ci.
  rewrite length_app. apply andb_true_iff. split; [apply Nat.leb_le; lia|].
  rewrite take_app_length' by lia. by apply eq_ci.
Qed.

Lemma existsb_elem {A} (p : A -> bool) (l : list A) x : x ∈ l -> p x = true -> existsb p l = true.
Proof. intros Hx Hp. apply existsb_exists. exists x. split; [by apply list_elem_of_In|done]. Qed.

(** Three pieces of a fragment, by their lengths. *)
Lemma fragment_pieces (frag x y z : str) :
  lower (x ++ y ++ z) = lower frag ->
  lower x = lower (take (length x) frag) /\
  lower y = lower (take (length y) (drop (length x) frag)) /\
  lower z = lower (drop (length x + length y) frag) /\
  length frag = (length x + length y + length z)%nat.
Proof.
  intros H. pose proof (f_equal length H) as Hl. rewrite !length_map, !length_app in Hl.
  apply (eq_sym) in H. apply lower_app_inv in H as (f1 & f23 & -> & H1 & H23).
  apply lower_app_inv in H23 as (f2 & f3 & -> & H2 & H3).
  pose proof (f_equal length H1) as L1. pose proof (f_equal length H2) as L2. rewrite !length_map in L1, L2.
  rewrite take_app_length', drop_app_length', take_app_length' by lia.
  rewrite <-drop_drop, drop_app_length', drop_app_length' by lia. rewrite !length_app in *.
  split_and!; [done..|lia].
Qed.

Lemma fragment_feasible_sound frag wf segments strs :
  is_ascii frag = true -> lower wf = lower frag -> explained wf segments strs ->
  fragment_feasible frag segments strs = true.
Proof.
  intros Ha Hl He. unfold fragment_feasible. destruct frag as [|c0 frag0] eqn:Ef; [done|]. rewrite <-Ef in *. clear Ef.
  destruct (_ <? _)%nat; [done|].
  destruct He as [(s & Hs & Ho)|(x & y & z & -> & Hx & Hz & Hy)].
  { rewrite (existsb_elem _ strs s Hs); [done|]. apply contains_ci_spec. by exists wf. }
  destruct (existsb _ strs); [done|].
  destruct (fragment_pieces _ _ _ _ Hl) as (Lx & Ly & Lz & Hlen).
  apply (existsb_elem _ _ (length x)).
  { destruct Hx as [->|(s & s' & Hs & ->)]; [left|]. destruct x as [|b x]; [left|]. right.
    apply list_elem_of_filter. split; [|apply elem_of_seq; simpl in *; lia].
    rewrite ascii_boundary by (done || lia). cbn [andb]. apply Is_true_true.
    apply (existsb_elem _ _ _ Hs). by apply ends_with_ci_spec. }
  apply (existsb_elem _ _ (length x + length y)%nat).
  { apply list_elem_of_filter. split; [apply Is_true_true, Nat.leb_le; lia|]. apply elem_of_app.
    destruct z as [|b z]; [right; apply list_elem_of_singleton; simpl in *; lia|]. left.
    destruct Hz as [?|(s & s' & Hs & ->)]; [done|].
    apply list_elem_of_filter. split; [|apply elem_of_seq; simpl in *; lia].
    rewrite ascii_boundary by (done || lia). cbn [andb]. apply Is_true_true.
    apply (existsb_elem _ _ _ Hs). by apply starts_with_ci_spec. }
  replace (length x + length y - length x)%nat with (length y) by lia.
  destruct (take (length y) (drop (length x) frag)) as [|b m] eqn:Em; [done|]. rewrite <-Em in *.
  destruct Hy as [->|(g & Hg & Ho)]; [done|]. apply (existsb_elem _ _ _ Hg). apply contains_ci_spec. by exists y.
Qed.

(** ** Maximal digit runs *)

Definition ends_nondigit (u : str) : Prop := u = [] \/ exists u' b, u = u' ++ [b] /\ is_ascii_digit b = false.
Definition starts_nondigit (v : str) : Prop := v = [] \/ exists b v', v = b :: v' /\ is_ascii_digit b = false.
Definition maxrun (run m : str) : Prop :=
  exists u v, m = u ++ run ++ v /\ ends_nondigit u /\ starts_nondigit v.

Lemma maxrun_found run t : maxrun run t -> has_maximal_digit_run t run = true.
Proof.
  intros (u & v & -> & Hu & Hv). unfold has_maximal_digit_run. rewrite !length_app.
  destruct (Nat.ltb_spec (length u + (length run + length v)) (length run)); [lia|].
  apply (existsb_elem _ _ (length u)); [apply elem_of_seq; lia|].
  rewrite drop_app_length, take_app_length. rewrite bool_decide_true by done. cbn [andb].
  apply andb_true_iff. split.
  - destruct Hu as [->|(u' & b & -> & Hb)]; [done|]. rewrite length_app. cbn [length].
    replace (length u' + 1 - 1)%nat with (length u') by lia. rewrite <-!List.app_assoc. cbn [app]. rewrite nth_middle, Hb.
    by rewrite orb_true_r.
  - destruct Hv as [->|(b & v' & -> & Hb)].
    + simpl. replace (length run + 0)%nat with (length run) by lia. by rewrite Nat.eqb_refl.
    + rewrite List.app_assoc, <-length_app, nth_middle, Hb. by rewrite orb_true_r.
Qed.

Lemma digit_in_nodigit a (b : byte) c : has_digit (a ++ b :: c) = false -> is_ascii_digit b = false.
Proof.
  rewrite has_digit_app. intros H. apply orb_false_iff in H as [_ H]. unfold has_digit in H. simpl in H.
  by apply orb_false_iff in H as [? _].
Qed.

(** A digit run after digit-free text starts after all of it. *)
Lemma run_after seg rest u run v :
  has_digit seg = false -> digits_only run = true -> run <> [] -> seg ++ rest = u ++ run ++ v ->
  exists u', u = seg ++ u' /\ rest = u' ++ run ++ v.
Proof.
  intros Hs Hr Hne H. apply app_eq_inv in H as [(k & -> & Hk)|(k & -> & ->)]; [|by exists k].
  destruct k as [|b k]; [exists []; by rewrite !List.app_nil_r|].
  destruct run as [|c run]; [done|]. injection Hk as <- _. apply digit_in_nodigit in Hs.
  unfold digits_only in Hr. simpl in Hr. apply andb_true_iff in Hr as [Hr _]. congruence.
Qed.

Lemma digits_only_app a b : digits_only (a ++ b) = digits_only a && digits_only b.
Proof. apply forallb_app. Qed.

(** A maximal run inside an all-digit text is all of it. *)
Lemma maxrun_digits t run : digits_only t = true -> maxrun run t -> t = run.
Proof.
  intros Ht (u & v & -> & Hu & Hv). rewrite !digits_only_app in Ht. split_andb.
  destruct Hu as [->|(u' & b & -> & Hb)].
  - destruct Hv as [->|(b & v' & -> & Hb)]; [by rewrite List.app_nil_r|].
    unfold digits_only in *. simpl in *. split_andb. congruence.
  - rewrite digits_only_app in *. split_andb. unfold digits_only in *. simpl in *. split_andb. congruence.
Qed.

Lemma ends_nondigit_app a b : ends_nondigit (a ++ b) -> ends_nondigit b.
Proof.
  intros [H|(u & c & H & Hc)]; [left; by apply app_nil in H as [_ ?]|].
  destruct b as [|x b _] using rev_ind; [by left|]. right. rewrite List.app_assoc in H.
  apply app_inj_tail in H as [_ ->]. by exists b, c.
Qed.

Lemma starts_nondigit_app a b : starts_nondigit (a ++ b) -> starts_nondigit a.
Proof.
  destruct a as [|x a]; [by left|]. intros [H|(c & v & H & Hc)]; [done|]. injection H as -> _.
  right. by exists c, a.
Qed.

(** A digit never follows a variable. *)
Lemma after_var sr v s r b k :
  tail_ok sr ((v, s) :: r) -> s ++ tail_text r = b :: k -> is_ascii_digit b = false.
Proof.
  intros (_ & _ & Hedge & _) H. destruct s as [|c s].
  { subst r. done. }
  injection H as -> _. destruct Hedge as [He _]. unfold edge in He. split_andb. by apply negb_true_iff.
Qed.

Lemma maxrun_tail sr r run :
  digits_only run = true -> run <> [] -> tail_ok sr r ->
  forall seg0, has_digit seg0 = false -> maxrun run (seg0 ++ tail_text r) ->
  exists v s, (v, s) ∈ r /\ maxrun run (text v).
Proof.
  intros Hr Hne. induction r as [|[v s] r IH]; intros Hok seg0 Hs (u & w & H & Hu & Hw).
  { destruct (run_after _ _ _ _ _ Hs Hr Hne H) as (u' & -> & Hnil). unfold tail_text in Hnil. simpl in Hnil.
    symmetry in Hnil. apply app_nil in Hnil as [_ Hnil]. by apply app_nil in Hnil as [? _]. }
  pose proof Hok as (Hv & Hsd & _ & Hok').
  destruct (run_after _ _ _ _ _ Hs Hr Hne H) as (u' & -> & Hrest). apply ends_nondigit_app in Hu.
  unfold tail_text in Hrest. simpl in Hrest. fold (tail_text r) in Hrest. rewrite <-List.app_assoc in Hrest.
  apply app_eq_inv in Hrest as [(k & Htext & Hk)|(k & -> & Hk)].
  - exists v, s. split; [left|]. apply app_eq_inv in Hk as [(k' & -> & Hk')|(k' & -> & Hk')].
    + destruct k' as [|b k']; [exists u', []; rewrite !List.app_nil_r; split_and!; [done|done|by left]|].
      apply (after_var sr v s r) in Hk'; [|done]. rewrite digits_only_app in Hr. split_andb.
      unfold digits_only in *. simpl in *. split_andb. congruence.
    + exists u', k'. rewrite Hk' in Hw. by apply starts_nondigit_app in Hw.
  - apply ends_nondigit_app in Hu. destruct (IH Hok' s Hsd) as (v' & s' & Hin & Hmax); [by exists k, w|].
    exists v', s'. split; [by right|done].
Qed.

(** A maximal digit run of a message is a number's whole text or a maximal run
    of a string variable. *)
Lemma run_explained_sound sr seg0 r run strs nums :
  digits_only run = true -> run <> [] -> (length run <= 19)%nat ->
  tail_ok sr r -> has_digit seg0 = false -> maxrun run (seg0 ++ tail_text r) ->
  (forall v s, (v, s) ∈ r -> kind v = Str -> text v ∈ strs) ->
  (forall v s, (v, s) ∈ r -> kind v = Num -> (width_of v, value_of v) ∈ nums) ->
  run_explained run strs nums = true.
Proof.
  intros Hr Hne Hlen Hok Hs Hm Hstrs Hnums.
  destruct (maxrun_tail sr r run Hr Hne Hok seg0 Hs Hm) as (v & s & Hin & Hmax).
  unfold run_explained. apply orb_true_iff. destruct (kind v) eqn:Ek.
  - left. assert (var_ok v) as (_ & _ & Hk).
    { clear -Hok Hin. induction r as [|[v' s'] r IH]; [by apply not_elem_of_nil in Hin|].
      destruct Hok as (Hv & _ & _ & Hok). apply elem_of_cons in Hin as [[= -> ->]|Hin]; [done|by apply IH]. }
    rewrite Ek in Hk. destruct Hk as [Hd Hn]. apply maxrun_digits in Hmax; [|done].
    destruct (num_run_value (text v) Hd) as (z & Hp & _); [by rewrite Hmax|done|].
    unfold num_ok. rewrite <-Hmax, Hp. apply andb_true_iff. split; [apply Nat.leb_le; by rewrite Hmax|].
    apply bool_decide_eq_true. specialize (Hnums v s Hin Ek). unfold width_of, value_of in Hnums.
    by rewrite Hp in Hnums.
  - right. apply (existsb_elem _ _ (text v)); [by eapply Hstrs|by apply maxrun_found].
Qed.

(** ** Token-confined needles *)

Lemma edge_not_token b : edge false b = true -> is_token_byte b = false.
Proof. unfold edge. intros H. split_andb. simpl in *. by apply negb_true_iff. Qed.

Lemma confined_tail r : forall seg0 w,
  tail_ok false r -> has_digit seg0 = false ->
  (r <> [] -> seg0 = [] \/ exists s' b', seg0 = s' ++ [b'] /\ edge false b' = true) ->
  forallb is_token_byte w = true -> has_digit w = true -> existsb not_digit w = true ->
  occ w (seg0 ++ tail_text r) -> exists v s, (v, s) ∈ r /\ kind v = Str /\ occ w (text v).
Proof.
  induction r as [|[v s] r IH]; intros seg0 w Hok Hd He Ht Hwd Hwn Ho.
  { unfold tail_text in Ho. simpl in Ho. rewrite List.app_nil_r in Ho. destruct Ho as (a & b & ->).
    rewrite !has_digit_app, Hwd, orb_true_r in Hd. done. }
  pose proof Hok as (Hv & Hsd & Hedge & Hok').
  apply occ_app in Ho as [(a & b & ->)|[Ho|(a' & w1 & w2 & b' & -> & -> & Hb & Hn1 & Hn2)]].
  - rewrite !has_digit_app, Hwd, orb_true_r in Hd. done.
  - unfold tail_text in Ho. simpl in Ho. fold (tail_text r) in Ho. rewrite <-List.app_assoc in Ho.
    apply occ_app in Ho as [Ho|[Ho|(a' & w1 & w2 & b' & -> & _ & Hb & _ & Hn2)]].
    + exists v, s. split; [left|]. split; [|done]. destruct (kind v) eqn:Ek; [exfalso|done].
      destruct Hv as (_ & _ & Hk). rewrite Ek in Hk. destruct Hk as [Hdig _]. destruct Ho as (a & b & Ho).
      rewrite Ho, !digits_only_app in Hdig. split_andb. apply existsb_exists in Hwn as (c & Hc & Hcn).
      unfold digits_only in *. rewrite forallb_forall in *. unfold not_digit in Hcn.
      rewrite negb_true_iff in Hcn. rewrite (H c Hc) in Hcn || rewrite (H0 c Hc) in Hcn. done.
    + destruct (IH s w Hok' Hsd) as (v' & s' & Hin & Hrest); try done.
      * intros Hr. destruct s as [|c s]; [by left|]. right. destruct Hedge as [_ Hl]. by apply Hl.
      * exists v', s'. split; [by right|done].
    + exfalso. rewrite forallb_app in Ht. split_andb. destruct w2 as [|c w2]; [done|]. simpl in *. split_andb.
      destruct s as [|c' s]; [subst r; done|]. injection Hb as <- _. destruct Hedge as [Hc _].
      apply edge_not_token in Hc. congruence.
  - exfalso. rewrite forallb_app in Ht. split_andb.
    destruct (He ltac:(done)) as [Hnil|(s' & c & Hs & Hc)]; [by apply app_nil in Hnil as [_ ?]|].
    destruct w1 as [|x w1 _] using rev_ind; [done|]. rewrite List.app_assoc in Hs.
    apply app_inj_tail in Hs as [_ ->]. rewrite forallb_app in *. split_andb. simpl in *. split_andb.
    apply edge_not_token in Hc. congruence.
Qed.

(** ** Soundness of the walk *)

(** What the checks are given covers the parse of one message. *)
Definition covers_items (l : list item) (segments strs : list str) (nums : list (byte * Z)) : Prop :=
  (forall s, s ∈ template_segments (tpl l) -> s ∈ segments) /\
  (forall v, v ∈ vars l -> kind v = Str -> text v ∈ strs) /\
  (forall v, v ∈ vars l -> kind v = Num -> (width_of v, value_of v) ∈ nums).

Lemma covers_chop l segments strs nums :
  Forall item_ok l -> covers_items l segments strs nums ->
  covers segments strs (chop l).2 /\ ((chop l).1 <> [] -> (chop l).1 ∈ segments) /\
  (forall v s, (v, s) ∈ (chop l).2 -> kind v = Num -> (width_of v, value_of v) ∈ nums).
Proof.
  intros Hok (Hseg & Hstr & Hnum). assert (forall v s, (v, s) ∈ (chop l).2 -> v ∈ vars l) as Hv.
  { intros v s H. rewrite chop_vars. apply list_elem_of_fmap. by exists (v, s). }
  split_and!.
  - intros v s H. split; [intros Hk; eapply Hstr; eauto|]. intros Hs. apply Hseg, segments_in; eauto.
  - intros Hs. apply Hseg, segments_in; auto.
  - intros v s H Hk. eapply Hnum; eauto.
Qed.

Lemma span_lower (p : byte -> bool) nb a b w :
  span p nb = (a, b) -> lower w = lower nb ->
  exists w1 w2, w = w1 ++ w2 /\ lower w1 = lower a /\ lower w2 = lower b.
Proof. intros Hs Hl. apply span_spec in Hs as (-> & _). by apply lower_app_inv. Qed.

Section Walk.
Context (sr : bool) (l : list item) (segments strs : list str) (nums : list (byte * Z)).
Context (Hok : Forall item_ok l) (Hlink : linked sr l = true) (Hcov : covers_items l segments strs nums).

Lemma fragment_walk frag wf :
  is_ascii frag = true -> forallb not_digit frag = true -> lower wf = lower frag -> occ wf (msg l) ->
  fragment_feasible frag segments strs = true.
Proof.
  intros Ha Hd Hl Ho. apply (fragment_feasible_sound _ wf); [done|done|].
  destruct (covers_chop _ _ _ _ Hok Hcov) as (Hc & Hs & _). destruct (chop_chop_ok sr l Hok Hlink) as (_ & Ht & _).
  rewrite chop_msg in Ho. apply (digit_free_explained sr _ _ _ _ _ Ht Hc Hs); [|done].
  assert (forall x, not_digit (to_ascii_lowercase x) = not_digit x) as Hnd by (intros; unfold not_digit; by rewrite lower_digit).
  rewrite <-(lower_forallb _ Hnd _ _ Hl) in Hd. clear -Hd. unfold has_digit.
  induction wf as [|c wf IH]; [done|]. simpl in *. split_andb. unfold not_digit in H. apply negb_true_iff in H.
  rewrite H. by apply IH.
Qed.

Lemma run_walk run u v :
  digits_only run = true -> run <> [] -> (length run <= 19)%nat ->
  msg l = u ++ run ++ v -> ends_nondigit u -> starts_nondigit v ->
  run_explained run strs nums = true.
Proof.
  intros Hd Hne Hlen Hm Hu Hv. destruct (covers_chop _ _ _ _ Hok Hcov) as (Hc & _ & Hn).
  destruct (chop_chop_ok sr l Hok Hlink) as (Hsd & Ht & _). rewrite chop_msg in Hm.
  apply (run_explained_sound sr (chop l).1 (chop l).2); [done|done|done|done|done| | |done].
  - by exists u, v.
  - intros x s Hin Hk. by apply (Hc x s).
Qed.

Lemma walk_sound fuel : forall nb u w v at_start,
  is_ascii nb = true -> msg l = u ++ w ++ v -> lower w = lower nb ->
  (at_start = false -> match nb with c :: _ => is_ascii_digit c = true -> ends_nondigit u | [] => True end) ->
  Forall (fun r => (length r <= 19)%nat) (inner_runs (needle_parts_go fuel at_start nb)) ->
  walk_needle fuel at_start nb segments strs nums = true.
Proof.
  induction fuel as [|fuel IH]; intros nb u w v at_start Ha Hm Hl Hst H19; [done|].
  destruct nb as [|c nb']; [done|]. cbn [walk_needle needle_parts_go] in *.
  destruct (is_ascii_digit c) eqn:Ec.
  - destruct (span is_ascii_digit (c :: nb')) as [run rest] eqn:Es.
    destruct (span_nonempty _ _ _ _ _ Es Ec) as [run' Hrun].
    destruct (span_lower _ _ _ _ _ Es Hl) as (w1 & w2 & -> & Hl1 & Hl2).
    apply span_spec in Es as (Heq & Hd & Hrest). apply lower_digits in Hl1 as ->; [|done].
    assert (is_ascii rest = true) as Har by (unfold is_ascii in *; rewrite Heq in Ha; by apply forallb_app_inv in Ha as [_ ?]).
    assert (msg l = (u ++ run) ++ w2 ++ v) as Hm' by (by rewrite Hm, <-!List.app_assoc).
    assert (Forall (fun r => (length r <= 19)%nat) (inner_runs (needle_parts_go fuel false rest)) ->
      walk_needle fuel false rest segments strs nums = true) as Hrec.
    { intros H. eapply (IH rest (u ++ run) w2 v); [done|done|done| |done]. intros _. destruct rest; [done|]. congruence. }
    destruct (at_start || _) eqn:Eb; [by apply Hrec|]. apply orb_false_iff in Eb as [-> Hne].
    simpl in H19. inversion_clear H19 as [|? ? H19r H19']. rewrite Hrec by done. rewrite andb_true_r.
    apply (run_walk run u (w2 ++ v)); [done|by rewrite Hrun|done|by rewrite Hm, <-List.app_assoc|by apply Hst|].
    destruct rest as [|b rest]; [done|]. destruct w2 as [|b2 w2]; [done|]. right. exists b2, (w2 ++ v).
    split; [done|]. injection Hl2 as Hb _. by rewrite <-lower_digit, Hb, lower_digit.
  - assert (not_digit c = true) as Ecn by (unfold not_digit; by rewrite Ec).
    destruct (span not_digit (c :: nb')) as [frag rest] eqn:Es.
    destruct (span_nonempty _ _ _ _ _ Es Ecn) as [frag' Hfrag].
    destruct (span_lower _ _ _ _ _ Es Hl) as (w1 & w2 & -> & Hl1 & Hl2).
    apply span_spec in Es as (Heq & Hd & Hrest). unfold is_ascii in Ha. rewrite Heq in Ha.
    apply forallb_app_inv in Ha as [Haf Har].
    rewrite (fragment_walk frag w1 Haf Hd Hl1) by (exists u, (w2 ++ v); by rewrite Hm, <-List.app_assoc).
    cbn [andb]. eapply (IH rest (u ++ w1) w2 v); [done|by rewrite Hm, <-!List.app_assoc|done| |done].
    intros _. destruct rest as [|c2 rest]; [done|]. intros _. right.
    destruct w1 as [|b w1 _] using rev_ind; [by rewrite Hfrag in Hl1|].
    exists (u ++ w1), b. split; [by rewrite List.app_assoc|].
    assert (forall x, not_digit (to_ascii_lowercase x) = not_digit x) as Hnd
      by (intros; unfold not_digit; by rewrite lower_digit).
    rewrite <-(lower_forallb _ Hnd _ _ Hl1), forallb_app in Hd. split_andb. simpl in *. split_andb.
    by apply negb_true_iff.
Qed.
End Walk.

(** ** Feasibility is sound *)

Lemma walk_parts segments strs nums fuel : forall at_start nb,
  let p := needle_parts_go fuel at_start nb in
  walk_needle fuel at_start nb segments strs nums =
    forallb (fun frag => fragment_feasible frag segments strs) (fragments p) &&
    forallb (fun run => run_explained run strs nums) (inner_runs p).
Proof.
  induction fuel as [|fuel IH]; intros at_start nb; [done|]. destruct nb as [|c nb]; [done|].
  cbn [walk_needle needle_parts_go]. destruct (is_ascii_digit c).
  - destruct (span is_ascii_digit (c :: nb)) as [run rest]. rewrite IH.
    destruct (at_start || _); [done|]. simpl. destruct (run_explained run strs nums); simpl; [done|].
    by rewrite andb_false_r.
  - destruct (span not_digit (c :: nb)) as [frag rest]. rewrite IH. simpl. by rewrite andb_assoc.
Qed.

(** Needles whose inner digit runs are at most nineteen digits long. *)
Definition short_runs (needle : str) : Prop :=
  Forall (fun r => (length r <= 19)%nat) (inner_runs (needle_parts needle)).

(** The rules shared by the block-level and the per-template check. *)
Lemma feasible_sound sr l segments strs nums needle :
  Forall item_ok l -> linked sr l = true -> covers_items l segments strs nums ->
  is_ascii needle = true -> short_runs needle -> contains_ci (msg l) needle = true ->
  template_feasible needle (needle_parts needle) (negb sr) segments strs nums = true.
Proof.
  intros Hok Hl Hcov Ha H19 Hc. apply contains_ci_spec in Hc as (w & Ho & Hw).
  unfold template_feasible. destruct (negb sr && token_confined_mixed needle) eqn:Et.
  - apply andb_true_iff in Et as [Hsr Ht]. apply negb_true_iff in Hsr as ->.
    unfold token_confined_mixed in Ht. destruct needle as [|c0 n0] eqn:En; [done|]. rewrite <-En in *. clear En.
    split_andb. destruct (covers_chop _ _ _ _ Hok Hcov) as (Hcv & _).
    destruct (chop_chop_ok false l Hok Hl) as (Hd & Htl & He).
    assert (forall x, not_digit (to_ascii_lowercase x) = not_digit x) as Hnd by (intros; unfold not_digit; by rewrite lower_digit).
    destruct (confined_tail (chop l).2 (chop l).1 w) as (v & s & Hin & Hk & Hocc); try done.
    + by rewrite (lower_forallb _ lower_token _ _ Hw).
    + unfold has_digit. by rewrite (lower_existsb _ lower_digit _ _ Hw).
    + by rewrite (lower_existsb _ Hnd _ _ Hw).
    + by rewrite <-chop_msg.
    + apply (existsb_elem _ _ (text v)); [by apply (Hcv v s)|]. apply contains_ci_spec. by exists w.
  - destruct Ho as (u & v & Hm). unfold needle_parts in *. rewrite <-walk_parts.
    by eapply (walk_sound sr l segments strs nums Hok Hl Hcov).
Qed.

(** A digit with a non-digit somewhere after it. *)
Definition digit_then (nb : str) : Prop :=
  exists a d b c e, nb = a ++ d :: b ++ c :: e /\ is_ascii_digit d = true /\ is_ascii_digit c = false.

Lemma digit_then_app a b : digit_then b -> digit_then (a ++ b).
Proof.
  intros (x & d & y & c & e & -> & Hd & Hc). exists (a ++ x), d, y, c, e. by rewrite <-List.app_assoc.
Qed.

Lemma digit_then_cons c b : is_ascii_digit c = false -> digit_then (c :: b) -> digit_then b.
Proof.
  intros Hc (x & d & y & c' & e & H & Hd & Hc'). destruct x as [|x0 x]; [injection H as -> _; congruence|].
  injection H as -> ->. by exists x, d, y, c', e.
Qed.

Lemma inner_digit_then fuel : forall nb,
  inner_runs (needle_parts_go fuel false nb) <> [] -> digit_then nb.
Proof.
  induction fuel as [|fuel IH]; intros nb H; [done|]. destruct nb as [|c nb]; [done|].
  cbn [needle_parts_go orb] in H. destruct (is_ascii_digit c) eqn:Ec.
  - destruct (span is_ascii_digit (c :: nb)) as [run rest] eqn:Es.
    destruct (span_nonempty _ _ _ _ _ Es Ec) as [run' ->]. apply span_spec in Es as (-> & _ & Hr).
    destruct rest as [|c2 rest]; [apply digit_then_app; by apply IH|]. by exists [], c, run', c2, rest.
  - destruct (span not_digit (c :: nb)) as [frag rest] eqn:Es. apply span_spec in Es as (-> & _).
    apply digit_then_app. by apply IH.
Qed.

Lemma span_stop (p : byte -> bool) a c r : p c = false -> exists a2, (span p (a ++ c :: r)).2 = a2 ++ c :: r.
Proof.
  intros Hc. induction a as [|x a [a2 IH]]; simpl; [rewrite Hc; by exists []|].
  destruct (p x); [|by exists (x :: a)]. destruct (span p (a ++ c :: r)). by exists a2.
Qed.

Lemma has_inner_run_spec a c1 nb :
  is_ascii_digit c1 = false -> digit_then nb -> has_inner_run (a ++ c1 :: nb) = true.
Proof.
  intros H1 (x & d & y & c & e & -> & Hd & Hc). unfold has_inner_run.
  destruct (span_stop is_ascii_digit a c1 (x ++ d :: y ++ c :: e) H1) as [a2 ->].
  assert (rev (a2 ++ c1 :: x ++ d :: y ++ c :: e) = rev e ++ c :: rev (a2 ++ c1 :: x ++ d :: y)) as ->.
  { replace (a2 ++ c1 :: x ++ d :: y ++ c :: e) with ((a2 ++ c1 :: x ++ d :: y) ++ c :: e)
      by (by rewrite <-!List.app_assoc; simpl; rewrite <-List.app_assoc).
    rewrite rev_app_distr. simpl. by rewrite <-List.app_assoc. }
  destruct (span_stop is_ascii_digit (rev e) c (rev (a2 ++ c1 :: x ++ d :: y)) Hc) as [e2 ->].
  apply existsb_exists. exists d. split; [|done]. apply in_rev. rewrite rev_involutive.
  apply in_or_app. right. right. apply in_rev. rewrite rev_involutive.
  apply in_or_app. right. right. apply in_or_app. right. left. done.
Qed.

Lemma no_inner_runs needle :
  has_inner_run needle = false -> inner_runs (needle_parts needle) = [].
Proof.
  intros H. destruct (inner_runs (needle_parts needle)) as [|r rs] eqn:E; [done|]. exfalso.
  assert (inner_runs (needle_parts needle) <> []) as Hne by (by rewrite E). clear E.
  unfold needle_parts in Hne. destruct needle as [|c nb]; [done|]. cbn [length needle_parts_go orb] in Hne.
  destruct (is_ascii_digit c) eqn:Ec.
  - destruct (span is_ascii_digit (c :: nb)) as [run rest] eqn:Es. apply inner_digit_then in Hne as Hq.
    apply span_spec in Es as (Heq & _ & Hr). destruct rest as [|c2 rest]; [by destruct Hq as ([] & ? & ? & ? & ? & ? & _)|].
    rewrite Heq in H. rewrite has_inner_run_spec in H; [done|done|]. by eapply digit_then_cons.
  - destruct (span not_digit (c :: nb)) as [frag rest] eqn:Es. apply inner_digit_then in Hne as Hq.
    apply span_spec in Es as (Heq & _). change (c :: nb) with ([] ++ c :: nb) in H. rewrite has_inner_run_spec in H; [done|done|].
    eapply digit_then_cons; [exact Ec|]. rewrite Heq. by apply digit_then_app.
Qed.

Lemma zip_map_map {A B C} (f : A -> B) (g : A -> C) l : zip (map f l) (map g l) = map (fun x => (f x, g x)) l.
Proof. induction l; simpl; [done|]. by f_equal. Qed.

Section Sound.
Context `{ZS : Zstd} `{ZL : !ZstdLaws} `{PI : !Pco Z} `{PIL : !PcoLaws is_i64}.

(** The block's dictionaries cover every message's parse. *)
Lemma block_covers msgs sr m :
  Forall is_str msgs -> m ∈ msgs ->
  let tk := tokenize_block msgs sr in
  let flat := concat (map snd (group_vars (ids tk) (msg_vars tk))) in
  exists l, msg l = m /\ Forall item_ok l /\ linked sr l = true /\
    covers_items l (concat (map template_segments (dict tk))) (remove_dups (strs_of flat))
      (zip (stream_widths flat) (stream_values flat)).
Proof.
  intros Hv Hm tk flat. destruct (block_rows msgs sr Hv) as (Hp & _ & _). fold tk in Hp.
  apply list_elem_of_lookup in Hm as [i Hi].
  destruct (Forall2_lookup_l _ _ _ _ _ Hp Hi) as (row & Hrow & l & (He & Hmsg & Hok & Hl) & _ & Hd).
  injection He as He. exists l. split_and!; [done|done|done|].
  assert (forall v, v ∈ vars l -> v ∈ flat) as Hflat.
  { intros v Hvl. unfold flat, group_vars. rewrite (groups_perm (zip (ids tk) (msg_vars tk)) []) by constructor.
    simpl. apply elem_of_concat. exists row.2. rewrite He. split; [done|].
    apply list_elem_of_fmap. exists row. split; [done|]. by eapply list_elem_of_lookup_2. }
  split_and!.
  - intros s Hs. apply elem_of_concat. exists (template_segments (tpl l)). split; [done|].
    apply list_elem_of_fmap. exists (tpl l). split; [done|]. by eapply list_elem_of_lookup_2.
  - intros v Hvl Hk. apply elem_of_remove_dups. unfold strs_of. apply list_elem_of_fmap. exists v.
    split; [done|]. apply list_elem_of_filter. auto.
  - intros v Hvl Hk. unfold stream_widths, stream_values. rewrite zip_map_map.
    apply list_elem_of_fmap. exists v. split; [done|]. apply list_elem_of_filter. auto.
Qed.
Lemma encode_template_mode msgs level bytes :
  encode_template_str msgs level = Ok bytes -> exists sr, encode_mode msgs sr level = Ok bytes.
Proof.
  unfold encode_template_str. destruct (encode_mode msgs true level) as [a|] eqn:Ea; [|done].
  destruct (encode_mode msgs false level) as [b|] eqn:Eb; [|done].
  destruct (_ <=? _)%nat; intros [= <-]; eauto.
Qed.

(** The block-level check on an encoded column is the check on its dictionaries. *)
Lemma column_may_contain_eq msgs sr level bytes needle :
  Forall is_str msgs -> messages_fit msgs -> encode_mode msgs sr level = Ok bytes ->
  needle <> [] -> is_ascii needle = true ->
  let tk := tokenize_block msgs sr in
  let flat := concat (map snd (group_vars (ids tk) (msg_vars tk))) in
  column_may_contain bytes needle =
    Ok (template_feasible needle (needle_parts needle) (negb sr) (concat (map template_segments (dict tk)))
          (remove_dups (strs_of flat)) (zip (stream_widths flat) (stream_values flat))).
Proof.
  intros Hv Hf He Hne Ha tk flat.
  destruct (encode_mode_read _ _ _ _ Hv Hf He) as (st & r & Hread & _ & Hmode & _ & _ & _ & _ & Hd & Hw & Hvs & Hs).
  unfold column_may_contain. destruct needle as [|c0 n0] eqn:En; [done|]. rewrite <-En in *. clear En.
  rewrite Ha, Hread. cbn [negb]. rewrite Hd, Hs. fold tk flat in Hw, Hvs |- *.
  assert (byte_eqb (s_mode st) x01 = negb sr) as -> by (rewrite Hmode; by destruct sr).
  unfold template_feasible. destruct (negb sr && _); [done|].
  unfold needle_parts. destruct (has_inner_run needle) eqn:Er.
  - rewrite Hw, Hvs. by rewrite walk_parts.
  - rewrite walk_parts. apply no_inner_runs in Er. unfold needle_parts in Er. by rewrite Er.
Qed.

Lemma column_may_contain_ok (msgs : list str) (level : Z) (bytes : list byte) (needle : str) :
  Forall is_str msgs -> messages_fit msgs -> encode_template_str msgs level = Ok bytes ->
  short_runs needle ->
  exists answer, column_may_contain bytes needle = Ok answer /\
    (answer = false -> Forall (fun m => contains_ci m needle = false) msgs).
Proof.
  intros Hv Hf He H19. destruct (encode_template_mode _ _ _ He) as [sr Hm].
  destruct (decide (needle = [] \/ is_ascii needle = false)) as [Htriv|Hgo].
  { exists true. split; [|done]. unfold column_may_contain. destruct needle; [done|].
    destruct Htriv as [?| ->]; done. }
  assert (needle <> [] /\ is_ascii needle = true) as [Hne Ha]
    by (destruct (is_ascii needle); naive_solver).
  rewrite (column_may_contain_eq msgs sr level bytes needle Hv Hf Hm Hne Ha).
  eexists. split; [done|]. intros Hfalse. apply Forall_forall. intros m Hin.
  apply not_true_iff_false. intros Hc. apply not_true_iff_false in Hfalse. apply Hfalse.
  destruct (block_covers msgs sr m Hv Hin) as (l & Hmsg & Hok & Hl & Hcov).
  eapply feasible_sound; try done. by rewrite Hmsg.
Qed.

(** C21: The block-level feasibility check never loses a message whose digit runs
    it can look up: on an encoded column it always answers, and when it answers
    "cannot contain" for an ASCII needle whose inner digit runs have at most 19
    digits, no message of the block contains the needle, in either tokenizer mode
    and whatever the letter case. *)
Theorem column_may_contain_sound (msgs : list str) (level : Z) (bytes : list byte) (needle : str) :
  Forall is_str msgs -> messages_fit msgs -> encode_template_str msgs level = Ok bytes ->
  short_runs needle ->
  exists answer, column_may_contain bytes needle = Ok answer /\
    (answer = false -> Forall (fun m => contains_ci m needle = false) msgs).
Proof. apply column_may_contain_ok. Qed.
(** A number zero-padded to twenty digits: it fits the typed columns (the value is
    an i64 and the width a byte). *)
Definition padded_message : str := $"job 00000000000000000007 done".

(** C22: The nineteen-digit bound of the digit-run lookup is not the bound of the
    tokenizer, and the check is wrong beyond it: a message with a number zero-padded
    to twenty digits is encoded as a typed number, and searching its block for that
    very message answers "cannot contain" - a false proof of absence - whatever the
    compressor and whichever tokenizer mode wins. *)
Theorem wide_run_false_absence (level : Z) (bytes : list byte) :
  encode_template_str [padded_message] level = Ok bytes ->
  contains_ci padded_message padded_message = true /\
  column_may_contain bytes padded_message = Ok false.
Proof.
  intros He. split; [reflexivity|]. destruct (encode_template_mode _ _ _ He) as [sr Hm].
  assert (Forall is_str [padded_message]) as Hv by (constructor; [reflexivity|constructor]).
  assert (messages_fit [padded_message]) as Hf by (unfold messages_fit; vm_compute; discriminate).
  rewrite (column_may_contain_eq [padded_message] sr level bytes padded_message Hv Hf Hm); try done.
  f_equal. destruct sr; vm_compute; reflexivity.
Qed.
End Sound.

(** ** The filtered decode *)

Section FilteredReplay.
Context (brows : list (Z * list Var)) (kbi : list (list VarKind)) (st : Layout).
Context (Hrows : Forall (row_ok kbi) brows).
Let G := fold_left group_row brows [].
Context (Hst : layout_inv kbi G st).
Let flat := concat (map snd G).

Lemma skip_slots_spec before id vs after b :
  brows = before ++ (id, vs) :: after ->
  (vs <> [] -> exists p0, b = Some p0 /\ G.*1 !! p0 = Some (id, 0)) ->
  forall todo s cursors, drop s vs = todo -> (s <= length vs)%nat -> cursors_at brows kbi before id s cursors ->
  exists cursors', skip_slots b s (map kind todo) cursors = Ok cursors' /\
    cursors_at brows kbi before id (length vs) cursors'.
Proof.
  intros Heq Hb. induction todo as [|v todo IH]; intros s cursors Hd Hs Hc.
  { exists cursors. split; [done|]. assert (s = length vs) as <-; [|done].
    apply (f_equal length) in Hd. rewrite length_drop in Hd. simpl in Hd. lia. }
  assert (vs !! s = Some v) as Hv by (rewrite <-(Nat.add_0_r s), <-lookup_drop, Hd; done).
  assert (drop (S s) vs = todo) as Hd' by (rewrite (drop_S vs v s Hv) in Hd; by injection Hd).
  pose proof (lookup_lt_Some _ _ _ Hv) as Hsl. destruct Hb as (p0 & -> & Hp0); [by destruct vs|].
  destruct (slot_group brows kbi st Hrows Hst _ _ _ _ _ _ _ Heq Hp0 Hv) as (gvs & Ep & Hk & _).
  destruct (cursors_bump brows kbi _ _ _ _ _ _ _ Ep Hk Hc) as [Hcur Hbump].
  destruct (IH _ _ Hd' ltac:(lia) Hbump) as (cursors' & Hpop & Hc').
  exists cursors'. split; [|done]. cbn [map skip_slots]. unfold cursor_at. by rewrite Hcur.
Qed.

Lemma base_of_row id vs :
  (id, vs) ∈ brows -> exists b, base st !! key_index id = Some b /\
    (vs <> [] -> exists p0, b = Some p0 /\ G.*1 !! p0 = Some (id, 0)).
Proof.
  intros Hin. destruct (proj1 (Forall_forall _ _) Hrows _ Hin) as (_ & Hk & _). simpl in Hk.
  destruct vs as [|v vs].
  - pose proof Hst as (_ & _ & _ & Hbl & _).
    destruct (lookup_lt_is_Some_2 (base st) (key_index id)) as [b Eb]; [rewrite Hbl; by eapply lookup_lt_Some|].
    by exists b.
  - destruct (G_base_position brows kbi Hrows st id (v :: vs) Hst Hin) as (p & Hp & Hg); [done|].
    exists (Some p). split; [done|]. intros _. by exists p.
Qed.

(** What the row's template is found to be: candidate, or unable to match. *)
Definition verdict (needle : str) (feasible : list bool) (m : str) (row : Z * list Var) : Prop :=
  exists f, feasible !! key_index row.1 = Some f /\ (f = false -> contains_ci m needle = false).

Definition matches (needle : str) (row : nat) (msgs : list str) : list (nat * str) :=
  filter (fun p => contains_ci p.2 needle = true) (imap (fun i m => ((row + i)%nat, m)) msgs).

Lemma matches_cons needle row m msgs :
  matches needle row (m :: msgs) =
    (if contains_ci m needle then [(row, m)] else []) ++ matches needle (S row) msgs.
Proof.
  unfold matches. simpl. rewrite filter_cons, Nat.add_0_r. simpl.
  rewrite (imap_ext (_ ∘ S) (fun i m => ((S row + i)%nat, m))) by (intros; simpl; f_equal; lia).
  destruct (contains_ci m needle); by destruct (decide _).
Qed.

Lemma replay_filtered_spec needle feasible dict : forall after before msgs cursors row,
  brows = before ++ after -> Forall2 (renders dict) msgs after -> Forall2 (verdict needle feasible) msgs after ->
  (forall id, cursors_at brows kbi before id 0 cursors) ->
  exists k, replay_filtered needle feasible dict kbi (stream_widths flat) (stream_values flat) (strs_of flat)
    (base st) row (after.*1) cursors = Ok (mkFiltered (matches needle row msgs) k) /\ (k <= length msgs)%nat.
Proof.
  induction after as [|[id vs] after IH]; intros before msgs cursors row Heq Hm Hf Hc.
  { inversion Hm. by exists 0%nat. }
  destruct msgs as [|m msgs']; [by inversion Hm|]. apply Forall2_cons in Hm as [(t & Ht & Hdet) Hm'].
  apply Forall2_cons in Hf as [(f & Ef & Hff) Hf']. simpl in Ht, Hdet, Ef. cbn [fmap list_fmap replay_filtered fst].
  assert ((id, vs) ∈ brows) as Hin by (rewrite Heq; apply elem_of_app; right; left).
  destruct (proj1 (Forall_forall _ _) Hrows _ Hin) as (_ & Hk & _). simpl in Hk.
  destruct (base_of_row id vs Hin) as (b & Eb & Hb). unfold index. rewrite Hk, Ef, Eb. cbn [ok_or].
  assert (brows = (before ++ [(id, vs)]) ++ after) as Heq' by (by rewrite <-List.app_assoc).
  rewrite matches_cons. destruct f; cbn [negb].
  - destruct (pop_slots_spec brows kbi st Hrows Hst before id vs after b Heq Hb vs 0 cursors)
      as (cursors' & Hpop & Hc'); [done|lia|apply Hc|]. fold G flat in Hpop. rewrite Hpop, Ht. cbn [ok_or]. rewrite Hdet.
    destruct (IH (before ++ [(id, vs)]) msgs' cursors' (S row) Heq' Hm' Hf') as (k & -> & Hk');
      [intros; by apply (cursors_next brows kbi Hrows _ id vs)|].
    exists (S k). split; [|simpl; lia]. by destruct (contains_ci m needle).
  - destruct (skip_slots_spec before id vs after b Heq Hb vs 0 cursors) as (cursors' & Hskip & Hc');
      [done|lia|apply Hc|]. rewrite Hskip.
    destruct (IH (before ++ [(id, vs)]) msgs' cursors' (S row) Heq' Hm' Hf') as (k & -> & Hk');
      [intros; by apply (cursors_next brows kbi Hrows _ id vs)|].
    exists k. rewrite Hff by done. split; [done|simpl; lia].
Qed.

(** The values the feasibility check is given for a template include those of
    each of its messages. *)
Lemma template_values_str widths values strs gs s g j x :
  gs !! s = Some g -> g_kind g = Str -> (j < g_len g)%nat -> strs !! (g_start g + j)%nat = Some x ->
  x ∈ (template_values widths values strs gs).1.
Proof.
  revert s. induction gs as [|g' gs IH]; intros s Hs Hk Hj Hx; [done|]. simpl.
  destruct (template_values widths values strs gs) as [ss ns] eqn:Et. destruct s as [|s]; simpl in Hs.
  - injection Hs as ->. rewrite Hk. simpl. apply elem_of_app. left. apply list_elem_of_lookup.
    exists j. by rewrite lookup_take_lt, lookup_drop.
  - specialize (IH s Hs Hk Hj Hx). destruct (g_kind g'); simpl in *; [done|]. apply elem_of_app. by right.
Qed.

Lemma template_values_num widths values strs gs s g j w v :
  gs !! s = Some g -> g_kind g = Num -> (j < g_len g)%nat ->
  widths !! (g_start g + j)%nat = Some w -> values !! (g_start g + j)%nat = Some v ->
  (w, v) ∈ (template_values widths values strs gs).2.
Proof.
  revert s. induction gs as [|g' gs IH]; intros s Hs Hk Hj Hw Hv; [done|]. simpl.
  destruct (template_values widths values strs gs) as [ss ns] eqn:Et. destruct s as [|s]; simpl in Hs.
  - injection Hs as ->. rewrite Hk. simpl. apply elem_of_app. left. apply list_elem_of_lookup.
    exists j. apply lookup_zip_with_Some. exists w, v. by rewrite !lookup_take_lt, !lookup_drop.
  - specialize (IH s Hs Hk Hj Hw Hv). destruct (g_kind g'); simpl in *; [|done]. apply elem_of_app. by right.
Qed.

Lemma template_covers l id vs p0 :
  (id, vs) ∈ brows -> vars l = vs -> G.*1 !! p0 = Some (id, 0) ->
  let tv := template_values (stream_widths flat) (stream_values flat) (strs_of flat)
              (take (length vs) (drop p0 (groups st))) in
  covers_items l (template_segments (tpl l)) (bts_of_list tv.1) tv.2.
Proof.
  intros Hin Hl Hp0 tv. apply list_elem_of_lookup in Hin as [i Hi].
  pose proof (take_drop_middle _ _ _ Hi) as Heq. symmetry in Heq.
  assert (forall v, v ∈ vs -> exists s j g, take (length vs) (drop p0 (groups st)) !! s = Some g /\
    g_kind g = kind v /\ (j < g_len g)%nat /\
    filter (fun x => kind x = kind v) flat !! (g_start g + j)%nat = Some v) as Hv.
  { intros v Hv. apply list_elem_of_lookup in Hv as [s Hs].
    destruct (slot_group brows kbi st Hrows Hst _ _ _ _ _ _ _ Heq Hp0 Hs) as (gvs & Ep & Hk & Hstream).
    destruct Hst as ((_ & Hg) & _). destruct (Hg _ _ Ep) as (k & Hk' & Hgp). simpl in Hk'.
    rewrite Hk in Hk'. injection Hk' as <-.
    eexists s, _, _. rewrite lookup_take_lt, lookup_drop by (by eapply lookup_lt_Some).
    split; [exact Hgp|]. split; [done|]. split; [|exact Hstream]. simpl.
    assert ((id, Z.of_nat s, gvs) ∈ G) as HG by (by eapply list_elem_of_lookup_2).
    apply (G_entry brows kbi Hrows) in HG as [-> _]. eapply lookup_lt_Some, column_here; eauto. }
  split_and!; [done| |]; intros v Hvl Hk; rewrite Hl in Hvl; destruct (Hv v Hvl) as (s & j & g & Hg & Hgk & Hj & Hx);
    rewrite Hk in Hgk, Hx.
  - apply elem_of_bts_of_list. eapply template_values_str; [exact Hg|done|exact Hj|].
    unfold strs_of. by rewrite list_lookup_fmap, Hx.
  - eapply template_values_num; [exact Hg|done|exact Hj| |];
      unfold stream_widths, stream_values, nums; by rewrite list_lookup_fmap, Hx.
Qed.
End FilteredReplay.

Section FilteredDecode.
Context `{ZS : Zstd} `{ZL : !ZstdLaws} `{PI : !Pco Z} `{PIL : !PcoLaws is_i64}.

(** Every row's template is judged soundly. *)
Lemma rows_verdict msgs sr needle lay :
  Forall is_str msgs -> messages_fit msgs -> is_ascii needle = true -> short_runs needle ->
  let tk := tokenize_block msgs sr in
  let brows := zip (ids tk) (msg_vars tk) in
  let flat := concat (map snd (fold_left group_row brows [])) in
  layout_inv (map slot_kinds (dict tk)) (fold_left group_row brows []) lay ->
  Forall2 (verdict needle (imap (fun t template =>
      feasible_template needle (needle_parts needle) (negb sr) template (slot_kinds template)
        (nth t (base lay) None) (groups lay) (stream_widths flat) (stream_values flat) (strs_of flat)) (dict tk)))
    msgs brows.
Proof.
  intros Hv Hf Ha H19 tk brows flat Hlay. destruct (block_rows msgs sr Hv) as (Hp & _ & _). fold tk brows in Hp.
  pose proof (row_parse_ok _ _ _ _ Hf Hp) as Hrok.
  apply Forall2_same_length_lookup_2; [by eapply Forall2_length|]. intros i m [id vs] Hm Hrow.
  destruct (Forall2_lookup_lr _ _ _ _ _ _ Hp Hm Hrow) as (l & (He & Hmsg & Hok & Hl) & H0 & Hd).
  injection He as He. simpl in *. unfold verdict. simpl. rewrite list_lookup_imap, Hd. simpl.
  eexists. split; [done|]. intros Hfalse. apply not_true_iff_false. intros Hc.
  apply not_true_iff_false in Hfalse. apply Hfalse. clear Hfalse. unfold feasible_template.
  assert (slot_kinds (tpl l) = map kind vs) as -> by (rewrite He; by apply slot_kinds_items).
  assert ((id, vs) ∈ brows) as Hin by (by eapply list_elem_of_lookup_2).
  destruct (base_of_row brows _ lay Hrok Hlay id vs Hin) as (b & Eb & Hb).
  rewrite nth_lookup, Eb. simpl. rewrite <-Hmsg in Hc. destruct vs as [|v0 vs0] eqn:Evs.
  - eapply feasible_sound; try done. split_and!; [done|..]; intros v Hvl; rewrite <-He in Hvl;
      by apply not_elem_of_nil in Hvl.
  - destruct (Hb ltac:(done)) as (p0 & -> & Hp0). cbn [map]. rewrite <-Evs in *.
    replace (length (kind v0 :: map kind vs0)) with (length vs) by (by rewrite Evs; simpl; rewrite length_map).
    pose proof (template_covers brows _ lay Hrok Hlay l id vs p0 Hin (eq_sym He) Hp0) as Hcov.
    fold flat in Hcov. destruct (template_values _ _ _ _) as [ss ns]. eapply feasible_sound; done.
Qed.

Lemma filtered_decode_ok (msgs : list str) (level : Z) (bytes : list byte) (needle : str) :
  Forall is_str msgs -> messages_fit msgs -> encode_template_str msgs level = Ok bytes ->
  needle <> [] -> is_ascii needle = true -> short_runs needle ->
  exists k, decode_template_str_filtered bytes (length msgs) needle =
      Ok (mkFiltered (filter (fun p => contains_ci p.2 needle = true) (imap pair msgs)) k) /\
    (k <= length msgs)%nat.
Proof.
  intros Hv Hf He Hne Ha H19. destruct (encode_template_mode _ _ _ He) as [sr Hmode].
  destruct (encode_mode_read _ _ _ _ Hv Hf Hmode)
    as (st & r & Hread & Hr & Hsm & Hdn & Hnn & Hsn & Hi & Hd & Hw & Hvs & Hs).
  destruct (block_rows msgs sr Hv) as (Hp & Hids & _). pose proof (row_parse_ok _ _ _ _ Hf Hp) as Hrok.
  destruct (group_layout_ok _ _ Hrok) as (lay & Hgl & Hlay).
  unfold decode_template_str_filtered, check_trailing. rewrite Hread, (rd_at_remaining _ _ Hr), Ha.
  replace (match needle with [] => true | _ => false end) with false by (by destruct needle).
  cbn [length Nat.eqb negb orb].
  rewrite Hi, Hd, Hw, Hvs, Hs, check_ids_ok by (rewrite Hdn; by apply ids_in_range).
  rewrite Hids in Hgl. rewrite Hnn, Hsn. unfold group_vars. rewrite Hgl.
  assert (byte_eqb (s_mode st) x01 = negb sr) as -> by (rewrite Hsm; by destruct sr).
  pose proof (rows_verdict msgs sr needle lay Hv Hf Ha H19 Hlay) as Hver.
  lazymatch type of Hver with Forall2 (verdict _ ?f) _ _ =>
    pose proof (replay_filtered_spec _ _ lay Hrok Hlay needle f (dict (tokenize_block msgs sr)) _ [] msgs
      (map g_start (groups lay)) 0 eq_refl) as Hrep end. rewrite Hids in Hrep. apply Hrep; [|exact Hver|].
  - eapply Forall2_impl; [exact Hp|]. intros m row (l & (Hl & Hm & Hok & _) & _ & Hdl). injection Hl as Hl.
    exists (tpl l). split; [done|]. rewrite Hl, <-Hm. by apply detokenize_items.
  - intros id. by apply (cursors_start _ _ _ Hrok).
Qed.

(** C6: The filtered decode is exactly the full decode filtered: for messages of at
    most 8 MiB together and a nonempty ASCII needle whose inner digit runs have at
    most 19 digits, skipping the rows of
    infeasible templates returns precisely the messages that contain the needle,
    with their original row indices and in row order, having detokenized at most
    every row. *)
Theorem filtered_decode_exact (msgs : list str) (level : Z) (bytes : list byte) (needle : str) :
  Forall is_str msgs -> messages_fit msgs -> encode_template_str msgs level = Ok bytes ->
  needle <> [] -> is_ascii needle = true -> short_runs needle ->
  exists k, decode_template_str_filtered bytes (length msgs) needle =
      Ok (mkFiltered (filter (fun p => contains_ci p.2 needle = true) (imap pair msgs)) k) /\
    (k <= length msgs)%nat.
Proof. apply filtered_decode_ok. Qed.
End FilteredDecode.
