(* ===== verification/FlatJson.v ===== *)
(** * Flat JSON objects

    The hand-written parser and printer of [flatjson.rs] for objects of string
    values, shared by the metrics labels and the logs metadata, and the filter
    grammar that extends it with one-operator objects.

    A [JsonCursor] is modelled by the bytes it has not consumed. Proved: what
    the printer writes parses back to the pairs it was given (the last of
    duplicate keys wins), and the filter grammar reads every flat object as
    equality matchers on the same pairs. *)
From Stdlib Require Import ZArith Lia Bool Strings.Byte.
From stdpp Require Import prelude gmap list strings.
From S2P Require Import Prelude RustStr Template.
Open Scope string_scope.
Open Scope list_scope.
Open Scope Z_scope.

(** ** Printing *)

(** Lower-case hexadecimal digit, and [{:04x}] of a value below 16{^4}. *)
Definition hex_digit (z : Z) : byte := if z <? 10 then z2b (48 + z) else z2b (87 + z).
Definition hex4 (z : Z) : str :=
  [hex_digit (z / 4096 mod 16); hex_digit (z / 256 mod 16);
   hex_digit (z / 16 mod 16); hex_digit (z mod 16)].

(** One character of [json_escape_into]. Every byte of a character above U+007F
    is at least 0x80, so pushing the character is pushing its bytes. *)
Definition escape_byte (c : byte) : str :=
  match c with
  | x22 => [x5c; x22]
  | x5c => [x5c; x5c]
  | x0a => [x5c; x6e]
  | x0d => [x5c; x72]
  | x09 => [x5c; x74]
  | _ => if b2z c <? 32 then x5c :: x75 :: hex4 (b2z c) else [c]
  end.
Definition json_escape (s : str) : str := concat (map escape_byte s).

(** The loop of [pairs_to_json_iter]. *)
Fixpoint json_pairs (first : bool) (pairs : list (str * str)) : str :=
  match pairs with
  | [] => []
  | (k, v) :: pairs' =>
    (if first then [] else [x2c]) ++ [x22] ++ json_escape k ++ [x22; x3a; x22] ++
    json_escape v ++ [x22] ++ json_pairs false pairs'
  end.
Definition pairs_to_json (pairs : list (str * str)) : str := [x7b] ++ json_pairs true pairs ++ [x7d].

(** ** The cursor *)

Abbreviation JsonCursor := (list byte) (only parsing).

Definition peek (cur : JsonCursor) : option byte := head cur.
Definition bump (cur : JsonCursor) : option byte * JsonCursor :=
  match cur with [] => (None, []) | c :: cur' => (Some c, cur') end.

Fixpoint skip_ws (cur : JsonCursor) : JsonCursor :=
  match cur with
  | (x20 | x09 | x0a | x0d) :: cur' => skip_ws cur'
  | _ => cur
  end.

(** The UTF-8 bytes of a code point below U+10000 ([c as char], [char::from_u32]). *)
Definition encode_char (code : Z) : str :=
  if code <? 128 then [z2b code]
  else if code <? 2048 then [z2b (192 + code / 64); z2b (128 + code mod 64)]
  else [z2b (224 + code / 4096); z2b (128 + code / 64 mod 64); z2b (128 + code mod 64)].
Definition as_char (c : byte) : farg := FBytes (encode_char (b2z c)).

Definition expect (want : byte) (cur : JsonCursor) : result JsonCursor :=
  match bump cur with
  | (Some c, cur') =>
    if byte_eqb c want then Ok cur'
    else Err (Fmt "labels JSON: expected '{}', found '{}'" [as_char want; as_char c])
  | (None, _) => Err (Fmt "labels JSON: expected '{}', found end of input" [as_char want])
  end.

(** [(c as char).to_digit(16)]. *)
Definition to_digit16 (c : byte) : option Z :=
  if in_range 48 57 c then Some (b2z c - 48)
  else if in_range 97 102 c then Some (b2z c - 87)
  else if in_range 65 70 c then Some (b2z c - 55)
  else None.

(** The four digits of a \u escape. *)
Fixpoint hex_code (k : nat) (code : Z) (cur : JsonCursor) : result (Z * JsonCursor) :=
  match k with
  | O => Ok (code, cur)
  | S k' =>
    match bump cur with
    | (Some c, cur') =>
      let? d := ok_or (to_digit16 c) (Fmt "labels JSON: \u needs 4 hex digits" []) in
      hex_code k' (code * 16 + d) cur'
    | (None, _) => Err (Fmt "labels JSON: \u needs 4 hex digits" [])
    end
  end.

(** [char::from_u32] on a 16-bit code: the surrogates are not characters. *)
Definition char_from_u32 (code : Z) : result str :=
  if (55296 <=? code) && (code <=? 57343) then
    Err (Fmt "labels JSON: \u{code:04x} is a surrogate half; surrogate pairs unsupported, use literal UTF-8"
           [FNum code])
  else Ok (encode_char code).

(** The character an escape stands for; the cursor is past the backslash. *)
Definition parse_escape (cur : JsonCursor) : result (str * JsonCursor) :=
  match bump cur with
  | (Some x22, cur') => Ok ([x22], cur')
  | (Some x5c, cur') => Ok ([x5c], cur')
  | (Some x2f, cur') => Ok ([x2f], cur')
  | (Some x62, cur') => Ok ([x08], cur')
  | (Some x66, cur') => Ok ([x0c], cur')
  | (Some x6e, cur') => Ok ([x0a], cur')
  | (Some x72, cur') => Ok ([x0d], cur')
  | (Some x74, cur') => Ok ([x09], cur')
  | (Some x75, cur') =>
    let? (code, cur'') := hex_code 4 0 cur' in
    let? c := char_from_u32 code in
    Ok (c, cur'')
  | (Some c, _) => Err (Fmt "labels JSON: bad escape '\{}'" [as_char c])
  | (None, _) => Err (Fmt "labels JSON: unterminated escape" [])
  end.

(** Bytes of a raw run: neither a quote nor a backslash. *)
Definition plain (c : byte) : bool := negb (byte_eqb c x22) && negb (byte_eqb c x5c).

Definition bad_utf8 : error := Fmt "labels JSON: invalid UTF-8 in string" [].
Definition unterminated : error := Fmt "labels JSON: unterminated string" [].

(** The escape loop of [parse_string]; every iteration consumes a byte, so the
    bytes left are enough fuel. *)
Fixpoint string_go (fuel : nat) (out : str) (cur : JsonCursor) : result (str * JsonCursor) :=
  match fuel with
  | O => Err out_of_fuel
  | S f =>
    match cur with
    | [] => Err unterminated
    | c :: cur' =>
      if byte_eqb c x22 then Ok (out, cur')
      else if byte_eqb c x5c then
        let? (s, cur'') := parse_escape cur' in string_go f (out ++ s) cur''
      else
        let '(raw, rest) := span plain cur in
        let? s := from_utf8 raw bad_utf8 in
        string_go f (out ++ s) rest
    end
  end.

Definition parse_string (cur : JsonCursor) : result (str * JsonCursor) :=
  let? cur := expect x22 cur in
  let '(raw, rest) := span plain cur in
  match rest with
  | x5c :: _ =>
    let? head := from_utf8 raw bad_utf8 in
    string_go (S (length rest)) head rest
  | x22 :: rest' => let? s := from_utf8 raw bad_utf8 in Ok (s, rest')
  | _ => Err unterminated
  end.

(** ** Flat objects *)

(** After a pair: a comma to go on, a brace to stop. *)
Definition next_pair (what : string) (cur : JsonCursor) : result (bool * JsonCursor) :=
  match bump (skip_ws cur) with
  | (Some c, cur') =>
    if byte_eqb c x2c then Ok (true, cur')
    else if byte_eqb c x7d then Ok (false, cur')
    else Err (Fmt (what ++ " JSON: expected ',' or '}}', found '{}'") [as_char c])
  | (None, _) => Err (Fmt (what ++ " JSON: unexpected end of input") [])
  end.

(** The value of a pair of labels. *)
Definition label_value (key : str) (cur : JsonCursor) : result (str * JsonCursor) :=
  match peek cur with
  | Some c =>
    if byte_eqb c x22 then parse_string cur
    else if byte_eqb c x7b || byte_eqb c x5b then
      Err (Fmt "labels must be a FLAT JSON object of string values; found nested '{}' at key {key:?}"
             [as_char c; FBytes key])
    else
      Err (Fmt "labels values must be JSON strings; found '{}' at key {key:?} (numbers/booleans/null are not supported)"
             [as_char c; FBytes key])
  | None => Err (Fmt "labels JSON: unexpected end of input" [])
  end.

(** A key and its colon. *)
Definition pair_key (cur : JsonCursor) : result (str * JsonCursor) :=
  let? (key, cur) := parse_string (skip_ws cur) in
  let? cur := expect x3a (skip_ws cur) in
  Ok (key, skip_ws cur).

(** The pair loop of both parsers, over what [value] reads and how it is stored;
    every pair consumes a byte. *)
Fixpoint object_go {V A} (what : string) (value : str -> JsonCursor -> result (V * JsonCursor))
    (put : str -> V -> A -> A) (fuel : nat) (out : A) (cur : JsonCursor) : result (A * JsonCursor) :=
  match fuel with
  | O => Err out_of_fuel
  | S f =>
    let? (key, cur) := pair_key cur in
    let? (v, cur) := value key cur in
    let out := put key v out in
    let? (more, cur) := next_pair what cur in
    if more : bool then object_go what value put f out cur else Ok (out, cur)
  end.

(** The object around the loop, up to the end of the input. *)
Definition parse_object {V A} (what : string) (value : str -> JsonCursor -> result (V * JsonCursor))
    (put : str -> V -> A -> A) (empty : A) (input : str) : result A :=
  let? cur := expect x7b (skip_ws input) in
  let cur := skip_ws cur in
  let? (out, cur) :=
    if bool_decide (peek cur = Some x7d) then Ok (empty, (bump cur).2)
    else object_go what value put (S (length cur)) empty cur in
  match skip_ws cur with
  | [] => Ok out
  | _ => Err (Fmt (what ++ " JSON: trailing characters after object") [])
  end.

(** [out.insert(key, val)]: a later value replaces an earlier one. *)
Definition put_label (k v : str) (m : gmap str str) : gmap str str := <[k := v]> m.

Definition parse_labels_json (input : str) : result (gmap str str) :=
  parse_object "labels" label_value put_label ∅ input.

(** ** Filter objects *)

Inductive MatcherSpec :=
| MEq (s : str)
| MNeq (s : str)
| MRe (s : str)
| MNre (s : str).

Definition matcher_of (key op val : str) : result MatcherSpec :=
  if bool_decide (op = $"neq") then Ok (MNeq val)
  else if bool_decide (op = $"re") then Ok (MRe val)
  else if bool_decide (op = $"nre") then Ok (MNre val)
  else Err (Fmt "filter: unknown operator {other:?} at key {key:?}; valid operators: neq, re, nre (plain string = eq)"
              [FBytes op; FBytes key]).

(** A one-operator object; the cursor is past the opening brace. *)
Definition matcher_object (key : str) (cur : JsonCursor) : result (MatcherSpec * JsonCursor) :=
  let? (op, cur) := pair_key cur in
  let? (val, cur) :=
    if bool_decide (peek cur = Some x22) then parse_string cur
    else Err (Fmt "filter: operator value for {op:?} at key {key:?} must be a JSON string"
                [FBytes op; FBytes key]) in
  let (c, cur) := bump (skip_ws cur) in
  if bool_decide (c = Some x7d) then let? m := matcher_of key op val in Ok (m, cur)
  else Err (Fmt "filter: matcher object at key {key:?} must hold exactly one operator" [FBytes key]).

Definition matcher_value (key : str) (cur : JsonCursor) : result (MatcherSpec * JsonCursor) :=
  match peek cur with
  | Some c =>
    if byte_eqb c x22 then let? (s, cur) := parse_string cur in Ok (MEq s, cur)
    else if byte_eqb c x7b then matcher_object key (bump cur).2
    else
      Err (Fmt "filter values must be strings or matcher objects; found '{}' at key {key:?}"
             [as_char c; FBytes key])
  | None => Err (Fmt "filter JSON: unexpected end of input" [])
  end.

(** [out.push((key, spec))]. *)
Definition put_matcher (k : str) (m : MatcherSpec) (out : list (str * MatcherSpec))
    : list (str * MatcherSpec) := out ++ [(k, m)].

Definition parse_matchers_json (input : str) : result (list (str * MatcherSpec)) :=
  parse_object "filter" matcher_value put_matcher [] input.

(** ** Fuel *)

Lemma hex_code_length k : forall code cur z cur', hex_code k code cur = Ok (z, cur') -> (length cur' <= length cur)%nat.
Proof.
  induction k as [|k IH]; intros code cur z cur' H; simpl in H; [by injection H as <- <-|].
  destruct cur as [|c cur]; [done|]. simpl in H. destruct (to_digit16 c); [|done].
  apply IH in H. simpl. lia.
Qed.

Lemma parse_escape_length cur s cur' : parse_escape cur = Ok (s, cur') -> (length cur' < length cur)%nat.
Proof.
  unfold parse_escape. destruct cur as [|c cur]; [done|]. cbn [bump].
  destruct c; try done; try (intros [= <- <-]; simpl; lia).
  destruct (hex_code 4 0 cur) as [[code cur'']|] eqn:E; [|done].
  destruct (char_from_u32 code); [|done]. intros [= <- <-]. apply hex_code_length in E. simpl. lia.
Qed.

Lemma span_length p l a b : span p l = (a, b) -> (length a + length b = length l)%nat.
Proof. intros (-> & _ & _)%span_spec. by rewrite length_app. Qed.

(** A parser that does not want for fuel. *)
Definition stops {A} (r : result A) : Prop := r <> Err out_of_fuel.

Lemma stops_ok {A} (a : A) : stops (Ok a).
Proof. done. Qed.

Lemma stops_bind {A B} (r : result A) (f : A -> result B) :
  stops r -> (forall a, r = Ok a -> stops (f a)) -> stops (let? a := r in f a).
Proof. intros Hr Hf. destruct r as [a|e]; [by apply Hf|]. intros H. apply Hr. by injection H as ->. Qed.

(** Errors of the source are not the one for fuel. *)
Ltac stop_errors := repeat first
  [apply stops_ok | discriminate
  | match goal with |- stops (if ?b then _ else _) => destruct b end
  | match goal with |- stops (match ?x with _ => _ end) => destruct x end].

Lemma hex_code_stops k : forall code cur, stops (hex_code k code cur).
Proof.
  induction k as [|k IH]; intros code cur; [apply stops_ok|]. cbn [hex_code]. destruct cur as [|c cur]; [discriminate|].
  cbn [bump]. destruct (to_digit16 c); [apply IH|discriminate].
Qed.

Lemma parse_escape_stops cur : stops (parse_escape cur).
Proof.
  unfold parse_escape. destruct cur as [|c cur]; [discriminate|]. cbn [bump].
  destruct c; try apply stops_ok; try discriminate.
  apply stops_bind; [apply hex_code_stops|]. intros [code cur'] _. apply stops_bind; [|intros; apply stops_ok].
  unfold char_from_u32. by stop_errors.
Qed.

Lemma string_go_stops fuel : forall out cur, (length cur < fuel)%nat -> stops (string_go fuel out cur).
Proof.
  induction fuel as [|fuel IH]; intros out cur Hf; [lia|]. destruct cur as [|c cur]; [discriminate|].
  cbn [string_go]. destruct (byte_eqb c x22) eqn:Eq; [apply stops_ok|]. destruct (byte_eqb c x5c) eqn:Eb.
  - apply stops_bind; [apply parse_escape_stops|]. intros [s cur'] E%parse_escape_length. apply IH. simpl in *. lia.
  - destruct (span plain (c :: cur)) as [raw rest] eqn:E.
    apply stops_bind; [unfold from_utf8; by stop_errors|]. intros s _.
    assert (plain c = true) as Hp by (unfold plain; by rewrite Eq, Eb).
    destruct (span_nonempty _ _ _ _ _ E Hp) as [a' ->]. apply span_length in E. simpl in *. apply IH. lia.
Qed.

Lemma expect_stops c cur : stops (expect c cur).
Proof. unfold expect. destruct cur as [|b cur]; [discriminate|]. cbn [bump]. by stop_errors. Qed.

Lemma parse_string_stops cur : stops (parse_string cur).
Proof.
  unfold parse_string. apply stops_bind; [apply expect_stops|]. intros cur1 _.
  destruct (span plain cur1) as [raw rest]. destruct rest as [|c rest]; [discriminate|].
  destruct c; try discriminate; (apply stops_bind; [unfold from_utf8; by stop_errors|]); intros s _;
    [apply stops_ok|apply string_go_stops; simpl; lia].
Qed.

Lemma skip_ws_length cur : (length (skip_ws cur) <= length cur)%nat.
Proof. induction cur as [|c cur IH]; [done|]. destruct c; simpl; lia. Qed.

Lemma expect_length c cur cur' : expect c cur = Ok cur' -> (length cur' < length cur)%nat.
Proof.
  unfold expect. destruct cur as [|b cur]; [done|]. cbn [bump]. destruct (byte_eqb b c); [|done].
  intros [= <-]. simpl. lia.
Qed.

Lemma string_go_length f : forall out cur s cur',
  string_go f out cur = Ok (s, cur') -> (length cur' < length cur)%nat.
Proof.
  induction f as [|f IH]; intros out cur s cur' H; [done|]. destruct cur as [|c cur]; [done|].
  cbn [string_go] in H. destruct (byte_eqb c x22) eqn:Eq; [injection H as <- <-; simpl; lia|].
  destruct (byte_eqb c x5c) eqn:Eb.
  - destruct (parse_escape cur) as [[e cur2]|] eqn:E; [|done]. apply parse_escape_length in E.
    apply IH in H. simpl. lia.
  - destruct (span plain (c :: cur)) as [raw rest] eqn:E. destruct (from_utf8 raw bad_utf8); [|done].
    apply span_length in E. apply IH in H. simpl in *. lia.
Qed.

Lemma parse_string_length cur s cur' : parse_string cur = Ok (s, cur') -> (length cur' < length cur)%nat.
Proof.
  unfold parse_string. destruct (expect x22 cur) as [cur1|] eqn:E; [|done]. apply expect_length in E.
  destruct (span plain cur1) as [raw rest] eqn:Es. apply span_length in Es. intros H.
  destruct rest as [|c rest]; [done|].
  destruct c; try done; cbn [length] in *; destruct (from_utf8 raw bad_utf8); try done.
  - injection H as <- <-. lia.
  - apply string_go_length in H. simpl in H. lia.
Qed.

Lemma pair_key_length cur k cur' : pair_key cur = Ok (k, cur') -> (length cur' < length cur)%nat.
Proof.
  unfold pair_key. pose proof (skip_ws_length cur). destruct (parse_string _) as [[key c1]|] eqn:E; [|done].
  apply parse_string_length in E. pose proof (skip_ws_length c1).
  destruct (expect x3a _) as [c2|] eqn:E2; [|done]. apply expect_length in E2.
  pose proof (skip_ws_length c2). intros [= <- <-]. lia.
Qed.

Lemma next_pair_length what cur b cur' : next_pair what cur = Ok (b, cur') -> (length cur' < length cur)%nat.
Proof.
  unfold next_pair. pose proof (skip_ws_length cur). destruct (skip_ws cur) as [|c c1]; [done|].
  cbn [bump] in *. destruct (byte_eqb c x2c); [|destruct (byte_eqb c x7d); [|done]]; intros [= <- <-]; simpl in *; lia.
Qed.

Lemma pair_key_stops cur : stops (pair_key cur).
Proof.
  unfold pair_key. apply stops_bind; [apply parse_string_stops|]. intros [key c] _.
  apply stops_bind; [apply expect_stops|]. intros c' _. apply stops_ok.
Qed.

Section ObjectStops.
Context {V A : Type} (what : string) (value : str -> JsonCursor -> result (V * JsonCursor)) (put : str -> V -> A -> A).
Context (what_known : what = "labels" \/ what = "filter").
Context (value_length : forall k cur v cur', value k cur = Ok (v, cur') -> (length cur' <= length cur)%nat).
Context (value_stops : forall k cur, stops (value k cur)).

Lemma next_pair_stops cur : stops (next_pair what cur).
Proof using what_known.
  unfold next_pair. destruct (skip_ws cur) as [|c c1]; cbn [bump]; destruct what_known as [-> | ->]; by stop_errors.
Qed.

Lemma object_go_stops fuel : forall out cur, (length cur < fuel)%nat -> stops (object_go what value put fuel out cur).
Proof using what_known value_length value_stops.
  induction fuel as [|fuel IH]; intros out cur Hf; [lia|]. cbn [object_go].
  apply stops_bind; [apply pair_key_stops|]. intros [k c1] E1%pair_key_length.
  apply stops_bind; [apply value_stops|]. intros [v c2] E2%value_length.
  apply stops_bind; [apply next_pair_stops|]. intros [more c3] E3%next_pair_length.
  destruct more; [apply IH; lia|apply stops_ok].
Qed.

Lemma parse_object_stops empty input : stops (parse_object what value put empty input).
Proof using what_known value_length value_stops.
  unfold parse_object. apply stops_bind; [apply expect_stops|]. intros cur _. cbv zeta. apply stops_bind.
  - destruct (bool_decide _); [apply stops_ok|apply object_go_stops; lia].
  - intros [out c] _. destruct (skip_ws c); [apply stops_ok|]. destruct what_known as [-> | ->]; discriminate.
Qed.
End ObjectStops.

(** ** UTF-8 at ASCII bytes *)

Lemma utf8_char_ascii_inv a b c : utf8_char (a ++ b :: c) = true -> in_range 0 127 b = true -> a = [].
Proof.
  intros Hc Hb. destruct (utf8_char_bytes _ Hc) as (x & l & Heq & Hl & Hcase).
  destruct a as [|y a]; [done|]. injection Heq as -> Heq. apply in_range_spec in Hb.
  destruct Hcase as [[-> _]|[_ Hge]]; [by destruct a|].
  rewrite <-Heq in Hge. apply Forall_app in Hge as [_ [Hge _]%Forall_cons]. lia.
Qed.

(** A valid string cut before an ASCII byte is two valid strings. *)
Lemma utf8_cut s : Utf8 s -> forall a b c, s = a ++ b :: c -> in_range 0 127 b = true -> is_str a /\ is_str (b :: c).
Proof.
  induction 1 as [|ch l Hch Hl IH]; intros a b c Heq Hb; [by destruct a|].
  apply app_eq_inv in Heq as [(k & -> & Hk)|(k & -> & Hk)].
  - destruct k as [|y k].
    + cbn [app] in Hk. rewrite List.app_nil_r in Hch. subst l. split.
      * unfold is_str. rewrite <-(List.app_nil_r a), utf8_valid_char_app; done.
      * by apply utf8_valid_iff.
    + injection Hk as <- ->. pose proof (utf8_char_ascii_inv _ _ _ Hch Hb) as ->. split; [done|].
      unfold is_str. rewrite app_comm_cons. by rewrite utf8_valid_char_app, utf8_valid_iff.
  - destruct (IH k b c Hk Hb) as [Ha Hbc]. split; [|done].
    unfold is_str in *. by rewrite utf8_valid_char_app.
Qed.

(** ** Round trips *)

(** A byte is printed as itself, or as an escape that reads back as the byte. *)
Lemma escape_cases b :
  (escape_byte b = [b] /\ plain b = true) \/
  (in_range 0 127 b = true /\
   exists e, escape_byte b = x5c :: e /\ forall rest, parse_escape (e ++ rest) = Ok ([b], rest)).
Proof.
  destruct b; first [left; vm_compute; split; reflexivity
    | right; split; [vm_compute; reflexivity|]; eexists; split; [vm_compute; reflexivity|];
      intros rest; vm_compute; reflexivity].
Qed.

Definition clean (b : byte) : bool := match escape_byte b with [_] => true | _ => false end.

Lemma clean_true b : clean b = true -> escape_byte b = [b] /\ plain b = true.
Proof.
  destruct (escape_cases b) as [?|(_ & e & He & Hp)]; [done|]. unfold clean. rewrite He.
  destruct e; [|done]. specialize (Hp []). done.
Qed.

Lemma clean_false b : clean b = false -> in_range 0 127 b = true /\
  exists e, escape_byte b = x5c :: e /\ forall rest, parse_escape (e ++ rest) = Ok ([b], rest).
Proof. destruct (escape_cases b) as [[He _]|?]; [|done]. unfold clean. by rewrite He. Qed.

Lemma escape_clean raw : forallb clean raw = true -> json_escape raw = raw /\ forallb plain raw = true.
Proof.
  induction raw as [|b raw IH]; [done|]. simpl. intros [Hb Hr]%andb_true_iff.
  apply clean_true in Hb as [He Hp]. destruct (IH Hr) as [H1 H2].
  unfold json_escape in *. simpl. by rewrite He, H1, Hp, H2.
Qed.

Lemma json_escape_app a b : json_escape (a ++ b) = json_escape a ++ json_escape b.
Proof. unfold json_escape. by rewrite map_app, concat_app. Qed.

Lemma span_app p a b :
  forallb p a = true -> match b with c :: _ => p c = false | [] => True end -> span p (a ++ b) = (a, b).
Proof.
  intros Ha Hb. induction a as [|c a IH]; simpl in *.
  - destruct b as [|c b]; [done|]. simpl. by rewrite Hb.
  - apply andb_true_iff in Ha as [-> Ha]. by rewrite IH.
Qed.

(** The raw run at the front of a printed string ends at an escape or at the
    closing quote. *)
Lemma span_escaped s rest raw tail :
  is_str s -> span clean s = (raw, tail) ->
  s = raw ++ tail /\ is_str raw /\ is_str tail /\
  span plain (json_escape s ++ x22 :: rest) = (raw, json_escape tail ++ x22 :: rest).
Proof.
  intros Hs Hsp. apply span_spec in Hsp as (-> & Hraw & Htail). destruct (escape_clean raw Hraw) as [He Hp].
  assert (is_str raw /\ is_str tail) as [Hr Ht].
  { destruct tail as [|b t]; [by rewrite List.app_nil_r in Hs|]. apply clean_false in Htail as [Ha _].
    eapply utf8_cut; [by apply utf8_valid_iff|done|done]. }
  split_and!; try done. rewrite json_escape_app, He, <-List.app_assoc. apply span_app; [done|].
  destruct tail as [|b t]; [done|]. apply clean_false in Htail as (_ & e & Hb & _).
  unfold json_escape. simpl. by rewrite Hb.
Qed.

Lemma string_go_escaped n : forall s fuel out rest,
  (length s <= n)%nat -> is_str s -> (length (json_escape s ++ x22 :: rest) < fuel)%nat ->
  string_go fuel out (json_escape s ++ x22 :: rest) = Ok (out ++ s, rest).
Proof.
  induction n as [|n IH]; intros s fuel out rest Hn Hs Hf; (destruct fuel as [|fuel]; [lia|]).
  { destruct s; [|simpl in Hn; lia]. simpl. by rewrite List.app_nil_r. }
  destruct s as [|b s]; [simpl; by rewrite List.app_nil_r|]. simpl in Hn.
  destruct (clean b) eqn:Hb.
  - destruct (span clean (b :: s)) as [raw tail] eqn:Hsp.
    destruct (span_nonempty _ _ _ _ _ Hsp Hb) as [raw' Hraw].
    destruct (span_escaped _ rest _ _ Hs Hsp) as (Heq & Hr & Ht & Hspan).
    pose proof (span_length _ _ _ _ Hspan) as Hl. apply clean_true in Hb as [He Hp].
    assert (json_escape (b :: s) ++ x22 :: rest = b :: (json_escape s ++ x22 :: rest)) as Hcur
      by (unfold json_escape; simpl; by rewrite He).
    rewrite Hcur in *. cbn [string_go]. unfold plain in Hp. apply andb_true_iff in Hp as [H1 H2].
    apply negb_true_iff in H1, H2. rewrite H1, H2, Hspan. unfold from_utf8. rewrite Hr.
    assert (length tail <= n)%nat as Htl.
    { apply (f_equal length) in Heq. rewrite Hraw in Heq. rewrite length_app in Heq. simpl in Heq. lia. }
    rewrite IH by (first [done|lia|rewrite Hraw in Hl; simpl in *; lia]).
    by rewrite <-List.app_assoc, <-Heq.
  - apply clean_false in Hb as (Ha & e & He & Hp).
    assert (json_escape (b :: s) ++ x22 :: rest = x5c :: (e ++ (json_escape s ++ x22 :: rest))) as Hcur
      by (unfold json_escape; simpl; rewrite He; simpl; by rewrite <-List.app_assoc).
    rewrite Hcur in *. cbn [string_go]. change (byte_eqb x5c x22) with false.
    change (byte_eqb x5c x5c) with true. cbn iota. rewrite Hp.
    rewrite IH; [by rewrite <-List.app_assoc|lia| |cbn [length] in Hf; rewrite length_app in Hf; lia].
    unfold is_str in *. by rewrite <-(utf8_valid_char_app [b] s) by (by apply utf8_char_ascii).
Qed.

Lemma parse_string_quoted s rest : is_str s -> parse_string (x22 :: json_escape s ++ x22 :: rest) = Ok (s, rest).
Proof.
  intros Hs. unfold parse_string, expect. cbn [bump]. change (byte_eqb x22 x22) with true. cbn iota.
  destruct (span clean s) as [raw tail] eqn:Hsp.
  destruct (span_escaped _ rest _ _ Hs Hsp) as (-> & Hr & Ht & ->). apply span_spec in Hsp as (_ & _ & Hc).
  destruct tail as [|b tail].
  - simpl. unfold from_utf8. by rewrite Hr, List.app_nil_r.
  - apply clean_false in Hc as (_ & e & He & _).
    destruct (json_escape (b :: tail) ++ x22 :: rest) as [|c l] eqn:E; unfold json_escape in E; simpl in E;
      rewrite He in E; [done|]. injection E as <- E. unfold from_utf8. rewrite Hr.
    replace (x5c :: l) with (json_escape (b :: tail) ++ x22 :: rest).
    + eapply string_go_escaped; [done|done|lia].
    + unfold json_escape. simpl. rewrite He. simpl. by rewrite E.
Qed.

(** A printed pair, followed by a comma or the closing brace. *)
Lemma pair_key_printed k v rest :
  is_str k ->
  pair_key (x22 :: json_escape k ++ x22 :: x3a :: x22 :: json_escape v ++ x22 :: rest)
  = Ok (k, x22 :: json_escape v ++ x22 :: rest).
Proof. intros Hk. unfold pair_key. cbn [skip_ws app]. by rewrite parse_string_quoted. Qed.

Section Printed.
Context {V A : Type} (what : string) (value : str -> JsonCursor -> result (V * JsonCursor)) (put : str -> V -> A -> A).
Context (of_str : str -> V).
Context (value_printed : forall k v rest, is_str v ->
  value k (x22 :: json_escape v ++ x22 :: rest) = Ok (of_str v, rest)).

Definition put_pairs (out : A) (pairs : list (str * str)) : A :=
  fold_left (fun o '(k, v) => put k (of_str v) o) pairs out.

Lemma object_go_printed pairs : forall fuel out,
  pairs <> [] -> Forall (fun p => is_str p.1 /\ is_str p.2) pairs -> (length pairs <= fuel)%nat ->
  object_go what value put fuel out (json_pairs true pairs ++ [x7d]) = Ok (put_pairs out pairs, []).
Proof using value_printed.
  induction pairs as [|[k v] pairs IH]; intros fuel out Hne Hv Hf; [done|].
  apply Forall_cons in Hv as [[Hk Hv0] Hv]. destruct fuel as [|fuel]; [simpl in Hf; lia|].
  cbn [json_pairs object_go]. cbn [app]. rewrite <-!List.app_assoc. cbn [app].
  rewrite <-!List.app_assoc. cbn [app].
  rewrite pair_key_printed by done. rewrite value_printed by done.
  destruct pairs as [|[k' v'] pairs]; [reflexivity|].
  assert (json_pairs false ((k', v') :: pairs) = x2c :: json_pairs true ((k', v') :: pairs)) as -> by reflexivity.
  cbn [app]. unfold next_pair. cbn [skip_ws bump]. change (byte_eqb x2c x2c) with true. cbn iota.
  rewrite IH; [done|done|done|simpl in *; lia].
Qed.

Lemma json_pairs_length first pairs : (length pairs <= length (json_pairs first pairs))%nat.
Proof.
  revert first. induction pairs as [|[k v] pairs IH]; intros first; [done|]. cbn [json_pairs].
  rewrite !length_app. specialize (IH false). simpl. lia.
Qed.

Lemma parse_object_printed empty pairs :
  Forall (fun p => is_str p.1 /\ is_str p.2) pairs ->
  parse_object what value put empty (pairs_to_json pairs) = Ok (put_pairs empty pairs).
Proof using value_printed.
  intros Hv. unfold parse_object, pairs_to_json. cbn [app skip_ws].
  unfold expect. cbn [bump]. change (byte_eqb x7b x7b) with true. cbn iota.
  destruct pairs as [|[k v] pairs]; [reflexivity|].
  remember ((k, v) :: pairs) as ps eqn:E.
  assert (exists l, json_pairs true ps ++ [x7d] = x22 :: l) as [l Hl] by (subst; by eexists).
  pose proof (object_go_printed ps (S (length (x22 :: l))) empty) as H.
  rewrite Hl in *. cbn [skip_ws peek head]. rewrite bool_decide_false by done. rewrite H; [done|by subst|done|].
  rewrite <-Hl, length_app. pose proof (json_pairs_length true ps). simpl. lia.
Qed.
End Printed.

Lemma labels_printed (pairs : list (str * str)) :
  Forall (fun p => is_str p.1 /\ is_str p.2) pairs ->
  parse_labels_json (pairs_to_json pairs) = Ok (fold_left (fun m '(k, v) => put_label k v m) pairs ∅).
Proof.
  intros Hv. unfold parse_labels_json. rewrite (parse_object_printed _ _ _ id); [done| |done].
  intros k v rest H. unfold label_value. cbn [peek head]. by rewrite parse_string_quoted.
Qed.

(** C32: What the printer writes, the label parser reads back: the map of the
    pairs, the last of several values of one key winning. *)
Theorem labels_json_round_trip (pairs : list (str * str)) :
  Forall (fun p => is_str p.1 /\ is_str p.2) pairs ->
  parse_labels_json (pairs_to_json pairs)
  = Ok (fold_left (fun m '(k, v) => put_label k v m) pairs ∅).
Proof. apply labels_printed. Qed.

(** ** Flat filters *)

(** The label values are the filter's equality values. *)
Lemma label_value_matcher k cur v cur' :
  label_value k cur = Ok (v, cur') -> matcher_value k cur = Ok (MEq v, cur').
Proof.
  unfold label_value, matcher_value. destruct (peek cur) as [c|]; [|done].
  destruct (byte_eqb c x22); [by intros ->|]. by destruct (_ || _).
Qed.

Lemma next_pair_what w1 w2 cur r : next_pair w1 cur = Ok r -> next_pair w2 cur = Ok r.
Proof.
  unfold next_pair. destruct (bump (skip_ws cur)) as [[c|] ?]; [|done].
  destruct (byte_eqb c x2c); [done|]. by destruct (byte_eqb c x7d).
Qed.

Lemma object_go_flat fuel : forall m acc cur m' cur',
  object_go "labels" label_value put_label fuel m cur = Ok (m', cur') ->
  exists pairs : list (str * str),
    object_go "filter" matcher_value put_matcher fuel acc cur
      = Ok (acc ++ map (prod_map id MEq) pairs, cur') /\
    m' = fold_left (fun m '(k, v) => put_label k v m) pairs m.
Proof.
  induction fuel as [|fuel IH]; intros m acc cur m' cur' H; [done|]. cbn [object_go] in *.
  destruct (pair_key cur) as [[k c1]|]; [|done].
  destruct (label_value k c1) as [[v c2]|] eqn:E; [|done]. rewrite (label_value_matcher _ _ _ _ E).
  destruct (next_pair "labels" c2) as [[more c3]|] eqn:En; [|done].
  rewrite (next_pair_what _ "filter" _ _ En). destruct more.
  - destruct (IH _ (acc ++ [(k, MEq v)]) _ _ _ H) as (ps & Hgo & Hm). exists ((k, v) :: ps).
    change (put_matcher k (MEq v) acc) with (acc ++ [(k, MEq v)]). rewrite Hgo. split; [by rewrite <-List.app_assoc|done].
  - injection H as <- <-. by exists [(k, v)].
Qed.

(** C33: Every flat object stays an equality filter: when the strict label parser
    accepts an input, the filter parser accepts it too, as equality matchers on a
    list of pairs whose map is the one the label parser returns. *)
Theorem flat_filter_is_equality (input : str) (m : gmap str str) :
  parse_labels_json input = Ok m ->
  exists pairs : list (str * str),
    parse_matchers_json input = Ok (map (prod_map id MEq) pairs) /\
    m = fold_left (fun m '(k, v) => put_label k v m) pairs ∅.
Proof.
  unfold parse_labels_json, parse_matchers_json, parse_object.
  destruct (expect x7b (skip_ws input)) as [cur|]; [|done]. cbv beta zeta.
  set (c := skip_ws cur). intros H. destruct (bool_decide (peek c = Some x7d)).
  - destruct (skip_ws (bump c).2); [|done]. injection H as <-. by exists [].
  - destruct (object_go "labels" _ _ _ _ _) as [[m' cur']|] eqn:E; [|done].
    destruct (object_go_flat _ _ [] _ _ _ E) as (ps & Hgo & Hm). rewrite Hgo. exists ps.
    destruct (skip_ws cur'); [|done]. injection H as <-. done.
Qed.

Lemma matcher_object_length k c m c' : matcher_object k c = Ok (m, c') -> (length c' <= length c)%nat.
Proof.
  unfold matcher_object. destruct (pair_key c) as [[op c1]|] eqn:E1; [|done]. apply pair_key_length in E1.
  destruct (bool_decide _); [|done].
  destruct (parse_string c1) as [[val c2]|] eqn:E2; [|done]. apply parse_string_length in E2.
  pose proof (skip_ws_length c2). destruct (skip_ws c2) as [|z c3]; [done|]. cbn [bump].
  destruct (bool_decide _); [|done]. destruct (matcher_of k op val); [|done]. intros [= _ <-]. simpl in *. lia.
Qed.

Lemma label_value_ok k c :
  stops (label_value k c) /\ forall v c', label_value k c = Ok (v, c') -> (length c' <= length c)%nat.
Proof.
  unfold label_value. destruct (peek c) as [x|]; [|by split].
  destruct (byte_eqb x x22); [|by destruct (_ || _); split].
  split; [apply parse_string_stops|]. intros v c' H%parse_string_length. lia.
Qed.

Lemma matcher_object_stops k c : stops (matcher_object k c).
Proof.
  unfold matcher_object. apply stops_bind; [apply pair_key_stops|]. intros [op c1] _. apply stops_bind.
  - destruct (bool_decide _); [apply parse_string_stops|discriminate].
  - intros [val c2] _. destruct (bump (skip_ws c2)) as [z c3]. destruct (bool_decide _); [|discriminate].
    apply stops_bind; [unfold matcher_of; by stop_errors|]. intros; apply stops_ok.
Qed.

Lemma matcher_value_ok k c :
  stops (matcher_value k c) /\ forall m c', matcher_value k c = Ok (m, c') -> (length c' <= length c)%nat.
Proof.
  unfold matcher_value. destruct (peek c) as [x|]; [|by split]. destruct (byte_eqb x x22); [|destruct (byte_eqb x x7b)].
  - split; [apply stops_bind; [apply parse_string_stops|]; intros []; intros; apply stops_ok|].
    intros m c'. destruct (parse_string c) as [[s c1]|] eqn:E; [|done]. intros [= _ <-]. apply parse_string_length in E. lia.
  - split; [apply matcher_object_stops|]. intros m c' H%matcher_object_length. destruct c; simpl in *; lia.
  - by split.
Qed.

(** C34: The JSON cursor's loops end on every input. The string parser and both
    object parsers return a value or an error of the source, never [out_of_fuel]:
    each turn of the escape loop and of the pair loop consumes at least one byte, so
    no input, well formed or not, keeps them going. *)
Theorem flat_json_terminates (input : str) :
  parse_string input <> Err out_of_fuel /\ parse_labels_json input <> Err out_of_fuel /\
  parse_matchers_json input <> Err out_of_fuel.
Proof.
  split_and!; [apply parse_string_stops|apply parse_object_stops; [by left| |]|apply parse_object_stops; [by right| |]].
  - intros k c v c'. apply (proj2 (label_value_ok k c)).
  - intros k c. apply (proj1 (label_value_ok k c)).
  - intros k c v c'. apply (proj2 (matcher_value_ok k c)).
  - intros k c. apply (proj1 (matcher_value_ok k c)).
Qed.
