(* ===== verification/LogEntry.v ===== *)
(** * Log entries

    Levels, severities and the entry record of [blocks/mod.rs]: the unit the
    buffer holds and blocks store. A level byte indexes [LEVEL_NAMES], which
    panics out of range; the level buckets and the canonical severity spelling
    agree on every accepted name, and the size accounting of an entry is the
    size of the JSON the SQL boundary prints. *)
From Stdlib Require Import ZArith Lia Bool Strings.Byte.
From stdpp Require Import prelude gmap list strings.
From S2P Require Import Prelude BTree RustStr Template TemplateColumn FlatJson.
Open Scope string_scope.
Open Scope list_scope.
Open Scope Z_scope.

Definition LEVEL_NAMES : list str := [$"debug"; $"info"; $"warning"; $"error"].

(** [match name] against string literals. *)
Definition one_of (name : str) (names : list str) : bool := existsb (fun n => bool_decide (name = n)) names.

Definition unknown_level (name : str) : error :=
  Fmt "unknown log level {other:?}; expected one of: debug, info, notice, warning, warn, error, critical, alert, emergency"
    [FBytes name].

Definition level_from_name (name : str) : result byte :=
  if one_of name [$"debug"] then Ok x00
  else if one_of name [$"info"; $"notice"] then Ok x01
  else if one_of name [$"warning"; $"warn"] then Ok x02
  else if one_of name [$"error"; $"critical"; $"alert"; $"emergency"] then Ok x03
  else Err (unknown_level name).

Definition canonical_severity (name : str) : result str :=
  if one_of name [$"debug"] then Ok ($"debug")
  else if one_of name [$"info"] then Ok ($"info")
  else if one_of name [$"notice"] then Ok ($"notice")
  else if one_of name [$"warning"; $"warn"] then Ok ($"warning")
  else if one_of name [$"error"] then Ok ($"error")
  else if one_of name [$"critical"] then Ok ($"critical")
  else if one_of name [$"alert"] then Ok ($"alert")
  else if one_of name [$"emergency"] then Ok ($"emergency")
  else Err (unknown_level name).

Definition level_name (level : byte) : result str := index LEVEL_NAMES (Z.to_nat (b2z level)).

Record LogEntry := mkEntry {
  ts : Z;
  level : byte;
  severity : option str;
  message : str;
  metadata : list (str * str);
  metadata_json : option str;
}.

Definition meta_value (e : LogEntry) (key : str) : option str :=
  match search_key key (metadata e) with
  | Some i => snd <$> metadata e !! i
  | None => None
  end.

Definition severity_name (e : LogEntry) : result str :=
  match severity e with
  | Some s => Ok s
  | None => level_name (level e)
  end.

Definition is_rich (e : LogEntry) : bool :=
  match severity e, metadata_json e with None, None => false | _, _ => true end.

(** Byte by byte: the characters above U+007F count their UTF-8 length. *)
Definition escaped_len (c : byte) : Z :=
  match c with
  | x22 | x5c | x0a | x0d | x09 => 2
  | _ => if b2z c <? 32 then 6 else 1
  end.
Definition sum_z (l : list Z) : Z := fold_right Z.add 0 l.
Definition json_escaped_bytes (s : str) : Z := sum_z (map escaped_len s).

Definition flat_json_bytes (pairs : list (str * str)) : Z :=
  2 + (if (length pairs =? 0)%nat then 0 else Z.of_nat (length pairs) - 1) +
  sum_z (map (fun p => 5 + json_escaped_bytes p.1 + json_escaped_bytes p.2) pairs).

Definition raw_ingest_bytes (e : LogEntry) : Z :=
  8 + 1 + Z.of_nat (length (message e)) +
  match metadata_json e with
  | Some json => Z.of_nat (length json)
  | None => flat_json_bytes (metadata e)
  end.

(** Where a block lives, what the index keeps of it, and a block to persist. *)
Record BlockLoc := mkLoc { loc_id : Z }.
Record BlockMeta := mkMeta { ts_min : Z; ts_max : Z; entry_count : Z; codec : byte }.
Record EncodedBlock := mkBlock { meta : BlockMeta; data : list byte; terms : list str }.

#[global] Instance BlockLoc_eq_dec : EqDecision BlockLoc.
Proof. solve_decision. Defined.
#[global] Instance BlockMeta_eq_dec : EqDecision BlockMeta.
Proof. solve_decision. Defined.

(** ** Lemmas *)

Lemma one_of_spec name names : one_of name names = true <-> name ∈ names.
Proof.
  unfold one_of. rewrite existsb_exists. setoid_rewrite bool_decide_eq_true.
  rewrite list_elem_of_In. naive_solver.
Qed.

(** The names the code accepts: the four levels, four severities beyond them and the
    short spelling of warning. *)
Definition severity_names : list str :=
  [$"debug"; $"info"; $"notice"; $"warning"; $"warn"; $"error"; $"critical"; $"alert"; $"emergency"].

Lemma level_names_accepted name : is_ok (level_from_name name) = true <-> name ∈ severity_names.
Proof.
  split; intros H.
  - unfold level_from_name in H.
    repeat match type of H with context [one_of name ?l] =>
      let E := fresh "E" in destruct (one_of name l) eqn:E; [clear H; apply one_of_spec in E; unfold severity_names; set_solver|] end.
    done.
  - unfold severity_names in H. rewrite !elem_of_cons, elem_of_nil in H.
    repeat destruct H as [->|H]; try reflexivity. destruct H.
Qed.

Lemma severity_readings_agree (name : str) :
  (is_ok (level_from_name name) = is_ok (canonical_severity name)) /\
  (forall s, canonical_severity name = Ok s ->
     canonical_severity s = Ok s /\ level_from_name s = level_from_name name) /\
  (forall b, level_from_name name = Ok b ->
     exists n, level_name b = Ok n /\ level_from_name n = Ok b /\ canonical_severity n = Ok n).
Proof.
  unfold canonical_severity at 1 2, level_from_name at 1 3 4.
  repeat match goal with |- context [one_of name ?l] =>
    let E := fresh "E" in destruct (one_of name l) eqn:E;
    [apply one_of_spec in E; rewrite !elem_of_cons, elem_of_nil in E|] end;
  try (split_and!; [done|by intros ? [=]|by intros ? [=]]);
  repeat match goal with
  | H : _ \/ _ |- _ => destruct H
  | H : False |- _ => destruct H
  end; subst name;
  first [discriminate
  | split_and!; [reflexivity|intros s [= <-]; split; reflexivity|intros b [= <-]; eexists; split_and!; reflexivity]].
Qed.

(** C40: The two readings of a level name agree. Both accept exactly nine names, the
    four level names and [notice], [warn], [critical], [alert] and [emergency] (more
    than the comment on [level_from_name] and the guide allow); the canonical spelling
    is a fixed point and stays in the bucket of the name, and the name of a bucket is
    its own canonical spelling. *)
Theorem severity_vocabulary (name : str) :
  (is_ok (level_from_name name) = true <-> name ∈ severity_names) /\
  (is_ok (level_from_name name) = is_ok (canonical_severity name)) /\
  (forall s, canonical_severity name = Ok s ->
     canonical_severity s = Ok s /\ level_from_name s = level_from_name name) /\
  (forall b, level_from_name name = Ok b ->
     exists n, level_name b = Ok n /\ level_from_name n = Ok b /\ canonical_severity n = Ok n).
Proof. split; [apply level_names_accepted|apply severity_readings_agree]. Qed.

(** C38: On metadata sorted by key, the binary search of [meta_value] finds exactly
    the value stored under the key. *)
Theorem meta_value_exact (e : LogEntry) (key value : str) :
  btm_wf (metadata e) -> meta_value e key = Some value <-> (key, value) ∈ metadata e.
Proof.
  intros Hwf. rewrite <-btm_get_elem by done. unfold meta_value.
  pose proof (search_key_spec key (metadata e) Hwf) as H.
  destruct (search_key key (metadata e)) as [i|].
  - destruct H as (v & -> & ->). done.
  - by rewrite H.
Qed.

Lemma escaped_len_spec c : Z.of_nat (length (escape_byte c)) = escaped_len c.
Proof. destruct c; vm_compute; reflexivity. Qed.

Lemma json_escaped_bytes_spec s : json_escaped_bytes s = Z.of_nat (length (json_escape s)).
Proof.
  unfold json_escaped_bytes, json_escape. induction s as [|c s IH]; [done|].
  cbn [map sum_z fold_right concat]. unfold sum_z in IH. rewrite IH, length_app, Nat2Z.inj_add.
  by rewrite escaped_len_spec.
Qed.

Lemma json_pairs_bytes first pairs :
  Z.of_nat (length (json_pairs first pairs)) =
  sum_z (map (fun p => 5 + json_escaped_bytes p.1 + json_escaped_bytes p.2) pairs) +
  (if first then (if (length pairs =? 0)%nat then 0 else Z.of_nat (length pairs) - 1)
   else Z.of_nat (length pairs)).
Proof.
  revert first. induction pairs as [|[k v] pairs IH]; intros first; [by destruct first|].
  cbn [json_pairs map sum_z fold_right length Nat.eqb]. fold (sum_z (map (fun p => 5 + json_escaped_bytes p.1 + json_escaped_bytes p.2) pairs)).
  cbn [fst snd]. rewrite !json_escaped_bytes_spec.
  rewrite !length_app, !Nat2Z.inj_add, IH. destruct first; simpl length; lia.
Qed.

(** C39: The accounting of an entry without typed JSON counts exactly the bytes the
    SQL boundary prints: the size computed without building the string is the
    size of the canonical flat object. *)
Theorem raw_ingest_bytes_exact (e : LogEntry) :
  raw_ingest_bytes e =
  9 + Z.of_nat (length (message e)) +
  Z.of_nat (length (default (pairs_to_json (metadata e)) (metadata_json e))).
Proof.
  unfold raw_ingest_bytes. destruct (metadata_json e) as [j|]; simpl default; [lia|].
  unfold pairs_to_json. rewrite !length_app, !Nat2Z.inj_add, json_pairs_bytes.
  unfold flat_json_bytes. simpl length. lia.
Qed.
