(* ===== verification/PairsColumn.v ===== *)
(** * The metadata column

    The pair serialization of [blocks/codec.rs] ([serialize_metadata],
    [parse_metadata]) and the column that shreds it into one presence bitmap and
    one dense value column per key ([encode_pairs_column],
    [decode_pairs_column]), shared by the logs metadata and the span attributes.
    Proved: both give back the pairs they were given, whichever strategy the
    encoder picks. *)
From Stdlib Require Import ZArith Lia Bool Strings.Byte.
From stdpp Require Import prelude list sorting strings.
From S2P Require Import Prelude BTree Wire Columns RustStr TemplateColumn LogEntry.
Open Scope string_scope.
Open Scope list_scope.
Open Scope Z_scope.

Abbreviation pairs_of := (list (str * str)).

(** ** Pair serialization *)

Definition pair_bytes (p : str * str) : result (list byte) :=
  let '(k, v) := p in
  if u16_max <? Z.of_nat (length k) then
    Err (Fmt "encode_block: metadata key {k:?} longer than 64KB" [FBytes k])
  else if u32_max <? Z.of_nat (length v) then
    Err (Fmt "encode_block: metadata value for {k:?} too long" [FBytes k])
  else Ok (u16_le (Z.of_nat (length k)) ++ k ++ u32_le (Z.of_nat (length v)) ++ v).

Definition entry_pairs_bytes (md : pairs_of) : result (list byte) :=
  if u16_max <? Z.of_nat (length md) then
    Err (Fmt "encode_block: more than 65535 metadata pairs in one entry" [])
  else let? bs := map_result pair_bytes md in Ok (u16_le (Z.of_nat (length md)) ++ concat bs).

Definition serialize_metadata (entries : list LogEntry) : result (list byte) :=
  let? bs := map_result (fun e => entry_pairs_bytes (metadata e)) entries in Ok (concat bs).

(** The inner and the outer loop of [parse_metadata]; [i] is the entry. *)
Fixpoint parse_pairs (i : nat) (pairs : nat) (r : Reader) : result (pairs_of * Reader) :=
  match pairs with
  | O => Ok ([], r)
  | S pairs' =>
    let? (klen, r) := rd_u16 "metadata key length" r in
    let? (kb, r) := rd_take (Z.to_nat klen) "metadata key" r in
    let? k := from_utf8 kb (Fmt "block: entry {i}: metadata key is not valid UTF-8" [FNum (Z.of_nat i)]) in
    let? (vlen, r) := rd_u32 "metadata value length" r in
    let? (vb, r) := rd_take (Z.to_nat vlen) "metadata value" r in
    let? v := from_utf8 vb (Fmt "block: entry {i}: metadata value is not valid UTF-8" [FNum (Z.of_nat i)]) in
    let? (md, r) := parse_pairs i pairs' r in
    Ok ((k, v) :: md, r)
  end.

Fixpoint parse_entries (i n : nat) (r : Reader) : result (list pairs_of * Reader) :=
  match n with
  | O => Ok ([], r)
  | S n' =>
    let? (pairs, r) := rd_u16 "metadata pair count" r in
    let? (md, r) := parse_pairs i (Z.to_nat pairs) r in
    let? (mds, r) := parse_entries (S i) n' r in
    Ok (md :: mds, r)
  end.

Definition parse_metadata (raw : list byte) (n : nat) : result (list pairs_of) :=
  let? (mds, r) := parse_entries 0 n (Reader_new raw) in
  if negb (remaining r =? 0)%nat then Err (Fmt "block: trailing bytes in metadata column" [])
  else Ok mds.

(** ** Shredding *)

Definition SHRED_MAX_KEYS : nat := 64.
Definition PAIRS_LEGACY : byte := x00.
Definition PAIRS_SHREDDED : byte := x01.

(** No window of two pairs with [w[0].0 >= w[1].0]. *)
Fixpoint strictly_sorted (md : pairs_of) : bool :=
  match md with
  | a :: ((b :: _) as md') => kltb a.1 b.1 && strictly_sorted md'
  | _ => true
  end.

(** Pass 1: the key set, and whether every entry is canonical; the first that is
    not ends the pass. *)
Fixpoint collect_keys (keys : list str) (pairs : list pairs_of) : list str * bool :=
  match pairs with
  | [] => (keys, true)
  | md :: pairs' =>
    if strictly_sorted md then
      collect_keys (fold_left (fun ks p => bts_insert p.1 ks) md keys) pairs'
    else (keys, false)
  end.

Fixpoint push_keys (keys : list str) : result (list byte) :=
  match keys with
  | [] => Ok []
  | k :: keys' =>
    if u16_max <? Z.of_nat (length k) then
      Err (Fmt "encode_pairs_column: key {k:?} longer than 64KB" [FBytes k])
    else let? rest := push_keys keys' in Ok (u16_le (Z.of_nat (length k)) ++ k ++ rest)
  end.

(** The value of a key in each entry, by binary search. *)
Definition key_column (k : str) (pairs : list pairs_of) : list (option str) :=
  map (fun md => match search_key k md with Some i => snd <$> md !! i | None => None end) pairs.

Definition is_present {A} (o : option A) : bool := match o with Some _ => true | None => false end.

Section Column.
Context `{ZS : Zstd}.

Fixpoint push_key_columns (pairs : list pairs_of) (zstd_level : Z) (keys : list str) : result (list byte) :=
  match keys with
  | [] => Ok []
  | k :: keys' =>
    let column := key_column k pairs in
    let dense := omap id column in
    let? c := encode_str dense (length dense) zstd_level in
    let? bytes := to_bytes c in
    let? rest := push_key_columns pairs zstd_level keys' in
    Ok (encode_bitmap (map is_present column) ++ bytes ++ rest)
  end.

Definition encode_pairs_column (pairs : list pairs_of) (legacy_raw : list byte) (zstd_level : Z)
    : result (list byte) :=
  let '(keys, canonical) := collect_keys [] pairs in
  if negb canonical || (SHRED_MAX_KEYS <? length keys)%nat then
    let? compressed := zstd_compress legacy_raw zstd_level in Ok (PAIRS_LEGACY :: compressed)
  else
    let? table := push_keys keys in
    let? columns := push_key_columns pairs zstd_level keys in
    Ok (PAIRS_SHREDDED :: u16_le (Z.of_nat (length keys)) ++ table ++ columns).

Context (what : string).

(** The keys table, strictly ascending; [prev] is [keys.last()]. *)
Fixpoint read_keys (i n : nat) (prev : option str) (r : Reader) : result (list str * Reader) :=
  match n with
  | O => Ok ([], r)
  | S n' =>
    let? (klen, r) := rd_u16 (what ++ " key length") r in
    let? (kb, r) := rd_take (Z.to_nat klen) (what ++ " key bytes") r in
    let? k := from_utf8 kb (Fmt "{what} column: key {i} is not valid UTF-8" [FStr what; FNum (Z.of_nat i)]) in
    if match prev with Some p => negb (kltb p k) | None => false end then
      Err (Fmt "{what} column: keys table is not strictly sorted" [FStr what])
    else let? (keys, r) := read_keys (S i) n' (Some k) r in Ok (k :: keys, r)
  end.

(** [for (entry, &p) in out.iter_mut().zip(&present)]: push the next value where
    present. *)
Fixpoint fill_key (key : str) (out : list pairs_of) (present : list bool) (values : list str)
    : result (list pairs_of) :=
  match out, present with
  | md :: out', p :: present' =>
    if p : bool then
      match values with
      | v :: values' => let? o := fill_key key out' present' values' in Ok ((md ++ [(key, v)]) :: o)
      | [] => Err panic
      end
    else let? o := fill_key key out' present' values in Ok (md :: o)
  | _, _ => Ok out
  end.

Definition in_key (key : str) (e : error) : error := Fmt "{what} column, key {key:?}: {e}" [FStr what; FBytes key; FErr e].

Fixpoint read_key_columns (n : nat) (keys : list str) (out : list pairs_of) (r : Reader)
    : result (list pairs_of * Reader) :=
  match keys with
  | [] => Ok (out, r)
  | key :: keys' =>
    let? (bm, r) := rd_take (bitmap_len n) (what ++ " presence bitmap") r in
    let? present := map_err (in_key key) (decode_bitmap bm n) in
    let n_present := length (filter (fun b : bool => b = true) present) in
    let? (frame, r) := framed_column (what ++ " value column") r in
    let? values := map_err (in_key key) (decode_str frame n_present) in
    let? out := fill_key key out present values in
    read_key_columns n keys' out r
  end.

Definition decode_pairs_column (bytes : list byte) (n : nat)
    (parse_legacy : list byte -> nat -> result (list pairs_of)) : result (list pairs_of) :=
  let r := Reader_new bytes in
  let? (strategy, r) := rd_u8 (what ++ " strategy byte") r in
  if byte_eqb strategy PAIRS_LEGACY then
    let? (rest, r) := rd_take (remaining r) what r in
    let? raw := zstd_decompress rest (what ++ " column") in
    parse_legacy raw n
  else if byte_eqb strategy PAIRS_SHREDDED then
    let? (n_keys, r) := rd_u16 (what ++ " key count") r in
    if Z.of_nat SHRED_MAX_KEYS <? n_keys then
      Err (Fmt "{what} column: {n_keys} shredded keys exceeds the cap {SHRED_MAX_KEYS}"
             [FStr what; FNum n_keys; FNum (Z.of_nat SHRED_MAX_KEYS)])
    else
      let? (keys, r) := read_keys 0 (Z.to_nat n_keys) None r in
      let? (out, r) := read_key_columns n keys (replicate n []) r in
      if negb (remaining r =? 0)%nat then
        Err (Fmt "{what} column: trailing bytes after last key" [FStr what])
      else Ok out
  else Err (Fmt "{what} column: unknown strategy byte {other}" [FStr what; FNum (b2z strategy)]).
End Column.

(** ** Pair serialization: lemmas *)

Definition pair_valid (p : str * str) : Prop := is_str p.1 /\ is_str p.2.

(** Bytes of an entry's serialized pairs. *)
Definition pairs_size (md : pairs_of) : nat := sum_list_with (fun p => 6 + length p.1 + length p.2)%nat md.
Definition metadata_size (mds : list pairs_of) : nat := sum_list_with (fun md => 2 + pairs_size md)%nat mds.

Lemma pair_bytes_inv p b :
  pair_bytes p = Ok b ->
  0 <= Z.of_nat (length p.1) <= u16_max /\ is_u32 (Z.of_nat (length p.2)) /\
  b = u16_le (Z.of_nat (length p.1)) ++ p.1 ++ u32_le (Z.of_nat (length p.2)) ++ p.2.
Proof.
  destruct p as [k v]. unfold pair_bytes, is_u32. cbn [fst snd].
  destruct (Z.ltb_spec u16_max (Z.of_nat (length k))); [done|].
  destruct (Z.ltb_spec u32_max (Z.of_nat (length v))); [done|]. intros [= <-]. split_and!; try done; lia.
Qed.

Lemma pair_bytes_size md bs : map_result pair_bytes md = Ok bs -> length (concat bs) = pairs_size md.
Proof.
  intros H%map_result_Forall2. induction H as [|p b md bs Hp _ IH]; [done|].
  apply pair_bytes_inv in Hp as (_ & _ & ->). unfold pairs_size in *. cbn [concat sum_list_with].
  rewrite length_app, IH. autorewrite with wire. lia.
Qed.

Lemma parse_pairs_at i md : forall bs rest r,
  map_result pair_bytes md = Ok bs -> Forall pair_valid md -> rd_at r (concat bs ++ rest) ->
  exists r', parse_pairs i (length md) r = Ok (md, r') /\ rd_at r' rest.
Proof.
  induction md as [|p md IH]; intros bs rest r Hb Hv Hr.
  { injection Hb as <-. by exists r. }
  cbn [map_result] in Hb. destruct (pair_bytes p) as [b|] eqn:Ep; [|done].
  destruct (map_result pair_bytes md) as [bs'|] eqn:Em; [|done]. injection Hb as <-.
  apply pair_bytes_inv in Ep as (Hk & Hvl & ->). apply Forall_cons in Hv as [[Hk1 Hv1] Hv].
  destruct p as [k v]. cbn [fst snd] in *. cbn [concat] in Hr. rewrite <-!List.app_assoc in Hr.
  cbn [length parse_pairs].
  rewrite (rd_u16_at _ _ _ _ Hr Hk). apply rd_at_adv in Hr. rewrite length_u16_le in Hr.
  rewrite Nat2Z.id, (rd_take_at _ _ _ _ _ Hr eq_refl). apply rd_at_adv in Hr.
  unfold from_utf8. rewrite Hk1. rewrite (rd_u32_at _ _ _ _ Hr Hvl).
  apply rd_at_adv in Hr. rewrite length_u32_le in Hr.
  rewrite Nat2Z.id, (rd_take_at _ _ _ _ _ Hr eq_refl). apply rd_at_adv in Hr. rewrite Hv1.
  destruct (IH _ _ _ eq_refl Hv Hr) as (r' & -> & Hr'). by exists r'.
Qed.

Lemma entry_pairs_bytes_inv md b :
  entry_pairs_bytes md = Ok b ->
  0 <= Z.of_nat (length md) <= u16_max /\
  exists bs, map_result pair_bytes md = Ok bs /\ b = u16_le (Z.of_nat (length md)) ++ concat bs.
Proof.
  unfold entry_pairs_bytes. destruct (Z.ltb_spec u16_max (Z.of_nat (length md))); [done|].
  destruct (map_result pair_bytes md) as [bs|]; [|done]. intros [= <-]. split; [lia|]. by exists bs.
Qed.

Lemma entry_bytes_size mds bs :
  map_result entry_pairs_bytes mds = Ok bs -> length (concat bs) = metadata_size mds.
Proof.
  intros H%map_result_Forall2. induction H as [|md b mds bs Hp _ IH]; [done|].
  apply entry_pairs_bytes_inv in Hp as (_ & bs' & Hb & ->). apply pair_bytes_size in Hb.
  unfold metadata_size in *. cbn [concat sum_list_with]. rewrite length_app, IH, length_app, length_u16_le, Hb. lia.
Qed.

Lemma parse_entries_at mds : forall i bs rest r,
  map_result entry_pairs_bytes mds = Ok bs -> Forall (Forall pair_valid) mds -> rd_at r (concat bs ++ rest) ->
  exists r', parse_entries i (length mds) r = Ok (mds, r') /\ rd_at r' rest.
Proof.
  induction mds as [|md mds IH]; intros i bs rest r Hb Hv Hr.
  { injection Hb as <-. by exists r. }
  cbn [map_result] in Hb. destruct (entry_pairs_bytes md) as [b|] eqn:Ep; [|done].
  destruct (map_result entry_pairs_bytes mds) as [bs'|] eqn:Em; [|done]. injection Hb as <-.
  apply entry_pairs_bytes_inv in Ep as (Hn & ps & Hps & ->). apply Forall_cons in Hv as [Hv1 Hv].
  cbn [concat] in Hr. rewrite <-!List.app_assoc in Hr. cbn [length parse_entries].
  rewrite (rd_u16_at _ _ _ _ Hr Hn). apply rd_at_adv in Hr. rewrite length_u16_le in Hr. rewrite Nat2Z.id.
  destruct (parse_pairs_at i _ _ _ _ Hps Hv1 Hr) as (r1 & -> & Hr1).
  destruct (IH (S i) _ _ _ eq_refl Hv Hr1) as (r' & -> & Hr'). by exists r'.
Qed.

Lemma map_result_map {A B C} (f : B -> result C) (g : A -> B) l :
  map_result f (map g l) = map_result (fun x => f (g x)) l.
Proof. induction l as [|x l IH]; [done|]. cbn [map map_result]. by rewrite IH. Qed.

Lemma serialize_metadata_inv entries raw :
  serialize_metadata entries = Ok raw ->
  exists bs, map_result entry_pairs_bytes (map metadata entries) = Ok bs /\ raw = concat bs /\
    length raw = metadata_size (map metadata entries).
Proof.
  unfold serialize_metadata. rewrite <-(map_result_map entry_pairs_bytes metadata).
  destruct (map_result entry_pairs_bytes (map metadata entries)) as [bs|] eqn:E; [|done].
  intros [= <-]. exists bs. split_and!; [done|done|by apply entry_bytes_size].
Qed.

Lemma metadata_round entries raw :
  serialize_metadata entries = Ok raw -> Forall (Forall pair_valid) (map metadata entries) -> vec_fits 1 raw ->
  parse_metadata raw (length entries) = Ok (map metadata entries).
Proof.
  intros (bs & Hbs & -> & _)%serialize_metadata_inv Hv Hf. unfold parse_metadata, vec_fits in *.
  assert (rd_at (Reader_new (concat bs)) (concat bs ++ [])) as Hr.
  { rewrite List.app_nil_r. apply rd_at_new. lia. }
  destruct (parse_entries_at _ 0 _ _ _ Hbs Hv Hr) as (r' & Hp & Hr'). rewrite length_map in Hp.
  by rewrite Hp, (rd_at_remaining _ _ Hr').
Qed.

(** ** Shredding: lemmas *)

Lemma strictly_sorted_spec md : strictly_sorted md = true <-> btm_wf md.
Proof.
  unfold btm_wf. split.
  - intros H. apply Sorted_StronglySorted; [intros a b c; apply kcmp_trans|].
    induction md as [|p [|q md] IH]; [constructor|constructor; constructor|].
    cbn [strictly_sorted] in H. apply andb_true_iff in H as [H1 H2]. apply kltb_spec in H1.
    constructor; [by apply IH|]. by constructor.
  - induction md as [|p [|q md] IH]; intros H; [done..|]. cbn [strictly_sorted].
    inversion H as [|? ? Hs Hf]; subst. apply andb_true_iff. split; [|by apply IH].
    apply Forall_cons in Hf as [Hf _]. by apply kltb_spec.
Qed.

Lemma insert_keys_spec md : forall keys x,
  bts_wf keys ->
  bts_wf (fold_left (fun ks p => bts_insert p.1 ks) md keys) /\
  (x ∈ fold_left (fun ks (p : str * str) => bts_insert p.1 ks) md keys <-> x ∈ keys \/ x ∈ md.*1).
Proof.
  induction md as [|p md IH]; intros keys x Hk; cbn [fold_left]; [split; [done|]; rewrite elem_of_nil; naive_solver|].
  destruct (IH (bts_insert p.1 keys) x) as [H1 H2]; [by apply bts_insert_wf|]. split; [done|].
  rewrite H2, elem_of_bts_insert, fmap_cons, elem_of_cons. naive_solver.
Qed.

(** The key set of canonical entries: sorted, and holding every key. *)
Lemma collect_keys_spec pairs : forall keys0 keys,
  bts_wf keys0 -> collect_keys keys0 pairs = (keys, true) ->
  bts_wf keys /\ Forall btm_wf pairs /\
  forall x, x ∈ keys <-> x ∈ keys0 \/ exists md, md ∈ pairs /\ x ∈ md.*1.
Proof.
  induction pairs as [|md pairs IH]; intros keys0 keys Hk H; cbn [collect_keys] in H.
  { injection H as <-. split_and!; [done|constructor|]. intros x. setoid_rewrite elem_of_nil. naive_solver. }
  destruct (strictly_sorted md) eqn:Es; [|done]. apply strictly_sorted_spec in Es.
  apply IH in H as (H1 & H2 & H3); [|apply (insert_keys_spec md keys0 []); done].
  split_and!; [done|by constructor|]. intros x. rewrite H3. destruct (insert_keys_spec md keys0 x Hk) as [_ ->].
  setoid_rewrite elem_of_cons. naive_solver.
Qed.

Lemma read_keys_at what keys : forall i prev table rest r,
  push_keys keys = Ok table -> Forall is_str keys ->
  StronglySorted klt (match prev with Some p => p :: keys | None => keys end) ->
  rd_at r (table ++ rest) ->
  exists r', read_keys what i (length keys) prev r = Ok (keys, r') /\ rd_at r' rest.
Proof.
  induction keys as [|k keys IH]; intros i prev table rest r Ht Hv Hs Hr; cbn [push_keys] in Ht.
  { injection Ht as <-. by exists r. }
  destruct (Z.ltb_spec u16_max (Z.of_nat (length k))) as [|Hk]; [done|].
  destruct (push_keys keys) as [table'|]; [|done]. injection Ht as <-. apply Forall_cons in Hv as [Hv1 Hv].
  rewrite <-!List.app_assoc in Hr. cbn [length read_keys].
  rewrite (rd_u16_at _ _ _ _ Hr) by lia. apply rd_at_adv in Hr. rewrite length_u16_le in Hr.
  rewrite Nat2Z.id, (rd_take_at _ _ _ _ _ Hr eq_refl). apply rd_at_adv in Hr.
  unfold from_utf8. rewrite Hv1.
  assert (match prev with Some p => negb (kltb p k) | None => false end = false) as ->.
  { destruct prev as [p|]; [|done]. inversion Hs as [|? ? _ Hf]; subst.
    apply Forall_cons in Hf as [Hf _]. apply kltb_spec in Hf. by rewrite Hf. }
  assert (StronglySorted klt (k :: keys)) as Hs' by (destruct prev; [by inversion Hs|done]).
  destruct (IH (S i) (Some k) _ _ _ eq_refl Hv Hs' Hr) as (r' & -> & Hr'). by exists r'.
Qed.

(** The pairs of an entry whose keys are in [ks]. *)
Definition restrict (ks : list str) (md : pairs_of) : pairs_of := filter (fun p => p.1 ∈ ks) md.

Lemma restrict_above (ks : list str) k (md : pairs_of) :
  Forall (fun x => klt x k) ks -> Forall (fun x => klt k x) md.*1 -> restrict ks md = [].
Proof.
  intros Hk Hmd. unfold restrict. apply list_filter_none. rewrite Forall_fmap in Hmd.
  eapply Forall_impl; [exact Hmd|]. intros p Hp Hin. cbn in Hp.
  pose proof (proj1 (Forall_forall _ _) Hk _ Hin) as Hlt.
  by apply (klt_irrefl k), (kcmp_trans _ _ _ Hp).
Qed.

Lemma restrict_snoc ks k md :
  btm_wf md -> Forall (fun x => klt x k) ks ->
  restrict (ks ++ [k]) md =
  match btm_get k md with Some v => restrict ks md ++ [(k, v)] | None => restrict ks md end.
Proof.
  intros Hmd Hk. induction md as [|[k0 v0] md IH]; [done|].
  inversion Hmd as [|? ? Hs Hf]; subst. specialize (IH Hs). unfold restrict in *.
  rewrite !filter_cons. cbn [btm_get fst]. destruct (kcmp k k0) eqn:E.
  - apply kcmp_eq in E as <-. rewrite decide_True by (apply elem_of_app; right; by apply list_elem_of_singleton).
    rewrite decide_False by (intros Hin; by apply (klt_irrefl k), (proj1 (Forall_forall _ _) Hk)).
    pose proof (restrict_above ks k md Hk Hf) as Hnil. unfold restrict in Hnil. rewrite Hnil. cbn [app]. f_equal.
    apply list_filter_none. rewrite Forall_fmap in Hf. eapply Forall_impl; [exact Hf|].
    intros p Hp Hin. cbn in Hp. apply elem_of_app in Hin as [Hin|Hin].
    + pose proof (proj1 (Forall_forall _ _) Hk _ Hin) as Hlt. by apply (klt_irrefl k), (kcmp_trans _ _ _ Hp).
    + apply list_elem_of_singleton in Hin. rewrite Hin in Hp. by apply (klt_irrefl k).
  - assert (k0 ∉ ks ++ [k]) as Hno.
    { intros [Hin|Hin]%elem_of_app.
      - pose proof (proj1 (Forall_forall _ _) Hk _ Hin) as Hlt. by apply (klt_irrefl k), (kcmp_trans _ _ _ E).
      - apply list_elem_of_singleton in Hin as ->. by apply (klt_irrefl k). }
    rewrite decide_False by done. rewrite decide_False by (intros Hin; apply Hno, elem_of_app; by left).
    rewrite IH. destruct (btm_get k md) eqn:Eg; [|done]. exfalso.
    apply btm_get_elem in Eg; [|done]. apply (list_elem_of_fmap_2 fst) in Eg.
    pose proof (proj1 (Forall_forall _ _) Hf _ Eg) as Hlt. by apply (klt_irrefl k), (kcmp_trans _ _ _ E).
  - assert (k0 <> k) as Hne by (intros ->; apply kcmp_gt in E; by apply (klt_irrefl k)).
    rewrite IH. destruct (decide (k0 ∈ ks)) as [Hin|Hin].
    + rewrite decide_True by (apply elem_of_app; by left). by destruct (btm_get k md).
    + rewrite decide_False; [done|]. rewrite elem_of_app, list_elem_of_singleton. naive_solver.
Qed.

Lemma key_column_spec k pairs : Forall btm_wf pairs -> key_column k pairs = map (btm_get k) pairs.
Proof.
  intros Hp. unfold key_column. induction Hp as [|md pairs Hmd _ IH]; [done|]. cbn [map]. rewrite IH. f_equal.
  pose proof (search_key_spec k md Hmd) as H. destruct (search_key k md).
  - destruct H as (v & -> & ->). done.
  - done.
Qed.

Lemma dense_cons {A} (o : option A) l :
  omap id (o :: l) = match o with Some v => v :: omap id l | None => omap id l end.
Proof. by destruct o. Qed.

Lemma present_dense {A} (col : list (option A)) :
  length (filter (fun b : bool => b = true) (map is_present col)) = length (omap id col).
Proof. induction col as [|[x|] col IH]; [done| |]; simpl; by rewrite ?IH. Qed.

Lemma fill_key_spec k ks pairs :
  Forall btm_wf pairs -> Forall (fun x => klt x k) ks ->
  fill_key k (map (restrict ks) pairs) (map is_present (map (btm_get k) pairs)) (omap id (map (btm_get k) pairs))
  = Ok (map (restrict (ks ++ [k])) pairs).
Proof.
  intros Hp Hk. induction Hp as [|md pairs Hmd _ IH]; [done|]. cbn [map].
  rewrite (restrict_snoc ks k md Hmd Hk). rewrite dense_cons.
  destruct (btm_get k md) as [v|] eqn:E; cbn [is_present fill_key]; by rewrite IH.
Qed.

Lemma dense_size k pairs :
  Forall btm_wf pairs ->
  (strs_size (omap id (map (btm_get k) pairs)) <= metadata_size pairs)%nat /\
  (length (omap id (map (btm_get k) pairs)) <= length pairs)%nat.
Proof.
  intros Hp. induction Hp as [|md pairs Hmd _ [IH1 IH2]]; [done|]. unfold metadata_size in *.
  cbn [map sum_list_with length]. rewrite dense_cons. destruct (btm_get k md) as [v|] eqn:E; [|lia].
  rewrite strs_size_cons. cbn [length]. apply btm_get_elem in E; [|done].
  pose proof (sum_list_with_in (k, v) (fun p => 6 + length p.1 + length p.2)%nat md E) as Hs. cbn [fst snd] in Hs.
  fold (pairs_size md) in Hs. split; lia.
Qed.

Lemma dense_valid k pairs :
  Forall btm_wf pairs -> Forall (Forall pair_valid) pairs -> Forall is_str (omap id (map (btm_get k) pairs)).
Proof.
  intros Hp Hv. induction Hp as [|md pairs Hmd _ IH]; [constructor|]. apply Forall_cons in Hv as [Hv1 Hv].
  cbn [map]. rewrite dense_cons. destruct (btm_get k md) as [v|] eqn:E; [|by apply IH]. constructor; [|by apply IH].
  apply btm_get_elem in E; [|done]. exact (proj2 (proj1 (Forall_forall _ _) Hv1 _ E)).
Qed.

(** The blocks the decoder's bounds admit. *)
Definition metadata_fits (pairs : list pairs_of) : Prop :=
  Z.of_nat (metadata_size pairs) <= DECOMPRESS_MAX_BYTES /\ Z.of_nat (length pairs) <= MAX_BLOCK_ENTRIES.

Section RoundTrip.
Context `{ZS : Zstd} `{ZL : !ZstdLaws}.
Context (what : string) (pairs : list pairs_of).
Context (Hwf : Forall btm_wf pairs) (Hv : Forall (Forall pair_valid) pairs) (Hfit : metadata_fits pairs).

Lemma read_key_columns_at level keys : forall ks bytes rest r,
  push_key_columns pairs level keys = Ok bytes -> StronglySorted klt (ks ++ keys) ->
  rd_at r (bytes ++ rest) ->
  exists r', read_key_columns what (length pairs) keys (map (restrict ks) pairs) r
             = Ok (map (restrict (ks ++ keys)) pairs, r') /\ rd_at r' rest.
Proof using ZL Hwf Hv Hfit.
  induction keys as [|k keys IH]; intros ks bytes rest r Hb Hs Hr; cbn [push_key_columns] in Hb.
  { injection Hb as <-. exists r. by rewrite List.app_nil_r. }
  rewrite key_column_spec in Hb by done. set (dense := omap id (map (btm_get k) pairs)) in *.
  destruct (encode_str dense (length dense) level) as [c|] eqn:Hc; [|done].
  destruct (to_bytes c) as [frame|] eqn:Hf; [|done].
  destruct (push_key_columns pairs level keys) as [tail|] eqn:Ht; [|done]. injection Hb as <-.
  set (bits := map is_present (map (btm_get k) pairs)) in *.
  assert (length bits = length pairs) as Hbits by (unfold bits; by rewrite !length_map).
  rewrite <-!List.app_assoc in Hr. cbn [read_key_columns].
  destruct (encode_bitmap_spec bits) as [Hbl _]. rewrite Hbits in Hbl.
  rewrite (rd_take_at _ _ _ _ _ Hr Hbl). apply rd_at_adv in Hr. rewrite Hbl in Hr.
  rewrite (proj2 (decode_bitmap_spec _ _ _) (conj Hbits eq_refl)). cbn [map_err].
  destruct (framed_column_at c frame (tail ++ rest) _ (what ++ " value column") Hf Hr) as [-> Hr2].
  unfold bits. rewrite present_dense. fold dense.
  destruct (dense_size k pairs Hwf) as [Hd1 Hd2]. fold dense in Hd1, Hd2. destruct Hfit as [Hf1 Hf2].
  rewrite (str_round dense level c frame) by (first [by apply dense_valid|done|
    unfold str_column_fits, DECOMPRESS_MAX_BYTES, MAX_BLOCK_ENTRIES in *; lia]). cbn [map_err].
  assert (Forall (fun x => klt x k) ks) as Hk.
  { apply bts_wf_snoc. unfold bts_wf. rewrite (List.app_assoc ks [k] keys : ks ++ k :: keys = _) in Hs.
    by eapply StronglySorted_app_1_l. }
  unfold dense. rewrite fill_key_spec by done.
  destruct (IH (ks ++ [k]) tail rest (rd_adv (length frame) (rd_adv (bitmap_len (length pairs)) r)) eq_refl)
    as (r' & Hgo & Hr'); [by rewrite <-List.app_assoc|done|].
  exists r'. rewrite <-List.app_assoc in Hgo. done.
Qed.

Lemma shredded_round level keys table columns :
  collect_keys [] pairs = (keys, true) -> (length keys <= SHRED_MAX_KEYS)%nat ->
  push_keys keys = Ok table -> push_key_columns pairs level keys = Ok columns ->
  vec_fits 1 (PAIRS_SHREDDED :: u16_le (Z.of_nat (length keys)) ++ table ++ columns) ->
  forall parse_legacy,
  decode_pairs_column what (PAIRS_SHREDDED :: u16_le (Z.of_nat (length keys)) ++ table ++ columns)
    (length pairs) parse_legacy = Ok pairs.
Proof using ZL Hwf Hv Hfit.
  intros Hk Hlen Ht Hc Hb parse_legacy.
  destruct (collect_keys_spec pairs [] keys ltac:(constructor) Hk) as (Hks & _ & Hall).
  unfold decode_pairs_column. set (bytes := PAIRS_SHREDDED :: _) in *.
  assert (rd_at (Reader_new bytes) bytes) as Hr by (apply rd_at_new; unfold vec_fits in Hb; lia).
  unfold bytes in Hr at 2. rewrite (rd_u8_at _ _ _ _ Hr).
  change (PAIRS_SHREDDED :: u16_le (Z.of_nat (length keys)) ++ table ++ columns)
    with ([PAIRS_SHREDDED] ++ u16_le (Z.of_nat (length keys)) ++ table ++ columns) in Hr.
  apply rd_at_adv in Hr. cbn [length] in Hr. change (byte_eqb PAIRS_SHREDDED PAIRS_LEGACY) with false.
  change (byte_eqb PAIRS_SHREDDED PAIRS_SHREDDED) with true. cbn iota.
  unfold SHRED_MAX_KEYS in Hlen. rewrite (rd_u16_at _ _ _ _ Hr) by (unfold u16_max; lia).
  apply rd_at_adv in Hr. rewrite length_u16_le in Hr.
  destruct (Z.ltb_spec (Z.of_nat SHRED_MAX_KEYS) (Z.of_nat (length keys))); [unfold SHRED_MAX_KEYS in *; lia|].
  rewrite Nat2Z.id.
  assert (Forall is_str keys) as Hkv.
  { apply Forall_forall. intros x Hx. apply Hall in Hx as [[]%elem_of_nil|(md & Hmd & Hx)].
    apply list_elem_of_fmap in Hx as (p & -> & Hp).
    exact (proj1 (proj1 (Forall_forall _ _) (proj1 (Forall_forall _ _) Hv _ Hmd) _ Hp)). }
  destruct (read_keys_at what keys 0 None _ _ _ Ht Hkv Hks Hr) as (r1 & -> & Hr1).
  rewrite <-(List.app_nil_r columns) in Hr1.
  destruct (read_key_columns_at level keys [] _ _ _ Hc Hks Hr1) as (r2 & Hgo & Hr2).
  replace (replicate (length pairs) []) with (map (restrict []) pairs).
  2: { symmetry. apply replicate_as_Forall. rewrite length_map. split; [done|]. apply Forall_map, Forall_true.
       intros md. unfold restrict. symmetry. apply list_filter_none, Forall_true. intros p. apply not_elem_of_nil. }
  rewrite Hgo, (rd_at_remaining _ _ Hr2). cbn. f_equal.
  apply list_eq_Forall2, Forall2_fmap_l, Forall_Forall2_diag, Forall_forall. intros md Hmd.
  unfold restrict. apply list_filter_all, Forall_forall. intros p Hp. apply Hall. right.
  exists md. split; [done|]. by apply list_elem_of_fmap_2.
Qed.
End RoundTrip.

Section Theorems.
Context `{ZS : Zstd} `{ZL : !ZstdLaws}.

(** The pairs column decodes to the pairs it was given, canonical or not, as long
    as the legacy bytes are the serialization the legacy parser reads back. *)
Lemma pairs_column_round what pairs legacy_raw level bytes parse_legacy :
  Forall (Forall pair_valid) pairs -> metadata_fits pairs ->
  Z.of_nat (length legacy_raw) <= DECOMPRESS_MAX_BYTES ->
  parse_legacy legacy_raw (length pairs) = Ok pairs ->
  encode_pairs_column pairs legacy_raw level = Ok bytes -> vec_fits 1 bytes ->
  decode_pairs_column what bytes (length pairs) parse_legacy = Ok pairs.
Proof using ZL.
  intros Hv Hfit Hraw Hparse He Hb. unfold encode_pairs_column in He.
  destruct (collect_keys [] pairs) as [keys canonical] eqn:Hk.
  destruct (negb canonical || (SHRED_MAX_KEYS <? length keys)%nat) eqn:Es.
  - destruct (zstd_compress legacy_raw level) as [z|] eqn:Ez; [|done]. injection He as <-.
    unfold decode_pairs_column.
    assert (rd_at (Reader_new (PAIRS_LEGACY :: z)) (PAIRS_LEGACY :: z)) as Hr
      by (apply rd_at_new; unfold vec_fits in Hb; lia).
    rewrite (rd_u8_at _ _ _ _ Hr). change (PAIRS_LEGACY :: z) with ([PAIRS_LEGACY] ++ z) in Hr at 2.
    apply rd_at_adv in Hr. cbn [length] in Hr. change (byte_eqb PAIRS_LEGACY PAIRS_LEGACY) with true. cbn iota.
    rewrite (rd_at_remaining _ _ Hr). rewrite <-(List.app_nil_r z) in Hr at 2.
    rewrite (rd_take_at _ _ _ _ _ Hr eq_refl).
    unfold zstd_decompress. by rewrite (zstd_compress_round _ _ _ _ _ Ez Hraw).
  - apply orb_false_iff in Es as [Hc Hlen]. apply negb_false_iff in Hc as ->. apply Nat.ltb_ge in Hlen.
    destruct (push_keys keys) as [table|] eqn:Ht; [|done].
    destruct (push_key_columns pairs level keys) as [columns|] eqn:Hcol; [|done]. injection He as <-.
    destruct (collect_keys_spec pairs [] keys ltac:(constructor) Hk) as (_ & Hwf & _).
    by eapply shredded_round.
Qed.

(** C20: The metadata of a block round-trips through the shredded column: for
    entries whose keys and values are strings and whose serialization is within
    the decoder's bounds, whatever strategy the encoder picks (shredded per key,
    or the legacy bytes when an entry is not sorted by distinct keys or the block
    has more than 64 keys), decoding gives back every entry's pairs in order. *)
Theorem metadata_column_round_trip (entries : list LogEntry) (raw bytes : list byte) (level : Z) :
  Forall (Forall pair_valid) (map metadata entries) -> metadata_fits (map metadata entries) ->
  serialize_metadata entries = Ok raw ->
  encode_pairs_column (map metadata entries) raw level = Ok bytes -> vec_fits 1 bytes ->
  parse_metadata raw (length entries) = Ok (map metadata entries) /\
  decode_pairs_column "metadata" bytes (length entries) parse_metadata = Ok (map metadata entries).
Proof using ZL.
  intros Hv Hfit Hs He Hb. pose proof Hfit as [Hf1 _].
  destruct (serialize_metadata_inv _ _ Hs) as (_ & _ & _ & Hlen).
  assert (vec_fits 1 raw) as Hraw
    by (unfold vec_fits, i64_max, DECOMPRESS_MAX_BYTES in *; rewrite Hlen; lia).
  pose proof (metadata_round _ _ Hs Hv Hraw) as Hparse. split; [done|].
  rewrite <-(length_map metadata). eapply pairs_column_round; eauto; [lia|by rewrite length_map].
Qed.
End Theorems.
