(* ===== verification/BlockCodec.v ===== *)
(** * The log block codec

    [blocks/codec.rs]: the container of four columns (timestamps, levels,
    messages, metadata), the seven codecs that share it, the projected and the
    filtered decoders and the substring gate.

    [serde_json] is a third-party crate: [SerdeJson] names the three calls the
    source makes of it and [SerdeJsonLaws] what their documentation promises.
    [str::to_lowercase] needs the Unicode case tables and is the argument
    [to_lowercase] of the one function that calls it on non-ASCII needles. *)
From Stdlib Require Import ZArith Lia Bool Strings.Byte.
From stdpp Require Import prelude list sorting strings.
From S2P Require Import Prelude BTree Wire Columns RustStr Template TemplateColumn TemplateSearch.
From S2P Require Import LogEntry PairsColumn.
Open Scope string_scope.
Open Scope list_scope.
Open Scope Z_scope.

(** ** Codecs *)

Definition CODEC_RAW : byte := x01.
Definition CODEC_ZSTD : byte := x02.
Definition CODEC_COLUMNAR : byte := x04.
Definition CODEC_COLUMNAR_V2 : byte := x05.
Definition CODEC_RICH_RAW : byte := x06.
Definition CODEC_RICH_COLUMNAR : byte := x07.
Definition CODEC_RICH_TEMPLATE : byte := x08.
Definition FORMAT_VERSION : byte := x01.
Definition HEADER_LEN : nat := 38.

(** [matches!(codec, A | B | ...)]. *)
Definition codec_in (c : byte) (l : list byte) : bool := existsb (byte_eqb c) l.

Definition known_codec (c : byte) : bool :=
  codec_in c [CODEC_RAW; CODEC_ZSTD; CODEC_COLUMNAR; CODEC_COLUMNAR_V2; CODEC_RICH_RAW;
              CODEC_RICH_COLUMNAR; CODEC_RICH_TEMPLATE].
Definition is_raw_codec (c : byte) : bool := codec_in c [CODEC_RAW; CODEC_RICH_RAW].
Definition rich_codec (c : byte) : bool :=
  codec_in c [CODEC_RICH_RAW; CODEC_RICH_COLUMNAR; CODEC_RICH_TEMPLATE].
Definition typed_codec (c : byte) : bool :=
  codec_in c [CODEC_COLUMNAR; CODEC_COLUMNAR_V2; CODEC_RICH_COLUMNAR; CODEC_RICH_TEMPLATE].

Definition COLUMN_NAMES : list string := ["ts column"; "level column"; "message column"; "metadata column"].

(** ** serde_json *)

#[local] Set Warnings "-register-all".

(** [serde_json::Value]; an object lists its map in iteration order. *)
Inductive Value (num : Type) :=
| VNull
| VBool (b : bool)
| VNumber (n : num)
| VString (s : str)
| VArray (l : list (Value num))
| VObject (m : list (str * Value num)).
Arguments VNull {num}.
Arguments VBool {num} b.
Arguments VNumber {num} n.
Arguments VString {num} s.
Arguments VArray {num} l.
Arguments VObject {num} m.

(** [from_str::<Value>], and [to_string] of a [Value] and of a [BTreeMap]. *)
Class SerdeJson := {
  json_number : Type;
  json_from_str : str -> result (Value json_number);
  json_to_string : Value json_number -> result str;
  json_map_to_string : list (str * Value json_number) -> result str;
}.

(** Serialized text is a string, and a map of strings parses back to itself. *)
Class SerdeJsonLaws `{SerdeJson} : Prop := {
  json_text_valid m s : json_map_to_string m = Ok s -> is_str s;
  json_strings_round_trip (pairs : list (str * str)) s :
    btm_wf pairs -> Forall pair_valid pairs ->
    json_map_to_string (map (prod_map id VString) pairs) = Ok s ->
    json_from_str s = Ok (VObject (map (prod_map id VString) pairs));
}.

Section Json.
Context `{SJ : SerdeJson}.

(** [into_iter().collect::<BTreeMap<_, _>>()]. *)
Definition btm_collect {V} (l : list (str * V)) : list (str * V) :=
  fold_left (fun m p => btm_insert p.1 p.2 m) l [].

Definition bad_json (e : error) : error := Fmt "metadata JSON: {error}" [FErr e].
Definition not_object : error := Fmt "metadata JSON must be an object" [].

Definition canonical_metadata_json (json : str) : result str :=
  let? value := map_err bad_json (json_from_str json) in
  match value with
  | VObject object =>
    map_err (fun e => Fmt "metadata JSON encode: {error}" [FErr e]) (json_map_to_string (btm_collect object))
  | _ => Err not_object
  end.

Definition pairs_metadata_json (metadata : pairs_of) : result str :=
  map_err (fun e => Fmt "metadata JSON encode: {error}" [FErr e])
    (json_map_to_string (btm_collect (map (prod_map id VString) metadata))).

(** The text of a value as the pair projection renders it. *)
Definition value_text (v : Value json_number) : str :=
  match v with
  | VString s => s
  | other => match json_to_string other with Ok s => s | Err _ => [] end
  end.

Definition metadata_pairs_from_json (json : str) : result pairs_of :=
  let? value := map_err bad_json (json_from_str json) in
  match value with
  | VObject object => Ok (map (prod_map id value_text) object)
  | _ => Err not_object
  end.

(** ** The rich envelope *)

Record LogProjection := mkProjection { p_message : bool; p_metadata : bool; p_metadata_pairs : bool; p_severity : bool }.
Definition ALL : LogProjection := mkProjection true true true true.

Definition bit (b : bool) : Z := if b then 1 else 0.
Definition bits (p : LogProjection) : Z :=
  Z.lor (Z.lor (Z.lor (bit (p_message p)) (Z.shiftl (bit (p_metadata p)) 1))
               (Z.shiftl (bit (p_metadata_pairs p)) 2)) (Z.shiftl (bit (p_severity p)) 3).
Definition from_bits (b : Z) : LogProjection :=
  mkProjection (negb (Z.land b 1 =? 0)) (negb (Z.land b 2 =? 0)) (negb (Z.land b 4 =? 0)) (negb (Z.land b 8 =? 0)).
Definition rich_envelope (p : LogProjection) : bool := p_metadata p || p_metadata_pairs p || p_severity p.

Record RichMetadata := mkRich { r_severity : str; r_metadata : pairs_of; r_metadata_json : str }.

(** The JSON an entry is stored with. *)
Definition entry_json (e : LogEntry) : result str :=
  match metadata_json e with
  | Some json => canonical_metadata_json json
  | None => pairs_metadata_json (metadata e)
  end.

Definition rich_entry_bytes (e : LogEntry) : result (list byte) :=
  let? sev := severity_name e in
  if u16_max <? Z.of_nat (length sev) then Err (Fmt "encode_block: severity exceeds u16::MAX bytes" [])
  else
    let? json := entry_json e in
    if u32_max <? Z.of_nat (length json) then Err (Fmt "encode_block: metadata JSON exceeds u32::MAX bytes" [])
    else Ok (u16_le (Z.of_nat (length sev)) ++ sev ++ u32_le (Z.of_nat (length json)) ++ json).

Definition serialize_rich_metadata (entries : list LogEntry) : result (list byte) :=
  let? bs := map_result rich_entry_bytes entries in Ok (concat bs).

Definition in_entry (index : nat) (e : error) : error :=
  Fmt "block: entry {index}: {error}" [FNum (Z.of_nat index); FErr e].

(** The severity of entry [index], its length already read. *)
Definition read_severity (index : nat) (len : Z) (r : Reader) : result (str * Reader) :=
  let? (b, r) := rd_take (Z.to_nat len) "severity bytes" r in
  let? sev := from_utf8 b (Fmt "block: entry {index}: severity is not valid UTF-8" [FNum (Z.of_nat index)]) in
  let? _ := map_err (in_entry index) (canonical_severity sev) in
  Ok (sev, r).

Definition read_json (index : nat) (r : Reader) : result (str * Reader) :=
  let? (len, r) := rd_u32 "metadata JSON length" r in
  let? (b, r) := rd_take (Z.to_nat len) "metadata JSON bytes" r in
  let? json := from_utf8 b (Fmt "block: entry {index}: metadata JSON is not UTF-8" [FNum (Z.of_nat index)]) in
  Ok (json, r).

Fixpoint parse_rich_go (projection : LogProjection) (index n : nat) (r : Reader)
    : result (list RichMetadata * Reader) :=
  match n with
  | O => Ok ([], r)
  | S n' =>
    let? (severity_len, r) := rd_u16 "severity length" r in
    let? (sev, r) := read_severity index severity_len r in
    let? (json, r) := read_json index r in
    let? mj := if p_metadata projection || p_metadata_pairs projection
               then map_err (in_entry index) (canonical_metadata_json json) else Ok [] in
    let? md := if p_metadata_pairs projection then metadata_pairs_from_json mj else Ok [] in
    let? (rest, r) := parse_rich_go projection (S index) n' r in
    Ok (mkRich sev md mj :: rest, r)
  end.

Definition check_rich_end (r : Reader) : result unit :=
  if negb (remaining r =? 0)%nat then Err (Fmt "block: trailing bytes in rich metadata column" []) else Ok tt.

Definition parse_rich_metadata_projected (bytes : list byte) (n : nat) (projection : LogProjection)
    : result (list RichMetadata) :=
  let? (out, r) := parse_rich_go projection 0 n (Reader_new bytes) in
  let? _ := check_rich_end r in
  Ok out.

(** ** Encoding *)

Context `{ZS : Zstd} `{PI : !Pco Z}.

(** The validation loop: levels, and the least and greatest timestamp. *)
Fixpoint scan_entries (lo hi : Z) (entries : list LogEntry) : result (Z * Z) :=
  match entries with
  | [] => Ok (lo, hi)
  | e :: entries' =>
    if 3 <? b2z (level e) then
      Err (Fmt "encode_block: entry has invalid level {} (must be 0..=3)" [FNum (b2z (level e))])
    else scan_entries (Z.min lo (ts e)) (Z.max hi (ts e)) entries'
  end.

(** Codec 8 measures both message encodings, and is written as codec 7 when
    templates do not win. *)
Definition message_column (entries : list LogEntry) (c : byte) (zstd_level : Z) : result (byte * list byte) :=
  let msgs := map message entries in
  let? col := encode_str msgs (length entries) zstd_level in
  let? col_msg_str := to_bytes col in
  if byte_eqb c CODEC_RICH_TEMPLATE then
    let? tpl := encode_template_str msgs zstd_level in
    if (length tpl <? length col_msg_str)%nat then Ok (c, tpl) else Ok (CODEC_RICH_COLUMNAR, col_msg_str)
  else Ok (c, col_msg_str).

Definition typed_columns (entries : list LogEntry) (c : byte) (col_meta_raw : list byte) (zstd_level : Z)
    : result (byte * list (list byte)) :=
  let? col_meta :=
    if byte_eqb c CODEC_COLUMNAR_V2 then encode_pairs_column (map metadata entries) col_meta_raw zstd_level
    else zstd_compress col_meta_raw zstd_level in
  let? (c, col_msg) := message_column entries c zstd_level in
  let? ts_enc := encode_i64 (map ts entries) zstd_level in
  let? col_ts := to_bytes ts_enc in
  let? lvl_enc := encode_u8 (map level entries) zstd_level in
  let? col_lvl := to_bytes lvl_enc in
  Ok (c, [col_ts; col_lvl; col_msg; col_meta]).

Fixpoint message_blob (msgs : list str) : result (list byte) :=
  match msgs with
  | [] => Ok []
  | m :: msgs' =>
    if u32_max <? Z.of_nat (length m) then Err (Fmt "encode_block: message longer than u32::MAX bytes" [])
    else let? rest := message_blob msgs' in Ok (u32_le (Z.of_nat (length m)) ++ m ++ rest)
  end.

(** Codecs 1, 2 and 6: absolute timestamps for the raw ones, deltas for zstd. *)
Definition plain_columns (entries : list LogEntry) (c : byte) (col_meta_raw : list byte) (zstd_level : Z)
    : result (list (list byte)) :=
  let col_ts := i64s_to_le_bytes (if is_raw_codec c then map ts entries else delta_encode 0 (map ts entries)) in
  let col_lvl_raw := map level entries in
  let? col_msg := message_blob (map message entries) in
  let cols := [col_ts; col_lvl_raw; col_msg; col_meta_raw] in
  if byte_eqb c CODEC_ZSTD then map_result (fun col => zstd_compress col zstd_level) cols else Ok cols.

Fixpoint push_col_lens (cols : list (list byte)) : result (list byte) :=
  match cols with
  | [] => Ok []
  | c :: cols' =>
    if u32_max <? Z.of_nat (length c) then Err (Fmt "encode_block: column exceeds u32::MAX bytes" [])
    else let? rest := push_col_lens cols' in Ok (u32_le (Z.of_nat (length c)) ++ rest)
  end.

Definition encode_block (entries : list LogEntry) (c : byte) (zstd_level : Z)
    : result (list byte * BlockMeta) :=
  match entries with
  | [] => Err (Fmt "encode_block: refusing to encode an empty block" [])
  | _ =>
    if negb (known_codec c) then Err (Fmt "encode_block: unknown codec {codec}" [FNum (b2z c)])
    else if u32_max <? Z.of_nat (length entries) then Err (Fmt "encode_block: entry count exceeds u32::MAX" [])
    else if negb (rich_codec c) && existsb is_rich entries then
      Err (Fmt "encode_block: rich log entry requires codec {}, {} or {}"
             [FNum (b2z CODEC_RICH_RAW); FNum (b2z CODEC_RICH_COLUMNAR); FNum (b2z CODEC_RICH_TEMPLATE)])
    else
      let? (lo, hi) := scan_entries i64_max i64_min entries in
      let? col_meta_raw := if rich_codec c then serialize_rich_metadata entries else serialize_metadata entries in
      let? (c, columns) :=
        if typed_codec c then typed_columns entries c col_meta_raw zstd_level
        else let? cols := plain_columns entries c col_meta_raw zstd_level in Ok (c, cols) in
      let? lens := push_col_lens columns in
      let n := Z.of_nat (length entries) in
      Ok (FORMAT_VERSION :: c :: u32_le n ++ i64_le lo ++ i64_le hi ++ lens ++ concat columns,
          mkMeta lo hi n c)
  end.

(** ** Decoding *)

Definition read_version (r : Reader) : result Reader :=
  let? (version, r) := rd_u8 "format version" r in
  if negb (byte_eqb version FORMAT_VERSION) then
    Err (Fmt "block: unsupported format version {version} (this build speaks {FORMAT_VERSION})"
           [FNum (b2z version); FNum (b2z FORMAT_VERSION)])
  else Ok r.

Record Dims := mkDims { d_n : nat; d_min : Z; d_max : Z; d_lens : list nat }.

(** Entry count, range and column lengths. *)
Definition read_dims (r : Reader) : result (Dims * Reader) :=
  let? (n, r) := rd_u32 "entry_count" r in
  let? _ := check_entry_count n "block" in
  let? (lo, r) := rd_i64 "ts_min" r in
  let? (hi, r) := rd_i64 "ts_max" r in
  let? (lens, r) := read_lens ["ts column length"; "level column length"; "message column length";
                               "metadata column length"] r in
  Ok (mkDims (Z.to_nat n) lo hi lens, r).

(** The four columns, up to the end of the block. *)
Definition read_columns (d : Dims) (r : Reader) : result (list (list byte)) :=
  let? (cols, r) := take_cols (d_lens d) COLUMN_NAMES r in
  if negb (remaining r =? 0)%nat then
    Err (Fmt "block: {} trailing byte(s) after last column (corrupt header?)" [FNum (Z.of_nat (remaining r))])
  else Ok cols.

Fixpoint check_levels (i : nat) (levels : list byte) : result unit :=
  match levels with
  | [] => Ok tt
  | lvl :: levels' =>
    if 3 <? b2z lvl then
      Err (Fmt "block: entry {i} has invalid level byte {lvl}" [FNum (Z.of_nat i); FNum (b2z lvl)])
    else check_levels (S i) levels'
  end.

(** What the fourth column gives each entry. *)
Definition envelope : Type := pairs_of * option str * option str.
Definition flat (md : pairs_of) : envelope := (md, None, None).
Definition rich (m : RichMetadata) : envelope := (r_metadata m, Some (r_severity m), Some (r_metadata_json m)).

(** The zip loop [for i in 0..n]; a missing row panics. *)
Fixpoint zip_rows (n : nat) (tss : list Z) (lvls : list byte) (msgs : list str) (envs : list envelope)
    : result (list LogEntry) :=
  match n with
  | O => Ok []
  | S n' =>
    match tss, lvls, msgs, envs with
    | t :: tss', l :: lvls', m :: msgs', (md, sev, mj) :: envs' =>
      let? rest := zip_rows n' tss' lvls' msgs' envs' in
      Ok (mkEntry t l sev m md mj :: rest)
    | _, _, _, _ => Err panic
    end
  end.

Definition decode_typed (c : byte) (d : Dims) (cols : list (list byte)) (projection : LogProjection)
    : result (list LogEntry) :=
  let n := d_n d in
  let? timestamps := decode_i64 (nth 0 cols []) n in
  let? levels := decode_u8 (nth 1 cols []) n in
  let? _ := check_levels 0 levels in
  let? messages :=
    if negb (p_message projection) then Ok (replicate n [])
    else if byte_eqb c CODEC_RICH_TEMPLATE then decode_template_str (nth 2 cols []) n
    else decode_str (nth 2 cols []) n in
  let is_rich := codec_in c [CODEC_RICH_COLUMNAR; CODEC_RICH_TEMPLATE] in
  let? rich_metadatas :=
    if is_rich && rich_envelope projection then
      let? raw := zstd_decompress (nth 3 cols []) "rich metadata column" in
      parse_rich_metadata_projected raw n projection
    else Ok [] in
  let? metadatas :=
    if negb (p_metadata projection) && negb (p_metadata_pairs projection) then Ok (replicate n [])
    else if byte_eqb c CODEC_COLUMNAR_V2 then decode_pairs_column "metadata" (nth 3 cols []) n parse_metadata
    else if is_rich then Ok []
    else
      let? meta_raw := zstd_decompress (nth 3 cols []) "metadata column" in
      parse_metadata meta_raw n in
  let? out := zip_rows n timestamps levels messages
    (if is_rich && rich_envelope projection then map rich rich_metadatas else map flat metadatas) in
  let? _ := check_block_range "block" n (d_min d) (d_max d) timestamps in
  Ok out.

(** The columns of codecs 1, 2 and 6, those not projected left empty. *)
Definition legacy_columns (c : byte) (cols : list (list byte)) (projection : LogProjection)
    : result (list (list byte)) :=
  let skip_meta := negb (p_metadata projection || p_metadata_pairs projection ||
                         (byte_eqb c CODEC_RICH_RAW && p_severity projection)) in
  let open_col name col := if byte_eqb c CODEC_ZSTD then zstd_decompress col name else Ok col in
  let? c0 := open_col "ts column" (nth 0 cols []) in
  let? c1 := open_col "level column" (nth 1 cols []) in
  let? c2 := if negb (p_message projection) then Ok [] else open_col "message column" (nth 2 cols []) in
  let? c3 := if skip_meta then Ok [] else open_col "metadata column" (nth 3 cols []) in
  Ok [c0; c1; c2; c3].

Definition bad_message (i : Z) : error := Fmt "block: entry {i}: message is not valid UTF-8" [FNum i].

Definition decode_block_legacy (c : byte) (d : Dims) (stored_cols : list (list byte)) (projection : LogProjection)
    : result (list LogEntry) :=
  let n := d_n d in
  let? cols := legacy_columns c stored_cols projection in
  if negb (length (nth 0 cols []) =? n * 8)%nat then
    Err (Fmt "block: ts column is {} bytes, expected {} for {n} entries"
           [FNum (Z.of_nat (length (nth 0 cols []))); FNum (Z.of_nat (n * 8)); FNum (Z.of_nat n)])
  else
    let words := map i64_from_le (as_chunks 8 (nth 0 cols [])) in
    let timestamps := if byte_eqb c CODEC_ZSTD then delta_decode 0 words else words in
    let levels := nth 1 cols [] in
    if negb (length levels =? n)%nat then
      Err (Fmt "block: level column is {} bytes, expected {n}" [FNum (Z.of_nat (length levels)); FNum (Z.of_nat n)])
    else
      let? _ := check_levels 0 levels in
      let? (messages, mr) :=
        if p_message projection
        then read_strs "message length" "message bytes" bad_message 0 n (Reader_new (nth 2 cols []))
        else Ok (replicate n [], Reader_new (nth 2 cols [])) in
      if negb (remaining mr =? 0)%nat then Err (Fmt "block: trailing bytes in message column" [])
      else
        let is_rich := byte_eqb c CODEC_RICH_RAW in
        let? rich_metadatas :=
          if is_rich && rich_envelope projection then parse_rich_metadata_projected (nth 3 cols []) n projection
          else Ok [] in
        let? metadatas :=
          if negb (p_metadata projection) && negb (p_metadata_pairs projection) then Ok (replicate n [])
          else if is_rich then Ok []
          else parse_metadata (nth 3 cols []) n in
        let? out := zip_rows n timestamps levels messages
          (if is_rich && rich_envelope projection then map rich rich_metadatas else map flat metadatas) in
        let? _ := check_block_range "block" n (d_min d) (d_max d) timestamps in
        Ok out.

Definition decode_block_projected (bytes : list byte) (projection : LogProjection) : result (list LogEntry) :=
  let r := Reader_new bytes in
  let? r := read_version r in
  let? (c, r) := rd_u8 "codec" r in
  if negb (known_codec c) then Err (Fmt "block: unknown codec {codec}" [FNum (b2z c)])
  else
    let? (d, r) := read_dims r in
    let? cols := read_columns d r in
    if typed_codec c then decode_typed c d cols projection
    else decode_block_legacy c d cols projection.

Definition decode_block (bytes : list byte) : result (list LogEntry) := decode_block_projected bytes ALL.
End Json.

(** ** The container *)

Lemma push_col_lens_ok cols b :
  push_col_lens cols = Ok b ->
  b = concat (map (fun c => u32_le (Z.of_nat (length c))) cols) /\
  Forall (fun c => is_u32 (Z.of_nat (length c))) cols.
Proof.
  revert b. induction cols as [|c cols IH]; intros b; simpl; [by intros [= <-]|].
  destruct (Z.ltb_spec u32_max (Z.of_nat (length c))); [done|].
  destruct (push_col_lens cols) as [b'|]; [|done]. intros [= <-]. destruct (IH b' eq_refl) as [-> Hf].
  split; [done|]. constructor; [unfold is_u32; lia|done].
Qed.

(** The assembled container. *)
Definition container (c : byte) (n : nat) (lo hi : Z) (lens : list byte) (cols : list (list byte)) : list byte :=
  FORMAT_VERSION :: c :: u32_le (Z.of_nat n) ++ i64_le lo ++ i64_le hi ++ lens ++ concat cols.

Definition container_ok (n : nat) (lo hi : Z) (lens : list byte) (cols : list (list byte)) : Prop :=
  Z.of_nat n <= MAX_BLOCK_ENTRIES /\ is_i64 lo /\ is_i64 hi /\ length cols = 4%nat /\ push_col_lens cols = Ok lens.

(** Every reader of the container sees what was assembled. *)
Lemma read_container c n lo hi lens cols :
  container_ok n lo hi lens cols ->
  exists r1 r2,
    read_version (Reader_new (container c n lo hi lens cols)) = Ok r1 /\ rd_u8 "codec" r1 = Ok (c, r2) /\
    exists r3, read_dims r2 = Ok (mkDims n lo hi (map length cols), r3) /\ rd_at r3 (concat cols ++ []).
Proof.
  intros (Hn & Hlo & Hhi & H4 & Hlens). pose proof Hlens as [-> Hf]%push_col_lens_ok.
  set (bytes := container _ _ _ _ _ _).
  assert (rd_at (Reader_new bytes) bytes) as Hr.
  { apply rd_at_new. unfold bytes, container. do 5 (destruct cols as [|? cols]; try discriminate H4).
    repeat match goal with H : Forall _ (_ :: _) |- _ => inversion_clear H end.
    cbn [map concat]. autorewrite with wire. unfold is_u32, u32_max, i64_max in *. lia. }
  unfold bytes in Hr at 2. unfold container in Hr. unfold read_version.
  rewrite (rd_u8_at _ _ _ _ Hr). apply (rd_at_adv _ [FORMAT_VERSION]) in Hr. simpl length in Hr.
  change (byte_eqb FORMAT_VERSION FORMAT_VERSION) with true. cbn [negb].
  eexists _, (rd_adv 1 (rd_adv 1 (Reader_new bytes))). split; [done|].
  rewrite (rd_u8_at _ _ _ _ Hr). apply (rd_at_adv _ [c]) in Hr. simpl length in Hr. split; [done|].
  unfold read_dims, check_entry_count.
  rewrite (rd_u32_at _ _ _ _ Hr) by (unfold is_u32, u32_max, MAX_BLOCK_ENTRIES in *; lia).
  apply rd_at_adv in Hr. rewrite length_u32_le in Hr.
  destruct (Z.ltb_spec MAX_BLOCK_ENTRIES (Z.of_nat n)); [lia|].
  rewrite (rd_i64_at _ _ _ _ Hr Hlo). apply rd_at_adv in Hr. rewrite length_i64_le in Hr.
  rewrite (rd_i64_at _ _ _ _ Hr Hhi). apply rd_at_adv in Hr. rewrite length_i64_le in Hr.
  destruct (read_lens_at cols ["ts column length"; "level column length"; "message column length";
    "metadata column length"] _ _ ltac:(by rewrite H4) Hf Hr) as (r3 & -> & Hr3).
  exists r3. rewrite Nat2Z.id, List.app_nil_r. by split.
Qed.

Lemma read_columns_at n lo hi cols r :
  length cols = 4%nat -> rd_at r (concat cols ++ []) ->
  read_columns (mkDims n lo hi (map length cols)) r = Ok cols.
Proof.
  intros H4 Hr. unfold read_columns. cbn [d_lens].
  destruct (take_cols_at cols COLUMN_NAMES [] r ltac:(by rewrite H4) Hr) as (r' & -> & Hr').
  by rewrite (rd_at_remaining _ _ Hr').
Qed.

(** ** Rows *)

Definition entry_env (e : LogEntry) : envelope := (metadata e, severity e, metadata_json e).

Lemma zip_rows_ok es :
  zip_rows (length es) (map ts es) (map level es) (map message es) (map entry_env es) = Ok es.
Proof. induction es as [|e es IH]; [done|]. cbn [length map zip_rows entry_env]. rewrite IH. by destruct e. Qed.

Lemma zip_rows_inv n : forall tss lvls msgs envs es,
  zip_rows n tss lvls msgs envs = Ok es ->
  length es = n /\ map ts es = take n tss /\ map level es = take n lvls /\
  map message es = take n msgs /\ map entry_env es = take n envs.
Proof.
  induction n as [|n IH]; intros tss lvls msgs envs es H; cbn [zip_rows] in H; [by injection H as <-|].
  destruct tss as [|t tss]; [done|]. destruct lvls as [|l lvls]; [done|]. destruct msgs as [|m msgs]; [done|].
  destruct envs as [|[[md sev] mj] envs]; [done|].
  destruct (zip_rows n tss lvls msgs envs) as [es'|] eqn:E; [|done]. injection H as <-.
  destruct (IH _ _ _ _ _ E) as (? & ? & ? & ? & ?). cbn. by repeat split; f_equal.
Qed.

Lemma scan_entries_ok es : forall lo hi r,
  scan_entries lo hi es = Ok r ->
  r = fold_left (fun '(a, b) t => (Z.min a t, Z.max b t)) (map ts es) (lo, hi) /\
  Forall (fun e => b2z (level e) <= 3) es.
Proof.
  induction es as [|e es IH]; intros lo hi r H; cbn [scan_entries] in H; [by injection H as <-|].
  destruct (Z.ltb_spec 3 (b2z (level e))); [done|]. apply IH in H as [-> Hf]. by split; [|constructor].
Qed.

Lemma range_i64 tss : forall lo hi,
  Forall is_i64 tss -> is_i64 lo -> is_i64 hi ->
  let r := fold_left (fun '(a, b) t => (Z.min a t, Z.max b t)) tss (lo, hi) in is_i64 r.1 /\ is_i64 r.2.
Proof.
  induction tss as [|t tss IH]; intros lo hi Hf Hlo Hhi; [done|]. apply Forall_cons in Hf as [Ht Hf].
  cbn [fold_left]. apply IH; [done| |]; unfold is_i64 in *; lia.
Qed.

Lemma check_levels_ok i lvls : Forall (fun l => b2z l <= 3) lvls -> check_levels i lvls = Ok tt.
Proof.
  intros H. revert i. induction H as [|l lvls Hl _ IH]; intros i; [done|]. cbn [check_levels].
  destruct (Z.ltb_spec 3 (b2z l)); [lia|done].
Qed.

Lemma check_levels_inv i lvls : check_levels i lvls = Ok tt -> Forall (fun l => b2z l <= 3) lvls.
Proof.
  revert i. induction lvls as [|l lvls IH]; intros i H; [constructor|]. cbn [check_levels] in H.
  destruct (Z.ltb_spec 3 (b2z l)); [done|]. constructor; [lia|by eapply IH].
Qed.

Lemma check_range_ok n tss : length tss = n -> check_block_range "block" n (ts_range tss).1 (ts_range tss).2 tss = Ok tt.
Proof.
  intros <-. unfold check_block_range. rewrite Nat.eqb_refl. cbn [negb]. destruct (ts_range tss) as [a b].
  cbn [fst snd]. by rewrite !Z.eqb_refl.
Qed.

Lemma check_range_inv n lo hi tss :
  check_block_range "block" n lo hi tss = Ok tt -> length tss = n /\ ts_range tss = (lo, hi).
Proof.
  unfold check_block_range. destruct (Nat.eqb_spec (length tss) n); [|done]. cbn [negb].
  destruct (ts_range tss) as [a b]. destruct (Z.eqb_spec a lo); [|done]. destruct (Z.eqb_spec b hi); [|done].
  by subst.
Qed.

(** ** The rich envelope: lemmas *)

Section Rich.
Context `{SJ : SerdeJson} `{SJL : !SerdeJsonLaws}.

Lemma canonical_severity_str s : is_ok (canonical_severity s) = true -> is_str s.
Proof.
  unfold canonical_severity. intros H.
  repeat match type of H with context [one_of s ?l] =>
    let E := fresh "E" in destruct (one_of s l) eqn:E;
    [apply one_of_spec in E; rewrite !elem_of_cons, elem_of_nil in E; clear H;
     repeat match goal with H : _ \/ _ |- _ => destruct H | H : False |- _ => destruct H end;
     subst s; reflexivity|] end.
  done.
Qed.

Lemma entry_json_str e json : entry_json e = Ok json -> is_str json.
Proof using SJL.
  unfold entry_json, canonical_metadata_json, pairs_metadata_json. intros H.
  destruct (metadata_json e) as [j|].
  - destruct (json_from_str j) as [v|]; [|done]. cbn [map_err] in H. destruct v; try done.
    destruct (json_map_to_string _) eqn:E in H; [|done]. injection H as <-. by eapply json_text_valid.
  - destruct (json_map_to_string _) eqn:E in H; [|done]. injection H as <-. by eapply json_text_valid.
Qed.

(** The entries the rich codecs give back: the severity is one the decoder knows,
    and the canonical JSON is stable under canonicalization. *)
Definition rich_ok (e : LogEntry) : Prop :=
  (exists sev, severity_name e = Ok sev /\ is_ok (canonical_severity sev) = true) /\
  (forall json, entry_json e = Ok json ->
     canonical_metadata_json json = Ok json /\ is_ok (metadata_pairs_from_json json) = true).

(** What a block gives back for an entry: the entry itself, or for a rich codec
    the entry with its severity, its canonical JSON and the pairs of that JSON. *)
Definition normalized (c : byte) (e : LogEntry) : result LogEntry :=
  if rich_codec c then
    let? sev := severity_name e in
    let? json := entry_json e in
    let? md := metadata_pairs_from_json json in
    Ok (mkEntry (ts e) (level e) (Some sev) (message e) md (Some json))
  else Ok e.

(** The parsed envelope of a normalized entry. *)
Definition rich_of (e : LogEntry) : RichMetadata :=
  mkRich (default [] (severity e)) (metadata e) (default [] (metadata_json e)).

Lemma parse_rich_at c es : forall i bs rest r,
  rich_codec c = true -> Forall rich_ok es -> map_result rich_entry_bytes es = Ok bs -> rd_at r (concat bs ++ rest) ->
  exists out r', map_result (normalized c) es = Ok out /\
    parse_rich_go ALL i (length es) r = Ok (map rich_of out, r') /\ rd_at r' rest.
Proof using SJL.
  intros i bs rest r Hc Hes. revert i bs rest r.
  induction Hes as [|e es [(sev & Hsev & Hcan) Hjson] _ IH]; intros i bs rest r Hb Hr.
  { injection Hb as <-. by exists [], r. }
  cbn [map_result] in Hb. destruct (rich_entry_bytes e) as [b|] eqn:Eb; [|done].
  destruct (map_result rich_entry_bytes es) as [bs'|] eqn:Em; [|done]. injection Hb as <-.
  unfold rich_entry_bytes in Eb. rewrite Hsev in Eb.
  destruct (Z.ltb_spec u16_max (Z.of_nat (length sev))) as [|Hsl]; [done|].
  destruct (entry_json e) as [json|] eqn:Ej; [|done].
  destruct (Z.ltb_spec u32_max (Z.of_nat (length json))) as [|Hjl]; [done|]. injection Eb as <-.
  destruct (Hjson json eq_refl) as [Hcj Hmp].
  destruct (metadata_pairs_from_json json) as [md|] eqn:Emd; [|done].
  cbn [concat] in Hr. rewrite <-!List.app_assoc in Hr. cbn [length parse_rich_go map_result].
  rewrite (rd_u16_at _ _ _ _ Hr) by lia. apply rd_at_adv in Hr. rewrite length_u16_le in Hr.
  unfold read_severity. rewrite Nat2Z.id, (rd_take_at _ _ _ _ _ Hr eq_refl). apply rd_at_adv in Hr.
  unfold from_utf8. rewrite (canonical_severity_str sev Hcan).
  destruct (canonical_severity sev); [|done]. cbn [map_err].
  unfold read_json. rewrite (rd_u32_at _ _ _ _ Hr) by (unfold is_u32; lia).
  apply rd_at_adv in Hr. rewrite length_u32_le in Hr.
  rewrite Nat2Z.id, (rd_take_at _ _ _ _ _ Hr eq_refl). apply rd_at_adv in Hr.
  unfold from_utf8. rewrite (entry_json_str e json Ej). cbn [ALL p_metadata p_metadata_pairs orb].
  rewrite Hcj. cbn [map_err]. rewrite Emd.
  destruct (IH (S i) bs' rest _ eq_refl Hr) as (out & r' & Hout & Hgo & Hr').
  unfold normalized at 1. rewrite Hc, Hsev, Ej, Emd, Hout. eexists _, r'. split; [done|].
  rewrite Hgo. done.
Qed.

Lemma rich_metadata_round c es raw :
  rich_codec c = true -> Forall rich_ok es -> serialize_rich_metadata es = Ok raw -> vec_fits 1 raw ->
  exists out, map_result (normalized c) es = Ok out /\
    parse_rich_metadata_projected raw (length es) ALL = Ok (map rich_of out).
Proof using SJL.
  intros Hc Hes Hs Hf. unfold serialize_rich_metadata in Hs.
  destruct (map_result rich_entry_bytes es) as [bs|] eqn:Eb; [|done]. injection Hs as <-.
  assert (rd_at (Reader_new (concat bs)) (concat bs ++ [])) as Hr.
  { rewrite List.app_nil_r. apply rd_at_new. unfold vec_fits in Hf. lia. }
  destruct (parse_rich_at c es 0 bs [] _ Hc Hes Eb Hr) as (out & r' & Hout & Hgo & Hr').
  exists out. split; [done|]. unfold parse_rich_metadata_projected, check_rich_end.
  by rewrite Hgo, (rd_at_remaining _ _ Hr').
Qed.

(** Normalization keeps the plain columns, and yields full envelopes. *)
Lemma normalized_columns c es out :
  map_result (normalized c) es = Ok out ->
  length out = length es /\ map ts out = map ts es /\ map level out = map level es /\
  map message out = map message es /\
  (rich_codec c = true -> map rich (map rich_of out) = map entry_env out) /\
  (rich_codec c = false -> out = es).
Proof.
  intros H%map_result_Forall2. induction H as [|e e' es out He _ IH]; [done|].
  destruct IH as (I1 & I2 & I3 & I4 & I5 & I6). unfold normalized in He. destruct (rich_codec c).
  - destruct (severity_name e) as [sev|]; [|done]. destruct (entry_json e) as [json|]; [|done].
    destruct (metadata_pairs_from_json json) as [md|]; [|done]. injection He as <-.
    cbn. rewrite I1, I2, I3, I4, I5 by done. done.
  - injection He as <-. cbn. rewrite I1, I2, I3, I4. split_and!; try done. intros _. by rewrite I6.
Qed.
End Rich.

(** ** Round trip *)

Lemma codec_in_spec c l : codec_in c l = true <-> c ∈ l.
Proof.
  unfold codec_in. rewrite existsb_exists, list_elem_of_In. setoid_rewrite byte_eqb_eq. naive_solver.
Qed.

(** The possible codecs of a goal, one by one. *)
Ltac codec_cases H :=
  apply codec_in_spec in H; rewrite !elem_of_cons, elem_of_nil in H;
  repeat match type of H with _ \/ _ => destruct H as [H|H] | False => destruct H end.

Definition entry_valid (e : LogEntry) : Prop :=
  is_i64 (ts e) /\ is_str (message e) /\ Forall pair_valid (metadata e).

Lemma flat_envelopes es : existsb is_rich es = false -> map flat (map metadata es) = map entry_env es.
Proof.
  induction es as [|e es IH]; [done|]. cbn [existsb map]. intros [He H]%orb_false_iff. rewrite IH by done.
  f_equal. unfold is_rich in He. unfold flat, entry_env.
  destruct (severity e); [done|]. by destruct (metadata_json e).
Qed.

Lemma fits_column msgs : messages_fit msgs -> str_column_fits msgs.
Proof.
  unfold messages_fit, str_column_fits. pose proof (strs_size_length msgs). intros. lia.
Qed.

Lemma message_blob_concat msgs b : message_blob msgs = Ok b -> concat_strs msgs = Ok b.
Proof.
  revert b. induction msgs as [|m msgs IH]; intros b H; [done|]. cbn [message_blob concat_strs] in *.
  destruct (_ <? _); [done|]. destruct (message_blob msgs) as [b'|]; [|done]. by rewrite (IH b').
Qed.

Section RoundTrip.
Context `{SJ : SerdeJson} `{SJL : !SerdeJsonLaws} `{ZS : Zstd} `{ZL : !ZstdLaws} `{PI : !Pco Z} `{PIL : !PcoLaws is_i64}.

Definition meta_raw (c : byte) (es : list LogEntry) : result (list byte) :=
  if rich_codec c then serialize_rich_metadata es else serialize_metadata es.

(** The greatest column the decoder of a codec admits: the 64 MiB of a decompressed
    column, or what is addressable where nothing is compressed. *)
Definition column_cap (c : byte) : Z := if is_raw_codec c then i64_max else DECOMPRESS_MAX_BYTES.

(** The blocks the decoder's bounds are sure to admit. A template block has more
    columns than its messages, so its messages are bounded by [messages_fit]. *)
Definition block_fits (c : byte) (es : list LogEntry) : Prop :=
  Z.of_nat (length es) <= MAX_BLOCK_ENTRIES /\
  (if byte_eqb c CODEC_RICH_TEMPLATE then messages_fit (map message es)
   else Z.of_nat (strs_size (map message es)) <= column_cap c) /\
  (forall raw, meta_raw c es = Ok raw -> Z.of_nat (length raw) <= column_cap c).

Lemma typed_cap c : typed_codec c = true -> column_cap c = DECOMPRESS_MAX_BYTES.
Proof. intros Ht. codec_cases Ht; by subst c. Qed.

Lemma cap_addressable c : column_cap c <= i64_max.
Proof. unfold column_cap, DECOMPRESS_MAX_BYTES, i64_max. destruct (is_raw_codec c); lia. Qed.

Lemma typed_messages_fit c es :
  typed_codec c = true -> block_fits c es ->
  str_column_fits (map message es) /\ (c = CODEC_RICH_TEMPLATE -> messages_fit (map message es)).
Proof.
  intros Ht (Hn & Hm & _). destruct (byte_eqb c CODEC_RICH_TEMPLATE) eqn:Ec; [split; [by apply fits_column|done]|].
  split; [|intros ->; discriminate Ec]. rewrite (typed_cap c Ht) in Hm. split; [done|].
  rewrite length_map. unfold MAX_BLOCK_ENTRIES, DECOMPRESS_MAX_BYTES in *. lia.
Qed.

Lemma message_column_round es c level c' col :
  message_column es c level = Ok (c', col) ->
  Forall is_str (map message es) -> typed_codec c = true -> block_fits c es ->
  (if byte_eqb c' CODEC_RICH_TEMPLATE then decode_template_str col (length es) else decode_str col (length es))
    = Ok (map message es) /\
  (c' = c \/ (c = CODEC_RICH_TEMPLATE /\ c' = CODEC_RICH_COLUMNAR)).
Proof using ZL PIL.
  intros H Hv Ht Hbf. destruct (typed_messages_fit c es Ht Hbf) as [Hsf Hf]. unfold message_column in H.
  rewrite <-(length_map message es) in *.
  destruct (encode_str _ _ level) as [enc|] eqn:Ee; [|done]. destruct (to_bytes enc) as [b|] eqn:Eb; [|done].
  pose proof (str_round _ _ _ _ Hv Hsf Ee Eb) as Hstr.
  destruct (byte_eqb c CODEC_RICH_TEMPLATE) eqn:Ec.
  - destruct (encode_template_str _ level) as [tpl|] eqn:Et; [|done]. apply byte_eqb_eq in Ec as ->.
    destruct (_ <? _)%nat; injection H as <- <-; [|by split; [|right]].
    destruct (encode_template_mode _ _ _ Et) as [sr Hm]. split; [|by left].
    change (byte_eqb CODEC_RICH_TEMPLATE CODEC_RICH_TEMPLATE) with true. cbn iota. eapply encode_mode_round; [exact Hv|by apply Hf|exact Hm].
  - injection H as <- <-. rewrite Ec. by split; [|left].
Qed.

(** The fourth column of a typed block. *)
Lemma typed_metadata_round es c raw level col :
  typed_codec c = true -> rich_codec c = false -> meta_raw c es = Ok raw -> block_fits c es ->
  Forall (Forall pair_valid) (map metadata es) -> is_u32 (Z.of_nat (length col)) ->
  (if byte_eqb c CODEC_COLUMNAR_V2 then encode_pairs_column (map metadata es) raw level
   else zstd_compress raw level) = Ok col ->
  (if byte_eqb c CODEC_COLUMNAR_V2 then decode_pairs_column "metadata" col (length es) parse_metadata
   else let? meta_raw := zstd_decompress col "metadata column" in parse_metadata meta_raw (length es))
  = Ok (map metadata es).
Proof using ZL.
  intros Ht Hr Hraw (Hn & _ & Hsz) Hv Hu He. specialize (Hsz raw Hraw). rewrite typed_cap in Hsz by done. unfold meta_raw in Hraw. rewrite Hr in Hraw.
  assert (vec_fits 1 raw) as Hfr by (unfold vec_fits, i64_max, DECOMPRESS_MAX_BYTES in *; lia).
  pose proof (metadata_round es raw Hraw Hv Hfr) as Hparse.
  destruct (byte_eqb c CODEC_COLUMNAR_V2).
  - destruct (serialize_metadata_inv _ _ Hraw) as (_ & _ & _ & Hlen). rewrite <-(length_map metadata es).
    eapply pairs_column_round; try done.
    + split; [by rewrite <-Hlen|by rewrite length_map].
    + by rewrite length_map.
    + unfold vec_fits, is_u32, u32_max, i64_max in *. lia.
  - unfold zstd_decompress. by rewrite (zstd_compress_round _ _ _ _ _ He Hsz), Hparse.
Qed.

Context (es : list LogEntry) (c : byte) (level : Z) (raw : list byte).
Context (Hvalid : Forall entry_valid es) (Hfits : block_fits c es) (Hraw : meta_raw c es = Ok raw).
Context (Hlevels : Forall (fun e => b2z (LogEntry.level e) <= 3) es).
Context (Hflat : rich_codec c = false -> existsb is_rich es = false) (Hrich : rich_codec c = true -> Forall rich_ok es).

Lemma valid_columns :
  Forall is_i64 (map ts es) /\ Forall is_str (map message es) /\ Forall (Forall pair_valid) (map metadata es) /\
  check_levels 0 (map LogEntry.level es) = Ok tt /\ vec_fits 8 (map ts es).
Proof using Hvalid Hlevels Hfits.
  rewrite !Forall_map. split_and!; try (eapply Forall_impl; [exact Hvalid|]; unfold entry_valid; tauto).
  - apply check_levels_ok. by rewrite Forall_map.
  - unfold vec_fits. rewrite length_map. destruct Hfits as (Hn & _).
    unfold MAX_BLOCK_ENTRIES, i64_max in *. lia.
Qed.

Lemma range_check lo hi :
  ts_range (map ts es) = (lo, hi) -> check_block_range "block" (length es) lo hi (map ts es) = Ok tt.
Proof using.
  intros Hr. pose proof (check_range_ok (length es) (map ts es) (length_map _ _)) as H. by rewrite Hr in H.
Qed.

(** What the decoders make of the fourth column, for both kinds of codec. *)
Lemma envelopes_round :
  (exists out, rich_codec c = true /\ map_result (normalized c) es = Ok out /\
     parse_rich_metadata_projected raw (length es) ALL = Ok (map rich_of out)) \/
  (rich_codec c = false /\ map_result (normalized c) es = Ok es /\ parse_metadata raw (length es) = Ok (map metadata es)).
Proof using SJL Hvalid Hfits Hraw Hrich Hflat.
  destruct Hfits as (_ & _ & Hsz). specialize (Hsz raw Hraw). pose proof (cap_addressable c).
  assert (vec_fits 1 raw) as Hfr by (unfold vec_fits; lia).
  unfold meta_raw in Hraw. destruct (rich_codec c) eqn:Ec.
  - left. destruct (rich_metadata_round c es raw Ec (Hrich eq_refl) Hraw Hfr) as (out & Ho & Hp). by exists out.
  - right. split_and!; [done| |].
    + apply map_result_Forall2, Forall_Forall2_diag, Forall_true. intros e. unfold normalized. by rewrite Ec.
    + apply metadata_round; try done. rewrite Forall_map. eapply Forall_impl; [exact Hvalid|].
      unfold entry_valid. tauto.
Qed.

Lemma decode_typed_round c' cols lens lo hi :
  typed_codec c = true -> typed_columns es c raw level = Ok (c', cols) -> push_col_lens cols = Ok lens ->
  ts_range (map ts es) = (lo, hi) ->
  length cols = 4%nat /\ typed_codec c' = true /\ (c' = c \/ (c = CODEC_RICH_TEMPLATE /\ c' = CODEC_RICH_COLUMNAR)) /\
  exists out, map_result (normalized c) es = Ok out /\
    forall dl, decode_typed c' (mkDims (length es) lo hi dl) cols ALL = Ok out.
Proof using SJL ZL PIL Hvalid Hfits Hraw Hrich Hflat Hlevels.
  intros Ht Hcols Hlens Hr. destruct valid_columns as (Hts & Hmsg & Hmd & Hlv & Hv8).
  unfold typed_columns in Hcols.
  destruct (if byte_eqb c CODEC_COLUMNAR_V2 then _ else _) as [col_meta|] eqn:Emeta; [|done].
  destruct (message_column es c level) as [[c1 col_msg]|] eqn:Emsg; [|done].
  destruct (encode_i64 (map ts es) level) as [ets|] eqn:Ets; [|done].
  destruct (to_bytes ets) as [col_ts|] eqn:Bts; [|done].
  destruct (encode_u8 (map LogEntry.level es) level) as [elv|] eqn:Elv; [|done].
  destruct (to_bytes elv) as [col_lvl|] eqn:Blv; [|done]. injection Hcols as <- <-.
  apply push_col_lens_ok in Hlens as [_ Hu]. rewrite !Forall_cons in Hu. destruct Hu as (_ & _ & _ & Hum & _).
  destruct (message_column_round _ _ _ _ _ Emsg Hmsg Ht Hfits) as [Hdec Hc1].
  pose proof (i64_round _ _ _ _ Hts Hv8 Ets Bts) as Hd0. rewrite length_map in Hd0.
  pose proof (u8_round _ _ _ _ Elv Blv) as Hd1. rewrite length_map in Hd1.
  assert (typed_codec c1 = true /\ rich_codec c1 = rich_codec c /\ byte_eqb c1 CODEC_COLUMNAR_V2 = byte_eqb c CODEC_COLUMNAR_V2 /\
    codec_in c1 [CODEC_RICH_COLUMNAR; CODEC_RICH_TEMPLATE] = rich_codec c) as (Ht1 & Hr1 & Hv2 & Hric).
  { destruct Hc1 as [->|[-> ->]]; [|done]. split_and!; try done. codec_cases Ht; subst c; reflexivity. }
  split_and!; try done.
  destruct envelopes_round as [(out & Hrc & Hout & Hparse)|(Hrc & Hout & Hparse)]; (eexists; split; [exact Hout|]);
    intros dl; unfold decode_typed; cbn [d_n d_min d_max nth]; rewrite Hd0, Hd1, Hlv; cbn [ALL p_message negb];
    rewrite Hdec, Hric, Hv2, Hrc; cbn [ALL p_metadata p_metadata_pairs p_severity rich_envelope orb andb negb].
  - assert (byte_eqb c CODEC_COLUMNAR_V2 = false) as Hnv by (codec_cases Ht; subst c; done).
    rewrite Hnv in Emeta |- *. unfold zstd_decompress.
    pose proof (proj2 (proj2 Hfits) raw Hraw) as Hsz. rewrite typed_cap in Hsz by done.
    rewrite (zstd_compress_round _ _ _ _ _ Emeta Hsz), Hparse.
    destruct (normalized_columns _ _ _ Hout) as (N1 & N2 & N3 & N4 & N5 & _).
    rewrite N5 by done. rewrite <-N1, <-N2, <-N3, <-N4, zip_rows_ok, N1, N2. by rewrite range_check.
  - pose proof (typed_metadata_round es c raw level col_meta Ht Hrc Hraw Hfits Hmd Hum Emeta) as Hm.
    destruct (byte_eqb c CODEC_COLUMNAR_V2).
    + rewrite Hm, flat_envelopes, zip_rows_ok by auto. by rewrite range_check.
    + rewrite Hm, flat_envelopes, zip_rows_ok by auto. by rewrite range_check.
Qed.

Lemma decode_legacy_round cols lo hi :
  typed_codec c = false -> known_codec c = true -> plain_columns es c raw level = Ok cols ->
  ts_range (map ts es) = (lo, hi) ->
  length cols = 4%nat /\
  exists out, map_result (normalized c) es = Ok out /\
    forall dl, decode_block_legacy c (mkDims (length es) lo hi dl) cols ALL = Ok out.
Proof using SJL ZL Hvalid Hfits Hraw Hrich Hflat Hlevels.
  intros Ht Hk Hcols Hr. destruct valid_columns as (Hts & Hmsg & Hmd & Hlv & Hv8).
  destruct Hfits as (Hn & Hmf & Hsz). specialize (Hsz raw Hraw). unfold plain_columns in Hcols.
  destruct (message_blob (map message es)) as [blob|] eqn:Eb; [|done]. apply message_blob_concat in Eb.
  set (words := if is_raw_codec c then map ts es else delta_encode 0 (map ts es)) in *.
  assert (Forall is_i64 words /\ length words = length es /\
          (if byte_eqb c CODEC_ZSTD then delta_decode 0 words else words) = map ts es) as (Hw & Hwl & Hwd).
  { unfold words. codec_cases Hk; subst c; try discriminate Ht;
      [change (is_raw_codec CODEC_RAW) with true; change (byte_eqb CODEC_RAW CODEC_ZSTD) with false
      |change (is_raw_codec CODEC_ZSTD) with false; change (byte_eqb CODEC_ZSTD CODEC_ZSTD) with true
      |change (is_raw_codec CODEC_RICH_RAW) with true; change (byte_eqb CODEC_RICH_RAW CODEC_ZSTD) with false];
      cbn iota; rewrite ?length_delta_encode, ?length_map; split_and!;
      auto using delta_encode_i64, delta_round. }
  assert (map i64_from_le (as_chunks 8 (i64s_to_le_bytes words)) = words) as Hchunks
    by (apply (chunks_decode i64_le i64_from_le is_i64); auto using length_i64_le, i64_from_le_bytes).
  assert (length (i64s_to_le_bytes words) = (length es * 8)%nat) as Hlen0.
  { unfold i64s_to_le_bytes. rewrite (chunks_length i64_le length_i64_le). lia. }
  pose proof (concat_strs_length _ _ Eb) as Hbl.
  assert (Z.of_nat (length blob) <= column_cap c) as Hblob.
  { destruct (byte_eqb c CODEC_RICH_TEMPLATE) eqn:E8; [apply byte_eqb_eq in E8; by subst c|lia]. }
  pose proof (cap_addressable c) as Hcap.
  assert (legacy_columns c cols ALL = Ok [i64s_to_le_bytes words; map LogEntry.level es; blob; raw] /\ length cols = 4%nat)
    as [Hopen H4].
  { destruct (byte_eqb c CODEC_ZSTD) eqn:Ez.
    - assert (column_cap c = DECOMPRESS_MAX_BYTES) as Hzc by (apply byte_eqb_eq in Ez; by subst c).
      rewrite Hzc in Hblob, Hsz. apply map_result_Forall2 in Hcols.
      repeat match type of Hcols with Forall2 _ (_ :: _) _ => inversion Hcols as [|? ? ? ? ? Hcols']; clear Hcols; rename Hcols' into Hcols; subst end.
      inversion Hcols; subst. unfold legacy_columns, zstd_decompress. rewrite Ez.
      cbn [ALL p_message p_metadata p_metadata_pairs orb negb nth].
      repeat match goal with E : zstd_compress _ _ = Ok _ |- _ =>
        rewrite (zstd_compress_round _ _ _ _ DECOMPRESS_MAX_BYTES E)
          by (rewrite ?Hlen0, ?length_map; unfold DECOMPRESS_MAX_BYTES, MAX_BLOCK_ENTRIES in *; lia); clear E end.
      done.
    - injection Hcols as <-. unfold legacy_columns. by rewrite Ez. }
  split; [done|].
  assert (rd_at (Reader_new blob) (blob ++ [])) as Hrd.
  { rewrite List.app_nil_r. apply rd_at_new. lia. }
  pose proof (read_strs_at "message length" "message bytes" bad_message _ _ _ _ 0 Eb Hmsg Hrd) as Hread.
  apply rd_at_adv in Hrd. rewrite length_map in Hread.
  assert (byte_eqb c CODEC_RICH_RAW = rich_codec c) as Hric by (codec_cases Hk; subst c; try discriminate Ht; reflexivity).
  destruct envelopes_round as [(out & Hrc & Hout & Hparse)|(Hrc & Hout & Hparse)]; (eexists; split; [exact Hout|]);
    intros dl; unfold decode_block_legacy; cbn [d_n d_min d_max]; rewrite Hopen; cbn [nth];
    rewrite Hlen0, Nat.eqb_refl, length_map, Nat.eqb_refl; cbn [negb]; rewrite Hchunks, Hwd, Hlv;
    cbn [ALL p_message]; rewrite Hread, (rd_at_remaining _ _ Hrd); cbn [length Nat.eqb negb];
    rewrite Hric, Hrc; cbn [ALL p_metadata p_metadata_pairs p_severity rich_envelope orb andb negb]; rewrite Hparse.
  - destruct (normalized_columns _ _ _ Hout) as (N1 & N2 & N3 & N4 & N5 & _).
    rewrite N5 by done. rewrite <-N1, <-N2, <-N3, <-N4, zip_rows_ok, N1, N2. by rewrite range_check.
  - rewrite flat_envelopes, zip_rows_ok by auto. by rewrite range_check.
Qed.
End RoundTrip.

Section Theorems.
Context `{SJ : SerdeJson} `{SJL : !SerdeJsonLaws} `{ZS : Zstd} `{ZL : !ZstdLaws} `{PI : !Pco Z} `{PIL : !PcoLaws is_i64}.

(** Unfolding an encode that succeeded. *)
Lemma encode_block_inv es c zl bytes m :
  encode_block es c zl = Ok (bytes, m) ->
  exists lo hi raw c' cols lens,
    es <> [] /\ known_codec c = true /\ (rich_codec c = false -> existsb is_rich es = false) /\
    scan_entries i64_max i64_min es = Ok (lo, hi) /\ meta_raw c es = Ok raw /\
    (if typed_codec c then typed_columns es c raw zl
     else let? cols := plain_columns es c raw zl in Ok (c, cols)) = Ok (c', cols) /\
    push_col_lens cols = Ok lens /\
    bytes = container c' (length es) lo hi lens cols /\ m = mkMeta lo hi (Z.of_nat (length es)) c'.
Proof.
  unfold encode_block. destruct es as [|e es]; [done|]. set (l := e :: es). intros H.
  destruct (known_codec c) eqn:Ek; [|done]. cbn [negb] in H.
  destruct (_ <? _); [done|]. destruct (negb (rich_codec c) && existsb is_rich l) eqn:Er; [done|].
  destruct (scan_entries _ _ l) as [[lo hi]|] eqn:Es; [|done].
  destruct (if rich_codec c then _ else _) as [raw|] eqn:Em; [|done].
  destruct (if typed_codec c then _ else _) as [[c' cols]|] eqn:Ec; [|done].
  destruct (push_col_lens cols) as [lens|] eqn:El; [|done]. injection H as <- <-.
  exists lo, hi, raw, c', cols, lens. split_and!; try done.
  intros Hr. rewrite Hr in Er. exact Er.
Qed.

(** The block a successful encode wrote, as the readers of the container see it. *)
Lemma encode_block_container es c zl bytes m :
  Forall entry_valid es -> block_fits c es -> (rich_codec c = true -> Forall rich_ok es) ->
  encode_block es c zl = Ok (bytes, m) ->
  exists c' cols lens out,
    bytes = container c' (length es) (ts_min m) (ts_max m) lens cols /\
    container_ok (length es) (ts_min m) (ts_max m) lens cols /\ known_codec c' = true /\
    m = mkMeta (ts_range (map ts es)).1 (ts_range (map ts es)).2 (Z.of_nat (length es)) c' /\
    (c' = c \/ (c = CODEC_RICH_TEMPLATE /\ c' = CODEC_RICH_COLUMNAR)) /\
    map_result (normalized c) es = Ok out /\
    forall dl, (if typed_codec c' then decode_typed c' (mkDims (length es) (ts_min m) (ts_max m) dl) cols ALL
                else decode_block_legacy c' (mkDims (length es) (ts_min m) (ts_max m) dl) cols ALL) = Ok out.
Proof using SJL ZL PIL.
  intros Hv Hf Hrich He.
  destruct (encode_block_inv _ _ _ _ _ He) as (lo & hi & raw & c' & cols & lens & Hne & Hk & Hflat & Hs & Hraw & Hcols & Hlens & -> & ->).
  apply scan_entries_ok in Hs as [Hr Hlv].
  assert (is_i64 lo /\ is_i64 hi) as [Hlo Hhi].
  { pose proof (range_i64 (map ts es) i64_max i64_min) as H. rewrite <-Hr in H. apply H; [|done..].
    rewrite Forall_map. eapply Forall_impl; [exact Hv|]. unfold entry_valid. tauto. }
  assert (ts_range (map ts es) = (lo, hi)) as Hrange by (symmetry; exact Hr).
  rewrite Hrange. cbn [ts_min ts_max fst snd].
  destruct (typed_codec c) eqn:Et.
  - destruct (decode_typed_round es c zl raw Hv Hf Hraw Hlv Hflat Hrich c' cols lens lo hi Et Hcols Hlens Hrange)
      as (H4 & Ht' & Hc' & out & Hout & Hdec).
    exists c', cols, lens, out. split_and!; try done.
    + by destruct Hf.
    + destruct Hc' as [->|[-> ->]]; done.
    + intros dl. by rewrite Ht'.
  - destruct (plain_columns es c raw zl) as [cols'|] eqn:Ep; [|done]. injection Hcols as <- <-.
    destruct (decode_legacy_round es c zl raw Hv Hf Hraw Hlv Hflat Hrich cols' lo hi Et Hk Ep Hrange)
      as (H4 & out & Hout & Hdec).
    exists c, cols', lens, out. split_and!; try done; [by destruct Hf|by left|].
    intros dl. by rewrite Et.
Qed.

Lemma block_round (es : list LogEntry) (c : byte) (zl : Z) (bytes : list byte) (m : BlockMeta) :
  Forall entry_valid es -> block_fits c es -> (rich_codec c = true -> Forall rich_ok es) ->
  encode_block es c zl = Ok (bytes, m) ->
  exists out, map_result (normalized c) es = Ok out /\ decode_block bytes = Ok out /\
    ts_min m = (ts_range (map ts es)).1 /\ ts_max m = (ts_range (map ts es)).2 /\
    entry_count m = Z.of_nat (length es) /\
    (codec m = c \/ (c = CODEC_RICH_TEMPLATE /\ codec m = CODEC_RICH_COLUMNAR)).
Proof using SJL ZL PIL.
  intros Hv Hf Hrich He.
  destruct (encode_block_container _ _ _ _ _ Hv Hf Hrich He)
    as (c' & cols & lens & out & -> & Hok & Hk & Hm & Hc' & Hout & Hdec).
  exists out. split_and!; [done| |by rewrite Hm..].
  unfold decode_block, decode_block_projected.
  destruct (read_container c' _ _ _ _ _ Hok) as (r1 & r2 & -> & -> & r3 & -> & Hr3).
  rewrite Hk. cbn [negb]. destruct Hok as (_ & _ & _ & H4 & _). rewrite (read_columns_at _ _ _ _ _ H4 Hr3). apply Hdec.
Qed.

(** C1: A block decodes to its entries under every codec. For valid entries within
    the decoder's bounds, what [encode_block] writes, [decode_block] reads back:
    the very entries for the flat codecs, and for the rich codecs the entries with
    their severity, canonical JSON and its pairs. The returned metadata is the
    exact count and timestamp range, and the codec that was written, which
    differs from the requested one only when templates lost to codec 7. *)
Theorem block_round_trip (es : list LogEntry) (c : byte) (zl : Z) (bytes : list byte) (m : BlockMeta) :
  Forall entry_valid es -> block_fits c es -> (rich_codec c = true -> Forall rich_ok es) ->
  encode_block es c zl = Ok (bytes, m) ->
  exists out, map_result (normalized c) es = Ok out /\ decode_block bytes = Ok out /\
    ts_min m = (ts_range (map ts es)).1 /\ ts_max m = (ts_range (map ts es)).2 /\
    entry_count m = Z.of_nat (length es) /\
    (codec m = c \/ (c = CODEC_RICH_TEMPLATE /\ codec m = CODEC_RICH_COLUMNAR)).
Proof using SJL ZL PIL. apply block_round. Qed.

(** ** Flat entries under a rich codec *)

Lemma btm_collect_strings (pairs : pairs_of) :
  btm_wf pairs -> btm_collect (map (prod_map id (@VString json_number)) pairs) = map (prod_map id VString) pairs.
Proof.
  unfold btm_collect. intros Hwf.
  assert (forall m : pairs_of, btm_wf (m ++ pairs) ->
    fold_left (fun m p => btm_insert p.1 p.2 m) (map (prod_map id (@VString json_number)) pairs) (map (prod_map id VString) m)
    = map (prod_map id VString) (m ++ pairs)) as H; [|by apply (H [])].
  clear Hwf. induction pairs as [|[k v] pairs IH]; intros m Hwf; cbn [map fold_left]; [by rewrite List.app_nil_r|].
  assert (btm_insert k (VString v) (map (prod_map id (@VString json_number)) m)
          = map (prod_map id VString) (m ++ [(k, v)])) as Hins.
  { rewrite map_app. cbn [map].
    assert (Forall (fun x => klt x k) m.*1) as Hlt.
    { apply bts_wf_snoc. unfold btm_wf in Hwf. rewrite fmap_app in Hwf. cbn [fmap list_fmap] in Hwf.
      rewrite (List.app_assoc _ [k] _ : m.*1 ++ k :: _ = _) in Hwf. by eapply StronglySorted_app_1_l. }
    clear -Hlt. induction m as [|[k0 v0] m IH]; [done|]. apply Forall_cons in Hlt as [H0 Hlt].
    cbn [map prod_map btm_insert app fst]. cbn [prod_map id]. cbn in H0.
    rewrite (kcmp_antisym k0 k), H0. cbn [CompOpp]. by rewrite (IH Hlt). }
  change (prod_map id (@VString json_number) (k, v)).1 with k.
  change (prod_map id (@VString json_number) (k, v)).2 with (@VString json_number v).
  rewrite Hins, IH by (by rewrite <-List.app_assoc). by rewrite <-List.app_assoc.
Qed.

Lemma low_level b : b2z b <= 3 -> b = x00 \/ b = x01 \/ b = x02 \/ b = x03.
Proof.
  intros H. rewrite <-(z2b_b2z b). pose proof (b2z_range b).
  assert (b2z b = 0 \/ b2z b = 1 \/ b2z b = 2 \/ b2z b = 3) as [->|[->|[->| ->]]] by lia; auto.
Qed.

(** What a rich codec makes of an entry without severity and typed JSON. *)
Definition enriched (e e' : LogEntry) : Prop :=
  exists sev json, level_name (LogEntry.level e) = Ok sev /\ entry_json e = Ok json /\
    metadata_pairs_from_json json = Ok (metadata e) /\
    e' = mkEntry (ts e) (LogEntry.level e) (Some sev) (message e) (metadata e) (Some json).

Lemma flat_entry_normalized (e : LogEntry) (c : byte) (json : str) :
  rich_codec c = true -> is_rich e = false -> b2z (LogEntry.level e) <= 3 ->
  btm_wf (metadata e) -> Forall pair_valid (metadata e) -> entry_json e = Ok json ->
  rich_ok e /\ forall e', normalized c e = Ok e' -> enriched e e'.
Proof using SJL.
  intros Hc Hr Hl Hwf Hv Hj. unfold is_rich in Hr.
  destruct (severity e) eqn:Esev; [done|]. destruct (metadata_json e) eqn:Emj; [done|].
  assert (exists sev, level_name (LogEntry.level e) = Ok sev /\ is_ok (canonical_severity sev) = true) as (sev & Hsev & Hcan).
  { destruct (low_level _ Hl) as [->|[->|[->| ->]]]; eexists; split; reflexivity. }
  assert (severity_name e = Ok sev) as Hsn by (unfold severity_name; by rewrite Esev).
  pose proof Hj as Hj'. unfold entry_json in Hj'. rewrite Emj in Hj'. unfold pairs_metadata_json in Hj'.
  rewrite btm_collect_strings in Hj' by done.
  destruct (json_map_to_string _) as [s|] eqn:Es in Hj'; [|done]. injection Hj' as ->.
  pose proof (json_strings_round_trip _ _ Hwf Hv Es) as Hparse.
  assert (metadata_pairs_from_json json = Ok (metadata e)) as Hmp.
  { unfold metadata_pairs_from_json. rewrite Hparse. cbn [map_err]. f_equal. rewrite map_map.
    rewrite <-(map_id (metadata e)) at 2. apply map_ext. by intros []. }
  split.
  - split; [by exists sev|]. intros j. rewrite Hj. intros [= <-]. rewrite Hmp. split; [|done].
    unfold canonical_metadata_json. rewrite Hparse. cbn [map_err]. rewrite btm_collect_strings by done. by rewrite Es.
  - intros e'. unfold normalized. rewrite Hc, Hsn, Hj, Hmp. intros [= <-]. by exists sev, json.
Qed.

(** An entry that was serialized has a JSON object. *)
Lemma rich_entries_json es raw :
  serialize_rich_metadata es = Ok raw -> Forall (fun e => exists json, entry_json e = Ok json) es.
Proof.
  unfold serialize_rich_metadata. destruct (map_result rich_entry_bytes es) as [bs|] eqn:E; [|done]. intros _.
  apply map_result_Forall2 in E. induction E as [|e b es bs He _ IH]; constructor; [|done].
  unfold rich_entry_bytes in He. destruct (severity_name e); [|done]. destruct (_ <? _); [done|].
  destruct (entry_json e) as [json|]; [by exists json|done].
Qed.

(** C25: Entries without severity and typed JSON survive a rich codec. When
    [encode_block] writes them under one of the three rich codecs, within the
    decoder's bounds and with their metadata sorted by key, [decode_block] returns
    the same timestamps, levels, messages and metadata pairs in the same order; each
    entry comes back with the name of its level as its severity and with a JSON
    object, the one of its pairs. *)
Theorem flat_entries_survive_rich (es : list LogEntry) (c : byte) (zl : Z) (bytes : list byte) (m : BlockMeta) :
  rich_codec c = true -> Forall entry_valid es -> block_fits c es ->
  Forall (fun e => is_rich e = false /\ btm_wf (metadata e)) es ->
  encode_block es c zl = Ok (bytes, m) ->
  exists out, decode_block bytes = Ok out /\ Forall2 enriched es out.
Proof using SJL ZL PIL.
  intros Hc Hv Hf Hflat He.
  destruct (encode_block_inv _ _ _ _ _ He) as (lo & hi & raw & c' & cols & lens & _ & _ & _ & Hs & Hraw & _).
  apply scan_entries_ok in Hs as [_ Hlv]. unfold meta_raw in Hraw. rewrite Hc in Hraw. apply rich_entries_json in Hraw.
  assert (Forall (fun e => rich_ok e /\ forall e', normalized c e = Ok e' -> enriched e e') es) as Hall.
  { rewrite Forall_forall in Hv, Hflat, Hlv, Hraw |- *. intros e Hin. destruct (Hraw e Hin) as [json Hj].
    destruct (Hflat e Hin) as [Hr Hwf]. destruct (Hv e Hin) as (_ & _ & Hp).
    apply (flat_entry_normalized e c json); auto. }
  destruct (block_round es c zl bytes m Hv Hf) as (out & Hout & Hdec & _); [|done|].
  { intros _. eapply Forall_impl; [exact Hall|]. by intros e []. }
  exists out. split; [done|]. apply map_result_Forall2 in Hout.
  clear -Hout Hall. induction Hout as [|e e' es out He _ IH]; [constructor|].
  apply Forall_cons in Hall as [[_ H] Hall]. constructor; auto.
Qed.

(** C24: Requesting the template codec never costs bytes: a block written as codec 8
    is strictly shorter than the codec-7 block of the same entries, and otherwise
    the request produced that codec-7 block, byte for byte. *)
Theorem template_never_larger (es : list LogEntry) (zl : Z) (bytes bytes7 : list byte) (m m7 : BlockMeta) :
  encode_block es CODEC_RICH_TEMPLATE zl = Ok (bytes, m) ->
  encode_block es CODEC_RICH_COLUMNAR zl = Ok (bytes7, m7) ->
  if byte_eqb (codec m) CODEC_RICH_TEMPLATE then (length bytes < length bytes7)%nat
  else bytes = bytes7 /\ m = m7.
Proof using.
  intros H8 H7.
  destruct (encode_block_inv _ _ _ _ _ H8) as (lo & hi & raw & c' & cols & lens & _ & _ & _ & Hs & Hraw & Hcols & Hlens & -> & ->).
  destruct (encode_block_inv _ _ _ _ _ H7) as (lo7 & hi7 & raw7 & c7 & cols7 & lens7 & _ & _ & _ & Hs7 & Hraw7 & Hcols7 & Hlens7 & -> & ->).
  rewrite Hs in Hs7. injection Hs7 as <- <-. change (meta_raw CODEC_RICH_COLUMNAR es) with (meta_raw CODEC_RICH_TEMPLATE es) in Hraw7.
  rewrite Hraw in Hraw7. injection Hraw7 as <-. cbn [codec].
  change (typed_codec CODEC_RICH_TEMPLATE) with true in Hcols. change (typed_codec CODEC_RICH_COLUMNAR) with true in Hcols7.
  cbn iota in Hcols, Hcols7. unfold typed_columns in Hcols, Hcols7.
  change (byte_eqb CODEC_RICH_TEMPLATE CODEC_COLUMNAR_V2) with false in Hcols.
  change (byte_eqb CODEC_RICH_COLUMNAR CODEC_COLUMNAR_V2) with false in Hcols7. cbn iota in Hcols, Hcols7.
  destruct (zstd_compress raw zl) as [col_meta|]; [|done]. unfold message_column in Hcols, Hcols7.
  destruct (encode_str _ _ zl) as [enc|]; [|done]. destruct (to_bytes enc) as [col7|]; [|done].
  change (byte_eqb CODEC_RICH_TEMPLATE CODEC_RICH_TEMPLATE) with true in Hcols.
  change (byte_eqb CODEC_RICH_COLUMNAR CODEC_RICH_TEMPLATE) with false in Hcols7. cbn iota in Hcols, Hcols7.
  destruct (encode_template_str _ zl) as [tpl|]; [|done].
  destruct (Nat.ltb_spec (length tpl) (length col7)) as [Hlt|Hge].
  - destruct (encode_i64 _ zl) as [ets|]; [|done]. destruct (to_bytes ets); [|done].
    destruct (encode_u8 _ zl) as [elv|]; [|done]. destruct (to_bytes elv); [|done].
    injection Hcols as <- <-. injection Hcols7 as <- <-. change (byte_eqb CODEC_RICH_TEMPLATE CODEC_RICH_TEMPLATE) with true.
    apply push_col_lens_ok in Hlens as [-> _]. apply push_col_lens_ok in Hlens7 as [-> _].
    unfold container. cbn [map concat]. autorewrite with wire. lia.
  - rewrite Hcols in Hcols7. injection Hcols7 as -> ->. rewrite Hlens in Hlens7. injection Hlens7 as ->.
    assert (byte_eqb c7 CODEC_RICH_TEMPLATE = false) as ->; [|done].
    destruct (encode_i64 _ zl) as [ets|]; [|done]. destruct (to_bytes ets); [|done].
    destruct (encode_u8 _ zl) as [elv|]; [|done]. destruct (to_bytes elv); [|done]. by injection Hcols as <- _.
Qed.
End Theorems.

(** ** Decoding arbitrary bytes *)

Section Arbitrary.
Context `{SJ : SerdeJson} `{ZS : Zstd} `{PI : !Pco Z}.

(** Every decode ends by checking its rows against the header. *)
Lemma decode_typed_sound c d cols p es :
  decode_typed c d cols p = Ok es ->
  length es = d_n d /\ ts_range (map ts es) = (d_min d, d_max d) /\ Forall (fun e => b2z (level e) <= 3) es.
Proof.
  intros H. unfold decode_typed in H.
  destruct (decode_i64 _ _) as [tss|]; [|done]. destruct (decode_u8 _ _) as [lvls|]; [|done].
  destruct (check_levels 0 lvls) as [[]|] eqn:El; [|done]. destruct (if negb (p_message p) then _ else _) as [msgs|]; [|done].
  destruct (if _ && _ then _ else _) as [rms|] in H; [|done].
  destruct (if negb (p_metadata p) && _ then _ else _) as [mds|] in H; [|done].
  destruct (zip_rows _ _ _ _ _) as [out|] eqn:Ez; [|done].
  destruct (check_block_range _ _ _ _ _) as [[]|] eqn:Er; [|done]. injection H as <-.
  apply zip_rows_inv in Ez as (Hn & Hts & Hlv & _). apply check_range_inv in Er as [Hl Hr].
  split_and!; [done| |].
  - by rewrite Hts, take_ge by lia.
  - apply check_levels_inv in El. apply (Forall_map level (fun l => b2z l <= 3)).
    rewrite Hlv. by apply Forall_take.
Qed.

Lemma decode_legacy_sound c d cols p es :
  decode_block_legacy c d cols p = Ok es ->
  length es = d_n d /\ ts_range (map ts es) = (d_min d, d_max d) /\ Forall (fun e => b2z (level e) <= 3) es.
Proof.
  intros H. unfold decode_block_legacy in H. destruct (legacy_columns _ _ _) as [cs|]; [|done].
  destruct (negb _); [done|]. destruct (negb _); [done|].
  destruct (check_levels _ _) as [[]|] eqn:El; [|done]. destruct (if p_message p then _ else _) as [[msgs mr]|]; [|done].
  destruct (negb _); [done|]. destruct (if _ && _ then _ else _) as [rms|] in H; [|done].
  destruct (if negb (p_metadata p) && _ then _ else _) as [mds|] in H; [|done].
  destruct (zip_rows _ _ _ _ _) as [out|] eqn:Ez; [|done].
  destruct (check_block_range _ _ _ _ _) as [[]|] eqn:Er; [|done]. injection H as <-.
  apply zip_rows_inv in Ez as (Hn & Hts & Hlv & _). apply check_range_inv in Er as [Hl Hr].
  split_and!; [done| |].
  - by rewrite Hts, take_ge by lia.
  - apply check_levels_inv in El. apply (Forall_map level (fun l => b2z l <= 3)).
    rewrite Hlv. by apply Forall_take.
Qed.

(** C8: The header of a block that decodes tells the truth. Whatever the bytes and
    the projection, when the decoder returns rows, the block starts with the
    format version, a known codec, the exact number of rows (at most 2{^20}) and
    the exact least and greatest timestamp of the rows, so range pruning on the
    header never drops a row; and every level is one of the four buckets. *)
Theorem decoded_header_exact (bytes : list byte) (p : LogProjection) (es : list LogEntry) :
  vec_fits 1 bytes -> decode_block_projected bytes p = Ok es ->
  Z.of_nat (length es) <= MAX_BLOCK_ENTRIES /\ Forall (fun e => b2z (level e) <= 3) es /\
  exists c rest, known_codec c = true /\
    bytes = FORMAT_VERSION :: c :: u32_le (Z.of_nat (length es)) ++
            i64_le (ts_range (map ts es)).1 ++ i64_le (ts_range (map ts es)).2 ++ rest.
Proof.
  intros Hf H. unfold decode_block_projected, read_version in H.
  assert (rd_at (Reader_new bytes) bytes) as Hr by (apply rd_at_new; unfold vec_fits in Hf; lia).
  destruct (rd_u8 "format version" _) as [[v r1]|] eqn:E1; [|done].
  destruct (rd_u8_inv _ _ _ _ _ Hr E1) as (l1 & -> & Hr1).
  destruct (byte_eqb v FORMAT_VERSION) eqn:Ev; [|done]. apply byte_eqb_eq in Ev as ->. cbn [negb] in H.
  destruct (rd_u8 "codec" r1) as [[c r2]|] eqn:E2; [|done].
  destruct (rd_u8_inv _ _ _ _ _ Hr1 E2) as (l2 & -> & Hr2).
  destruct (known_codec c) eqn:Ek; [|done]. cbn [negb] in H.
  unfold read_dims in H. destruct (rd_u32 "entry_count" r2) as [[n r3]|] eqn:E3; [|done].
  destruct (rd_u32_inv _ _ _ _ _ Hr2 E3) as (l3 & -> & Hn & Hr3). unfold check_entry_count in H.
  destruct (Z.ltb_spec MAX_BLOCK_ENTRIES n) as [|Hmax]; [done|].
  destruct (rd_i64 "ts_min" r3) as [[lo r4]|] eqn:E4; [|done].
  destruct (rd_i64_inv _ _ _ _ _ Hr3 E4) as (l4 & -> & _ & Hr4).
  destruct (rd_i64 "ts_max" r4) as [[hi r5]|] eqn:E5; [|done].
  destruct (rd_i64_inv _ _ _ _ _ Hr4 E5) as (l5 & -> & _ & Hr5).
  destruct (read_lens _ r5) as [[lens r6]|]; [|done]. destruct (read_columns _ r6) as [cols|]; [|done].
  assert (length es = Z.to_nat n /\ ts_range (map ts es) = (lo, hi) /\ Forall (fun e => b2z (level e) <= 3) es)
    as (Hlen & Hrange & Hlv).
  { destruct (typed_codec c); [apply decode_typed_sound in H|apply decode_legacy_sound in H]; exact H. }
  unfold is_u32 in Hn. rewrite Hlen, Hrange, Z2Nat.id by lia. split_and!; try done. by exists c, l5.
Qed.
End Arbitrary.


(** ** Projections *)

Lemma zip_rows_take n : forall tss lvls msgs envs,
  zip_rows n tss lvls msgs envs = zip_rows n (take n tss) (take n lvls) (take n msgs) (take n envs).
Proof.
  induction n as [|n IH]; intros tss lvls msgs envs; [done|].
  destruct tss, lvls, msgs, envs as [|[[? ?] ?] ?]; try done. cbn [zip_rows take]. by rewrite IH.
Qed.

(** The same rows with other messages and envelopes. *)
Lemma zip_rows_reproject (h : LogEntry -> LogEntry) n tss lvls msgs envs es msgs' envs' :
  zip_rows n tss lvls msgs envs = Ok es ->
  (forall e, ts (h e) = ts e /\ level (h e) = level e) ->
  take n msgs' = map (fun e => message (h e)) es -> take n envs' = map (fun e => entry_env (h e)) es ->
  zip_rows n tss lvls msgs' envs' = Ok (map h es).
Proof.
  intros Hz Hh Hm He. destruct (zip_rows_inv _ _ _ _ _ _ Hz) as (Hn & Hts & Hlv & _).
  rewrite zip_rows_take, Hm, He, <-Hts, <-Hlv, <-Hn.
  rewrite <-(zip_rows_ok (map h es)), length_map, !map_map. f_equal; apply map_ext; intros e; by destruct (Hh e).
Qed.

(** What a projection keeps of a row of a block of codec [c]. *)
Definition project (c : byte) (p : LogProjection) (e : LogEntry) : LogEntry :=
  let '(md, sev, mj) :=
    if rich_codec c then
      if rich_envelope p then
        (if p_metadata_pairs p then metadata e else [], severity e,
         if p_metadata p || p_metadata_pairs p then metadata_json e else Some [])
      else ([], None, None)
    else (if p_metadata p || p_metadata_pairs p then metadata e else [], None, None) in
  mkEntry (ts e) (level e) sev (if p_message p then message e else []) md mj.

Lemma project_parts c p e :
  ts (project c p e) = ts e /\ level (project c p e) = level e /\
  message (project c p e) = (if p_message p then message e else []).
Proof. unfold project. destruct (if rich_codec c then _ else _) as [[? ?] ?]. done. Qed.

Section Projected.
Context `{SJ : SerdeJson} `{ZS : Zstd} `{PI : !Pco Z}.

(** What a projection keeps of a parsed envelope. *)
Definition mask (p : LogProjection) (m : RichMetadata) : RichMetadata :=
  mkRich (r_severity m) (if p_metadata_pairs p then r_metadata m else [])
    (if p_metadata p || p_metadata_pairs p then r_metadata_json m else []).

Lemma parse_rich_masked p n : forall i r rms r',
  parse_rich_go ALL i n r = Ok (rms, r') -> parse_rich_go p i n r = Ok (map (mask p) rms, r').
Proof.
  induction n as [|n IH]; intros i r rms r' H; cbn [parse_rich_go] in *; [by injection H as <- <-|].
  destruct (rd_u16 _ r) as [[sl r1]|]; [|done]. destruct (read_severity i sl r1) as [[sev r2]|]; [|done].
  destruct (read_json i r2) as [[json r3]|]; [|done]. cbn [ALL p_metadata p_metadata_pairs orb] in H.
  destruct (map_err (in_entry i) (canonical_metadata_json json)) as [mj|]; [|done].
  destruct (metadata_pairs_from_json mj) as [md|] eqn:Emd; [|done].
  destruct (parse_rich_go ALL (S i) n r3) as [[rest r4]|] eqn:E; [|done]. injection H as <- <-.
  apply IH in E. cbn [map]. unfold mask at 1. cbn [r_severity r_metadata r_metadata_json].
  destruct (p_metadata_pairs p); [rewrite orb_true_r, Emd, E; done|]. rewrite orb_false_r.
  destruct (p_metadata p); by rewrite E.
Qed.

(** The envelopes of projected rows, from the envelopes of the full rows. *)
Lemma project_rich c p es : forall rms,
  rich_codec c = true -> rich_envelope p = true -> map entry_env es = map rich rms ->
  map rich (map (mask p) rms) = map (fun e => entry_env (project c p e)) es.
Proof.
  intros rms Hc Hp. revert rms. induction es as [|e es IH]; intros [|m rms] H; try done.
  cbn [map] in *. injection H as H1 H2 H3 H4. rewrite (IH rms) by done. f_equal.
  unfold project. rewrite Hc, Hp. unfold rich, mask, entry_env. cbn [r_severity r_metadata r_metadata_json].
  rewrite H1, H2, H3. cbn. by destruct (p_metadata p || p_metadata_pairs p).
Qed.

Lemma project_flat c p es : forall mds,
  rich_codec c = false -> p_metadata p || p_metadata_pairs p = true -> map entry_env es = map flat mds ->
  map flat mds = map (fun e => entry_env (project c p e)) es.
Proof.
  intros mds Hc Hp. revert mds. induction es as [|e es IH]; intros [|m mds] H; try done.
  cbn [map] in *. injection H as H1 H2 H3 H4. rewrite (IH mds) by done. f_equal.
  unfold project. rewrite Hc, Hp. unfold entry_env, flat. cbn. by rewrite H1.
Qed.

Lemma project_empty c p es :
  p_metadata p || p_metadata_pairs p = false -> (rich_codec c = true -> p_severity p = false) ->
  map flat (replicate (length es) []) = map (fun e => entry_env (project c p e)) es.
Proof.
  intros Hp Hs. induction es as [|e es IH]; [done|]. cbn [length replicate map]. rewrite IH. f_equal.
  unfold project, rich_envelope. rewrite Hp. destruct (rich_codec c) eqn:Ec; [|done]. by rewrite (Hs eq_refl).
Qed.

Lemma project_messages c p (es : list LogEntry) n msgs :
  length es = n -> map message es = take n msgs ->
  take n (if p_message p then msgs else replicate n []) = map (fun e => message (project c p e)) es.
Proof.
  intros Hn Hm. rewrite (map_ext _ (fun e => if p_message p then message e else []))
    by (intros e; apply project_parts).
  destruct (p_message p); [done|]. rewrite take_ge by (rewrite length_replicate; lia). subst n.
  clear. induction es as [|e es IH]; [done|]. cbn [length replicate map]. by rewrite IH.
Qed.

(** The choice of the envelope column under a projection, from the full decode. *)
Lemma project_envelopes c p es n is_rich rms mds :
  length es = n -> is_rich = rich_codec c ->
  map entry_env es = take n (if is_rich && rich_envelope ALL then map rich rms else map flat mds) ->
  take n (if is_rich && rich_envelope p then map rich (map (mask p) rms)
          else map flat (if negb (p_metadata p) && negb (p_metadata_pairs p) then replicate n []
                         else if is_rich then [] else mds))
  = map (fun e => entry_env (project c p e)) es.
Proof.
  intros Hn -> He. cbn [ALL rich_envelope p_metadata p_metadata_pairs p_severity orb] in He. rewrite andb_true_r in He.
  destruct (rich_envelope p) eqn:Ep; [rewrite andb_true_r|rewrite andb_false_r].
  - destruct (rich_codec c) eqn:Ec.
    + rewrite !firstn_map in *. by apply project_rich.
    + destruct (p_metadata p || p_metadata_pairs p) eqn:Em.
      * apply orb_true_iff in Em as Em'. replace (negb (p_metadata p) && negb (p_metadata_pairs p)) with false
          by (by destruct (p_metadata p), (p_metadata_pairs p); destruct Em').
        rewrite !firstn_map in *. by apply project_flat.
      * apply orb_false_iff in Em as Em'. destruct Em' as [-> ->]. cbn [negb andb].
        rewrite take_ge by (rewrite length_map, length_replicate; lia). subst n. apply project_empty; [done|].
        by rewrite Ec.
  - unfold rich_envelope in Ep. apply orb_false_iff in Ep as [Em Es]. apply orb_false_iff in Em as Em'.
    destruct Em' as [H1 H2]. rewrite H1, H2. cbn [negb andb].
    rewrite take_ge by (rewrite length_map, length_replicate; lia). subst n. by apply project_empty.
Qed.

Lemma parse_rich_projected_masked p raw n rms :
  parse_rich_metadata_projected raw n ALL = Ok rms -> parse_rich_metadata_projected raw n p = Ok (map (mask p) rms).
Proof.
  unfold parse_rich_metadata_projected. destruct (parse_rich_go ALL 0 n _) as [[out r]|] eqn:E; [|done].
  rewrite (parse_rich_masked p _ _ _ _ _ E). destruct (check_rich_end r); [|done]. by intros [= <-].
Qed.

Lemma decode_typed_project c d cols p es :
  typed_codec c = true -> decode_typed c d cols ALL = Ok es -> decode_typed c d cols p = Ok (map (project c p) es).
Proof.
  intros Ht H. unfold decode_typed in *. set (n := d_n d) in *.
  destruct (decode_i64 _ n) as [tss|]; [|done]. destruct (decode_u8 _ n) as [lvls|]; [|done].
  destruct (check_levels 0 lvls) as [[]|]; [|done]. cbn [ALL p_message negb] in H.
  set (ric := codec_in c [CODEC_RICH_COLUMNAR; CODEC_RICH_TEMPLATE]) in *.
  assert (ric = rich_codec c) as Hric by (unfold ric; codec_cases Ht; subst c; reflexivity).
  set (v2 := byte_eqb c CODEC_COLUMNAR_V2) in *.
  assert (ric = true -> v2 = false) as Hv2 by (unfold ric, v2; codec_cases Ht; subst c; done).
  destruct (if byte_eqb c CODEC_RICH_TEMPLATE then _ else _) as [msgs|] eqn:Em; [|done].
  destruct (if ric && rich_envelope ALL then _ else _) as [rms|] eqn:Er; [|done].
  destruct (if negb (p_metadata ALL) && _ then _ else _) as [mds|] eqn:Ed; [|done].
  destruct (zip_rows _ _ _ _ _) as [out|] eqn:Ez; [|done].
  destruct (check_block_range _ _ _ _ _) as [[]|]; [|done]. injection H as <-.
  destruct (zip_rows_inv _ _ _ _ _ _ Ez) as (Hn & _ & _ & Hmsg & Henv).
  assert ((if negb (p_message p) then Ok (replicate n []) else Ok msgs)
          = Ok (if p_message p then msgs else replicate n [])) as -> by (by destruct (p_message p)).
  assert ((if ric && rich_envelope p
           then let? raw := zstd_decompress (nth 3 cols []) "rich metadata column" in parse_rich_metadata_projected raw n p
           else Ok []) = Ok (if ric && rich_envelope p then map (mask p) rms else [])) as ->.
  { destruct (ric && rich_envelope p) eqn:Erp; [|done]. apply andb_true_iff in Erp as [-> _].
    cbn [ALL rich_envelope p_metadata orb andb] in Er. destruct (zstd_decompress _ _) as [raw|]; [|done].
    by apply parse_rich_projected_masked. }
  assert ((if negb (p_metadata p) && negb (p_metadata_pairs p) then Ok (replicate n [])
           else if v2 then decode_pairs_column "metadata" (nth 3 cols []) n parse_metadata
           else if ric then Ok []
           else let? meta_raw := zstd_decompress (nth 3 cols []) "metadata column" in parse_metadata meta_raw n)
          = Ok (if negb (p_metadata p) && negb (p_metadata_pairs p) then replicate n [] else if ric then [] else mds)) as ->.
  { destruct (negb (p_metadata p) && negb (p_metadata_pairs p)); [done|].
    cbn [ALL p_metadata p_metadata_pairs negb andb] in Ed.
    destruct ric; [by rewrite (Hv2 eq_refl)|]. by rewrite Ed. }
  assert ((if ric && rich_envelope p then map rich (if ric && rich_envelope p then map (mask p) rms else [])
           else map flat (if negb (p_metadata p) && negb (p_metadata_pairs p) then replicate n [] else if ric then [] else mds))
    = (if ric && rich_envelope p then map rich (map (mask p) rms)
       else map flat (if negb (p_metadata p) && negb (p_metadata_pairs p) then replicate n [] else if ric then [] else mds)))
    as -> by (by destruct (ric && rich_envelope p)).
  rewrite (zip_rows_reproject (project c p) _ _ _ _ _ _ _ _ Ez); [done| | |].
  - intros e. destruct (project_parts c p e) as (? & ? & _). done.
  - by apply project_messages.
  - by apply project_envelopes.
Qed.

(** The messages of a raw block under a projection. *)
Lemma legacy_messages p n blob msgs mr :
  read_strs "message length" "message bytes" bad_message 0 n (Reader_new blob) = Ok (msgs, mr) ->
  (remaining mr =? 0)%nat = true ->
  exists mr', (if p_message p
     then read_strs "message length" "message bytes" bad_message 0 n (Reader_new (if p_message p then blob else []))
     else Ok (replicate n [], Reader_new (if p_message p then blob else [])))
    = Ok (if p_message p then msgs else replicate n [], mr') /\ (remaining mr' =? 0)%nat = true.
Proof.
  intros H Hr. destruct (p_message p); [by exists mr|]. by exists (Reader_new []).
Qed.

Lemma legacy_columns_project c cols p c0 c1 c2 c3 :
  legacy_columns c cols ALL = Ok [c0; c1; c2; c3] ->
  legacy_columns c cols p = Ok [c0; c1; if p_message p then c2 else [];
    if p_metadata p || p_metadata_pairs p || (byte_eqb c CODEC_RICH_RAW && p_severity p) then c3 else []].
Proof.
  unfold legacy_columns. cbn [ALL p_message p_metadata p_metadata_pairs orb negb]. intros H.
  destruct (if byte_eqb c CODEC_ZSTD then zstd_decompress (nth 0 cols []) _ else _) as [a0|]; [|done].
  destruct (if byte_eqb c CODEC_ZSTD then zstd_decompress (nth 1 cols []) _ else _) as [a1|]; [|done].
  destruct (if byte_eqb c CODEC_ZSTD then zstd_decompress (nth 2 cols []) _ else _) as [a2|]; [|done].
  destruct (if byte_eqb c CODEC_ZSTD then zstd_decompress (nth 3 cols []) _ else _) as [a3|]; [|done].
  injection H as <- <- <- <-. destruct (p_message p); cbn [negb];
    by destruct (p_metadata p || p_metadata_pairs p || (byte_eqb c CODEC_RICH_RAW && p_severity p)).
Qed.

Lemma decode_legacy_project c d cols p es :
  known_codec c = true -> typed_codec c = false -> decode_block_legacy c d cols ALL = Ok es ->
  decode_block_legacy c d cols p = Ok (map (project c p) es).
Proof.
  intros Hk Ht H. unfold decode_block_legacy in *. set (n := d_n d) in *.
  destruct (legacy_columns c cols ALL) as [cs|] eqn:Ec; [|done].
  assert (exists c0 c1 c2 c3, cs = [c0; c1; c2; c3]) as (c0 & c1 & c2 & c3 & ->).
  { unfold legacy_columns in Ec. inv_ok Ec. subst. by eexists _, _, _, _. }
  rewrite (legacy_columns_project _ _ p _ _ _ _ Ec). cbn [nth] in *.
  destruct (negb _); [done|]. destruct (negb (length c1 =? n)%nat); [done|].
  destruct (check_levels 0 c1) as [[]|]; [|done]. cbn [ALL p_message] in H.
  set (ric := byte_eqb c CODEC_RICH_RAW) in *.
  assert (ric = rich_codec c) as Hric by (unfold ric; codec_cases Hk; subst c; try discriminate Ht; reflexivity).
  destruct (read_strs _ _ _ 0 n (Reader_new c2)) as [[msgs mr]|] eqn:Em; [|done].
  destruct (remaining mr =? 0)%nat eqn:Erem; [|done]. cbn [negb] in H.
  destruct (if ric && rich_envelope ALL then _ else _) as [rms|] eqn:Er; [|done].
  destruct (if negb (p_metadata ALL) && _ then _ else _) as [mds|] eqn:Ed; [|done].
  destruct (zip_rows _ _ _ _ _) as [out|] eqn:Ez; [|done].
  destruct (check_block_range _ _ _ _ _) as [[]|]; [|done]. injection H as <-.
  destruct (zip_rows_inv _ _ _ _ _ _ Ez) as (Hn & _ & _ & Hmsg & Henv).
  destruct (legacy_messages p n c2 msgs mr Em Erem) as (mr' & -> & ->). cbn [negb].
  set (c3' := if p_metadata p || _ || _ then c3 else []).
  assert ((if ric && rich_envelope p then parse_rich_metadata_projected c3' n p else Ok [])
          = Ok (if ric && rich_envelope p then map (mask p) rms else [])) as ->.
  { destruct (ric && rich_envelope p) eqn:Erp; [|done]. apply andb_true_iff in Erp as [Hri Hen].
    assert (c3' = c3) as ->.
    { unfold c3', rich_envelope in *. rewrite Hri. cbn [andb]. by rewrite Hen. }
    rewrite Hri in Er. cbn [ALL rich_envelope p_metadata orb andb] in Er. by apply parse_rich_projected_masked. }
  assert ((if negb (p_metadata p) && negb (p_metadata_pairs p) then Ok (replicate n [])
           else if ric then Ok [] else parse_metadata c3' n)
          = Ok (if negb (p_metadata p) && negb (p_metadata_pairs p) then replicate n [] else if ric then [] else mds)) as ->.
  { cbn [ALL p_metadata p_metadata_pairs negb andb] in Ed. unfold c3'.
    destruct ric; [by destruct (p_metadata p), (p_metadata_pairs p)|]. cbn [andb]. rewrite orb_false_r.
    destruct (p_metadata p), (p_metadata_pairs p); cbn [orb negb andb]; by rewrite ?Ed. }
  assert ((if ric && rich_envelope p then map rich (if ric && rich_envelope p then map (mask p) rms else [])
           else map flat (if negb (p_metadata p) && negb (p_metadata_pairs p) then replicate n [] else if ric then [] else mds))
    = (if ric && rich_envelope p then map rich (map (mask p) rms)
       else map flat (if negb (p_metadata p) && negb (p_metadata_pairs p) then replicate n [] else if ric then [] else mds)))
    as -> by (by destruct (ric && rich_envelope p)).
  rewrite (zip_rows_reproject (project c p) _ _ _ _ _ _ _ _ Ez); [done| | |].
  - intros e. destruct (project_parts c p e) as (? & ? & _). done.
  - by apply project_messages.
  - by apply project_envelopes.
Qed.

(** C19: A projected decode is the full decode with the columns that were not asked
    for left out. Whatever the bytes, when [decode_block] returns rows, every
    projection returns the same rows with their timestamps and levels, the message
    if requested, and the requested part of the severity/metadata envelope. *)
Theorem projection_agrees (bytes : list byte) (es : list LogEntry) :
  decode_block bytes = Ok es ->
  exists c, forall p, decode_block_projected bytes p = Ok (map (project c p) es).
Proof.
  unfold decode_block, decode_block_projected. intros H.
  destruct (read_version _) as [r1|]; [|done]. destruct (rd_u8 "codec" r1) as [[c r2]|]; [|done].
  destruct (known_codec c) eqn:Ek; [|done]. cbn [negb] in *. destruct (read_dims r2) as [[d r3]|]; [|done].
  destruct (read_columns d r3) as [cols|]; [|done]. exists c. intros p. destruct (typed_codec c) eqn:Et.
  - by apply decode_typed_project.
  - by apply decode_legacy_project.
Qed.
End Projected.

(** The projection bits survive the trip through the query plan: four bits, and
    [from_bits] undoes [bits]. *)
Lemma projection_bits_round_trip (p : LogProjection) : 0 <= bits p < 16 /\ from_bits (bits p) = p.
Proof. destruct p as [[] [] [] []]; vm_compute; repeat split; congruence. Qed.
