(* ===== verification/BlockSearch.v ===== *)
(** * Searching log blocks for a message substring

    The substring gate [block_message_feasible] and the filtered decoder
    [decode_block_filtered] of [blocks/codec.rs]. Proved: on the codecs without
    templates the gate's "no" is a proof of absence for any block that decodes;
    on encoded blocks of every codec so is it for the needles the digit-run
    lookup covers; and the filtered decode is the full decode, filtered. *)
From Stdlib Require Import ZArith Lia Bool Strings.Byte.
From stdpp Require Import prelude list sorting strings.
From S2P Require Import Prelude BTree Wire Columns RustStr Template TemplateColumn TemplateSearch.
From S2P Require Import LogEntry PairsColumn BlockCodec.
Open Scope string_scope.
Open Scope list_scope.
Open Scope Z_scope.

(** [str::contains]. *)
Definition str_contains (h n : str) : bool :=
  match n with [] => true | _ => existsb (fun w => bool_decide (w = n)) (windows (length n) h) end.

Section Search.
Context `{SJ : SerdeJson} `{ZS : Zstd} `{PI : !Pco Z} (to_lowercase : str -> str).

Definition message_contains_ci (msg needle : str) : bool :=
  match needle with
  | [] => true
  | _ =>
    if is_ascii needle then existsb (fun w => eq_ignore_ascii_case w needle) (windows (length needle) msg)
    else str_contains (to_lowercase msg) (to_lowercase needle)
  end.

Record FilteredBlockRows := mkFBR { fb_rows : list (nat * LogEntry); total_rows : nat; fb_candidates : nat }.

Definition full_fallback (bytes : list byte) (needle : str) : result FilteredBlockRows :=
  let? entries := decode_block bytes in
  Ok (mkFBR (filter (fun p => message_contains_ci (message p.2) needle = true) (imap pair entries))
        (length entries) (length entries)).

(** The metadata walk: rows that were not kept advance over their lengths. *)
Fixpoint walk_rich (i n : nat) (keep : list (nat * str)) (tss : list Z) (lvls : list byte) (r : Reader)
    : result (list (nat * LogEntry) * Reader) :=
  match n with
  | O => Ok ([], r)
  | S n' =>
    let? (severity_len, r) := rd_u16 "severity length" r in
    match keep with
    | (row, msg) :: keep' =>
      if (row =? i)%nat then
        let? (sev, r) := read_severity i severity_len r in
        let? (json, r) := read_json i r in
        let? mj := map_err (in_entry i) (canonical_metadata_json json) in
        let? md := metadata_pairs_from_json mj in
        let? t := index tss i in
        let? l := index lvls i in
        let? (rows, r) := walk_rich (S i) n' keep' tss lvls r in
        Ok ((row, mkEntry t l (Some sev) msg md (Some mj)) :: rows, r)
      else
        let? (_, r) := rd_take (Z.to_nat severity_len) "severity bytes" r in
        let? (json_len, r) := rd_u32 "metadata JSON length" r in
        let? (_, r) := rd_take (Z.to_nat json_len) "metadata JSON bytes" r in
        walk_rich (S i) n' keep tss lvls r
    | [] =>
      let? (_, r) := rd_take (Z.to_nat severity_len) "severity bytes" r in
      let? (json_len, r) := rd_u32 "metadata JSON length" r in
      let? (_, r) := rd_take (Z.to_nat json_len) "metadata JSON bytes" r in
      walk_rich (S i) n' [] tss lvls r
    end
  end.

Definition decode_block_filtered (bytes : list byte) (needle : str) : result FilteredBlockRows :=
  if match needle with [] => true | _ => false end || negb (is_ascii needle) then full_fallback bytes needle
  else
    let? r := read_version (Reader_new bytes) in
    let? (c, r) := rd_u8 "codec" r in
    if negb (byte_eqb c CODEC_RICH_TEMPLATE) then full_fallback bytes needle
    else
      let? (d, r) := read_dims r in
      let? cols := read_columns d r in
      let n := d_n d in
      let? filtered := decode_template_str_filtered (nth 2 cols []) n needle in
      match rows filtered with
      | [] => Ok (mkFBR [] n (candidate_rows filtered))
      | _ =>
        let? timestamps := decode_i64 (nth 0 cols []) n in
        let? levels := decode_u8 (nth 1 cols []) n in
        let? _ := check_levels 0 levels in
        let? raw := zstd_decompress (nth 3 cols []) "rich metadata column" in
        let? (out, r) := walk_rich 0 n (rows filtered) timestamps levels (Reader_new raw) in
        let? _ := check_rich_end r in
        let? _ := check_block_range "block" n (d_min d) (d_max d) timestamps in
        Ok (mkFBR out n (candidate_rows filtered))
      end.

(** ** The gate *)

(** [while r.remaining() > 0]: every round reads a length prefix, so the bytes left
    bound the rounds. *)
Fixpoint scan_strs (contains : list byte -> bool) (fuel : nat) (count : Z) (found : bool) (r : Reader)
    : result (Z * bool) :=
  match fuel with
  | O => Ok (count, found)
  | S f =>
    if (remaining r =? 0)%nat then Ok (count, found)
    else
      let? (len, r) := rd_u32 "string length" r in
      let? (b, r) := rd_take (Z.to_nat len) "string bytes" r in
      let? text := from_utf8 b (Fmt "string column: value {count} is not valid UTF-8" [FNum count]) in
      scan_strs contains f (count + 1) (found || contains text) r
  end.

(** The run loop: the guards of the decoder, and the flags of the codes seen. *)
Fixpoint scan_codes (hits : list bool) (n : nat) (expanded : Z) (found : bool) (pairs : list (list byte))
    : result (Z * bool) :=
  match pairs with
  | [] => Ok (expanded, found)
  | pr :: pairs' =>
    let? expanded := check_code_pair (length hits) n expanded pr in
    scan_codes hits n expanded (found || nth (Z.to_nat (pair_code pr)) hits false) pairs'
  end.

Definition columnar_message_feasible (msg : list byte) (n : nat) (contains : list byte -> bool) : result bool :=
  let? (enc, payload) := read_column_frame msg "message column" in
  if byte_eqb enc ENC_STR_ZSTD then
    let? raw := zstd_decompress_capped payload "message column" DECOMPRESS_MAX_BYTES in
    let? (count, found) := scan_strs contains (length raw) 0 false (Reader_new raw) in
    if negb (count =? Z.of_nat n) then
      Err (Fmt "string column: expected {n} strings, found {count}" [FNum (Z.of_nat n); FNum count])
    else Ok found
  else if byte_eqb enc ENC_STR_DICT then
    let r := Reader_new payload in
    let? (dict_count, r) := rd_u32 "dict count" r in
    let? (dict_zstd_len, r) := rd_u32 "dict zstd length" r in
    let? (dict_zstd, r) := rd_take (Z.to_nat dict_zstd_len) "dict bytes" r in
    let? (codes_zstd, r) := rd_take (remaining r) "code bytes" r in
    let? dict_raw := zstd_decompress_capped dict_zstd "message dictionary" DECOMPRESS_MAX_BYTES in
    let? (dict, dr) := read_strs "dict entry length" "dict entry bytes"
      (fun i => Fmt "string column: dict entry {index} is not valid UTF-8" [FNum i])
      0 (Z.to_nat dict_count) (Reader_new dict_raw) in
    let hits := map contains dict in
    if negb (remaining dr =? 0)%nat then Err (Fmt "string column: trailing bytes in dictionary" [])
    else
      let? codes_raw := zstd_decompress_capped codes_zstd "message codes" DECOMPRESS_MAX_BYTES in
      if negb (length codes_raw mod 8 =? 0)%nat then
        Err (Fmt "string column: RLE stream is not (u32,u32) pairs" [])
      else
        let? (expanded, found) := scan_codes hits n 0 false (as_chunks 8 codes_raw) in
        if negb (expanded =? Z.of_nat n) then
          Err (Fmt "string column: RLE expanded to {expanded} values, expected {n}"
                 [FNum expanded; FNum (Z.of_nat n)])
        else Ok found
  else Err (Fmt "string column: unknown encoding id {other}" [FNum (b2z enc)]).

Definition block_message_feasible (bytes : list byte) (needle : str) : result bool :=
  if match needle with [] => true | _ => false end || negb (is_ascii needle) then Ok true
  else
    let? r := read_version (Reader_new bytes) in
    let? (c, r) := rd_u8 "codec" r in
    if negb (known_codec c) then Err (Fmt "block: unknown codec {codec}" [FNum (b2z c)])
    else
      let? (d, r) := read_dims r in
      let? (cols, r) := take_cols (take 3 (d_lens d)) (take 3 COLUMN_NAMES) r in
      let msg := nth 2 cols [] in
      if byte_eqb c CODEC_RICH_TEMPLATE then column_may_contain msg needle
      else
        let contains text := existsb (fun w => eq_ignore_ascii_case w needle) (windows (length needle) text) in
        if is_raw_codec c then Ok (contains msg)
        else if byte_eqb c CODEC_ZSTD then
          let? text := zstd_decompress msg "message column" in Ok (contains text)
        else if codec_in c [CODEC_COLUMNAR; CODEC_COLUMNAR_V2; CODEC_RICH_COLUMNAR] then
          columnar_message_feasible msg (d_n d) contains
        else Ok true.
End Search.

(** ** Reading: lemmas *)

Lemma occ_trans a b c : occ a b -> occ b c -> occ a c.
Proof.
  intros (u & v & ->) (u' & v' & ->). exists (u' ++ u), (v ++ v'). by rewrite <-!List.app_assoc.
Qed.

Lemma contains_occ m text needle : occ m text -> contains_ci m needle = true -> contains_ci text needle = true.
Proof. intros Ho. rewrite !contains_ci_spec. intros (w & Hw & Hl). exists w. split; [by eapply occ_trans|done]. Qed.

Lemma rd_take_occ n what r s r' :
  rd_take n what r = Ok (s, r') ->
  occ s (rd_buf r) /\ rd_buf r' = rd_buf r /\ (remaining r' + n = remaining r)%nat.
Proof.
  unfold rd_take. destruct (usize_checked_add _ _); [|done].
  destruct (Nat.ltb_spec (length (rd_buf r)) (rd_pos r + n)); [done|]. intros [= <- <-]. split_and!; [|done|].
  - exists (take (rd_pos r) (rd_buf r)), (drop n (drop (rd_pos r) (rd_buf r))). by rewrite take_drop, take_drop.
  - unfold remaining. cbn [rd_buf rd_pos]. lia.
Qed.

Lemma rd_u32_step what r z r' :
  rd_u32 what r = Ok (z, r') -> rd_buf r' = rd_buf r /\ (remaining r' + 4 = remaining r)%nat.
Proof.
  unfold rd_u32. destruct (rd_take 4 what r) as [[s r1]|] eqn:E; [|done]. intros [= _ <-].
  by apply rd_take_occ in E as (_ & ? & ?).
Qed.

(** Every string read occurs in the buffer. *)
Lemma read_strs_occ lw bw bad n : forall i r strs r',
  read_strs lw bw bad i n r = Ok (strs, r') -> Forall (fun s => occ s (rd_buf r)) strs.
Proof.
  induction n as [|n IH]; intros i r strs r' H; cbn [read_strs] in H; [by injection H as <- _; constructor|].
  destruct (rd_u32 lw r) as [[len r1]|] eqn:E1; [|done]. apply rd_u32_step in E1 as [B1 _].
  destruct (rd_take _ bw r1) as [[b r2]|] eqn:E2; [|done]. apply rd_take_occ in E2 as (Ho & B2 & _).
  unfold from_utf8 in H. destruct (utf8_valid b); [|done].
  destruct (read_strs lw bw bad (i + 1) n r2) as [[strs' r3]|] eqn:E3; [|done]. injection H as <- _.
  apply IH in E3. rewrite B2, B1 in *. by constructor.
Qed.

Lemma zstd_what `{Zstd} d w1 w2 cap x :
  zstd_decompress_capped d w1 cap = Ok x -> zstd_decompress_capped d w2 cap = Ok x.
Proof. unfold zstd_decompress_capped. by destruct (zstd_bulk_decompress d cap). Qed.

Lemma take_cols_prefix k : forall lens names r cols r',
  take_cols lens names r = Ok (cols, r') -> exists r'', take_cols (take k lens) (take k names) r = Ok (take k cols, r'').
Proof.
  induction k as [|k IH]; intros lens names r cols r' H; [by exists r|].
  destruct lens as [|len lens], names as [|name names]; cbn [take take_cols] in *; try (injection H as <- <-; by exists r).
  destruct (rd_take len name r) as [[c r1]|]; [|done].
  destruct (take_cols lens names r1) as [[cs r2]|] eqn:E; [|done]. injection H as <- <-.
  destruct (IH _ _ _ _ _ E) as (r'' & ->). by exists r''.
Qed.

Lemma codec_byte bytes r c r2 :
  read_version (Reader_new bytes) = Ok r -> rd_u8 "codec" r = Ok (c, r2) -> bytes !! 1%nat = Some c.
Proof.
  unfold read_version, rd_u8 at 1. destruct (rd_take 1 "format version" _) as [[s r1]|] eqn:E1; [|done].
  destruct (negb _); [done|]. intros [= <-]. unfold rd_take, usize_checked_add in E1. cbn [rd_pos Reader_new] in E1.
  destruct (_ <=? _); [|done]. destruct (_ <? _)%nat; [done|]. injection E1 as <- <-.
  unfold rd_u8, rd_take. cbn [rd_pos rd_buf Reader_new]. destruct (usize_checked_add _ _); [|done].
  destruct (Nat.ltb_spec (length bytes) (1 + 1)); [done|]. intros [= <- _].
  destruct bytes as [|a [|b bytes]]; simpl in *; try lia. done.
Qed.

(** ** The gate on blocks without templates *)

Section Absence.
Context (contains : list byte -> bool).

Lemma scan_strs_spec bad n : forall fuel i count found r strs r' k b,
  read_strs "string length" "string bytes" bad i n r = Ok (strs, r') -> (remaining r' = 0)%nat ->
  (remaining r <= fuel)%nat -> scan_strs contains fuel count found r = Ok (k, b) ->
  b = found || existsb contains strs.
Proof.
  induction n as [|n IH]; intros fuel i count found r strs r' k b Hr Hend Hf Hs; cbn [read_strs] in Hr.
  { injection Hr as <- <-. destruct fuel; cbn [scan_strs] in Hs; [|rewrite Hend in Hs; cbn in Hs];
      injection Hs as <- <-; by rewrite orb_false_r. }
  destruct (rd_u32 "string length" r) as [[len r1]|] eqn:E1; [|done].
  pose proof (rd_u32_step _ _ _ _ E1) as [_ R1]. destruct fuel as [|fuel]; [lia|].
  cbn [scan_strs] in Hs. destruct (Nat.eqb_spec (remaining r) 0); [lia|]. rewrite E1 in Hs.
  destruct (rd_take _ "string bytes" r1) as [[s r2]|] eqn:E2; [|done].
  apply rd_take_occ in E2 as (_ & _ & R2). unfold from_utf8 in *. destruct (utf8_valid s); [|done].
  destruct (read_strs _ _ bad (i + 1) n r2) as [[strs' r3]|] eqn:E3; [|done]. injection Hr as <- <-.
  assert (remaining r2 <= fuel)%nat as Hf2 by lia. rewrite (IH _ _ _ _ _ _ _ _ _ E3 Hend Hf2 Hs). cbn [existsb]. by rewrite orb_assoc.
Qed.

Lemma existsb_replicate (k : nat) s : (0 < k)%nat -> existsb contains (replicate k s) = contains s.
Proof. intros Hk. destruct k; [lia|]. clear. induction k; cbn in *; [by rewrite orb_false_r|]. by destruct (contains s). Qed.

Lemma scan_codes_spec dict n pairs : forall e found e' b,
  scan_codes (map contains dict) n e found pairs = Ok (e', b) ->
  b = found || existsb contains (expand_codes dict pairs).
Proof.
  induction pairs as [|pr pairs IH]; intros e found e' b H; cbn [scan_codes] in H.
  { injection H as <- <-. by rewrite orb_false_r. }
  destruct (check_code_pair _ n e pr) as [e1|] eqn:E; [|done]. apply IH in H as ->.
  unfold check_code_pair in E. rewrite length_map in E.
  destruct (Z.leb_spec (Z.of_nat (length dict)) (pair_code pr)) as [|Hc]; [done|].
  destruct (Z.eqb_spec (pair_run pr) 0) as [|Hr]; [done|]. clear E.
  pose proof (pair_run_bound pr) as Hb. pose proof (le_val_range (take 4 (drop 4 pr))) as Hc0. fold (pair_code pr) in Hc0.
  unfold expand_codes. cbn [map concat]. fold (expand_codes dict pairs). rewrite existsb_app, existsb_replicate by lia.
  rewrite <-orb_assoc. f_equal. f_equal.
  rewrite (nth_indep _ false (contains [])) by (rewrite length_map; lia). by rewrite map_nth.
Qed.
End Absence.

(** The names in error messages do not change what is read. *)
Lemma rd_take_what n w1 w2 r x : rd_take n w1 r = Ok x -> rd_take n w2 r = Ok x.
Proof. unfold rd_take. destruct (usize_checked_add _ _); [|done]. by destruct (_ <? _)%nat. Qed.

Lemma read_column_frame_what b w1 w2 x : read_column_frame b w1 = Ok x -> read_column_frame b w2 = Ok x.
Proof.
  unfold read_column_frame, rd_u8, rd_u32. intros H.
  destruct (rd_take 1 w1 _) as [[s1 r1]|] eqn:E1; [|done]. rewrite (rd_take_what _ _ w2 _ _ E1).
  destruct (rd_take 4 w1 r1) as [[s2 r2]|] eqn:E2; [|done]. rewrite (rd_take_what _ _ w2 _ _ E2).
  destruct (rd_take _ w1 r2) as [[s3 r3]|] eqn:E3; [|done]. rewrite (rd_take_what _ _ w2 _ _ E3).
  by destruct (negb _).
Qed.

Lemma read_strs_bad lw bw bad1 bad2 n : forall i r x,
  read_strs lw bw bad1 i n r = Ok x -> read_strs lw bw bad2 i n r = Ok x.
Proof.
  induction n as [|n IH]; intros i r x H; cbn [read_strs] in *; [done|].
  destruct (rd_u32 lw r) as [[len r1]|]; [|done]. destruct (rd_take _ bw r1) as [[b r2]|]; [|done].
  unfold from_utf8 in *. destruct (utf8_valid b); [|done].
  destruct (read_strs lw bw bad1 (i + 1) n r2) as [[strs r3]|] eqn:E; [|done]. by rewrite (IH _ _ _ E).
Qed.

Section GateLemmas.
Context `{SJ : SerdeJson} `{ZS : Zstd} `{PI : !Pco Z}.

(** On a column that decodes, the columnar gate looks at the decoded strings. *)
Lemma columnar_feasible_spec msg n contains strs b :
  decode_str msg n = Ok strs -> columnar_message_feasible msg n contains = Ok b -> b = existsb contains strs.
Proof.
  unfold decode_str, columnar_message_feasible. intros Hd Hc.
  destruct (read_column_frame msg "string column") as [[enc pl]|] eqn:Ef; [|done].
  rewrite (read_column_frame_what _ _ "message column" _ Ef) in Hc.
  destruct (byte_eqb enc ENC_STR_ZSTD).
  - destruct (zstd_decompress_capped pl "string column" _) as [raw|] eqn:Ez; [|done].
    rewrite (zstd_what _ _ "message column" _ _ Ez) in Hc.
    destruct (validate_minimum_encoded_len _ _ _ _); [|done]. destruct (reserve_decoded _ _ _); [|done].
    destruct (read_strs _ _ _ 0 n _) as [[out r]|] eqn:Er; [|done].
    destruct (Nat.eqb_spec (remaining r) 0) as [Hrem|]; [|done]. injection Hd as <-.
    destruct (scan_strs contains _ _ _ _) as [[k f]|] eqn:Es; [|done].
    destruct (negb _); [done|]. injection Hc as <-.
    eapply scan_strs_spec in Es; [|exact Er|done|unfold remaining; simpl; lia]. done.
  - destruct (byte_eqb enc ENC_STR_DICT); [|done].
    destruct (read_dict pl) as [[dict codes]|] eqn:Erd; [|done]. unfold read_dict in Erd.
    destruct (rd_u32 "dict count" _) as [[dc r1]|]; [|done]. destruct (rd_u32 "dict zstd length" r1) as [[dl r2]|]; [|done].
    destruct (rd_take _ "dict bytes" r2) as [[dz r3]|]; [|done]. destruct (rd_take _ "code bytes" r3) as [[cz r4]|]; [|done].
    destruct (zstd_decompress_capped dz _ _) as [dr|] eqn:Edz; [|done].
    rewrite (zstd_what _ _ "message dictionary" _ _ Edz) in Hc.
    destruct (validate_minimum_encoded_len _ _ _ _); [|done]. destruct (reserve_decoded _ _ _); [|done].
    destruct (read_strs _ _ _ 0 _ (Reader_new dr)) as [[dict' r5]|] eqn:Er in Erd; [|done].
    erewrite read_strs_bad in Hc by exact Er.
    destruct (negb (remaining r5 =? 0)%nat); [done|].
    destruct (zstd_decompress_capped cz "string codes" _) as [cr|] eqn:Ecz; [|done].
    rewrite (zstd_what _ _ "message codes" _ _ Ecz) in Hc.
    destruct (negb (length cr mod 8 =? 0)%nat); [done|]. injection Erd as <- <-.
    destruct (check_codes _ n 0 _) as [ex|]; [|done]. destruct (negb (ex =? Z.of_nat n)); [done|].
    destruct (reserve_decoded _ _ _); [|done]. injection Hd as <-.
    destruct (negb (remaining r5 =? 0)%nat) in Hc; [done|].
    destruct (scan_codes _ n 0 false _) as [[e f]|] eqn:Es; [|done]. destruct (negb _); [done|]. injection Hc as <-.
    by apply scan_codes_spec in Es.
Qed.

(** What the message column of a block gives the rows of its full decode. *)
Lemma typed_messages c d cols es :
  decode_typed c d cols ALL = Ok es -> byte_eqb c CODEC_RICH_TEMPLATE = false ->
  exists msgs, decode_str (nth 2 cols []) (d_n d) = Ok msgs /\ map message es = take (d_n d) msgs.
Proof.
  intros H Hc. unfold decode_typed in H.
  destruct (decode_i64 _ _) as [tss|]; [|done]. destruct (decode_u8 _ _) as [lvls|]; [|done].
  destruct (check_levels 0 lvls); [|done]. cbn [ALL p_message negb] in H. rewrite Hc in H.
  destruct (decode_str _ _) as [msgs|]; [|done].
  destruct (if _ && _ then _ else _) as [rms|] in H; [|done].
  destruct (if negb _ && _ then _ else _) as [mds|] in H; [|done].
  destruct (zip_rows _ _ _ _ _) as [out|] eqn:Ez; [|done]. destruct (check_block_range _ _ _ _ _); [|done].
  injection H as <-. exists msgs. split; [done|]. by apply zip_rows_inv in Ez as (_ & _ & _ & ? & _).
Qed.

Lemma legacy_messages_inv c d cols es :
  decode_block_legacy c d cols ALL = Ok es ->
  exists blob, (if byte_eqb c CODEC_ZSTD then zstd_decompress (nth 2 cols []) "message column" else Ok (nth 2 cols [])) = Ok blob /\
    Forall (fun m => occ m blob) (map message es).
Proof.
  intros H. unfold decode_block_legacy in H. destruct (legacy_columns c cols ALL) as [cs|] eqn:Ec; [|done].
  unfold legacy_columns in Ec. cbn [ALL p_message p_metadata p_metadata_pairs orb negb] in Ec.
  destruct (if byte_eqb c CODEC_ZSTD then zstd_decompress (nth 0 cols []) _ else _) as [c0|]; [|done].
  destruct (if byte_eqb c CODEC_ZSTD then zstd_decompress (nth 1 cols []) _ else _) as [c1|]; [|done].
  destruct (if byte_eqb c CODEC_ZSTD then zstd_decompress (nth 2 cols []) _ else _) as [c2|]; [|done].
  destruct (if byte_eqb c CODEC_ZSTD then zstd_decompress (nth 3 cols []) _ else _) as [c3|]; [|done].
  injection Ec as <-. cbn [nth] in H. destruct (negb _); [done|]. destruct (negb _); [done|].
  destruct (check_levels 0 c1); [|done]. cbn [ALL p_message] in H.
  destruct (read_strs _ _ _ 0 _ (Reader_new c2)) as [[msgs mr]|] eqn:Em; [|done].
  destruct (negb _); [done|]. destruct (if _ && _ then _ else _) as [rms|] in H; [|done].
  destruct (if negb _ && _ then _ else _) as [mds|] in H; [|done].
  destruct (zip_rows _ _ _ _ _) as [out|] eqn:Ez; [|done]. destruct (check_block_range _ _ _ _ _); [|done].
  injection H as <-. exists c2. split; [done|]. apply zip_rows_inv in Ez as (_ & _ & _ & -> & _).
  apply Forall_take. by apply read_strs_occ in Em.
Qed.

Lemma absent_in_text needle text (msgs : list str) :
  needle <> [] -> contains_ci text needle = false -> Forall (fun m => occ m text) msgs ->
  Forall (fun m => contains_ci m needle = false) msgs.
Proof.
  intros Hne Ht Ho. eapply Forall_impl; [exact Ho|]. intros m Hm. apply not_true_iff_false. intros Hc.
  by rewrite (contains_occ _ _ _ Hm Hc) in Ht.
Qed.

Lemma gate_sound bytes needle es :
  bytes !! 1%nat <> Some CODEC_RICH_TEMPLATE ->
  decode_block bytes = Ok es -> block_message_feasible bytes needle = Ok false ->
  needle <> [] /\ is_ascii needle = true /\ Forall (fun m => contains_ci m needle = false) (map message es).
Proof.
  intros H8 Hd Hg. unfold block_message_feasible in Hg. destruct needle as [|nc needle]; [done|].
  set (nd := nc :: needle) in *. cbn [orb] in Hg. destruct (is_ascii nd) eqn:Ha; [|done]. cbn [negb] in Hg.
  split; [done|]. split; [done|]. unfold decode_block, decode_block_projected in Hd.
  destruct (read_version _) as [r1|] eqn:Ev; [|done]. destruct (rd_u8 "codec" r1) as [[c r2]|] eqn:Ec; [|done].
  assert (byte_eqb c CODEC_RICH_TEMPLATE = false) as Hc8.
  { pose proof (codec_byte _ _ _ _ Ev Ec) as Hb. rewrite Hb in H8. apply not_true_iff_false.
    rewrite byte_eqb_eq. congruence. }
  destruct (known_codec c) eqn:Ek; [|done]. cbn [negb] in *. destruct (read_dims r2) as [[d r3]|]; [|done].
  unfold read_columns in Hd. destruct (take_cols (d_lens d) COLUMN_NAMES r3) as [[cols r4]|] eqn:Et; [|done].
  destruct (take_cols_prefix 3 _ _ _ _ _ Et) as (r5 & Ht3). rewrite Ht3, Hc8 in Hg.
  replace (nth 2 (take 3 cols) []) with (nth 2 cols []) in Hg by (by destruct cols as [|? [|? [|? ?]]]).
  destruct (negb (remaining r4 =? 0)%nat); [done|].
  assert (if typed_codec c then is_raw_codec c = false /\ byte_eqb c CODEC_ZSTD = false /\
            codec_in c [CODEC_COLUMNAR; CODEC_COLUMNAR_V2; CODEC_RICH_COLUMNAR] = true
          else is_raw_codec c = negb (byte_eqb c CODEC_ZSTD)) as Hkind
    by (codec_cases Ek; subst c; try discriminate Hc8; repeat split).
  destruct (typed_codec c).
  - destruct Hkind as (H1 & H2 & H3). rewrite H1, H2, H3 in Hg.
    apply typed_messages in Hd as (ms & Hms & ->); [|done]. apply Forall_take.
    apply columnar_feasible_spec with (1 := Hms) in Hg. symmetry in Hg. apply Forall_forall. intros m Hm.
    apply not_true_iff_false. intros Hc. apply not_true_iff_false in Hg. apply Hg. by eapply existsb_elem.
  - apply legacy_messages_inv in Hd as (blob & Hblob & Ho). rewrite Hkind in Hg.
    apply (absent_in_text nd blob); [done| |exact Ho].
    destruct (byte_eqb c CODEC_ZSTD); cbn [negb] in Hg.
    + rewrite Hblob in Hg. by injection Hg as Hg.
    + injection Hblob as <-. by injection Hg as Hg.
Qed.
End GateLemmas.

(** ** Encoded template blocks *)

Section Encoded.
Context `{SJ : SerdeJson} `{SJL : !SerdeJsonLaws} `{ZS : Zstd} `{ZL : !ZstdLaws} `{PI : !Pco Z} `{PIL : !PcoLaws is_i64}.

(** The columns of a block that was written as codec 8. *)
Lemma template_block_columns es c zl bytes m :
  Forall entry_valid es -> block_fits c es -> encode_block es c zl = Ok (bytes, m) ->
  codec m = CODEC_RICH_TEMPLATE ->
  exists raw cols lens,
    c = CODEC_RICH_TEMPLATE /\ bytes = container CODEC_RICH_TEMPLATE (length es) (ts_min m) (ts_max m) lens cols /\
    container_ok (length es) (ts_min m) (ts_max m) lens cols /\ meta_raw c es = Ok raw /\
    ts_range (map ts es) = (ts_min m, ts_max m) /\ check_levels 0 (map level es) = Ok tt /\
    decode_i64 (nth 0 cols []) (length es) = Ok (map ts es) /\
    decode_u8 (nth 1 cols []) (length es) = Ok (map level es) /\
    encode_template_str (map message es) zl = Ok (nth 2 cols []) /\
    (forall what, zstd_decompress (nth 3 cols []) what = Ok raw).
Proof using ZL PIL.
  intros Hv Hf He H8.
  destruct (encode_block_inv _ _ _ _ _ He) as (lo & hi & raw & c' & cols & lens & _ & Hk & _ & Hs & Hraw & Hcols & Hlens & -> & ->).
  cbn [codec ts_min ts_max] in *. subst c'. apply scan_entries_ok in Hs as [Hr Hlv].
  assert (ts_range (map ts es) = (lo, hi)) as Hrange by (symmetry; exact Hr).
  assert (Forall is_i64 (map ts es)) as Hi64.
  { rewrite Forall_map. eapply Forall_impl; [exact Hv|]. unfold entry_valid. tauto. }
  assert (is_i64 lo /\ is_i64 hi) as [Hlo Hhi].
  { pose proof (range_i64 (map ts es) i64_max i64_min Hi64) as H. rewrite <-Hr in H. by apply H. }
  destruct (typed_codec c) eqn:Et.
  2: { destruct (plain_columns es c raw zl); [|done]. by injection Hcols as -> _. }
  unfold typed_columns in Hcols.
  destruct (if byte_eqb c CODEC_COLUMNAR_V2 then _ else _) as [col_meta|] eqn:Em; [|done].
  destruct (message_column es c zl) as [[c1 col_msg]|] eqn:Emsg; [|done].
  destruct (encode_i64 (map ts es) zl) as [ets|] eqn:Ets; [|done]. destruct (to_bytes ets) as [col_ts|] eqn:Bts; [|done].
  destruct (encode_u8 (map level es) zl) as [elv|] eqn:Elv; [|done]. destruct (to_bytes elv) as [col_lvl|] eqn:Blv; [|done].
  injection Hcols as -> <-. unfold message_column in Emsg.
  destruct (encode_str _ _ zl) as [enc|]; [|done]. destruct (to_bytes enc) as [b|]; [|done].
  destruct (byte_eqb c CODEC_RICH_TEMPLATE) eqn:Ec.
  2: { injection Emsg as -> _. discriminate Ec. }
  apply byte_eqb_eq in Ec as ->. destruct (encode_template_str _ zl) as [tpl|] eqn:Etpl; [|done].
  destruct (_ <? _)%nat; [|done]. injection Emsg as <-.
  change (byte_eqb CODEC_RICH_TEMPLATE CODEC_COLUMNAR_V2) with false in Em. cbn iota in Em.
  destruct Hf as (Hn & _ & Hsz). specialize (Hsz raw Hraw).
  exists raw, [col_ts; col_lvl; tpl; col_meta], lens. cbn [nth]. split_and!; try done.
  - apply check_levels_ok. by rewrite Forall_map.
  - rewrite <-(length_map ts es). eapply i64_round; [done| |done|done].
    unfold vec_fits. rewrite length_map. unfold MAX_BLOCK_ENTRIES, i64_max in *. lia.
  - rewrite <-(length_map level es). by eapply u8_round.
  - intros what. unfold zstd_decompress. by rewrite (zstd_compress_round _ _ _ _ _ Em Hsz).
Qed.

Context (to_lowercase : str -> str).

Lemma message_contains_ascii m needle :
  is_ascii needle = true -> message_contains_ci to_lowercase m needle = contains_ci m needle.
Proof. intros Ha. unfold message_contains_ci, contains_ci. destruct needle; [done|]. by rewrite Ha. Qed.

(** C23: The gate's "no" is a proof of absence on any block without templates.
    Whatever the bytes, if the block decodes, its codec byte is not the template
    codec and the gate answers [false], then no decoded message contains the
    needle, under the engine's own matching rule. *)
Theorem gate_proves_absence (bytes : list byte) (needle : str) (es : list LogEntry) :
  bytes !! 1%nat <> Some CODEC_RICH_TEMPLATE ->
  decode_block bytes = Ok es -> block_message_feasible bytes needle = Ok false ->
  Forall (fun e => message_contains_ci to_lowercase (message e) needle = false) es.
Proof using.
  intros H8 Hd Hg. destruct (gate_sound _ _ _ H8 Hd Hg) as (_ & Ha & Hall). rewrite Forall_map in Hall.
  eapply Forall_impl; [exact Hall|]. intros e He. by rewrite message_contains_ascii.
Qed.

(** C3: On encoded blocks the gate loses no message, whatever the codec: for a
    block encoded from valid entries within the decoder's bounds (for the rich codecs,
    entries whose JSON is canonical) and a needle whose inner digit runs have at most
    19 digits, when the gate answers [false] no entry of the block has a message containing the needle. *)
Theorem encoded_gate_sound (es : list LogEntry) (c : byte) (zl : Z) (bytes : list byte) (m : BlockMeta) (needle : str) :
  Forall entry_valid es -> block_fits c es -> (rich_codec c = true -> Forall rich_ok es) ->
  encode_block es c zl = Ok (bytes, m) -> short_runs needle ->
  block_message_feasible bytes needle = Ok false ->
  Forall (fun e => message_contains_ci to_lowercase (message e) needle = false) es.
Proof using SJL ZL PIL.
  intros Hv Hf Hrich He H19 Hg. rewrite <-(Forall_map message (fun x => message_contains_ci to_lowercase x needle = false)).
  destruct (byte_eqb (codec m) CODEC_RICH_TEMPLATE) eqn:E8.
  - apply byte_eqb_eq in E8.
    destruct (template_block_columns _ _ _ _ _ Hv Hf He E8) as (raw & cols & lens & -> & -> & Hok & _ & _ & _ & _ & _ & Htpl & _).
    unfold block_message_feasible in Hg. destruct needle as [|nc nd]; [done|]. cbn [orb] in Hg.
    destruct (is_ascii (nc :: nd)) eqn:Ha; [|done]. cbn [negb] in Hg.
    destruct (read_container CODEC_RICH_TEMPLATE _ _ _ _ _ Hok) as (r1 & r2 & Hr1 & Hr2 & r3 & Hr3 & Hat).
    rewrite Hr1, Hr2, Hr3 in Hg. change (known_codec CODEC_RICH_TEMPLATE) with true in Hg. cbn [negb d_lens] in Hg.
    destruct Hok as (_ & _ & _ & H4 & _).
    destruct (take_cols_at cols COLUMN_NAMES [] r3 ltac:(by rewrite H4) Hat) as (r4 & Ht & _).
    destruct (take_cols_prefix 3 _ _ _ _ _ Ht) as (r5 & Ht3). rewrite Ht3 in Hg.
    change (byte_eqb CODEC_RICH_TEMPLATE CODEC_RICH_TEMPLATE) with true in Hg. cbn iota in Hg.
    replace (nth 2 (take 3 cols) []) with (nth 2 cols []) in Hg by (by destruct cols as [|? [|? [|? ?]]]).
    destruct (column_may_contain_ok (map message es) zl (nth 2 cols []) (nc :: nd)) as (ans & Hans & Hno); try done.
    { rewrite Forall_map. eapply Forall_impl; [exact Hv|]. unfold entry_valid. tauto. }
    { by destruct Hf as (_ & ? & _). }
    rewrite Hans in Hg. injection Hg as ->. eapply Forall_impl; [by apply Hno|].
    intros x Hx. by rewrite message_contains_ascii.
  - destruct (block_round _ _ _ _ _ Hv Hf Hrich He) as (out & Hout & Hdec & _).
    destruct (encode_block_container _ _ _ _ _ Hv Hf Hrich He) as (c' & cols & lens & _ & Hbytes & _ & _ & Hm & _).
    assert (bytes !! 1%nat <> Some CODEC_RICH_TEMPLATE) as Hb.
    { rewrite Hbytes. rewrite Hm in E8. cbn in E8 |- *. intros [= ->]. discriminate E8. }
    destruct (gate_sound _ _ _ Hb Hdec Hg) as (_ & Ha & Hall).
    destruct (normalized_columns _ _ _ Hout) as (_ & _ & _ & Hmsg & _). rewrite Hmsg in Hall.
    eapply Forall_impl; [exact Hall|]. intros x Hx. by rewrite message_contains_ascii.
Qed.
(** ** The filtered decode *)

Context (P : str -> bool).

Definition kept (i : nat) (msgs : list str) : list (nat * str) :=
  filter (fun p => P p.2 = true) (imap (fun j m => ((i + j)%nat, m)) msgs).
Definition kept_rows (i : nat) (out : list LogEntry) : list (nat * LogEntry) :=
  filter (fun p => P (message p.2) = true) (imap (fun j e => ((i + j)%nat, e)) out).

Lemma imap_shift {A} (i : nat) (x : A) l :
  imap (fun j y => ((i + j)%nat, y)) (x :: l) = (i, x) :: imap (fun j y => ((S i + j)%nat, y)) l.
Proof.
  rewrite imap_cons, Nat.add_0_r. f_equal. apply imap_ext. intros j y _. simpl. by rewrite Nat.add_succ_r.
Qed.

Lemma kept_cons i m msgs : kept i (m :: msgs) = if P m then (i, m) :: kept (S i) msgs else kept (S i) msgs.
Proof. unfold kept. rewrite imap_shift, filter_cons. cbn [snd]. by destruct (P m). Qed.

Lemma kept_rows_cons i e out :
  kept_rows i (e :: out) = if P (message e) then (i, e) :: kept_rows (S i) out else kept_rows (S i) out.
Proof. unfold kept_rows. rewrite imap_shift, filter_cons. cbn [snd]. by destruct (P (message e)). Qed.

Lemma kept_from i msgs row m : (row, m) ∈ kept i msgs -> (i <= row)%nat.
Proof.
  unfold kept. rewrite list_elem_of_filter, elem_of_lookup_imap. intros (_ & j & x & [= -> _] & _). lia.
Qed.

(** A row that was not kept is stepped over. *)
Lemma walk_skip i n keep tss lvls r e b rest :
  rich_entry_bytes e = Ok b -> rd_at r (b ++ rest) -> (forall row m, (row, m) ∈ keep -> row <> i) ->
  exists r', rd_at r' rest /\ walk_rich i (S n) keep tss lvls r = walk_rich (S i) n keep tss lvls r'.
Proof using.
  intros Hb Hr Hk. unfold rich_entry_bytes in Hb. destruct (severity_name e) as [sev|]; [|done].
  destruct (Z.ltb_spec u16_max (Z.of_nat (length sev))); [done|]. destruct (entry_json e) as [json|]; [|done].
  destruct (Z.ltb_spec u32_max (Z.of_nat (length json))); [done|]. injection Hb as <-.
  rewrite <-!List.app_assoc in Hr. cbn [walk_rich].
  rewrite (rd_u16_at _ _ _ _ Hr) by lia. apply rd_at_adv in Hr. rewrite length_u16_le in Hr. rewrite Nat2Z.id.
  rewrite (rd_take_at _ _ _ _ _ Hr eq_refl). apply rd_at_adv in Hr.
  rewrite (rd_u32_at _ _ _ _ Hr) by (unfold is_u32; lia). apply rd_at_adv in Hr. rewrite length_u32_le in Hr.
  rewrite Nat2Z.id, (rd_take_at _ _ _ _ _ Hr eq_refl). apply rd_at_adv in Hr.
  eexists. split; [exact Hr|]. destruct keep as [|[row m] keep]; [done|].
  destruct (Nat.eqb_spec row i) as [->|]; [|done]. by destruct (Hk i m); [constructor|].
Qed.

(** A row that was kept is parsed to its normalized entry. *)
Lemma walk_keep c i n keep tss lvls r e b rest e' :
  rich_codec c = true -> rich_ok e -> normalized c e = Ok e' ->
  rich_entry_bytes e = Ok b -> rd_at r (b ++ rest) ->
  tss !! i = Some (ts e) -> lvls !! i = Some (level e) ->
  exists r', rd_at r' rest /\
    walk_rich i (S n) ((i, message e) :: keep) tss lvls r
    = let? (rows, r) := walk_rich (S i) n keep tss lvls r' in Ok ((i, e') :: rows, r).
Proof using SJL.
  intros Hc [(sev & Hsev & Hcan) Hjson] Hn Hb Hr Ht Hl.
  unfold rich_entry_bytes in Hb. unfold normalized in Hn. rewrite Hc, Hsev in Hn. rewrite Hsev in Hb.
  destruct (Z.ltb_spec u16_max (Z.of_nat (length sev))); [done|].
  destruct (entry_json e) as [json|] eqn:Ej; [|done].
  destruct (Z.ltb_spec u32_max (Z.of_nat (length json))); [done|]. injection Hb as <-.
  destruct (Hjson json eq_refl) as [Hcj Hmp].
  destruct (metadata_pairs_from_json json) as [md|] eqn:Emd; [|done]. injection Hn as <-.
  rewrite <-!List.app_assoc in Hr. cbn [walk_rich]. rewrite Nat.eqb_refl.
  rewrite (rd_u16_at _ _ _ _ Hr) by lia. apply rd_at_adv in Hr. rewrite length_u16_le in Hr.
  unfold read_severity. rewrite Nat2Z.id, (rd_take_at _ _ _ _ _ Hr eq_refl). apply rd_at_adv in Hr.
  unfold from_utf8. rewrite (canonical_severity_str sev Hcan). destruct (canonical_severity sev); [|done]. cbn [map_err].
  unfold read_json. rewrite (rd_u32_at _ _ _ _ Hr) by (unfold is_u32; lia). apply rd_at_adv in Hr. rewrite length_u32_le in Hr.
  rewrite Nat2Z.id, (rd_take_at _ _ _ _ _ Hr eq_refl). apply rd_at_adv in Hr.
  unfold from_utf8. rewrite (entry_json_str e json Ej), Hcj. cbn [map_err]. rewrite Emd.
  unfold index. rewrite Ht, Hl. cbn [ok_or]. eexists. by split; [exact Hr|].
Qed.

Lemma walk_rich_spec c es : forall out bs i tss lvls rest r,
  rich_codec c = true -> Forall rich_ok es -> map_result (normalized c) es = Ok out ->
  map_result rich_entry_bytes es = Ok bs -> rd_at r (concat bs ++ rest) ->
  drop i tss = map ts es -> drop i lvls = map level es ->
  exists r', walk_rich i (length es) (kept i (map message es)) tss lvls r = Ok (kept_rows i out, r') /\ rd_at r' rest.
Proof using SJL.
  induction es as [|e es IH]; intros out bs i tss lvls rest r Hc Hok Hout Hb Hr Ht Hl.
  { injection Hout as <-. injection Hb as <-. by exists r. }
  apply Forall_cons in Hok as [Hoke Hok]. cbn [map_result] in Hout, Hb.
  destruct (normalized c e) as [e'|] eqn:En; [|done].
  destruct (map_result (normalized c) es) as [out'|] eqn:Eo; [|done]. injection Hout as <-.
  destruct (rich_entry_bytes e) as [b|] eqn:Eb; [|done].
  destruct (map_result rich_entry_bytes es) as [bs'|] eqn:Ebs; [|done]. injection Hb as <-.
  cbn [concat] in Hr. rewrite <-List.app_assoc in Hr. cbn [map] in Ht, Hl.
  assert (forall A (l : list A) x k, drop i l = x :: k -> l !! i = Some x /\ drop (S i) l = k) as Hdrop.
  { intros A l x k Hk. split; [by rewrite <-(Nat.add_0_r i), <-lookup_drop, Hk|].
    rewrite <-Nat.add_1_r, <-drop_drop, Hk. done. }
  destruct (Hdrop _ _ _ _ Ht) as [Ht0 Ht1]. destruct (Hdrop _ _ _ _ Hl) as [Hl0 Hl1]. clear Hdrop.
  assert (message e' = message e) as Hm.
  { unfold normalized in En. rewrite Hc in En. inv_ok En. by subst. }
  cbn [map length]. rewrite kept_cons, kept_rows_cons, Hm. destruct (P (message e)).
  - destruct (walk_keep c i (length es) (kept (S i) (map message es)) tss lvls r e b (concat bs' ++ rest) e') as (r1 & Hr1 & ->); try done.
    destruct (IH out' bs' (S i) tss lvls rest r1) as (r2 & -> & Hr2); try done. by exists r2.
  - destruct (walk_skip i (length es) (kept (S i) (map message es)) tss lvls r e b (concat bs' ++ rest)) as (r1 & Hr1 & ->); try done.
    { intros row m Hin%kept_from. lia. }
    by apply (IH out' bs' (S i) tss lvls rest r1).
Qed.
End Encoded.

Section FilteredBlock.
Context `{SJ : SerdeJson} `{SJL : !SerdeJsonLaws} `{ZS : Zstd} `{ZL : !ZstdLaws} `{PI : !Pco Z} `{PIL : !PcoLaws is_i64}.
Context (to_lowercase : str -> str).

(** Row skipping on a block written as codec 8. *)
Lemma filtered_template_block es zl bytes m needle out :
  Forall entry_valid es -> block_fits CODEC_RICH_TEMPLATE es -> Forall rich_ok es ->
  encode_block es CODEC_RICH_TEMPLATE zl = Ok (bytes, m) -> codec m = CODEC_RICH_TEMPLATE ->
  map_result (normalized CODEC_RICH_TEMPLATE) es = Ok out ->
  needle <> [] -> is_ascii needle = true -> short_runs needle ->
  exists k, decode_block_filtered to_lowercase bytes needle
      = Ok (mkFBR (kept_rows (fun m => contains_ci m needle) 0 out) (length es) k) /\ (k <= length es)%nat.
Proof using SJL ZL PIL.
  intros Hv Hf Hok He E8 Hout Hne Ha H19.
  destruct (template_block_columns _ _ _ _ _ Hv Hf He E8)
    as (raw & cols & lens & _ & -> & Hcok & Hraw & Hrange & Hlv & Hts & Hlvl & Htpl & Hz).
  assert (Forall is_str (map message es)) as Hms.
  { rewrite Forall_map. eapply Forall_impl; [exact Hv|]. unfold entry_valid. tauto. }
  destruct (filtered_decode_ok (map message es) zl _ needle Hms (proj1 (proj2 Hf)) Htpl Hne Ha H19) as (k & Hfd & Hk).
  rewrite length_map in Hfd, Hk. exists k. split; [|done].
  unfold decode_block_filtered. replace (match needle with [] => true | _ => false end) with false by (by destruct needle).
  rewrite Ha. cbn [negb orb].
  destruct (read_container CODEC_RICH_TEMPLATE _ _ _ _ _ Hcok) as (r1 & r2 & -> & -> & r3 & -> & Hat).
  change (byte_eqb CODEC_RICH_TEMPLATE CODEC_RICH_TEMPLATE) with true. cbn [negb].
  destruct Hcok as (Hn & _ & _ & H4 & _). rewrite (read_columns_at _ _ _ _ _ H4 Hat). cbn [d_n d_min d_max].
  rewrite Hfd. cbn [rows candidate_rows].
  change (filter (fun p => contains_ci p.2 needle = true) (imap pair (map message es)))
    with (kept (fun m => contains_ci m needle) 0 (map message es)).
  pose proof Hraw as Hser. unfold meta_raw in Hser. change (rich_codec CODEC_RICH_TEMPLATE) with true in Hser.
  cbn iota in Hser. unfold serialize_rich_metadata in Hser.
  destruct (map_result rich_entry_bytes es) as [bs|] eqn:Ebs; [|done]. injection Hser as Hser.
  assert (rd_at (Reader_new raw) (concat bs ++ [])) as Hr.
  { rewrite List.app_nil_r, Hser. apply rd_at_new. destruct Hf as (_ & _ & Hsz). specialize (Hsz raw Hraw).
    pose proof (cap_addressable CODEC_RICH_TEMPLATE). lia. }
  destruct (walk_rich_spec (fun m => contains_ci m needle) CODEC_RICH_TEMPLATE es out bs 0 (map ts es) (map level es) []
    (Reader_new raw) eq_refl Hok Hout Ebs Hr eq_refl eq_refl) as (r' & Hwalk & Hr').
  destruct (kept (fun m => contains_ci m needle) 0 (map message es)) as [|p ps] eqn:Ek.
  - destruct (normalized_columns _ _ _ Hout) as (_ & _ & _ & Hmsg & _). do 2 f_equal.
    rewrite <-Hmsg in Ek. clear -Ek. unfold kept, kept_rows in *. rewrite imap_fmap in Ek.
    symmetry. apply list_filter_none, Forall_forall. intros q Hq Hp.
    apply elem_of_lookup_imap in Hq as (j & e & -> & Hj).
    assert ((j, message e) ∈ []) as []%elem_of_nil. rewrite <-Ek.
    apply list_elem_of_filter. split; [done|]. apply elem_of_lookup_imap. by exists j, e.
  - rewrite Hts, Hlvl, Hlv, Hz, Hwalk. unfold check_rich_end. rewrite (rd_at_remaining _ _ Hr').
    cbn [length Nat.eqb negb].
    pose proof (check_range_ok (length es) (map ts es) (length_map _ _)) as Hcr. rewrite Hrange in Hcr.
    cbn [fst snd] in Hcr. by rewrite Hcr.
Qed.

(** C2: The filtered decode of a block is its full decode, filtered. For every codec,
    on a block encoded from valid entries within the decoder's bounds (for the rich
    codecs, entries whose JSON is canonical) and for a needle whose inner digit runs
    have at most 19 digits (beyond that [wide_run_false_absence] has a counterexample),
    [decode_block_filtered] returns exactly the rows of
    [decode_block] whose message contains the needle, in row order with their
    indices, reports the block's row count, and never claims to have detokenized
    more rows than that. *)
Theorem filtered_block_exact (es : list LogEntry) (c : byte) (zl : Z) (bytes : list byte) (m : BlockMeta) (needle : str) :
  Forall entry_valid es -> block_fits c es -> (rich_codec c = true -> Forall rich_ok es) ->
  encode_block es c zl = Ok (bytes, m) -> short_runs needle ->
  exists out k, decode_block bytes = Ok out /\
    decode_block_filtered to_lowercase bytes needle =
      Ok (mkFBR (filter (fun p => message_contains_ci to_lowercase (message p.2) needle = true) (imap pair out))
            (length out) k) /\
    (k <= length out)%nat.
Proof using SJL ZL PIL.
  intros Hv Hf Hrich He H19.
  destruct (block_round _ _ _ _ _ Hv Hf Hrich He) as (out & Hout & Hdec & _).
  destruct (normalized_columns _ _ _ Hout) as (Hlen & _). exists out.
  assert (full_fallback to_lowercase bytes needle =
    Ok (mkFBR (filter (fun p => message_contains_ci to_lowercase (message p.2) needle = true) (imap pair out))
          (length out) (length out))) as Hfull by (unfold full_fallback; by rewrite Hdec).
  destruct (match needle with [] => true | _ => false end || negb (is_ascii needle)) eqn:Etriv.
  { exists (length out). split_and!; [done| |done]. unfold decode_block_filtered. by rewrite Etriv. }
  apply orb_false_iff in Etriv as Et. destruct Et as [Hne Ha]. apply negb_false_iff in Ha.
  destruct (byte_eqb (codec m) CODEC_RICH_TEMPLATE) eqn:E8.
  - apply byte_eqb_eq in E8.
    destruct (template_block_columns _ _ _ _ _ Hv Hf He E8) as (_ & _ & _ & -> & _).
    destruct (filtered_template_block es zl bytes m needle out) as (k & Hfil & Hk); try done; [by apply Hrich|by destruct needle|].
    exists k. rewrite Hlen. split_and!; [done| |done]. rewrite Hfil. do 2 f_equal. unfold kept_rows.
    apply list_filter_iff. intros p. by rewrite message_contains_ascii.
  - destruct (encode_block_container _ _ _ _ _ Hv Hf Hrich He) as (c' & cols & lens & _ & -> & Hok & _ & Hm & _).
    exists (length out). split_and!; [done| |done]. unfold decode_block_filtered. rewrite Etriv.
    destruct (read_container c' _ _ _ _ _ Hok) as (r1 & r2 & -> & -> & _).
    rewrite Hm in E8. cbn [codec] in E8. by rewrite E8.
Qed.
End FilteredBlock.
