(* ===== verification/MemBlockStore.v ===== *)
(** * The block store

    The storage seam of [blocks/mod.rs] (the [BlockStore] trait) and its
    in-memory implementation [blocks/mem.rs]. A method on [&self] with interior
    mutability becomes a function on the state the lock guards.

    The abstract store is a finite map from block ids to blocks with their term
    sets. [StoreContract] states what the trait promises in terms of it (a block
    is never visible without its postings, postings never dangle, a query returns
    exactly the blocks that carry all terms and overlap the range); the class is
    discharged for [MemInner], and the engine's recovery is proved against the
    class alone. *)
From Stdlib Require Import ZArith Lia Bool Strings.Byte.
From stdpp Require Import prelude gmap list sorting strings fin_maps fin_map_dom.
From S2P Require Import Prelude BTree RustStr LogEntry.
Open Scope string_scope.
Open Scope list_scope.
Open Scope Z_scope.

(** ** The trait

    [replace_blocks] takes the engine's callback as a function of the committed
    locations, the store as it can be read at that moment, and the caller's state. *)
Class BlockStore (S : Type) := {
  put_block : EncodedBlock -> S -> result BlockLoc * S;
  replace_blocks : forall {W : Type}, list EncodedBlock -> list BlockLoc ->
    (list BlockLoc -> S -> W -> W) -> S -> W -> result (list BlockLoc) * S * W;
  read_block : BlockLoc -> S -> result (list byte);
  delete_blocks : list BlockLoc -> S -> list error * S;
  scan : S -> result (list (BlockMeta * BlockLoc));
  query_terms : list str -> Z -> Z -> S -> result (list (BlockLoc * BlockMeta));
  replace_terms : BlockLoc -> list str -> S -> result unit * S;
  purge_term_prefix : str -> S -> result Z * S;
  save_meta : str -> list byte -> S -> result unit * S;
  load_meta : str -> S -> result (option (list byte));
}.

(** The default [put_blocks]: loop over [put_block], stopping at the first error. *)
Fixpoint put_blocks {S} `{BlockStore S} (blocks : list EncodedBlock) (s : S) : result (list BlockLoc) * S :=
  match blocks with
  | [] => (Ok [], s)
  | b :: blocks' =>
    match put_block b s with
    | (Ok loc, s1) =>
      let '(r, s2) := put_blocks blocks' s1 in
      (let? locs := r in Ok (loc :: locs), s2)
    | (Err e, s1) => (Err e, s1)
    end
  end.

(** ** The in-memory store *)

Record MemInner := mkMem {
  next_id : Z;
  blocks : gmap Z (BlockMeta * list byte);
  postings : gmap str (list Z);
  meta_kv : gmap str (list byte);
}.

Definition MemBlockStore_new : MemInner := mkMem 0 ∅ ∅ ∅.

(** [inner.terms.entry(term).or_default().insert(id)]. *)
Definition add_posting (id : Z) (p : gmap str (list Z)) (term : str) : gmap str (list Z) :=
  <[term := bts_insert id (default [] (p !! term))]> p.

Definition insert_one (s : MemInner) (block : EncodedBlock) : BlockLoc * MemInner :=
  let id := next_id s + 1 in
  (mkLoc id, mkMem id (<[id := (meta block, data block)]> (blocks s))
               (fold_left (add_posting id) (terms block) (postings s)) (meta_kv s)).

(** [terms.retain(|_, set| { remove every id; !set.is_empty() })]. *)
Definition retain_without (ids : list Z) (p : gmap str (list Z)) : gmap str (list Z) :=
  omap (fun set =>
    match fold_left (fun s id => bts_remove id s) ids set with [] => None | set' => Some set' end) p.

Definition remove_ids (ids : list Z) (s : MemInner) : MemInner :=
  mkMem (next_id s) (fold_left (fun m id => delete id m) ids (blocks s))
    (retain_without ids (postings s)) (meta_kv s).

Definition mem_purge_term_prefix (prefix : str) (s : MemInner) : result Z * MemInner :=
  let p := filter (fun kv : str * list Z => take (length prefix) kv.1 <> prefix) (postings s) in
  (Ok (Z.of_nat (size (postings s)) - Z.of_nat (size p)), mkMem (next_id s) (blocks s) p (meta_kv s)).

Definition mem_replace_terms (loc : BlockLoc) (ts : list str) (s : MemInner) : result unit * MemInner :=
  match blocks s !! loc_id loc with
  | None => (Err (Fmt "replace_terms: no block {}" [FNum (loc_id loc)]), s)
  | Some _ =>
    (Ok tt, mkMem (next_id s) (blocks s)
              (fold_left (add_posting (loc_id loc)) ts (retain_without [loc_id loc] (postings s))) (meta_kv s))
  end.

Definition mem_put_block (block : EncodedBlock) (s : MemInner) : result BlockLoc * MemInner :=
  let '(loc, s') := insert_one s block in (Ok loc, s').

(** [add.iter().map(insert_one).collect()]. *)
Fixpoint insert_all (add : list EncodedBlock) (s : MemInner) : list BlockLoc * MemInner :=
  match add with
  | [] => ([], s)
  | b :: add' =>
    let '(loc, s1) := insert_one s b in
    let '(locs, s2) := insert_all add' s1 in
    (loc :: locs, s2)
  end.

Definition mem_replace_blocks {W} (add : list EncodedBlock) (remove : list BlockLoc)
    (on_committed : list BlockLoc -> MemInner -> W -> W) (s : MemInner) (w : W)
    : result (list BlockLoc) * MemInner * W :=
  let '(locs, s1) := insert_all add s in
  let w' := on_committed locs s1 w in
  (Ok locs, remove_ids (map loc_id remove) s1, w').

Definition no_block (id : Z) : error := Fmt "MemBlockStore: no block with id {}" [FNum id].

Definition mem_read_block (loc : BlockLoc) (s : MemInner) : result (list byte) :=
  ok_or (snd <$> blocks s !! loc_id loc) (no_block (loc_id loc)).

Definition mem_delete_blocks (locs : list BlockLoc) (s : MemInner) : list error * MemInner :=
  let present loc := bool_decide (is_Some (blocks s !! loc_id loc)) in
  let ids := map loc_id (filter (fun loc => present loc = true) locs) in
  let errors := map (fun loc => no_block (loc_id loc)) (filter (fun loc => present loc = false) locs) in
  (errors, remove_ids ids s).

(** The map in ascending id order ([sort_by_key] on distinct ids). *)
Definition by_id {A} (p q : Z * A) : Prop := p.1 <= q.1.
#[global] Instance by_id_dec {A} : RelDecision (@by_id A).
Proof. unfold by_id. solve_decision. Defined.
Definition sorted_entries {A} (m : gmap Z A) : list (Z * A) := merge_sort by_id (map_to_list m).

Definition mem_scan (s : MemInner) : result (list (BlockMeta * BlockLoc)) :=
  Ok (map (fun e => (e.2.1, mkLoc e.1)) (sorted_entries (blocks s))).

Definition overlaps (m : BlockMeta) (lo hi : Z) : bool := (ts_min m <=? hi) && (lo <=? ts_max m).

(** The intersection loop; [None] is "no term yet". *)
Definition intersect_terms (p : gmap str (list Z)) (ts : list str) : option (list Z) :=
  fold_left (fun ids t =>
    let set := default [] (p !! t) in
    Some (match ids with None => set | Some prev => bts_inter prev set end)) ts None.

Definition mem_query_terms (ts : list str) (lo hi : Z) (s : MemInner) : result (list (BlockLoc * BlockMeta)) :=
  Ok (match intersect_terms (postings s) ts with
      | Some ids =>
        omap (fun id => match blocks s !! id with
                        | Some (m, _) => if overlaps m lo hi then Some (mkLoc id, m) else None
                        | None => None
                        end) ids
      | None =>
        map (fun e => (mkLoc e.1, e.2.1))
          (sorted_entries (filter (fun e : Z * (BlockMeta * list byte) => overlaps e.2.1 lo hi = true) (blocks s)))
      end).

#[global] Instance MemBlockStore : BlockStore MemInner := {|
  put_block := mem_put_block;
  replace_blocks := @mem_replace_blocks;
  read_block := mem_read_block;
  delete_blocks := mem_delete_blocks;
  scan := mem_scan;
  query_terms := mem_query_terms;
  replace_terms := mem_replace_terms;
  purge_term_prefix := mem_purge_term_prefix;
  save_meta key value s := (Ok tt, mkMem (next_id s) (blocks s) (postings s) (<[key := value]> (meta_kv s)));
  load_meta key s := Ok (meta_kv s !! key);
|}.

(** ** The contract *)

Record ABlock := mkABlock { a_meta : BlockMeta; a_data : list byte; a_terms : gset str }.
Abbreviation AStore := (gmap Z ABlock).

Definition abs_block (b : EncodedBlock) : ABlock := mkABlock (meta b) (data b) (list_to_set (terms b)).

(** [adds a bs locs a']: the blocks [bs] were stored under the fresh ids [locs]. *)
Inductive adds : AStore -> list EncodedBlock -> list BlockLoc -> AStore -> Prop :=
| adds_nil a : adds a [] [] a
| adds_cons a b bs id locs a' :
    a !! id = None -> adds (<[id := abs_block b]> a) bs locs a' -> adds a (b :: bs) (mkLoc id :: locs) a'.

Definition without (ids : list Z) (a : AStore) : AStore := filter (fun p : Z * ABlock => p.1 ∉ ids) a.

Definition with_terms (ts : list str) (b : ABlock) : ABlock := mkABlock (a_meta b) (a_data b) (list_to_set ts).

Definition strip_prefix_terms (prefix : str) (b : ABlock) : ABlock :=
  mkABlock (a_meta b) (a_data b) (filter (fun t => take (length prefix) t <> prefix) (a_terms b)).

(** The blocks a query must return. *)
Definition answers (a : AStore) (ts : list str) (lo hi : Z) (loc : BlockLoc) (m : BlockMeta) : Prop :=
  exists b, a !! loc_id loc = Some b /\ a_meta b = m /\ list_to_set ts ⊆ a_terms b /\ overlaps m lo hi = true.

Class StoreContract {S : Type} `{BlockStore S} (store_ok : S -> AStore -> Prop) : Prop := {
  contract_put s a b :
    store_ok s a ->
    exists id s', put_block b s = (Ok (mkLoc id), s') /\ a !! id = None /\ store_ok s' (<[id := abs_block b]> a);
  contract_replace {W} add remove (cb : list BlockLoc -> S -> W -> W) s a w :
    store_ok s a ->
    exists locs s1 a1 s', adds a add locs a1 /\ store_ok s1 a1 /\
      store_ok s' (without (map loc_id remove) a1) /\
      replace_blocks add remove cb s w = (Ok locs, s', cb locs s1 w);
  contract_read s a loc :
    store_ok s a ->
    match a !! loc_id loc with
    | Some b => read_block loc s = Ok (a_data b)
    | None => is_ok (read_block loc s) = false
    end;
  contract_delete s a locs :
    store_ok s a ->
    exists errors s', delete_blocks locs s = (errors, s') /\ store_ok s' (without (map loc_id locs) a) /\
      length errors = length (filter (fun loc => a !! loc_id loc = None) locs);
  contract_scan s a :
    store_ok s a ->
    exists l, scan s = Ok l /\ StronglySorted Z.lt (map (fun e => loc_id e.2) l) /\
      forall m loc, (m, loc) ∈ l <-> exists b, a !! loc_id loc = Some b /\ a_meta b = m;
  contract_query s a ts lo hi :
    store_ok s a ->
    exists l, query_terms ts lo hi s = Ok l /\ StronglySorted Z.lt (map (fun e => loc_id e.1) l) /\
      forall loc m, (loc, m) ∈ l <-> answers a ts lo hi loc m;
  contract_replace_terms s a loc ts :
    store_ok s a ->
    match a !! loc_id loc with
    | Some b => exists s', replace_terms loc ts s = (Ok tt, s') /\ store_ok s' (<[loc_id loc := with_terms ts b]> a)
    | None => exists e, replace_terms loc ts s = (Err e, s)
    end;
  contract_purge s a prefix :
    store_ok s a ->
    exists n s', purge_term_prefix prefix s = (Ok n, s') /\ store_ok s' (strip_prefix_terms prefix <$> a);
}.

(** ** The in-memory store keeps the contract *)

Definition carries (s : MemInner) (id : Z) (t : str) : Prop := exists set, postings s !! t = Some set /\ id ∈ set.

(** The invariant: payloads and metadata as in the map; every posting list is a
    nonempty sorted set, and a block is listed under a term exactly when it is
    stored with it; ids never exceed the counter. *)
Record mem_ok (s : MemInner) (a : AStore) : Prop := mk_mem_ok {
  ok_blocks id : blocks s !! id = (fun b => (a_meta b, a_data b)) <$> a !! id;
  ok_sets t set : postings s !! t = Some set -> bts_wf set /\ set <> [];
  ok_terms id t : carries s id t <-> exists b, a !! id = Some b /\ t ∈ a_terms b;
  ok_ids id : is_Some (a !! id) -> id <= next_id s;
}.

Definition posts (p : gmap str (list Z)) (id : Z) (t : str) : Prop := exists set, p !! t = Some set /\ id ∈ set.
Definition sets_wf (p : gmap str (list Z)) : Prop := forall t set, p !! t = Some set -> bts_wf set /\ set <> [].

Lemma add_postings_spec id ts : forall p,
  sets_wf p -> sets_wf (fold_left (add_posting id) ts p) /\
  forall id' t, posts (fold_left (add_posting id) ts p) id' t <-> posts p id' t \/ (id' = id /\ t ∈ ts).
Proof.
  induction ts as [|t0 ts IH]; intros p Hp; cbn [fold_left].
  { split; [done|]. intros. rewrite elem_of_nil. naive_solver. }
  assert (bts_wf (default [] (p !! t0))) as Hdef
    by (destruct (p !! t0) as [set|] eqn:E; [by apply Hp in E as [? _]|constructor]).
  destruct (IH (add_posting id p t0)) as [H1 H2].
  { intros t set. unfold add_posting. destruct (decide (t = t0)) as [->|Hne].
    - rewrite lookup_insert_eq. intros [= <-]. split; [by apply bts_insert_wf|].
      intros Hnil. assert (id ∈ bts_insert id (default [] (p !! t0))) as Hin by (apply elem_of_bts_insert; by left).
      rewrite Hnil in Hin. by apply elem_of_nil in Hin.
    - rewrite lookup_insert_ne by done. apply Hp. }
  split; [done|]. intros id' t. rewrite H2, elem_of_cons. unfold posts, add_posting.
  destruct (decide (t = t0)) as [->|Hne].
  - setoid_rewrite lookup_insert_eq. split.
    + intros [(set & [= <-] & Hin)|[-> ?]]; [|by right; auto].
      apply elem_of_bts_insert in Hin as [->|Hin]; [by right; auto|]. left.
      destruct (p !! t0) as [set|]; [by exists set|by apply elem_of_nil in Hin].
    + intros [(set & Hs & Hin)|[-> _]].
      * left. eexists. split; [done|]. rewrite Hs. apply elem_of_bts_insert. by right.
      * left. eexists. split; [done|]. apply elem_of_bts_insert. by left.
  - setoid_rewrite lookup_insert_ne; [|done]. naive_solver.
Qed.

Lemma remove_all_spec (ids : list Z) : forall set : list Z,
  bts_wf set -> bts_wf (fold_left (fun s id => bts_remove id s) ids set) /\
  forall x, x ∈ fold_left (fun s id => bts_remove id s) ids set <-> x ∈ set /\ (x ∉ ids).
Proof.
  induction ids as [|id ids IH]; intros set Hs; cbn [fold_left].
  { split; [done|]. intros x. split; [intros H; split; [done|apply not_elem_of_nil]|tauto]. }
  destruct (IH (bts_remove id set) (bts_remove_wf _ _ Hs)) as [H1 H2]. split; [done|].
  intros x. rewrite H2, elem_of_bts_remove, not_elem_of_cons by done. tauto.
Qed.

Lemma retain_without_spec ids p :
  sets_wf p -> sets_wf (retain_without ids p) /\
  forall id t, posts (retain_without ids p) id t <-> posts p id t /\ (id ∉ ids).
Proof.
  intros Hp. unfold retain_without, posts, sets_wf. setoid_rewrite lookup_omap. split.
  - intros t set. destruct (p !! t) as [set0|] eqn:E; [|done]. simpl. apply Hp in E as [Hwf _].
    destruct (remove_all_spec ids set0 Hwf) as [H1 _].
    destruct (fold_left _ ids set0); [done|]. intros [= <-]. done.
  - intros id t. destruct (p !! t) as [set0|] eqn:E; simpl; [|naive_solver].
    apply Hp in E as [Hwf _]. destruct (remove_all_spec ids set0 Hwf) as [_ H2]. specialize (H2 id).
    destruct (fold_left _ ids set0) as [|y l] eqn:Ef.
    + split; [naive_solver|]. intros [(? & [= <-] & Hin) Hni].
      assert (id ∈ []) as []%elem_of_nil by (apply H2; auto).
    + split; [intros (? & [= <-] & Hin); apply H2 in Hin; naive_solver|].
      intros [(? & [= <-] & Hin) Hni]. eexists. split; [done|]. by apply H2.
Qed.

Lemma delete_all_lookup {V} ids : forall (m : gmap Z V) id,
  fold_left (fun m id => delete id m) ids m !! id = if decide (id ∈ ids) then None else m !! id.
Proof.
  induction ids as [|i ids IH]; intros m id; cbn [fold_left]; [done|]. rewrite IH.
  destruct (decide (id ∈ ids)), (decide (id ∈ i :: ids)) as [Hc|Hc]; try done.
  - exfalso. apply Hc. by right.
  - apply elem_of_cons in Hc as [->|]; [|done]. by rewrite lookup_delete_eq.
  - rewrite lookup_delete_ne; [done|]. intros ->. apply Hc. by left.
Qed.

Lemma lookup_without ids (a : AStore) id : without ids a !! id = if decide (id ∈ ids) then None else a !! id.
Proof.
  unfold without. destruct (decide (id ∈ ids)) as [Hin|Hin].
  - apply map_lookup_filter_None. right. intros b _ Hb. by apply Hb.
  - destruct (a !! id) as [b|] eqn:E.
    + by apply map_lookup_filter_Some.
    + apply map_lookup_filter_None. by left.
Qed.

Lemma insert_one_ok s a b :
  mem_ok s a ->
  let '(loc, s') := insert_one s b in
  a !! loc_id loc = None /\ mem_ok s' (<[loc_id loc := abs_block b]> a).
Proof.
  intros [Hb Hs Ht Hi]. unfold insert_one. cbn [loc_id]. set (id := next_id s + 1).
  assert (a !! id = None) as Hfresh.
  { destruct (a !! id) eqn:E; [|done]. assert (id <= next_id s) by (apply Hi; by rewrite E). lia. }
  split; [done|].
  destruct (add_postings_spec id (terms b) (postings s) Hs) as [P1 P2]. constructor; cbn [blocks postings next_id].
  - intros id'. destruct (decide (id' = id)) as [->|Hne]; [by rewrite !lookup_insert_eq|].
    by rewrite !lookup_insert_ne by done.
  - exact P1.
  - intros id' t. change (carries (mkMem _ _ ?p _) id' t) with (posts p id' t). rewrite P2.
    change (posts (postings s) id' t) with (carries s id' t). rewrite Ht.
    destruct (decide (id' = id)) as [->|Hne].
    + rewrite Hfresh, lookup_insert_eq. split.
      * intros [(? & ? & _)|[_ Hin]]; [done|]. eexists. split; [done|]. simpl. by apply elem_of_list_to_set.
      * intros (? & [= <-] & Hin). right. split; [done|]. simpl in Hin. by apply elem_of_list_to_set in Hin.
    + rewrite lookup_insert_ne by done. naive_solver.
  - intros id' Hsome. destruct (decide (id' = id)) as [->|Hne]; [lia|].
    rewrite lookup_insert_ne in Hsome by done. apply Hi in Hsome. unfold id. lia.
Qed.

Lemma insert_all_ok add : forall s a,
  mem_ok s a -> let '(locs, s') := insert_all add s in exists a', adds a add locs a' /\ mem_ok s' a'.
Proof.
  induction add as [|b add IH]; intros s a Hok; cbn [insert_all]; [by exists a; split; [constructor|]|].
  pose proof (insert_one_ok s a b Hok) as H. destruct (insert_one s b) as [[id] s1]. destruct H as [Hf Hok1].
  pose proof (IH s1 _ Hok1) as H. destruct (insert_all add s1) as [locs s2]. destruct H as (a' & Ha & Hok2).
  exists a'. split; [by constructor|done].
Qed.

Lemma remove_ids_ok ids s a : mem_ok s a -> mem_ok (remove_ids ids s) (without ids a).
Proof.
  intros [Hb Hs Ht Hi]. destruct (retain_without_spec ids (postings s) Hs) as [P1 P2].
  constructor; cbn [blocks postings next_id remove_ids].
  - intros id. rewrite delete_all_lookup, lookup_without. by destruct (decide (id ∈ ids)).
  - exact P1.
  - intros id t. change (carries (remove_ids ids s) id t) with (posts (retain_without ids (postings s)) id t). rewrite P2.
    change (posts (postings s) id t) with (carries s id t). rewrite Ht, lookup_without.
    destruct (decide (id ∈ ids)); naive_solver.
  - intros id. rewrite lookup_without. destruct (decide (id ∈ ids)); [by intros []|apply Hi].
Qed.

(** ** Queries *)

Lemma sorted_entries_spec {A} (m : gmap Z A) :
  StronglySorted Z.lt (map fst (sorted_entries m)) /\ forall id x, (id, x) ∈ sorted_entries m <-> m !! id = Some x.
Proof.
  unfold sorted_entries. pose proof (merge_sort_Permutation by_id (map_to_list m)) as Hp.
  assert (StronglySorted by_id (merge_sort by_id (map_to_list m))) as Hs.
  { apply Sorted_StronglySorted; [intros x y z; unfold by_id; lia|]. apply Sorted_merge_sort.
    intros x y. unfold by_id. lia. }
  split.
  - assert (NoDup (map fst (merge_sort by_id (map_to_list m)))) as Hnd.
    { eapply (NoDup_Permutation_proper _ _ (fmap_Permutation fst _ _ Hp)). apply NoDup_fst_map_to_list. }
    clear Hp. induction Hs as [|p l Hs IH Hf]; [constructor|]. cbn [map] in *. apply NoDup_cons in Hnd as [Hni Hnd].
    constructor; [by apply IH|]. apply Forall_map, Forall_forall. intros q Hq.
    pose proof (proj1 (Forall_forall _ _) Hf _ Hq) as Hle. unfold by_id in Hle.
    assert (p.1 <> q.1) by (intros Heq; apply Hni; rewrite Heq; by apply (list_elem_of_fmap_2 fst)). lia.
  - intros id x. rewrite Hp. apply elem_of_map_to_list.
Qed.

Lemma intersect_go_spec p ts : forall acc,
  sets_wf p -> (forall l, acc = Some l -> bts_wf l) ->
  match fold_left (fun ids t =>
    let set := default [] (p !! t) in
    Some (match ids with None => set | Some prev => bts_inter prev set end)) ts acc with
  | Some ids => bts_wf ids /\ forall id, id ∈ ids <->
      (match acc with Some l => id ∈ l | None => True end) /\ Forall (fun t => posts p id t) ts
  | None => acc = None /\ ts = []
  end.
Proof.
  induction ts as [|t ts IH]; intros acc Hp Hacc; cbn [fold_left].
  { destruct acc as [l|]; [|done]. split; [by apply Hacc|]. intros id. rewrite Forall_nil. tauto. }
  set (set0 := default [] (p !! t)).
  assert (bts_wf set0) as Hwf by (unfold set0; destruct (p !! t) as [l|] eqn:E; [by apply Hp in E as [? _]|constructor]).
  assert (forall id, id ∈ set0 <-> posts p id t) as Hset.
  { intros id. unfold set0, posts. destruct (p !! t) as [l|] eqn:E; simpl.
    - naive_solver.
    - rewrite elem_of_nil. naive_solver. }
  set (acc' := match acc with None => set0 | Some prev => bts_inter prev set0 end).
  assert (bts_wf acc') as Hacc' by (unfold acc'; destruct acc as [l|]; [by apply bts_inter_wf, Hacc|done]).
  pose proof (IH (Some acc') Hp ltac:(intros l [= <-]; done)) as H.
  destruct (fold_left _ ts (Some acc')) as [ids|]; [|by destruct H].
  destruct H as [H1 H2]. split; [done|]. intros id. rewrite H2, Forall_cons. unfold acc'.
  destruct acc as [l|]; [rewrite elem_of_bts_inter|]; rewrite Hset; tauto.
Qed.

Lemma intersect_terms_spec p ts :
  sets_wf p ->
  match intersect_terms p ts with
  | Some ids => bts_wf ids /\ forall id, id ∈ ids <-> Forall (fun t => posts p id t) ts
  | None => ts = []
  end.
Proof.
  intros Hp. pose proof (intersect_go_spec p ts None Hp ltac:(done)) as H. unfold intersect_terms. cbv zeta in *.
  destruct (fold_left _ ts None) as [ids|]; [|tauto]. destruct H as [H1 H2]. split; [done|]. intros id. rewrite H2. tauto.
Qed.

Lemma StronglySorted_omap {A} (f : Z -> option A) (key : A -> Z) ids :
  (forall id x, f id = Some x -> key x = id) -> StronglySorted Z.lt ids -> StronglySorted Z.lt (map key (omap f ids)).
Proof.
  intros Hf. induction 1 as [|id ids Hs IH Hlt]; [constructor|].
  change (omap f (id :: ids)) with (match f id with Some y => y :: omap f ids | None => omap f ids end).
  destruct (f id) as [y|] eqn:E; [|done]. cbn [map]. constructor; [done|]. apply Forall_map, Forall_forall.
  intros z Hz. apply list_elem_of_omap in Hz as (i & Hi & Hz). rewrite (Hf _ _ E), (Hf _ _ Hz).
  exact (proj1 (Forall_forall _ _) Hlt _ Hi).
Qed.

Lemma bts_wf_lt (l : list Z) : bts_wf l <-> StronglySorted Z.lt l.
Proof.
  unfold bts_wf. split; induction 1; constructor; try done;
    (eapply Forall_impl; [eassumption|]; intros x Hx; by apply Z.compare_lt_iff).
Qed.

Lemma mem_query_ok s a ts lo hi :
  mem_ok s a ->
  exists l, mem_query_terms ts lo hi s = Ok l /\ StronglySorted Z.lt (map (fun e => loc_id e.1) l) /\
    forall loc m, (loc, m) ∈ l <-> answers a ts lo hi loc m.
Proof.
  intros [Hb Hs Ht Hi]. unfold mem_query_terms. eexists. split; [done|].
  pose proof (intersect_terms_spec (postings s) ts Hs) as H.
  assert (forall id, Forall (fun t => posts (postings s) id t) ts /\ is_Some (a !! id) <->
            exists b, a !! id = Some b /\ list_to_set ts ⊆ a_terms b) as Hall.
  { intros id. split.
    - intros [Hp [b Hid]]. exists b. split; [done|]. intros t Hin%elem_of_list_to_set.
      pose proof (proj1 (Forall_forall _ _) Hp _ Hin) as Hc. apply Ht in Hc as (b' & Hb' & ?). congruence.
    - intros (b & Hid & Hsub). split; [|by eexists]. apply Forall_forall. intros t Hin. apply Ht.
      exists b. split; [done|]. apply Hsub. by apply elem_of_list_to_set. }
  destruct (intersect_terms (postings s) ts) as [ids|].
  - destruct H as [Hwf Hids]. split.
    + apply StronglySorted_omap; [|by apply bts_wf_lt]. intros id x Hx.
      destruct (blocks s !! id) as [[m0 d0]|]; [|done]. destruct (overlaps m0 lo hi); [|done]. by injection Hx as <-.
    + intros [id] m. rewrite list_elem_of_omap. unfold answers. cbn [loc_id]. split.
      * intros (id' & Hin & Hx). rewrite Hb in Hx. destruct (a !! id') as [b|] eqn:E; [|done]. cbn in Hx.
        destruct (overlaps (a_meta b) lo hi) eqn:Eo; [|done]. injection Hx as <- <-.
        apply Hids in Hin. destruct (proj1 (Hall id')) as (b' & Hb' & Hsub); [by split; [|by eexists]|].
        rewrite E in Hb'. injection Hb' as <-. by exists b.
      * intros (b & Hid & <- & Hsub & Ho). exists id. split.
        { apply Hids. apply (Hall id). by exists b. }
        rewrite Hb, Hid. cbn. by rewrite Ho.
  - subst ts. destruct (sorted_entries_spec (filter (fun e : Z * (BlockMeta * list byte) =>
      overlaps e.2.1 lo hi = true) (blocks s))) as [S1 S2]. split; [by rewrite map_map|].
    intros [id] m. rewrite list_elem_of_fmap. unfold answers. cbn [loc_id]. split.
    + intros ([id' [m' d']] & [= -> ->] & Hin). apply S2, map_lookup_filter_Some in Hin as [Hin Ho].
      rewrite Hb in Hin. destruct (a !! id') as [b|] eqn:E; [|done]. cbn in Hin. injection Hin as <- <-.
      exists b. split_and!; try done.
    + intros (b & Hid & <- & _ & Ho). exists (id, (a_meta b, a_data b)). split; [done|].
      apply S2, map_lookup_filter_Some. split; [by rewrite Hb, Hid|done].
Qed.

Lemma purge_ok s a prefix :
  mem_ok s a -> mem_ok (mem_purge_term_prefix prefix s).2 (strip_prefix_terms prefix <$> a).
Proof.
  intros [Hb Hs Ht Hi]. unfold mem_purge_term_prefix. constructor; cbn [snd blocks postings next_id].
  - intros id. rewrite lookup_fmap, Hb. by destruct (a !! id).
  - intros t set [H _]%map_lookup_filter_Some. by apply Hs in H.
  - intros id t. unfold carries. cbn [postings]. setoid_rewrite map_lookup_filter_Some. setoid_rewrite lookup_fmap.
    pose proof (Ht id t) as Hc. unfold carries in Hc. split.
    + intros (set & (Hset & Hne) & Hin). destruct (proj1 Hc) as (b & Hid & Hin2); [by exists set|].
      rewrite Hid. eexists. split; [done|]. simpl. apply elem_of_filter. done.
    + intros (b & Hid & Hin). destruct (a !! id) as [b0|] eqn:E; [|done]. simpl in Hid. injection Hid as <-.
      simpl in Hin. apply elem_of_filter in Hin as [Hne Hin].
      destruct (proj2 Hc) as (set & Hset & Hin2); [by exists b0|]. by exists set.
  - intros id. rewrite lookup_fmap, fmap_is_Some. apply Hi.
Qed.

Lemma replace_terms_ok s a loc ts b :
  mem_ok s a -> a !! loc_id loc = Some b ->
  exists s', mem_replace_terms loc ts s = (Ok tt, s') /\ mem_ok s' (<[loc_id loc := with_terms ts b]> a).
Proof.
  intros [Hb Hs Ht Hi] Hid. unfold mem_replace_terms. rewrite Hb, Hid. cbn [fmap option_fmap option_map].
  eexists. split; [done|]. set (id := loc_id loc) in *.
  destruct (retain_without_spec [id] (postings s) Hs) as [R1 R2].
  destruct (add_postings_spec id ts _ R1) as [P1 P2]. constructor; cbn [blocks postings next_id].
  - intros id'. destruct (decide (id' = id)) as [->|Hne]; [by rewrite lookup_insert_eq, Hb, Hid|].
    by rewrite lookup_insert_ne by done.
  - exact P1.
  - intros id' t. change (carries (mkMem _ _ ?p _) id' t) with (posts p id' t). rewrite P2, R2.
    change (posts (postings s) id' t) with (carries s id' t). rewrite Ht, list_elem_of_singleton.
    destruct (decide (id' = id)) as [->|Hne].
    + rewrite lookup_insert_eq. split.
      * intros [[_ ?]|[_ Hin]]; [done|]. eexists. split; [done|]. simpl. by apply elem_of_list_to_set.
      * intros (? & [= <-] & Hin). right. split; [done|]. by apply elem_of_list_to_set in Hin.
    + rewrite lookup_insert_ne by done. naive_solver.
  - intros id' Hsome. destruct (decide (id' = id)) as [->|Hne]; [apply Hi; by rewrite Hid|].
    rewrite lookup_insert_ne in Hsome by done. by apply Hi.
Qed.

#[global] Instance MemBlockStore_contract : StoreContract mem_ok.
Proof.
  constructor.
  - intros s a b Hok. pose proof (insert_one_ok s a b Hok) as H. cbn [put_block MemBlockStore]. unfold mem_put_block.
    destruct (insert_one s b) as [[id] s']. destruct H as [Hf Hok']. by exists id, s'.
  - intros W add remove cb s a w Hok. pose proof (insert_all_ok add s a Hok) as H.
    cbn [replace_blocks MemBlockStore]. unfold mem_replace_blocks.
    destruct (insert_all add s) as [locs s1]. destruct H as (a1 & Ha & Hok1).
    exists locs, s1, a1, (remove_ids (map loc_id remove) s1). split_and!; try done. by apply remove_ids_ok.
  - intros s a loc Hok. cbn [read_block MemBlockStore]. unfold mem_read_block. rewrite (ok_blocks _ _ Hok).
    by destruct (a !! loc_id loc).
  - intros s a locs Hok. cbn [delete_blocks MemBlockStore]. unfold mem_delete_blocks. eexists _, _. split; [done|].
    set (ids := map loc_id (filter (fun loc => bool_decide (is_Some (blocks s !! loc_id loc)) = true) locs)). split.
    + replace (without (map loc_id locs) a) with (without ids a); [by apply remove_ids_ok|].
      apply map_eq. intros id. rewrite !lookup_without. unfold ids.
      destruct (decide (id ∈ map loc_id locs)) as [Hin|Hin].
      * destruct (decide _) as [_|Hni]; [done|]. destruct (a !! id) as [b|] eqn:E; [|done]. exfalso. apply Hni.
        apply list_elem_of_fmap in Hin as (loc & -> & Hloc). apply list_elem_of_fmap. exists loc. split; [done|].
        apply list_elem_of_filter. split; [|done]. apply bool_decide_eq_true. by rewrite (ok_blocks _ _ Hok), E.
      * rewrite decide_False; [done|]. intros H. apply Hin.
        apply list_elem_of_fmap in H as (loc & -> & Hloc). apply list_elem_of_filter in Hloc as [_ Hloc].
        by apply (list_elem_of_fmap_2 loc_id).
    + rewrite length_map. f_equal. apply list_filter_iff. intros loc.
      rewrite bool_decide_eq_false, (ok_blocks _ _ Hok), fmap_is_Some, eq_None_not_Some. done.
  - intros s a Hok. cbn [scan MemBlockStore]. unfold mem_scan. eexists. split; [done|].
    destruct (sorted_entries_spec (blocks s)) as [S1 S2]. rewrite map_map. split; [done|].
    intros m [id]. rewrite list_elem_of_fmap. cbn [loc_id]. split.
    + intros ([id' [m' d']] & [= -> ->] & Hin). apply S2 in Hin. rewrite (ok_blocks _ _ Hok) in Hin.
      destruct (a !! id') as [b|] eqn:E; [|done]. cbn in Hin. injection Hin as <- <-. by exists b.
    + intros (b & Hid & <-). exists (id, (a_meta b, a_data b)). split; [done|]. apply S2.
      by rewrite (ok_blocks _ _ Hok), Hid.
  - intros. by apply mem_query_ok.
  - intros s a loc ts Hok. cbn [replace_terms MemBlockStore]. destruct (a !! loc_id loc) as [b|] eqn:E.
    + by apply replace_terms_ok.
    + unfold mem_replace_terms. rewrite (ok_blocks _ _ Hok), E. by eexists.
  - intros s a prefix Hok. cbn [purge_term_prefix MemBlockStore]. eexists _, _. split; [done|]. by apply purge_ok.
Qed.

Lemma mem_new_ok : mem_ok MemBlockStore_new ∅.
Proof.
  constructor; try done.
  - intros id t. unfold carries. cbn. setoid_rewrite lookup_empty. naive_solver.
  - intros id [? H]. done.
Qed.

(** ** Runs of operations *)

Inductive store_op :=
| OpPut (b : EncodedBlock)
| OpReplace (add : list EncodedBlock) (remove : list BlockLoc)
| OpDelete (locs : list BlockLoc)
| OpReplaceTerms (loc : BlockLoc) (ts : list str)
| OpPurge (prefix : str).

Section Contract.
Context {S : Type} `{BS : BlockStore S} {store_ok : S -> AStore -> Prop} `{SC : !StoreContract store_ok}.

Definition run_op (o : store_op) (s : S) : S :=
  match o with
  | OpPut b => (put_block b s).2
  | OpReplace add remove => (replace_blocks add remove (fun _ _ w => w) s tt).1.2
  | OpDelete locs => (delete_blocks locs s).2
  | OpReplaceTerms loc ts => (replace_terms loc ts s).2
  | OpPurge prefix => (purge_term_prefix prefix s).2
  end.

(** The same operations on the abstract store; ids are any fresh ones. *)
Inductive spec_step : store_op -> AStore -> AStore -> Prop :=
| spec_put b id a : a !! id = None -> spec_step (OpPut b) a (<[id := abs_block b]> a)
| spec_replace add remove locs a a1 :
    adds a add locs a1 -> spec_step (OpReplace add remove) a (without (map loc_id remove) a1)
| spec_delete locs a : spec_step (OpDelete locs) a (without (map loc_id locs) a)
| spec_terms loc ts a b :
    a !! loc_id loc = Some b -> spec_step (OpReplaceTerms loc ts) a (<[loc_id loc := with_terms ts b]> a)
| spec_terms_missing loc ts a : a !! loc_id loc = None -> spec_step (OpReplaceTerms loc ts) a a
| spec_purge prefix a : spec_step (OpPurge prefix) a (strip_prefix_terms prefix <$> a).

Inductive spec_steps : list store_op -> AStore -> AStore -> Prop :=
| spec_done a : spec_steps [] a a
| spec_next o os a a1 a2 : spec_step o a a1 -> spec_steps os a1 a2 -> spec_steps (o :: os) a a2.

Lemma run_op_refines o s a : store_ok s a -> exists a', spec_step o a a' /\ store_ok (run_op o s) a'.
Proof using SC.
  intros Hok. destruct o as [b|add remove|locs|loc ts|prefix]; cbn [run_op].
  - destruct (contract_put s a b Hok) as (id & s' & -> & Hf & Hok'). eexists. by split; [apply spec_put|].
  - destruct (contract_replace add remove (fun _ _ w => w) s a tt Hok) as (locs & s1 & a1 & s' & Ha & _ & Hok' & ->).
    eexists. split; [by eapply spec_replace|done].
  - destruct (contract_delete s a locs Hok) as (es & s' & -> & Hok' & _). eexists. by split; [apply spec_delete|].
  - pose proof (contract_replace_terms s a loc ts Hok) as H. destruct (a !! loc_id loc) as [b|] eqn:E.
    + destruct H as (s' & -> & Hok'). eexists. by split; [apply spec_terms|].
    + destruct H as (e & ->). eexists. by split; [apply spec_terms_missing|].
  - destruct (contract_purge s a prefix Hok) as (n & s' & -> & Hok'). eexists. by split; [apply spec_purge|].
Qed.

Lemma run_refines os : forall s a,
  store_ok s a -> exists a', spec_steps os a a' /\ store_ok (fold_left (fun s o => run_op o s) os s) a'.
Proof using SC.
  induction os as [|o os IH]; intros s a Hok; [by exists a; split; [constructor|]|].
  destruct (run_op_refines o s a Hok) as (a1 & Hs & Hok1). destruct (IH _ _ Hok1) as (a2 & Hss & Hok2).
  exists a2. split; [by econstructor|done].
Qed.

Lemma adds_kept a bs locs a' : adds a bs locs a' -> forall id b, a !! id = Some b -> a' !! id = Some b.
Proof.
  induction 1 as [|a b0 bs id0 locs a' Hf _ IH]; intros id b Hid; [done|]. apply IH.
  rewrite lookup_insert_ne; [done|]. intros <-. congruence.
Qed.

Lemma adds_present a bs locs a' :
  adds a bs locs a' -> Forall2 (fun b loc => a' !! loc_id loc = Some (abs_block b)) bs locs.
Proof.
  induction 1 as [|a b bs id locs a' Hf Ha IH]; constructor; [|done].
  cbn [loc_id]. eapply adds_kept; [exact Ha|]. by rewrite lookup_insert_eq.
Qed.

(** The compaction swap of any store that keeps the contract. *)
Lemma replace_no_window {W : Type} (add : list EncodedBlock) (remove : list BlockLoc)
    (cb : list BlockLoc -> S -> W -> W) (s : S) (a : AStore) (w : W) :
  store_ok s a ->
  exists locs committed s',
    replace_blocks add remove cb s w = (Ok locs, s', cb locs committed w) /\
    Forall2 (fun b loc => read_block loc committed = Ok (data b)) add locs /\
    (forall loc bytes, read_block loc s = Ok bytes -> read_block loc committed = Ok bytes) /\
    (forall loc, loc ∈ remove -> is_ok (read_block loc s') = false) /\
    Forall2 (fun b loc => (loc ∉ remove) -> read_block loc s' = Ok (data b)) add locs.
Proof using SC.
  intros Hok. destruct (contract_replace add remove cb s a w Hok) as (locs & s1 & a1 & s' & Ha & Hok1 & Hok' & Hr).
  exists locs, s1, s'. pose proof (adds_present _ _ _ _ Ha) as Hp. split_and!; [done| | | |].
  - eapply Forall2_impl; [exact Hp|]. intros b loc Hl. pose proof (contract_read s1 a1 loc Hok1) as H. by rewrite Hl in H.
  - intros loc bytes Hb. pose proof (contract_read s a loc Hok) as H. destruct (a !! loc_id loc) as [b|] eqn:E.
    + rewrite Hb in H. injection H as ->. pose proof (contract_read s1 a1 loc Hok1) as H1.
      by rewrite (adds_kept _ _ _ _ Ha _ _ E) in H1.
    + by rewrite Hb in H.
  - intros loc Hin. pose proof (contract_read s' _ loc Hok') as H. rewrite lookup_without in H.
    rewrite decide_True in H by (by apply (list_elem_of_fmap_2 loc_id)). done.
  - eapply Forall2_impl; [exact Hp|]. intros b loc Hl Hni. pose proof (contract_read s' _ loc Hok') as H.
    rewrite lookup_without, decide_False, Hl in H; [done|].
    intros (loc' & Heq & Hin)%list_elem_of_fmap. apply Hni. destruct loc, loc'. simpl in Heq. by subst.
Qed.

(** The default [put_blocks] stores the whole batch: it succeeds, returns the
    locations in input order, and afterwards every block of the batch reads back
    its payload while no block stored before has changed. *)
Lemma put_blocks_stores_batch (bs : list EncodedBlock) (s : S) (a : AStore) :
  store_ok s a ->
  exists locs s', put_blocks bs s = (Ok locs, s') /\
    Forall2 (fun b loc => read_block loc s' = Ok (data b)) bs locs /\
    (forall loc bytes, read_block loc s = Ok bytes -> read_block loc s' = Ok bytes).
Proof using SC.
  intros Hok.
  assert (exists locs s' a', put_blocks bs s = (Ok locs, s') /\ adds a bs locs a' /\ store_ok s' a')
    as (locs & s' & a' & Hr & Ha & Hok').
  { revert s a Hok. induction bs as [|b bs IH]; intros s a Hok; cbn [put_blocks].
    - by exists [], s, a; split_and!; [|constructor|].
    - destruct (contract_put s a b Hok) as (id & s1 & -> & Hf & Hok1).
      destruct (IH _ _ Hok1) as (locs & s2 & a2 & -> & Ha & Hok2).
      exists (mkLoc id :: locs), s2, a2. by split_and!; [|constructor|]. }
  exists locs, s'. split; [done|]. split.
  - eapply Forall2_impl; [exact (adds_present _ _ _ _ Ha)|]. intros b loc Hl.
    pose proof (contract_read s' a' loc Hok') as H. by rewrite Hl in H.
  - intros loc bytes Hb. pose proof (contract_read s a loc Hok) as H. destruct (a !! loc_id loc) as [b|] eqn:E.
    + rewrite Hb in H. injection H as ->. pose proof (contract_read s' a' loc Hok') as H1.
      by rewrite (adds_kept _ _ _ _ Ha _ _ E) in H1.
    + by rewrite Hb in H.
Qed.
End Contract.

(** C4: The in-memory store implements the abstract store: after any sequence of
    operations from the empty store, its state represents an abstract store that
    the same operations reach. *)
Theorem mem_store_refines (os : list store_op) :
  exists a, spec_steps os ∅ a /\ mem_ok (fold_left (fun s o => run_op o s) os MemBlockStore_new) a.
Proof. apply run_refines, mem_new_ok. Qed.

(** C13: The compaction swap leaves no window. From every state the store can reach,
    when the engine's callback fires every added block is readable with its payload
    and every block that was stored is still readable; when the call returns, no
    removed block is readable, and the added blocks not also removed still are. *)
Theorem replace_has_no_window {W : Type} (os : list store_op) (add : list EncodedBlock) (remove : list BlockLoc)
    (cb : list BlockLoc -> MemInner -> W -> W) (w : W) :
  let s := fold_left (fun s o => run_op o s) os MemBlockStore_new in
  exists locs committed s',
    mem_replace_blocks add remove cb s w = (Ok locs, s', cb locs committed w) /\
    Forall2 (fun b loc => mem_read_block loc committed = Ok (data b)) add locs /\
    (forall loc bytes, mem_read_block loc s = Ok bytes -> mem_read_block loc committed = Ok bytes) /\
    (forall loc, loc ∈ remove -> is_ok (mem_read_block loc s') = false) /\
    Forall2 (fun b loc => (loc ∉ remove) -> mem_read_block loc s' = Ok (data b)) add locs.
Proof.
  destruct (run_refines os MemBlockStore_new ∅ mem_new_ok) as (a & _ & Hok). intros s.
  exact (replace_no_window add remove cb s a w Hok).
Qed.

(** C14: Posting lists never dangle: in every state the store can reach, each posting
    list is a nonempty ascending list of ids of stored blocks. *)
Theorem postings_never_dangle (os : list store_op) :
  let s := fold_left (fun s o => run_op o s) os MemBlockStore_new in
  forall t set, postings s !! t = Some set ->
    set <> [] /\ StronglySorted Z.lt set /\ forall id, id ∈ set -> is_Some (blocks s !! id).
Proof.
  destruct (run_refines os MemBlockStore_new ∅ mem_new_ok) as (a & _ & Hok). intros s t set Hset.
  destruct (ok_sets _ _ Hok t set Hset) as [Hwf Hne]. split_and!; [done|by apply bts_wf_lt|].
  intros id Hin. destruct (proj1 (ok_terms _ _ Hok id t)) as (b & Hid & _); [by exists set|].
  unfold s. by rewrite (ok_blocks _ _ Hok), Hid.
Qed.

(** C12: A term query is exact: in every reachable state it returns, in ascending id
    order, precisely the stored blocks that are listed under all the terms and
    whose range overlaps the query's; with no terms it is a pure time scan. *)
Theorem term_query_exact (os : list store_op) (ts : list str) (lo hi : Z) :
  let s := fold_left (fun s o => run_op o s) os MemBlockStore_new in
  exists l, query_terms ts lo hi s = Ok l /\ StronglySorted Z.lt (map (fun e => loc_id e.1) l) /\
    forall loc m, (loc, m) ∈ l <->
      (exists bytes, blocks s !! loc_id loc = Some (m, bytes)) /\
      Forall (fun t => exists set, postings s !! t = Some set /\ loc_id loc ∈ set) ts /\
      ts_min m <= hi /\ lo <= ts_max m.
Proof.
  destruct (run_refines os MemBlockStore_new ∅ mem_new_ok) as (a & _ & Hok). intros s. fold s in Hok.
  destruct (contract_query s a ts lo hi Hok) as (l & Hq & Hs & Hl). exists l. split; [done|]. split; [done|].
  intros loc m. rewrite Hl. unfold answers. setoid_rewrite (ok_blocks _ _ Hok).
  change (Forall (fun t => carries s (loc_id loc) t) ts) with
    (Forall (fun t => exists set, postings s !! t = Some set /\ loc_id loc ∈ set) ts).
  assert (forall b, overlaps (a_meta b) lo hi = true <-> ts_min (a_meta b) <= hi /\ lo <= ts_max (a_meta b)) as Hov
    by (intros b; unfold overlaps; rewrite andb_true_iff, !Z.leb_le; done).
  split.
  - intros (b & Hid & <- & Hsub & Ho). rewrite Hid. split; [by eexists|]. split; [|by apply Hov].
    apply Forall_forall. intros t Ht. apply (ok_terms _ _ Hok). exists b. split; [done|]. apply Hsub.
    by apply elem_of_list_to_set.
  - intros ((bytes & Hb) & Hts & Ho). destruct (a !! loc_id loc) as [b|] eqn:E; [|done]. cbn in Hb. injection Hb as <- <-.
    exists b. split_and!; [done|done| |by apply Hov]. intros t Ht%elem_of_list_to_set.
    pose proof (proj1 (Forall_forall _ _) Hts _ Ht) as Hc. apply (ok_terms _ _ Hok) in Hc as (b' & Hb' & Hin).
    rewrite E in Hb'. by injection Hb' as <-.
Qed.
