(* ===== verification/BlockRecovery.v ===== *)
(** * Recovering the block index

    [BlockEngine::new] of [blocks/engine.rs]: the in-memory index is rebuilt from
    the store's scan, and each block's level partition from the four [level:]
    posting lists. Everything here is proved against the store's contract, for any
    store that keeps it. *)
From Stdlib Require Import ZArith Lia Bool Strings.Byte.
From stdpp Require Import prelude gmap list sorting strings.
From S2P Require Import Prelude BTree RustStr LogEntry BlockCodec MemBlockStore.
Open Scope string_scope.
Open Scope list_scope.
Open Scope Z_scope.

Record IndexEntry := mkIndex { ie_meta : BlockMeta; ie_loc : BlockLoc; partition : option byte }.

(** [format!("level:{}", level_name(lvl))]. *)
Definition level_term (lvl : byte) : result str := let? name := level_name lvl in Ok ($"level:" ++ name).

(** [hits.entry(id).or_insert((0, lvl))], then count it. *)
Definition bump_hit (lvl : byte) (hits : gmap Z (Z * byte)) (id : Z) : gmap Z (Z * byte) :=
  let e := default (0, lvl) (hits !! id) in <[id := (e.1 + 1, lvl)]> hits.

Definition partition_of (hits : gmap Z (Z * byte)) (id : Z) : option byte :=
  match hits !! id with
  | Some (count, lvl) => if count =? 1 then Some lvl else None
  | None => None
  end.

Definition LEVELS : list byte := [x00; x01; x02; x03].

Section Recovery.
Context {S : Type} `{BS : BlockStore S}.

(** [for lvl in 0u8..4]: one metadata-only query per level. *)
Fixpoint level_hits (lvls : list byte) (hits : gmap Z (Z * byte)) (s : S) : result (gmap Z (Z * byte)) :=
  match lvls with
  | [] => Ok hits
  | lvl :: lvls' =>
    let? term := level_term lvl in
    let? found := query_terms [term] i64_min i64_max s in
    level_hits lvls' (fold_left (bump_hit lvl) (map (fun e => loc_id e.1) found) hits) s
  end.

Definition recover_index (s : S) : result (list IndexEntry) :=
  let? scanned := scan s in
  let? hits := level_hits LEVELS ∅ s in
  Ok (map (fun e => mkIndex e.1 e.2 (partition_of hits (loc_id e.2))) scanned).

(** ** Lemmas *)

Lemma bump_all lvl ids : forall hits id,
  NoDup ids ->
  fold_left (bump_hit lvl) ids hits !! id =
  if decide (id ∈ ids) then Some ((default (0, lvl) (hits !! id)).1 + 1, lvl) else hits !! id.
Proof.
  induction ids as [|i ids IH]; intros hits id Hnd; cbn [fold_left]; [done|].
  apply NoDup_cons in Hnd as [Hni Hnd]. rewrite IH by done. unfold bump_hit at 1 2.
  destruct (decide (id = i)) as [->|Hne].
  - rewrite decide_False by done. rewrite lookup_insert_eq. rewrite decide_True by (by left). done.
  - rewrite !lookup_insert_ne by done. destruct (decide (id ∈ ids)), (decide (id ∈ i :: ids)) as [Hc|Hc]; try done.
    + exfalso. apply Hc. by right.
    + apply elem_of_cons in Hc as [?|?]; done.
Qed.

Lemma sorted_NoDup (l : list Z) : StronglySorted Z.lt l -> NoDup l.
Proof.
  induction 1 as [|x l Hs IH Hf]; constructor; [|done]. intros Hin.
  pose proof (proj1 (Forall_forall _ _) Hf _ Hin). lia.
Qed.

(** The levels whose term a block carries. *)
Definition level_in (b : ABlock) (lvl : byte) : bool :=
  match level_term lvl with Ok t => bool_decide (t ∈ a_terms b) | Err _ => false end.

(** What the hit table says of a block after some of the levels. *)
Definition hit_entry (carried : list byte) : option (Z * byte) :=
  match last carried with Some lvl => Some (Z.of_nat (length carried), lvl) | None => None end.

Context {store_ok : S -> AStore -> Prop} `{SC : !StoreContract store_ok}.

(** Ranges are of 64-bit timestamps, so the full range overlaps every block. *)
Definition ranges_ok (a : AStore) : Prop :=
  map_Forall (fun _ b => ts_min (a_meta b) <= i64_max /\ i64_min <= ts_max (a_meta b)) a.

Lemma level_hits_spec s a : store_ok s a -> ranges_ok a ->
  forall lvls seen hits,
  Forall (fun l => is_ok (level_term l) = true) lvls ->
  (forall id b, a !! id = Some b -> hits !! id = hit_entry (filter (fun l => level_in b l = true) seen)) ->
  exists hits', level_hits lvls hits s = Ok hits' /\
    forall id b, a !! id = Some b -> hits' !! id = hit_entry (filter (fun l => level_in b l = true) (seen ++ lvls)).
Proof using SC.
  intros Hok Hr. induction lvls as [|lvl lvls IH]; intros seen hits Hl Hh; cbn [level_hits].
  { exists hits. by rewrite List.app_nil_r. }
  apply Forall_cons in Hl as [Hlvl Hl]. destruct (level_term lvl) as [term|] eqn:Et; [|done].
  destruct (contract_query s a [term] i64_min i64_max Hok) as (found & -> & Hs & Hf).
  destruct (IH (seen ++ [lvl]) (fold_left (bump_hit lvl) (map (fun e => loc_id e.1) found) hits)) as (hits' & Hgo & Hh');
    [done| |exists hits'; by rewrite <-List.app_assoc in Hh'].
  intros id b Hid. rewrite bump_all by (by apply sorted_NoDup). rewrite filter_app, (Hh id b Hid).
  assert (id ∈ map (fun e => loc_id e.1) found <-> level_in b lvl = true) as Hin.
  { unfold level_in. rewrite Et, bool_decide_eq_true, list_elem_of_fmap. split.
    - intros ([loc m] & -> & Hm). apply Hf in Hm as (b' & Hb' & _ & Hsub & _). cbn in Hb', Hid. rewrite Hid in Hb'.
      injection Hb' as <-. apply Hsub. set_solver.
    - intros Ht. exists (mkLoc id, a_meta b). split; [done|]. apply Hf. exists b. split_and!; [done|done|set_solver|].
      destruct (Hr id b Hid) as [H1 H2]. unfold overlaps. by rewrite !(proj2 (Z.leb_le _ _)). }
  rewrite filter_cons, filter_nil. destruct (decide (id ∈ _)) as [Hi|Hi], (decide (level_in b lvl = true)) as [Hc|Hc]; try tauto.
  - unfold hit_entry. rewrite last_snoc, length_app. simpl length.
    destruct (last (filter _ seen)) as [l0|] eqn:El; simpl.
    + f_equal. f_equal. lia.
    + apply last_None in El. rewrite El. done.
  - by rewrite List.app_nil_r.
Qed.

(** C15: Recovery rebuilds the index exactly. Over any store that keeps its contract,
    the index has one entry per stored block with the stored metadata, and the
    entry is tagged with a level precisely when the block carries that one of the
    four [level:] terms and no other; blocks carrying several, or none, are mixed. *)
Theorem recovered_index_exact (s : S) (a : AStore) :
  store_ok s a -> ranges_ok a ->
  exists index, recover_index s = Ok index /\ NoDup (map ie_loc index) /\
    forall e, e ∈ index <-> exists b, a !! loc_id (ie_loc e) = Some b /\ ie_meta e = a_meta b /\
      partition e = match filter (fun l => level_in b l = true) LEVELS with [lvl] => Some lvl | _ => None end.
Proof using SC.
  intros Hok Hr. unfold recover_index. destruct (contract_scan s a Hok) as (l & -> & Hs & Hl).
  destruct (level_hits_spec s a Hok Hr LEVELS [] ∅) as (hits & -> & Hh);
    [by repeat constructor|done|]. eexists. split; [done|].
  assert (forall id b, a !! id = Some b -> partition_of hits id =
    match filter (fun l => level_in b l = true) LEVELS with [lvl] => Some lvl | _ => None end) as Hpart.
  { intros id b Hid. unfold partition_of. rewrite (Hh id b Hid). cbn [app]. unfold hit_entry.
    destruct (filter _ LEVELS) as [|x [|y ls]]; [done|done|].
    destruct (last (x :: y :: ls)) as [z|] eqn:El; [|done]. destruct (Z.eqb_spec (Z.of_nat (length (x :: y :: ls))) 1); [|done].
    simpl in *. lia. }
  rewrite map_map. cbn [ie_loc]. split.
  - apply (NoDup_fmap_1 loc_id). change (NoDup (map loc_id (map (fun e => e.2) l))). rewrite map_map. by apply sorted_NoDup.
  - intros e. rewrite list_elem_of_fmap. split.
    + intros ([m loc] & -> & Hin). apply Hl in Hin as (b & Hid & <-). exists b. cbn. split_and!; try done. by apply Hpart.
    + intros (b & Hid & Hm & Hp). exists (a_meta b, ie_loc e). split; [|apply Hl; by exists b].
      cbn [fst snd]. destruct e as [m loc p]. cbn in *. rewrite (Hpart _ _ Hid). by subst.
Qed.
End Recovery.
