(* ===== verification/StoredJson.v ===== *)
(** * A concrete JSON library

    An executable instance of the [SerdeJson] interface that satisfies its laws:
    it reads and writes the flat objects of strings that plain metadata is, with
    the parser and the printer of [flatjson.rs], and refuses every other value. *)
From Stdlib Require Import ZArith Lia Bool Strings.Byte.
From stdpp Require Import prelude list strings.
From S2P Require Import Prelude BTree FlatJson LogEntry PairsColumn BlockCodec.
Open Scope string_scope.
Open Scope list_scope.
Open Scope Z_scope.

Abbreviation FlatValue := (Value unit).

Definition flat_text (v : FlatValue) : result str :=
  match v with VString s => Ok s | _ => Err (Fmt "not a string" []) end.

Definition flat_pair (p : str * FlatValue) : result (str * str) :=
  let? v := flat_text p.2 in Ok (p.1, v).

Definition flat_print (m : list (str * FlatValue)) : result str :=
  let? pairs := map_result flat_pair m in
  if utf8_valid (pairs_to_json pairs) then Ok (pairs_to_json pairs) else Err (Fmt "not UTF-8" []).

Definition flat_put (k v : str) (m : list (str * FlatValue)) : list (str * FlatValue) := m ++ [(k, VString v)].

Definition flat_json : SerdeJson := {|
  json_number := unit;
  json_from_str s := let? m := parse_object "object" label_value flat_put [] s in Ok (VObject m);
  json_to_string v := flat_text v;
  json_map_to_string := flat_print;
|}.

Lemma flat_pairs_strings (pairs : pairs_of) : map_result flat_pair (map (prod_map id VString) pairs) = Ok pairs.
Proof. induction pairs as [|[k v] pairs IH]; [done|]. cbn [map map_result flat_pair flat_text prod_map fst snd]. by rewrite IH. Qed.

Lemma put_pairs_strings (pairs : pairs_of) m :
  put_pairs flat_put id m pairs = m ++ map (prod_map id VString) pairs.
Proof.
  unfold put_pairs. revert m. induction pairs as [|[k v] pairs IH]; intros m; [by rewrite List.app_nil_r|].
  cbn [fold_left]. rewrite IH. unfold flat_put. by rewrite <-List.app_assoc.
Qed.

Lemma flat_json_laws : @SerdeJsonLaws flat_json.
Proof.
  constructor; cbn [json_map_to_string flat_json json_from_str].
  - intros m s. unfold flat_print. destruct (map_result flat_pair m); [|done].
    destruct (utf8_valid _) eqn:E; [|done]. by intros [= <-].
  - intros pairs s _ Hv. unfold flat_print. rewrite flat_pairs_strings.
    destruct (utf8_valid _); [|done]. intros [= <-].
    rewrite (parse_object_printed _ _ _ id); [by rewrite put_pairs_strings| |exact Hv].
    intros k v rest H. unfold label_value. cbn [peek head]. by rewrite parse_string_quoted.
Qed.
