(* ===== verification/Witnesses.v ===== *)
(** * The theorems at concrete inputs

    Each lemma applies one theorem of the library to a concrete column, block,
    store or text and checks there that its hypotheses hold. The compressors are
    those of [Stored], the JSON library the one of [StoredJson]. *)
From Stdlib Require Import ZArith Lia Bool Strings.Byte Sorted.
From stdpp Require Import prelude list sorting gmap strings.
From S2P Require Import Prelude Float64 BTree Wire Columns Stored RustStr Rollup TableArgs Template.
From S2P Require Import TemplateColumn TemplateSearch FlatJson LogEntry PairsColumn BlockCodec.
From S2P Require Import BlockSearch MemBlockStore BlockRecovery StoredJson.
Open Scope string_scope.
Open Scope list_scope.
Open Scope Z_scope.

#[local] Existing Instance stored_zstd.
#[local] Existing Instance stored_zstd_laws.
#[local] Existing Instance stored_pco_i64.
#[local] Existing Instance stored_pco_i64_laws.
#[local] Existing Instance stored_pco_f64.
#[local] Existing Instance stored_pco_f64_laws.
#[local] Existing Instance flat_json.
#[local] Existing Instance flat_json_laws.

(** Closes a closed fact about small concrete data. *)
Ltac computed := vm_compute; repeat match goal with |- _ /\ _ => split end; first [reflexivity | discriminate].
Ltac concrete :=
  match goal with
  | |- Forall _ _ => repeat first [apply Forall_nil_2 | apply Forall_cons_2; [concrete|]]
  | |- _ /\ _ => split; concrete
  | |- _ => computed
  end.

Definition unwrap {A} (d : A) (r : result A) : A := match r with Ok a => a | Err _ => d end.

(** ** Columns *)

Definition times : list Z := [1700000000; 1700000015; -5; 9223372036854775807].

Lemma i64_column_round_trip_witness :
  match let? c := encode_i64 times 3 in to_bytes c with
  | Ok bytes => decode_i64 bytes (length times) = Ok times
  | Err e => codec_failure e
  end.
Proof. apply (i64_column_round_trip times 3); concrete. Defined.

(** A signalling NaN, minus zero and one. *)
Definition floats : list f64 := [mkF64 9219994337134247937; mkF64 9223372036854775808; mkF64 4607182418800017408].

Lemma f64_column_round_trip_witness :
  match let? c := encode_f64 floats 3 in to_bytes c with
  | Ok bytes => decode_f64 bytes (length floats) = Ok floats
  | Err e => codec_failure e
  end.
Proof. apply (f64_column_round_trip floats 3); concrete. Defined.

Lemma fixed_column_round_trip_witness :
  match let? c := encode_fixed_bytes ($"abcdefgh") 4 3 in to_bytes c with
  | Ok bytes => (0 < 4)%nat /\ decode_fixed_bytes bytes 2 4 = Ok ($"abcdefgh")
  | Err e => 4%nat = 0%nat \/ codec_failure e
  end.
Proof. apply (fixed_column_round_trip ($"abcdefgh") 2 4 3); concrete. Defined.

Definition hosts : list str := [$"web-1"; $"web-2"; $"web-1"; $"web-1"; $"web-1"; $"web-1"].

Lemma str_column_round_trip_witness :
  match let? c := encode_str hosts (length hosts) 3 in to_bytes c with
  | Ok bytes => decode_str bytes (length hosts) = Ok hosts
  | Err e => codec_failure e
  end.
Proof. apply (str_column_round_trip hosts 3); concrete. Defined.

Definition hosts_bytes : list byte := unwrap [] (let? c := encode_str hosts 6 3 in to_bytes c).

Lemma column_decoders_return_count_witness :
  exists out, decode_str hosts_bytes 6 = Ok out /\ length out = 6%nat /\ Forall is_str out.
Proof.
  destruct (column_decoders_return_count hosts_bytes 6 1) as (_ & _ & _ & _ & H).
  assert (decode_str hosts_bytes 6 = Ok hosts) as Hd by (vm_compute; reflexivity).
  exists hosts. split; [exact Hd|exact (H hosts Hd)].
Defined.

Lemma decode_str_selected_exact_witness :
  if selected_ok 6 [1; 4]%nat then
    match decode_str hosts_bytes 6 with
    | Ok strs => decode_str_selected hosts_bytes 6 [1; 4]%nat = Ok (map (fun i => nth i strs []) [1; 4]%nat)
    | Err _ => is_ok (decode_str_selected hosts_bytes 6 [1; 4]%nat) = false
    end
  else is_ok (decode_str_selected hosts_bytes 6 [1; 4]%nat) = false.
Proof. apply (decode_str_selected_exact hosts_bytes 6 [1; 4]%nat). Defined.

(** One string of exactly 64 MiB: its length prefix takes the column over the cap. *)
Lemma single_str_stored (s : str) :
  Z.of_nat (length s) + 5 <= u32_max ->
  exists c bytes, encode_str [s] 1 3 = Ok c /\ encoding c = ENC_STR_ZSTD /\ to_bytes c = Ok bytes.
Proof.
  intros Hs. unfold encode_str. cbn [length Nat.eqb negb].
  assert (dict_worthy (take (Nat.min 1 SAMPLE_LEN) [s]) = false) as ->.
  { replace (take (Nat.min 1 SAMPLE_LEN) [s]) with [s] by reflexivity.
    unfold dict_worthy. cbn [list_to_set]. rewrite union_empty_r_L, size_singleton. reflexivity. }
  unfold concat_strs. destruct (Z.ltb_spec u32_max (Z.of_nat (length s))); [lia|].
  eexists _, _. split; [reflexivity|]. split; [reflexivity|]. unfold to_bytes, u32_len. cbn [payload length].
  rewrite !length_app, length_u32_le. cbn [length].
  match goal with |- context [?a <=? ?b] => destruct (Z.leb_spec a b); [reflexivity|] end.
  unfold u32_max in *. lia.
Qed.

Definition huge : str := replicate (Z.to_nat (2 ^ 26)) x61.
Lemma huge_length : Z.of_nat (length huge) = 2 ^ 26.
Proof. unfold huge. rewrite length_replicate, Z2Nat.id; [reflexivity|discriminate]. Qed.
#[local] Opaque huge.

Lemma over_cap_str_column_never_decodes_witness :
  exists c bytes, encode_str [huge] 1 3 = Ok c /\ to_bytes c = Ok bytes /\ is_ok (decode_str bytes 1) = false.
Proof.
  destruct (single_str_stored huge) as (c & bytes & Hc & He & Hb).
  - rewrite huge_length. discriminate.
  - exists c, bytes. split; [exact Hc|]. split; [exact Hb|].
    apply (over_cap_str_column_never_decodes [huge] 3 c bytes 1); [|exact Hc|exact He|exact Hb].
    rewrite strs_size_cons, Nat2Z.inj_add, Nat2Z.inj_add, huge_length. reflexivity.
Defined.

(** ** Rollups and table arguments *)

Definition one : f64 := mkF64 4607182418800017408.
Definition two : f64 := mkF64 4611686018427387904.
Definition samples : list (Z * f64) := [(-5, one); (30, two); (61, one); (3599, two); (3600, one)].

Lemma samples_ascending : ts_ascending samples.
Proof. repeat (constructor; [|repeat constructor; vm_compute; discriminate]). constructor. Qed.

Lemma samples_i64 : Forall (fun p => is_i64 p.1) samples.
Proof. unfold samples. concrete. Qed.

Lemma rollup_exact_witness : rollup_buckets samples 60 = Ok (naive_buckets 60 samples).
Proof.
  etransitivity; [apply (rollup_exact samples 60); [reflexivity|exact samples_ascending|exact samples_i64]|].
  reflexivity.
Defined.

Definition fine : list RollupBucket := unwrap [] (rollup_buckets samples 60).
Definition coarse : list RollupBucket := unwrap [] (rollup_buckets samples 3600).

Lemma coarse_tier_from_fine_witness :
  let parts bs := concat (map (fun b => samples_of 60 (bucket_ts b) samples) bs) in
  parts fine = samples /\ Forall (fun b => b = aggregate (bucket_ts b) (parts [b])) fine /\
  sum_list_with (fun b => Z.to_nat (count b)) coarse = length samples /\
  Forall (fun c =>
    let inside := filter (fun b => start 3600 (bucket_ts b) = bucket_ts c) fine in
    c = aggregate (bucket_ts c) (parts inside) /\
    count c = Z.of_nat (sum_list_with (fun b => Z.to_nat (count b)) inside) /\
    rb_min c = fold1 f64_min (map rb_min inside) /\ rb_max c = fold1 f64_max (map rb_max inside) /\
    exists newest, last inside = Some newest /\ last_ts c = last_ts newest /\ last_val c = last_val newest) coarse.
Proof.
  apply (coarse_tier_from_fine samples 60 3600 fine coarse);
    [reflexivity|reflexivity|by exists 60|exact samples_ascending|exact samples_i64|vm_compute; reflexivity..].
Defined.

Lemma rollup_payload_round_trip_witness :
  match encode_rollup_payload fine with
  | Ok p => decode_rollup_payload p = Ok fine
  | Err e => exists z, e = Fmt "rollup payload compression failed: {e}" [FErr z]
  end.
Proof.
  apply (rollup_payload_round_trip fine []); [|computed].
  apply (Forall_lookup_2 bucket_ok). intros i b Hb. unfold bucket_ok, is_i64, is_u64, is_f64, is_u64.
  repeat (destruct i as [|i]; [vm_compute in Hb; injection Hb as <-; vm_compute; intuition discriminate|]).
  vm_compute in Hb. discriminate Hb.
Defined.

Definition ladder : list RollupTier := [mkTier 300 2592000; mkTier 3600 0].

Lemma ladder_storage_round_trip_witness :
  parse_ladder ($"300:2592000,3600:0") = Ok ladder /\ ladder_wf ladder /\
  parse_ladder (join x2c (map show_tier ladder)) = Ok ladder.
Proof.
  assert (parse_ladder ($"300:2592000,3600:0") = Ok ladder) as H by (vm_compute; reflexivity).
  destruct (ladder_storage_round_trip ladder ($"300:2592000,3600:0")) as [H1 H2]. auto.
Defined.

Lemma parse_retention_exact_witness :
  parse_retention ($"30") 1000 = Ok 30 /\ parse_retention ($"30d") 1000 = Ok 2592000000 /\
  0 < 2592000000 <= i64_max.
Proof.
  assert (parse_retention ($"30d") 1000 = Ok 2592000000) as H by (vm_compute; reflexivity).
  destruct (parse_retention_exact 30 1000 86400 2592000000 x64 ($"30d")) as [H1 H2].
  destruct H1 as [H3 H4]; [split; [reflexivity|discriminate]|reflexivity|discriminate|reflexivity|].
  split; [exact H3|]. split; [exact H|exact (H2 H)].
Defined.

Definition rollups_of (value : str) : list RollupTier * str := unwrap ([], []) (parse_rollups value 1).

Lemma parse_rollups_persists_witness :
  rollups_of ($"5m@30d, 1h@0") = (ladder, $"300:2592000,3600:0") /\
  ladder <> [] /\ ladder_wf ladder /\ parse_ladder ($"300:2592000,3600:0") = Ok ladder.
Proof.
  split; [vm_compute; reflexivity|].
  destruct (parse_rollups_persists ($"5m@30d, 1h@0") ($"300:2592000,3600:0") 1 ladder) as (H1 & H2 & _ & _ & H3);
    [vm_compute; reflexivity|]. auto.
Defined.

(** ** Templates *)

Definition messages : list str :=
  [$"GET /user/17 took 250ms"; $"GET /user/018 took 3ms"; $"cache miss for k9f3"; $"GET /user/17 took 250ms"].

Lemma messages_valid : Forall is_str messages.
Proof. unfold messages. concrete. Qed.
Lemma messages_fits : messages_fit messages.
Proof. unfold messages_fit. computed. Qed.

Definition messages_column : list byte := unwrap [] (encode_template_str messages 3).

Lemma messages_encode : encode_template_str messages 3 = Ok messages_column.
Proof. vm_compute. reflexivity. Qed.

Lemma tokenizer_lossless_witness :
  let '(template, vs) := tokenize ($"GET /user/018 took 3ms") true in
  detokenize template (stream_widths vs) (stream_values vs) (strs_of vs) = Ok ($"GET /user/018 took 3ms") /\
  slot_kinds template = map kind vs /\ Forall (fun v => has_digit (text v) = true) vs.
Proof. apply (tokenizer_lossless ($"GET /user/018 took 3ms") true). computed. Defined.

Lemma template_column_round_trip_witness :
  match encode_template_str messages 3 with
  | Ok bytes => decode_template_str bytes (length messages) = Ok messages
  | Err e => column_failure e
  end.
Proof. apply (template_column_round_trip messages 3); [exact messages_valid|exact messages_fits]. Defined.

Lemma short_runs_dec needle :
  forallb (fun r => (length r <=? 19)%nat) (inner_runs (needle_parts needle)) = true -> short_runs needle.
Proof.
  intros H. apply Forall_forall. intros r Hr. rewrite forallb_forall in H. apply Nat.leb_le, H. by apply list_elem_of_In.
Qed.

Lemma column_may_contain_sound_witness :
  exists answer, column_may_contain messages_column ($"user/99") = Ok answer /\
    (answer = false -> Forall (fun m => contains_ci m ($"user/99") = false) messages).
Proof.
  apply (column_may_contain_sound messages 3 messages_column ($"user/99"));
    [exact messages_valid|exact messages_fits|exact messages_encode|apply short_runs_dec; computed].
Defined.

Lemma wide_run_false_absence_witness :
  exists bytes, encode_template_str [padded_message] 3 = Ok bytes /\
    contains_ci padded_message padded_message = true /\ column_may_contain bytes padded_message = Ok false.
Proof.
  exists (unwrap [] (encode_template_str [padded_message] 3)).
  assert (encode_template_str [padded_message] 3 = Ok (unwrap [] (encode_template_str [padded_message] 3))) as He
    by (vm_compute; reflexivity).
  split; [exact He|]. exact (wide_run_false_absence 3 _ He).
Defined.

Lemma filtered_decode_exact_witness :
  exists k,
    decode_template_str_filtered messages_column (length messages) ($"/USER/17")
    = Ok (mkFiltered (filter (fun p => contains_ci p.2 ($"/USER/17") = true) (imap pair messages)) k) /\
    (k <= length messages)%nat.
Proof.
  apply (filtered_decode_exact messages 3 messages_column ($"/USER/17"));
    [exact messages_valid|exact messages_fits|exact messages_encode|discriminate|reflexivity|apply short_runs_dec; computed].
Defined.

(** ** Flat JSON and log entries *)

Definition labels : list (str * str) := [($"host", $"web-1"); ($"path", x5c :: $"n " ++ [xc3; xa9]); ($"host", $"db")].

Lemma labels_json_round_trip_witness :
  parse_labels_json (pairs_to_json labels) = Ok (fold_left (fun m '(k, v) => put_label k v m) labels ∅).
Proof. apply (labels_json_round_trip labels). unfold labels. concrete. Defined.

Lemma flat_filter_is_equality_witness :
  exists pairs : list (str * str),
    parse_matchers_json (pairs_to_json labels) = Ok (map (prod_map id MEq) pairs) /\
    fold_left (fun m '(k, v) => put_label k v m) labels ∅ = fold_left (fun m '(k, v) => put_label k v m) pairs ∅.
Proof.
  apply (flat_filter_is_equality (pairs_to_json labels)), labels_printed. unfold labels. concrete.
Defined.

Definition request : LogEntry :=
  mkEntry 1700000000 x01 None ($"GET /user/17 took 250ms") [($"host", $"web-1"); ($"status", $"200")] None.

Lemma request_sorted : btm_wf (metadata request).
Proof. repeat constructor. Qed.

Lemma meta_value_exact_witness :
  meta_value request ($"status") = Some ($"200") <-> ($"status", $"200") ∈ metadata request.
Proof. apply (meta_value_exact request ($"status") ($"200")). exact request_sorted. Defined.

(** ** Blocks *)

Definition slow_request : LogEntry :=
  mkEntry 1700000042 x03 None ($"GET /user/018 took 9000ms") [($"host", $"web-2")] None.
Definition entries : list LogEntry := [request; slow_request].

Lemma entries_valid : Forall entry_valid entries.
Proof. unfold entries. repeat apply Forall_cons_2; [| |apply Forall_nil_2]; unfold entry_valid; (split; [computed|split; [computed|]]); cbn [metadata request slow_request]; concrete. Qed.

Lemma template_fits : block_fits CODEC_RICH_TEMPLATE entries.
Proof.
  split; [computed|]. split; [change (messages_fit (map message entries)); unfold messages_fit; computed|].
  intros raw Hr. vm_compute in Hr. injection Hr as <-. change (column_cap CODEC_RICH_TEMPLATE) with DECOMPRESS_MAX_BYTES. computed.
Qed.

Lemma metadata_column_round_trip_witness :
  exists raw bytes, serialize_metadata entries = Ok raw /\
    encode_pairs_column (map metadata entries) raw 3 = Ok bytes /\
    parse_metadata raw (length entries) = Ok (map metadata entries) /\
    decode_pairs_column "metadata" bytes (length entries) parse_metadata = Ok (map metadata entries).
Proof.
  set (raw := unwrap [] (serialize_metadata entries)).
  set (bytes := unwrap [] (encode_pairs_column (map metadata entries) raw 3)).
  assert (serialize_metadata entries = Ok raw) as Hr by (vm_compute; reflexivity).
  assert (encode_pairs_column (map metadata entries) raw 3 = Ok bytes) as Hb by (vm_compute; reflexivity).
  exists raw, bytes. split; [exact Hr|]. split; [exact Hb|].
  apply (metadata_column_round_trip entries raw bytes 3); [|unfold metadata_fits; computed|exact Hr|exact Hb|unfold vec_fits; computed].
  cbn [map entries metadata request slow_request]. concrete.
Defined.

Lemma entries_rich : Forall rich_ok entries.
Proof.
  repeat apply Forall_cons_2; [| |apply Forall_nil_2];
    (split; [eexists; split; [reflexivity|computed]|]); intros json Hj; vm_compute in Hj; injection Hj as <-; computed.
Qed.

Definition block_of (c : byte) : list byte * BlockMeta := unwrap ([], mkMeta 0 0 0 x00) (encode_block entries c 3).
Definition template_block : list byte := (block_of CODEC_RICH_TEMPLATE).1.
Definition columnar_block : list byte := (block_of CODEC_COLUMNAR_V2).1.

Lemma template_block_eq : encode_block entries CODEC_RICH_TEMPLATE 3 = Ok (template_block, (block_of CODEC_RICH_TEMPLATE).2).
Proof. vm_compute. reflexivity. Qed.
Lemma columnar_block_eq : encode_block entries CODEC_COLUMNAR_V2 3 = Ok (columnar_block, (block_of CODEC_COLUMNAR_V2).2).
Proof. vm_compute. reflexivity. Qed.

Lemma block_round_trip_witness :
  exists out,
    map_result (normalized CODEC_RICH_TEMPLATE) entries = Ok out /\ decode_block template_block = Ok out /\
    entry_count (block_of CODEC_RICH_TEMPLATE).2 = Z.of_nat (length entries).
Proof.
  destruct (block_round_trip entries CODEC_RICH_TEMPLATE 3 template_block (block_of CODEC_RICH_TEMPLATE).2)
    as (out & H1 & H2 & _ & _ & H3 & _);
    [exact entries_valid|exact template_fits|intros _; exact entries_rich|exact template_block_eq|].
  exists out. split; [exact H1|]. split; [exact H2|exact H3].
Defined.

Lemma entries_flat : Forall (fun e => is_rich e = false /\ btm_wf (metadata e)) entries.
Proof. repeat apply Forall_cons_2; [| |apply Forall_nil_2]; (split; [reflexivity|repeat constructor]). Qed.

Lemma flat_entries_survive_rich_witness :
  exists out, decode_block template_block = Ok out /\ Forall2 enriched entries out.
Proof.
  apply (flat_entries_survive_rich entries CODEC_RICH_TEMPLATE 3 template_block (block_of CODEC_RICH_TEMPLATE).2);
    [reflexivity|exact entries_valid|exact template_fits|exact entries_flat|exact template_block_eq].
Defined.

Lemma template_never_larger_witness :
  if byte_eqb (codec (block_of CODEC_RICH_TEMPLATE).2) CODEC_RICH_TEMPLATE
  then (length template_block < length (block_of CODEC_RICH_COLUMNAR).1)%nat
  else template_block = (block_of CODEC_RICH_COLUMNAR).1 /\
       (block_of CODEC_RICH_TEMPLATE).2 = (block_of CODEC_RICH_COLUMNAR).2.
Proof.
  apply (template_never_larger entries 3 template_block (block_of CODEC_RICH_COLUMNAR).1
           (block_of CODEC_RICH_TEMPLATE).2 (block_of CODEC_RICH_COLUMNAR).2); [exact template_block_eq|].
  vm_compute. reflexivity.
Defined.

Definition columnar_entries : list LogEntry := unwrap [] (decode_block columnar_block).

Lemma columnar_decodes : decode_block columnar_block = Ok columnar_entries.
Proof. vm_compute. reflexivity. Qed.

Lemma decoded_header_exact_witness :
  Z.of_nat (length columnar_entries) <= MAX_BLOCK_ENTRIES /\
  Forall (fun e => b2z (level e) <= 3) columnar_entries /\
  exists c rest, known_codec c = true /\
    columnar_block = FORMAT_VERSION :: c :: u32_le (Z.of_nat (length columnar_entries))
      ++ i64_le (fst (ts_range (map ts columnar_entries))) ++ i64_le (snd (ts_range (map ts columnar_entries))) ++ rest.
Proof.
  apply (decoded_header_exact columnar_block ALL columnar_entries); [unfold vec_fits; computed|exact columnar_decodes].
Defined.

Lemma projection_agrees_witness :
  exists c, forall p, decode_block_projected columnar_block p = Ok (map (project c p) columnar_entries).
Proof. apply (projection_agrees columnar_block columnar_entries). exact columnar_decodes. Defined.

(** Lower case of ASCII text. *)
Definition ascii_lowercase : str -> str := lower.

Lemma gate_proves_absence_witness :
  Forall (fun e => message_contains_ci ascii_lowercase (message e) ($"zebra") = false) columnar_entries.
Proof.
  apply (gate_proves_absence ascii_lowercase columnar_block ($"zebra") columnar_entries);
    [vm_compute; discriminate|exact columnar_decodes|vm_compute; reflexivity].
Defined.

Lemma encoded_gate_sound_witness :
  Forall (fun e => message_contains_ci ascii_lowercase (message e) ($"user/99") = false) entries.
Proof.
  apply (encoded_gate_sound ascii_lowercase entries CODEC_RICH_TEMPLATE 3 template_block
           (block_of CODEC_RICH_TEMPLATE).2 ($"user/99"));
    [exact entries_valid|exact template_fits|intros _; exact entries_rich|exact template_block_eq
    |apply short_runs_dec; computed|vm_compute; reflexivity].
Defined.

Lemma filtered_block_exact_witness :
  exists out k, decode_block template_block = Ok out /\
    decode_block_filtered ascii_lowercase template_block ($"USER/17")
    = Ok (mkFBR (filter (fun p => message_contains_ci ascii_lowercase (message p.2) ($"USER/17") = true) (imap pair out))
            (length out) k) /\ (k <= length out)%nat.
Proof.
  apply (filtered_block_exact ascii_lowercase entries CODEC_RICH_TEMPLATE 3 template_block
           (block_of CODEC_RICH_TEMPLATE).2 ($"USER/17"));
    [exact entries_valid|exact template_fits|intros _; exact entries_rich|exact template_block_eq
    |apply short_runs_dec; computed].
Defined.

(** ** The store and recovery *)

Definition info_block : EncodedBlock :=
  mkBlock (mkMeta 10 20 2 CODEC_COLUMNAR_V2) [x01; x02] [$"level:info"; $"host:web-1"].
Definition mixed_block : EncodedBlock :=
  mkBlock (mkMeta 15 40 3 CODEC_RAW) [x03] [$"level:info"; $"level:error"].

(** A store holding the two blocks under ids 0 and 1. *)
Definition two_blocks : MemInner :=
  fold_left (fun s o => run_op o s) [OpPut info_block; OpPut mixed_block] MemBlockStore_new.

Lemma two_blocks_ok : exists a, mem_ok two_blocks a /\ ranges_ok a.
Proof.
  destruct (contract_put MemBlockStore_new ∅ info_block mem_new_ok) as (i & s1 & E1 & Hi & H1).
  destruct (contract_put s1 _ mixed_block H1) as (j & s2 & E2 & Hj & H2).
  exists (<[j := abs_block mixed_block]> (<[i := abs_block info_block]> ∅)). split.
  - unfold two_blocks. cbn [fold_left run_op]. rewrite E1. cbn [snd]. rewrite E2. exact H2.
  - apply map_Forall_insert_2; [computed|]. apply map_Forall_insert_2; [computed|]. apply map_Forall_empty.
Qed.

Lemma replace_has_no_window_witness :
  exists locs committed s',
    mem_replace_blocks [info_block] [mkLoc 1] (fun l s w => w ++ [l]) two_blocks [] = (Ok locs, s', [locs]) /\
    Forall2 (fun b loc => mem_read_block loc committed = Ok (data b)) [info_block] locs /\
    is_ok (mem_read_block (mkLoc 1) s') = false.
Proof.
  destruct (replace_has_no_window [OpPut info_block; OpPut mixed_block] [info_block] [mkLoc 1]
              (fun l s w => w ++ [l]) []) as (locs & committed & s' & H1 & H2 & _ & H4 & _).
  exists locs, committed, s'. split; [exact H1|]. split; [exact H2|]. apply H4. apply list_elem_of_singleton. reflexivity.
Defined.

Lemma postings_never_dangle_witness :
  let s := fold_left (fun s o => run_op o s) [OpPut info_block; OpPut mixed_block] MemBlockStore_new in
  exists set, postings s !! ($"level:info") = Some set /\
    set <> [] /\ StronglySorted Z.lt set /\ forall id, id ∈ set -> is_Some (blocks s !! id).
Proof.
  intros s. destruct (postings s !! ($"level:info")) as [set|] eqn:E.
  - exists set. split; [reflexivity|].
    exact (postings_never_dangle [OpPut info_block; OpPut mixed_block] ($"level:info") set E).
  - vm_compute in E. discriminate E.
Defined.

Lemma recovered_index_exact_witness :
  exists (a : AStore) index, recover_index two_blocks = Ok index /\ NoDup (map ie_loc index) /\
    forall e, e ∈ index <-> exists b, a !! loc_id (ie_loc e) = Some b /\ ie_meta e = a_meta b /\
      partition e = match filter (fun l => level_in b l = true) LEVELS with [lvl] => Some lvl | _ => None end.
Proof.
  destruct two_blocks_ok as (a & Hok & Hr). exists a.
  exact (recovered_index_exact two_blocks a Hok Hr).
Defined.
